(* ===== verification/_CoqProject ===== *)
-Q . S2P
Prelude.v
JsNumber.v
JsString.v
Hash.v
Hlc.v
Entry.v
Partition.v
Store.v
Ports.v
Engine.v
Double.v
Ring.v
RoutingTable.v
Async.v
ByteIO.v
KvWire.v
KvCodec.v
Fragment.v
Replication.v
Cluster.v
Resolver.v
MoveScheduler.v
Coordinator.v
AntiEntropy.v
Recovery.v
Membership.v
NodeMetadata.v
ClusterView.v
Clock.v
Suspicion.v
MembershipWire.v
MembershipCodec.v
Mailbox.v
SegmentedMailbox.v
FairMailbox.v
PriorityMailbox.v
Pid.v
PidInvariant.v
PidTurn.v
PidProperties.v
Broadcast.v
NetBytes.v
NetValue.v
NetCodec.v
NetQueue.v
NetFrame.v
NetConn.v
NetCredit.v
NetEnvelope.v
NetTable.v
NetChunk.v
NetSession.v
NetSessionAsks.v
NetHandshake.v
