(* ===== verification/Prelude.v ===== *)
(** * A verification of nodeakt

    nodeakt is an actor framework.  An actor's cell takes messages from a mailbox, one at a
    time.  Nodes find each other by a gossip membership protocol and speak over framed TCP
    sessions.  Cluster state lives in a replicated, partitioned key/value store, and that
    store is the core of this development.  Keys hash to a
    fixed number of partitions.  A consistent-hash ring over the live members names a
    primary and backups for each partition; the oldest member, the coordinator, folds
    the ring and the members' ownership reports into a versioned routing table and
    pushes it.  A node's router serves a request as primary, forwards it, or gathers the
    owners while a partition moves; a primary commits through its engine, one queue per
    partition, stamps records with a hybrid logical clock and replicates to a write
    quorum.  Replicas hold last-write-wins maps with tombstones and converge by merging,
    by read repair, by paged fragment transfer, and by digest-based anti-entropy; a
    recovery layer moves fragments when members crash, leave or return.

    ** The files and the code they model

    Conventions: a JavaScript number used as an integer is a [Z], with the 32- and 64-bit
    wrap-around written out; a string is the list of its UTF-16 units ([jsstring]); a
    [Map] or [Set] is an insertion-ordered association list or list ([jm_get], [jm_set],
    [set_add]); a thrown exception is [Throw] of the [result] monad; bytes are lists of
    [Z].  Operations keep the names of the source, prefixed where two classes share one.

    - [Prelude] (this file): errors and the error monad, JavaScript maps, lists, XOR sums.
    - [JsNumber], [JsString]: the language: 32-bit operators, big-endian fields, 64-bit
      wrap-around, binary search; string order, UTF-16 well-formedness, UTF-8 encoding and
      decoding with the byte-order-mark rule of [TextDecoder].
    - [Hash] (src/kv/hash.ts), [Hlc] (hlc.ts), [Entry] (entry.ts), [Partition]
      (partition.ts), [Store] (store.ts), [Ports] (ports.ts, constants.ts,
      discriminants.ts): one node's storage, from hashing a key to the janitor.
    - [Engine] (engine.ts): the pipelines and the commit path.
    - [Double] (IEEE-754 division, product and comparison), [Ring] (ring.ts),
      [RoutingTable] (routing.table.ts): placement.
    - [ByteIO], [KvWire], [KvCodec] (wire.ts): the byte writer and reader, the nineteen
      messages, and the codec's correctness.  Encoders are written once against the
      [ByteSink] interface and instantiated with the growable writer and with lists.
    - [Fragment] (fragment.ts): paged transfer, both sides.
    - [Async]: asynchronous methods as programs over a node's state with awaits, requests
      and posts ([async]), the semantics of a cluster of such nodes with message loss,
      reordering and crashes ([step]), an executable scheduler ([schedule]), and a program
      logic for facts that last ([wp], [adequacy]).
    - [Replication] (replication.ts, primary.backup.ts): the router and the primary's
      group as such programs; [Cluster]: the cluster-wide durability proof.
    - [Resolver] (resolver.ts), [MoveScheduler] (move.scheduler.ts).
    - [Coordinator] (coordinator.ts): the author and the receivers of the routing table.
    - [AntiEntropy] (anti.entropy.ts), [Recovery] (recovery.ts).
    - [Membership] (src/membership/view.ts), [Clock] (clock.ts), [Suspicion]
      (suspicion.ts), [MembershipWire] and [MembershipCodec] (wire.ts), [Broadcast]
      (broadcast.ts): the membership table, its timers, its wire form and its gossip queue;
      [NodeMetadata] (src/clustering.metadata.ts) and [ClusterView] (src/clustering.view.ts):
      what the store sees of it.
    - [Mailbox] (src/mailbox.ts, bounded.mailbox.ts, unbounded.mailbox.ts),
      [SegmentedMailbox], [FairMailbox], [PriorityMailbox]: the mailboxes, instances of one
      contract; [Pid] (src/pid.ts, stash.ts, behavior.stack.ts, reentrancy.ts): an actor's
      cell as steps of the event loop, with its invariant in [PidInvariant] and [PidTurn] and
      its guarantees in [PidProperties].
    - [NetBytes], [NetValue], [NetCodec] (src/net/values.ts): byte primitives and the payload
      codec over a heap with sharing and cycles.
    - [NetQueue] (queue.ts), [NetFrame] (frame.ts and the parser of conn.ts), [NetConn] (the
      write side of conn.ts), [NetCredit] (credit.ts), [NetEnvelope] (envelope.ts),
      [NetTable] (table.ts), [NetChunk] (chunk.ts): the parts of a connection.
    - [NetSession] (session.ts): a session over the [FrameSink] interface of the framed
      connection, as a handler per event; [NetSessionAsks]: its invariant; [NetHandshake]:
      the framed connection as an instance, and the theorems on sessions.

    ** What the theorems show

    - Storage: stamps of a clock only grow; a fragment's rolling digest is the XOR of what
      it stores; merges converge whatever their order; the store refines a
      last-write-wins map; the janitor is invisible to readers and reaches every partition.
    - Engine: each pipeline is a queue that no failure stalls, commits are ordered, and on
      its own the engine refines an atomic map with expiry, for every interleaving.
    - Placement: the ring depends on the set of members only, bounds every member's load,
      gives distinct backups, and keeps the survivors of a crash among the new replicas;
      a table keeps every live owner with data; recomputing it is stable.
    - Wire: decoding inverts encoding for every message, and frames are self-delimiting.
    - Protocols: an acknowledged write is on a quorum in every execution of a cluster; a
      gathered read returns the newest record and repairs the others; conditional writes
      are refused while a partition moves; a push or a pull of a fragment leaves the
      last-write-wins union; a push of a table leaves no member silently diverged; an
      anti-entropy pass converges; crash recovery ends and misses no survivor's record;
      a drain hands everything over; a re-seed replaces the fragment.
    - Membership: views that received the same updates agree, in any order; a member refutes
      what is said against it; suspicions expire at their deadline and not otherwise; the
      broadcast queue drains; nodes with the same members name the same coordinator; the
      codecs invert, however the stream is cut.
    - Actors: mailboxes refine a queue, a stable priority order or fair turns; a cell loses no
      message, runs one turn at a time, ends its turns and drains before it stops.
    - Transport: a value and a chunked frame arrive as they were sent; frames arrive in order
      whatever the socket's chunks, batches and backpressure; bytes and credits are accounted
      for and parked frames drain; a handshake leaves both ends with the same terms; no ask is
      lost, and a session that closes settles every one.  An ask whose send throws is rejected
      and keeps its entry until the deadline, so an ask can be settled and pending at once.
    - Where the code does not do what it means to, a theorem shows that instead: a write
      behind a merged record, a stale sender's conditional write, a deposed coordinator's
      table, a crash of a partition with a previous owner, a record arriving during a
      drain, a key that starts with a byte order mark, a member first heard of as suspected, a
      request abandoned by a suspended actor, a restart that outlives a stop, payloads that
      the decoder refuses or changes, a liveness check that probes once.

    ** Bounds, fuel and hypotheses

    Loops that are not structural carry fuel: a push or a pull of a fragment is given more
    than one unit per record, and each page consumes a record or ends, so the theorems ask
    for fuel above the number of records and prove the result is returned.  Rings assume
    fewer than 2^26 members, partition counts at most 2^53 (2^49 for the load bound), so
    that array indices stay in 32 bits and the double arithmetic stays exact enough;
    fragments have fewer than 2^31 records, as an array has.  A physical clock reading is
    an argument, a failing one included.  A peer is a function from request bytes to reply
    bytes, or a node of the cluster semantics; what a client relies on is an interface
    ([PageServer], [SyncServer]) that the serving side's code is shown to implement.
    Anti-entropy convergence assumes equal digests stand for equal fragments; without it a
    hash collision hides a difference until the next write.

    A turn of an actor is bounded by [THROUGHPUT] messages and a payload by [MAX_DEPTH]
    levels, as in the code; the batching loops of a connection carry one unit of fuel per
    queued frame, and a batch takes at least one.  What a socket answers to a write is a
    parameter, its callbacks and events are steps in any order.  Mailbox priorities, behaviors
    and owner callbacks are parameters; a session's owner does not call back into it before
    its handler returns.

    ** Not modelled

    In the store's protocols a timeout appears only as "the request failed"; the text of
    error messages that embed values is fixed.  Of membership, the probing, synchronization
    and transport loops; of the network, reconnecting peers, the listener, default timers and
    TLS; of actors, the system around a cell (spawning, tree, watching, routing, scheduling,
    passivation).  Remoting, worker threads, clustering of actors, discovery, logging and
    metrics are not modelled: they are mostly I/O of the platform or only pass values on, and
    what the modelled parts use of them is state the environment changes or a parameter. *)
From stdpp Require Export base list gmap strings sorting.
From Stdlib Require Export ZArith Lia.

#[global] Open Scope Z_scope.

(** ** Errors and the error monad *)

(** The exceptions the modelled code throws, with their messages or fields. *)
Inductive js_error :=
  | RangeError (msg : string)
  | TypeError (msg : string)
  | KvProtocolError (msg : string)
  | PartitionRebalancingError (partition : Z)
  | ClusterUnavailableError
  | KvQuorumError (kind : string) (got need : Z)
  | IncarnationExhaustedError (incarnation : Z)
  | MembershipCapacityError
  | ProtocolError (message : string)
  | ValueDecodeError (message : string)
  | PlainError (message : string)
  | PeerError (code sentinel : Z) (name message : list Z)
  | TransportError.  (* the rejection of a carrier's request *)

Inductive result (A : Type) :=
  | Ok (a : A)
  | Throw (e : js_error).
Arguments Ok {A} _.
Arguments Throw {A} _.

#[global] Instance Ok_inj {A} : Inj (=) (=) (@Ok A).
Proof. by intros ?? [= ->]. Qed.

Definition result_bind {A B} (c : result A) (k : A → result B) : result B :=
  match c with
  | Ok a => k a
  | Throw e => Throw e
  end.

Declare Scope nodeakt_scope.
Delimit Scope nodeakt_scope with nodeakt.
#[global] Open Scope nodeakt_scope.

Notation "'let!' x ':=' c 'in' k" := (result_bind c (λ x, k))
  (at level 10, x pattern, c at level 100, k at level 200) : nodeakt_scope.

Definition is_ok {A} (r : result A) : bool :=
  match r with Ok _ => true | Throw _ => false end.

Definition or_else {A} (d : A) (r : result A) : A :=
  match r with Ok a => a | Throw _ => d end.

Definition guard_throw (ok : bool) (e : js_error) : result unit :=
  if ok then Ok tt else Throw e.

Lemma guard_throw_ok b e u : guard_throw b e = Ok u → b = true.
Proof. by destruct b. Qed.

Lemma result_bind_ok {A B} (c : result A) (k : A → result B) b :
  result_bind c k = Ok b → ∃ a, c = Ok a ∧ k a = Ok b.
Proof. destruct c as [a|]; simpl; [eauto | done]. Qed.

Create HintDb nodeakt.

(** Splits a hypothesis that a chain of fallible calls returned. *)
Ltac inv_ok :=
  repeat match goal with
    | H : result_bind _ _ = Ok _ |- _ =>
        let a := fresh "r" in let E := fresh "E" in
        apply result_bind_ok in H as (a & E & H)
    | H : Ok _ = Ok _ |- _ => injection H as H; subst
    | H : Throw _ = Ok _ |- _ => discriminate H
    | H : guard_throw _ _ = Ok _ |- _ => apply guard_throw_ok in H
    end.

(** [Number.isSafeInteger] on the integers the model represents. *)
Definition MAX_SAFE_INTEGER : Z := 2 ^ 53 - 1.
Definition is_safe_integer (z : Z) : bool :=
  (- MAX_SAFE_INTEGER <=? z) && (z <=? MAX_SAFE_INTEGER).

(** ** Insertion-ordered maps: the JavaScript [Map] *)

(** A [Map] is the list of its bindings in insertion order.  [set] on a present
    key keeps the key's position; iteration is in list order. *)
Section jsmap.
Context {K V : Type} `{EqDecision K}.
Implicit Types (m : list (K * V)) (k : K) (v : V).

Fixpoint jm_get k m : option V :=
  match m with
  | [] => None
  | (k', v) :: m' => if decide (k = k') then Some v else jm_get k m'
  end.

Fixpoint jm_set k v m : list (K * V) :=
  match m with
  | [] => [(k, v)]
  | (k', v') :: m' =>
      if decide (k = k') then (k', v) :: m' else (k', v') :: jm_set k v m'
  end.

Fixpoint jm_delete k m : list (K * V) :=
  match m with
  | [] => []
  | (k', v) :: m' => if decide (k = k') then jm_delete k m' else (k', v) :: jm_delete k m'
  end.

Definition jm_has k m : bool := match jm_get k m with Some _ => true | None => false end.
Definition jm_keys m : list K := m.*1.
Definition jm_values m : list V := m.*2.

(** No key is bound twice. *)
Definition jm_wf m : Prop := NoDup (m.*1).

Lemma jm_get_set k k' v m :
  jm_get k' (jm_set k v m) = if decide (k' = k) then Some v else jm_get k' m.
Proof.
  induction m as [|[j w] m IH]; simpl; [done|].
  destruct (decide (k = j)) as [->|]; simpl.
  - by destruct (decide (k' = j)).
  - destruct (decide (k' = j)) as [->|]; simpl.
    + destruct (decide (j = k)); congruence.
    + apply IH.
Qed.

Lemma jm_get_delete k k' m :
  jm_get k' (jm_delete k m) = if decide (k' = k) then None else jm_get k' m.
Proof.
  induction m as [|[j w] m IH]; simpl; [by destruct (decide _)|].
  destruct (decide (k = j)) as [->|]; simpl.
  - rewrite IH. by destruct (decide (k' = j)).
  - destruct (decide (k' = j)) as [->|]; simpl; [|apply IH].
    destruct (decide (j = k)); congruence.
Qed.

Lemma jm_get_elem k v m : jm_get k m = Some v → (k, v) ∈ m.
Proof.
  induction m as [|[j w] m IH]; simpl; [done|].
  destruct (decide (k = j)); intros; simplify_eq; [left | right; auto].
Qed.

Lemma jm_get_None k m : jm_get k m = None ↔ k ∉ m.*1.
Proof.
  induction m as [|[j w] m IH]; csimpl; [split; [intros _; apply not_elem_of_nil | done]|].
  rewrite not_elem_of_cons.
  destruct (decide (k = j)); [split; [done | tauto]|]. rewrite IH. tauto.
Qed.

Lemma elem_jm_get k v m : jm_wf m → (k, v) ∈ m → jm_get k m = Some v.
Proof.
  unfold jm_wf.
  induction m as [|[j w] m IH]; csimpl; [intros _ []%not_elem_of_nil|].
  rewrite NoDup_cons, elem_of_cons. intros [Hj Hm] [Heq|Hin].
  - simplify_eq. by rewrite decide_True.
  - destruct (decide (k = j)) as [->|]; [|auto].
    destruct Hj. apply list_elem_of_fmap. by exists (j, v).
Qed.

Lemma jm_set_keys k v m :
  (jm_set k v m).*1 = if decide (k ∈ m.*1) then m.*1 else m.*1 ++ [k].
Proof.
  induction m as [|[j w] m IH]; csimpl.
  { destruct (decide (k ∈ [])) as [H|]; [by apply elem_of_nil in H | done]. }
  destruct (decide (k = j)) as [->|Hne]; csimpl.
  - by rewrite decide_True by left.
  - rewrite IH. destruct (decide (k ∈ m.*1)) as [Hk|Hk].
    + by rewrite decide_True by (by right).
    + rewrite decide_False; [done|]. by rewrite not_elem_of_cons.
Qed.

Lemma jm_set_new k v m : k ∉ m.*1 → jm_set k v m = m ++ [(k, v)].
Proof.
  induction m as [|[j w] m IH]; csimpl; [done|]. rewrite not_elem_of_cons. intros [Hj Hm].
  rewrite decide_False by done. by rewrite IH.
Qed.

Lemma jm_delete_filter k m : jm_delete k m = filter (λ p, p.1 ≠ k) m.
Proof.
  induction m as [|[j w] m IH]; simpl; [done|].
  rewrite filter_cons. simpl.
  destruct (decide (k = j)) as [Hkj|Hkj].
  - rewrite decide_False by congruence. done.
  - rewrite decide_True by congruence. by rewrite IH.
Qed.

Lemma jm_delete_notin k m : k ∉ m.*1 → jm_delete k m = m.
Proof.
  induction m as [|[j w] m IH]; csimpl; [done|]. rewrite not_elem_of_cons. intros [Hj Hm].
  rewrite decide_False by done. by rewrite IH.
Qed.

Lemma jm_wf_nil : jm_wf [].
Proof. apply NoDup_nil_2. Qed.

Lemma jm_wf_set k v m : jm_wf m → jm_wf (jm_set k v m).
Proof.
  unfold jm_wf. rewrite jm_set_keys. intros Hm. destruct (decide _); [done|].
  apply NoDup_app. split; [done|]. split; [|apply NoDup_singleton].
  intros x Hx. rewrite list_elem_of_singleton. congruence.
Qed.

Lemma jm_wf_filter (P : K * V → Prop) `{!∀ x, Decision (P x)} m :
  jm_wf m → jm_wf (filter P m).
Proof.
  unfold jm_wf. induction m as [|[j w] m IH]; csimpl; [done|].
  rewrite NoDup_cons. intros [Hj Hm]. rewrite filter_cons.
  destruct (decide _); csimpl; [|auto].
  apply NoDup_cons. split; [|auto]. contradict Hj.
  apply list_elem_of_fmap in Hj as (x & -> & Hx).
  apply list_elem_of_filter in Hx as [_ Hx]. apply list_elem_of_fmap. eauto.
Qed.

Lemma jm_wf_delete k m : jm_wf m → jm_wf (jm_delete k m).
Proof. rewrite jm_delete_filter. apply jm_wf_filter. Qed.
End jsmap.

(** [Set.add]. *)
Definition set_add {A} `{EqDecision A} (x : A) (s : list A) : list A :=
  if decide (x ∈ s) then s else s ++ [x].

(** Two maps without duplicate keys and with equal lookups bind the same pairs. *)
Lemma jm_get_ext_perm {K V} `{EqDecision K} (m1 m2 : list (K * V)) :
  jm_wf m1 → jm_wf m2 → (∀ k, jm_get k m1 = jm_get k m2) → m1 ≡ₚ m2.
Proof.
  intros H1 H2 Hext. apply NoDup_Permutation; [by eapply NoDup_fmap_1.. |].
  intros [k v]. split; intros Hin%elem_jm_get; try done;
    apply jm_get_elem; congruence.
Qed.

(** ** Permutations of concatenations *)

(** Proves that two concatenations of the same lists are permutations: the left-hand side
    is rotated until its head is that of the right-hand side. *)
Ltac perm_app :=
  rewrite ?app_nil_r, ?app_nil_l, <-?app_assoc;
  let rec go n :=
    lazymatch n with
    | O => fail "perm_app"
    | S ?n =>
        first [ reflexivity
              | apply Permutation_app_head; go 12%nat
              | etransitivity; [apply Permutation_app_comm|]; rewrite <-?app_assoc; go n ]
    end in
  go 12%nat.

(** ** XOR over a list *)

(** Proves an equality of XORs bit by bit. *)
Ltac solve_xor :=
  apply Z.bits_inj'; intros ? ?; rewrite ?Z.lxor_spec, ?Z.bits_0;
  repeat match goal with |- context [Z.testbit ?a ?n] => destruct (Z.testbit a n) end;
  reflexivity.

(** The XOR of [f] over a list: what a rolling XOR digest accumulates. *)
Definition xor_over {A} (f : A → Z) (l : list A) : Z :=
  foldr (λ a acc, Z.lxor (f a) acc) 0 l.

Lemma xor_over_app {A} (f : A → Z) l1 l2 :
  xor_over f (l1 ++ l2) = Z.lxor (xor_over f l1) (xor_over f l2).
Proof.
  unfold xor_over. induction l1 as [|a l1 IH]; simpl; [done|]. by rewrite IH, Z.lxor_assoc.
Qed.

Lemma xor_over_perm {A} (f : A → Z) l1 l2 : l1 ≡ₚ l2 → xor_over f l1 = xor_over f l2.
Proof.
  unfold xor_over. induction 1 as [| |x y l|]; simpl; try congruence.
  by rewrite <-!Z.lxor_assoc, (Z.lxor_comm (f x)).
Qed.

Section xor_map.
Context {K V : Type} `{EqDecision K} (f : V → Z).

Definition xor_values (m : list (K * V)) : Z := xor_over f (jm_values m).

Lemma xor_values_set_new k v m :
  jm_get k m = None → xor_values (jm_set k v m) = Z.lxor (xor_values m) (f v).
Proof.
  unfold xor_values, jm_values. induction m as [|[j w] m IH]; csimpl.
  { intros _. by rewrite Z.lxor_0_r. }
  destruct (decide (k = j)); [done|]. intros Hm. csimpl.
  rewrite IH by done. unfold xor_over; simpl. solve_xor.
Qed.

Lemma xor_values_set_old k v old m :
  jm_get k m = Some old →
  xor_values (jm_set k v m) = Z.lxor (Z.lxor (xor_values m) (f old)) (f v).
Proof.
  unfold xor_values, jm_values. induction m as [|[j w] m IH]; csimpl; [done|].
  destruct (decide (k = j)); intros Hm; simplify_eq; csimpl.
  - unfold xor_over; simpl. solve_xor.
  - rewrite IH by done. unfold xor_over; simpl. solve_xor.
Qed.

Lemma xor_values_delete k v m :
  jm_wf m → jm_get k m = Some v → xor_values (jm_delete k m) = Z.lxor (xor_values m) (f v).
Proof.
  unfold xor_values, jm_values, jm_wf. induction m as [|[j w] m IH]; csimpl; [done|].
  rewrite NoDup_cons. intros [Hj Hm]. destruct (decide (k = j)); intros Hk; simplify_eq; csimpl.
  - rewrite jm_delete_notin by done. unfold xor_over; simpl. solve_xor.
  - rewrite IH by done. unfold xor_over; simpl. solve_xor.
Qed.
End xor_map.

(** ** Sorted lists *)

Lemma StronglySorted_lookup {A} (R : relation A) l i j x y :
  StronglySorted R l → l !! i = Some x → l !! j = Some y → (i < j)%nat → R x y.
Proof.
  intros Hl. revert i j. induction Hl as [|z l Hl IH Hz]; intros i j Hi Hj Hij; [done|].
  destruct j as [|j]; [lia|]. destruct i as [|i]; cbn in *.
  - simplify_eq. rewrite Forall_lookup in Hz. by eapply Hz.
  - apply (IH i j); [done..|lia].
Qed.

Lemma StronglySorted_filter {A} (R : relation A) (P : A → Prop) `{!∀ x, Decision (P x)} l :
  StronglySorted R l → StronglySorted R (filter P l).
Proof.
  induction 1 as [|x l Hl IH Hx]; [constructor|]. rewrite filter_cons.
  destruct (decide (P x)); [|done]. constructor; [done|].
  rewrite Forall_forall in *. intros y [_ Hy]%list_elem_of_filter. by apply Hx.
Qed.

Lemma list_filter_fmap {A B} (f : A → B) (P : B → Prop) `{∀ x, Decision (P x)} (l : list A) :
  filter P (f <$> l) = f <$> filter (λ x, P (f x)) l.
Proof.
  induction l as [|x l IH]; [done|]. rewrite fmap_cons, !filter_cons.
  destruct (decide (P (f x))); [|done]. by rewrite fmap_cons, IH.
Qed.

Lemma filter_all {A} (P : A → Prop) `{!∀ x, Decision (P x)} (l : list A) :
  (∀ x, x ∈ l → P x) → filter P l = l.
Proof.
  induction l as [|x l IH]; intros Hall; [done|]. rewrite filter_cons, decide_True by (apply Hall; left).
  by rewrite IH by (intros; apply Hall; by right).
Qed.

Lemma filter_none {A} (P : A → Prop) `{!∀ x, Decision (P x)} (l : list A) :
  (∀ x, x ∈ l → ¬ P x) → filter P l = [].
Proof.
  intros Hall. apply elem_of_nil_inv. intros x [HP Hx]%list_elem_of_filter. by apply (Hall x).
Qed.

(** ** Loops of fallible calls *)

(** The results of [f] over a list, in order; the first exception ends the loop. *)
Fixpoint result_mapM {A B} (f : A → result B) (l : list A) : result (list B) :=
  match l with
  | [] => Ok []
  | a :: l' => let! b := f a in let! bs := result_mapM f l' in Ok (b :: bs)
  end.

Lemma result_mapM_ok {A B} (f : A → result B) l bs :
  result_mapM f l = Ok bs ↔ Forall2 (λ a b, f a = Ok b) l bs.
Proof.
  revert bs. induction l as [|a l IH]; intros bs; cbn [result_mapM].
  - split; [intros [= <-]; constructor|]. by inversion 1.
  - split.
    + intros H. inv_ok. constructor; [done|]. by apply IH.
    + inversion 1 as [|? b ? bs' Hb Hbs]; subst. rewrite Hb. cbn [result_bind].
      by rewrite (proj2 (IH bs') Hbs).
Qed.

Lemma result_mapM_total {A B} (f : A → result B) (g : A → B) l :
  (∀ a, a ∈ l → f a = Ok (g a)) → result_mapM f l = Ok (g <$> l).
Proof.
  induction l as [|a l IH]; intros H; [done|]. cbn [result_mapM].
  rewrite (H a) by left. cbn [result_bind]. rewrite IH by (intros; apply H; by right). done.
Qed.
