(* ===== verification/JsNumber.v ===== *)
(** * JavaScript 32-bit number operators

    The bit operators of the language as the modelled code uses them: [>>> 0],
    [>>>], [^] and [Math.imul] on integers, with the signed and unsigned 32-bit
    conversions written out, and big-endian byte encodings as [DataView] does
    them. *)
From S2P Require Import Prelude.

Definition W32 : Z := 2 ^ 32.

(** [x >>> 0]: the conversion to an unsigned 32-bit integer. *)
Definition u32 (x : Z) : Z := x mod W32.

(** The conversion to a signed 32-bit integer that [^] and [Math.imul] apply. *)
Definition i32 (x : Z) : Z :=
  let u := x mod W32 in if u <? 2 ^ 31 then u else u - W32.

(** [x ^ y]. *)
Definition js_xor (x y : Z) : Z := Z.lxor (i32 x) (i32 y).

(** [x >>> n] for a literal shift count below 32. *)
Definition js_ushr (x n : Z) : Z := Z.shiftr (u32 x) n.

(** [Math.imul(x, y)]. *)
Definition js_imul (x y : Z) : Z := i32 (u32 x * u32 y).

Definition is_u32 (x : Z) : Prop := 0 ≤ x < W32.

Lemma W32_pos : 0 < W32.
Proof. done. Qed.

Lemma u32_range x : is_u32 (u32 x).
Proof. apply Z.mod_pos_bound, W32_pos. Qed.

Lemma u32_id x : is_u32 x → u32 x = x.
Proof. apply Z.mod_small. Qed.

Lemma u32_u32 x : u32 (u32 x) = u32 x.
Proof. apply u32_id, u32_range. Qed.

Lemma u32_i32 x : u32 (i32 x) = u32 x.
Proof.
  unfold u32, i32. cbv zeta. destruct (_ <? _).
  - by rewrite Z.mod_mod.
  - rewrite <-(Z_mod_plus_full _ 1). rewrite Z.mul_1_l, Z.sub_add. by rewrite Z.mod_mod.
Qed.

Lemma u32_land x : u32 x = Z.land x (Z.ones 32).
Proof. by rewrite Z.land_ones. Qed.

Lemma u32_lxor x y : u32 (Z.lxor x y) = Z.lxor (u32 x) (u32 y).
Proof.
  rewrite !u32_land. apply Z.bits_inj'; intros n Hn.
  rewrite !Z.lxor_spec, !Z.land_spec, Z.lxor_spec.
  by destruct (Z.testbit x n), (Z.testbit y n), (Z.testbit (Z.ones 32) n).
Qed.

Lemma u32_js_xor x y : u32 (js_xor x y) = Z.lxor (u32 x) (u32 y).
Proof. unfold js_xor. by rewrite u32_lxor, !u32_i32. Qed.

Lemma u32_js_imul x y : u32 (js_imul x y) = u32 (u32 x * u32 y).
Proof. unfold js_imul. apply u32_i32. Qed.

Lemma js_ushr_u32 x y n : u32 x = u32 y → js_ushr x n = js_ushr y n.
Proof. unfold js_ushr. by intros ->. Qed.

Lemma js_ushr_range x n : 0 ≤ n → is_u32 (js_ushr x n).
Proof.
  intros Hn. unfold js_ushr, is_u32. rewrite Z.shiftr_div_pow2 by done.
  pose proof (u32_range x) as [H0 H1].
  split; [apply Z.div_pos; [done | by apply Z.pow_pos_nonneg] |].
  apply Z.le_lt_trans with (u32 x); [|done].
  apply Z.div_le_upper_bound; [by apply Z.pow_pos_nonneg|].
  assert (1 ≤ 2 ^ n) by (apply (Z.pow_le_mono_r 2 0); lia). nia.
Qed.

Lemma is_u32_lxor x y : is_u32 x → is_u32 y → is_u32 (Z.lxor x y).
Proof.
  intros Hx Hy. rewrite <-(u32_id x), <-(u32_id y) by done.
  rewrite <-u32_lxor. apply u32_range.
Qed.

(** ** Big-endian bytes *)

(** [n] bytes of [v], most significant first: [DataView.setUint8/16/32] and
    [setBigUint64/setBigInt64], which all truncate [v] to the field width. *)
Fixpoint be_encode (n : nat) (v : Z) : list Z :=
  match n with
  | O => []
  | S n' => (v / 256 ^ Z.of_nat n') mod 256 :: be_encode n' v
  end.

(** The unsigned value of big-endian bytes: [DataView.getUint8/16/32],
    [getBigUint64]. *)
Definition be_decode (bs : list Z) : Z := foldl (λ acc b, acc * 256 + b) 0 bs.

(** [BigInt.asIntN(64, v)], also the reading [getBigInt64] gives of 8 bytes. *)
Definition asIntN64 (v : Z) : Z :=
  let u := v mod 2 ^ 64 in if u <? 2 ^ 63 then u else u - 2 ^ 64.

Definition is_byte (b : Z) : Prop := 0 ≤ b < 256.

Lemma length_be_encode n v : length (be_encode n v) = n.
Proof. induction n; simpl; congruence. Qed.

Lemma be_encode_bytes n v : Forall is_byte (be_encode n v).
Proof.
  induction n; simpl; constructor; [|done]. by apply Z.mod_pos_bound.
Qed.

Lemma foldl_be_encode n v acc :
  foldl (λ acc b, acc * 256 + b) acc (be_encode n v)
  = acc * 256 ^ Z.of_nat n + v mod 256 ^ Z.of_nat n.
Proof.
  revert acc. induction n as [|n IH]; intros acc; cbn [be_encode foldl].
  { rewrite Z.pow_0_r, Z.mod_1_r. lia. }
  rewrite IH. set (p := 256 ^ Z.of_nat n).
  assert (0 < p) as Hp by (unfold p; apply Z.pow_pos_nonneg; lia).
  replace (256 ^ Z.of_nat (S n)) with (p * 256)
    by (unfold p; rewrite Nat2Z.inj_succ, Z.pow_succ_r by lia; lia).
  rewrite Z.rem_mul_r by lia. lia.
Qed.

Lemma be_decode_encode n v : be_decode (be_encode n v) = v mod 256 ^ Z.of_nat n.
Proof. unfold be_decode. rewrite foldl_be_encode. lia. Qed.

Lemma be_decode_encode_id n v :
  0 ≤ v < 256 ^ Z.of_nat n → be_decode (be_encode n v) = v.
Proof. intros. rewrite be_decode_encode. by apply Z.mod_small. Qed.

Lemma asIntN64_range v : - 2 ^ 63 ≤ asIntN64 v < 2 ^ 63.
Proof.
  unfold asIntN64. pose proof (Z.mod_pos_bound v (2 ^ 64) eq_refl).
  destruct (Z.ltb_spec (v mod 2 ^ 64) (2 ^ 63)); lia.
Qed.

Lemma asIntN64_mod v : asIntN64 (v mod 2 ^ 64) = asIntN64 v.
Proof. unfold asIntN64. by rewrite Z.mod_mod. Qed.

Lemma asIntN64_cong v : asIntN64 v mod 2 ^ 64 = v mod 2 ^ 64.
Proof.
  unfold asIntN64. cbv zeta. destruct (_ <? _).
  - by rewrite Z.mod_mod.
  - rewrite <-(Z_mod_plus_full _ 1). rewrite Z.mul_1_l, Z.sub_add. by rewrite Z.mod_mod.
Qed.

Lemma asIntN64_id v : - 2 ^ 63 ≤ v < 2 ^ 63 → asIntN64 v = v.
Proof.
  intros Hv. unfold asIntN64. destruct (decide (0 ≤ v)).
  - rewrite Z.mod_small by lia. destruct (Z.ltb_spec v (2 ^ 63)); lia.
  - rewrite <-(Z_mod_plus_full _ 1), Z.mul_1_l, Z.mod_small by lia.
    destruct (Z.ltb_spec (v + 2 ^ 64) (2 ^ 63)); lia.
Qed.

(** ** Binary search

    The loop of the two binary searches of the store: [before] holds of a prefix of
    the list, [mid] is [(lo + hi) >>> 1]. *)
Fixpoint lower_bound {A} (fuel : nat) (before : A → bool) (l : list A) (lo hi : Z) : Z :=
  match fuel with
  | O => lo
  | S fuel' =>
      if lo <? hi then
        let mid := js_ushr (lo + hi) 1 in
        match l !! Z.to_nat mid with
        | Some x =>
            if before x then lower_bound fuel' before l (mid + 1) hi
            else lower_bound fuel' before l lo mid
        | None => lo
        end
      else lo
  end.

Lemma js_ushr_half x : 0 ≤ x < W32 → js_ushr x 1 = x / 2.
Proof. intros Hx. unfold js_ushr. rewrite u32_id by done. by rewrite Z.shiftr_div_pow2. Qed.

Lemma lower_bound_spec {A} fuel (before : A → bool) l lo hi :
  (∀ i j x y, l !! i = Some x → l !! j = Some y → (i ≤ j)%nat →
     before y = true → before x = true) →
  Z.of_nat (length l) < 2 ^ 31 →
  0 ≤ lo ≤ hi → hi ≤ Z.of_nat (length l) → (Z.to_nat (hi - lo) < fuel)%nat →
  (∀ i x, l !! i = Some x → Z.of_nat i < lo → before x = true) →
  (∀ i x, l !! i = Some x → hi ≤ Z.of_nat i → before x = false) →
  let r := lower_bound fuel before l lo hi in
  lo ≤ r ≤ hi
  ∧ (∀ i x, l !! i = Some x → Z.of_nat i < r → before x = true)
  ∧ (∀ i x, l !! i = Some x → r ≤ Z.of_nat i → before x = false).
Proof.
  intros Hmono Hlen. revert lo hi.
  induction fuel as [|fuel IH]; intros lo hi Hlo Hhi Hfuel Hbelow Habove; [lia|].
  cbv zeta. cbn [lower_bound]. destruct (Z.ltb_spec lo hi) as [Hlt|Hge].
  2: { assert (hi = lo) as -> by lia. split; [lia|done]. }
  rewrite js_ushr_half by (change W32 with (2 ^ 32); lia).
  set (mid := (lo + hi) / 2). assert (lo ≤ mid < hi) as Hmid
    by (unfold mid; split; [apply Z.div_le_lower_bound|apply Z.div_lt_upper_bound]; lia).
  destruct (l !! Z.to_nat mid) as [p|] eqn:Hp.
  2: { apply lookup_ge_None in Hp. lia. }
  destruct (before p) eqn:Hph.
  - destruct (IH (mid + 1) hi) as (H1 & H2 & H3); [lia..| |done|split; [lia|done]].
    intros i q Hi Him. apply (Hmono i (Z.to_nat mid) q p Hi Hp); [lia|done].
  - destruct (IH lo mid) as (H1 & H2 & H3); [lia..|done| |split; [lia|done]].
    intros i q Hi Him. destruct (before q) eqn:Hq; [|done].
    rewrite (Hmono (Z.to_nat mid) i p q Hp Hi) in Hph; [done|lia|done].
Qed.

(** The list splits where the search stops. *)
Lemma lower_bound_split {A} (before : A → bool) l :
  (∀ i j x y, l !! i = Some x → l !! j = Some y → (i ≤ j)%nat →
     before y = true → before x = true) →
  Z.of_nat (length l) < 2 ^ 31 →
  let r := lower_bound (S (length l)) before l 0 (Z.of_nat (length l)) in
  0 ≤ r ≤ Z.of_nat (length l)
  ∧ (∀ x, x ∈ take (Z.to_nat r) l → before x = true)
  ∧ (∀ x, x ∈ drop (Z.to_nat r) l → before x = false).
Proof.
  intros Hmono Hlen. cbv zeta.
  destruct (lower_bound_spec (S (length l)) before l 0 (Z.of_nat (length l)))
    as (Hr & Hbelow & Habove); [done..|lia|lia|lia|intros; lia| |].
  { intros i x Hx Hi. apply lookup_lt_Some in Hx. lia. }
  split; [done|]. split; intros x (i & Hi)%list_elem_of_lookup.
  - rewrite lookup_take in Hi. destruct (decide _); [|done]. eapply Hbelow; [done|lia].
  - rewrite lookup_drop in Hi. eapply Habove; [done|lia].
Qed.

#[export] Hint Resolve u32_range is_u32_lxor be_encode_bytes : nodeakt.
Create Rewrite HintDb js32.
#[export] Hint Rewrite u32_i32 u32_u32 u32_js_xor u32_js_imul : js32.

(** [Number(n)] for a bigint [0 ≤ n < 2^64]: the nearest double, ties to even. *)
Definition number_of_u64 (n : Z) : Z :=
  if n <? 2 ^ 53 then n
  else
    let step := 2 ^ (Z.log2 n - 52) in
    let q := n / step in
    let r := n mod step in
    let q := if (step <? 2 * r) || ((step =? 2 * r) && Z.odd q) then q + 1 else q in
    q * step.
