(* ===== verification/JsString.v ===== *)
(** * JavaScript strings

    A string is the list of its UTF-16 code units.  The order is the one [<]
    compares strings with, code unit by code unit; [TextEncoder] and the fatal
    [TextDecoder] are the WHATWG UTF-8 codec, lone surrogates becoming U+FFFD on
    the way out and a leading byte order mark being dropped on the way in. *)
From S2P Require Import Prelude JsNumber.
From Stdlib Require Import Ascii.

Abbreviation jsstring := (list Z).

(** A literal of ASCII characters as a JavaScript string. *)
Fixpoint js (s : string) : jsstring :=
  match s with
  | EmptyString => []
  | String c s' => Z.of_N (N_of_ascii c) :: js s'
  end.

(** ** The order of strings *)

(** [a < b]. *)
Fixpoint str_lt (a b : jsstring) : bool :=
  match a, b with
  | _, [] => false
  | [], _ :: _ => true
  | x :: a', y :: b' => if x <? y then true else if x =? y then str_lt a' b' else false
  end.

(** [a <= b]. *)
Definition str_le (a b : jsstring) : bool := negb (str_lt b a).

Lemma str_lt_irrefl a : str_lt a a = false.
Proof. induction a as [|x a IH]; simpl; [done|]. by rewrite Z.ltb_irrefl, Z.eqb_refl. Qed.

Lemma str_lt_trans a b c : str_lt a b = true → str_lt b c = true → str_lt a c = true.
Proof.
  revert b c. induction a as [|x a IH]; intros [|y b] [|z c]; simpl; try done.
  destruct (Z.ltb_spec x y), (Z.ltb_spec y z), (Z.ltb_spec x z); try done; try lia;
    destruct (Z.eqb_spec x y), (Z.eqb_spec y z), (Z.eqb_spec x z); try done; try lia.
  apply IH.
Qed.

Lemma str_lt_total a b : str_lt a b = false → str_lt b a = false → a = b.
Proof.
  revert b. induction a as [|x a IH]; intros [|y b]; simpl; try done.
  destruct (Z.ltb_spec x y), (Z.ltb_spec y x); try done; try lia.
  assert (x = y) as -> by lia. rewrite Z.eqb_refl. intros. f_equal. auto.
Qed.

Lemma str_lt_asym a b : str_lt a b = true → str_lt b a = false.
Proof.
  intros H. destruct (str_lt b a) eqn:E; [|done].
  pose proof (str_lt_trans _ _ _ H E) as H'. by rewrite str_lt_irrefl in H'.
Qed.

Lemma str_le_lt_trans a b c : str_le a b = true → str_lt b c = true → str_lt a c = true.
Proof.
  unfold str_le. intros H1%negb_true_iff H2.
  destruct (str_lt a b) eqn:E; [by eapply str_lt_trans|].
  by rewrite (str_lt_total _ _ E H1).
Qed.

Lemma str_le_spec a b : str_le a b = true ↔ str_lt a b = true ∨ a = b.
Proof.
  unfold str_le. rewrite negb_true_iff. split.
  - intros H. destruct (str_lt a b) eqn:E; [auto|]. right. by apply str_lt_total.
  - intros [H| ->]; [by apply str_lt_asym | apply str_lt_irrefl].
Qed.

(** ** Decimal digits of a template literal [`${n}`] *)

Fixpoint digits (fuel : nat) (n : Z) (acc : jsstring) : jsstring :=
  match fuel with
  | O => acc
  | S fuel' =>
      let acc' := (48 + n mod 10) :: acc in
      if n <? 10 then acc' else digits fuel' (n / 10) acc'
  end.

(** [String(n)] for a non-negative safe integer: at most 16 digits. *)
Definition str_of_nat (n : Z) : jsstring := digits 16 n [].

(** ** UTF-8 *)

Definition is_high (u : Z) : bool := (0xD800 <=? u) && (u <=? 0xDBFF).
Definition is_low (u : Z) : bool := (0xDC00 <=? u) && (u <=? 0xDFFF).

(** The scalar values of a string, a lone surrogate read as U+FFFD. *)
Fixpoint code_points (s : jsstring) : list Z :=
  match s with
  | [] => []
  | u :: s' =>
      if is_high u then
        match s' with
        | l :: s'' =>
            if is_low l
            then (0x10000 + (u - 0xD800) * 1024 + (l - 0xDC00)) :: code_points s''
            else 0xFFFD :: code_points s'
        | [] => [0xFFFD]
        end
      else if is_low u then 0xFFFD :: code_points s' else u :: code_points s'
  end.

(** [s.isWellFormed()]: no lone surrogate. *)
Fixpoint is_well_formed (s : jsstring) : bool :=
  match s with
  | [] => true
  | u :: s' =>
      if is_high u then
        match s' with
        | l :: s'' => is_low l && is_well_formed s''
        | [] => false
        end
      else negb (is_low u) && is_well_formed s'
  end.

Definition utf8_of_code_point (c : Z) : list Z :=
  if c <? 0x80 then [c]
  else if c <? 0x800 then [0xC0 + c / 64; 0x80 + c mod 64]
  else if c <? 0x10000 then
    [0xE0 + c / 4096; 0x80 + (c / 64) mod 64; 0x80 + c mod 64]
  else
    [0xF0 + c / 262144; 0x80 + (c / 4096) mod 64; 0x80 + (c / 64) mod 64; 0x80 + c mod 64].

(** [encoder.encode(s)]. *)
Definition text_encode (s : jsstring) : list Z := mbind utf8_of_code_point (code_points s).

Definition in_range (b lo hi : Z) : bool := (lo <=? b) && (b <=? hi).
Definition is_cont (b : Z) : bool := in_range b 0x80 0xBF.

(** The scalar values of UTF-8 bytes, [None] on any malformed sequence. *)
Fixpoint utf8_decode (bs : list Z) : option (list Z) :=
  match bs with
  | [] => Some []
  | b0 :: r0 =>
      if in_range b0 0 0x7F then cons b0 <$> utf8_decode r0
      else if in_range b0 0xC2 0xDF then
        match r0 with
        | b1 :: r1 =>
            if is_cont b1 then cons ((b0 - 0xC0) * 64 + (b1 - 0x80)) <$> utf8_decode r1
            else None
        | [] => None
        end
      else if in_range b0 0xE0 0xEF then
        match r0 with
        | b1 :: b2 :: r2 =>
            let lo := if b0 =? 0xE0 then 0xA0 else 0x80 in
            let hi := if b0 =? 0xED then 0x9F else 0xBF in
            if in_range b1 lo hi && is_cont b2 then
              cons ((b0 - 0xE0) * 4096 + (b1 - 0x80) * 64 + (b2 - 0x80)) <$> utf8_decode r2
            else None
        | _ => None
        end
      else if in_range b0 0xF0 0xF4 then
        match r0 with
        | b1 :: b2 :: b3 :: r3 =>
            let lo := if b0 =? 0xF0 then 0x90 else 0x80 in
            let hi := if b0 =? 0xF4 then 0x8F else 0xBF in
            if in_range b1 lo hi && is_cont b2 && is_cont b3 then
              cons ((b0 - 0xF0) * 262144 + (b1 - 0x80) * 4096 + (b2 - 0x80) * 64 + (b3 - 0x80))
                <$> utf8_decode r3
            else None
        | _ => None
        end
      else None
  end.

Definition utf16_of_code_point (c : Z) : jsstring :=
  if c <? 0x10000 then [c]
  else [0xD800 + (c - 0x10000) / 1024; 0xDC00 + (c - 0x10000) mod 1024].

Definition strip_bom (cs : list Z) : list Z :=
  match cs with
  | c :: cs' => if c =? 0xFEFF then cs' else cs
  | [] => []
  end.

(** [new TextDecoder("utf-8", { fatal: true }).decode(bs)], [None] when it throws.
    [ignoreBOM] is left at its default, so a leading U+FEFF is removed. *)
Definition text_decode (bs : list Z) : option jsstring :=
  (λ cs, mbind utf16_of_code_point (strip_bom cs)) <$> utf8_decode bs.

(** ** The UTF-8 round trip *)

(** A scalar value: a code point that is not a surrogate. *)
Definition is_scalar (c : Z) : Prop := 0 ≤ c < 0xD800 ∨ 0xE000 ≤ c < 0x110000.

(** A code unit. *)
Definition is_unit (u : Z) : Prop := 0 ≤ u < 0x10000.

(** Decides the comparisons of the codec that the arithmetic context settles. *)
Ltac decide_cmp :=
  repeat match goal with
    | |- context [?a <? ?b] =>
        first [rewrite (proj2 (Z.ltb_lt a b)) by lia | rewrite (proj2 (Z.ltb_ge a b)) by lia]
    | |- context [?a <=? ?b] =>
        first [rewrite (proj2 (Z.leb_le a b)) by lia | rewrite (proj2 (Z.leb_gt a b)) by lia]
    | |- context [?a =? ?b] =>
        first [rewrite (proj2 (Z.eqb_eq a b)) by lia | rewrite (proj2 (Z.eqb_neq a b)) by lia]
    end; cbn [andb].

(** The base-64 digits of a code point. *)
Lemma base64_digits c :
  0 ≤ c →
  c = c / 4096 * 4096 + (c / 64) mod 64 * 64 + c mod 64 ∧
  c / 4096 = c / 262144 * 64 + (c / 4096) mod 64 ∧
  c / 64 = c / 4096 * 64 + (c / 64) mod 64 ∧
  0 ≤ c mod 64 < 64 ∧ 0 ≤ (c / 64) mod 64 < 64 ∧ 0 ≤ (c / 4096) mod 64 < 64 ∧
  0 ≤ c / 262144.
Proof.
  intros Hc.
  assert (c / 4096 = c / 64 / 64) as E1 by (by rewrite Z.div_div).
  assert (c / 262144 = c / 4096 / 64) as E2 by (by rewrite Z.div_div).
  pose proof (Z.div_mod c 64 ltac:(lia)). pose proof (Z.div_mod (c / 64) 64 ltac:(lia)).
  pose proof (Z.div_mod (c / 4096) 64 ltac:(lia)).
  pose proof (Z.mod_pos_bound c 64 ltac:(lia)).
  pose proof (Z.mod_pos_bound (c / 64) 64 ltac:(lia)).
  pose proof (Z.mod_pos_bound (c / 4096) 64 ltac:(lia)).
  assert (0 ≤ c / 262144) by (apply Z.div_pos; lia). lia.
Qed.

Lemma utf8_decode_2 q d rest :
  2 ≤ q < 32 → 0 ≤ d < 64 →
  utf8_decode (0xC0 + q :: 0x80 + d :: rest) = cons (q * 64 + d) <$> utf8_decode rest.
Proof.
  intros. cbn [utf8_decode]. unfold is_cont, in_range. decide_cmp. do 2 f_equal. lia.
Qed.

Lemma utf8_decode_3 q d1 d0 rest :
  0 ≤ q < 16 → 0 ≤ d1 < 64 → 0 ≤ d0 < 64 → (q = 0 → 32 ≤ d1) → (q = 13 → d1 < 32) →
  utf8_decode (0xE0 + q :: 0x80 + d1 :: 0x80 + d0 :: rest)
  = cons (q * 4096 + d1 * 64 + d0) <$> utf8_decode rest.
Proof.
  intros Hq H1 H0 Hlo Hhi. cbn [utf8_decode]. unfold is_cont, in_range.
  destruct (decide (q = 0)), (decide (q = 13)); decide_cmp; do 2 f_equal; lia.
Qed.

Lemma utf8_decode_4 q d2 d1 d0 rest :
  0 ≤ q < 5 → 0 ≤ d2 < 64 → 0 ≤ d1 < 64 → 0 ≤ d0 < 64 → (q = 0 → 16 ≤ d2) → (q = 4 → d2 < 16) →
  utf8_decode (0xF0 + q :: 0x80 + d2 :: 0x80 + d1 :: 0x80 + d0 :: rest)
  = cons (q * 262144 + d2 * 4096 + d1 * 64 + d0) <$> utf8_decode rest.
Proof.
  intros Hq H2 H1 H0 Hlo Hhi. cbn [utf8_decode]. unfold is_cont, in_range.
  destruct (decide (q = 0)), (decide (q = 4)); decide_cmp; do 2 f_equal; lia.
Qed.

Lemma utf8_decode_code_point c rest :
  is_scalar c → utf8_decode (utf8_of_code_point c ++ rest) = cons c <$> utf8_decode rest.
Proof.
  intros Hc. unfold is_scalar in Hc. unfold utf8_of_code_point.
  destruct (base64_digits c) as (E1 & E2 & E3 & H0 & H1 & H2 & H3); [lia|].
  set (d0 := c mod 64) in *. set (d1 := (c / 64) mod 64) in *.
  set (d2 := (c / 4096) mod 64) in *. set (q3 := c / 262144) in *.
  set (q2 := c / 4096) in *. set (q1 := c / 64) in *.
  clearbody d0 d1 d2 q3 q2 q1.
  destruct (Z.ltb_spec c 0x80); [cbn [app utf8_decode]; unfold in_range; by decide_cmp|].
  destruct (Z.ltb_spec c 0x800).
  { cbn [app]. rewrite utf8_decode_2 by lia. do 2 f_equal. lia. }
  destruct (Z.ltb_spec c 0x10000).
  { cbn [app]. rewrite utf8_decode_3 by lia. do 2 f_equal. lia. }
  cbn [app]. rewrite utf8_decode_4 by lia. do 2 f_equal. lia.
Qed.

Lemma utf8_decode_encode cs :
  Forall is_scalar cs → utf8_decode (mbind utf8_of_code_point cs) = Some cs.
Proof.
  induction 1 as [|c cs Hc Hcs IH]; [done|].
  rewrite bind_cons, utf8_decode_code_point by done. by rewrite IH.
Qed.

(** Encoding to code points and back is the identity on well-formed strings. *)
Lemma code_points_spec s :
  Forall is_unit s → is_well_formed s = true →
  Forall is_scalar (code_points s) ∧ mbind utf16_of_code_point (code_points s) = s.
Proof.
  remember (length s) as n eqn:Hn. revert s Hn.
  induction (lt_wf n) as [n _ IH]; intros [|u s] -> Hu Hwf; [by split; [constructor|]|].
  apply Forall_cons in Hu as [Hu Hs]. unfold is_unit in Hu.
  cbn [is_well_formed code_points] in *.
  destruct (is_high u) eqn:Eh.
  - destruct s as [|l s]; [done|]. apply andb_true_iff in Hwf as [El Hwf].
    apply Forall_cons in Hs as [Hl Hs]. rewrite El.
    destruct (IH (length s)) with (s := s) as [IH1 IH2]; [simpl; lia|done..|].
    unfold is_high, is_low in *. apply andb_true_iff in Eh as [?%Z.leb_le ?%Z.leb_le].
    apply andb_true_iff in El as [?%Z.leb_le ?%Z.leb_le]. split.
    + constructor; [right; lia|done].
    + rewrite bind_cons, IH2. unfold utf16_of_code_point. decide_cmp.
      replace (0x10000 + (u - 0xD800) * 1024 + (l - 0xDC00) - 0x10000)
        with ((l - 0xDC00) + (u - 0xD800) * 1024) by lia.
      rewrite Z.div_add, Z.mod_add, Z.div_small, Z.mod_small by lia.
      cbn [app]. f_equal; [lia|]. f_equal. lia.
  - apply andb_true_iff in Hwf as [El%negb_true_iff Hwf]. rewrite El.
    destruct (IH (length s)) with (s := s) as [IH1 IH2]; [simpl; lia|done..|].
    unfold is_high, is_low in *.
    apply andb_false_iff in Eh. apply andb_false_iff in El.
    rewrite !Z.leb_gt in Eh, El. split.
    + constructor; [unfold is_scalar; lia|done].
    + rewrite bind_cons, IH2. unfold utf16_of_code_point. decide_cmp. done.
Qed.

(** A string whose first code unit is the byte order mark. *)
Definition starts_with_bom (s : jsstring) : bool :=
  match s with u :: _ => u =? 0xFEFF | [] => false end.

Lemma code_points_bom s :
  Forall is_unit s → is_well_formed s = true →
  strip_bom (code_points s) = code_points (if starts_with_bom s then tail s else s).
Proof.
  intros Hs Hwf. destruct s as [|u s]; [done|]. cbn [starts_with_bom tail].
  destruct (Z.eqb_spec u 0xFEFF) as [->|Hne]; [done|].
  cbn [code_points is_well_formed] in *.
  apply Forall_cons in Hs as [Hu Hs]. unfold is_unit in Hu.
  destruct (is_high u) eqn:Eh.
  - destruct s as [|l s]; [done|]. apply andb_true_iff in Hwf as [El _]. rewrite El.
    unfold is_high, is_low in *. apply andb_true_iff in Eh as [?%Z.leb_le ?%Z.leb_le].
    apply andb_true_iff in El as [?%Z.leb_le ?%Z.leb_le].
    unfold strip_bom. by decide_cmp.
  - apply andb_true_iff in Hwf as [El%negb_true_iff _]. rewrite El.
    unfold strip_bom. by decide_cmp.
Qed.

(** Decoding what the encoder wrote: the string, less a leading byte order mark. *)
Lemma text_decode_encode s :
  Forall is_unit s → is_well_formed s = true →
  text_decode (text_encode s) = Some (if starts_with_bom s then tail s else s).
Proof.
  intros Hs Hwf. unfold text_decode, text_encode.
  rewrite utf8_decode_encode by (by apply code_points_spec).
  cbn. rewrite code_points_bom by done. f_equal.
  apply code_points_spec; destruct s as [|u s]; cbn [starts_with_bom tail]; try done;
    destruct (Z.eqb_spec u 0xFEFF) as [->|]; try done.
  by apply Forall_cons in Hs as [_ ?].
Qed.

(** ** Decoding with replacement *)

(** What a lead byte starts: an emitted scalar value, or a pending sequence: the bits so
    far, how many bytes are left, and the range the next one must lie in. *)
Definition lossy_start (b : Z) : list Z * option (Z * nat * Z * Z) :=
  if in_range b 0 0x7F then ([b], None)
  else if in_range b 0xC2 0xDF then ([], Some (b - 0xC0, 0%nat, 0x80, 0xBF))
  else if in_range b 0xE0 0xEF then
    ([], Some (b - 0xE0, 1%nat, if b =? 0xE0 then 0xA0 else 0x80, if b =? 0xED then 0x9F else 0xBF))
  else if in_range b 0xF0 0xF4 then
    ([], Some (b - 0xF0, 2%nat, if b =? 0xF0 then 0x90 else 0x80, if b =? 0xF4 then 0x8F else 0xBF))
  else ([0xFFFD], None).

(** The scalar values of bytes, each maximal malformed prefix read as U+FFFD. *)
Fixpoint utf8_lossy (pending : option (Z * nat * Z * Z)) (bs : list Z) : list Z :=
  match bs with
  | [] => match pending with Some _ => [0xFFFD] | None => [] end
  | b :: bs' =>
      let restart := let '(out, p) := lossy_start b in out ++ utf8_lossy p bs' in
      match pending with
      | None => restart
      | Some (cp, more, lo, hi) =>
          if in_range b lo hi then
            match more with
            | O => cp * 64 + (b - 0x80) :: utf8_lossy None bs'
            | S more' => utf8_lossy (Some (cp * 64 + (b - 0x80), more', 0x80, 0xBF)) bs'
            end
          else 0xFFFD :: restart
      end
  end.

(** [new TextDecoder().decode(bs)]. *)
Definition text_decode_lossy (bs : list Z) : jsstring :=
  mbind utf16_of_code_point (strip_bom (utf8_lossy None bs)).

(** On well-formed bytes the two decoders agree. *)
Lemma utf8_lossy_valid bs cs : utf8_decode bs = Some cs → utf8_lossy None bs = cs.
Proof.
  remember (length bs) as n eqn:Hn. revert bs cs Hn.
  induction (lt_wf n) as [n _ IH]; intros [|b0 r0] cs -> H; [by injection H as <-|].
  cbn [utf8_decode utf8_lossy] in *. unfold lossy_start.
  assert (∀ c r, (length r < length (b0 :: r0))%nat → cons c <$> utf8_decode r = Some cs →
    c :: utf8_lossy None r = cs) as Hrec.
  { intros c r Hlt (l & Hl & ->)%fmap_Some. f_equal. by apply (IH (length r)). }
  destruct (in_range b0 0 0x7F); [by apply Hrec; [simpl; lia|]|].
  destruct (in_range b0 0xC2 0xDF).
  { destruct r0 as [|b1 r1]; [done|]. cbn [app utf8_lossy]. fold (is_cont b1).
    destruct (is_cont b1); [|done]. by apply Hrec; [simpl; lia|]. }
  destruct (in_range b0 0xE0 0xEF).
  { destruct r0 as [|b1 [|b2 r2]]; [done..|]. cbn [app utf8_lossy]. fold (is_cont b2).
    destruct (in_range b1 _ _), (is_cont b2); cbn [andb] in H; try done.
    apply Hrec; [simpl; lia|]. rewrite <-H. do 2 f_equal. lia. }
  destruct (in_range b0 0xF0 0xF4); [|done].
  destruct r0 as [|b1 [|b2 [|b3 r3]]]; [done..|]. cbn [app utf8_lossy]. fold (is_cont b2) (is_cont b3).
  destruct (in_range b1 _ _), (is_cont b2), (is_cont b3); cbn [andb] in H; try done.
  apply Hrec; [simpl; lia|]. rewrite <-H. do 2 f_equal. lia.
Qed.

Lemma text_decode_lossy_encode s :
  Forall is_unit s → is_well_formed s = true → starts_with_bom s = false →
  text_decode_lossy (text_encode s) = s.
Proof.
  intros Hs Hwf Hbom. pose proof (text_decode_encode s Hs Hwf) as H. rewrite Hbom in H.
  unfold text_decode in H. apply fmap_Some in H as (cs & Hcs & Hs').
  unfold text_decode_lossy. by rewrite (utf8_lossy_valid _ _ Hcs).
Qed.

(** A string the codec carries unchanged. *)
Definition plain (s : jsstring) : Prop :=
  Forall is_unit s ∧ is_well_formed s = true ∧ starts_with_bom s = false.

Lemma plain_roundtrip s : plain s → text_decode_lossy (text_encode s) = s.
Proof. intros (? & ? & ?). by apply text_decode_lossy_encode. Qed.

Lemma plain_decode s : plain s → text_decode (text_encode s) = Some s.
Proof. intros (Hu & Hwf & Hb). by rewrite text_decode_encode, Hb by done. Qed.

(** Well-formed text, and what a [TextDecoder] makes of its bytes: it drops a byte order
    mark at the start. *)
Definition text (s : jsstring) : Prop := Forall is_unit s ∧ is_well_formed s = true.

Definition arrived (s : jsstring) : jsstring := if starts_with_bom s then tail s else s.

Lemma arrived_plain s : plain s → arrived s = s.
Proof. intros (_ & _ & H). unfold arrived. by rewrite H. Qed.

Lemma arrived_decode s : text s → text_decode (text_encode s) = Some (arrived s).
Proof. intros [Hu Hwf]. by apply text_decode_encode. Qed.

Lemma plain_text s : plain s → text s.
Proof. by intros (? & ? & _). Qed.

(** [plain] decided by evaluation. *)
Lemma plain_check s :
  forallb (λ u, (0 <=? u) && (u <? 0x10000)) s && is_well_formed s && negb (starts_with_bom s) = true → plain s.
Proof.
  intros [[Hs Hwf]%andb_true_iff Hb%negb_true_iff]%andb_true_iff. split; [|done]. apply Forall_forall. intros x Hx.
  apply (proj1 (forallb_forall _ _)) with (x := x) in Hs; [unfold is_unit; lia|]. by apply list_elem_of_In.
Qed.
