(* ===== verification/Hash.v ===== *)
(** * Partition hashing ([src/kv/hash.ts])

    FNV-1a over UTF-8 bytes, the 32-bit avalanche and the partition of a key.
    The avalanche is shown to be a permutation of the 32-bit words, so mixing
    loses nothing of the FNV hash. *)
From S2P Require Import Prelude JsNumber JsString.

Definition FNV_OFFSET : Z := 0x811c9dc5.
Definition FNV_PRIME : Z := 0x01000193.

(** One round of the loop of [fnv1a32]. *)
Definition fnv_round (hash byte : Z) : Z := js_imul (js_xor hash byte) FNV_PRIME.

Definition fnv1a32 (bytes : list Z) : Z := u32 (foldl fnv_round FNV_OFFSET bytes).

Definition mix32 (hash : Z) : Z :=
  let mixed := u32 hash in
  let mixed := js_xor mixed (js_ushr mixed 16) in
  let mixed := js_imul mixed 0x85ebca6b in
  let mixed := js_xor mixed (js_ushr mixed 13) in
  let mixed := js_imul mixed 0xc2b2ae35 in
  let mixed := js_xor mixed (js_ushr mixed 16) in
  u32 mixed.

Definition hash32 (value : jsstring) : Z := mix32 (fnv1a32 (text_encode value)).

Definition partitionId (key : jsstring) (partitionCount : Z) : result Z :=
  if negb (is_safe_integer partitionCount) || (partitionCount <=? 0)
  then Throw (RangeError "partition count must be a positive integer")
  else Ok (hash32 key mod partitionCount).

(** Conversion unfolds the arithmetic last: goals compare hashes, not their bits. *)
#[global] Strategy 100 [mix32 fnv1a32 hash32 u32 i32 js_xor js_ushr js_imul].
#[global] Typeclasses Opaque mix32 fnv1a32 hash32 u32 i32 js_xor js_ushr js_imul.

(** The published FNV-1a vectors for the empty string, "a" and "foobar". *)
Example fnv_vectors :
  (fnv1a32 [], fnv1a32 (text_encode (js "a")), fnv1a32 (text_encode (js "foobar")))
  = (0x811c9dc5, 0xe40c292c, 0xbf9cf968).
Proof. by vm_compute. Qed.

(** ** Ranges *)

Lemma fnv1a32_range bytes : is_u32 (fnv1a32 bytes).
Proof. apply u32_range. Qed.

Lemma mix32_range h : is_u32 (mix32 h).
Proof. apply u32_range. Qed.

Lemma hash32_range s : is_u32 (hash32 s).
Proof. apply mix32_range. Qed.

(** ** The avalanche as a composition of permutations of the 32-bit words *)

(** [x ^= x >>> n] and [x * c mod 2^32] on unsigned words. *)
Definition xorshift (n x : Z) : Z := Z.lxor x (Z.shiftr x n).
Definition mul32 (c x : Z) : Z := (x * c) mod W32.

Lemma mix32_unfold h :
  mix32 h =
  xorshift 16 (mul32 0xc2b2ae35 (xorshift 13 (mul32 0x85ebca6b (xorshift 16 (u32 h))))).
Proof.
  unfold mix32, xorshift, mul32. cbv zeta.
  rewrite u32_js_xor. unfold js_ushr. autorewrite with js32.
  unfold js_ushr. autorewrite with js32.
  rewrite !(u32_id (Z.shiftr _ _)) by (apply js_ushr_range; lia).
  by rewrite !(u32_id 0x85ebca6b), !(u32_id 0xc2b2ae35) by (unfold is_u32, W32; lia).
Qed.

Lemma shiftr_u32_high x n : is_u32 x → 32 ≤ n → Z.shiftr x n = 0.
Proof.
  intros [H0 H1] Hn. rewrite Z.shiftr_div_pow2 by lia. apply Z.div_small.
  split; [done|]. eapply Z.lt_le_trans; [done|]. unfold W32.
  by apply Z.pow_le_mono_r.
Qed.

Lemma is_u32_shiftr x n : is_u32 x → 0 ≤ n → is_u32 (Z.shiftr x n).
Proof.
  intros Hx Hn. rewrite <-(u32_id x) by done. by apply js_ushr_range.
Qed.

Lemma is_u32_xorshift n x : 0 ≤ n → is_u32 x → is_u32 (xorshift n x).
Proof. intros. apply is_u32_lxor; [done|]. by apply is_u32_shiftr. Qed.

Lemma is_u32_mul32 c x : is_u32 (mul32 c x).
Proof. apply Z.mod_pos_bound, W32_pos. Qed.

Lemma xorshift_16_16 x : is_u32 x → xorshift 16 (xorshift 16 x) = x.
Proof.
  intros Hx. unfold xorshift. rewrite Z.shiftr_lxor, Z.shiftr_shiftr by lia.
  rewrite (shiftr_u32_high x (16 + 16)) by (done || lia).
  by rewrite Z.lxor_0_r, Z.lxor_assoc, Z.lxor_nilpotent, Z.lxor_0_r.
Qed.

Definition unxorshift_13 (y : Z) : Z := Z.lxor (xorshift 13 y) (Z.shiftr y 26).

Lemma unxorshift_13_13 x : is_u32 x → unxorshift_13 (xorshift 13 x) = x.
Proof.
  intros Hx. unfold unxorshift_13, xorshift.
  rewrite !Z.shiftr_lxor, !Z.shiftr_shiftr by lia.
  change (13 + 13) with 26. change (13 + 26) with 39.
  rewrite (shiftr_u32_high x 39) by (done || lia).
  apply Z.bits_inj'; intros n Hn. rewrite !Z.lxor_spec, Z.bits_0.
  by destruct (Z.testbit x n), (Z.testbit (Z.shiftr x 13) n), (Z.testbit (Z.shiftr x 26) n).
Qed.

Lemma xorshift_13_unxorshift y : is_u32 y → xorshift 13 (unxorshift_13 y) = y.
Proof.
  intros Hy. unfold unxorshift_13, xorshift.
  rewrite !Z.shiftr_lxor, !Z.shiftr_shiftr by lia.
  change (13 + 13) with 26. change (26 + 13) with 39.
  rewrite (shiftr_u32_high y 39) by (done || lia).
  apply Z.bits_inj'; intros n Hn. rewrite !Z.lxor_spec, Z.bits_0.
  by destruct (Z.testbit y n), (Z.testbit (Z.shiftr y 13) n), (Z.testbit (Z.shiftr y 26) n).
Qed.

Lemma mul32_inverse c d x : (c * d) mod W32 = 1 → is_u32 x → mul32 d (mul32 c x) = x.
Proof.
  intros Hcd Hx. unfold mul32. rewrite Z.mul_mod_idemp_l by done.
  rewrite <-Z.mul_assoc, Z.mul_mod by done.
  rewrite Hcd, Z.mul_1_r, Z.mod_mod by done. by apply u32_id.
Qed.

(** The inverse of the avalanche: each step undone in reverse order. *)
Definition unmix32 (h : Z) : Z :=
  xorshift 16 (mul32 0xa5cb9243 (unxorshift_13 (mul32 0x7ed1b41d (xorshift 16 h)))).

Lemma unmix32_mix32 h : unmix32 (mix32 h) = u32 h.
Proof.
  rewrite mix32_unfold. unfold unmix32.
  rewrite xorshift_16_16 by apply is_u32_mul32.
  rewrite (mul32_inverse 0xc2b2ae35) by (done || apply is_u32_xorshift, is_u32_mul32; lia).
  rewrite unxorshift_13_13 by apply is_u32_mul32.
  rewrite (mul32_inverse 0x85ebca6b) by (done || apply is_u32_xorshift, u32_range; lia).
  apply xorshift_16_16, u32_range.
Qed.

Lemma mix32_unmix32 h : is_u32 h → mix32 (unmix32 h) = h.
Proof.
  intros Hh. rewrite mix32_unfold. unfold unmix32.
  rewrite (u32_id (xorshift _ _)) by (apply is_u32_xorshift, is_u32_mul32; lia).
  rewrite xorshift_16_16 by apply is_u32_mul32.
  rewrite (mul32_inverse 0xa5cb9243).
  - rewrite xorshift_13_unxorshift by apply is_u32_mul32.
    rewrite (mul32_inverse 0x7ed1b41d) by (done || by apply is_u32_xorshift).
    by apply xorshift_16_16.
  - done.
  - unfold unxorshift_13. apply is_u32_lxor.
    + apply is_u32_xorshift, is_u32_mul32. lia.
    + apply is_u32_shiftr; [apply is_u32_mul32 | lia].
Qed.

(** The avalanche finisher is a permutation of the unsigned 32-bit words:
    it stays in range and [unmix32] is its two-sided inverse, so two FNV hashes
    that differ still differ after mixing. *)
Theorem mix32_permutation h :
  is_u32 h → is_u32 (mix32 h) ∧ unmix32 (mix32 h) = h ∧ mix32 (unmix32 h) = h.
Proof.
  intros Hh. split; [apply mix32_range|]. split.
  - rewrite unmix32_mix32. by apply u32_id.
  - by apply mix32_unmix32.
Qed.

Lemma mix32_permutation_witness :
  is_u32 (mix32 0xdeadbeef) ∧ unmix32 (mix32 0xdeadbeef) = 0xdeadbeef
  ∧ mix32 (unmix32 0xdeadbeef) = 0xdeadbeef.
Proof. apply (mix32_permutation 0xdeadbeef). by split. Defined.

(** [partitionId] returns a partition in [0, partitionCount) exactly for a
    positive safe count, and otherwise throws the documented [RangeError]. *)
Theorem partitionId_spec key n :
  match partitionId key n with
  | Ok p => 0 < n ≤ MAX_SAFE_INTEGER ∧ 0 ≤ p < n
  | Throw e =>
      (n ≤ 0 ∨ MAX_SAFE_INTEGER < n)
      ∧ e = RangeError "partition count must be a positive integer"
  end.
Proof.
  unfold partitionId, is_safe_integer.
  destruct (Z.leb_spec (- MAX_SAFE_INTEGER) n), (Z.leb_spec n MAX_SAFE_INTEGER),
    (Z.leb_spec n 0); cbn [andb negb orb]; (split; [|try done]); unfold MAX_SAFE_INTEGER in *;
    try lia.
  by apply Z.mod_pos_bound.
Qed.
