(* ===== verification/Hlc.v ===== *)
(** * Hybrid logical clock ([src/kv/hlc.ts])

    The order of hybrid timestamps and the per-node clock.  [compareHybrid] is a
    strict total order; a clock's own stamps strictly increase whatever the
    physical clock does, and a merge passes the remote stamp. *)
From S2P Require Import Prelude JsNumber JsString.

(** [HybridTime] of [src/kv/ports.ts]. *)
Record HybridTime := MkTime { wallMs : Z; logical : Z; node : jsstring }.

#[global] Instance HybridTime_eq_dec : EqDecision HybridTime.
Proof. solve_decision. Defined.

Definition compareHybrid (left right : HybridTime) : Z :=
  if negb (wallMs left =? wallMs right) then
    (if wallMs left <? wallMs right then -1 else 1)
  else if negb (logical left =? logical right) then
    (if logical left <? logical right then -1 else 1)
  else if decide (node left = node right) then 0
  else if str_lt (node left) (node right) then -1 else 1.

(** The two private counters and the identity of a [HybridClock]. *)
Record HybridClock := MkClock { clk_node : jsstring; clk_wallMs : Z; clk_logical : Z }.

Definition new_HybridClock (nd : jsstring) : result HybridClock :=
  if Nat.eqb (length nd) 0 then Throw (RangeError "node name must not be empty")
  else Ok (MkClock nd 0 0).

(** A reading of the injected physical clock, in whole milliseconds as [Date.now] gives
    them: [None] stands for a value that is not a finite number.  A clock that returns
    fractions is outside the model. *)
Definition readPhysical (reading : option Z) : result Z :=
  match reading with
  | Some physical => Ok physical
  | None => Throw (RangeError "physical clock must return a finite number")
  end.

Definition stamp (c : HybridClock) : HybridTime :=
  MkTime (clk_wallMs c) (clk_logical c) (clk_node c).

Definition hlc_now (c : HybridClock) (reading : option Z) : result (HybridTime * HybridClock) :=
  let! physical := readPhysical reading in
  let wall := Z.max (clk_wallMs c) physical in
  let lg := if wall =? clk_wallMs c then clk_logical c + 1 else 0 in
  let c' := MkClock (clk_node c) wall lg in
  Ok (stamp c', c').

Definition mergeLogical (c : HybridClock) (wall : Z) (remote : HybridTime) : Z :=
  let matchesLocal := wall =? clk_wallMs c in
  let matchesRemote := wall =? wallMs remote in
  if matchesLocal && matchesRemote then Z.max (clk_logical c) (logical remote) + 1
  else if matchesLocal then clk_logical c + 1
  else if matchesRemote then logical remote + 1
  else 0.

Definition hlc_update (c : HybridClock) (reading : option Z) (remote : HybridTime)
    : result (HybridTime * HybridClock) :=
  let! physical := readPhysical reading in
  let wall := Z.max (Z.max (clk_wallMs c) (wallMs remote)) physical in
  let lg := mergeLogical c wall remote in
  let c' := MkClock (clk_node c) wall lg in
  Ok (stamp c', c').

(** ** The order of timestamps *)

(** [t] precedes [t'] in the last-write-wins order. *)
Definition time_lt (t t' : HybridTime) : Prop := compareHybrid t t' = -1.

#[global] Instance time_lt_dec : RelDecision time_lt.
Proof. intros t t'. unfold time_lt. apply _. Defined.

Lemma time_lt_spec t t' :
  time_lt t t' ↔
  wallMs t < wallMs t' ∨
  wallMs t = wallMs t' ∧
    (logical t < logical t' ∨
     logical t = logical t' ∧ str_lt (node t) (node t') = true).
Proof.
  unfold time_lt, compareHybrid.
  destruct (Z.eqb_spec (wallMs t) (wallMs t')), (Z.ltb_spec (wallMs t) (wallMs t'));
    cbn [negb]; try (split; [done || lia | lia]); try (split; intros; [lia|done]).
  destruct (Z.eqb_spec (logical t) (logical t')), (Z.ltb_spec (logical t) (logical t'));
    cbn [negb]; try (split; [done || lia | lia]); try (split; intros; [lia|done]).
  destruct (decide (node t = node t')) as [->|].
  - rewrite str_lt_irrefl. split; [done|]. intros [?|[? [?|[? ?]]]]; [lia..|done].
  - destruct (str_lt (node t) (node t')); split; try done; [tauto|].
    intros [?|[? [?|[? ?]]]]; [lia..|done].
Qed.

Lemma compareHybrid_eq t t' : compareHybrid t t' = 0 ↔ t = t'.
Proof.
  unfold compareHybrid. destruct t as [w l n], t' as [w' l' n']; simpl.
  destruct (Z.eqb_spec w w'), (Z.ltb_spec w w'); cbn [negb];
    try (split; intros; simplify_eq; done || lia).
  destruct (Z.eqb_spec l l'), (Z.ltb_spec l l'); cbn [negb];
    try (split; intros; simplify_eq; done || lia).
  destruct (decide (n = n')) as [->|]; [by subst|].
  destruct (str_lt n n'); split; intros; simplify_eq; done.
Qed.

Lemma compareHybrid_gt t t' : compareHybrid t t' = 1 ↔ time_lt t' t.
Proof.
  rewrite time_lt_spec. unfold compareHybrid.
  destruct (Z.eqb_spec (wallMs t) (wallMs t')), (Z.ltb_spec (wallMs t) (wallMs t'));
    cbn [negb]; try (split; [done || lia | lia]); try (split; intros; [lia|done]).
  destruct (Z.eqb_spec (logical t) (logical t')), (Z.ltb_spec (logical t) (logical t'));
    cbn [negb]; try (split; [done || lia | lia]); try (split; intros; [lia|done]).
  destruct (decide (node t = node t')) as [->|Hne].
  - rewrite str_lt_irrefl. split; [done|]. intros [?|[? [?|[? ?]]]]; [lia..|done].
  - destruct (str_lt (node t) (node t')) eqn:E; split; try done.
    + apply str_lt_asym in E. intros [?|[? [?|[? ?]]]]; [lia..|congruence].
    + intros _. right. split; [done|]. right. split; [done|].
      destruct (str_lt (node t') (node t)) eqn:E'; [done|].
      destruct Hne. by apply str_lt_total.
Qed.

#[global] Instance time_lt_irrefl : Irreflexive time_lt.
Proof. intros t. unfold complement, time_lt. by rewrite (proj2 (compareHybrid_eq t t)). Qed.

#[global] Instance time_lt_trans : Transitive time_lt.
Proof.
  intros t1 t2 t3. rewrite !time_lt_spec.
  intros [?|[? [?|[? H1]]]] [?|[? [?|[? H2]]]]; try lia.
  right. split; [lia|]. right. split; [lia|]. by eapply str_lt_trans.
Qed.

#[global] Instance time_lt_strict : StrictOrder time_lt.
Proof. split; apply _. Qed.

Lemma compareHybrid_cases t t' :
  compareHybrid t t' = -1 ∨ compareHybrid t t' = 0 ∨ compareHybrid t t' = 1.
Proof. unfold compareHybrid. repeat case_match; auto. Qed.

Lemma time_lt_total t t' : time_lt t t' ∨ t = t' ∨ time_lt t' t.
Proof.
  destruct (compareHybrid_cases t t') as [H|[H%compareHybrid_eq|H%compareHybrid_gt]]; auto.
Qed.

(** ** The clock *)

(** The node of a clock never changes. *)
Lemma hlc_now_node c r t c' : hlc_now c r = Ok (t, c') → clk_node c' = clk_node c.
Proof. unfold hlc_now. intros H. inv_ok. by destruct r. Qed.

Lemma hlc_now_stamp c r t c' : hlc_now c r = Ok (t, c') → t = stamp c'.
Proof. unfold hlc_now. intros H. by inv_ok. Qed.

Lemma hlc_now_gt c r t c' : hlc_now c r = Ok (t, c') → time_lt (stamp c) t.
Proof.
  unfold hlc_now. intros H. inv_ok. apply time_lt_spec. unfold stamp. simpl.
  destruct (Z.eqb_spec (Z.max (clk_wallMs c) r0) (clk_wallMs c)); lia.
Qed.

Lemma hlc_update_gt c r remote t c' :
  hlc_update c r remote = Ok (t, c') → time_lt (stamp c) t ∧ time_lt remote t.
Proof.
  unfold hlc_update, mergeLogical. intros H. inv_ok.
  rewrite !time_lt_spec. unfold stamp. simpl.
  set (w := Z.max (Z.max (clk_wallMs c) (wallMs remote)) r0).
  destruct (Z.eqb_spec w (clk_wallMs c)), (Z.eqb_spec w (wallMs remote)); cbn [andb]; lia.
Qed.

Lemma hlc_update_stamp c r remote t c' : hlc_update c r remote = Ok (t, c') → t = stamp c'.
Proof. unfold hlc_update. intros H. by inv_ok. Qed.

(** An event at a clock: a local stamp or the merge of a received timestamp. *)
Inductive clock_event :=
  | Local (reading : option Z)
  | Receive (reading : option Z) (remote : HybridTime).

Definition clock_step (c : HybridClock) (ev : clock_event) : result (HybridTime * HybridClock) :=
  match ev with
  | Local r => hlc_now c r
  | Receive r remote => hlc_update c r remote
  end.

(** The stamps a clock issues for a sequence of events, in order; an event whose
    physical reading is rejected throws and leaves the clock as it was. *)
Fixpoint clock_run (c : HybridClock) (evs : list clock_event) : list HybridTime :=
  match evs with
  | [] => []
  | ev :: evs' =>
      match clock_step c ev with
      | Ok (t, c') => t :: clock_run c' evs'
      | Throw _ => clock_run c evs'
      end
  end.

Lemma clock_step_gt c ev t c' : clock_step c ev = Ok (t, c') → time_lt (stamp c) t ∧ t = stamp c'.
Proof.
  destruct ev as [r|r remote]; simpl; intros H.
  - split; [by eapply hlc_now_gt | by eapply hlc_now_stamp].
  - split; [by eapply (hlc_update_gt _ _ _ _ _ H) | by eapply hlc_update_stamp].
Qed.

Lemma clock_run_above c evs : Forall (time_lt (stamp c)) (clock_run c evs).
Proof.
  revert c. induction evs as [|ev evs IH]; intros c; simpl; [constructor|].
  destruct (clock_step c ev) as [[t c']|] eqn:E; [|done].
  apply clock_step_gt in E as [Hlt ->]. constructor; [done|].
  eapply Forall_impl; [apply IH|]. intros t Ht. by etrans.
Qed.

(** Whatever the physical clock reads (stalling, stepping back or failing)
    and whatever timestamps arrive, the stamps one clock issues are strictly
    increasing in the last-write-wins order. *)
Theorem clock_stamps_increase c evs : StronglySorted time_lt (clock_run c evs).
Proof.
  revert c. induction evs as [|ev evs IH]; intros c; simpl; [constructor|].
  destruct (clock_step c ev) as [[t c']|] eqn:E; [|done].
  apply clock_step_gt in E as [_ ->]. constructor; [apply IH | apply clock_run_above].
Qed.

(** Merging a received timestamp passes it: the stamp [update] returns is
    above both the remote timestamp and every stamp issued before, and it carries
    this node's name; [update] throws exactly when the reading is not finite. *)
Theorem update_passes_remote c reading remote :
  match hlc_update c reading remote with
  | Ok (t, c') =>
      time_lt remote t ∧ time_lt (stamp c) t ∧ t = stamp c' ∧ node t = clk_node c
      ∧ (∃ physical, reading = Some physical
         ∧ wallMs t = Z.max (Z.max (clk_wallMs c) (wallMs remote)) physical)
  | Throw e =>
      reading = None ∧ e = RangeError "physical clock must return a finite number"
  end.
Proof.
  destruct (hlc_update c reading remote) as [[t c']|e] eqn:E.
  - pose proof (hlc_update_gt _ _ _ _ _ E) as [? ?].
    pose proof (hlc_update_stamp _ _ _ _ _ E). unfold hlc_update in E. inv_ok.
    destruct reading; [|done]. simpl in *. inv_ok. eauto 10.
  - destruct reading; [done|]. unfold hlc_update in E. by simplify_eq/=.
Qed.

(** [compareHybrid] is a total order on timestamps whose sign decides every
    pair: it answers -1, 0 or 1, it is 0 exactly on equal timestamps, swapping the
    arguments flips the sign, and "precedes" is transitive. *)
Theorem compareHybrid_total_order t1 t2 t3 :
  (compareHybrid t1 t2 = 0 ↔ t1 = t2)
  ∧ compareHybrid t2 t1 = - compareHybrid t1 t2
  ∧ (compareHybrid t1 t2 = -1 → compareHybrid t2 t3 = -1 → compareHybrid t1 t3 = -1)
  ∧ -1 ≤ compareHybrid t1 t2 ≤ 1.
Proof.
  split; [apply compareHybrid_eq|]. split; [|split; [apply time_lt_trans|]].
  - destruct (compareHybrid_cases t1 t2) as [H|[H|H]]; rewrite H.
    + by apply compareHybrid_gt.
    + apply compareHybrid_eq in H as ->. by apply compareHybrid_eq.
    + by apply compareHybrid_gt in H.
  - destruct (compareHybrid_cases t1 t2) as [H|[H|H]]; lia.
Qed.
