(* ===== verification/Entry.v ===== *)
(** * Stored records ([src/kv/ports.ts], [src/kv/entry.ts])

    The stored record, its last-write-wins order, expiry and tombstone
    predicates, and the two-lane contribution of a record to its partition's
    rolling digest. *)
From S2P Require Import Prelude JsNumber JsString Hash Hlc.

(** [Entry] of [src/kv/ports.ts]: a [Uint8Array] is the list of its bytes. *)
Record Entry := MkEntry {
  key : jsstring;
  value : option (list Z);
  timestamp : HybridTime;
  sequence : Z;
  expiresAt : option Z;
  deleted : bool }.

#[global] Instance Entry_eq_dec : EqDecision Entry.
Proof. solve_decision. Defined.

(** [KeyVersion] of [src/kv/ports.ts]. *)
Record KeyVersion := MkKeyVersion { kv_key : jsstring; kv_timestamp : HybridTime }.

(** [TOMBSTONE_TTL_MS] of [src/kv/constants.ts]. *)
Definition TOMBSTONE_TTL_MS : Z := 600_000.

Record DigestLanes := MkLanes { hi : Z; lo : Z }.

#[global] Instance DigestLanes_eq_dec : EqDecision DigestLanes.
Proof. solve_decision. Defined.

Definition supersedes (candidate incumbent : Entry) : bool :=
  0 <? compareHybrid (timestamp candidate) (timestamp incumbent).

Definition isExpired (entry : Entry) (nowMs : Z) : bool :=
  match expiresAt entry with
  | Some t => t <=? nowMs
  | None => false
  end.

Definition isLiveValue (entry : Entry) (nowMs : Z) : bool :=
  negb (deleted entry) && negb (isExpired entry nowMs).

Definition isReapableTombstone (entry : Entry) (nowMs : Z) : bool :=
  deleted entry && (TOMBSTONE_TTL_MS <=? nowMs - wallMs (timestamp entry)).

Definition BUCKET_SEED : Z := 0x2545f491.

Definition repairBucket (k : jsstring) (bucketCount : Z) : Z :=
  mix32 (u32 (js_xor (hash32 k) BUCKET_SEED)) mod bucketCount.

Definition HI_SEED : Z := 0x9e3779b9.
Definition DELETED_SALT : Z := 0x27d4eb2f.

Definition entryContribution (entry : Entry) : DigestLanes :=
  let keyHash := hash32 (key entry) in
  let wallLow := u32 (wallMs (timestamp entry)) in
  let wallHigh := u32 (wallMs (timestamp entry) / 0x1_0000_0000) in
  let lg := u32 (logical (timestamp entry)) in
  let nodeHash := hash32 (node (timestamp entry)) in
  let salt := if deleted entry then DELETED_SALT else 0 in
  let low := mix32 (js_xor (mix32 (js_xor
               (mix32 (u32 (js_xor (js_xor keyHash wallLow) salt))) lg)) nodeHash) in
  let high := mix32 (js_xor (mix32 (js_xor
               (mix32 (u32 (js_xor keyHash HI_SEED))) wallHigh)) (u32 (js_xor nodeHash lg))) in
  MkLanes (u32 high) (u32 low).

#[global] Strategy 100 [entryContribution repairBucket].

(** ** The last-write-wins order on records *)

Lemma supersedes_spec e i : supersedes e i = true ↔ time_lt (timestamp i) (timestamp e).
Proof.
  unfold supersedes. rewrite <-compareHybrid_gt, Z.ltb_lt.
  destruct (compareHybrid_cases (timestamp e) (timestamp i)) as [H|[H|H]]; lia.
Qed.

Lemma supersedes_irrefl e : supersedes e e = false.
Proof.
  apply not_true_iff_false. rewrite supersedes_spec. apply (irreflexivity time_lt).
Qed.

Lemma supersedes_trans e1 e2 e3 :
  supersedes e1 e2 = true → supersedes e2 e3 = true → supersedes e1 e3 = true.
Proof. rewrite !supersedes_spec. intros. by etrans. Qed.

Lemma not_supersedes_trans e1 e2 e3 :
  supersedes e1 e2 = false → supersedes e2 e3 = false → supersedes e1 e3 = false.
Proof.
  rewrite <-!not_true_iff_false, !supersedes_spec. intros H1 H2 H3.
  destruct (time_lt_total (timestamp e2) (timestamp e1)) as [?|[Heq|?]]; [done| |].
  - by rewrite <-Heq in H3.
  - apply H2. by etrans.
Qed.

Lemma not_supersedes_both e1 e2 :
  supersedes e1 e2 = false → supersedes e2 e1 = false → timestamp e1 = timestamp e2.
Proof.
  rewrite <-!not_true_iff_false, !supersedes_spec. intros H1 H2.
  by destruct (time_lt_total (timestamp e1) (timestamp e2)) as [?|[?|?]].
Qed.

(** ** Expiry *)

Lemma isExpired_mono e t t' : t ≤ t' → isExpired e t = true → isExpired e t' = true.
Proof.
  unfold isExpired. destruct (expiresAt e); [|done]. rewrite !Z.leb_le. lia.
Qed.

Lemma isLiveValue_mono e t t' : t ≤ t' → isLiveValue e t' = true → isLiveValue e t = true.
Proof.
  unfold isLiveValue. intros Ht [Hd He]%andb_true_iff. rewrite Hd. simpl.
  apply negb_true_iff. apply negb_true_iff in He.
  destruct (isExpired e t) eqn:E; [|done]. by rewrite (isExpired_mono _ _ _ Ht E) in He.
Qed.

(** ** The digest contribution *)

Lemma entryContribution_range e :
  is_u32 (hi (entryContribution e)) ∧ is_u32 (lo (entryContribution e)).
Proof. split; apply u32_range. Qed.

Lemma repairBucket_range k n : 0 < n → 0 ≤ repairBucket k n < n.
Proof. intros. by apply Z.mod_pos_bound. Qed.

Lemma mix32_u32 h : mix32 (u32 h) = mix32 h.
Proof. rewrite !mix32_unfold. by rewrite u32_u32. Qed.

Lemma u32_mix32 h : u32 (mix32 h) = mix32 h.
Proof. apply u32_id, mix32_range. Qed.

Lemma mix32_inj_u32 x y : mix32 x = mix32 y → u32 x = u32 y.
Proof. intros H. rewrite <-!unmix32_mix32. by rewrite H. Qed.

Lemma lxor_cancel_l a b c : Z.lxor a b = Z.lxor a c → b = c.
Proof.
  intros H. apply (f_equal (Z.lxor a)) in H.
  by rewrite <-!Z.lxor_assoc, !Z.lxor_nilpotent, !Z.lxor_0_l in H.
Qed.

Lemma lxor_cancel_r a b c : Z.lxor b a = Z.lxor c a → b = c.
Proof. rewrite !(Z.lxor_comm _ a). apply lxor_cancel_l. Qed.

(** Undoes one [mix32(_ ^ _)] layer of an equality between contributions. *)
Lemma mix32_xor_inj a b c d :
  mix32 (js_xor a b) = mix32 (js_xor c d) → Z.lxor (u32 a) (u32 b) = Z.lxor (u32 c) (u32 d).
Proof. intros H%mix32_inj_u32. by rewrite !u32_js_xor in H. Qed.

(** Within one 2^32 ms era, the digest contribution identifies the write:
    two records of one key by one writer with the same tombstone flag and the same
    high wall word have equal contributions only if their wall times (modulo 2^32)
    and logical counters (as 32-bit words) are equal. *)
Theorem entryContribution_injective e1 e2 :
  key e1 = key e2 →
  node (timestamp e1) = node (timestamp e2) →
  deleted e1 = deleted e2 →
  u32 (wallMs (timestamp e1) / 2 ^ 32) = u32 (wallMs (timestamp e2) / 2 ^ 32) →
  entryContribution e1 = entryContribution e2 →
  u32 (logical (timestamp e1)) = u32 (logical (timestamp e2))
  ∧ u32 (wallMs (timestamp e1)) = u32 (wallMs (timestamp e2)).
Proof.
  intros Hk Hn Hd Hw H. unfold entryContribution in H.
  rewrite Hk, Hn, Hd in H. change 0x1_0000_0000 with (2 ^ 32) in H. rewrite Hw in H.
  pose proof (f_equal hi H) as Hhi. pose proof (f_equal lo H) as Hlo.
  cbn [hi lo] in Hhi, Hlo. rewrite !u32_mix32 in Hhi, Hlo.
  apply mix32_xor_inj, lxor_cancel_l in Hhi. rewrite !u32_u32, !u32_js_xor in Hhi.
  apply lxor_cancel_l in Hhi. rewrite !u32_u32 in Hhi. split; [done|].
  rewrite Hhi in Hlo. apply mix32_xor_inj, lxor_cancel_r in Hlo.
  rewrite !u32_mix32 in Hlo.
  apply mix32_xor_inj, lxor_cancel_r in Hlo.
  rewrite !u32_mix32, !mix32_u32 in Hlo.
  apply mix32_xor_inj, lxor_cancel_r in Hlo. rewrite !u32_js_xor in Hlo.
  apply lxor_cancel_l in Hlo. by rewrite !u32_u32 in Hlo.
Qed.

Lemma entryContribution_injective_witness :
  let e := MkEntry (js "k") (Some [1]) (MkTime 1000 3 (js "a")) 1 None false in
  u32 (logical (timestamp e)) = u32 3 ∧ u32 (wallMs (timestamp e)) = u32 1000.
Proof.
  apply (entryContribution_injective
    (MkEntry (js "k") (Some [1]) (MkTime 1000 3 (js "a")) 1 None false)
    (MkEntry (js "k") (Some [2]) (MkTime 1000 3 (js "a")) 7 (Some 5) false));
    vm_compute; reflexivity.
Defined.
