(* ===== verification/Partition.v ===== *)
(** * One partition's fragment ([src/kv/partition.ts])

    The key-to-entry [Map] with its rolling XOR digest.  The invariant ties the
    digest to the stored entries; the merge theorems show that a fragment is a
    last-write-wins map whose content does not depend on the order, the
    repetition or the route of the entries merged into it. *)
From S2P Require Import Prelude JsNumber JsString Hash Hlc Entry.

Record Partition := MkPartition {
  entries : list (jsstring * Entry);
  p_hi : Z;
  p_lo : Z }.

Definition new_Partition : Partition := MkPartition [] 0 0.

Definition partition_size (p : Partition) : nat := length (entries p).

Definition digest (p : Partition) : DigestLanes := MkLanes (u32 (p_hi p)) (u32 (p_lo p)).

Definition peek (p : Partition) (k : jsstring) : option Entry := jm_get k (entries p).

Definition partition_get (p : Partition) (k : jsstring) (nowMs : Z) : option Entry :=
  match jm_get k (entries p) with
  | None => None
  | Some entry => if isLiveValue entry nowMs then Some entry else None
  end.

Definition toggle (p : Partition) (entry : Entry) : Partition :=
  let contribution := entryContribution entry in
  MkPartition (entries p)
    (u32 (js_xor (p_hi p) (hi contribution)))
    (u32 (js_xor (p_lo p) (lo contribution))).

Definition set_entries (p : Partition) (m : list (jsstring * Entry)) : Partition :=
  MkPartition m (p_hi p) (p_lo p).

Definition partition_apply (p : Partition) (entry : Entry) : bool * Partition :=
  let existing := jm_get (key entry) (entries p) in
  match existing with
  | Some old =>
      if negb (supersedes entry old) then (false, p)
      else
        let p := toggle p old in
        let p := set_entries p (jm_set (key entry) entry (entries p)) in
        (true, toggle p entry)
  | None =>
      let p := set_entries p (jm_set (key entry) entry (entries p)) in
      (true, toggle p entry)
  end.

(** One turn of the loop of [reap]; the count is the second component. *)
Definition reap_step (nowMs : Z) (st : Partition * Z) (entry : Entry) : Partition * Z :=
  let '(p, reaped) := st in
  if isReapableTombstone entry nowMs || isExpired entry nowMs
  then (toggle (set_entries p (jm_delete (key entry) (entries p))) entry, reaped + 1)
  else (p, reaped).

Definition reap (p : Partition) (nowMs : Z) : Partition * Z :=
  foldl (reap_step nowMs) (p, 0) (jm_values (entries p)).

Definition partition_entries (p : Partition) : list Entry := jm_values (entries p).

(** One turn of the loop of [bucketDigests] over one lane array: [lanes[bucket] =
    (lanes[bucket] ^ lane) >>> 0]. *)
Definition bucket_step (bucketCount : Z) (lane : DigestLanes → Z) (lanes : list Z) (entry : Entry)
    : list Z :=
  let bucket := Z.to_nat (repairBucket (key entry) bucketCount) in
  <[bucket := u32 (js_xor (nth bucket lanes 0) (lane (entryContribution entry)))]> lanes.

Definition bucketDigests (p : Partition) (bucketCount : Z) : list DigestLanes :=
  let zeros := replicate (Z.to_nat bucketCount) 0 in
  let his := foldl (bucket_step bucketCount hi) zeros (jm_values (entries p)) in
  let los := foldl (bucket_step bucketCount lo) zeros (jm_values (entries p)) in
  zip_with MkLanes his los.

Definition keyVersions (p : Partition) (buckets : list Z) (bucketCount : Z) : list KeyVersion :=
  foldl (λ versions entry,
    if bool_decide (repairBucket (key entry) bucketCount ∈ buckets)
    then versions ++ [MkKeyVersion (key entry) (timestamp entry)] else versions)
    [] (jm_values (entries p)).

Definition entriesFor (p : Partition) (keys : list jsstring) : list Entry :=
  foldl (λ found k,
    match jm_get k (entries p) with
    | Some entry => found ++ [entry]
    | None => found
    end) [] keys.

(** ** The invariant *)

(** Keys are unique and match their entries, and each lane is the XOR of the
    contributions of the stored entries. *)
Record partition_inv (p : Partition) : Prop := {
  inv_wf : jm_wf (entries p);
  inv_keys : ∀ k e, jm_get k (entries p) = Some e → key e = k;
  inv_hi : p_hi p = xor_values (λ e, hi (entryContribution e)) (entries p);
  inv_lo : p_lo p = xor_values (λ e, lo (entryContribution e)) (entries p) }.

Lemma xor_over_u32 (f : Entry → Z) l : (∀ e, is_u32 (f e)) → is_u32 (xor_over f l).
Proof.
  intros Hf. unfold xor_over. induction l as [|e l IH]; cbn; [by split|]. by apply is_u32_lxor.
Qed.

Lemma xor_values_u32 {K} (f : Entry → Z) (m : list (K * Entry)) :
  (∀ e, is_u32 (f e)) → is_u32 (xor_values f m).
Proof.
  apply xor_over_u32.
Qed.

Lemma contribution_u32 e :
  is_u32 (hi (entryContribution e)) ∧ is_u32 (lo (entryContribution e)).
Proof. apply entryContribution_range. Qed.

Lemma contribution_hi_u32 e : is_u32 (hi (entryContribution e)).
Proof. apply (proj1 (contribution_u32 e)). Qed.

Lemma contribution_lo_u32 e : is_u32 (lo (entryContribution e)).
Proof. apply (proj2 (contribution_u32 e)). Qed.

Lemma new_Partition_inv : partition_inv new_Partition.
Proof. by split; [apply jm_wf_nil|..]. Qed.

(** The lanes after [toggle], on lanes that are unsigned words. *)
Lemma toggle_lanes p e :
  is_u32 (p_hi p) → is_u32 (p_lo p) →
  p_hi (toggle p e) = Z.lxor (p_hi p) (hi (entryContribution e)) ∧
  p_lo (toggle p e) = Z.lxor (p_lo p) (lo (entryContribution e)).
Proof.
  intros Hh Hl. unfold toggle. cbn [p_hi p_lo]. rewrite !u32_js_xor.
  rewrite (u32_id (p_hi p)), (u32_id (p_lo p)) by done.
  destruct (contribution_u32 e) as [H1 H2]. by rewrite (u32_id _ H1), (u32_id _ H2).
Qed.

Lemma inv_lanes_u32 p : partition_inv p → is_u32 (p_hi p) ∧ is_u32 (p_lo p).
Proof.
  intros [_ _ Hh Hl]. rewrite Hh, Hl. split; apply xor_values_u32; [apply contribution_hi_u32 | apply contribution_lo_u32].
Qed.

(** Storing a new entry, and replacing one, keeps the lanes in step. *)
Lemma insert_inv p k e :
  partition_inv p → key e = k → peek p k = None →
  partition_inv (toggle (set_entries p (jm_set k e (entries p))) e).
Proof.
  intros Hp Hk Hnone. destruct (inv_lanes_u32 _ Hp) as [Uh Ul].
  destruct (toggle_lanes (set_entries p (jm_set k e (entries p))) e Uh Ul) as [Eh El].
  destruct Hp as [Hwf Hkeys Hh Hl].
  split; [cbn [toggle set_entries entries]..| |].
  - by apply jm_wf_set.
  - intros k' e'. rewrite jm_get_set. case_decide as Hd; [intros [= <-]; by rewrite Hd|apply Hkeys].
  - rewrite Eh. cbn [toggle set_entries entries p_hi]. rewrite Hh.
    symmetry. by apply (xor_values_set_new (λ e, hi (entryContribution e))).
  - rewrite El. cbn [toggle set_entries entries p_lo]. rewrite Hl.
    symmetry. by apply (xor_values_set_new (λ e, lo (entryContribution e))).
Qed.

Lemma replace_inv p k e old :
  partition_inv p → key e = k → peek p k = Some old →
  partition_inv (toggle (set_entries (toggle p old) (jm_set k e (entries p))) e).
Proof.
  intros Hp Hk Hold. destruct (inv_lanes_u32 _ Hp) as [Uh Ul].
  destruct (toggle_lanes p old Uh Ul) as [Eh0 El0].
  destruct (contribution_u32 old) as [Co1 Co2].
  destruct (toggle_lanes (set_entries (toggle p old) (jm_set k e (entries p))) e) as [Eh El];
    [cbn [set_entries p_hi p_lo]; rewrite ?Eh0, ?El0; by apply is_u32_lxor..|].
  destruct Hp as [Hwf Hkeys Hh Hl].
  split; [cbn [toggle set_entries entries]..| |].
  - by apply jm_wf_set.
  - intros k' e'. rewrite jm_get_set. case_decide as Hd; [intros [= <-]; by rewrite Hd|apply Hkeys].
  - rewrite Eh. cbn [set_entries p_hi]. rewrite Eh0, Hh.
    cbn [toggle set_entries entries]. symmetry. by apply (xor_values_set_old (λ e, hi (entryContribution e))).
  - rewrite El. cbn [set_entries p_lo]. rewrite El0, Hl.
    cbn [toggle set_entries entries]. symmetry. by apply (xor_values_set_old (λ e, lo (entryContribution e))).
Qed.

Lemma delete_inv p k e :
  partition_inv p → key e = k → peek p k = Some e →
  partition_inv (toggle (set_entries p (jm_delete k (entries p))) e).
Proof.
  intros Hp Hk Hold. destruct (inv_lanes_u32 _ Hp) as [Uh Ul].
  destruct (toggle_lanes (set_entries p (jm_delete k (entries p))) e Uh Ul) as [Eh El].
  destruct Hp as [Hwf Hkeys Hh Hl].
  split; [cbn [toggle set_entries entries]..| |].
  - by apply jm_wf_delete.
  - intros k' e'. rewrite jm_get_delete. case_decide; [done|apply Hkeys].
  - rewrite Eh. cbn [toggle set_entries entries p_hi]. rewrite Hh.
    symmetry. by apply (xor_values_delete (λ e, hi (entryContribution e))).
  - rewrite El. cbn [toggle set_entries entries p_lo]. rewrite Hl.
    symmetry. by apply (xor_values_delete (λ e, lo (entryContribution e))).
Qed.

Lemma apply_inv p e : partition_inv p → partition_inv (partition_apply p e).2.
Proof.
  intros Hp. unfold partition_apply. fold (peek p (key e)).
  destruct (peek p (key e)) as [old|] eqn:E.
  - destruct (supersedes e old); cbn [negb snd]; [|done]. by apply (replace_inv p _ e old).
  - by apply insert_inv.
Qed.

(** ** Merging under last write wins *)

(** The specification of one merge at one key: the incumbent survives unless the
    candidate supersedes it. *)
Definition lww (incumbent : option Entry) (candidate : Entry) : option Entry :=
  match incumbent with
  | None => Some candidate
  | Some i => if supersedes candidate i then Some candidate else Some i
  end.

Lemma peek_apply p e k :
  peek (partition_apply p e).2 k =
  if decide (k = key e) then lww (peek p k) e else peek p k.
Proof.
  unfold partition_apply, peek, lww.
  destruct (jm_get (key e) (entries p)) as [old|] eqn:E.
  - destruct (supersedes e old) eqn:Es; cbn [negb snd toggle set_entries entries].
    + rewrite jm_get_set. case_decide as Hk; [|done]. subst k. by rewrite E, Es.
    + case_decide as Hk; [|done]. subst k. by rewrite E, Es.
  - cbn [snd toggle set_entries entries]. rewrite jm_get_set.
    case_decide as Hk; [|done]. subst k. by rewrite E.
Qed.

(** The return value says whether the fragment changed at the key. *)
Lemma apply_changed p e :
  (partition_apply p e).1 = bool_decide (peek p (key e) ≠ lww (peek p (key e)) e).
Proof.
  unfold partition_apply, peek, lww.
  destruct (jm_get (key e) (entries p)) as [old|] eqn:E.
  - destruct (supersedes e old) eqn:Es; cbn [negb fst].
    + rewrite bool_decide_eq_true_2; [done|]. intros [= ->]. by rewrite supersedes_irrefl in Es.
    + by rewrite bool_decide_eq_false_2; [|naive_solver].
  - by rewrite bool_decide_eq_true_2.
Qed.

Definition apply_all (p : Partition) (es : list Entry) : Partition :=
  foldl (λ p e, (partition_apply p e).2) p es.

Lemma apply_all_inv p es : partition_inv p → partition_inv (apply_all p es).
Proof.
  revert p. induction es as [|e es IH]; intros p Hp; [done|].
  apply IH. by apply apply_inv.
Qed.

Lemma peek_apply_all p es k :
  peek (apply_all p es) k = foldl lww (peek p k) (filter (λ e, key e = k) es).
Proof.
  revert p. induction es as [|e es IH]; intros p; [done|].
  cbn [apply_all foldl]. fold (apply_all (partition_apply p e).2 es).
  rewrite IH, peek_apply, filter_cons.
  destruct (decide (key e = k)) as [<-|Hne]; [by rewrite decide_True|].
  by rewrite decide_False by congruence.
Qed.

(** [w] is a newest entry of [l]. *)
Definition newest (l : list Entry) (w : Entry) : Prop :=
  w ∈ l ∧ ∀ e, e ∈ l → supersedes e w = false.

(** Entries of one key with one timestamp are one write. *)
Definition coherent (l : list Entry) : Prop :=
  ∀ e e', e ∈ l → e' ∈ l → key e = key e' → timestamp e = timestamp e' → e = e'.

Lemma lww_newest i e : newest (option_list i ++ [e]) (from_option id e (lww i e)).
Proof.
  destruct i as [i|]; simpl.
  - destruct (supersedes e i) eqn:E; simpl; split; try set_solver.
    + intros x [->|[->|[]%not_elem_of_nil]%elem_of_cons]%elem_of_cons.
      * apply not_true_iff_false. rewrite supersedes_spec. apply supersedes_spec in E.
        intros E'. by apply (irreflexivity time_lt (timestamp i)); etrans.
      * apply supersedes_irrefl.
    + intros x [->|[->|[]%not_elem_of_nil]%elem_of_cons]%elem_of_cons;
        [apply supersedes_irrefl | done].
  - split; [set_solver|]. intros x ->%list_elem_of_singleton. apply supersedes_irrefl.
Qed.

Lemma newest_app_r l1 l2 w w' :
  newest l1 w → newest (w :: l2) w' → newest (l1 ++ l2) w'.
Proof.
  intros [Hw Hl1] [Hw' Hl2]. split.
  - apply elem_of_cons in Hw' as [->|]; set_solver.
  - intros e [He|He]%elem_of_app; [|apply Hl2; set_solver].
    eapply not_supersedes_trans; [by apply Hl1|]. apply Hl2. set_solver.
Qed.

Lemma foldl_lww_newest i es w :
  foldl lww i es = Some w → newest (option_list i ++ es) w.
Proof.
  revert i. induction es as [|e es IH]; intros i; simpl.
  - intros ->. simpl. split; [set_solver|]. intros x ->%list_elem_of_singleton.
    apply supersedes_irrefl.
  - pose proof (lww_newest i e) as Hn. destruct (lww i e) as [x|] eqn:Ex; simpl in Hn.
    + intros Hw%IH. simpl in Hw.
      replace (option_list i ++ e :: es) with ((option_list i ++ [e]) ++ es)
        by (by rewrite <-app_assoc). by eapply newest_app_r.
    + exfalso. destruct i as [i|]; simpl in Ex; [by destruct (supersedes e i) | done].
Qed.

Lemma foldl_lww_None i es : foldl lww i es = None ↔ i = None ∧ es = [].
Proof.
  split; [|by intros [-> ->]]. revert i.
  induction es as [|e es IH]; intros i; simpl; [done|].
  intros [Hl ->]%IH. destruct i as [i|]; simpl in Hl; [|done]. by destruct (supersedes e i).
Qed.

Lemma newest_unique l w w' :
  (∀ e e', e ∈ l → e' ∈ l → timestamp e = timestamp e' → e = e') →
  newest l w → newest l w' → w = w'.
Proof.
  intros Hc [Hw Hw1] [Hw' Hw1']. apply Hc; [done..|].
  by apply not_supersedes_both; [apply Hw1'|apply Hw1].
Qed.

(** The stored entry at a key after a batch of merges is the newest of the
    incumbent and the batch's entries for that key. *)
Lemma peek_apply_all_newest p es k w :
  peek (apply_all p es) k = Some w →
  newest (option_list (peek p k) ++ filter (λ e, key e = k) es) w.
Proof. rewrite peek_apply_all. apply foldl_lww_newest. Qed.

Lemma apply_all_same_set p es1 es2 :
  partition_inv p →
  coherent (partition_entries p ++ es1) →
  (∀ e, e ∈ es1 ↔ e ∈ es2) →
  ∀ k, peek (apply_all p es1) k = peek (apply_all p es2) k.
Proof.
  intros Hp Hc Hset k. rewrite !peek_apply_all.
  set (f := filter (λ e, key e = k)).
  assert (∀ e, e ∈ option_list (peek p k) ++ f es1 ↔ e ∈ option_list (peek p k) ++ f es2)
    as Heq by (intros e; unfold f; rewrite !elem_of_app, !list_elem_of_filter, Hset; done).
  assert (∀ e, e ∈ option_list (peek p k) ++ f es1 →
    e ∈ partition_entries p ++ es1 ∧ key e = k) as Hin.
  { intros e [He|He]%elem_of_app.
    - destruct (peek p k) as [i|] eqn:E; simpl in He; [|by apply not_elem_of_nil in He].
      apply list_elem_of_singleton in He as ->. split; [|by eapply inv_keys].
      apply elem_of_app. left. unfold partition_entries, jm_values.
      apply list_elem_of_fmap. exists (k, i). split; [done|]. by apply jm_get_elem.
    - apply list_elem_of_filter in He as [? ?]. set_solver. }
  destruct (foldl lww (peek p k) (f es1)) as [w|] eqn:E1,
    (foldl lww (peek p k) (f es2)) as [w'|] eqn:E2; try done.
  - apply foldl_lww_newest in E1, E2. f_equal.
    apply (newest_unique (option_list (peek p k) ++ f es1)); [|done|].
    + intros e e' [He ?]%Hin [He' ?]%Hin. apply Hc; [done..|congruence].
    + destruct E2 as [E2 E2']. split; [by apply Heq|]. intros e He. by apply E2', Heq.
  - exfalso. apply foldl_lww_None in E2 as [E2 E2']. apply foldl_lww_newest in E1 as [E1 _].
    apply Heq in E1. rewrite E2, E2' in E1. by apply not_elem_of_nil in E1.
  - exfalso. apply foldl_lww_None in E1 as [E1 E1']. apply foldl_lww_newest in E2 as [E2 _].
    apply Heq in E2. rewrite E1, E1' in E2. by apply not_elem_of_nil in E2.
Qed.

(** Fragments that agree at every key have the same digest. *)
Lemma same_content_same_digest p1 p2 :
  partition_inv p1 → partition_inv p2 → (∀ k, peek p1 k = peek p2 k) → digest p1 = digest p2.
Proof.
  intros H1 H2 Hp.
  assert (entries p1 ≡ₚ entries p2) as Hperm
    by (apply jm_get_ext_perm; [apply H1|apply H2|done]).
  unfold digest. rewrite (inv_hi _ H1), (inv_lo _ H1), (inv_hi _ H2), (inv_lo _ H2).
  unfold xor_values, jm_values. by rewrite !(xor_over_perm _ (entries p1).*2 (entries p2).*2)
    by (by apply fmap_Permutation).
Qed.

(** ** Reaping *)

(** What the janitor removes: reapable tombstones and expired entries. *)
Definition doomed (nowMs : Z) (e : Entry) : bool :=
  isReapableTombstone e nowMs || isExpired e nowMs.

Lemma reap_loop nowMs l p n :
  partition_inv p → NoDup (key <$> l) → (∀ e, e ∈ l → peek p (key e) = Some e) →
  let r := foldl (reap_step nowMs) (p, n) l in
  partition_inv r.1
  ∧ (∀ k, peek r.1 k =
       match peek p k with
       | Some e => if bool_decide (e ∈ l) && doomed nowMs e then None else Some e
       | None => None
       end)
  ∧ r.2 = n + Z.of_nat (length (filter (λ e, doomed nowMs e = true) l)).
Proof.
  revert p n. induction l as [|e l IH]; intros p n Hp Hnd Hl; cbv zeta; cbn [foldl].
  { split; [done|]. split; [|cbn; lia]. intros k. destruct (peek p k) as [e|] eqn:E; [|done].
    by rewrite bool_decide_eq_false_2 by apply not_elem_of_nil. }
  rewrite fmap_cons, NoDup_cons in Hnd. destruct Hnd as [He Hnd].
  rewrite filter_cons. unfold reap_step at 2 4 6. fold (doomed nowMs e). destruct (doomed nowMs e) eqn:Ed.
  - pose proof (Hl e ltac:(left)) as Hpe.
    set (p' := toggle (set_entries p (jm_delete (key e) (entries p))) e).
    assert (∀ k, peek p' k = if decide (k = key e) then None else peek p k) as Hp'.
    { intros k. unfold peek, p'. cbn [toggle set_entries entries]. apply jm_get_delete. }
    destruct (IH p' (n + 1)) as (Hi & Hk & Hn); [by apply delete_inv|done| |].
    { intros x Hx. rewrite Hp', decide_False; [apply Hl; by right|].
      intros Heq. destruct He. rewrite <-Heq. by apply list_elem_of_fmap_2. }
    split; [done|]. split; [|rewrite decide_True by done; cbn [length]; lia].
    intros k. rewrite Hk, Hp'. case_decide as Hke; [subst k; rewrite Hpe|].
    + rewrite bool_decide_eq_true_2 by left. by rewrite Ed.
    + destruct (peek p k) as [x|] eqn:Ex; [|done].
      assert (x ≠ e) as Hxe by (intros ->; apply (inv_keys _ Hp) in Ex; congruence).
      rewrite (bool_decide_ext (x ∈ e :: l) (x ∈ l)); [done|]. rewrite elem_of_cons. tauto.
  - destruct (IH p n Hp Hnd) as (Hi & Hk & Hn); [intros x Hx; apply Hl; by right|].
    split; [done|]. split; [|rewrite decide_False by done; done].
    intros k. rewrite Hk. destruct (peek p k) as [x|] eqn:Ex; [|done].
    destruct (decide (x = e)) as [->|Hxe]; [by rewrite Ed, !andb_false_r|].
    rewrite (bool_decide_ext (x ∈ e :: l) (x ∈ l)); [done|]. rewrite elem_of_cons. tauto.
Qed.

Lemma partition_entries_nodup p : partition_inv p → NoDup (key <$> partition_entries p).
Proof.
  intros Hp. replace (key <$> partition_entries p) with (entries p).*1; [apply Hp|].
  unfold partition_entries, jm_values. rewrite <-list_fmap_compose.
  apply list_fmap_ext. intros i [k e] Hi. simpl. symmetry. apply (inv_keys _ Hp).
  apply elem_jm_get; [apply Hp|]. by eapply list_elem_of_lookup_2.
Qed.

Lemma elem_partition_entries p e :
  partition_inv p → e ∈ partition_entries p ↔ peek p (key e) = Some e.
Proof.
  intros Hp. unfold partition_entries, jm_values, peek. rewrite list_elem_of_fmap. split.
  - intros ([k x] & -> & Hx). simpl. apply elem_jm_get in Hx; [|apply Hp].
    by rewrite (inv_keys _ Hp _ _ Hx).
  - intros He. exists (key e, e). split; [done|]. by apply jm_get_elem.
Qed.

Lemma reap_spec p nowMs :
  partition_inv p →
  partition_inv (reap p nowMs).1
  ∧ (∀ k, peek (reap p nowMs).1 k =
       match peek p k with
       | Some e => if doomed nowMs e then None else Some e
       | None => None
       end)
  ∧ (reap p nowMs).2 =
      Z.of_nat (length (filter (λ e, doomed nowMs e = true) (partition_entries p))).
Proof.
  intros Hp. destruct (reap_loop nowMs (partition_entries p) p 0) as (Hi & Hk & Hn);
    [done|by apply partition_entries_nodup|by intros e He%elem_partition_entries|].
  split; [done|]. split; [|done]. intros k. unfold reap. rewrite Hk.
  destruct (peek p k) as [e|] eqn:E; [|done].
  rewrite bool_decide_eq_true_2; [done|]. apply elem_partition_entries; [done|].
  by rewrite (inv_keys _ Hp _ _ E).
Qed.

(** ** Repair buckets *)

Definition in_bucket (n b : Z) (e : Entry) : Prop := repairBucket (key e) n = b.

#[global] Instance in_bucket_dec n b e : Decision (in_bucket n b e).
Proof. unfold in_bucket. apply _. Defined.

Lemma bucket_fold n (lane : DigestLanes → Z) es lanes (i : nat) v :
  0 < n → (∀ e, is_u32 (lane (entryContribution e))) → Forall is_u32 lanes →
  lanes !! i = Some v →
  foldl (bucket_step n lane) lanes es !! i =
    Some (Z.lxor v (xor_over (λ e, lane (entryContribution e))
                             (filter (in_bucket n (Z.of_nat i)) es))).
Proof.
  intros Hn Hlane. revert lanes v. induction es as [|e es IH]; intros lanes v Hl Hv.
  { cbn [foldl]. rewrite Hv. unfold xor_over. simpl. by rewrite Z.lxor_0_r. }
  cbn [foldl]. rewrite filter_cons.
  pose proof (repairBucket_range (key e) n Hn) as Hb.
  set (b := Z.to_nat (repairBucket (key e) n)).
  assert (is_u32 (nth b lanes 0)) as Hnth.
  { destruct (nth_in_or_default b lanes 0) as [Hin| ->]; [|by split].
    rewrite Forall_forall in Hl. by apply Hl, list_elem_of_In. }
  assert (u32 (js_xor (nth b lanes 0) (lane (entryContribution e)))
          = Z.lxor (nth b lanes 0) (lane (entryContribution e))) as Hx.
  { rewrite u32_js_xor, (u32_id (nth _ _ _)) by done. by rewrite (u32_id _ (Hlane e)). }
  assert (Forall is_u32 (bucket_step n lane lanes e)) as Hl'.
  { unfold bucket_step. fold b. rewrite Hx. apply Forall_insert; [done|by apply is_u32_lxor]. }
  destruct (decide (in_bucket n (Z.of_nat i) e)) as [Hin|Hin]; unfold in_bucket in Hin.
  - assert (b = i) as Hbi by (unfold b; lia).
    rewrite (IH _ (Z.lxor v (lane (entryContribution e)))); [|done|].
    + unfold xor_over. cbn [foldr]. by rewrite Z.lxor_assoc.
    + unfold bucket_step. fold b. rewrite Hx, Hbi.
      rewrite list_lookup_insert_eq by (by eapply lookup_lt_Some).
      by rewrite (nth_lookup_Some _ _ _ _ Hv).
  - rewrite (IH _ v); [done..|]. unfold bucket_step. fold b.
    rewrite list_lookup_insert_ne; [done|]. unfold b. lia.
Qed.

Lemma length_bucket_fold n lane es lanes :
  length (foldl (bucket_step n lane) lanes es) = length lanes.
Proof.
  revert lanes. induction es as [|e es IH]; intros lanes; cbn [foldl]; [done|].
  rewrite IH. apply length_insert.
Qed.

(** The lanes of bucket [i] are the XOR over the entries that fall in it. *)
Lemma bucketDigests_lookup p n (i : nat) :
  0 < n → Z.of_nat i < n →
  bucketDigests p n !! i = Some (MkLanes
    (xor_over (λ e, hi (entryContribution e))
       (filter (in_bucket n (Z.of_nat i)) (partition_entries p)))
    (xor_over (λ e, lo (entryContribution e))
       (filter (in_bucket n (Z.of_nat i)) (partition_entries p)))).
Proof.
  intros Hn Hi. unfold bucketDigests. apply lookup_zip_with_Some.
  assert (replicate (Z.to_nat n) 0 !! i = Some 0) as H0 by (apply lookup_replicate; lia).
  assert (Forall is_u32 (replicate (Z.to_nat n) 0)) as Hr by (by apply Forall_replicate).
  eexists _, _. split; [|split; (apply bucket_fold with (v := 0); [done| |done..])].
  - by rewrite !Z.lxor_0_l.
  - apply contribution_hi_u32.
  - apply contribution_lo_u32.
Qed.

Lemma length_bucketDigests p n : length (bucketDigests p n) = Z.to_nat n.
Proof.
  unfold bucketDigests. rewrite length_zip_with, !length_bucket_fold, !length_replicate. lia.
Qed.

(** Fragments that hold the same entries in a bucket have the same bucket digest. *)
Lemma same_bucket_same_digest p1 p2 n (i : nat) :
  partition_inv p1 → partition_inv p2 → 0 < n → Z.of_nat i < n →
  (∀ k, repairBucket k n = Z.of_nat i → peek p1 k = peek p2 k) →
  bucketDigests p1 n !! i = bucketDigests p2 n !! i.
Proof.
  intros H1 H2 Hn Hi Hag. rewrite !bucketDigests_lookup by done.
  assert (filter (in_bucket n (Z.of_nat i)) (partition_entries p1)
          ≡ₚ filter (in_bucket n (Z.of_nat i)) (partition_entries p2)) as Hperm.
  { apply NoDup_Permutation.
    - apply NoDup_filter. eapply NoDup_fmap_1, partition_entries_nodup, H1.
    - apply NoDup_filter. eapply NoDup_fmap_1, partition_entries_nodup, H2.
    - intros e. rewrite !list_elem_of_filter, !elem_partition_entries by done.
      unfold in_bucket. split; intros [Hb He]; (split; [done|]); specialize (Hag _ Hb); congruence. }
  by rewrite !(xor_over_perm _ _ _ Hperm).
Qed.

Lemma keyVersions_alt p buckets n :
  keyVersions p buckets n =
  (λ e, MkKeyVersion (key e) (timestamp e)) <$>
    filter (λ e, repairBucket (key e) n ∈ buckets) (partition_entries p).
Proof.
  unfold keyVersions, partition_entries. generalize (jm_values (entries p)). intros l.
  set (g := λ e, MkKeyVersion (key e) (timestamp e)).
  enough (∀ acc, foldl (λ versions entry,
      if bool_decide (repairBucket (key entry) n ∈ buckets)
      then versions ++ [MkKeyVersion (key entry) (timestamp entry)] else versions) acc l
    = acc ++ (g <$> filter (λ e, repairBucket (key e) n ∈ buckets) l)) as H by apply (H []).
  induction l as [|e l IH]; intros acc; cbn [foldl]; [by rewrite app_nil_r|].
  rewrite IH, filter_cons. case_bool_decide; case_decide; try done.
  by rewrite fmap_cons, <-app_assoc.
Qed.

Lemma entriesFor_alt p keys : entriesFor p keys = omap (peek p) keys.
Proof.
  unfold entriesFor, peek.
  enough (∀ acc, foldl (λ found k,
      match jm_get k (entries p) with Some entry => found ++ [entry] | None => found end) acc keys
    = acc ++ omap (λ k, jm_get k (entries p)) keys) as H by apply (H []).
  induction keys as [|k keys IH]; intros acc; cbn [foldl]; [by rewrite app_nil_r|].
  rewrite IH. simpl. destruct (jm_get k (entries p)); [by rewrite <-app_assoc | done].
Qed.

(** ** Properties *)

(** A mutation of a fragment. *)
Inductive partition_op :=
  | OpApply (e : Entry)
  | OpReap (nowMs : Z).

Definition partition_run (p : Partition) (ops : list partition_op) : Partition :=
  foldl (λ p op, match op with
                 | OpApply e => (partition_apply p e).2
                 | OpReap t => (reap p t).1
                 end) p ops.

Lemma partition_run_inv p ops : partition_inv p → partition_inv (partition_run p ops).
Proof.
  revert p. induction ops as [|[e|t] ops IH]; intros p Hp; [done|..]; apply IH.
  - by apply apply_inv.
  - by apply reap_spec.
Qed.

(** After any sequence of merges and janitor sweeps on a fresh fragment, the
    rolling digest equals, in both lanes, the XOR of the contributions of exactly
    the entries the fragment stores, and no key is stored twice. *)
Theorem digest_tracks_content ops :
  let p := partition_run new_Partition ops in
  digest p = MkLanes (xor_over (λ e, hi (entryContribution e)) (partition_entries p))
                     (xor_over (λ e, lo (entryContribution e)) (partition_entries p))
  ∧ NoDup (key <$> partition_entries p).
Proof.
  intros p. assert (partition_inv p) as Hp by apply partition_run_inv, new_Partition_inv.
  split; [|by apply partition_entries_nodup].
  destruct (inv_lanes_u32 _ Hp) as [Uh Ul]. unfold digest.
  rewrite (u32_id _ Uh), (u32_id _ Ul), (inv_hi _ Hp), (inv_lo _ Hp). done.
Qed.

(** A fragment converges: merging two batches that contain the same entries,
    in any order and with any repetition, leaves the same entry at every key and
    the same digest, provided entries of one key and one timestamp are one write. *)
Theorem partition_converges p es1 es2 :
  partition_inv p →
  coherent (partition_entries p ++ es1) →
  (∀ e, e ∈ es1 ↔ e ∈ es2) →
  (∀ k, peek (apply_all p es1) k = peek (apply_all p es2) k)
  ∧ digest (apply_all p es1) = digest (apply_all p es2).
Proof.
  intros Hp Hc Hset.
  assert (∀ k, peek (apply_all p es1) k = peek (apply_all p es2) k) as Heq
    by (by apply apply_all_same_set).
  split; [done|]. by apply same_content_same_digest; [apply apply_all_inv..|].
Qed.

Definition sample_entry (k : string) (w : Z) (d : bool) : Entry :=
  MkEntry (js k) (if d then None else Some [w]) (MkTime w 0 (js "n1")) w None d.

Lemma partition_converges_witness :
  let a := sample_entry "a" 5 false in
  let b := sample_entry "a" 9 true in
  let c := sample_entry "c" 7 false in
  (∀ k, peek (apply_all new_Partition [a; b; c]) k = peek (apply_all new_Partition [c; b; a; b]) k)
  ∧ digest (apply_all new_Partition [a; b; c]) = digest (apply_all new_Partition [c; b; a; b]).
Proof.
  apply (partition_converges new_Partition).
  - apply new_Partition_inv.
  - intros e e' He He'. cbn in He, He'. rewrite !elem_of_cons, elem_of_nil in He, He'.
    destruct He as [->|[->|[->|[]]]], He' as [->|[->|[->|[]]]]; vm_compute; congruence.
  - intros e. rewrite !elem_of_cons. tauto.
Defined.

(** The janitor is invisible to readers: [reap] removes exactly the reapable
    tombstones and the expired entries, counts them, keeps the digest in step, and
    no read at the sweep's time or later can tell it ran. *)
Theorem reap_invisible p nowMs t :
  partition_inv p → nowMs ≤ t →
  partition_inv (reap p nowMs).1
  ∧ (∀ k, partition_get (reap p nowMs).1 k t = partition_get p k t)
  ∧ (∀ e, e ∈ partition_entries (reap p nowMs).1 ↔
       e ∈ partition_entries p ∧ doomed nowMs e = false)
  ∧ (reap p nowMs).2 =
      Z.of_nat (length (filter (λ e, doomed nowMs e = true) (partition_entries p))).
Proof.
  intros Hp Ht. destruct (reap_spec p nowMs Hp) as (Hi & Hk & Hn).
  split; [done|]. split; [|split; [|done]].
  - intros k. unfold partition_get. fold (peek p k) (peek (reap p nowMs).1 k). rewrite Hk.
    destruct (peek p k) as [e|]; [|done]. destruct (doomed nowMs e) eqn:Ed; [|done].
    unfold doomed, isReapableTombstone, isLiveValue in *.
    apply orb_true_iff in Ed as [[Hd _]%andb_true_iff|He]; [by rewrite Hd|].
    rewrite (isExpired_mono _ _ _ Ht He). by rewrite andb_false_r.
  - intros e. rewrite !elem_partition_entries, Hk by done.
    destruct (peek p (key e)) as [x|]; [|naive_solver].
    destruct (doomed nowMs x) eqn:Ed; naive_solver congruence.
Qed.

Lemma reap_invisible_witness :
  let p := apply_all new_Partition
    [sample_entry "a" 5 false; sample_entry "b" 9 true;
     MkEntry (js "c") (Some [1]) (MkTime 7 0 (js "n1")) 3 (Some 50) false] in
  partition_inv (reap p 600_009).1
  ∧ (∀ k, partition_get (reap p 600_009).1 k 700_000 = partition_get p k 700_000)
  ∧ (∀ e, e ∈ partition_entries (reap p 600_009).1 ↔
       e ∈ partition_entries p ∧ doomed 600_009 e = false)
  ∧ (reap p 600_009).2 =
      Z.of_nat (length (filter (λ e, doomed 600_009 e = true) (partition_entries p))).
Proof.
  apply reap_invisible; [apply apply_all_inv, new_Partition_inv | lia].
Defined.

(** Bucket narrowing is sound: bucket [i] of the bucketed digest XORs exactly
    the entries whose key falls in bucket [i], and two replicas that agree on every
    key of a bucket have equal digests there, so anti-entropy never inspects a
    bucket in which nothing differs. *)
Theorem bucket_digest_spec p1 p2 n (i : nat) :
  partition_inv p1 → partition_inv p2 → 0 < n → Z.of_nat i < n →
  (∀ k, repairBucket k n = Z.of_nat i → peek p1 k = peek p2 k) →
  bucketDigests p1 n !! i = bucketDigests p2 n !! i
  ∧ bucketDigests p1 n !! i = Some (MkLanes
      (xor_over (λ e, hi (entryContribution e))
         (filter (in_bucket n (Z.of_nat i)) (partition_entries p1)))
      (xor_over (λ e, lo (entryContribution e))
         (filter (in_bucket n (Z.of_nat i)) (partition_entries p1)))).
Proof.
  intros. split; [by apply same_bucket_same_digest | by apply bucketDigests_lookup].
Qed.

Lemma bucket_digest_spec_witness :
  let p1 := apply_all new_Partition [sample_entry "a" 5 false] in
  let p2 := apply_all new_Partition [sample_entry "a" 5 false; sample_entry "b" 9 false] in
  let i := Z.to_nat (repairBucket (js "a") 64) in
  bucketDigests p1 64 !! i = bucketDigests p2 64 !! i
  ∧ bucketDigests p1 64 !! i = Some (MkLanes
      (xor_over (λ e, hi (entryContribution e))
         (filter (in_bucket 64 (Z.of_nat i)) (partition_entries p1)))
      (xor_over (λ e, lo (entryContribution e))
         (filter (in_bucket 64 (Z.of_nat i)) (partition_entries p1)))).
Proof.
  apply bucket_digest_spec.
  - apply apply_all_inv, new_Partition_inv.
  - apply apply_all_inv, new_Partition_inv.
  - done.
  - by vm_compute.
  - intros k Hk. rewrite !peek_apply_all, !filter_cons.
    destruct (decide (key (sample_entry "b" 9 false) = k)) as [<-|Hne]; [|done].
    exfalso. revert Hk. by vm_compute.
Defined.
