(* ===== verification/Store.v ===== *)
(** * The node-local store ([src/kv/store.ts])

    The partitions a node holds, keyed by partition id, materialised on first
    write; key routing, the round-robin janitor and batched iteration. *)
From S2P Require Import Prelude JsNumber JsString Hash Hlc Entry Partition.

(** Constants of [src/kv/constants.ts] the store reads. *)
Definition JANITOR_PARTITIONS_PER_SWEEP : Z := 64.
Definition SCAN_YIELD_EVERY : Z := 1_024.

Record Store := MkStore {
  partitionCount : Z;
  partitions : list (Z * Partition);
  sweepCursor : Z }.

Definition new_Store (count : Z) : result Store :=
  if negb (is_safe_integer count) || (count <=? 0)
  then Throw (RangeError "partition count must be a positive integer")
  else Ok (MkStore count [] 0).

Definition partitionsHeld (s : Store) : nat := length (partitions s).
Definition heldPartitions (s : Store) : list Z := jm_keys (partitions s).

Definition partitionFor (s : Store) (k : jsstring) : result Z :=
  partitionId k (partitionCount s).

Definition store_get (s : Store) (k : jsstring) (nowMs : Z) : result (option Entry) :=
  let! id := partitionFor s k in
  Ok (match jm_get id (partitions s) with
      | Some p => partition_get p k nowMs
      | None => None
      end).

Definition store_peek (s : Store) (k : jsstring) : result (option Entry) :=
  let! id := partitionFor s k in
  Ok (match jm_get id (partitions s) with
      | Some p => peek p k
      | None => None
      end).

Definition snapshot (s : Store) (id : Z) : list Entry :=
  match jm_get id (partitions s) with
  | None => []
  | Some p => partition_entries p
  end.

Definition set_partitions (s : Store) (m : list (Z * Partition)) : Store :=
  MkStore (partitionCount s) m (sweepCursor s).

(** [#ensure]: the partition for [id], an empty one being stored first when absent. *)
Definition ensure (s : Store) (id : Z) : Partition * Store :=
  match jm_get id (partitions s) with
  | Some existing => (existing, s)
  | None => (new_Partition, set_partitions s (jm_set id new_Partition (partitions s)))
  end.

Definition store_apply (s : Store) (entry : Entry) : result (bool * Store) :=
  let! id := partitionFor s (key entry) in
  let '(p, s) := ensure s id in
  let '(changed, p') := partition_apply p entry in
  Ok (changed, set_partitions s (jm_set id p' (partitions s))).

Definition store_drop (s : Store) (id : Z) : Store :=
  set_partitions s (jm_delete id (partitions s)).

Definition store_digest (s : Store) (id : Z) : option DigestLanes :=
  digest <$> jm_get id (partitions s).

Definition store_bucketDigests (s : Store) (id bucketCount : Z) : list DigestLanes :=
  match jm_get id (partitions s) with
  | Some p => bucketDigests p bucketCount
  | None => replicate (Z.to_nat bucketCount) (MkLanes 0 0)
  end.

Definition store_keyVersions (s : Store) (id : Z) (buckets : list Z) (bucketCount : Z)
    : list KeyVersion :=
  match jm_get id (partitions s) with
  | Some p => keyVersions p buckets bucketCount
  | None => []
  end.

Definition store_entriesFor (s : Store) (id : Z) (keys : list jsstring) : list Entry :=
  match jm_get id (partitions s) with
  | Some p => entriesFor p keys
  | None => []
  end.

(** One turn of the loop of [sweep]: [held[(cursor + step) % held.length].reap(nowMs)],
    the partition being updated in place. *)
Definition sweep_step (nowMs cursor : Z) (st : list (Z * Partition) * Z) (step : nat)
    : list (Z * Partition) * Z :=
  let '(held, reaped) := st in
  let i := Z.to_nat ((cursor + Z.of_nat step) mod Z.of_nat (length held)) in
  match held !! i with
  | Some (id, p) =>
      let '(p', n) := reap p nowMs in (<[i := (id, p')]> held, reaped + n)
  | None => (held, reaped)
  end.

Definition sweep (s : Store) (nowMs : Z) : Z * Store :=
  let len := Z.of_nat (length (partitions s)) in
  if len =? 0 then (0, s)
  else
    let count := Z.min len JANITOR_PARTITIONS_PER_SWEEP in
    let '(held, reaped) :=
      foldl (sweep_step nowMs (sweepCursor s)) (partitions s, 0) (seq 0 (Z.to_nat count)) in
    (reaped, MkStore (partitionCount s) held ((sweepCursor s + count) mod len)).

(** One turn of the loop of [iterate]: the batch being filled and the batches yielded. *)
Definition iterate_step (size : Z) (st : list Entry * list (list Entry)) (entry : Entry)
    : list Entry * list (list Entry) :=
  let '(batch, yielded) := st in
  let batch := batch ++ [entry] in
  if size <=? Z.of_nat (length batch) then ([], yielded ++ [batch]) else (batch, yielded).

(** The batches [iterate] yields over a partition that no one mutates meanwhile. *)
Definition iterate (s : Store) (id batchSize : Z) : list (list Entry) :=
  match jm_get id (partitions s) with
  | None => []
  | Some p =>
      let size := Z.max 1 batchSize in
      let '(batch, yielded) := foldl (iterate_step size) ([], []) (partition_entries p) in
      if (0 <? Z.of_nat (length batch)) then yielded ++ [batch] else yielded
  end.

(** ** The invariant *)

(** The partition a key belongs to. *)
Definition home (s : Store) (k : jsstring) : Z := hash32 k mod partitionCount s.

#[global] Typeclasses Opaque home.

Record store_inv (s : Store) : Prop := {
  st_count : 0 < partitionCount s ≤ MAX_SAFE_INTEGER;
  st_wf : jm_wf (partitions s);
  st_parts : ∀ id p, jm_get id (partitions s) = Some p →
    partition_inv p ∧ ∀ k e, peek p k = Some e → home s k = id }.

Lemma new_Store_inv n s : new_Store n = Ok s → store_inv s.
Proof.
  unfold new_Store, is_safe_integer. destruct (Z.leb_spec (- MAX_SAFE_INTEGER) n),
    (Z.leb_spec n MAX_SAFE_INTEGER), (Z.leb_spec n 0); simpl; intros; inv_ok; try done.
  split; [done|apply jm_wf_nil|done].
Qed.

Lemma partitionFor_ok s k : store_inv s → partitionFor s k = Ok (home s k).
Proof.
  intros [Hc _ _]. unfold partitionFor, partitionId, is_safe_integer.
  rewrite (proj2 (Z.leb_le (- _) _)), (proj2 (Z.leb_le _ MAX_SAFE_INTEGER)),
    (proj2 (Z.leb_gt _ 0)) by (unfold MAX_SAFE_INTEGER in *; lia). done.
Qed.

(** The content of a store as one map from keys to stored entries. *)
Definition content (s : Store) (k : jsstring) : option Entry :=
  match jm_get (home s k) (partitions s) with
  | Some p => peek p k
  | None => None
  end.

Lemma store_peek_content s k : store_inv s → store_peek s k = Ok (content s k).
Proof. intros Hs. unfold store_peek. by rewrite partitionFor_ok. Qed.

Lemma store_get_content s k nowMs :
  store_inv s →
  store_get s k nowMs =
    Ok (match content s k with
        | Some e => if isLiveValue e nowMs then Some e else None
        | None => None
        end).
Proof.
  intros Hs. unfold store_get, content. rewrite partitionFor_ok by done. simpl.
  by destruct (jm_get _ _).
Qed.

(** ** Merging into the store *)

(** A stored entry is stored under its own key. *)
Lemma content_key s k e : store_inv s → content s k = Some e → key e = k.
Proof.
  intros Hs. unfold content. destruct (jm_get (home s k) (partitions s)) as [p|] eqn:Hp; [|done].
  destruct (st_parts _ Hs _ _ Hp) as [Hi _]. intros He. by apply (inv_keys _ Hi).
Qed.

Lemma content_set_partitions s m k :
  content (set_partitions s m) k =
  match jm_get (home s k) m with Some p => peek p k | None => None end.
Proof. done. Qed.

Lemma ensure_spec s id :
  store_inv s →
  let '(p, s') := ensure s id in
  store_inv s' ∧ partitionCount s' = partitionCount s
  ∧ jm_get id (partitions s') = Some p ∧ ∀ k, content s' k = content s k.
Proof.
  intros Hs. unfold ensure. destruct (jm_get id (partitions s)) as [p|] eqn:E; [done|].
  split; [|split; [done|split; [cbn; rewrite jm_get_set; by rewrite decide_True|]]].
  - destruct Hs as [Hc Hwf Hp]. split; [done|by apply jm_wf_set|].
    intros id' p'. cbn [set_partitions partitions]. rewrite jm_get_set.
    case_decide; [|apply Hp]. intros [= <-]. split; [apply new_Partition_inv|done].
  - intros k. unfold content, home. cbn [set_partitions partitions partitionCount].
    rewrite jm_get_set. case_decide as Hd; [|done]. by rewrite Hd, E.
Qed.

Lemma store_apply_spec s e :
  store_inv s →
  ∃ changed s', store_apply s e = Ok (changed, s') ∧ store_inv s'
    ∧ partitionCount s' = partitionCount s
    ∧ changed = bool_decide (content s (key e) ≠ lww (content s (key e)) e)
    ∧ ∀ k, content s' k = if decide (k = key e) then lww (content s k) e else content s k.
Proof.
  intros Hs. unfold store_apply. rewrite partitionFor_ok by done. cbn [result_bind].
  pose proof (ensure_spec s (home s (key e)) Hs) as He.
  destruct (ensure s (home s (key e))) as [p s1] eqn:Een.
  destruct He as (Hs1 & Hc1 & Hp1 & Hcont).
  destruct (st_parts _ Hs1 _ _ Hp1) as [Hpi Hph].
  destruct (partition_apply p e) as [changed p'] eqn:Ea.
  pose proof (apply_inv p e Hpi) as Hpi'. pose proof (peek_apply p e) as Hpk.
  pose proof (apply_changed p e) as Hch. rewrite Ea in Hpi', Hpk, Hch. cbn [fst snd] in *.
  assert (∀ k, home s1 k = home s k) as Hhome by (intros k; unfold home; by rewrite Hc1).
  assert (content s (key e) = peek p (key e)) as Hce.
  { rewrite <-Hcont. unfold content. by rewrite Hhome, Hp1. }
  exists changed, (set_partitions s1 (jm_set (home s (key e)) p' (partitions s1))).
  split; [done|]. split; [|split; [done|split; [by rewrite Hce|]]].
  - destruct Hs1 as [Hc Hwf Hp]. split; [done|by apply jm_wf_set|].
    intros id q. cbn [set_partitions partitions]. rewrite jm_get_set.
    destruct (decide (id = home s (key e))) as [Hd|Hd].
    + intros Hq. simplify_eq. split; [done|]. intros k x. rewrite Hpk.
      destruct (decide (k = key e)) as [Hk|Hk].
      * intros _. rewrite Hk. apply Hhome.
      * intros Hx. by apply (Hph k x).
    + apply Hp.
  - intros k. rewrite content_set_partitions, jm_get_set, Hhome.
    destruct (decide (home s k = home s (key e))) as [Hd|Hd].
    + assert (content s k = peek p k) as Hck
        by (rewrite <-Hcont; unfold content; by rewrite Hhome, Hd, Hp1).
      by rewrite Hpk, Hck.
    + rewrite decide_False by congruence. rewrite <-(Hcont k). unfold content. by rewrite Hhome.
Qed.

(** The store after an accepted merge. *)
Definition store_merge (s : Store) (e : Entry) : Store :=
  match store_apply s e with Ok (_, s') => s' | Throw _ => s end.

Lemma store_merge_inv s e : store_inv s → store_inv (store_merge s e).
Proof.
  intros Hs. unfold store_merge. by destruct (store_apply_spec s e Hs) as (? & ? & -> & ? & _).
Qed.

Lemma store_merge_count s e :
  store_inv s → partitionCount (store_merge s e) = partitionCount s.
Proof.
  intros Hs. unfold store_merge.
  by destruct (store_apply_spec s e Hs) as (? & ? & -> & _ & ? & _).
Qed.

Lemma content_store_merge s e k :
  store_inv s →
  content (store_merge s e) k = if decide (k = key e) then lww (content s k) e else content s k.
Proof.
  intros Hs. unfold store_merge.
  destruct (store_apply_spec s e Hs) as (? & ? & -> & _ & _ & _ & Hc). apply Hc.
Qed.

Definition merge_all (s : Store) (es : list Entry) : Store := foldl store_merge s es.

Lemma merge_all_inv s es : store_inv s → store_inv (merge_all s es).
Proof.
  revert s. induction es as [|e es IH]; intros s Hs; [done|]. by apply IH, store_merge_inv.
Qed.

Lemma merge_all_count s es :
  store_inv s → partitionCount (merge_all s es) = partitionCount s.
Proof.
  revert s. induction es as [|e es IH]; intros s Hs; [done|]. cbn [merge_all foldl].
  fold (merge_all (store_merge s e) es).
  rewrite IH by (by apply store_merge_inv). by apply store_merge_count.
Qed.

Lemma content_merge_all s es k :
  store_inv s →
  content (merge_all s es) k = foldl lww (content s k) (filter (λ e, key e = k) es).
Proof.
  revert s. induction es as [|e es IH]; intros s Hs; [done|].
  cbn [merge_all foldl]. fold (merge_all (store_merge s e) es).
  rewrite IH, content_store_merge, filter_cons by (done || by apply store_merge_inv).
  destruct (decide (key e = k)) as [<-|Hne]; [by rewrite decide_True|].
  by rewrite decide_False by congruence.
Qed.

Lemma store_drop_inv s id : store_inv s → store_inv (store_drop s id).
Proof.
  intros [Hc Hwf Hp]. split; [done|by apply jm_wf_delete|].
  intros id' p. cbn [store_drop set_partitions partitions]. rewrite jm_get_delete.
  case_decide; [done|apply Hp].
Qed.

Lemma content_store_drop s id k :
  content (store_drop s id) k = if decide (home s k = id) then None else content s k.
Proof.
  unfold store_drop. rewrite content_set_partitions, jm_get_delete. unfold content.
  by destruct (decide (home s k = id)).
Qed.

Lemma snapshot_spec s id e :
  store_inv s → e ∈ snapshot s id ↔ content s (key e) = Some e ∧ home s (key e) = id.
Proof.
  intros Hs. unfold snapshot, content.
  destruct (jm_get id (partitions s)) as [p|] eqn:E.
  - destruct (st_parts _ Hs _ _ E) as [Hp Hh]. rewrite elem_partition_entries by done. split.
    + intros He. rewrite (Hh _ _ He), E. done.
    + intros [He <-]. by rewrite E in He.
  - split; [by intros []%not_elem_of_nil|]. intros [He <-]. by rewrite E in He.
Qed.

Lemma snapshot_nodup s id : store_inv s → NoDup (key <$> snapshot s id).
Proof.
  intros Hs. unfold snapshot. destruct (jm_get id (partitions s)) as [p|] eqn:E;
    [|apply NoDup_nil_2]. apply partition_entries_nodup. by destruct (st_parts _ Hs _ _ E).
Qed.

(** ** The janitor *)

(** No entry of the fragment is due for removal at [nowMs]. *)
Definition clean (nowMs : Z) (p : Partition) : Prop :=
  ∀ e, e ∈ partition_entries p → doomed nowMs e = false.

(** [p'] is [p] less some entries that were due at [nowMs]. *)
Definition swept (nowMs : Z) (p p' : Partition) : Prop :=
  partition_inv p' ∧
  ∀ k, peek p' k = peek p k
       ∨ peek p' k = None ∧ ∃ e, peek p k = Some e ∧ doomed nowMs e = true.

Lemma swept_refl T p : partition_inv p → swept T p p.
Proof. by split; [|left]. Qed.

Lemma swept_trans T p1 p2 p3 : swept T p1 p2 → swept T p2 p3 → swept T p1 p3.
Proof.
  intros [_ H12] [H3 H23]. split; [done|]. intros k.
  destruct (H12 k) as [E1|[E1 D1]], (H23 k) as [E2|[E2 D2]].
  - left. congruence.
  - right. by rewrite <-E1.
  - right. split; [congruence|done].
  - right. done.
Qed.

Lemma reap_swept T p : partition_inv p → swept T p (reap p T).1.
Proof.
  intros Hp. destruct (reap_spec p T Hp) as (Hi & Hk & _). split; [done|]. intros k.
  rewrite Hk. destruct (peek p k) as [e|]; [|by left].
  destruct (doomed T e) eqn:E; [right; eauto|by left].
Qed.

Lemma reap_clean T p : partition_inv p → clean T (reap p T).1.
Proof.
  intros Hp e. destruct (reap_spec p T Hp) as (Hi & Hk & _).
  rewrite elem_partition_entries, Hk by done.
  destruct (peek p (key e)) as [x|]; [|done]. destruct (doomed T x) eqn:E; naive_solver.
Qed.

Lemma swept_clean T p p' : partition_inv p → clean T p → swept T p p' → clean T p'.
Proof.
  intros Hp Hc [Hp' Hs] e He. apply elem_partition_entries in He; [|done].
  destruct (Hs (key e)) as [E|[E _]]; [|congruence]. apply Hc.
  apply elem_partition_entries; [done|congruence].
Qed.

(** The relation between the held partitions before and after some sweep steps. *)
Definition swept_all (T : Z) : list (Z * Partition) → list (Z * Partition) → Prop :=
  Forall2 (λ x y, x.1 = y.1 ∧ swept T x.2 y.2).

Definition all_inv (l : list (Z * Partition)) : Prop := Forall (λ x, partition_inv x.2) l.

Definition clean_at (T : Z) (l : list (Z * Partition)) (i : nat) : Prop :=
  ∀ x, l !! i = Some x → clean T x.2.

Lemma swept_all_inv T l l' : swept_all T l l' → all_inv l'.
Proof.
  intros H. unfold all_inv. apply Forall_lookup_2. intros i y Hy.
  destruct (Forall2_lookup_r _ _ _ _ _ H Hy) as (x & _ & _ & [? _]). done.
Qed.

Lemma swept_all_refl T l : all_inv l → swept_all T l l.
Proof.
  intros H. unfold swept_all. induction H as [|x l Hx Hl IH]; constructor; [|done].
  split; [done|]. by apply swept_refl.
Qed.

Lemma swept_all_trans T l1 l2 l3 : swept_all T l1 l2 → swept_all T l2 l3 → swept_all T l1 l3.
Proof.
  intros H1 H2. unfold swept_all. eapply Forall2_trans; [|exact H1|exact H2].
  intros x y z [E1 S1] [E2 S2]. split; [congruence|]. by eapply swept_trans.
Qed.

Lemma swept_all_clean_at T l l' i :
  all_inv l → swept_all T l l' → clean_at T l i → clean_at T l' i.
Proof.
  intros Hl H Hc y Hy. destruct (Forall2_lookup_r _ _ _ _ _ H Hy) as (x & Hx & _ & Hs).
  unfold all_inv in Hl. rewrite Forall_lookup in Hl.
  eapply swept_clean; [by eapply Hl|by apply Hc|done].
Qed.

Lemma sweep_step_spec T c l n j :
  all_inv l → l ≠ [] →
  let r := sweep_step T c (l, n) j in
  swept_all T l r.1
  ∧ clean_at T r.1 (Z.to_nat ((c + Z.of_nat j) mod Z.of_nat (length l))).
Proof.
  intros Hl Hne. unfold sweep_step. set (i := Z.to_nat _).
  assert (is_Some (l !! i)) as [[id p] Hi].
  { apply lookup_lt_is_Some. assert (0 < Z.of_nat (length l)) as Hlen by (destruct l; [done|cbn [length]; lia]).
    pose proof (Z.mod_pos_bound (c + Z.of_nat j) _ Hlen). unfold i. lia. }
  rewrite Hi. destruct (reap p T) as [p' m] eqn:Er. cbn [fst].
  assert (partition_inv p) as Hp by (unfold all_inv in Hl; rewrite Forall_lookup in Hl;
    apply (Hl i (id, p) Hi)).
  pose proof (reap_swept T p Hp) as Hs. pose proof (reap_clean T p Hp) as Hc.
  rewrite Er in Hs, Hc. cbn [fst] in Hs, Hc. split.
  - rewrite <-(list_insert_id l i (id, p)) at 1 by done.
    apply Forall2_insert; [by apply swept_all_refl | by split].
  - intros x. rewrite list_lookup_insert_eq by (by eapply lookup_lt_Some).
    by intros [= <-].
Qed.

Lemma sweep_loop T c steps l n :
  all_inv l → l ≠ [] →
  let r := foldl (sweep_step T c) (l, n) steps in
  swept_all T l r.1
  ∧ ∀ j, j ∈ steps → clean_at T r.1 (Z.to_nat ((c + Z.of_nat j) mod Z.of_nat (length l))).
Proof.
  revert l n. induction steps as [|j steps IH]; intros l n Hl Hne; cbv zeta; cbn [foldl].
  { split; [by apply swept_all_refl|]. by intros ? ?%not_elem_of_nil. }
  destruct (sweep_step_spec T c l n j Hl Hne) as [Hs Hc].
  destruct (sweep_step T c (l, n) j) as [l' n'] eqn:E. cbn [fst] in Hs, Hc.
  pose proof (swept_all_inv _ _ _ Hs) as Hl'. pose proof (Forall2_length _ _ _ Hs) as Hlen.
  destruct (IH l' n' Hl') as [Hs' Hc']; [by destruct l, l'|].
  split; [by eapply swept_all_trans|]. intros j' [->|Hj]%elem_of_cons.
  - by eapply swept_all_clean_at.
  - rewrite Hlen. by apply Hc'.
Qed.

Lemma store_all_inv s : store_inv s → all_inv (partitions s).
Proof.
  intros Hs. unfold all_inv. apply Forall_forall. intros [id p] Hin. cbn [snd].
  apply (st_parts s Hs id p), elem_jm_get; [apply Hs|done].
Qed.

Lemma swept_all_get T l l' id :
  swept_all T l l' →
  match jm_get id l, jm_get id l' with
  | Some p, Some p' => swept T p p'
  | None, None => True
  | _, _ => False
  end.
Proof.
  unfold swept_all. induction 1 as [|[i p] [i' p'] l l' [Hi Hp] Hl IH]; [done|].
  cbn [fst snd] in *. subst i'. cbn [jm_get]. by destruct (decide (id = i)).
Qed.

Lemma swept_all_keys T l l' : swept_all T l l' → l.*1 = l'.*1.
Proof. unfold swept_all. induction 1 as [|x y l l' [Hi _] _ IH]; csimpl; congruence. Qed.

(** A store whose partitions were swept keeps its invariant and its reads. *)
Lemma swept_store s s' T :
  store_inv s → partitionCount s' = partitionCount s →
  swept_all T (partitions s) (partitions s') →
  store_inv s' ∧ ∀ k t, T ≤ t → store_get s' k t = store_get s k t.
Proof.
  intros Hs Hcount Hsw.
  assert (∀ k, home s' k = home s k) as Hhome by (intros; unfold home; by rewrite Hcount).
  assert (store_inv s') as Hs'.
  { split; [rewrite Hcount; apply Hs| |].
    - unfold jm_wf. rewrite <-(swept_all_keys _ _ _ Hsw). apply Hs.
    - intros id p' Hp'. pose proof (swept_all_get _ _ _ id Hsw) as H. rewrite Hp' in H.
      destruct (jm_get id (partitions s)) as [p|] eqn:Hp; [|done]. destruct H as [Hi Hk].
      split; [done|]. intros k e He. rewrite Hhome. destruct (st_parts _ Hs _ _ Hp) as [_ Hh].
      apply (Hh k e). destruct (Hk k) as [E|[E _]]; congruence. }
  split; [done|]. intros k t Ht. rewrite !store_get_content by done. f_equal.
  unfold content. rewrite Hhome. pose proof (swept_all_get _ _ _ (home s k) Hsw) as H.
  destruct (jm_get (home s k) (partitions s)) as [p|],
    (jm_get (home s k) (partitions s')) as [p'|]; try done.
  destruct H as [_ Hk]. destruct (Hk k) as [->|[-> (e & -> & Hd)]]; [done|].
  unfold doomed, isReapableTombstone, isLiveValue in *.
  apply orb_true_iff in Hd as [[Hd _]%andb_true_iff|He]; [by rewrite Hd|].
  rewrite (isExpired_mono _ _ _ Ht He). by rewrite andb_false_r.
Qed.

(** What a sweep removes was due. *)
Lemma swept_content s s' T k :
  partitionCount s' = partitionCount s → swept_all T (partitions s) (partitions s') →
  content s' k = content s k
  ∨ content s' k = None ∧ ∃ e, content s k = Some e ∧ doomed T e = true.
Proof.
  intros Hcount Hsw. unfold content, home. rewrite Hcount.
  pose proof (swept_all_get _ _ _ (hash32 k mod partitionCount s) Hsw) as H.
  destruct (jm_get _ (partitions s)), (jm_get _ (partitions s')); try done; [|by left].
  destruct H as [_ Hk]. apply Hk.
Qed.

Lemma sweep_spec s T :
  store_inv s →
  let s' := (sweep s T).2 in
  let len := Z.of_nat (length (partitions s)) in
  partitionCount s' = partitionCount s
  ∧ swept_all T (partitions s) (partitions s')
  ∧ (0 < len →
     sweepCursor s' = (sweepCursor s + Z.min len JANITOR_PARTITIONS_PER_SWEEP) mod len
     ∧ ∀ j, 0 ≤ j < Z.min len JANITOR_PARTITIONS_PER_SWEEP →
         clean_at T (partitions s') (Z.to_nat ((sweepCursor s + j) mod len))).
Proof.
  intros Hs. cbv zeta. set (len := Z.of_nat (length (partitions s))). unfold sweep. fold len.
  destruct (Z.eqb_spec len 0) as [H0|H0].
  { split; [done|]. split; [by apply swept_all_refl, store_all_inv|]. cbn. lia. }
  set (count := Z.min len JANITOR_PARTITIONS_PER_SWEEP).
  destruct (sweep_loop T (sweepCursor s) (seq 0 (Z.to_nat count)) (partitions s) 0)
    as [Hsw Hcl]; [by apply store_all_inv|intros E; unfold len in H0; by rewrite E in H0|].
  destruct (foldl _ _ _) as [held reaped]. cbn [fst snd] in *.
  split; [done|]. split; [done|]. intros _. split; [done|]. intros j Hj.
  specialize (Hcl (Z.to_nat j)). rewrite Z2Nat.id in Hcl by lia. apply Hcl, elem_of_seq. lia.
Qed.

(** [n] consecutive sweeps at one instant. *)
Fixpoint sweeps (n : nat) (T : Z) (s : Store) : Store :=
  match n with O => s | S n' => sweeps n' T (sweep s T).2 end.

Lemma sweeps_loop T len count n c s (done_ : Z) :
  store_inv s → Z.of_nat (length (partitions s)) = len → 0 < len →
  count = Z.min len JANITOR_PARTITIONS_PER_SWEEP → 0 ≤ done_ →
  sweepCursor s mod len = (c + done_) mod len →
  (∀ j, 0 ≤ j < done_ → clean_at T (partitions s) (Z.to_nat ((c + j) mod len))) →
  let s' := sweeps n T s in
  partitionCount s' = partitionCount s ∧ swept_all T (partitions s) (partitions s')
  ∧ ∀ j, 0 ≤ j < done_ + Z.of_nat n * count →
      clean_at T (partitions s') (Z.to_nat ((c + j) mod len)).
Proof.
  revert s done_. induction n as [|n IH]; intros s d Hs Hlen Hpos Hcount Hd Hcur Hcl; cbn [sweeps].
  { split; [done|]. split; [by apply swept_all_refl, store_all_inv|].
    intros j Hj. apply Hcl. lia. }
  destruct (sweep_spec s T Hs) as (Hc1 & Hsw1 & Hrest).
  rewrite Hlen, <-Hcount in Hrest. destruct (Hrest Hpos) as [Hcur1 Hcl1]. clear Hrest.
  destruct (swept_store s (sweep s T).2 T Hs Hc1 Hsw1) as [Hs1 _].
  assert (0 < count) as Hcpos by (rewrite Hcount; unfold JANITOR_PARTITIONS_PER_SWEEP; lia).
  destruct (IH (sweep s T).2 (d + count)) as (Hc2 & Hsw2 & Hcl2); try done.
  - by rewrite <-(Forall2_length _ _ _ Hsw1).
  - lia.
  - rewrite Hcur1, Z.mod_mod, Z.add_assoc by lia. rewrite <-Z.add_mod_idemp_l, Hcur by lia.
    by rewrite Z.add_mod_idemp_l by lia.
  - intros j Hj. destruct (decide (j < d)) as [Hjd|Hjd].
    + apply (swept_all_clean_at T (partitions s)); [by apply store_all_inv|done|]. apply Hcl. lia.
    + specialize (Hcl1 (j - d) ltac:(lia)).
      replace ((c + j) mod len) with ((sweepCursor s + (j - d)) mod len); [done|].
      rewrite <-Z.add_mod_idemp_l, Hcur, Z.add_mod_idemp_l by lia. f_equal. lia.
  - split; [congruence|]. split; [by eapply swept_all_trans|]. intros j Hj. apply Hcl2. lia.
Qed.

(** ** Batched iteration *)

Lemma iterate_loop size l batch ys :
  0 < size → Z.of_nat (length batch) < size →
  Forall (λ b, b ≠ [] ∧ Z.of_nat (length b) ≤ size) ys →
  let r := foldl (iterate_step size) (batch, ys) l in
  concat r.2 ++ r.1 = concat ys ++ batch ++ l
  ∧ Z.of_nat (length r.1) < size
  ∧ Forall (λ b, b ≠ [] ∧ Z.of_nat (length b) ≤ size) r.2.
Proof.
  intros Hsize. revert batch ys. induction l as [|e l IH]; intros batch ys Hb Hys; cbv zeta.
  { cbn [foldl fst snd]. by rewrite app_nil_r. }
  cbn [foldl]. unfold iterate_step at 2 4 6 8.
  assert (Z.of_nat (length (batch ++ [e])) = Z.of_nat (length batch) + 1) as Hlen
    by (rewrite length_app; simpl; lia).
  destruct (Z.leb_spec size (Z.of_nat (length (batch ++ [e])))).
  - destruct (IH [] (ys ++ [batch ++ [e]])) as (H1 & H2 & H3); [done| |].
    + apply Forall_app. split; [done|]. constructor; [|constructor]. split; [|lia].
      by destruct batch.
    + split; [|done]. rewrite H1. rewrite concat_app. cbn. by rewrite <-!app_assoc.
  - destruct (IH (batch ++ [e]) ys) as (H1 & H2 & H3); [done..|].
    split; [|done]. rewrite H1. by rewrite <-!app_assoc.
Qed.

(** ** Properties *)

(** C5: the store refines one last-write-wins map from keys to entries: [apply]
    never throws on a constructed store, keeps the invariant (every entry in the
    partition its key hashes to, digests in step), reports whether the entry at its
    key changed, replaces that entry exactly when superseded, leaves every other key
    alone, and [get] and [peek] read that map. *)
Theorem store_refines_lww_map s e nowMs :
  store_inv s →
  ∃ changed s',
    store_apply s e = Ok (changed, s') ∧ store_inv s'
    ∧ changed = bool_decide (content s (key e) ≠ lww (content s (key e)) e)
    ∧ (∀ k, store_peek s' k =
         Ok (if decide (k = key e) then lww (content s k) e else content s k))
    ∧ (∀ k, store_get s' k nowMs =
         Ok (match (if decide (k = key e) then lww (content s k) e else content s k) with
             | Some x => if isLiveValue x nowMs then Some x else None
             | None => None
             end)).
Proof.
  intros Hs. destruct (store_apply_spec s e Hs) as (ch & s' & Happ & Hs' & Hcnt & Hch & Hc).
  exists ch, s'. do 3 (split; [done|]). split; intros k.
  - by rewrite store_peek_content, Hc by done.
  - by rewrite store_get_content, Hc by done.
Qed.

Lemma store_refines_lww_map_witness :
  let s := MkStore 512 [] 0 in
  let e := sample_entry "a" 5 false in
  ∃ changed s',
    store_apply s e = Ok (changed, s') ∧ store_inv s'
    ∧ changed = bool_decide (content s (key e) ≠ lww (content s (key e)) e)
    ∧ (∀ k, store_peek s' k =
         Ok (if decide (k = key e) then lww (content s k) e else content s k))
    ∧ (∀ k, store_get s' k 7 =
         Ok (match (if decide (k = key e) then lww (content s k) e else content s k) with
             | Some x => if isLiveValue x 7 then Some x else None
             | None => None
             end)).
Proof. apply store_refines_lww_map. by apply (new_Store_inv 512). Defined.

(** The round-robin janitor reaches every partition: enough sweeps to cover
    the held partitions, 64 per sweep, leave no entry that was due at the sweep
    time in any partition, wherever the cursor started, and no read at that time or
    later can tell. *)
Theorem sweeps_reach_every_partition s T n :
  store_inv s →
  Z.of_nat (length (partitions s)) ≤ Z.of_nat n * JANITOR_PARTITIONS_PER_SWEEP →
  let s' := sweeps n T s in
  store_inv s'
  ∧ heldPartitions s' = heldPartitions s
  ∧ (∀ id p, jm_get id (partitions s') = Some p → clean T p)
  ∧ (∀ k t, T ≤ t → store_get s' k t = store_get s k t).
Proof.
  intros Hs Hn s'. set (len := Z.of_nat (length (partitions s))) in *.
  assert (partitionCount s' = partitionCount s
          ∧ swept_all T (partitions s) (partitions s')
          ∧ ∀ i, (i < length (partitions s))%nat → clean_at T (partitions s') i)
    as (Hc & Hsw & Hcl).
  { destruct (decide (len = 0)) as [H0|H0].
    - assert (partitions s = []) as Hnil by (apply length_zero_iff_nil; lia).
      assert (∀ m, sweeps m T s = s) as Hfix.
      { intros m. induction m as [|m IH]; [done|]. cbn [sweeps]. unfold sweep.
        by rewrite Hnil. }
      unfold s'. rewrite Hfix, Hnil. split; [done|]. split; [constructor|]. simpl. lia.
    - destruct (sweeps_loop T len (Z.min len JANITOR_PARTITIONS_PER_SWEEP) n
        (sweepCursor s) s 0) as (Hc & Hsw & Hcl); try done; try lia; [by rewrite Z.add_0_r|].
      split; [done|]. split; [done|]. intros i Hi.
      set (j := (Z.of_nat i - sweepCursor s) mod len).
      pose proof (Z.mod_pos_bound (Z.of_nat i - sweepCursor s) len ltac:(lia)) as Hj.
      fold j in Hj. replace i with (Z.to_nat ((sweepCursor s + j) mod len)).
      + apply Hcl. split; [lia|]. assert (1 ≤ Z.of_nat n) by (destruct n; lia).
        destruct (Z.min_spec len JANITOR_PARTITIONS_PER_SWEEP) as [[_ ->]|[_ ->]]; nia.
      + unfold j. rewrite Z.add_mod_idemp_r by lia.
        replace (sweepCursor s + (Z.of_nat i - sweepCursor s)) with (Z.of_nat i) by lia.
        rewrite Z.mod_small by lia. lia. }
  destruct (swept_store s s' T Hs Hc Hsw) as [Hs' Hget].
  split; [done|]. split; [|split; [|done]].
  - unfold heldPartitions, jm_keys. symmetry. by eapply swept_all_keys.
  - intros id p Hp. apply jm_get_elem, list_elem_of_lookup in Hp as [i Hi].
    apply (Hcl i) in Hi as Hclean; [done|]. rewrite (Forall2_length _ _ _ Hsw).
    by eapply lookup_lt_Some.
Qed.

Lemma sweeps_reach_every_partition_witness :
  let s := merge_all (MkStore 512 [] 3) [sample_entry "a" 5 true; sample_entry "b" 6 false] in
  let s' := sweeps 1 700_000 s in
  store_inv s'
  ∧ heldPartitions s' = heldPartitions s
  ∧ (∀ id p, jm_get id (partitions s') = Some p → clean 700_000 p)
  ∧ (∀ k t, 700_000 ≤ t → store_get s' k t = store_get s k t).
Proof.
  apply sweeps_reach_every_partition.
  - apply merge_all_inv. split; [by vm_compute|apply jm_wf_nil|done].
  - vm_compute. discriminate.
Defined.
