(* ===== verification/Ports.v ===== *)
(** * The contract types ([src/kv/ports.ts], [src/kv/discriminants.ts])

    Write operations and their outcomes, the cluster member as the store sees it,
    and the operational constants several components read. *)
From S2P Require Import Prelude JsNumber JsString Hash Hlc Entry.

Inductive PutCondition := CondNone | IfAbsent | IfPresent.

Inductive ConditionFailure := FailIfAbsent | FailIfPresent | FailCompareAndSet.

(** The [kind]-tagged union of mutations; the key comes first in each of them. *)
Inductive WriteOp :=
  | PutOp (key : jsstring) (value : list Z) (condition : PutCondition) (ttlMs : option Z)
  | DeleteOp (key : jsstring)
  | IncrementOp (key : jsstring) (delta : Z)
  | CompareAndSetOp (key : jsstring) (expected value : list Z).

Definition op_key (op : WriteOp) : jsstring :=
  match op with
  | PutOp k _ _ _ | DeleteOp k | IncrementOp k _ | CompareAndSetOp k _ _ => k
  end.

Inductive WriteResult :=
  | WriteApplied (entry : Entry)
  | WriteRejected (reason : ConditionFailure).

Record ClusterMember := MkMember {
  m_name : jsstring;
  m_startedAt : Z;
  m_ready : bool;
  m_draining : bool }.

#[global] Instance PutCondition_eq_dec : EqDecision PutCondition.
Proof. solve_decision. Defined.
#[global] Instance ConditionFailure_eq_dec : EqDecision ConditionFailure.
Proof. solve_decision. Defined.
#[global] Instance WriteOp_eq_dec : EqDecision WriteOp.
Proof. solve_decision. Defined.
#[global] Instance WriteResult_eq_dec : EqDecision WriteResult.
Proof. solve_decision. Defined.
#[global] Instance ClusterMember_eq_dec : EqDecision ClusterMember.
Proof. solve_decision. Defined.

(** Constants of [src/kv/constants.ts]. *)
Definition DEFAULT_REPLICA_COUNT : Z := 3.
Definition DEFAULT_WRITE_QUORUM : Z := 2.
Definition DEFAULT_READ_QUORUM : Z := 1.
Definition REPAIR_BUCKETS : Z := 64.
Definition FRAGMENT_CHUNK_BYTES : Z := 262_144.
