(* ===== verification/Engine.v ===== *)
(** * The single-node engine ([src/kv/engine.ts])

    The operation set served against the local store through one serialised
    pipeline per partition.  A pipeline is its queue of submitted operations and
    its sequence counter: [engine_write] submits, [engine_run] is the microtask
    that runs the operation at the head.  The engine refines an atomic map of
    values with expiry as long as the clock is ahead of every stored record. *)
From S2P Require Import Prelude JsNumber JsString Hash Hlc Entry Partition Store Ports.

(** [DataView.getBigInt64(0)] of an eight-byte payload. *)
Definition readCounter (v : list Z) : result Z :=
  if negb (Nat.eqb (length v) 8)
  then Throw (TypeError "increment target is not an eight-byte counter")
  else Ok (asIntN64 (be_decode v)).

(** [DataView.setBigInt64(0, value)], which stores the value modulo 2^64. *)
Definition encodeCounter (v : Z) : list Z := be_encode 8 v.

Fixpoint bytesEqual_from (left right : list Z) : bool :=
  match left, right with
  | l :: left', r :: right' => (l =? r) && bytesEqual_from left' right'
  | _, _ => true
  end.

Definition bytesEqual (left right : list Z) : bool :=
  if negb (Nat.eqb (length left) (length right)) then false
  else bytesEqual_from left right.

(** [PartitionPipeline]: the tasks chained onto the tail, oldest first, each with
    the ticket of the caller awaiting it, and the last sequence handed out. *)
Record PartitionPipeline := MkPipeline { queue : list (nat * WriteOp); pl_sequence : Z }.

Definition new_PartitionPipeline : PartitionPipeline := MkPipeline [] 0.

(** [run]: chains the task after every task already submitted. *)
Definition pipeline_run (p : PartitionPipeline) (ticket : nat) (op : WriteOp)
    : PartitionPipeline :=
  MkPipeline (queue p ++ [(ticket, op)]) (pl_sequence p).

Definition nextSequence (p : PartitionPipeline) : Z * PartitionPipeline :=
  let s := pl_sequence p + 1 in (s, MkPipeline (queue p) s).

Record Engine := MkEngine {
  store : Store;
  clock : HybridClock;
  pipelines : list (Z * PartitionPipeline) }.

Definition new_Engine (nd : jsstring) (partitionCount : Z) : result Engine :=
  let! s := new_Store partitionCount in
  let! c := new_HybridClock nd in
  Ok (MkEngine s c []).

Definition set_store (e : Engine) (s : Store) : Engine := MkEngine s (clock e) (pipelines e).

Definition engine_read (e : Engine) (k : jsstring) (nowMs : Z) : result (option Entry) :=
  store_get (store e) k nowMs.

Definition engine_sweep (e : Engine) (nowMs : Z) : Z * Engine :=
  let '(n, s) := sweep (store e) nowMs in (n, set_store e s).

Definition partitionDigest (e : Engine) (id : Z) : DigestLanes :=
  default (MkLanes 0 0) (store_digest (store e) id).

Definition engine_bucketDigests (e : Engine) (id : Z) : list DigestLanes :=
  store_bucketDigests (store e) id REPAIR_BUCKETS.

Definition engine_keyVersions (e : Engine) (id : Z) (buckets : list Z) : list KeyVersion :=
  store_keyVersions (store e) id buckets REPAIR_BUCKETS.

Definition engine_entriesFor (e : Engine) (id : Z) (keys : list jsstring) : list Entry :=
  store_entriesFor (store e) id keys.

Definition engine_merge (e : Engine) (entry : Entry) : result Engine :=
  let! r := store_apply (store e) entry in
  Ok (set_store e r.2).

Definition engine_drop (e : Engine) (id : Z) : Engine :=
  set_store e (store_drop (store e) id).

(** [#pipelineFor]: the partition's pipeline, created on first use. *)
Definition pipelineFor (e : Engine) (id : Z) : PartitionPipeline * Engine :=
  match jm_get id (pipelines e) with
  | Some existing => (existing, e)
  | None =>
      (new_PartitionPipeline,
       MkEngine (store e) (clock e) (jm_set id new_PartitionPipeline (pipelines e)))
  end.

(** [write]: the synchronous part, which submits the operation. *)
Definition engine_write (e : Engine) (ticket : nat) (op : WriteOp) : result Engine :=
  let! id := partitionFor (store e) (op_key op) in
  let '(p, e) := pipelineFor e id in
  Ok (MkEngine (store e) (clock e) (jm_set id (pipeline_run p ticket op) (pipelines e))).

(** [#commit]: stamps, sequences and merges the entry.  The pipeline is the object
    the task closed over; [reading] is what the physical clock answers to
    [clock.now()]. *)
Definition commit (e : Engine) (p : PartitionPipeline) (k : jsstring) (v : option (list Z))
    (expires : option Z) (reading : option Z)
    : result (WriteResult * PartitionPipeline * Engine) :=
  let! tc := hlc_now (clock e) reading in
  let '(t, c) := tc in
  let '(seqno, p) := nextSequence p in
  let entry := MkEntry k v t seqno expires (bool_decide (v = None)) in
  let! r := store_apply (store e) entry in
  Ok (WriteApplied entry, p, MkEngine r.2 c (pipelines e)).

Definition liveValue (e : Engine) (k : jsstring) (nowMs : Z) : result (option Entry) :=
  let! existing := store_peek (store e) k in
  Ok (match existing with
      | Some x => if isLiveValue x nowMs then Some x else None
      | None => None
      end).

Definition is_Some_b {A} (o : option A) : bool := match o with Some _ => true | None => false end.

Definition applyPut (e : Engine) (p : PartitionPipeline) (k : jsstring) (v : list Z)
    (cond : PutCondition) (ttlMs : option Z) (current : option Entry) (nowMs : Z)
    (reading : option Z) : result (WriteResult * PartitionPipeline * Engine) :=
  if bool_decide (cond = IfAbsent) && is_Some_b current
  then Ok (WriteRejected FailIfAbsent, p, e)
  else if bool_decide (cond = IfPresent) && negb (is_Some_b current)
  then Ok (WriteRejected FailIfPresent, p, e)
  else
    let expires := match ttlMs with Some ttl => Some (nowMs + ttl) | None => None end in
    commit e p k (Some v) expires reading.

(** Reading a property of an [undefined] payload throws. *)
Definition defined_value (x : Entry) : result (list Z) :=
  match value x with
  | Some v => Ok v
  | None => Throw (TypeError "Cannot read properties of undefined")
  end.

Definition applyIncrement (e : Engine) (p : PartitionPipeline) (k : jsstring) (delta : Z)
    (current : option Entry) (reading : option Z)
    : result (WriteResult * PartitionPipeline * Engine) :=
  let! base :=
    match current with
    | None => Ok 0
    | Some x => let! v := defined_value x in readCounter v
    end in
  let next := asIntN64 (base + delta) in
  commit e p k (Some (encodeCounter next)) (current ≫= expiresAt) reading.

Definition applyCompareAndSet (e : Engine) (p : PartitionPipeline) (k : jsstring)
    (expected v : list Z) (current : option Entry) (reading : option Z)
    : result (WriteResult * PartitionPipeline * Engine) :=
  match current with
  | None => Ok (WriteRejected FailCompareAndSet, p, e)
  | Some x =>
      let! cv := defined_value x in
      if negb (bytesEqual cv expected) then Ok (WriteRejected FailCompareAndSet, p, e)
      else commit e p k (Some v) (expiresAt x) reading
  end.

(** [#apply]: [nowMs] is its first reading of the physical clock, [reading] the one
    the hybrid clock takes at the commit. *)
Definition engine_apply (e : Engine) (p : PartitionPipeline) (op : WriteOp)
    (nowMs : Z) (reading : option Z) : result (WriteResult * PartitionPipeline * Engine) :=
  let! current := liveValue e (op_key op) nowMs in
  match op with
  | PutOp k v cond ttl => applyPut e p k v cond ttl current nowMs reading
  | DeleteOp k => commit e p k None None reading
  | IncrementOp k delta => applyIncrement e p k delta current reading
  | CompareAndSetOp k expected v => applyCompareAndSet e p k expected v current reading
  end.

(** The microtask of partition [id]: the head of the chain runs, its outcome
    settles its caller's promise, and the chain moves on also when it threw, in
    which case no state of the engine has changed. *)
Definition engine_run (e : Engine) (id : Z) (nowMs : Z) (reading : option Z)
    : option (nat * result WriteResult) * Engine :=
  match jm_get id (pipelines e) with
  | None => (None, e)
  | Some p =>
      match queue p with
      | [] => (None, e)
      | (ticket, op) :: rest =>
          let p := MkPipeline rest (pl_sequence p) in
          match engine_apply e p op nowMs reading with
          | Ok (r, p', e') =>
              (Some (ticket, Ok r),
               MkEngine (store e') (clock e') (jm_set id p' (pipelines e')))
          | Throw err =>
              (Some (ticket, Throw err),
               MkEngine (store e) (clock e) (jm_set id p (pipelines e)))
          end
      end
  end.

(** ** Traces *)

(** What happens at an engine: a client submits, a pipeline's microtask runs, a
    peer's entry is merged, a fragment is dropped, the janitor sweeps. *)
Inductive engine_event :=
  | Submit (ticket : nat) (op : WriteOp)
  | Run (id : Z) (nowMs : Z) (reading : option Z)
  | Merge (entry : Entry)
  | DropFragment (id : Z)
  | Sweep (nowMs : Z).

(** A settled promise: the partition, the ticket and the outcome. *)
Definition settled : Type := Z * nat * result WriteResult.

Definition engine_step (e : Engine) (ev : engine_event) : list settled * Engine :=
  match ev with
  | Submit ticket op => ([], or_else e (engine_write e ticket op))
  | Run id nowMs reading =>
      let '(o, e') := engine_run e id nowMs reading in
      (match o with Some (ticket, r) => [(id, ticket, r)] | None => [] end, e')
  | Merge entry => ([], or_else e (engine_merge e entry))
  | DropFragment id => ([], engine_drop e id)
  | Sweep nowMs => ([], (engine_sweep e nowMs).2)
  end.

Fixpoint engine_exec (e : Engine) (evs : list engine_event) : list settled * Engine :=
  match evs with
  | [] => ([], e)
  | ev :: evs' =>
      let '(log, e1) := engine_step e ev in
      let '(log', e2) := engine_exec e1 evs' in
      (log ++ log', e2)
  end.

(** ** Lemmas on the operations *)

Lemma new_Engine_inv nd n e :
  new_Engine nd n = Ok e →
  store_inv (store e) ∧ pipelines e = [] ∧ ∀ k, content (store e) k = None.
Proof.
  unfold new_Engine. intros H. inv_ok. split; [by eapply new_Store_inv|]. split; [done|].
  intros k. unfold new_Store in E. destruct (_ || _); [done|]. by inv_ok.
Qed.

Lemma commit_spec e p k v expires reading :
  store_inv (store e) →
  match reading with
  | None =>
      commit e p k v expires reading
      = Throw (RangeError "physical clock must return a finite number")
  | Some r =>
      ∃ c' s',
        let x := MkEntry k v (stamp c') (pl_sequence p + 1) expires (bool_decide (v = None)) in
        commit e p k v expires reading
        = Ok (WriteApplied x, MkPipeline (queue p) (pl_sequence p + 1),
              MkEngine s' c' (pipelines e))
        ∧ time_lt (stamp (clock e)) (stamp c')
        ∧ clk_wallMs c' = Z.max (clk_wallMs (clock e)) r
        ∧ store_inv s' ∧ partitionCount s' = partitionCount (store e)
        ∧ ∀ k', content s' k' =
            if decide (k' = k) then lww (content (store e) k') x else content (store e) k'
  end.
Proof.
  intros Hs. destruct reading as [r|]; [|done]. unfold commit.
  destruct (hlc_now (clock e) (Some r)) as [[t c']|] eqn:Ht; [|done]. cbn [result_bind].
  pose proof (hlc_now_gt _ _ _ _ Ht) as Hgt.
  assert (clk_wallMs c' = Z.max (clk_wallMs (clock e)) r) as Hw
    by (cbn in Ht; by injection Ht as _ <-).
  apply hlc_now_stamp in Ht as ->. unfold nextSequence.
  set (x := MkEntry k v (stamp c') (pl_sequence p + 1) expires (bool_decide (v = None))).
  destruct (store_apply_spec (store e) x Hs) as (ch & s' & -> & Hs' & Hn & _ & Hc).
  exists c', s'. cbv zeta. do 5 (split; [done|]). exact Hc.
Qed.

Lemma liveValue_spec e k nowMs :
  store_inv (store e) →
  liveValue e k nowMs =
    Ok (content (store e) k ≫= λ x, if isLiveValue x nowMs then Some x else None).
Proof.
  intros Hs. unfold liveValue. rewrite store_peek_content by done. cbn [result_bind].
  by destruct (content (store e) k).
Qed.

(** What one operation may change: nothing when it throws or is rejected, and one
    commit otherwise. *)
Lemma engine_apply_cases e p op nowMs reading :
  store_inv (store e) →
  (∃ err, engine_apply e p op nowMs reading = Throw err)
  ∨ (∃ why, engine_apply e p op nowMs reading = Ok (WriteRejected why, p, e))
  ∨ (∃ v expires, reading ≠ None
       ∧ engine_apply e p op nowMs reading = commit e p (op_key op) v expires reading).
Proof.
  intros Hs. unfold engine_apply. rewrite liveValue_spec by done. cbn [result_bind].
  set (cur := _ ≫= _).
  assert (∀ v expires,
    (∃ err, commit e p (op_key op) v expires reading = Throw err)
    ∨ (∃ why, commit e p (op_key op) v expires reading = Ok (WriteRejected why, p, e))
    ∨ (∃ v' expires', reading ≠ None ∧ commit e p (op_key op) v expires reading
         = commit e p (op_key op) v' expires' reading)) as Hcommit.
  { intros v expires. destruct reading as [r|]; [right; right; by eauto|left].
    pose proof (commit_spec e p (op_key op) v expires None Hs) as H. cbn in H. eauto. }
  destruct op as [k v cond ttl|k|k delta|k expected v]; cbn [op_key] in *.
  - unfold applyPut. destruct (_ && _); [eauto|]. destruct (_ && _); [eauto|]. apply Hcommit.
  - apply Hcommit.
  - unfold applyIncrement. destruct (match cur with None => _ | Some _ => _ end);
      cbn [result_bind]; [apply Hcommit|eauto].
  - unfold applyCompareAndSet. destruct cur as [x|]; [|eauto].
    destruct (defined_value x); cbn [result_bind]; [|eauto].
    destruct (negb _); [eauto|apply Hcommit].
Qed.

(** The pipeline of a partition, a fresh one while none was created. *)
Definition pipe (e : Engine) (id : Z) : PartitionPipeline :=
  default new_PartitionPipeline (jm_get id (pipelines e)).

Definition queued (e : Engine) (id : Z) : list nat := (queue (pipe e id)).*1.

(** The entry a settled write committed. *)
Definition committed (r : result WriteResult) : option Entry :=
  match r with Ok (WriteApplied x) => Some x | _ => None end.

Lemma pipe_set e s c id id' p :
  pipe (MkEngine s c (jm_set id p (pipelines e))) id'
  = if decide (id' = id) then p else pipe e id'.
Proof.
  unfold pipe. cbn [pipelines]. rewrite jm_get_set. by destruct (decide (id' = id)).
Qed.

Lemma engine_run_idle e id nowMs reading :
  queue (pipe e id) = [] → engine_run e id nowMs reading = (None, e).
Proof.
  unfold engine_run, pipe. destruct (jm_get id (pipelines e)) as [p|]; [|done].
  cbn. by intros ->.
Qed.

Lemma engine_run_spec e id nowMs reading ticket op rest :
  store_inv (store e) → queue (pipe e id) = (ticket, op) :: rest →
  ∃ r e', engine_run e id nowMs reading = (Some (ticket, r), e')
    ∧ store_inv (store e') ∧ partitionCount (store e') = partitionCount (store e)
    ∧ queue (pipe e' id) = rest
    ∧ (∀ id', id' ≠ id → pipe e' id' = pipe e id')
    ∧ match committed r with
      | Some x => sequence x = pl_sequence (pipe e id) + 1
                  ∧ pl_sequence (pipe e' id) = sequence x
                  ∧ key x = op_key op
                  ∧ timestamp x = stamp (clock e')
                  ∧ time_lt (stamp (clock e)) (timestamp x)
      | None => pl_sequence (pipe e' id) = pl_sequence (pipe e id)
                ∧ clock e' = clock e ∧ store e' = store e
      end.
Proof.
  intros Hs Hq. unfold engine_run. unfold pipe in Hq.
  destruct (jm_get id (pipelines e)) as [p|] eqn:Hp; [|done]. cbn in Hq.
  assert (pipe e id = p) as Hpe by (unfold pipe; by rewrite Hp).
  rewrite Hq. set (p0 := MkPipeline rest (pl_sequence p)).
  destruct (engine_apply_cases e p0 op nowMs reading Hs)
    as [(err & ->)|[(why & ->)|(v & expires & Hr & ->)]].
  - eexists _, _. split; [done|]. cbn [store clock committed]. rewrite !pipe_set, decide_True by done.
    do 3 (split; [done|]). rewrite Hpe. split; [|done].
    intros id' Hne. by rewrite pipe_set, decide_False.
  - eexists _, _. split; [done|]. cbn [store clock committed]. rewrite !pipe_set, decide_True by done.
    do 3 (split; [done|]). rewrite Hpe. split; [|done].
    intros id' Hne. by rewrite pipe_set, decide_False.
  - destruct reading as [rd|]; [|done].
    destruct (commit_spec e p0 (op_key op) v expires (Some rd) Hs)
      as (c' & s' & -> & Hlt & _ & Hs' & Hn & _).
    eexists _, _. split; [done|].
    cbn [store clock committed pipelines sequence timestamp key].
    rewrite !pipe_set, decide_True by done. rewrite Hpe.
    do 3 (split; [done|]). split; [|done]. intros id' Hne. by rewrite pipe_set, decide_False.
Qed.

Lemma commit_node e p k v expires reading r p' e' :
  commit e p k v expires reading = Ok (r, p', e') → clk_node (clock e') = clk_node (clock e).
Proof.
  unfold commit. intros H. inv_ok. destruct r0 as [tm c]. unfold nextSequence in H.
  inv_ok. cbn. unfold hlc_now in E. by inv_ok.
Qed.

(** A run changes the store by at most the one commit it reports. *)
Lemma engine_run_content e id nowMs reading ticket op rest :
  store_inv (store e) → queue (pipe e id) = (ticket, op) :: rest →
  ∃ r e', engine_run e id nowMs reading = (Some (ticket, r), e')
    ∧ clk_node (clock e') = clk_node (clock e)
    ∧ match committed r with
      | Some x => ∀ k, content (store e') k
          = if decide (k = key x) then lww (content (store e) k) x else content (store e) k
      | None => store e' = store e
      end.
Proof.
  intros Hs Hq. unfold engine_run. unfold pipe in Hq.
  destruct (jm_get id (pipelines e)) as [p|] eqn:Hp; [|done]. cbn in Hq.
  rewrite Hq. set (p0 := MkPipeline rest (pl_sequence p)).
  destruct (engine_apply_cases e p0 op nowMs reading Hs)
    as [(err & ->)|[(why & ->)|(v & expires & Hr & ->)]].
  - by eexists _, _.
  - by eexists _, _.
  - destruct reading as [rd|]; [|done].
    destruct (commit_spec e p0 (op_key op) v expires (Some rd) Hs)
      as (c' & s' & Hc & _ & _ & _ & _ & Hcont). rewrite Hc.
    eexists _, _. split; [done|]. split; [|exact Hcont]. by apply commit_node in Hc.
Qed.

Lemma engine_write_spec e ticket op :
  store_inv (store e) →
  ∃ e', engine_write e ticket op = Ok e' ∧ store e' = store e ∧ clock e' = clock e
    ∧ ∀ id, pipe e' id = if decide (id = home (store e) (op_key op))
                         then pipeline_run (pipe e id) ticket op else pipe e id.
Proof.
  intros Hs. unfold engine_write. rewrite partitionFor_ok by done. cbn [result_bind].
  set (h := home (store e) (op_key op)). unfold pipelineFor.
  destruct (jm_get h (pipelines e)) as [p|] eqn:Hp; eexists; (split; [done|]);
    cbn [store clock]; (split; [done|]); (split; [done|]); intros id; rewrite pipe_set.
  - destruct (decide (id = h)) as [->|]; [|done]. unfold pipe. by rewrite Hp.
  - rewrite pipe_set. destruct (decide (id = h)) as [->|]; [|done]. unfold pipe. by rewrite Hp.
Qed.

(** The store invariant and the partition count survive every event, and only a
    submission and a run touch a pipeline. *)
Lemma engine_step_inv e ev :
  store_inv (store e) →
  store_inv (store (engine_step e ev).2)
  ∧ partitionCount (store (engine_step e ev).2) = partitionCount (store e).
Proof.
  intros Hs. destruct ev as [ticket op|id nowMs reading|entry|id|nowMs]; cbn [engine_step].
  - destruct (engine_write_spec e ticket op Hs) as (e' & -> & Hst & _). cbn. by rewrite Hst.
  - destruct (queue (pipe e id)) as [|[ticket op] rest] eqn:Hq.
    + by rewrite engine_run_idle.
    + destruct (engine_run_spec e id nowMs reading _ _ _ Hs Hq) as (r & e' & -> & ? & ? & _).
      done.
  - unfold engine_merge.
    destruct (store_apply_spec (store e) entry Hs) as (ch & s' & -> & Hs' & Hn & _). done.
  - split; [by apply store_drop_inv|done].
  - destruct (sweep_spec (store e) nowMs Hs) as (Hn & Hsw & _).
    unfold engine_sweep. destruct (sweep (store e) nowMs) as [n s']. cbn in *.
    split; [|done]. by eapply swept_store.
Qed.

(** ** Order of execution *)

(** The tickets submitted to partition [id], and those settled for it, in order. *)
Definition submitted (s : Store) (id : Z) (evs : list engine_event) : list nat :=
  omap (λ ev, match ev with
              | Submit ticket op => if decide (home s (op_key op) = id) then Some ticket else None
              | _ => None
              end) evs.

Definition settled_of (id : Z) (log : list settled) : list nat :=
  omap (λ x, if decide (x.1.1 = id) then Some x.1.2 else None) log.

(** The entries committed for partition [id], and for every partition, in order. *)
Definition commits_of (id : Z) (log : list settled) : list Entry :=
  omap (λ x, if decide (x.1.1 = id) then committed x.2 else None) log.

Definition commits (log : list settled) : list Entry := omap (λ x, committed x.2) log.

Lemma home_count s s' k : partitionCount s' = partitionCount s → home s' k = home s k.
Proof. unfold home. by intros ->. Qed.

Lemma submitted_count s s' id evs :
  partitionCount s' = partitionCount s → submitted s' id evs = submitted s id evs.
Proof.
  intros H. induction evs as [|ev evs IH]; [done|]. unfold submitted in *. cbn.
  rewrite IH. destruct ev; try done. by rewrite (home_count s s').
Qed.

Lemma engine_step_queue e ev id :
  store_inv (store e) →
  let '(log, e') := engine_step e ev in
  queued e id ++ submitted (store e) id [ev] = settled_of id log ++ queued e' id.
Proof.
  intros Hs. destruct ev as [ticket op|id' nowMs reading|entry|id'|nowMs]; cbn [engine_step].
  - destruct (engine_write_spec e ticket op Hs) as (e' & -> & _ & _ & Hp). cbn.
    unfold queued. rewrite Hp.
    destruct (decide (home (store e) (op_key op) = id)) as [<-|Hne].
    + rewrite decide_True by done. unfold pipeline_run. cbn. by rewrite fmap_app.
    + rewrite decide_False by done. by rewrite app_nil_r.
  - destruct (queue (pipe e id')) as [|[ticket op] rest] eqn:Hq.
    { rewrite engine_run_idle by done. cbn. by rewrite app_nil_r. }
    destruct (engine_run_spec e id' nowMs reading _ _ _ Hs Hq)
      as (r & e' & -> & _ & _ & Hq' & Hother & _).
    cbn. rewrite app_nil_r. unfold queued. destruct (decide (id' = id)) as [->|Hne].
    + by rewrite Hq, Hq'.
    + by rewrite Hother.
  - cbn. rewrite app_nil_r. unfold engine_merge.
    destruct (store_apply_spec (store e) entry Hs) as (ch & s' & -> & _). done.
  - cbn. by rewrite app_nil_r.
  - cbn. rewrite app_nil_r. unfold engine_sweep. by destruct (sweep (store e) nowMs).
Qed.

Lemma engine_step_commits e ev id :
  store_inv (store e) →
  let '(log, e') := engine_step e ev in
  (commits log = [] ∧ clock e' = clock e
     ∨ ∃ x, commits log = [x] ∧ timestamp x = stamp (clock e')
            ∧ time_lt (stamp (clock e)) (timestamp x))
  ∧ (commits_of id log = [] ∧ pl_sequence (pipe e' id) = pl_sequence (pipe e id)
     ∨ ∃ x, commits_of id log = [x] ∧ sequence x = pl_sequence (pipe e id) + 1
            ∧ pl_sequence (pipe e' id) = sequence x).
Proof.
  intros Hs. destruct ev as [ticket op|id' nowMs reading|entry|id'|nowMs]; cbn [engine_step].
  - destruct (engine_write_spec e ticket op Hs) as (e' & -> & _ & Hc & Hp). cbn.
    split; [auto|]. left. split; [done|]. rewrite Hp. by case_decide.
  - destruct (queue (pipe e id')) as [|[ticket op] rest] eqn:Hq.
    { rewrite engine_run_idle by done. cbn. auto. }
    destruct (engine_run_spec e id' nowMs reading _ _ _ Hs Hq)
      as (r & e' & -> & _ & _ & Hq' & Hother & Hc).
    unfold commits, commits_of. cbn.
    destruct (committed r) as [x|] eqn:Hr.
    + destruct Hc as (Hseq & Hseq' & Hk & Ht & Hlt). split; [right; eauto|].
      destruct (decide (id' = id)) as [->|Hne]; [right; eauto|left].
      split; [done|]. by rewrite Hother.
    + destruct Hc as (Hseq & Hc & _). split; [auto|]. left.
      destruct (decide (id' = id)) as [->|Hne]; [done|]. by rewrite Hother.
  - cbn. unfold engine_merge.
    destruct (store_apply_spec (store e) entry Hs) as (ch & s' & -> & _). cbn. auto.
  - cbn. auto.
  - cbn. unfold engine_sweep. destruct (sweep (store e) nowMs). cbn. auto.
Qed.

Lemma engine_exec_inv e evs :
  store_inv (store e) →
  store_inv (store (engine_exec e evs).2)
  ∧ partitionCount (store (engine_exec e evs).2) = partitionCount (store e).
Proof.
  revert e. induction evs as [|ev evs IH]; intros e Hs; cbn [engine_exec]; [done|].
  pose proof (engine_step_inv e ev Hs) as [Hs1 Hn1]. destruct (engine_step e ev) as [log1 e1].
  specialize (IH e1 Hs1). destruct (engine_exec e1 evs) as [log2 e2]. cbn in *.
  destruct IH. split; [done|congruence].
Qed.

Lemma engine_exec_commits_above e evs :
  store_inv (store e) →
  Forall (λ x, time_lt (stamp (clock e)) (timestamp x)) (commits (engine_exec e evs).1)
  ∧ StronglySorted time_lt (timestamp <$> commits (engine_exec e evs).1).
Proof.
  revert e. induction evs as [|ev evs IH]; intros e Hs; cbn [engine_exec];
    [split; constructor|].
  pose proof (engine_step_inv e ev Hs) as [Hs1 _].
  pose proof (engine_step_commits e ev 0 Hs) as Hstep.
  destruct (engine_step e ev) as [log1 e1]. specialize (IH e1 Hs1).
  destruct (engine_exec e1 evs) as [log2 e2]. cbn [fst snd] in *.
  unfold commits. rewrite omap_app. fold (commits log1) (commits log2).
  destruct IH as [IHa IHs]. destruct Hstep as [[[-> Hc]|(x & -> & Hx & Hlt)] _].
  - rewrite <-Hc. done.
  - cbn [app]. assert (Forall (λ y, time_lt (timestamp x) (timestamp y)) (commits log2)) as Habove
      by (eapply Forall_impl; [exact IHa|]; intros y Hy; cbn in *; by rewrite Hx).
    split.
    + constructor; [done|]. eapply Forall_impl; [exact Habove|]. intros y Hy. cbn in *. by etrans.
    + rewrite fmap_cons. constructor; [done|]. by apply Forall_fmap.
Qed.

(** Each partition's pipeline is a FIFO queue that no failure stalls: for every
    sequence of submissions, runs, merges, drops and sweeps, the operations settled
    for a partition followed by those still queued are the ones submitted to it, in
    submission order, and as long as one is queued the next run settles the oldest,
    whether it is applied, rejected or throws. *)
Theorem pipeline_fifo e evs id :
  store_inv (store e) →
  let '(log, e') := engine_exec e evs in
  queued e id ++ submitted (store e) id evs = settled_of id log ++ queued e' id
  ∧ ∀ nowMs reading, queued e' id ≠ [] →
      ∃ ticket r e'', engine_run e' id nowMs reading = (Some (ticket, r), e'')
        ∧ queued e' id = ticket :: queued e'' id.
Proof.
  intros Hs. pose proof (engine_exec_inv e evs Hs) as [Hs' _].
  destruct (engine_exec e evs) as [log e'] eqn:Hx. cbn in Hs'. split.
  - clear Hs'. revert e log e' Hs Hx. induction evs as [|ev evs IH];
      intros e log e' Hs Hx; cbn [engine_exec] in Hx.
    { injection Hx as <- <-. cbn. by rewrite app_nil_r. }
    pose proof (engine_step_queue e ev id Hs) as Hq.
    pose proof (engine_step_inv e ev Hs) as [Hs1 Hn1].
    destruct (engine_step e ev) as [log1 e1]. cbn [fst snd] in *.
    destruct (engine_exec e1 evs) as [log2 e2] eqn:Hx2. injection Hx as <- <-.
    specialize (IH _ _ _ Hs1 Hx2). unfold settled_of in *. rewrite omap_app, <-app_assoc, <-IH.
    rewrite app_assoc, <-Hq, <-app_assoc. f_equal.
    rewrite (submitted_count (store e) (store e1)) by done.
    change (ev :: evs) with ([ev] ++ evs). apply omap_app.
  - intros nowMs reading Hne. destruct (queue (pipe e' id)) as [|[ticket op] rest] eqn:Hq.
    { unfold queued in Hne. by rewrite Hq in Hne. }
    destruct (engine_run_spec e' id nowMs reading _ _ _ Hs' Hq)
      as (r & e'' & -> & _ & _ & Hq' & _).
    exists ticket, r, e''. split; [done|]. unfold queued. by rewrite Hq, Hq'.
Qed.

(** Consecutive integers from [a]. *)
Definition consecutive (a : Z) (l : list Z) : Prop :=
  ∀ i z, l !! i = Some z → z = a + Z.of_nat i.

Lemma consecutive_cons a l : consecutive (a + 1) l → consecutive a (a :: l).
Proof.
  intros H [|i] z Hz; cbn in Hz; [injection Hz as <-; lia|]. apply H in Hz. lia.
Qed.

(** Over any sequence of events at an engine, the entries it commits carry
    strictly increasing timestamps, across all partitions, and consecutive sequence
    numbers within each partition; rejected and failing operations consume neither. *)
Theorem commits_ordered e evs :
  store_inv (store e) →
  let log := (engine_exec e evs).1 in
  StronglySorted time_lt (timestamp <$> commits log)
  ∧ ∀ id, consecutive (pl_sequence (pipe e id) + 1) (sequence <$> commits_of id log).
Proof.
  intros Hs. split; [by apply engine_exec_commits_above|]. intros id.
  revert e Hs. induction evs as [|ev evs IH]; intros e Hs; cbn [engine_exec]; [done|].
  pose proof (engine_step_inv e ev Hs) as [Hs1 _].
  pose proof (engine_step_commits e ev id Hs) as Hstep.
  destruct (engine_step e ev) as [log1 e1]. specialize (IH e1 Hs1).
  destruct (engine_exec e1 evs) as [log2 e2]. cbn [fst snd] in *.
  unfold commits_of. rewrite omap_app. fold (commits_of id log1) (commits_of id log2).
  destruct Hstep as [_ [[-> <-]|(x & -> & Hx & Hx')]]; [done|].
  cbn [app]. rewrite fmap_cons, Hx. apply consecutive_cons. rewrite <-Hx, <-Hx'. apply IH.
Qed.

(** ** The abstract specification: an atomic map of values with expiry *)

Abbreviation kvmap := (jsstring → option (list Z * option Z)).

Definition kv_view (m : kvmap) (k : jsstring) (t : Z) : option (list Z * option Z) :=
  match m k with
  | Some (v, Some x) => if x <=? t then None else Some (v, Some x)
  | r => r
  end.

Definition kv_set (m : kvmap) (k : jsstring) (x : option (list Z * option Z)) : kvmap :=
  λ k', if decide (k' = k) then x else m k'.

(** What the caller of a write sees: the new binding, a rejection or an exception. *)
Inductive spec_outcome :=
  | SApplied (binding : option (list Z * option Z))
  | SRejected (why : ConditionFailure).

(** One operation on the map: the new binding, or why there is none. *)
Definition spec_binding (m : kvmap) (op : WriteOp) (nowMs : Z) : result spec_outcome :=
  let cur := kv_view m (op_key op) nowMs in
  match op with
  | PutOp _ v cond ttl =>
      match cond, cur with
      | IfAbsent, Some _ => Ok (SRejected FailIfAbsent)
      | IfPresent, None => Ok (SRejected FailIfPresent)
      | _, _ => Ok (SApplied (Some (v, (λ d, nowMs + d) <$> ttl)))
      end
  | DeleteOp _ => Ok (SApplied None)
  | IncrementOp _ delta =>
      match cur with
      | None => Ok (SApplied (Some (be_encode 8 (asIntN64 delta), None)))
      | Some (v, x) =>
          if decide (length v = 8%nat)
          then Ok (SApplied (Some (be_encode 8 (asIntN64 (asIntN64 (be_decode v) + delta)), x)))
          else Throw (TypeError "increment target is not an eight-byte counter")
      end
  | CompareAndSetOp _ expected v =>
      match cur with
      | Some (cv, x) =>
          if decide (cv = expected) then Ok (SApplied (Some (v, x)))
          else Ok (SRejected FailCompareAndSet)
      | None => Ok (SRejected FailCompareAndSet)
      end
  end.

Definition spec_apply (m : kvmap) (op : WriteOp) (nowMs : Z) (reading : option Z)
    : result spec_outcome * kvmap :=
  match spec_binding m op nowMs, reading with
  | Ok (SApplied b), Some _ => (Ok (SApplied b), kv_set m (op_key op) b)
  | Ok (SApplied _), None =>
      (Throw (RangeError "physical clock must return a finite number"), m)
  | r, _ => (r, m)
  end.

(** The specification's state: the map and the operations waiting per partition. *)
Record Spec := MkSpec { sp_map : kvmap; sp_queue : Z → list (nat * WriteOp) }.

Definition q_set (q : Z → list (nat * WriteOp)) id l : Z → list (nat * WriteOp) :=
  λ id', if decide (id' = id) then l else q id'.

Definition spec_step (hm : jsstring → Z) (sp : Spec) (ev : engine_event)
    : list (Z * nat * result spec_outcome) * Spec :=
  match ev with
  | Submit ticket op =>
      let id := hm (op_key op) in
      ([], MkSpec (sp_map sp) (q_set (sp_queue sp) id (sp_queue sp id ++ [(ticket, op)])))
  | Run id nowMs reading =>
      match sp_queue sp id with
      | [] => ([], sp)
      | (ticket, op) :: rest =>
          let '(r, m) := spec_apply (sp_map sp) op nowMs reading in
          ([(id, ticket, r)], MkSpec m (q_set (sp_queue sp) id rest))
      end
  | DropFragment id =>
      ([], MkSpec (λ k, if decide (hm k = id) then None else sp_map sp k) (sp_queue sp))
  | Merge _ | Sweep _ => ([], sp)
  end.

Fixpoint spec_exec (hm : jsstring → Z) (sp : Spec) (evs : list engine_event)
    : list (Z * nat * result spec_outcome) * Spec :=
  match evs with
  | [] => ([], sp)
  | ev :: evs' =>
      let '(log, sp1) := spec_step hm sp ev in
      let '(log', sp2) := spec_exec hm sp1 evs' in
      (log ++ log', sp2)
  end.

(** What of an engine's outcome the specification speaks about. *)
Definition observe (r : result WriteResult) : result spec_outcome :=
  match r with
  | Ok (WriteApplied x) => Ok (SApplied ((λ v, (v, expiresAt x)) <$> value x))
  | Ok (WriteRejected why) => Ok (SRejected why)
  | Throw err => Throw err
  end.

Definition observe_log (log : list settled) : list (Z * nat * result spec_outcome) :=
  (λ x, (x.1.1, x.1.2, observe x.2)) <$> log.

(** ** The simulation *)

(** The engine's clock is ahead of every stored record, and tombstones are the
    records without a payload. *)
Record engine_inv (e : Engine) : Prop := {
  ei_store : store_inv (store e);
  ei_clock : ∀ k x, content (store e) k = Some x → ¬ time_lt (stamp (clock e)) (timestamp x);
  ei_shape : ∀ k x, content (store e) k = Some x → deleted x = bool_decide (value x = None) }.

Definition entry_view (x : Entry) (t : Z) : option (list Z * option Z) :=
  if isLiveValue x t then (λ v, (v, expiresAt x)) <$> value x else None.

(** The engine at time [T] stores what the map binds: every read from [T] on agrees. *)
Definition simulates (T : Z) (e : Engine) (sp : Spec) : Prop :=
  (∀ k t, T ≤ t → (content (store e) k ≫= λ x, entry_view x t) = kv_view (sp_map sp) k t)
  ∧ ∀ id, queue (pipe e id) = sp_queue sp id.

Lemma bytesEqual_spec l r : bytesEqual l r = bool_decide (l = r).
Proof.
  unfold bytesEqual. destruct (Nat.eqb_spec (length l) (length r)) as [Hlen|Hlen]; cbn [negb].
  - revert r Hlen. induction l as [|x l IH]; intros [|y r] Hlen; try done; cbn in *.
    rewrite IH by lia. destruct (Z.eqb_spec x y) as [->|Hne]; cbn.
    + apply bool_decide_ext. split; [by intros ->|by intros [=]].
    + symmetry. apply bool_decide_eq_false. by intros [=].
  - symmetry. apply bool_decide_eq_false. intros ->. done.
Qed.

Lemma lww_ahead e k x :
  engine_inv e → time_lt (stamp (clock e)) (timestamp x) →
  lww (content (store e) k) x = Some x.
Proof.
  intros He Hlt. unfold lww. destruct (content (store e) k) as [y|] eqn:Hy; [|done].
  rewrite (proj2 (supersedes_spec x y)); [done|].
  destruct (time_lt_total (timestamp y) (stamp (clock e))) as [?|[->|?]]; [by etrans|done|].
  by destruct (ei_clock _ He _ _ Hy).
Qed.

(** A commit on an engine whose clock is ahead installs its entry and keeps it so. *)
Lemma commit_installs e p k v expires r :
  engine_inv e →
  ∃ x s' c',
    commit e p k v expires (Some r)
    = Ok (WriteApplied x, MkPipeline (queue p) (pl_sequence p + 1), MkEngine s' c' (pipelines e))
    ∧ key x = k ∧ value x = v ∧ expiresAt x = expires ∧ deleted x = bool_decide (v = None)
    ∧ (∀ k', content s' k' = if decide (k' = k) then Some x else content (store e) k')
    ∧ partitionCount s' = partitionCount (store e)
    ∧ ∀ ps, engine_inv (MkEngine s' c' ps).
Proof.
  intros He. destruct (commit_spec e p k v expires (Some r) (ei_store _ He))
    as (c' & s' & Hc & Hlt & _ & Hs' & Hn & Hcont).
  set (x := MkEntry k v (stamp c') (pl_sequence p + 1) expires (bool_decide (v = None))) in *.
  assert (∀ k', content s' k' = if decide (k' = k) then Some x else content (store e) k') as Hx.
  { intros k'. rewrite Hcont. destruct (decide (k' = k)); [|done]. by apply lww_ahead. }
  exists x, s', c'. do 7 (split; [done|]). intros ps. split; cbn [store clock]; [done| |].
  - intros k' y. rewrite Hx. destruct (decide (k' = k)).
    + intros [= <-]. apply (irreflexivity time_lt).
    + intros Hy Hlt'. apply (ei_clock _ He _ _ Hy). by etrans.
  - intros k' y. rewrite Hx. destruct (decide (k' = k)); [by intros [= <-]|apply (ei_shape _ He)].
Qed.

Lemma kv_view_set m k b k' t :
  kv_view (kv_set m k b) k' t = if decide (k' = k) then kv_view (λ _, b) k t else kv_view m k' t.
Proof. unfold kv_view, kv_set. by destruct (decide (k' = k)). Qed.

Lemma entry_view_binding x t b :
  value x = fst <$> b → expiresAt x = b ≫= snd → deleted x = bool_decide (value x = None) →
  entry_view x t = kv_view (λ _, b) (key x) t.
Proof.
  intros Hv Hx Hd. unfold entry_view, isLiveValue, isExpired, kv_view. rewrite Hd, Hx, Hv.
  destruct b as [[v [y|]]|]; cbn; [|done..]. by destruct (y <=? t).
Qed.

(** The engine decides each operation as the specification does. *)
Lemma engine_apply_binding e p op nowMs reading m :
  engine_inv e →
  (content (store e) (op_key op) ≫= λ x, entry_view x nowMs) = kv_view m (op_key op) nowMs →
  engine_apply e p op nowMs reading =
    match spec_binding m op nowMs with
    | Ok (SApplied b) => commit e p (op_key op) (fst <$> b) (b ≫= snd) reading
    | Ok (SRejected why) => Ok (WriteRejected why, p, e)
    | Throw err => Throw err
    end.
Proof.
  intros He Hview. unfold engine_apply, spec_binding.
  rewrite liveValue_spec by apply He. cbn [result_bind]. rewrite <-Hview. clear Hview.
  destruct (content (store e) (op_key op)) as [x|] eqn:Hx; cbn [mbind option_bind].
  2: { destruct op as [k v [] ttl|k|k delta|k expected v]; cbn; try done; by destruct ttl. }
  pose proof (ei_shape _ He _ _ Hx) as Hd. unfold entry_view, isLiveValue.
  destruct (deleted x) eqn:Hdel; cbn [negb andb].
  { destruct op as [k v [] ttl|k|k delta|k expected v]; cbn; try done; by destruct ttl. }
  symmetry in Hd. apply bool_decide_eq_false in Hd.
  destruct (value x) as [v0|] eqn:Hv; [clear Hd|done].
  destruct (isExpired x nowMs); cbn [negb andb].
  { destruct op as [k v [] ttl|k|k delta|k expected v]; cbn; try done; by destruct ttl. }
  destruct op as [k v cond ttl|k|k delta|k expected v]; cbn.
  - unfold applyPut. destruct cond; cbn; try done; by destruct ttl.
  - done.
  - unfold applyIncrement, defined_value, readCounter, encodeCounter. rewrite Hv.
    cbn [result_bind]. destruct (decide (length v0 = 8%nat)) as [Hl|Hl].
    + rewrite Hl. done.
    + rewrite (proj2 (Nat.eqb_neq _ _) Hl). done.
  - unfold applyCompareAndSet, defined_value. rewrite Hv. cbn [result_bind].
    rewrite bytesEqual_spec. destruct (decide (v0 = expected)) as [->|Hne].
    + by rewrite bool_decide_eq_true_2.
    + by rewrite bool_decide_eq_false_2.
Qed.

Lemma engine_run_simulates T e sp id nowMs reading :
  engine_inv e → simulates T e sp → T ≤ nowMs →
  let '(log, e') := engine_step e (Run id nowMs reading) in
  let '(slog, sp') := spec_step (home (store e)) sp (Run id nowMs reading) in
  observe_log log = slog ∧ engine_inv e' ∧ simulates nowMs e' sp'
  ∧ partitionCount (store e') = partitionCount (store e).
Proof.
  intros He [Hmap Hq] Ht. cbn [engine_step spec_step]. rewrite <-(Hq id).
  assert (simulates nowMs e sp) as Hsim by (split; [intros; apply Hmap; lia|done]).
  destruct (queue (pipe e id)) as [|[ticket op] rest] eqn:Hid.
  { by rewrite engine_run_idle. }
  unfold engine_run. unfold pipe in Hid. destruct (jm_get id (pipelines e)) as [p|]; [|done].
  cbn in Hid. rewrite Hid. set (p0 := MkPipeline rest (pl_sequence p)).
  rewrite (engine_apply_binding e p0 op nowMs reading (sp_map sp) He) by (apply Hmap; lia).
  unfold spec_apply.
  assert (∀ e' seqno, pipelines e' = pipelines e → ∀ id',
    queue (pipe (MkEngine (store e') (clock e') (jm_set id (MkPipeline rest seqno) (pipelines e'))) id')
    = q_set (sp_queue sp) id rest id') as Hqs.
  { intros e' seqno Hp id'. rewrite pipe_set. unfold q_set.
    destruct (decide (id' = id)); [done|]. rewrite <-Hq. unfold pipe. by rewrite Hp. }
  assert (∀ seqno, engine_inv (MkEngine (store e) (clock e) (jm_set id (MkPipeline rest seqno) (pipelines e)))
    ∧ simulates nowMs (MkEngine (store e) (clock e) (jm_set id (MkPipeline rest seqno) (pipelines e)))
        (MkSpec (sp_map sp) (q_set (sp_queue sp) id rest))) as Hsame.
  { intros seqno. split; [by destruct He; split|]. split; [apply Hsim|]. by apply (Hqs e). }
  destruct (spec_binding (sp_map sp) op nowMs) as [[b|why]|err];
    [|split; [done|]; split; [apply Hsame|]; split; [apply Hsame|done]..].
  destruct reading as [r|].
  - destruct (commit_installs e p0 (op_key op) (fst <$> b) (b ≫= snd) r He)
      as (x & s' & c' & -> & Hk & Hv & Hx & Hd & Hcont & Hn & Hinv).
    cbn [store clock pipelines queue p0].
    split; [|split; [apply Hinv|split; [|done]]].
    + unfold observe_log. cbn. rewrite Hv, Hx. by destruct b as [[v y]|].
    + split; cbn [sp_map store sp_queue]; [|apply (Hqs (MkEngine s' c' (pipelines e)) _); done].
      intros k t Htk. rewrite Hcont, kv_view_set.
      destruct (decide (k = op_key op)) as [->|]; [|apply Hmap; lia].
      cbn [mbind option_bind]. rewrite <-Hk. apply entry_view_binding; [done..|by rewrite Hd, Hv].
  - rewrite (commit_spec e p0 (op_key op) (fst <$> b) (b ≫= snd) None (ei_store _ He)).
    split; [done|]. split; [|split; [|done]]; apply Hsame.
Qed.

(** A trace of local events, no peer's entry being merged, whose physical readings
    do not step back below [T]. *)
Fixpoint local_trace (T : Z) (evs : list engine_event) : Prop :=
  match evs with
  | [] => True
  | Run _ t _ :: evs' | Sweep t :: evs' => T ≤ t ∧ local_trace t evs'
  | Merge _ :: _ => False
  | _ :: evs' => local_trace T evs'
  end.

Fixpoint last_time (T : Z) (evs : list engine_event) : Z :=
  match evs with
  | [] => T
  | Run _ t _ :: evs' | Sweep t :: evs' => last_time t evs'
  | _ :: evs' => last_time T evs'
  end.

Definition next_time (T : Z) (ev : engine_event) : Z :=
  match ev with Run _ t _ | Sweep t => t | _ => T end.

Lemma swept_store_content s s' T k :
  partitionCount s' = partitionCount s → swept_all T (partitions s) (partitions s') →
  content s' k = content s k ∨ content s' k = None ∧ ∃ x, content s k = Some x.
Proof.
  intros Hn Hsw. unfold content. rewrite (home_count s s') by done.
  pose proof (swept_all_get _ _ _ (home s k) Hsw) as H.
  destruct (jm_get (home s k) (partitions s)) as [p|],
    (jm_get (home s k) (partitions s')) as [p'|]; try done; [|by left].
  destruct H as [_ H]. destruct (H k) as [?|(? & x & ? & _)]; eauto.
Qed.

Lemma engine_read_view e k t :
  engine_inv e →
  ∃ o, engine_read e k t = Ok o
    ∧ (o ≫= λ x, (λ v, (v, expiresAt x)) <$> value x)
      = (content (store e) k ≫= λ x, entry_view x t).
Proof.
  intros He. unfold engine_read. rewrite store_get_content by apply He. eexists. split; [done|].
  destruct (content (store e) k) as [x|]; [|done]. cbn. unfold entry_view.
  by destruct (isLiveValue x t).
Qed.

Lemma engine_sweep_simulates T e sp nowMs :
  engine_inv e → simulates T e sp → T ≤ nowMs →
  engine_inv (engine_sweep e nowMs).2 ∧ simulates nowMs (engine_sweep e nowMs).2 sp
  ∧ partitionCount (store (engine_sweep e nowMs).2) = partitionCount (store e).
Proof.
  intros He [Hmap Hq] Ht. destruct (sweep_spec (store e) nowMs (ei_store _ He)) as (Hn & Hsw & _).
  unfold engine_sweep. destruct (sweep (store e) nowMs) as [n s']. cbn [snd] in *.
  destruct (swept_store _ _ _ (ei_store _ He) Hn Hsw) as [Hs' Hget].
  assert (engine_inv (set_store e s')) as He'.
  { split; cbn; [done| |]; intros k x Hx;
      destruct (swept_store_content _ _ _ k Hn Hsw) as [Hk|[Hk _]];
      rewrite Hk in Hx; [by eapply ei_clock|done|by eapply ei_shape|done]. }
  split; [done|]. split; [|done]. split; [|done]. intros k t Htk.
  rewrite <-Hmap by lia.
  destruct (engine_read_view _ k t He') as (o & Ho & <-).
  destruct (engine_read_view _ k t He) as (o' & Ho' & <-).
  unfold engine_read in *. cbn [store set_store] in Ho. rewrite Hget, Ho' in Ho by done.
  congruence.
Qed.

Lemma engine_step_simulates T e sp ev :
  engine_inv e → simulates T e sp → local_trace T [ev] →
  let '(log, e') := engine_step e ev in
  let '(slog, sp') := spec_step (home (store e)) sp ev in
  observe_log log = slog ∧ engine_inv e' ∧ simulates (next_time T ev) e' sp'
  ∧ partitionCount (store e') = partitionCount (store e).
Proof.
  intros He Hsim Hev. destruct ev as [ticket op|id nowMs reading|entry|id|nowMs];
    [|by apply (engine_run_simulates T); destruct Hev|done| |].
  - destruct (engine_write_spec e ticket op (ei_store _ He)) as (e' & Hw & Hst & Hc & Hp).
    cbn [engine_step spec_step]. rewrite Hw. cbn [or_else next_time]. destruct Hsim as [Hmap Hq].
    split; [done|]. split; [split; rewrite Hst, ?Hc; apply He|]. split; [|by rewrite Hst].
    split; cbn; rewrite ?Hst; [done|]. intros id. rewrite Hp. unfold q_set.
    rewrite <-!Hq. destruct (decide (id = home (store e) (op_key op))) as [->|]; done.
  - destruct Hsim as [Hmap Hq]. cbn [engine_step spec_step next_time]. unfold engine_drop.
    split; [done|]. split; [split; cbn [store clock set_store]|].
    + by apply store_drop_inv, He.
    + intros k x. rewrite content_store_drop. case_decide; [done|]. by apply (ei_clock _ He).
    + intros k x. rewrite content_store_drop. case_decide; [done|]. by apply (ei_shape _ He).
    + split; [|done]. split; [|done]. intros k t Ht. cbn [store set_store sp_map].
      rewrite content_store_drop. unfold kv_view at 1. case_decide; [done|]. by apply Hmap.
  - destruct (engine_sweep_simulates T e sp nowMs He Hsim) as (? & ? & ?); [by destruct Hev|].
    done.
Qed.

Lemma engine_exec_simulates T e sp evs :
  engine_inv e → simulates T e sp → local_trace T evs →
  let '(log, e') := engine_exec e evs in
  let '(slog, sp') := spec_exec (home (store e)) sp evs in
  observe_log log = slog ∧ engine_inv e' ∧ simulates (last_time T evs) e' sp'.
Proof.
  revert T e sp. induction evs as [|ev evs IH]; intros T e sp He Hsim Hev; [done|].
  cbn [engine_exec spec_exec].
  assert (local_trace T [ev] ∧ local_trace (next_time T ev) evs) as [Hev1 Hev2]
    by (destruct ev; cbn in *; tauto).
  pose proof (engine_step_simulates T e sp ev He Hsim Hev1) as Hstep.
  destruct (engine_step e ev) as [log1 e1].
  destruct (spec_step (home (store e)) sp ev) as [slog1 sp1].
  destruct Hstep as (<- & He1 & Hsim1 & Hn1).
  specialize (IH _ _ _ He1 Hsim1 Hev2).
  replace (home (store e)) with (home (store e1)) by (unfold home; by rewrite Hn1).
  destruct (engine_exec e1 evs) as [log2 e2].
  destruct (spec_exec (home (store e1)) sp1 evs) as [slog2 sp2].
  destruct IH as (<- & He2 & Hsim2). split; [unfold observe_log; by rewrite fmap_app|].
  split; [done|]. by destruct ev.
Qed.

(** The wrap-around of the counter: an eight-byte counter plus a delta, read back. *)
Lemma counter_roundtrip z : readCounter (encodeCounter z) = Ok (asIntN64 z).
Proof.
  unfold readCounter, encodeCounter. rewrite length_be_encode. cbn [Nat.eqb negb].
  rewrite be_decode_encode. change (256 ^ Z.of_nat 8) with (2 ^ 64). by rewrite asIntN64_mod.
Qed.

(** The two events of one awaited write. *)
Definition write_and_run (s : Store) (nowMs : Z) (op : WriteOp) : list engine_event :=
  [Submit 0 op; Run (home s (op_key op)) nowMs (Some nowMs)].

Lemma asIntN64_add a b : asIntN64 (asIntN64 a + b) = asIntN64 (a + b).
Proof.
  rewrite <-(asIntN64_mod (asIntN64 a + b)), <-(asIntN64_mod (a + b)).
  by rewrite <-Z.add_mod_idemp_l, asIntN64_cong, Z.add_mod_idemp_l.
Qed.

Lemma asIntN64_idemp a : asIntN64 (asIntN64 a) = asIntN64 a.
Proof. rewrite <-(asIntN64_mod (asIntN64 a)), asIntN64_cong. apply asIntN64_mod. Qed.

(** The binding of a counter: absent at zero, or the eight bytes of its value. *)
Definition counter_binding (b : option (list Z * option Z)) (total : Z) : Prop :=
  b = Some (be_encode 8 (asIntN64 total), None) ∨ b = None ∧ total = 0.

Lemma spec_increment m k nowMs d total :
  counter_binding (m k) total →
  spec_apply m (IncrementOp k d) nowMs (Some nowMs)
  = (Ok (SApplied (Some (be_encode 8 (asIntN64 (total + d)), None))),
     kv_set m k (Some (be_encode 8 (asIntN64 (total + d)), None))).
Proof.
  intros Hm. unfold spec_apply, spec_binding, kv_view. cbn [op_key].
  destruct Hm as [->|[-> ->]]; [|done].
  rewrite decide_True by apply length_be_encode.
  rewrite be_decode_encode. change (256 ^ Z.of_nat 8) with (2 ^ 64).
  by rewrite asIntN64_mod, asIntN64_idemp, asIntN64_add.
Qed.

Lemma spec_increments s k nowMs ds m q total :
  q (home s k) = [] → counter_binding (m k) total →
  sp_map (spec_exec (home s) (MkSpec m q)
    (ds ≫= λ d, write_and_run s nowMs (IncrementOp k d))).2 k
  = match ds with
    | [] => m k
    | _ => Some (be_encode 8 (asIntN64 (total + foldr Z.add 0 ds)), None)
    end.
Proof.
  revert m q total. induction ds as [|d ds IH]; intros m q total Hq Hm; [done|].
  cbn [mbind list_bind write_and_run app spec_exec spec_step op_key sp_map sp_queue].
  unfold q_set at 1. rewrite Hq, decide_True by done. cbn [app].
  rewrite (spec_increment m k nowMs d total Hm).
  set (b := Some (be_encode 8 (asIntN64 (total + d)), None)).
  set (q' := q_set _ _ []).
  specialize (IH (kv_set m k b) q' (total + d)).
  destruct (spec_exec _ _ _) as [slog sp']. cbn [snd] in *. rewrite IH.
  - unfold kv_set. rewrite decide_True by done. cbn [foldr]. destruct ds; unfold b.
    + cbn. by rewrite Z.add_0_r.
    + by rewrite Z.add_assoc.
  - unfold q', q_set. by rewrite decide_True.
  - left. unfold kv_set. by rewrite decide_True.
Qed.

Lemma increments_trace s k nowMs l :
  let evs := l ≫= λ z, write_and_run s nowMs (IncrementOp k z) in
  local_trace nowMs evs ∧ last_time nowMs evs = nowMs.
Proof. induction l as [|z l [IH1 IH2]]; [done|]. cbn. split; [split; [lia|done]|done]. Qed.

Lemma new_Engine_simulates nd n e T :
  new_Engine nd n = Ok e → engine_inv e ∧ simulates T e (MkSpec (λ _, None) (λ _, [])).
Proof.
  intros Hnew. destruct (new_Engine_inv _ _ _ Hnew) as (Hs & Hp & Hempty).
  split; [split; [done|intros k x; by rewrite Hempty..]|].
  split; [intros k t _; by rewrite Hempty|]. intros id. unfold pipe. by rewrite Hp.
Qed.

(** C2: on a node of its own the engine is a linearisable map with expiry: for
    every interleaving of submissions, pipeline runs, janitor sweeps and fragment
    drops whose physical readings do not step back, the outcome every caller sees
    (the value installed, the rejection of a failed put-if-absent, put-if-present
    or compare-and-set, the exception of a bad counter or clock) is the one the
    atomic map gives, and every later read returns what the map binds. *)
Theorem engine_refines_atomic_map nd n e evs T :
  new_Engine nd n = Ok e → local_trace T evs →
  let '(log, e') := engine_exec e evs in
  let '(slog, sp') := spec_exec (home (store e)) (MkSpec (λ _, None) (λ _, [])) evs in
  observe_log log = slog
  ∧ ∀ k t, last_time T evs ≤ t →
      ∃ o, engine_read e' k t = Ok o
        ∧ (o ≫= λ x, (λ v, (v, expiresAt x)) <$> value x) = kv_view (sp_map sp') k t.
Proof.
  intros Hnew Hev. destruct (new_Engine_simulates _ _ _ T Hnew) as [He Hsim].
  pose proof (engine_exec_simulates T e _ evs He Hsim Hev) as H.
  destruct (engine_exec e evs) as [log e'], (spec_exec _ _ _) as [slog sp'].
  destruct H as (Hlog & He' & Hmap & _). split; [done|]. intros k t Ht.
  destruct (engine_read_view e' k t He') as (o & Ho & Hview).
  exists o. split; [done|]. rewrite Hview. by apply Hmap.
Qed.

Lemma engine_refines_atomic_map_witness :
  let e := MkEngine (MkStore 512 [] 0) (MkClock (js "n") 0 0) [] in
  let evs := [Submit 1 (PutOp (js "k") [7] IfAbsent (Some 50));
              Submit 2 (PutOp (js "k") [8] IfAbsent None);
              Run (home (store e) (js "k")) 100 (Some 100);
              Run (home (store e) (js "k")) 120 (Some 90);
              Sweep 130; Submit 3 (DeleteOp (js "k"));
              Run (home (store e) (js "k")) 140 None] in
  let '(log, e') := engine_exec e evs in
  let '(slog, sp') := spec_exec (home (store e)) (MkSpec (λ _, None) (λ _, [])) evs in
  observe_log log = slog
  ∧ ∀ k t, last_time 0 evs ≤ t →
      ∃ o, engine_read e' k t = Ok o
        ∧ (o ≫= λ x, (λ v, (v, expiresAt x)) <$> value x) = kv_view (sp_map sp') k t.
Proof.
  apply (engine_refines_atomic_map (js "n") 512 _ _ 0); [reflexivity|].
  cbn [local_trace]. lia.
Defined.

(** Increments are exact modulo 2^64: any non-empty sequence of awaited
    increments of a fresh key leaves an eight-byte counter that reads back as the
    sum of the deltas wrapped to a signed 64-bit integer. *)
Theorem increments_accumulate nd n e k nowMs d ds :
  new_Engine nd n = Ok e →
  let e' := (engine_exec e ((d :: ds) ≫= λ z, write_and_run (store e) nowMs (IncrementOp k z))).2 in
  ∃ x v, engine_read e' k nowMs = Ok (Some x) ∧ value x = Some v ∧ expiresAt x = None
    ∧ readCounter v = Ok (asIntN64 (foldr Z.add 0 (d :: ds))).
Proof.
  intros Hnew. destruct (new_Engine_simulates _ _ _ nowMs Hnew) as [He Hsim].
  destruct (increments_trace (store e) k nowMs (d :: ds)) as [Htr Hlast].
  pose proof (spec_increments (store e) k nowMs (d :: ds) (λ _, None) (λ _, []) 0 eq_refl
    ltac:(by right)) as Hspec.
  pose proof (engine_exec_simulates nowMs e _ _ He Hsim Htr) as H.
  set (evs := (d :: ds) ≫= _) in *.
  destruct (engine_exec e evs) as [log e'], (spec_exec _ _ _) as [slog sp'].
  destruct H as (_ & He' & Hmap & _). cbn [snd] in *.
  destruct (engine_read_view e' k nowMs He') as (o & Ho & Hview).
  rewrite Hmap in Hview by (rewrite Hlast; lia). unfold kv_view in Hview.
  rewrite Hspec, Z.add_0_l in Hview. destruct o as [x|]; [|done]. cbn [mbind option_bind] in Hview.
  destruct (value x) as [v|] eqn:Hv; [|done]. cbn [fmap option_fmap option_map] in Hview.
  apply (inj Some) in Hview. apply pair_equal_spec in Hview as [Hv' Hx]. exists x, v. do 3 (split; [done|]).
  rewrite Hv'. change (be_encode 8) with encodeCounter.
  by rewrite counter_roundtrip, asIntN64_idemp.
Qed.

Lemma increments_accumulate_witness :
  let e := MkEngine (MkStore 512 [] 0) (MkClock (js "n") 0 0) [] in
  let e' := (engine_exec e ([2 ^ 63 - 1; 1] ≫= λ z,
               write_and_run (store e) 10 (IncrementOp (js "c") z))).2 in
  ∃ x v, engine_read e' (js "c") 10 = Ok (Some x) ∧ value x = Some v ∧ expiresAt x = None
    ∧ readCounter v = Ok (asIntN64 (foldr Z.add 0 [2 ^ 63 - 1; 1])).
Proof. apply (increments_accumulate (js "n") 512). reflexivity. Defined.

(** C38: a write behind a merged entry is reported applied and lost: [merge] does
    not advance the hybrid clock, so after a peer's entry whose wall time is ahead
    of this node's clock has been merged, an unconditional put of that key returns
    "applied" with the new value, yet every read answers as before it. *)
Theorem write_behind_merged_entry_lost e y e1 p v nowMs r :
  store_inv (store e) → engine_merge e y = Ok e1 →
  Z.max (clk_wallMs (clock e)) r < wallMs (timestamp y) →
  ∃ x p' e2,
    engine_apply e1 p (PutOp (key y) v CondNone None) nowMs (Some r)
    = Ok (WriteApplied x, p', e2)
    ∧ value x = Some v
    ∧ ∀ k t, engine_read e2 k t = engine_read e1 k t.
Proof.
  intros Hs Hm Hwall. unfold engine_merge in Hm.
  destruct (store_apply_spec (store e) y Hs) as (ch & s1 & Happ & Hs1 & Hn & _ & Hc).
  rewrite Happ in Hm. cbn in Hm. injection Hm as <-.
  set (e1 := set_store e s1). assert (store_inv (store e1)) as Hs1' by done.
  unfold engine_apply. rewrite liveValue_spec by done. cbn [result_bind op_key].
  unfold applyPut. cbn [andb]. rewrite !bool_decide_eq_false_2 by done. cbn [andb].
  destruct (commit_spec e1 p (key y) (Some v) None (Some r) Hs1')
    as (c' & s2 & Hcommit & _ & Hw & Hs2 & _ & Hc2).
  rewrite Hcommit. eexists _, _, _. split; [done|]. split; [done|]. intros k t.
  unfold engine_read. cbn [store]. rewrite !store_get_content by done. do 2 f_equal.
  rewrite Hc2. destruct (decide (k = key y)) as [->|]; [|done].
  cbn [store set_store e1]. rewrite Hc, decide_True by done.
  set (x := MkEntry _ _ _ _ _ _). assert (∃ i, lww (content (store e) (key y)) y = Some i
    ∧ supersedes y i = false) as (i & -> & Hi).
  { unfold lww. destruct (content (store e) (key y)) as [i|]; [|eauto using supersedes_irrefl].
    destruct (supersedes y i) eqn:Hyi; eauto using supersedes_irrefl. }
  cbn [lww]. rewrite (not_supersedes_trans x y i); [done| |done].
  apply not_true_iff_false. rewrite supersedes_spec, time_lt_spec.
  cbn [x timestamp stamp wallMs]. rewrite Hw. cbn [clock e1 set_store]. lia.
Qed.

Lemma write_behind_merged_entry_lost_witness :
  let e := MkEngine (MkStore 512 [] 0) (MkClock (js "a") 0 0) [] in
  let y := MkEntry (js "k") (Some [1]) (MkTime 9_000 0 (js "b")) 4 None false in
  let e1 := MkEngine (store_merge (store e) y) (clock e) [] in
  ∃ x p' e2,
    engine_apply e1 new_PartitionPipeline (PutOp (key y) [2] CondNone None) 1_000 (Some 1_000)
    = Ok (WriteApplied x, p', e2)
    ∧ value x = Some [2]
    ∧ ∀ k t, engine_read e2 k t = engine_read e1 k t.
Proof.
  apply (write_behind_merged_entry_lost
    (MkEngine (MkStore 512 [] 0) (MkClock (js "a") 0 0) [])
    (MkEntry (js "k") (Some [1]) (MkTime 9_000 0 (js "b")) 4 None false)).
  - apply (new_Store_inv 512). reflexivity.
  - vm_compute. reflexivity.
  - reflexivity.
Defined.

Definition sample_engine : Engine :=
  MkEngine (MkStore 512 [] 0) (MkClock (js "n") 0 0) [].

(** Three operations of one partition, the second of which throws. *)
Definition sample_trace : list engine_event :=
  let id := home (store sample_engine) (js "k") in
  [Submit 1 (PutOp (js "k") [7] CondNone None); Submit 2 (IncrementOp (js "k") 1);
   Submit 3 (DeleteOp (js "k")); Run id 10 (Some 10); Run id 11 (Some 11)].

Lemma pipeline_fifo_witness :
  let id := home (store sample_engine) (js "k") in
  let '(log, e') := engine_exec sample_engine sample_trace in
  queued sample_engine id ++ submitted (store sample_engine) id sample_trace
  = settled_of id log ++ queued e' id
  ∧ ∀ nowMs reading, queued e' id ≠ [] →
      ∃ ticket r e'', engine_run e' id nowMs reading = (Some (ticket, r), e'')
        ∧ queued e' id = ticket :: queued e'' id.
Proof. apply pipeline_fifo. by apply (new_Store_inv 512). Defined.

Lemma commits_ordered_witness :
  let log := (engine_exec sample_engine sample_trace).1 in
  StronglySorted time_lt (timestamp <$> commits log)
  ∧ ∀ id, consecutive (pl_sequence (pipe sample_engine id) + 1) (sequence <$> commits_of id log).
Proof. apply commits_ordered. by apply (new_Store_inv 512). Defined.
