(* ===== verification/Double.v ===== *)
(** * Binary64 quotients and products

    The load ceiling of the partition ring is a double.  A positive double is kept
    as [mantissa * 2 ^ exponent]; quotients and products are rounded to 53 bits,
    to nearest with ties to even.  The operands that occur are safe integers and
    small constants, so neither overflow nor underflow is reached. *)
From S2P Require Import Prelude.

Record double := MkDouble { mantissa : Z; exponent : Z }.

(** The exponent that gives [n / d] a 53-bit integer part when scaled by it. *)
Definition ratio_exponent (n d : Z) : Z :=
  let e := Z.log2 n - Z.log2 d in
  if d * 2 ^ Z.max 0 e <=? n * 2 ^ Z.max 0 (- e) then e - 52 else e - 53.

(** Rounds [n / d], both positive, to the nearest double. *)
Definition round_ratio (n d : Z) : double :=
  let e := ratio_exponent n d in
  let n' := n * 2 ^ Z.max 0 (- e) in
  let d' := d * 2 ^ Z.max 0 e in
  let q := n' / d' in
  let r := n' mod d' in
  let up := (d' <? 2 * r) || ((2 * r =? d') && Z.odd q) in
  MkDouble (if up then q + 1 else q) e.

(** [x / y] on positive integers and [x * y] on positive doubles. *)
Definition dbl_div (n d : Z) : double := round_ratio n d.

Definition dbl_mul (x y : double) : double :=
  let r := round_ratio (mantissa x * mantissa y) 1 in
  MkDouble (mantissa r) (exponent r + exponent x + exponent y).

(** [n < x] for an integer [n]. *)
Definition dbl_gt (x : double) (n : Z) : bool :=
  n * 2 ^ Z.max 0 (- exponent x) <? mantissa x * 2 ^ Z.max 0 (exponent x).

(** [1 / 3], [512 / 3 * 1.25], [1000003 / 17 * 1.25] and [3 / 40 * 1.25], as an IEEE
    implementation rounds them. *)
Example double_vectors :
  (dbl_div 1 3, dbl_mul (dbl_div 512 3) (MkDouble 5 (-2)),
   dbl_mul (dbl_div 1_000_003 17) (MkDouble 5 (-2)), dbl_mul (dbl_div 3 40) (MkDouble 5 (-2)))
  = (MkDouble 6004799503160661 (-54), MkDouble 7505999378950826 (-45),
     MkDouble 5052917859884574 (-36), MkDouble 6755399441055744 (-56)).
Proof. vm_compute. reflexivity. Qed.

(** ** The rounding error *)

(** Comparing [a * 2 ^ e] with [b], the exponent shifted to be non-negative. *)
Lemma scaled_eq K e : 0 ≤ K → 0 ≤ K + e →
  2 ^ (K + e) * 2 ^ Z.max 0 (- e) = 2 ^ K * 2 ^ Z.max 0 e.
Proof. intros. rewrite <-!Z.pow_add_r by lia. f_equal. lia. Qed.

Lemma scaled_le K e a b : 0 ≤ K → 0 ≤ K + e →
  a * 2 ^ Z.max 0 e ≤ b * 2 ^ Z.max 0 (- e) ↔ a * 2 ^ (K + e) ≤ b * 2 ^ K.
Proof.
  intros HK HKe. pose proof (scaled_eq K e HK HKe) as Heq.
  assert (0 < 2 ^ Z.max 0 (- e)) by (apply Z.pow_pos_nonneg; lia).
  assert (0 < 2 ^ Z.max 0 e) by (apply Z.pow_pos_nonneg; lia).
  assert (0 < 2 ^ K) by (apply Z.pow_pos_nonneg; lia).
  split; intros Hle.
  - apply (Z.mul_le_mono_pos_r _ _ (2 ^ Z.max 0 (- e))); [done|].
    rewrite <-Z.mul_assoc, Heq. nia.
  - apply (Z.mul_le_mono_pos_r _ _ (2 ^ K)); [done|].
    replace (a * 2 ^ Z.max 0 e * 2 ^ K) with (a * (2 ^ (K + e) * 2 ^ Z.max 0 (- e)))
      by (rewrite Heq; ring). nia.
Qed.

Lemma scaled_lt K e a b : 0 ≤ K → 0 ≤ K + e →
  b * 2 ^ Z.max 0 (- e) < a * 2 ^ Z.max 0 e ↔ b * 2 ^ K < a * 2 ^ (K + e).
Proof. intros HK HKe. pose proof (scaled_le K e a b HK HKe). lia. Qed.

(** The scaled quotient has at least 53 bits. *)
Lemma ratio_exponent_spec n d :
  0 < n → 0 < d →
  let e := ratio_exponent n d in
  2 ^ 52 * (d * 2 ^ Z.max 0 e) ≤ n * 2 ^ Z.max 0 (- e).
Proof.
  intros Hn Hd. cbv zeta. rewrite Z.mul_assoc.
  set (K := Z.log2 n + Z.log2 d + 100). unfold ratio_exponent.
  pose proof (Z.log2_spec n Hn) as [Hn1 Hn2]. pose proof (Z.log2_spec d Hd) as [Hd1 Hd2].
  pose proof (Z.log2_nonneg n). pose proof (Z.log2_nonneg d).
  set (k := Z.log2 n - Z.log2 d).
  destruct (Z.leb_spec (d * 2 ^ Z.max 0 k) (n * 2 ^ Z.max 0 (- k))) as [Hle|_];
    rewrite (scaled_le K) by lia.
  - rewrite (scaled_le K) in Hle by lia. replace (K + k) with (52 + (K + (k - 52))) in Hle by lia.
    rewrite Z.pow_add_r in Hle by lia. nia.
  - assert (2 ^ 52 * 2 ^ (K + (k - 53)) = 2 ^ (K + k - 1)) as Hp
      by (rewrite <-Z.pow_add_r by lia; f_equal; lia).
    assert (2 ^ Z.log2 n * 2 ^ K = 2 ^ Z.succ (Z.log2 d) * 2 ^ (K + k - 1)) as Hq
      by (rewrite <-!Z.pow_add_r by lia; f_equal; lia).
    assert (0 < 2 ^ (K + k - 1)) by (apply Z.pow_pos_nonneg; lia).
    assert (0 < 2 ^ K) by (apply Z.pow_pos_nonneg; lia). nia.
Qed.

(** Rounding to nearest moves a quotient by at most half an ulp, relatively 2^-53. *)
Lemma round_ratio_error n d K :
  0 < n → 0 < d → 0 ≤ K → 0 ≤ K + exponent (round_ratio n d) →
  let v := mantissa (round_ratio n d) * 2 ^ (K + exponent (round_ratio n d)) in
  n * 2 ^ K * (2 ^ 53 - 1) ≤ v * d * 2 ^ 53 ≤ n * 2 ^ K * (2 ^ 53 + 1).
Proof.
  intros Hn Hd HK HKe. cbv zeta. pose proof (ratio_exponent_spec n d Hn Hd) as Hbits.
  unfold round_ratio in *. cbn [mantissa exponent] in *. set (e := ratio_exponent n d) in *.
  pose proof (scaled_eq K e HK HKe) as Heq.
  set (n' := n * 2 ^ Z.max 0 (- e)) in *. set (d' := d * 2 ^ Z.max 0 e) in *.
  assert (0 < 2 ^ Z.max 0 (- e)) by (apply Z.pow_pos_nonneg; lia).
  assert (0 < 2 ^ Z.max 0 e) by (apply Z.pow_pos_nonneg; lia).
  assert (0 < 2 ^ K) by (apply Z.pow_pos_nonneg; lia).
  assert (0 < d') as Hd' by (unfold d'; nia).
  pose proof (Z.div_mod n' d' ltac:(lia)) as Hdm. pose proof (Z.mod_pos_bound n' d' Hd').
  set (q := n' / d') in *. set (r := n' mod d') in *.
  set (up := (_ <? _) || _). set (m := if up then q + 1 else q).
  assert (2 * (m * d') ≤ 2 * n' + d' ∧ 2 * n' - d' ≤ 2 * (m * d')) as [Hup Hlo].
  { unfold m, up. destruct (Z.ltb_spec d' (2 * r)), (Z.eqb_spec (2 * r) d'), (Z.odd q); cbn [andb orb];
      nia. }
  assert (n' * (2 ^ 53 - 1) ≤ m * d' * 2 ^ 53 ≤ n' * (2 ^ 53 + 1)) as [Hle1 Hle2] by nia.
  assert (n' * 2 ^ (K + e) = n * 2 ^ K * 2 ^ Z.max 0 e) as Hn'
    by (unfold n'; rewrite <-Z.mul_assoc, (Z.mul_comm (2 ^ Z.max 0 (- e))), Heq; ring).
  assert (0 < 2 ^ (K + e)) as Hp by (apply Z.pow_pos_nonneg; lia).
  split; apply (Z.mul_le_mono_pos_r _ _ (2 ^ Z.max 0 e)); try done.
  - replace (n * 2 ^ K * (2 ^ 53 - 1) * 2 ^ Z.max 0 e) with (n' * (2 ^ 53 - 1) * 2 ^ (K + e))
      by (rewrite (Z.mul_comm n'), <-Z.mul_assoc, Hn'; ring).
    replace (m * 2 ^ (K + e) * d * 2 ^ 53 * 2 ^ Z.max 0 e) with (m * d' * 2 ^ 53 * 2 ^ (K + e))
      by (unfold d'; ring). by apply Z.mul_le_mono_pos_r.
  - replace (n * 2 ^ K * (2 ^ 53 + 1) * 2 ^ Z.max 0 e) with (n' * (2 ^ 53 + 1) * 2 ^ (K + e))
      by (rewrite (Z.mul_comm n'), <-Z.mul_assoc, Hn'; ring).
    replace (m * 2 ^ (K + e) * d * 2 ^ 53 * 2 ^ Z.max 0 e) with (m * d' * 2 ^ 53 * 2 ^ (K + e))
      by (unfold d'; ring). by apply Z.mul_le_mono_pos_r.
Qed.

(** [n < x] through the scaled value. *)
Lemma dbl_gt_spec x n K :
  0 ≤ K → 0 ≤ K + exponent x →
  dbl_gt x n = true ↔ n * 2 ^ K < mantissa x * 2 ^ (K + exponent x).
Proof. intros. unfold dbl_gt. rewrite Z.ltb_lt. by apply scaled_lt. Qed.

(** The exponent of a rounded quotient, from below. *)
Lemma round_ratio_exponent n d :
  0 < n → 0 < d → - Z.log2 d - 53 ≤ exponent (round_ratio n d).
Proof.
  intros. pose proof (Z.log2_nonneg n). cbn. unfold ratio_exponent.
  destruct (_ <=? _); lia.
Qed.

Lemma round_ratio_pos n d : 0 < n → 0 < d → 0 < mantissa (round_ratio n d).
Proof.
  intros Hn Hd. pose proof (ratio_exponent_spec n d Hn Hd) as Hbits.
  cbv zeta in Hbits.
  unfold round_ratio. cbn [mantissa]. set (e := ratio_exponent n d) in *.
  set (n' := n * 2 ^ Z.max 0 (- e)) in *. set (d' := d * 2 ^ Z.max 0 e) in *.
  assert (0 < d') as Hd' by (unfold d'; apply Z.mul_pos_pos; [done|apply Z.pow_pos_nonneg; lia]).
  assert (0 < n' / d') by (apply Z.div_str_pos; lia). destruct (_ || _); lia.
Qed.
