(* ===== verification/Ring.v ===== *)
(** * The partition ring ([src/kv/ring.ts])

    Consistent hashing with bounded loads.  Each member has twenty points on the
    32-bit ring; a partition goes to the first member clockwise whose load is below
    the ceiling, and its backups are the next distinct members.  The assignment
    depends on the set of members only, loads are bounded, the backstop of the
    walk is never needed, and after a primary is lost every surviving backup is
    still a replica. *)
From stdpp Require Import pretty.
From S2P Require Import Prelude JsNumber JsString Hash Hlc Entry Ports Double.

(** Constants of [src/kv/constants.ts]; 1.25 is exactly 5 / 2^2. *)
Definition DEFAULT_PARTITION_COUNT : Z := 512.
Definition LOAD_FACTOR : double := MkDouble 5 (-2).
Definition RING_POINTS_PER_MEMBER : nat := 20.

Record RingPoint := MkPoint { point : Z; owner : jsstring }.

#[global] Instance RingPoint_eq_dec : EqDecision RingPoint.
Proof. solve_decision. Defined.

Definition averageLoad (partitionCount memberCount : Z) : double :=
  dbl_mul (dbl_div partitionCount memberCount) LOAD_FACTOR.

Definition partitionPoint (id : Z) : Z := mix32 (fnv1a32 (be_encode 4 (u32 id))).

#[global] Strategy 100 [partitionPoint].
#[global] Typeclasses Opaque partitionPoint.

Definition startIndex (points : list RingPoint) (hash : Z) : Z :=
  lower_bound (S (length points)) (λ p, point p <? hash) points 0 (Z.of_nat (length points)).

Definition compareRingPoints (left right : RingPoint) : Z :=
  if negb (point left =? point right) then
    (if point left <? point right then -1 else 1)
  else if decide (owner left = owner right) then 0
  else if str_lt (owner left) (owner right) then -1 else 1.

Definition requirePositiveInteger (value : Z) (field : string) : result unit :=
  guard_throw (negb (negb (is_safe_integer value) || (value <=? 0)))
    (RangeError (field +:+ " must be a positive integer")).

Definition requirePartitionId (id partitionCount : Z) : result unit :=
  guard_throw (negb (negb (is_safe_integer id) || (id <? 0) || (partitionCount <=? id)))
    (RangeError ("partition id must be an integer in [0, " +:+ pretty partitionCount +:+ ")")).

(** The loop of [uniqueMembers]; [seen] holds the names copied so far. *)
Fixpoint uniqueMembers_loop (seen copy members : list jsstring) : result (list jsstring) :=
  match members with
  | [] => Ok copy
  | member :: members' =>
      if Nat.eqb (length member) 0 then Throw (RangeError "member name must not be empty")
      else if bool_decide (member ∈ seen) then Throw (RangeError "member names must be unique")
      else uniqueMembers_loop (seen ++ [member]) (copy ++ [member]) members'
  end.

Definition uniqueMembers (members : list jsstring) : result (list jsstring) :=
  if Nat.eqb (length members) 0 then Throw (RangeError "members must not be empty")
  else uniqueMembers_loop [] [] members.

Definition ring_le (a b : RingPoint) : Prop := compareRingPoints a b ≤ 0.

#[global] Instance ring_le_dec : RelDecision ring_le.
Proof. intros a b. unfold ring_le. apply _. Defined.

(** The points one member contributes: [hash32(`${owner}#${vnode}`)]. *)
Definition member_points (o : jsstring) : list RingPoint :=
  (λ vnode, MkPoint (hash32 (o ++ js "#" ++ str_of_nat (Z.of_nat vnode))) o)
    <$> seq 0 RING_POINTS_PER_MEMBER.

(** [Array.prototype.sort] with a comparator that is 0 only on equal points: any
    sort gives the same array. *)
Definition buildPoints (members : list jsstring) : list RingPoint :=
  merge_sort ring_le (members ≫= member_points).

(** [points[i].owner], for an index in range. *)
Definition owner_at (points : list RingPoint) (i : Z) : jsstring :=
  match points !! Z.to_nat i with Some p => owner p | None => [] end.

(** The owners a clockwise walk of [points.length] steps from [start] meets. *)
Definition walk (points : list RingPoint) (start : Z) : list jsstring :=
  (λ step, owner_at points ((start + Z.of_nat step) mod Z.of_nat (length points)))
    <$> seq 0 (length points).

(** The inner loop of [assignPrimaries]: the first candidate below the ceiling. *)
Fixpoint below_ceiling (ceiling : double) (loads : list (jsstring * Z))
    (candidates : list jsstring) : option jsstring :=
  match candidates with
  | [] => None
  | candidate :: rest =>
      match jm_get candidate loads with
      | Some load => if dbl_gt ceiling load then Some candidate
                     else below_ceiling ceiling loads rest
      | None => below_ceiling ceiling loads rest
      end
  end.

(** One turn of the outer loop: the owner of partition [id] and the loads after it. *)
Definition assign_step (ceiling : double) (points : list RingPoint)
    (st : list (jsstring * Z) * list jsstring) (id : nat) : list (jsstring * Z) * list jsstring :=
  let '(loads, primaries) := st in
  let start := startIndex points (partitionPoint (Z.of_nat id)) in
  let first := owner_at points (start mod Z.of_nat (length points)) in
  let o := default first (below_ceiling ceiling loads (walk points start)) in
  (jm_set o (default 0 (jm_get o loads) + 1) loads, primaries ++ [o]).

(** The loops of [assignPrimaries]. *)
Definition primaries_of (members : list jsstring) (points : list RingPoint)
    (partitionCount : Z) : list jsstring :=
  let ceiling := averageLoad partitionCount (Z.of_nat (length members)) in
  let loads := foldl (λ l member, jm_set member 0 l) [] members in
  (foldl (assign_step ceiling points) (loads, []) (seq 0 (Z.to_nat partitionCount))).2.

(** [new Array(partitionCount)] throws for a length an array cannot have. *)
Definition assignPrimaries (members : list jsstring) (points : list RingPoint)
    (partitionCount : Z) : result (list jsstring) :=
  let! _ := guard_throw (partitionCount <? 2 ^ 32) (RangeError "Invalid array length") in
  Ok (primaries_of members points partitionCount).

Record PartitionRing := MkRing {
  r_members : list jsstring;
  r_points : list RingPoint;
  r_primaries : list jsstring }.

Definition new_PartitionRing (members : list jsstring) (partitionCount : Z)
    : result PartitionRing :=
  let! _ := requirePositiveInteger partitionCount "partition count" in
  let! ms := uniqueMembers members in
  let points := buildPoints ms in
  let! primaries := assignPrimaries ms points partitionCount in
  Ok (MkRing ms points primaries).

Definition ring_partitionCount (r : PartitionRing) : Z := Z.of_nat (length (r_primaries r)).

Definition ring_primary (r : PartitionRing) (id : Z) : result jsstring :=
  let! _ := requirePartitionId id (ring_partitionCount r) in
  Ok (default [] (r_primaries r !! Z.to_nat id)).

(** The loop of [backups] over the owners of the walk. *)
Fixpoint collect_backups (want : Z) (seen chosen candidates : list jsstring) : list jsstring :=
  match candidates with
  | [] => chosen
  | candidate :: rest =>
      if negb (Z.of_nat (length chosen) <? want) then chosen
      else if bool_decide (candidate ∈ seen) then collect_backups want seen chosen rest
      else collect_backups want (seen ++ [candidate]) (chosen ++ [candidate]) rest
  end.

Definition ring_backups (r : PartitionRing) (id replicaCount : Z) : result (list jsstring) :=
  let! _ := requirePartitionId id (ring_partitionCount r) in
  let! _ := requirePositiveInteger replicaCount "replica count" in
  let want := replicaCount - 1 in
  if (want =? 0) || Nat.eqb (length (r_members r)) 1 then Ok []
  else
    let primary := default [] (r_primaries r !! Z.to_nat id) in
    let start := startIndex (r_points r) (partitionPoint id) in
    Ok (collect_backups want [primary] [] (walk (r_points r) start)).

(** ** The order of ring points *)

Lemma ring_le_spec a b :
  ring_le a b ↔ point a < point b ∨ point a = point b ∧ str_le (owner a) (owner b) = true.
Proof.
  unfold ring_le, compareRingPoints. rewrite str_le_spec.
  destruct (Z.eqb_spec (point a) (point b)), (Z.ltb_spec (point a) (point b)); cbn [negb];
    try (split; intros; lia).
  destruct (decide (owner a = owner b)) as [->|Hne]; [split; [auto|lia]|].
  destruct (str_lt (owner a) (owner b)) eqn:E; (split; [auto; lia|]); [lia|].
  intros [?|[? [?|?]]]; [lia|congruence..].
Qed.

#[global] Instance ring_le_trans : Transitive ring_le.
Proof.
  intros a b c. rewrite !ring_le_spec, !str_le_spec.
  intros [?|[? H1]] [?|[? H2]]; [left; lia..|]. right. split; [lia|].
  destruct H1 as [H1| ->]; [|done]. destruct H2 as [H2|<-]; left; [by eapply str_lt_trans|done].
Qed.

#[global] Instance ring_le_total : Total ring_le.
Proof.
  intros a b. rewrite !ring_le_spec, !str_le_spec.
  destruct (Z.lt_trichotomy (point a) (point b)) as [?|[?|?]]; [auto| |auto].
  destruct (str_lt (owner a) (owner b)) eqn:E1; [auto|].
  destruct (str_lt (owner b) (owner a)) eqn:E2; [auto|].
  left. right. split; [done|]. right. by apply str_lt_total.
Qed.

#[global] Instance ring_le_antisymm : AntiSymm (=) ring_le.
Proof.
  intros [pa oa] [pb ob]. rewrite !ring_le_spec, !str_le_spec. cbn.
  intros [?|[-> H1]] [?|[? H2]]; try lia. f_equal.
  destruct H1 as [H1|H1]; [|done]. destruct H2 as [H2|H2]; [|done].
  apply str_lt_asym in H1. congruence.
Qed.

Lemma buildPoints_sorted ms : StronglySorted ring_le (buildPoints ms).
Proof. apply StronglySorted_merge_sort; apply _. Qed.

Lemma buildPoints_perm ms : buildPoints ms ≡ₚ ms ≫= member_points.
Proof. apply merge_sort_Permutation. Qed.

(** Two sorted arrays with the same points are the same array. *)
Lemma sorted_points_unique l1 l2 :
  StronglySorted ring_le l1 → StronglySorted ring_le l2 → l1 ≡ₚ l2 → l1 = l2.
Proof. apply (StronglySorted_unique ring_le). Qed.

(** ** The clockwise walk *)

(** The points met clockwise from coordinate [h]: those at or after it, then the
    others. *)
Definition clockwise (points : list RingPoint) (h : Z) : list RingPoint :=
  filter (λ p, h ≤ point p) points ++ filter (λ p, point p < h) points.

Lemma sorted_split points h :
  StronglySorted ring_le points →
  points = filter (λ p, point p < h) points ++ filter (λ p, h ≤ point p) points.
Proof.
  induction 1 as [|p l Hl IH Hp]; [done|]. rewrite !filter_cons.
  destruct (decide (point p < h)) as [Hlt|Hge].
  - rewrite decide_False by lia. cbn. by rewrite <-IH.
  - rewrite decide_True by lia.
    assert (filter (λ p, point p < h) l = []) as Hnone.
    { apply filter_nil_iff || idtac. apply elem_of_nil_inv. intros q [Hq Hin]%list_elem_of_filter.
      rewrite Forall_forall in Hp. specialize (Hp q Hin).
      apply ring_le_spec in Hp. lia. }
    rewrite Hnone in *. cbn in *. by rewrite <-IH.
Qed.

Lemma walk_rotate points (r : nat) :
  points ≠ [] → (r ≤ length points)%nat →
  walk points (Z.of_nat r) = owner <$> (drop r points ++ take r points).
Proof.
  intros Hne Hr. apply list_eq_same_length with (n := length points).
  { rewrite length_fmap, length_app, length_drop, length_take. lia. }
  { unfold walk. by rewrite length_fmap, length_seq. }
  intros i x y Hi Hx Hy. unfold walk in Hx.
  rewrite list_lookup_fmap, lookup_seq_lt in Hx by done. cbn in Hx. injection Hx as <-.
  rewrite list_lookup_fmap in Hy. apply fmap_Some in Hy as (p & Hp & ->).
  assert (Z.to_nat ((Z.of_nat r + Z.of_nat i) mod Z.of_nat (length points))
    = if decide (r + i < length points)%nat then (r + i)%nat else (r + i - length points)%nat) as E.
  { destruct (decide _) as [H|H].
    - rewrite Z.mod_small by lia. lia.
    - replace (Z.of_nat r + Z.of_nat i)
        with (Z.of_nat (r + i - length points) + 1 * Z.of_nat (length points)) by lia.
      rewrite Z.mod_add, Z.mod_small by lia. lia. }
  unfold owner_at. rewrite E. destruct (decide _) as [H|H].
  - rewrite lookup_app_l, lookup_drop in Hp by (rewrite length_drop; lia). by rewrite Hp.
  - rewrite lookup_app_r, length_drop in Hp by (rewrite length_drop; lia).
    rewrite lookup_take in Hp. destruct (decide _); [|done].
    replace (r + i - length points)%nat with (i - (length points - r))%nat by lia. by rewrite Hp.
Qed.

Lemma walk_clockwise points h :
  StronglySorted ring_le points → points ≠ [] → Z.of_nat (length points) < 2 ^ 31 →
  walk points (startIndex points h) = owner <$> clockwise points h.
Proof.
  intros Hsort Hne Hlen.
  destruct (lower_bound_split (λ p, point p <? h) points) as (Hr & Ht & Hd); [|done|].
  { intros i j x y Hx Hy Hij. rewrite !Z.ltb_lt. intros Hlt.
    destruct (decide (i = j)) as [->|]; [by simplify_eq|].
    assert (ring_le x y) as [?|[? _]]%ring_le_spec; [|lia..].
    eapply (StronglySorted_lookup _ points i j); eauto; lia. }
  fold (startIndex points h) in *. set (r := Z.to_nat (startIndex points h)).
  replace (startIndex points h) with (Z.of_nat r) by lia.
  rewrite walk_rotate by (done || lia). f_equal. unfold clockwise.
  setoid_rewrite Z.ltb_lt in Ht. setoid_rewrite Z.ltb_ge in Hd. fold r in Ht, Hd.
  rewrite <-(take_drop r points) at 3 4. rewrite !filter_app.
  rewrite (filter_all (λ p, h ≤ point p) (drop r points)) by done.
  rewrite (filter_all (λ p, point p < h) (take r points)) by done.
  rewrite (filter_none (λ p, h ≤ point p) (take r points)) by (intros p Hp; specialize (Ht p Hp); lia).
  rewrite (filter_none (λ p, point p < h) (drop r points)) by (intros p Hp; specialize (Hd p Hp); lia).
  cbn [app]. by rewrite app_nil_r.
Qed.

(** ** Members and their points *)

(** What the constructor accepts. *)
Definition valid_members (ms : list jsstring) : Prop := ms ≠ [] ∧ NoDup ms ∧ [] ∉ ms.

Lemma uniqueMembers_loop_spec seen ms out :
  uniqueMembers_loop seen seen ms = Ok out →
  out = seen ++ ms ∧ NoDup ms ∧ ([] ∉ ms) ∧ ∀ x, x ∈ ms → x ∉ seen.
Proof.
  revert seen. induction ms as [|m ms IH]; intros seen; cbn [uniqueMembers_loop].
  { intros [= <-]. rewrite app_nil_r. split; [done|]. split; [constructor|].
    split; [apply not_elem_of_nil|]. by intros x ?%not_elem_of_nil. }
  destruct (Nat.eqb_spec (length m) 0) as [|Hm]; [done|].
  case_bool_decide as Hseen; [done|]. intros (-> & Hnd & Hne & Hfresh)%IH.
  split; [by rewrite <-app_assoc|]. split.
  { constructor; [|done]. intros Hin. apply (Hfresh m Hin). set_solver. }
  split; [rewrite elem_of_cons; intros [<-|?]; [done|done]|].
  intros x [->|Hx]%elem_of_cons; [done|]. specialize (Hfresh x Hx). set_solver.
Qed.

Lemma uniqueMembers_loop_ok seen ms :
  NoDup ms → [] ∉ ms → (∀ x, x ∈ ms → x ∉ seen) →
  uniqueMembers_loop seen seen ms = Ok (seen ++ ms).
Proof.
  revert seen. induction ms as [|m ms IH]; intros seen Hnd Hne Hs; cbn [uniqueMembers_loop].
  { by rewrite app_nil_r. }
  apply NoDup_cons in Hnd as [Hm Hnd].
  destruct m as [|c m]; [destruct Hne; left|]. cbn [length Nat.eqb].
  rewrite bool_decide_eq_false_2 by (apply Hs; left).
  rewrite IH; [by rewrite <-app_assoc|done|set_solver|].
  intros x Hx. specialize (Hs x ltac:(by right)). set_solver.
Qed.

Lemma uniqueMembers_spec ms out :
  uniqueMembers ms = Ok out ↔ valid_members ms ∧ out = ms.
Proof.
  unfold uniqueMembers, valid_members.
  destruct (Nat.eqb_spec (length ms) 0) as [H0|H0].
  { split; [done|]. apply length_zero_iff_nil in H0. naive_solver. }
  assert (ms ≠ []) by (by intros ->). split.
  - intros (-> & ? & ? & _)%uniqueMembers_loop_spec. done.
  - intros [(_ & ? & ?) ->]. apply (uniqueMembers_loop_ok []); [done..|].
    intros ? _. apply not_elem_of_nil.
Qed.

Lemma requirePositiveInteger_spec n f :
  requirePositiveInteger n f =
    if decide (0 < n ≤ MAX_SAFE_INTEGER) then Ok tt
    else Throw (RangeError (f +:+ " must be a positive integer")).
Proof.
  unfold requirePositiveInteger, guard_throw, is_safe_integer.
  destruct (decide _) as [H|H].
  - replace (negb _) with true; [done|]. symmetry. rewrite negb_true_iff, orb_false_iff, negb_false_iff.
    rewrite andb_true_iff, !Z.leb_le, Z.leb_gt. unfold MAX_SAFE_INTEGER in *. lia.
  - replace (negb _) with false; [done|]. symmetry. rewrite negb_false_iff, orb_true_iff, negb_true_iff.
    rewrite andb_false_iff, !Z.leb_gt, Z.leb_le. unfold MAX_SAFE_INTEGER in *. lia.
Qed.

Lemma requirePartitionId_spec id n :
  n ≤ MAX_SAFE_INTEGER →
  requirePartitionId id n =
    if decide (0 ≤ id < n) then Ok tt
    else Throw (RangeError ("partition id must be an integer in [0, " +:+ pretty n +:+ ")")).
Proof.
  intros Hn. unfold requirePartitionId, guard_throw, is_safe_integer.
  destruct (decide _) as [H|H].
  - replace (negb _) with true; [done|]. symmetry.
    rewrite negb_true_iff, !orb_false_iff, negb_false_iff.
    rewrite andb_true_iff, !Z.leb_le, Z.leb_gt, Z.ltb_ge. unfold MAX_SAFE_INTEGER in *. lia.
  - replace (negb _) with false; [done|]. symmetry.
    rewrite negb_false_iff, !orb_true_iff, negb_true_iff.
    rewrite andb_false_iff, !Z.leb_gt, Z.leb_le, Z.ltb_lt. unfold MAX_SAFE_INTEGER in *. lia.
Qed.

Lemma new_PartitionRing_spec ms n r :
  new_PartitionRing ms n = Ok r ↔
  0 < n < 2 ^ 32 ∧ valid_members ms
  ∧ r = MkRing ms (buildPoints ms) (primaries_of ms (buildPoints ms) n).
Proof.
  unfold new_PartitionRing. rewrite requirePositiveInteger_spec.
  destruct (decide _) as [Hn|Hn]; cbn [result_bind]; [|split; [done|unfold MAX_SAFE_INTEGER in Hn; lia]].
  destruct (uniqueMembers ms) as [out|] eqn:E; cbn [result_bind].
  - apply uniqueMembers_spec in E as [Hv ->]. unfold assignPrimaries, guard_throw.
    destruct (Z.ltb_spec n (2 ^ 32)); cbn [result_bind]; [|split; [done|lia]].
    split; [intros [= <-]; split_and!; [lia..|done|done]|by intros (_ & _ & ->)].
  - split; [done|]. intros (_ & Hv & _).
    rewrite (proj2 (uniqueMembers_spec ms ms)) in E by done. done.
Qed.

Lemma elem_buildPoints ms p :
  p ∈ buildPoints ms ↔ owner p ∈ ms ∧ p ∈ member_points (owner p).
Proof.
  rewrite buildPoints_perm, list_elem_of_bind. split.
  - intros (o & Hp & Ho). assert (owner p = o) as ->; [|done].
    apply list_elem_of_fmap in Hp as (v & -> & _). done.
  - intros [Ho Hp]. eauto.
Qed.

Lemma buildPoints_owners ms o : o ∈ owner <$> buildPoints ms ↔ o ∈ ms.
Proof.
  rewrite list_elem_of_fmap. split.
  - intros (p & -> & [Ho _]%elem_buildPoints). done.
  - intros Ho. exists (MkPoint (hash32 (o ++ js "#" ++ str_of_nat (Z.of_nat 0))) o).
    split; [done|]. apply elem_buildPoints. split; [done|].
    unfold member_points. apply list_elem_of_fmap. exists 0%nat. split; [reflexivity|].
    apply elem_of_seq. unfold RING_POINTS_PER_MEMBER. lia.
Qed.

Lemma length_buildPoints ms : length (buildPoints ms) = (20 * length ms)%nat.
Proof.
  rewrite (Permutation_length (buildPoints_perm ms)).
  induction ms as [|m ms IH]; [done|]. rewrite bind_cons, length_app, IH.
  unfold member_points. rewrite length_fmap, length_seq.
  unfold RING_POINTS_PER_MEMBER. cbn [length]. lia.
Qed.

(** ** The load ceiling *)

(** The ceiling, scaled to an integer, is within two roundings of [5P / 4M]. *)
Lemma averageLoad_bounds P M :
  0 < P → 0 < M < 2 ^ 53 →
  ∃ K C, 0 ≤ K
    ∧ (∀ load, dbl_gt (averageLoad P M) load = true ↔ load * 2 ^ (K + 2) < C)
    ∧ 5 * (2 ^ 53 - 1) * (2 ^ 53 - 1) * (2 ^ K * P) ≤ C * M * 2 ^ 106
    ∧ C * M * 2 ^ 106 ≤ 5 * (2 ^ 53 + 1) * (2 ^ 53 + 1) * (2 ^ K * P).
Proof.
  intros HP HM. unfold averageLoad, dbl_mul, dbl_div, LOAD_FACTOR. cbn [mantissa exponent].
  set (x := round_ratio P M). set (y := round_ratio (mantissa x * 5) 1).
  assert (0 < mantissa x) as Hx by (apply round_ratio_pos; lia).
  pose proof (round_ratio_exponent P M HP ltac:(lia)) as He1. fold x in He1.
  pose proof (round_ratio_exponent (mantissa x * 5) 1 ltac:(lia) ltac:(lia)) as He2. fold y in He2.
  assert (Z.log2 M < 53) by (apply Z.log2_lt_pow2; lia). change (Z.log2 1) with 0 in He2.
  pose proof (round_ratio_error P M 200 HP ltac:(lia) ltac:(lia) ltac:(fold x; lia)) as E1.
  pose proof (round_ratio_error (mantissa x * 5) 1 60 ltac:(lia) ltac:(lia) ltac:(lia)
    ltac:(fold y; lia)) as E2.
  cbv zeta in E1, E2. fold x in E1. fold y in E2.
  set (v1 := mantissa x * 2 ^ (200 + exponent x)) in *.
  set (w := 2 ^ (200 + exponent x)) in *.
  assert (0 < w) as Hw by (apply Z.pow_pos_nonneg; lia).
  exists (200 + 60), (mantissa y * 2 ^ (60 + exponent y) * w). split; [lia|]. split; [|].
  { intros load. rewrite (dbl_gt_spec _ load (200 + 60 + 2)) by (cbn [exponent]; lia).
    cbn [mantissa exponent]. unfold w. rewrite <-Z.mul_assoc, <-Z.pow_add_r by lia.
    replace (200 + 60 + 2 + (exponent y + exponent x + -2))
      with (60 + exponent y + (200 + exponent x)) by lia. done. }
  set (v2 := mantissa y * 2 ^ (60 + exponent y)) in *.
  change (2 ^ 106) with (2 ^ 53 * 2 ^ 53). rewrite (Z.pow_add_r 2 200 60) by lia.
  set (B := 2 ^ 53 - 1) in *. set (T := 2 ^ 53 + 1) in *. set (F := 2 ^ 53) in *.
  set (a := 2 ^ 200) in *. set (b := 2 ^ 60) in *.
  assert (0 < B ∧ 0 < T ∧ 0 < F ∧ 0 < a ∧ 0 < b) as (HB & HT & HF & Ha & Hb) by done.
  clearbody B T F a b v2. rewrite Z.mul_1_r in E2.
  assert (mantissa x * w = v1) as Hv1 by done. clearbody v1. destruct E1 as [E1 E1'], E2 as [E2 E2'].
  split.
  - transitivity (5 * B * b * (v1 * M * F)); [|].
    + replace (5 * B * B * (a * b * P)) with (5 * B * b * (P * a * B)) by ring.
      apply Z.mul_le_mono_nonneg_l; [nia|done].
    + replace (v2 * w * M * (F * F)) with (w * M * F * (v2 * F)) by ring.
      replace (5 * B * b * (v1 * M * F)) with (w * M * F * (mantissa x * 5 * b * B))
        by (rewrite <-Hv1; ring).
      apply Z.mul_le_mono_nonneg_l; [nia|done].
  - transitivity (5 * T * b * (v1 * M * F)); [|].
    + replace (v2 * w * M * (F * F)) with (w * M * F * (v2 * F)) by ring.
      replace (5 * T * b * (v1 * M * F)) with (w * M * F * (mantissa x * 5 * b * T))
        by (rewrite <-Hv1; ring).
      apply Z.mul_le_mono_nonneg_l; [nia|done].
    + replace (5 * T * T * (a * b * P)) with (5 * T * b * (P * a * T)) by ring.
      apply Z.mul_le_mono_nonneg_l; [nia|done].
Qed.

Lemma averageLoad_lower P M load :
  0 < P → 0 < M < 2 ^ 53 → load * M < P → dbl_gt (averageLoad P M) load = true.
Proof.
  intros HP HM Hload. destruct (averageLoad_bounds P M HP HM) as (K & C & HK & Hgt & Hlo & _).
  apply Hgt. rewrite Z.pow_add_r by lia. change (2 ^ 2) with 4.
  assert (0 < 2 ^ K) as HpK by (apply Z.pow_pos_nonneg; lia). set (k := 2 ^ K) in *. clearbody k.
  assert (4 * k * P ≤ C * M) as HC.
  { apply (Z.mul_le_mono_pos_r _ _ (2 ^ 106)); [done|]. etrans; [|exact Hlo].
    replace (4 * k * P * 2 ^ 106) with (4 * 2 ^ 106 * (k * P)) by ring.
    apply Z.mul_le_mono_nonneg_r; [nia|]. vm_compute. discriminate. }
  apply (Z.mul_lt_mono_pos_r M); [lia|]. eapply Z.lt_le_trans; [|exact HC].
  replace (load * (k * 4) * M) with (4 * k * (load * M)) by ring.
  apply Z.mul_lt_mono_pos_l; [lia|done].
Qed.

Lemma averageLoad_upper P M load :
  0 < P ≤ 2 ^ 49 → 0 < M < 2 ^ 53 → dbl_gt (averageLoad P M) load = true →
  4 * (M * load) ≤ 5 * P.
Proof.
  intros HP HM. destruct (averageLoad_bounds P M ltac:(lia) HM) as (K & C & HK & Hgt & _ & Hup).
  intros H%Hgt. rewrite Z.pow_add_r in H by lia. change (2 ^ 2) with 4 in H.
  assert (0 < 2 ^ K) as HpK by (apply Z.pow_pos_nonneg; lia). set (k := 2 ^ K) in *. clearbody k.
  apply Z.lt_succ_r. apply (Z.mul_lt_mono_pos_r (k * 2 ^ 106)); [lia|].
  eapply Z.lt_le_trans.
  - replace (4 * (M * load) * (k * 2 ^ 106)) with (load * (k * 4) * (M * 2 ^ 106)) by ring.
    apply Z.mul_lt_mono_pos_r; [lia|exact H].
  - rewrite Z.mul_assoc. etrans; [exact Hup|].
    replace (5 * (2 ^ 53 + 1) * (2 ^ 53 + 1) * (k * P))
      with ((5 * P * (2 ^ 106 + 2 ^ 54 + 1)) * k) by (change (2 ^ 106) with (2 ^ 53 * 2 ^ 53);
        change (2 ^ 54) with (2 * 2 ^ 53); ring).
    replace (Z.succ (5 * P) * (k * 2 ^ 106)) with (Z.succ (5 * P) * 2 ^ 106 * k) by ring.
    apply Z.mul_le_mono_nonneg_r; [lia|].
    change (2 ^ 106) with 81129638414606681695789005144064.
    change (2 ^ 54) with 18014398509481984. change (2 ^ 49) with 562949953421312 in HP. lia.
Qed.

(** ** Loads *)

(** How many partitions of the list a member owns. *)
Definition load_of (m : jsstring) (primaries : list jsstring) : nat :=
  length (filter (λ x, x = m) primaries).

Lemma load_of_app m l x : load_of m (l ++ [x]) = (load_of m l + if decide (x = m) then 1 else 0)%nat.
Proof.
  unfold load_of. rewrite filter_app, length_app. f_equal. rewrite filter_cons.
  by destruct (decide (x = m)).
Qed.

Lemma sum_indicator (ms : list jsstring) x :
  NoDup ms → x ∈ ms → sum_list_with (λ m, if decide (x = m) then 1 else 0)%nat ms = 1%nat.
Proof.
  induction 1 as [|m ms Hm Hms IH]; [by intros ?%not_elem_of_nil|].
  intros Hx. cbn. destruct (decide (x = m)) as [->|Hne].
  - enough (sum_list_with (λ m0, if decide (m = m0) then 1 else 0)%nat ms = 0%nat) as -> by done.
    clear -Hm. induction ms as [|y ms IH]; [done|]. cbn.
    rewrite decide_False by set_solver. apply IH. set_solver.
  - apply IH. set_solver.
Qed.

Lemma sum_loads ms primaries :
  NoDup ms → (∀ x, x ∈ primaries → x ∈ ms) →
  sum_list_with (λ m, load_of m primaries) ms = length primaries.
Proof.
  intros Hnd. induction primaries as [|x l IH] using rev_ind; intros Hsub.
  { clear. induction ms; cbn; auto. }
  rewrite length_app. cbn. rewrite <-IH by set_solver.
  rewrite <-(sum_indicator ms x Hnd) by set_solver.
  clear. induction ms as [|m ms IH]; [done|]. cbn. rewrite load_of_app, IH. lia.
Qed.

(** Some member is below the average while partitions remain. *)
Lemma some_member_below ms primaries P :
  NoDup ms → ms ≠ [] → (∀ x, x ∈ primaries → x ∈ ms) → Z.of_nat (length primaries) < P →
  ∃ m, m ∈ ms ∧ Z.of_nat (load_of m primaries) * Z.of_nat (length ms) < P.
Proof.
  intros Hnd Hne Hsub Hlen. set (M := Z.of_nat (length ms)).
  destruct (decide (Exists (λ m, Z.of_nat (load_of m primaries) * M < P) ms)) as [He|He].
  { apply Exists_exists in He. done. }
  exfalso. apply not_Exists_Forall in He; [|solve_decision].
  assert (P * M ≤ M * Z.of_nat (length primaries)) as Hsum.
  { rewrite <-(sum_loads ms primaries) by done. clear Hnd Hsub Hlen.
    assert (∀ l, Forall (λ m, ¬ Z.of_nat (load_of m primaries) * M < P) l →
      P * Z.of_nat (length l) ≤ M * Z.of_nat (sum_list_with (λ m, load_of m primaries) l)) as H.
    { induction 1 as [|m l Hm _ IH]; [cbn; lia|]. cbn [length sum_list_with]. lia. }
    apply H, He. }
  assert (0 < M) by (destruct ms; [done|unfold M; cbn; lia]). nia.
Qed.

Lemma below_ceiling_found ceiling loads cands m :
  below_ceiling ceiling loads cands = Some m →
  m ∈ cands ∧ ∃ load, jm_get m loads = Some load ∧ dbl_gt ceiling load = true.
Proof.
  induction cands as [|c cands IH]; cbn [below_ceiling]; [done|].
  destruct (jm_get c loads) as [load|] eqn:Hc.
  - destruct (dbl_gt ceiling load) eqn:Hgt.
    + intros [= <-]. split; [left|eauto].
    + intros [? ?]%IH. split; [by right|done].
  - intros [? ?]%IH. split; [by right|done].
Qed.

(** The candidates passed over are at the ceiling. *)
Lemma below_ceiling_first ceiling loads cands o :
  below_ceiling ceiling loads cands = Some o →
  ∃ pre suf, cands = pre ++ o :: suf ∧ Forall (λ c, ∀ load, jm_get c loads = Some load → dbl_gt ceiling load = false) pre.
Proof.
  induction cands as [|c cands IH]; cbn [below_ceiling]; [done|]. destruct (jm_get c loads) as [load|] eqn:Hc.
  - destruct (dbl_gt ceiling load) eqn:Hgt.
    + intros [= <-]. by exists [], cands.
    + intros (pre & suf & -> & Hp)%IH. exists (c :: pre), suf. split; [done|]. constructor; [|done]. congruence.
  - intros (pre & suf & -> & Hp)%IH. exists (c :: pre), suf. split; [done|]. constructor; [|done]. congruence.
Qed.

Lemma below_ceiling_finds ceiling loads cands m load :
  m ∈ cands → jm_get m loads = Some load → dbl_gt ceiling load = true →
  is_Some (below_ceiling ceiling loads cands).
Proof.
  intros Hm Hload Hgt. induction Hm as [|? c cands Hm IH]; cbn [below_ceiling].
  - rewrite Hload, Hgt. eauto.
  - destruct (jm_get c loads) as [l|]; [|by apply IH].
    destruct (dbl_gt ceiling l); [eauto|by apply IH].
Qed.

Lemma below_ceiling_ext ceiling loads loads' cands :
  (∀ k, jm_get k loads = jm_get k loads') →
  below_ceiling ceiling loads cands = below_ceiling ceiling loads' cands.
Proof.
  intros H. induction cands as [|c cands IH]; [done|]. cbn [below_ceiling].
  by rewrite H, IH.
Qed.

Lemma initial_loads (ms : list jsstring) k :
  jm_get k (foldl (λ l m, jm_set m 0 l) [] ms) = if decide (k ∈ ms) then Some 0 else None.
Proof.
  induction ms as [|m ms IH] using rev_ind.
  { by rewrite decide_False by apply not_elem_of_nil. }
  rewrite foldl_app. cbn [foldl]. rewrite jm_get_set, IH.
  destruct (decide (k = m)) as [->|Hne]; [by rewrite decide_True by set_solver|].
  destruct (decide (k ∈ ms)); [by rewrite decide_True by set_solver|].
  by rewrite decide_False by set_solver.
Qed.

Section assignment.
Context (ms : list jsstring) (P : Z).
Context (Hvalid : valid_members ms) (HP : 0 < P) (HM : Z.of_nat (length ms) < 2 ^ 26).

Local Abbreviation pts := (buildPoints ms).
Local Abbreviation ceiling := (averageLoad P (Z.of_nat (length ms))).

(** What the loop of [assignPrimaries] maintains: the loads count the primaries
    assigned so far, and no member took a partition at or above the ceiling. *)
Record assigned (st : list (jsstring * Z) * list jsstring) (n : nat) : Prop := {
  as_len : length st.2 = n;
  as_sub : ∀ m, m ∈ st.2 → m ∈ ms;
  as_loads : ∀ m, jm_get m st.1 =
    if decide (m ∈ ms) then Some (Z.of_nat (load_of m st.2)) else None;
  as_bound : ∀ m, (0 < load_of m st.2)%nat →
    dbl_gt ceiling (Z.of_nat (load_of m st.2) - 1) = true }.

Lemma ring_points_fit : pts ≠ [] ∧ Z.of_nat (length pts) < 2 ^ 31.
Proof.
  destruct Hvalid as [Hne _]. split.
  - intros E%(f_equal length). rewrite length_buildPoints in E. destruct ms; [done|]. cbn in E. lia.
  - rewrite length_buildPoints. lia.
Qed.

Lemma elem_walk h m : m ∈ walk pts (startIndex pts h) ↔ m ∈ ms.
Proof.
  destruct ring_points_fit. rewrite walk_clockwise by (done || apply buildPoints_sorted).
  rewrite <-(buildPoints_owners ms). unfold clockwise. rewrite !list_elem_of_fmap.
  split; intros (p & -> & Hp); exists p; (split; [done|]).
  - apply elem_of_app in Hp as [Hp|Hp]; by apply list_elem_of_filter in Hp as [_ Hp].
  - rewrite elem_of_app, !list_elem_of_filter.
    destruct (decide (h ≤ point p)); [left|right]; (split; [lia|done]).
Qed.

(** The walk from any point meets a member below the ceiling. *)
Lemma assign_step_finds loads prim n start :
  assigned (loads, prim) n → Z.of_nat n < P → (∃ h, start = startIndex pts h) →
  is_Some (below_ceiling ceiling loads (walk pts start)).
Proof.
  intros [Hlen Hsub Hloads Hbound] Hn [h ->]. cbn [fst snd] in *. destruct Hvalid as (Hne & Hnd & _).
  destruct (some_member_below ms prim P Hnd Hne Hsub ltac:(lia)) as (m & Hm & Hlow).
  apply (below_ceiling_finds ceiling loads _ m (Z.of_nat (load_of m prim))); [by apply elem_walk|by rewrite Hloads, decide_True|].
  apply averageLoad_lower; [done| |done]. destruct ms; [done|]. cbn [length] in *. lia.
Qed.

Lemma assign_step_inv st n :
  assigned st n → Z.of_nat n < P → assigned (assign_step ceiling pts st n) (S n).
Proof.
  destruct st as [loads prim]. intros Ha Hn. unfold assign_step. set (start := startIndex pts _).
  destruct (assign_step_finds loads prim n start Ha Hn ltac:(by eexists)) as [o Ho].
  destruct Ha as [Hlen Hsub Hloads Hbound]. cbn [fst snd] in *. rewrite Ho. cbn [default from_option].
  apply below_ceiling_found in Ho as (Hin & load & Hload & Hload').
  apply elem_walk in Hin. rewrite Hloads, decide_True in Hload by done. injection Hload as <-.
  rewrite Hloads, decide_True by done. cbn [from_option id default]. split; cbn [fst snd].
  - rewrite length_app. cbn. lia.
  - intros x. rewrite elem_of_app, list_elem_of_singleton. intros [?| ->]; auto.
  - intros x. rewrite jm_get_set, load_of_app, Hloads. destruct (decide (x = o)) as [->|Hxo].
    + rewrite !decide_True by done. f_equal. lia.
    + rewrite (decide_False (P := o = x)) by done. by rewrite Nat.add_0_r.
  - intros x. rewrite load_of_app. destruct (decide (o = x)) as [->|Hxo].
    + intros _. by replace (_ - 1) with (Z.of_nat (load_of x prim)) by lia.
    + rewrite Nat.add_0_r. apply Hbound.
Qed.

(** The loop after [n] turns. *)
Definition assign_turns (n : nat) : list (jsstring * Z) * list jsstring :=
  foldl (assign_step ceiling pts) (foldl (λ l member, jm_set member 0 l) [] ms, []) (seq 0 n).

Lemma assign_turns_inv n : Z.of_nat n ≤ P → assigned (assign_turns n) n.
Proof.
  unfold assign_turns. induction n as [|n IH]; intros Hn.
  - split; cbn; [done|by intros ? ?%not_elem_of_nil|apply initial_loads|lia].
  - rewrite seq_S, foldl_app. cbn [foldl]. apply assign_step_inv; [apply IH|]; lia.
Qed.

Lemma primaries_of_inv :
  ∃ loads, assigned (loads, primaries_of ms pts P) (Z.to_nat P).
Proof.
  pose proof (assign_turns_inv (Z.to_nat P) ltac:(lia)) as H. unfold assign_turns, primaries_of in *.
  destruct (foldl (assign_step _ _) _ _) as [loads prim]. eauto.
Qed.

Lemma assign_turns_prefix n k : (assign_turns n).2 `prefix_of` (assign_turns (n + k)).2.
Proof.
  induction k as [|k IH]; [by rewrite Nat.add_0_r|]. etrans; [exact IH|]. rewrite Nat.add_succ_r. unfold assign_turns.
  rewrite (seq_S (n + k)), foldl_app. cbn [foldl]. destruct (foldl _ _ (seq 0 (n + k))) as [loads prim]. by eexists.
Qed.

(** The turn of partition [n]: its primary is the first member below the ceiling that the
    walk meets, the loads being those of the partitions before it. *)
Lemma primaries_of_turn n :
  Z.of_nat n < P →
  ∃ o pre suf, primaries_of ms pts P !! n = Some o
    ∧ walk pts (startIndex pts (partitionPoint (Z.of_nat n))) = pre ++ o :: suf
    ∧ dbl_gt ceiling (Z.of_nat (load_of o (take n (primaries_of ms pts P)))) = true
    ∧ Forall (λ c, dbl_gt ceiling (Z.of_nat (load_of c (take n (primaries_of ms pts P)))) = false) pre.
Proof.
  intros Hn. pose proof (assign_turns_inv n ltac:(lia)) as Ha. destruct (assign_turns n) as [loads prim] eqn:E.
  set (start := startIndex pts (partitionPoint (Z.of_nat n))).
  destruct (assign_step_finds loads prim n start Ha Hn ltac:(by eexists)) as [o Ho].
  assert ((assign_turns (n + 1)).2 = prim ++ [o]) as E1.
  { rewrite Nat.add_1_r. unfold assign_turns in *. rewrite seq_S, foldl_app, E. cbn [foldl assign_step Nat.add snd]. fold start. by rewrite Ho. }
  assert (prim ++ [o] `prefix_of` primaries_of ms pts P) as [rest Hall].
  { rewrite <-E1. pose proof (assign_turns_prefix (n + 1) (Z.to_nat P - (n + 1))) as Hpre.
    replace (n + 1 + (Z.to_nat P - (n + 1)))%nat with (Z.to_nat P) in Hpre by lia. exact Hpre. }
  destruct Ha as [Hlen Hsub Hloads _]. cbn [fst snd] in *.
  destruct (below_ceiling_first _ _ _ _ Ho) as (pre & suf & Hw & Hpre).
  apply below_ceiling_found in Ho as (_ & load & Hload & Hgt). exists o, pre, suf. rewrite Hall, <-app_assoc.
  rewrite take_app_length' by done. split_and!; [by rewrite <-Hlen, lookup_app_r, Nat.sub_diag by lia|done| |].
  - rewrite Hloads in Hload. by case_decide; simplify_eq.
  - rewrite Forall_forall in *. intros c Hc. apply (Hpre c Hc). rewrite Hloads, decide_True; [done|].
    apply (elem_walk (partitionPoint (Z.of_nat n))). fold start. rewrite Hw. set_solver.
Qed.
End assignment.

(** ** Distinct owners in walk order *)

(** The first occurrences in [l] of the names not in [seen]. *)
Fixpoint fresh (seen l : list jsstring) : list jsstring :=
  match l with
  | [] => []
  | x :: l' => if decide (x ∈ seen) then fresh seen l' else x :: fresh (seen ++ [x]) l'
  end.

Lemma collect_backups_fresh want seen chosen l :
  collect_backups want seen chosen l
  = chosen ++ take (Z.to_nat (want - Z.of_nat (length chosen))) (fresh seen l).
Proof.
  revert seen chosen. induction l as [|x l IH]; intros seen chosen; cbn [collect_backups fresh].
  { by rewrite take_nil, app_nil_r. }
  destruct (Z.ltb_spec (Z.of_nat (length chosen)) want) as [Hlt|Hge]; cbn [negb].
  - destruct (decide (x ∈ seen)) as [Hs|Hs];
      [rewrite bool_decide_eq_true_2 by done; apply IH|].
    rewrite bool_decide_eq_false_2, IH by done.
    rewrite length_app, <-app_assoc. cbn [length app].
    replace (Z.to_nat (want - Z.of_nat (length chosen)))
      with (S (Z.to_nat (want - Z.of_nat (length chosen + 1)))) by lia. done.
  - replace (Z.to_nat (want - Z.of_nat (length chosen))) with 0%nat by lia.
    by rewrite app_nil_r.
Qed.

Lemma elem_fresh seen l x : x ∈ fresh seen l ↔ x ∈ l ∧ x ∉ seen.
Proof.
  revert seen. induction l as [|y l IH]; intros seen; cbn [fresh]; [set_solver|].
  destruct (decide (y ∈ seen)); rewrite ?elem_of_cons, IH; [set_solver|].
  destruct (decide (x = y)) as [->|]; set_solver.
Qed.

Lemma NoDup_fresh seen l : NoDup (fresh seen l).
Proof.
  revert seen. induction l as [|y l IH]; intros seen; cbn [fresh]; [constructor|].
  destruct (decide (y ∈ seen)); [done|]. constructor; [|done]. rewrite elem_fresh. set_solver.
Qed.

Lemma fresh_ext seen seen' l :
  (∀ x, x ∈ l → x ∈ seen ↔ x ∈ seen') → fresh seen l = fresh seen' l.
Proof.
  revert seen seen'. induction l as [|y l IH]; intros seen seen' H; cbn [fresh]; [done|].
  destruct (decide (y ∈ seen)) as [Hy|Hy].
  - rewrite decide_True by (apply H; [left|done]). apply IH. intros x Hx. apply H. by right.
  - rewrite decide_False by (rewrite <-(H y); [done|left]). f_equal. apply IH.
    intros x Hx. rewrite !elem_of_app, (H x); [done|by right].
Qed.

Lemma fresh_filter (P : jsstring → Prop) `{!∀ x, Decision (P x)} seen l :
  fresh seen (filter P l) = filter P (fresh seen l).
Proof.
  revert seen. induction l as [|y l IH]; intros seen; [done|]. rewrite filter_cons. cbn [fresh].
  destruct (decide (P y)) as [Hy|Hy]; cbn [fresh]; destruct (decide (y ∈ seen)) as [Hs|Hs].
  - apply IH.
  - rewrite filter_cons, decide_True by done. by rewrite IH.
  - apply IH.
  - rewrite filter_cons, decide_False by done. rewrite <-IH. apply fresh_ext.
    intros x [Hx _]%list_elem_of_filter. rewrite elem_of_app, list_elem_of_singleton.
    split; [auto|]. intros [?| ->]; done.
Qed.

Lemma fresh_skip p l : fresh [p] l = filter (λ x, x ≠ p) (fresh [] l).
Proof.
  rewrite <-fresh_filter.
  assert (∀ seen, p ∈ seen → fresh seen l = fresh seen (filter (λ x, x ≠ p) l)) as H.
  { induction l as [|y l IH]; intros seen Hp; [done|]. rewrite filter_cons. cbn [fresh].
    destruct (decide (y = p)) as [->|Hne].
    - rewrite decide_True by done. rewrite decide_False by naive_solver. by apply IH.
    - rewrite (decide_True (P := y ≠ p)) by done. cbn [fresh].
      destruct (decide (y ∈ seen)); [by apply IH|]. f_equal. apply IH. set_solver. }
  rewrite H by left. apply fresh_ext. intros x [Hx _]%list_elem_of_filter. set_solver.
Qed.

(** A name among the first [n] stays there when others are removed. *)
Lemma take_filter {A} (P : A → Prop) `{!∀ x, Decision (P x)} n (l : list A) x :
  x ∈ take n l → P x → x ∈ take n (filter P l).
Proof.
  revert n. induction l as [|y l IH]; intros n; [rewrite take_nil; by intros ?%not_elem_of_nil|].
  destruct n as [|n]; [by intros ?%not_elem_of_nil|]. cbn [take].
  intros [->|Hx]%elem_of_cons HP; rewrite filter_cons.
  - rewrite decide_True by done. left.
  - destruct (decide (P y)); [right; by apply IH|].
    specialize (IH n Hx HP). apply elem_of_take in IH as (i & Hi & Hlt).
    apply elem_of_take. exists i. split; [done|lia].
Qed.

(** ** Reading a ring *)

(** The distinct members clockwise from a partition's coordinate. *)
Definition replica_order (ms : list jsstring) (id : Z) : list jsstring :=
  fresh [] (owner <$> clockwise (buildPoints ms) (partitionPoint id)).

Lemma elem_replica_order ms id m : m ∈ replica_order ms id ↔ m ∈ ms.
Proof.
  unfold replica_order. rewrite elem_fresh, <-(buildPoints_owners ms), !list_elem_of_fmap.
  unfold clockwise. split.
  - intros [(p & -> & Hp) _]. exists p. split; [done|].
    apply elem_of_app in Hp as [Hp|Hp]; by apply list_elem_of_filter in Hp as [_ Hp].
  - intros (p & -> & Hp). split; [|apply not_elem_of_nil]. exists p. split; [done|].
    rewrite elem_of_app, !list_elem_of_filter.
    destruct (decide (partitionPoint id ≤ point p)); [left|right]; (split; [lia|done]).
Qed.

Lemma NoDup_replica_order ms id : NoDup (replica_order ms id).
Proof. apply NoDup_fresh. Qed.

Lemma length_primaries_of ms pts P :
  length (primaries_of ms pts P) = Z.to_nat P.
Proof.
  unfold primaries_of. generalize (averageLoad P (Z.of_nat (length ms))) as c.
  generalize (foldl (λ l m, jm_set m 0 l) ([] : list (jsstring * Z)) ms) as l.
  generalize (Z.to_nat P) as n. intros n l c.
  induction n as [|n IH]; [done|]. rewrite seq_S, foldl_app. cbn [foldl].
  destruct (foldl _ _ _) as [l' ps]. cbn in *. rewrite length_app. cbn. lia.
Qed.

Section ring.
Context (ms : list jsstring) (n : Z) (r : PartitionRing).
Context (Hr : new_PartitionRing ms n = Ok r) (HM : Z.of_nat (length ms) < 2 ^ 26).

Lemma ring_count_bound : n < 2 ^ 32.
Proof. by apply new_PartitionRing_spec in Hr as ([_ ?] & _). Qed.

Lemma ring_fields :
  0 < n ≤ MAX_SAFE_INTEGER ∧ valid_members ms
  ∧ r_members r = ms ∧ r_points r = buildPoints ms
  ∧ r_primaries r = primaries_of ms (buildPoints ms) n
  ∧ ring_partitionCount r = n.
Proof.
  apply new_PartitionRing_spec in Hr as (? & ? & ->). unfold ring_partitionCount, MAX_SAFE_INTEGER. cbn.
  rewrite length_primaries_of. split; [lia|]. repeat (split; [done|]). lia.
Qed.

Lemma ring_primary_ok id :
  0 ≤ id < n → ∃ p, ring_primary r id = Ok p ∧ r_primaries r !! Z.to_nat id = Some p ∧ p ∈ ms.
Proof.
  intros Hid. destruct ring_fields as (Hn & Hv & _ & _ & Hprim & Hcount).
  unfold ring_primary. rewrite requirePartitionId_spec, decide_True by lia. cbn [result_bind].
  destruct (lookup_lt_is_Some_2 (r_primaries r) (Z.to_nat id)) as [p Hp].
  { unfold ring_partitionCount in Hcount. lia. }
  exists p. rewrite Hp. split; [done|]. split; [done|].
  destruct (primaries_of_inv ms n Hv ltac:(lia) HM) as (loads & [_ Hsub _ _]).
  apply Hsub. cbn. rewrite <-Hprim. by eapply list_elem_of_lookup_2.
Qed.

Lemma ring_primary_out id : ¬ 0 ≤ id < n → ∃ msg, ring_primary r id = Throw (RangeError msg).
Proof.
  intros Hid. destruct ring_fields as (Hn & _ & _ & _ & _ & Hcount). unfold ring_primary.
  rewrite requirePartitionId_spec, Hcount, decide_False by (done || lia). by eexists.
Qed.

(** [backups] as a prefix of the replica order without the primary. *)
Lemma ring_backups_ok id k p :
  0 < k ≤ MAX_SAFE_INTEGER → ring_primary r id = Ok p →
  0 ≤ id < n
  ∧ ring_backups r id k
    = Ok (take (Z.to_nat (k - 1)) (filter (λ x, x ≠ p) (replica_order ms id))).
Proof.
  intros Hk Hp. destruct ring_fields as (Hn & Hv & Hmem & Hpts & Hprim & Hcount).
  destruct (decide (0 ≤ id < n)) as [Hid|Hid].
  2: { destruct (ring_primary_out id Hid) as [msg Hmsg]. congruence. }
  split; [done|]. destruct (ring_primary_ok id Hid) as (p' & Hp' & Hlook & Hin).
  rewrite Hp in Hp'. injection Hp' as <-.
  unfold ring_backups. rewrite requirePartitionId_spec, decide_True by lia. cbn [result_bind].
  rewrite requirePositiveInteger_spec, decide_True by done. cbn [result_bind].
  rewrite Hlook, Hpts, Hmem. cbn [default from_option].
  destruct (ring_points_fit ms Hv HM) as [Hne Hlen].
  rewrite walk_clockwise by (done || apply buildPoints_sorted).
  rewrite collect_backups_fresh. cbn [app length]. rewrite Z.sub_0_r.
  change (Datatypes.id p) with p. rewrite (fresh_skip p). fold (replica_order ms id).
  destruct (Z.eqb_spec (k - 1) 0) as [->|_]; cbn [orb]; [by rewrite take_0|].
  destruct (Nat.eqb_spec (length ms) 1) as [H1|_]; [|done].
  rewrite filter_none; [by rewrite take_nil|].
  intros x Hx%elem_replica_order. destruct ms as [|m [|? ?]]; try done.
  apply list_elem_of_singleton in Hx as ->. apply list_elem_of_singleton in Hin as ->. by intros [].
Qed.
End ring.

(** ** Removing members *)

Lemma bind_filter (ms ms' : list jsstring) :
  filter (λ p, owner p ∈ ms') (ms ≫= member_points)
  = filter (λ m, m ∈ ms') ms ≫= member_points.
Proof.
  induction ms as [|m ms IH]; [done|]. rewrite bind_cons, filter_app, filter_cons, IH.
  assert (∀ p, p ∈ member_points m → owner p = m) as Ho
    by (intros p (v & -> & _)%list_elem_of_fmap; done).
  destruct (decide (m ∈ ms')) as [Hm|Hm].
  - rewrite bind_cons. f_equal. apply filter_all. intros p Hp. by rewrite (Ho p).
  - rewrite filter_none; [done|]. intros p Hp. by rewrite (Ho p).
Qed.

(** The points of a subset of the members are those of the whole ring that remain. *)
Lemma buildPoints_subset ms ms' :
  NoDup ms → NoDup ms' → ms' ⊆ ms →
  buildPoints ms' = filter (λ p, owner p ∈ ms') (buildPoints ms).
Proof.
  intros Hnd Hnd' Hsub. apply sorted_points_unique.
  - apply buildPoints_sorted.
  - apply StronglySorted_filter, buildPoints_sorted.
  - rewrite !buildPoints_perm, bind_filter.
    apply bind_Permutation. apply NoDup_Permutation; [done|by apply NoDup_filter|].
    intros x. rewrite list_elem_of_filter. split; [|tauto]. intros Hx. split; [done|by apply Hsub].
Qed.

Lemma clockwise_filter (P : RingPoint → Prop) `{!∀ x, Decision (P x)} points h :
  clockwise (filter P points) h = filter P (clockwise points h).
Proof.
  unfold clockwise. rewrite filter_app, !list_filter_filter.
  f_equal; apply list_filter_iff; tauto.
Qed.

Lemma filter_owner (P : jsstring → Prop) `{!∀ x, Decision (P x)} (points : list RingPoint) :
  filter P (owner <$> points) = owner <$> filter (λ p, P (owner p)) points.
Proof.
  induction points as [|p points IH]; [done|]. rewrite fmap_cons, !filter_cons, IH.
  by destruct (decide (P (owner p))).
Qed.

Lemma replica_order_subset ms ms' id :
  NoDup ms → NoDup ms' → ms' ⊆ ms →
  replica_order ms' id = filter (λ m, m ∈ ms') (replica_order ms id).
Proof.
  intros Hnd Hnd' Hsub. unfold replica_order.
  rewrite (buildPoints_subset ms ms') by done. rewrite clockwise_filter, <-fresh_filter.
  by rewrite filter_owner.
Qed.

(** ** Properties *)

Lemma primaries_of_ext ms ms' pts P :
  ms ≡ₚ ms' → primaries_of ms pts P = primaries_of ms' pts P.
Proof.
  intros Hp. unfold primaries_of. rewrite <-(Permutation_length Hp).
  set (c := averageLoad _ _). generalize (Z.to_nat P) as k. intros k.
  set (l := foldl _ [] ms). set (l' := foldl _ [] ms').
  assert ((∀ m, jm_get m (foldl (assign_step c pts) (l, []) (seq 0 k)).1
              = jm_get m (foldl (assign_step c pts) (l', []) (seq 0 k)).1)
          ∧ (foldl (assign_step c pts) (l, []) (seq 0 k)).2
            = (foldl (assign_step c pts) (l', []) (seq 0 k)).2) as [_ H]; [|exact H].
  induction k as [|k [IH1 IH2]].
  - split; [|done]. intros m. cbn. unfold l, l'. rewrite !initial_loads.
    destruct (decide (m ∈ ms)) as [H|H];
      [by rewrite decide_True by (by rewrite <-Hp)|by rewrite decide_False by (by rewrite <-Hp)].
  - rewrite seq_S, !foldl_app. cbn [foldl].
    destruct (foldl _ (l, []) _) as [a p], (foldl _ (l', []) _) as [a' p']. cbn [fst snd] in *.
    subst p'. unfold assign_step. rewrite (below_ceiling_ext _ a a') by done.
    split; [|done]. intros m. cbn [fst]. by rewrite !jm_get_set, !IH1.
Qed.

(** The assignment is a function of the set of members: the same names in any
    order build a ring with the same primary and the same backups, in the same
    order, for every partition and replica count, errors included. *)
Theorem ring_order_independent ms ms' n r :
  ms ≡ₚ ms' → new_PartitionRing ms n = Ok r →
  ∃ r', new_PartitionRing ms' n = Ok r'
    ∧ (∀ id, ring_primary r' id = ring_primary r id)
    ∧ ∀ id k, ring_backups r' id k = ring_backups r id k.
Proof.
  intros Hp (Hn & (Hne & Hnd & Hnil) & ->)%new_PartitionRing_spec.
  assert (buildPoints ms' = buildPoints ms) as Hpts.
  { apply sorted_points_unique; [apply buildPoints_sorted..|].
    rewrite !buildPoints_perm. by apply bind_Permutation. }
  eexists. split; [apply new_PartitionRing_spec; split; [done|]; split; [|done]|].
  - split; [intros ->; by apply Permutation_nil_r in Hp as ->|].
    split; [by rewrite <-Hp|by rewrite <-Hp].
  - rewrite Hpts, <-(primaries_of_ext ms ms') by done. split; [done|]. intros id k.
    unfold ring_backups. cbn [r_members]. by rewrite (Permutation_length Hp).
Qed.

Lemma ring_order_independent_witness :
  ∃ r, new_PartitionRing [js "b"; js "a"] 16 = Ok r ∧
  ∃ r', new_PartitionRing [js "a"; js "b"] 16 = Ok r'
    ∧ (∀ id, ring_primary r' id = ring_primary r id)
    ∧ ∀ id k, ring_backups r' id k = ring_backups r id k.
Proof.
  destruct (new_PartitionRing [js "b"; js "a"] 16) as [r|err] eqn:E;
    [|vm_compute in E; discriminate E].
  exists r. split; [reflexivity|].
  apply (ring_order_independent [js "b"; js "a"] _ 16); [|exact E].
  apply Permutation_swap.
Defined.

(** C37: loads are bounded and the walk always finds room.  On a ring of fewer than 2^26
    members (so that its points are counted in 31 bits), the primary of every partition is
    the first member met clockwise from the partition's point whose load, over the
    partitions before it, is below the ceiling: the backstop is never taken.  So no member
    is primary of more than [1 + 1.25 * partitions / members] partitions, the arithmetic of
    doubles included. *)
Theorem ring_bounded_load ms n r :
  new_PartitionRing ms n = Ok r → Z.of_nat (length ms) < 2 ^ 26 →
  ring_partitionCount r = n
  ∧ (∀ id, 0 ≤ id < n →
      let before := take (Z.to_nat id) (r_primaries r) in
      let ceiling := averageLoad n (Z.of_nat (length ms)) in
      ∃ p passed rest, ring_primary r id = Ok p ∧ p ∈ ms
        ∧ walk (r_points r) (startIndex (r_points r) (partitionPoint id)) = passed ++ p :: rest
        ∧ dbl_gt ceiling (Z.of_nat (load_of p before)) = true
        ∧ Forall (λ c, dbl_gt ceiling (Z.of_nat (load_of c before)) = false) passed)
  ∧ ∀ m, 4 * (Z.of_nat (length ms) * (Z.of_nat (load_of m (r_primaries r)) - 1)) ≤ 5 * n.
Proof.
  intros Hr HM. destruct (ring_fields ms n r Hr) as (Hpos & Hv & _ & Hpts & Hprim & Hcount).
  pose proof (ring_count_bound ms n r Hr) as Hbound. split; [done|]. split.
  { intros id Hid. destruct (ring_primary_ok ms n r Hr HM id Hid) as (p & Hp & Hget & Hin).
    destruct (primaries_of_turn ms n Hv ltac:(lia) HM (Z.to_nat id) ltac:(lia)) as (o & passed & rest & Ho & Hw & Hgt & Hf).
    rewrite Z2Nat.id in Hw by lia. rewrite Hprim, Hpts in *. rewrite Ho in Hget. injection Hget as ->. by exists p, passed, rest. }
  intros m. assert (0 < Z.of_nat (length ms)) by (destruct Hv as [Hne _]; destruct ms; [done|cbn; lia]).
  destruct (primaries_of_inv ms n Hv ltac:(lia) HM) as (loads & [_ _ _ Hb]).
  rewrite Hprim. cbn [snd] in Hb. set (ld := load_of m _) in *.
  destruct (decide (ld = 0%nat)) as [H0|H0]; [rewrite H0; lia|].
  apply averageLoad_upper; [lia..|]. apply Hb. lia.
Qed.

Lemma ring_bounded_load_witness :
  ∃ r, new_PartitionRing [js "a"; js "b"; js "c"] 16 = Ok r
  ∧ ring_partitionCount r = 16
  ∧ ∀ m, 4 * (3 * (Z.of_nat (load_of m (r_primaries r)) - 1)) ≤ 5 * 16.
Proof.
  destruct (new_PartitionRing [js "a"; js "b"; js "c"] 16) as [r|err] eqn:E;
    [|vm_compute in E; discriminate E].
  exists r. split; [reflexivity|].
  destruct (ring_bounded_load [js "a"; js "b"; js "c"] 16 r E ltac:(reflexivity)) as (H1 & _ & H2). by split.
Defined.

(** A partition's backups are distinct members other than its primary, taken
    in clockwise order from the partition's coordinate, and there are exactly
    [min (replicaCount - 1) (members - 1)] of them. *)
Theorem ring_backups_spec ms n r id k p :
  new_PartitionRing ms n = Ok r → Z.of_nat (length ms) < 2 ^ 26 →
  0 < k ≤ MAX_SAFE_INTEGER → ring_primary r id = Ok p →
  ∃ bs, ring_backups r id k = Ok bs
    ∧ NoDup bs ∧ (p ∉ bs) ∧ bs ⊆ ms
    ∧ length bs = Nat.min (Z.to_nat (k - 1)) (length ms - 1)
    ∧ bs `prefix_of` filter (λ x, x ≠ p) (replica_order ms id).
Proof.
  intros Hr HM Hk Hp. destruct (ring_backups_ok ms n r Hr HM id k p Hk Hp) as [Hid ->].
  destruct (ring_fields ms n r Hr) as (_ & (_ & Hnd & _) & _).
  destruct (ring_primary_ok ms n r Hr HM id Hid) as (p' & Hp' & _ & Hin).
  rewrite Hp in Hp'. injection Hp' as <-.
  set (l := filter (λ x, x ≠ p) (replica_order ms id)).
  assert (NoDup l) as Hl by apply NoDup_filter, NoDup_replica_order.
  assert (∀ x, x ∈ l ↔ x ≠ p ∧ x ∈ ms) as Hel
    by (intros x; unfold l; by rewrite list_elem_of_filter, elem_replica_order).
  assert (p :: l ≡ₚ ms) as Hperm.
  { apply NoDup_Permutation; [constructor; [rewrite Hel; tauto|done]|done|].
    intros x. rewrite elem_of_cons, Hel. destruct (decide (x = p)) as [->|]; tauto. }
  assert (∀ x, x ∈ take (Z.to_nat (k - 1)) l → x ∈ l) as Htake
    by (intros x (i & Hi & _)%elem_of_take; by eapply list_elem_of_lookup_2).
  eexists. split; [done|]. split; [by eapply sublist_NoDup, sublist_take|].
  split; [intros [? _]%Htake%Hel; done|]. split; [by intros x [_ ?]%Htake%Hel|].
  split; [|apply prefix_take]. rewrite length_take, <-(Permutation_length Hperm). cbn. lia.
Qed.

Lemma ring_backups_spec_witness :
  ∃ r, new_PartitionRing [js "a"; js "b"; js "c"] 8 = Ok r ∧
  ∃ p, ring_primary r 5 = Ok p ∧
  ∃ bs, ring_backups r 5 DEFAULT_REPLICA_COUNT = Ok bs
    ∧ NoDup bs ∧ (p ∉ bs) ∧ bs ⊆ [js "a"; js "b"; js "c"]
    ∧ length bs = Nat.min (Z.to_nat (DEFAULT_REPLICA_COUNT - 1)) 2
    ∧ bs `prefix_of` filter (λ x, x ≠ p) (replica_order [js "a"; js "b"; js "c"] 5).
Proof.
  destruct (new_PartitionRing [js "a"; js "b"; js "c"] 8) as [r|err] eqn:E;
    [|vm_compute in E; discriminate E].
  exists r. split; [reflexivity|].
  destruct (ring_primary_ok _ _ _ E ltac:(reflexivity) 5 ltac:(lia)) as (p & Hp & _).
  exists p. split; [exact Hp|].
  apply (ring_backups_spec [js "a"; js "b"; js "c"] 8 r 5 DEFAULT_REPLICA_COUNT p E);
    [reflexivity|split; vm_compute; [reflexivity|discriminate]|exact Hp].
Defined.

Lemma ring_backups_nodup ms n r id k bs :
  new_PartitionRing ms n = Ok r → Z.of_nat (length ms) < 2 ^ 26 →
  ring_backups r id k = Ok bs → NoDup bs.
Proof.
  intros Hr HM Hbs. destruct (ring_fields ms n r Hr) as (Hn & _ & _ & _ & _ & Hcount).
  assert (0 ≤ id < n ∧ 0 < k ≤ MAX_SAFE_INTEGER) as [Hid Hk].
  { unfold ring_backups in Hbs. rewrite requirePartitionId_spec in Hbs by lia.
    destruct (decide _) as [?|] in Hbs; [|done]. cbn [result_bind] in Hbs.
    rewrite requirePositiveInteger_spec in Hbs. destruct (decide _) in Hbs; [|done]. lia. }
  destruct (ring_primary_ok ms n r Hr HM id Hid) as (p & Hp & _).
  destruct (ring_backups_ok ms n r Hr HM id k p Hk Hp) as [_ E]. rewrite Hbs in E. injection E as ->.
  eapply sublist_NoDup; [|apply sublist_take]. apply NoDup_filter, NoDup_replica_order.
Qed.

(** A crash loses no replica placement: when members leave, the primary of a
    partition among them, every backup of the partition that survives is the new
    primary or one of the new backups, so a write held by the old primary and any
    surviving backup is still held by the partition's new replica set. *)
Theorem crash_keeps_replicas ms ms' n r r' id k p bs :
  new_PartitionRing ms n = Ok r → new_PartitionRing ms' n = Ok r' →
  Z.of_nat (length ms) < 2 ^ 26 → ms' ⊆ ms → 0 < k ≤ MAX_SAFE_INTEGER →
  ring_primary r id = Ok p → p ∉ ms' → ring_backups r id k = Ok bs →
  ∃ p' bs', ring_primary r' id = Ok p' ∧ ring_backups r' id k = Ok bs'
    ∧ ∀ b, b ∈ bs → b ∈ ms' → b = p' ∨ b ∈ bs'.
Proof.
  intros Hr Hr' HM Hsub Hk Hp Hdead Hbs.
  destruct (ring_fields ms n r Hr) as (_ & (_ & Hnd & _) & _).
  destruct (ring_fields ms' n r' Hr') as (_ & (_ & Hnd' & _) & _).
  assert (Z.of_nat (length ms') < 2 ^ 26) as HM'.
  { pose proof (submseteq_length _ _ (NoDup_submseteq ms' ms Hnd' Hsub)). lia. }
  destruct (ring_backups_ok ms n r Hr HM id k p Hk Hp) as [Hid E].
  rewrite Hbs in E. injection E as ->.
  destruct (ring_primary_ok ms' n r' Hr' HM' id Hid) as (p' & Hp' & _ & _).
  destruct (ring_backups_ok ms' n r' Hr' HM' id k p' Hk Hp') as [_ E'].
  eexists p', _. split; [done|]. split; [exact E'|]. intros b Hb Hlive.
  destruct (decide (b = p')) as [->|Hne]; [by left|right].
  rewrite (replica_order_subset ms ms') by done.
  apply (take_filter (λ x, x ∈ ms' ∧ x ≠ p')) in Hb; [|done].
  rewrite !list_filter_filter in *.
  erewrite list_filter_iff; [exact Hb|]. intros x. cbn. naive_solver.
Qed.

Lemma crash_keeps_replicas_witness :
  ∃ r r', new_PartitionRing [js "a"; js "b"; js "c"; js "d"] 8 = Ok r
  ∧ new_PartitionRing [js "b"; js "c"; js "d"] 8 = Ok r'
  ∧ ∃ p' bs', ring_primary r' 5 = Ok p' ∧ ring_backups r' 5 3 = Ok bs'
    ∧ ∀ b, b ∈ [js "c"; js "d"] → b ∈ [js "b"; js "c"; js "d"] → b = p' ∨ b ∈ bs'.
Proof.
  destruct (new_PartitionRing [js "a"; js "b"; js "c"; js "d"] 8) as [r|err] eqn:E;
    [|vm_compute in E; discriminate E].
  destruct (new_PartitionRing [js "b"; js "c"; js "d"] 8) as [r'|err] eqn:E';
    [|vm_compute in E'; discriminate E'].
  exists r, r'. split; [reflexivity|]. split; [reflexivity|].
  apply (crash_keeps_replicas _ _ _ r r' 5 3 (js "a") _ E E').
  - reflexivity.
  - intros x Hx. by right.
  - split; [reflexivity|vm_compute; discriminate].
  - vm_compute in E. injection E as <-. vm_compute. reflexivity.
  - by apply (bool_decide_unpack _), I.
  - vm_compute in E. injection E as <-. vm_compute. reflexivity.
Defined.
