(* ===== verification/RoutingTable.v ===== *)
(** * The routing table ([src/kv/routing.table.ts])

    The versioned assignment of owners to partitions: an owners list per partition,
    primary last.  [evolve] installs the ring's new primary and retains a previous
    owner exactly while it is live and has not reported the partition drained. *)
From stdpp Require Import pretty.
From S2P Require Import Prelude JsNumber JsString Hash Hlc Entry Ports Double Ring.

(** [PartitionOwners] and [RoutingTableWire] of [src/kv/wire.ts]. *)
Record PartitionOwners := MkPartitionOwners { po_owners : list jsstring }.
Record RoutingTableWire := MkTableWire { tw_version : Z; tw_partitions : list PartitionOwners }.

Record OwnershipReport := MkReport { or_node : jsstring; or_partitions : list Z }.

Record PartitionPlacement := MkPlacement {
  pp_owners : list jsstring;
  pp_primary : jsstring;
  pp_previousOwners : list jsstring;
  pp_backups : list jsstring }.

(** One turn of the loop of [aggregateReports]. *)
Definition aggregate_step (held : list (jsstring * list Z)) (report : OwnershipReport)
    : list (jsstring * list Z) :=
  let partitions := default [] (jm_get (or_node report) held) in
  jm_set (or_node report) (foldl (λ s id, set_add id s) partitions (or_partitions report)) held.

Definition aggregateReports (reports : list OwnershipReport) : list (jsstring * list Z) :=
  foldl aggregate_step [] reports.

Record RoutingTable := MkTable { rt_version : Z; rt_owners : list (list jsstring) }.

#[export] Instance RoutingTable_eq_dec : EqDecision RoutingTable.
Proof. solve_decision. Defined.

Definition new_RoutingTable (version : Z) (owners : list (list jsstring)) : result RoutingTable :=
  if version <? 0 then Throw (RangeError "table version must not be negative")
  else if existsb (λ l, Nat.eqb (length l) 0) owners
  then Throw (RangeError "a partition must have at least one owner")
  else Ok (MkTable version owners).

Definition rt_partitionCount (t : RoutingTable) : Z := Z.of_nat (length (rt_owners t)).

(** [#requireId]. *)
Definition requireId (t : RoutingTable) (id : Z) : result unit :=
  requirePartitionId id (rt_partitionCount t).

Definition table_owners (t : RoutingTable) (id : Z) : result (list jsstring) :=
  let! _ := requireId t id in
  Ok (default [] (rt_owners t !! Z.to_nat id)).

(** [owners[owners.length - 1]] and [owners.slice(0, -1)]. *)
Definition last_owner (owners : list jsstring) : jsstring := default [] (last owners).
Definition before_last (owners : list jsstring) : list jsstring :=
  take (length owners - 1) owners.

Definition table_primary (t : RoutingTable) (id : Z) : result jsstring :=
  let! owners := table_owners t id in
  Ok (last_owner owners).

Definition previousOwners (t : RoutingTable) (id : Z) : result (list jsstring) :=
  let! owners := table_owners t id in
  Ok (before_last owners).

Definition isFragmented (t : RoutingTable) (id : Z) : result bool :=
  let! owners := table_owners t id in
  Ok (Nat.ltb 1 (length owners)).

Definition table_supersedes (t other : RoutingTable) : bool := rt_version other <? rt_version t.

Definition placement (t : RoutingTable) (id : Z) (ring : PartitionRing) (replicaCount : Z)
    : result PartitionPlacement :=
  let! owners := table_owners t id in
  let! backups := ring_backups ring id replicaCount in
  Ok (MkPlacement owners (last_owner owners) (before_last owners) backups).

Definition toWire (t : RoutingTable) : RoutingTableWire :=
  MkTableWire (rt_version t) (MkPartitionOwners <$> rt_owners t).

Definition fromWire (wire : RoutingTableWire) : result RoutingTable :=
  new_RoutingTable (tw_version wire) (po_owners <$> tw_partitions wire).

(** The loop [for (id = 0; id < partitionCount; id += 1)]. *)
Definition partition_ids (count : Z) : list Z := Z.of_nat <$> seq 0 (Z.to_nat count).

Definition table_initial (ring : PartitionRing) (version : Z) : result RoutingTable :=
  let! owners := result_mapM (λ id, let! p := ring_primary ring id in Ok [p])
    (partition_ids (ring_partitionCount ring)) in
  new_RoutingTable version owners.

Definition isRetained (owner primary : jsstring) (held : list (jsstring * list Z))
    (live : list jsstring) (id : Z) : bool :=
  if decide (owner = primary) then false
  else if negb (bool_decide (owner ∈ live)) then false
  else match jm_get owner held with
       | None => true
       | Some report => bool_decide (id ∈ report)
       end.

Definition evolveOwners (previous : option RoutingTable) (ring : PartitionRing)
    (held : list (jsstring * list Z)) (live : list jsstring) (id : Z) : result (list jsstring) :=
  let! primary := ring_primary ring id in
  let! retained :=
    match previous with
    | None => Ok []
    | Some t =>
        let! owners := table_owners t id in
        Ok (filter (λ o, isRetained o primary held live id = true) owners)
    end in
  Ok (retained ++ [primary]).

Definition evolve (previous : option RoutingTable) (ring : PartitionRing)
    (reports : list OwnershipReport) (version : Z) (live : option (list jsstring))
    : result RoutingTable :=
  let live := default (r_members ring) live in
  let! _ := guard_throw
    (match previous with
     | Some t => rt_partitionCount t =? ring_partitionCount ring
     | None => true
     end) (RangeError "partition count must not change across table versions") in
  let held := aggregateReports reports in
  let! owners := result_mapM (evolveOwners previous ring held live)
    (partition_ids (ring_partitionCount ring)) in
  new_RoutingTable version owners.

(** ** Ownership reports *)

Definition has_report (reports : list OwnershipReport) (nd : jsstring) : Prop :=
  ∃ rep, rep ∈ reports ∧ or_node rep = nd.

Definition reported (reports : list OwnershipReport) (nd : jsstring) (id : Z) : Prop :=
  ∃ rep, rep ∈ reports ∧ or_node rep = nd ∧ id ∈ or_partitions rep.

Lemma elem_set_add {A} `{EqDecision A} (x y : A) s : y ∈ set_add x s ↔ y ∈ s ∨ y = x.
Proof. unfold set_add. destruct (decide (x ∈ s)); set_solver. Qed.

Lemma elem_foldl_set_add (ids s : list Z) y :
  y ∈ foldl (λ s id, set_add id s) s ids ↔ y ∈ s ∨ y ∈ ids.
Proof.
  revert s. induction ids as [|i ids IH]; intros s; cbn [foldl]; [set_solver|].
  rewrite IH, elem_set_add. set_solver.
Qed.

Lemma aggregateReports_spec reports nd :
  match jm_get nd (aggregateReports reports) with
  | None => ¬ has_report reports nd
  | Some ids => has_report reports nd ∧ ∀ id, id ∈ ids ↔ reported reports nd id
  end.
Proof.
  unfold aggregateReports. induction reports as [|rep reports IH] using rev_ind.
  { cbn. intros (rep & ?%not_elem_of_nil & _). done. }
  rewrite foldl_app. cbn [foldl]. set (held := foldl aggregate_step [] reports) in *.
  clearbody held. unfold aggregate_step. rewrite jm_get_set.
  assert (∀ x, x ∈ reports ++ [rep] ↔ x ∈ reports ∨ x = rep) as Hin
    by (intros; by rewrite elem_of_app, list_elem_of_singleton).
  destruct (decide (nd = or_node rep)) as [->|Hne].
  - split; [exists rep; by rewrite Hin; auto|]. intros id. rewrite elem_foldl_set_add.
    unfold reported. setoid_rewrite Hin.
    destruct (jm_get (or_node rep) held) as [ids|].
    + destruct IH as [_ IH]. change (default [] (Some ids)) with ids. rewrite IH.
      unfold reported. naive_solver.
    + unfold has_report in IH. split.
      * intros [?%not_elem_of_nil|?]; [done|]. eauto.
      * intros (x & [Hx| ->] & Hn & Hid); [|by right]. destruct IH. eauto.
  - unfold has_report, reported in *. destruct (jm_get nd held) as [ids|];
      setoid_rewrite Hin.
    + destruct IH as [IH1 IH2]. split; [naive_solver|]. intros id. rewrite IH2. naive_solver.
    + naive_solver.
Qed.

(** A previous owner survives: another member is primary, it is live, and it has
    sent no report or one that lists the partition. *)
Definition retained (reports : list OwnershipReport) (live : list jsstring)
    (primary o : jsstring) (id : Z) : Prop :=
  o ≠ primary ∧ o ∈ live ∧ (¬ has_report reports o ∨ reported reports o id).

Lemma isRetained_spec reports live primary o id :
  isRetained o primary (aggregateReports reports) live id = true
  ↔ retained reports live primary o id.
Proof.
  unfold isRetained, retained. destruct (decide (o = primary)); [split; [done|tauto]|].
  case_bool_decide as Hlive; cbn [negb]; [|split; [done|tauto]].
  pose proof (aggregateReports_spec reports o) as H.
  destruct (jm_get o (aggregateReports reports)) as [ids|]; [|tauto].
  destruct H as [H1 H2]. rewrite bool_decide_eq_true, H2. tauto.
Qed.

(** ** Well-formed tables *)

Record table_wf (t : RoutingTable) : Prop := {
  tw_ver : 0 ≤ rt_version t;
  tw_size : rt_partitionCount t ≤ MAX_SAFE_INTEGER;
  tw_lists : ∀ os, os ∈ rt_owners t → os ≠ [] ∧ NoDup os }.

Lemma new_RoutingTable_ok v owners :
  0 ≤ v → (∀ os, os ∈ owners → os ≠ []) → new_RoutingTable v owners = Ok (MkTable v owners).
Proof.
  intros Hv Hne. unfold new_RoutingTable. rewrite (proj2 (Z.ltb_ge v 0)) by done.
  destruct (existsb _ owners) eqn:E; [|done]. apply existsb_exists in E as (os & Hin & Hl).
  apply list_elem_of_In in Hin. apply Hne in Hin. by destruct os.
Qed.

Lemma table_owners_ok t id :
  table_wf t → 0 ≤ id < rt_partitionCount t →
  ∃ os, table_owners t id = Ok os ∧ rt_owners t !! Z.to_nat id = Some os ∧ os ≠ [] ∧ NoDup os.
Proof.
  intros Ht Hid. unfold table_owners, requireId.
  rewrite requirePartitionId_spec, decide_True by (done || apply Ht). cbn [result_bind].
  destruct (lookup_lt_is_Some_2 (rt_owners t) (Z.to_nat id)) as [os Hos].
  { unfold rt_partitionCount in Hid. lia. }
  exists os. rewrite Hos. split; [done|]. split; [done|].
  apply (tw_lists _ Ht). by eapply list_elem_of_lookup_2.
Qed.

Lemma table_owners_out t id :
  table_wf t → ¬ 0 ≤ id < rt_partitionCount t → ∃ msg, table_owners t id = Throw (RangeError msg).
Proof.
  intros Ht Hid. unfold table_owners, requireId.
  rewrite requirePartitionId_spec, decide_False by (done || apply Ht). by eexists.
Qed.

Lemma elem_partition_ids n id : id ∈ partition_ids n ↔ 0 ≤ id < n.
Proof.
  unfold partition_ids. rewrite list_elem_of_fmap. split.
  - intros (i & -> & Hi%elem_of_seq). lia.
  - intros H. exists (Z.to_nat id). split; [lia|]. apply elem_of_seq. lia.
Qed.

Lemma lookup_partition_ids n id : 0 ≤ id < n → partition_ids n !! Z.to_nat id = Some id.
Proof.
  intros H. unfold partition_ids. rewrite list_lookup_fmap, lookup_seq_lt by lia. cbn.
  f_equal. lia.
Qed.

Lemma length_partition_ids n : length (partition_ids n) = Z.to_nat n.
Proof. unfold partition_ids. by rewrite length_fmap, length_seq. Qed.

Lemma last_owner_snoc os p : last_owner (os ++ [p]) = p.
Proof. unfold last_owner. by rewrite last_snoc. Qed.

Lemma before_last_snoc os p : before_last (os ++ [p]) = os.
Proof. unfold before_last. rewrite length_app. cbn. by rewrite Nat.add_sub, take_app_length. Qed.

(** ** Evolution *)

Section evolution.
Context (ms : list jsstring) (n : Z) (ring : PartitionRing).
Context (Hring : new_PartitionRing ms n = Ok ring) (HM : Z.of_nat (length ms) < 2 ^ 26).

(** The owners list [evolve] writes for one partition. *)
Definition next_owners (previous : option (list jsstring)) (reports : list OwnershipReport)
    (live : list jsstring) (id : Z) (p : jsstring) : list jsstring :=
  filter (λ o, isRetained o p (aggregateReports reports) live id = true) (default [] previous)
  ++ [p].

Lemma elem_next_owners previous reports live id p o :
  o ∈ next_owners previous reports live id p
  ↔ o = p ∨ o ∈ default [] previous ∧ retained reports live p o id.
Proof.
  unfold next_owners.
  rewrite elem_of_app, list_elem_of_singleton, list_elem_of_filter, isRetained_spec. tauto.
Qed.

Lemma NoDup_next_owners previous reports live id p :
  NoDup (default [] previous) → NoDup (next_owners previous reports live id p).
Proof.
  intros Hnd. unfold next_owners. apply NoDup_app. split; [by apply NoDup_filter|].
  split; [|apply NoDup_singleton]. intros o Ho ->%list_elem_of_singleton.
  apply list_elem_of_filter in Ho as [Ho _].
  unfold isRetained in Ho. by rewrite decide_True in Ho.
Qed.

(** The previous table covers the ring's partitions. *)
Definition previous_ok (previous : option RoutingTable) : Prop :=
  match previous with
  | None => True
  | Some t => table_wf t ∧ rt_partitionCount t = n
  end.

Definition owners_before (previous : option RoutingTable) (id : Z) : option (list jsstring) :=
  previous ≫= λ t, rt_owners t !! Z.to_nat id.

Lemma evolveOwners_ok previous reports live id :
  previous_ok previous → 0 ≤ id < n →
  ∃ p, ring_primary ring id = Ok p ∧ p ∈ ms
    ∧ evolveOwners previous ring (aggregateReports reports) live id
      = Ok (next_owners (owners_before previous id) reports live id p)
    ∧ NoDup (default [] (owners_before previous id)).
Proof.
  intros Hprev Hid. destruct (ring_primary_ok ms n ring Hring HM id Hid) as (p & Hp & _ & Hin).
  exists p. split; [done|]. split; [done|]. unfold evolveOwners. rewrite Hp. cbn [result_bind].
  destruct previous as [t|]; cbn; [|split; [done|constructor]].
  destruct Hprev as [Ht Hn].
  destruct (table_owners_ok t id Ht ltac:(lia)) as (os & Hos & Hlook & _ & Hnd).
  rewrite Hos, Hlook. done.
Qed.

Lemma evolve_ok previous reports version live :
  previous_ok previous → 0 ≤ version →
  ∃ t', evolve previous ring reports version live = Ok t'
    ∧ table_wf t' ∧ rt_version t' = version ∧ rt_partitionCount t' = n
    ∧ ∀ id, 0 ≤ id < n → ∃ p, ring_primary ring id = Ok p ∧ p ∈ ms
        ∧ rt_owners t' !! Z.to_nat id
          = Some (next_owners (owners_before previous id) reports (default ms live) id p).
Proof.
  intros Hprev Hv. destruct (ring_fields ms n ring Hring) as (Hn & _ & Hmem & _ & _ & Hcount).
  set (lv := default ms live).
  set (f := λ id, next_owners (owners_before previous id) reports lv id
              (or_else [] (ring_primary ring id))).
  unfold evolve. rewrite Hmem, Hcount. fold lv.
  replace (match previous with Some t => _ | None => true end) with true.
  2: { destruct previous as [t|]; [|done]. destruct Hprev as [_ ->]. by rewrite Z.eqb_refl. }
  cbn [guard_throw result_bind]. rewrite (result_mapM_total _ f).
  2: { intros id Hid%elem_partition_ids.
       destruct (evolveOwners_ok previous reports lv id Hprev Hid) as (p & Hp & _ & -> & _).
       unfold f. by rewrite Hp. }
  cbn [result_bind].
  assert (∀ os, os ∈ f <$> partition_ids n → os ≠ [] ∧ NoDup os) as Hos.
  { intros os (id & -> & Hid%elem_partition_ids)%list_elem_of_fmap. split.
    - unfold f, next_owners. by destruct (filter _ _).
    - destruct (evolveOwners_ok previous reports lv id Hprev Hid) as (p & _ & _ & _ & Hnd).
      by apply NoDup_next_owners. }
  rewrite new_RoutingTable_ok by (done || (intros os H; by apply Hos)). eexists. split; [done|].
  assert (rt_partitionCount (MkTable version (f <$> partition_ids n)) = n) as Hlen.
  { unfold rt_partitionCount. cbn. rewrite length_fmap, length_partition_ids. lia. }
  split; [split; [done|rewrite Hlen; lia|done]|]. split; [done|]. split; [done|].
  intros id Hid. destruct (evolveOwners_ok previous reports lv id Hprev Hid) as (p & Hp & Hin & _).
  exists p. split; [done|]. split; [done|]. cbn [rt_owners].
  rewrite list_lookup_fmap, lookup_partition_ids by done. cbn. unfold f. by rewrite Hp.
Qed.
End evolution.

Lemma table_owners_lookup t id os :
  table_wf t → 0 ≤ id < rt_partitionCount t → rt_owners t !! Z.to_nat id = Some os →
  table_owners t id = Ok os.
Proof.
  intros Ht Hid Hos. destruct (table_owners_ok t id Ht Hid) as (os' & -> & Hos' & _). congruence.
Qed.

(** A table survives the trip through its wire shape. *)
Lemma table_wire_roundtrip t : table_wf t → fromWire (toWire t) = Ok t.
Proof.
  intros Ht. unfold fromWire, toWire. cbn.
  replace (po_owners <$> (MkPartitionOwners <$> rt_owners t)) with (rt_owners t).
  - rewrite new_RoutingTable_ok; [by destruct t|apply Ht|]. intros os Hos. by apply (tw_lists _ Ht).
  - rewrite <-list_fmap_compose. symmetry. apply list_fmap_id.
Qed.

(** With no previous table, [evolve] is [initial]. *)
Lemma evolve_None_initial ring reports v live :
  evolve None ring reports v live = table_initial ring v.
Proof. reflexivity. Qed.

(** One rebalance: the members of the new ring and what [evolve] is given. *)
Record rebalance := MkRebalance {
  rb_members : list jsstring;
  rb_reports : list OwnershipReport;
  rb_version : Z;
  rb_live : option (list jsstring) }.

Fixpoint evolve_all (n : Z) (t : RoutingTable) (steps : list rebalance) : result RoutingTable :=
  match steps with
  | [] => Ok t
  | s :: steps' =>
      let! ring := new_PartitionRing (rb_members s) n in
      let! t' := evolve (Some t) ring (rb_reports s) (rb_version s) (rb_live s) in
      evolve_all n t' steps'
  end.

(** ** Properties *)

(** The next table: [evolve] of a well-formed table over a ring for the same
    partition count succeeds and is well formed (no partition without an owner, no
    owner twice); each partition's primary, its last owner, is the ring's, and a
    previous owner stays exactly when another member is primary, it is live, and
    it has sent no report or reported that it still holds the partition. *)
Theorem evolve_owners_spec ms n ring t reports version live :
  new_PartitionRing ms n = Ok ring → Z.of_nat (length ms) < 2 ^ 26 →
  table_wf t → rt_partitionCount t = n → 0 ≤ version →
  ∃ t', evolve (Some t) ring reports version live = Ok t'
    ∧ table_wf t' ∧ rt_version t' = version
    ∧ ∀ id, 0 ≤ id < n → ∃ os os' p,
        table_owners t id = Ok os ∧ table_owners t' id = Ok os'
        ∧ ring_primary ring id = Ok p ∧ table_primary t' id = Ok p
        ∧ ∀ o, o ∈ os' ↔ o = p ∨ o ∈ os ∧ retained reports (default ms live) p o id.
Proof.
  intros Hring HM Ht Hn Hv.
  destruct (evolve_ok ms n ring Hring HM (Some t) reports version live)
    as (t' & He & Ht' & Hver & Hn' & Howners); [done..|].
  exists t'. do 3 (split; [done|]). intros id Hid.
  destruct (Howners id Hid) as (p & Hp & _ & Hlook).
  destruct (table_owners_ok t id Ht ltac:(lia)) as (os & Hos & Hos' & _).
  assert (owners_before (Some t) id = Some os) as E by done. rewrite E in Hlook.
  exists os, (next_owners (Some os) reports (default ms live) id p), p.
  pose proof (table_owners_lookup t' id _ Ht' ltac:(lia) Hlook) as Ho'.
  do 3 (split; [done|]). split; [|intros o; apply elem_next_owners].
  unfold table_primary. rewrite Ho'. cbn [result_bind]. unfold next_owners.
  by rewrite last_owner_snoc.
Qed.

(** C36: an owner with data is never dropped: through any sequence of rebalances, a
    member that owns a partition in the first table, stays live, and never sends a
    report from which the partition is missing, still owns it in the last one. *)
Theorem live_holder_stays_owner n t t' steps id o os :
  table_wf t → rt_partitionCount t = n → 0 ≤ id < n →
  table_owners t id = Ok os → o ∈ os → evolve_all n t steps = Ok t' →
  (∀ s, s ∈ steps →
     Z.of_nat (length (rb_members s)) < 2 ^ 26 ∧ 0 ≤ rb_version s
     ∧ o ∈ default (rb_members s) (rb_live s)
     ∧ (¬ has_report (rb_reports s) o ∨ reported (rb_reports s) o id)) →
  ∃ os', table_owners t' id = Ok os' ∧ o ∈ os'.
Proof.
  intros Ht Hn Hid Hos Ho. revert t os Ht Hn Hos Ho.
  induction steps as [|s steps IH]; intros t os Ht Hn Hos Ho Hall Hs; cbn [evolve_all] in Hall.
  { injection Hall as <-. eauto. }
  destruct (new_PartitionRing (rb_members s) n) as [ring|] eqn:Hring; [|done].
  cbn [result_bind] in Hall. destruct (Hs s) as (HM & Hv & Hlive & Hrep); [left|].
  destruct (evolve_ok _ n ring Hring HM (Some t) (rb_reports s) (rb_version s) (rb_live s))
    as (t1 & He & Ht1 & _ & Hn1 & Howners); [done..|].
  rewrite He in Hall. cbn [result_bind] in Hall.
  destruct (Howners id Hid) as (p & Hp & _ & Hlook).
  destruct (table_owners_ok t id Ht ltac:(lia)) as (os0 & Hos0 & Hlook0 & _).
  rewrite Hos in Hos0. injection Hos0 as <-.
  assert (owners_before (Some t) id = Some os) as E by done. rewrite E in Hlook.
  apply (IH t1 (next_owners (Some os) (rb_reports s) (default (rb_members s) (rb_live s)) id p));
    [done|done|by apply table_owners_lookup; [|lia|]| |done|intros; apply Hs; by right].
  apply elem_next_owners. destruct (decide (o = p)); [by left|right]. split; [done|]. done.
Qed.

Definition sample_table : RoutingTable := MkTable 1 [[js "a"]; [js "b"; js "a"]].

Lemma sample_table_wf : table_wf sample_table.
Proof.
  split; [done|done|]. intros os Hos. apply list_elem_of_In in Hos as [<-|[<-|[]]];
    (split; [done|]); apply (bool_decide_unpack _); vm_compute; exact I.
Qed.

Lemma evolve_owners_spec_witness :
  ∃ ring, new_PartitionRing [js "a"; js "c"] 2 = Ok ring ∧
  ∃ t', evolve (Some sample_table) ring [MkReport (js "b") [1]] 2 (Some [js "a"; js "b"; js "c"])
        = Ok t'
    ∧ table_wf t' ∧ rt_version t' = 2
    ∧ ∀ id, 0 ≤ id < 2 → ∃ os os' p,
        table_owners sample_table id = Ok os ∧ table_owners t' id = Ok os'
        ∧ ring_primary ring id = Ok p ∧ table_primary t' id = Ok p
        ∧ ∀ o, o ∈ os' ↔ o = p
            ∨ o ∈ os ∧ retained [MkReport (js "b") [1]] [js "a"; js "b"; js "c"] p o id.
Proof.
  destruct (new_PartitionRing [js "a"; js "c"] 2) as [ring|err] eqn:E;
    [|vm_compute in E; discriminate E].
  exists ring. split; [reflexivity|].
  apply (evolve_owners_spec [js "a"; js "c"] 2 ring sample_table [MkReport (js "b") [1]] 2
    (Some [js "a"; js "b"; js "c"]) E); [reflexivity|apply sample_table_wf|reflexivity|done].
Defined.

Lemma live_holder_stays_owner_witness :
  ∃ t', evolve_all 2 sample_table
          [MkRebalance [js "a"; js "c"] [MkReport (js "b") [1]] 2 (Some [js "a"; js "b"; js "c"])]
        = Ok t'
  ∧ ∃ os', table_owners t' 1 = Ok os' ∧ js "b" ∈ os'.
Proof.
  destruct (evolve_all 2 sample_table
    [MkRebalance [js "a"; js "c"] [MkReport (js "b") [1]] 2 (Some [js "a"; js "b"; js "c"])])
    as [t'|err] eqn:E; [|vm_compute in E; discriminate E].
  exists t'. split; [reflexivity|].
  apply (live_holder_stays_owner 2 sample_table t' _ 1 (js "b") [js "b"; js "a"]
    sample_table_wf eq_refl ltac:(lia) eq_refl ltac:(left) E).
  intros s Hs. apply list_elem_of_singleton in Hs as ->. cbn. split; [lia|]. split; [lia|].
  split; [right; left|]. right. exists (MkReport (js "b") [1]).
  split; [left|]. split; [reflexivity|left].
Defined.
