(* ===== verification/Async.v ===== *)
(** * Asynchronous node code ([src/kv/ports.ts], the promises of the KV store)

    A node runs asynchronous functions over its own state and talks to its peers
    through request/response calls.  An [async] program is such a function cut at
    its suspension points; [run] executes one without interference, and [step] is
    the interleaving of every node's programs over a carrier that may lose, delay
    or reorder anything.  [wp] is a small program logic for programs whose
    replies carry lasting facts; [adequacy] turns it into an invariant of every
    reachable cluster. *)
From S2P Require Import Prelude JsString.

(** ** Programs *)

(** What settles a request: its position and the reply, or nothing when the
    carrier rejects it. *)
Definition settlement : Type := nat * option (list Z).

(** - [Await f]: continue once [f] answers on the node's state, atomically;
    - [Collect reqs k]: issue the requests; [k] sees the settlements so far in
      their order after each of them and decides whether to go on;
    - [Post to body a]: issue a request whose outcome is ignored. *)
#[warnings="-register-all"]
Inductive async (St A : Type) : Type :=
  | Ret (r : result A)
  | Await (f : St → option (St * async St A))
  | Collect (reqs : list (jsstring * list Z)) (k : list settlement → option (async St A))
  | Post (to : jsstring) (body : list Z) (a : async St A).
Arguments Ret {St A} _.
Arguments Await {St A} _.
Arguments Collect {St A} _ _.
Arguments Post {St A} _ _ _.

Section programs.
Context {St : Type}.

Fixpoint async_bind {A B} (a : async St A) (k : A → async St B) : async St B :=
  match a with
  | Ret (Ok x) => k x
  | Ret (Throw e) => Ret (Throw e)
  | Await f =>
      Await (λ s, match f s with
                  | Some (s', a') => Some (s', async_bind a' k)
                  | None => None
                  end)
  | Collect reqs c =>
      Collect reqs (λ got, match c got with
                           | Some a' => Some (async_bind a' k)
                           | None => None
                           end)
  | Post to body a' => Post to body (async_bind a' k)
  end.

Definition async_map {A B} (g : A → B) (a : async St A) : async St B :=
  async_bind a (λ x, Ret (Ok (g x))).

(** [try … catch]: the outcome as a value. *)
Fixpoint attempt {A} (a : async St A) : async St (result A) :=
  match a with
  | Ret r => Ret (Ok r)
  | Await f =>
      Await (λ s, match f s with Some (s', a') => Some (s', attempt a') | None => None end)
  | Collect reqs c =>
      Collect reqs (λ got, match c got with Some a' => Some (attempt a') | None => None end)
  | Post to body a' => Post to body (attempt a')
  end.

(** A fallible synchronous computation. *)
Definition lift {A} (r : result A) : async St A := Ret r.

(** One atomic update of the node's state; a state is unchanged when it throws. *)
Definition act {A} (f : St → result (A * St)) : async St A :=
  Await (λ s, match f s with
              | Ok (x, s') => Some (s', Ret (Ok x))
              | Throw e => Some (s, Ret (Throw e))
              end).

Definition gets {A} (f : St → result A) : async St A :=
  act (λ s, let! x := f s in Ok (x, s)).

(** The reply to request [i], [None] when it failed or has not settled. *)
Definition reply_of (got : list settlement) (i : nat) : option (list Z) :=
  match list_find (λ x, x.1 = i) got with
  | Some (_, (_, o)) => o
  | None => None
  end.

(** [Promise.all] over requests whose rejections are caught: every reply, in the
    order of the requests. *)
Definition request_all (reqs : list (jsstring * list Z)) : async St (list (option (list Z))) :=
  Collect reqs (λ got,
    if Nat.eqb (length got) (length reqs)
    then Some (Ret (Ok (reply_of got <$> seq 0 (length reqs))))
    else None).

(** [await transport.request(to, body, …)]. *)
Definition request (to : jsstring) (body : list Z) : async St (list Z) :=
  async_bind (request_all [(to, body)]) (λ replies,
    match replies with
    | [Some reply] => Ret (Ok reply)
    | _ => Ret (Throw TransportError)
    end).

Fixpoint post_all (msgs : list (jsstring * list Z)) (a : async St unit) : async St unit :=
  match msgs with
  | [] => a
  | (to, body) :: msgs' => Post to body (post_all msgs' a)
  end.
End programs.

Notation "'await!' x ':=' a 'in' b" := (async_bind a (λ x, b))
  (at level 10, x pattern, a at level 100, b at level 200) : nodeakt_scope.

(** ** Execution of one program without interference *)

(** The settlements, in the order of the requests, at which the program goes on;
    [net to body] is what the request brings back. *)
Fixpoint settle_in_order {B} (net : jsstring → list Z → option (list Z))
    (k : list settlement → option B) (got : list settlement) (i : nat)
    (reqs : list (jsstring * list Z)) : list settlement :=
  match k got, reqs with
  | None, (to, body) :: reqs' => settle_in_order net k (got ++ [(i, net to body)]) (S i) reqs'
  | _, _ => got
  end.

(** The outcome, the final state and the messages posted; [idle] is what the
    node's event loop does when the program has to wait, [None] when that does not
    settle what it waits for. *)
Fixpoint run {St A} (idle : St → St) (net : jsstring → list Z → option (list Z))
    (a : async St A) (s : St) : option (result A * St * list (jsstring * list Z)) :=
  match a with
  | Ret r => Some (r, s, [])
  | Await f =>
      match f s with
      | Some (s', a') => run idle net a' s'
      | None =>
          match f (idle s) with
          | Some (s', a') => run idle net a' s'
          | None => None
          end
      end
  | Collect reqs k =>
      match k (settle_in_order net k [] 0 reqs) with
      | Some a' => run idle net a' s
      | None => None
      end
  | Post to body a' =>
      match run idle net a' s with
      | Some (r, s', out) => Some (r, s', (to, body) :: out)
      | None => None
      end
  end.

Lemma settle_in_order_bind {St A B} net (c : list settlement → option (async St A))
    (k : A → async St B) got i reqs :
  settle_in_order net (λ got, match c got with
                              | Some a' => Some (async_bind a' k) | None => None end) got i reqs
  = settle_in_order net c got i reqs.
Proof.
  revert got i. induction reqs as [|[to body] reqs IH]; intros got i; cbn [settle_in_order];
    destruct (c got); [done..|apply IH].
Qed.

Lemma run_bind {St A B} (idle : St → St) net (a : async St A) (k : A → async St B) s :
  run idle net (async_bind a k) s =
    match run idle net a s with
    | Some (Ok x, s', out) =>
        match run idle net (k x) s' with
        | Some (r, s'', out') => Some (r, s'', out ++ out')
        | None => None
        end
    | Some (Throw e, s', out) => Some (Throw e, s', out)
    | None => None
    end.
Proof.
  revert a s. fix IH 1. intros [[x|e]|f|reqs c|to body a] s; cbn [async_bind run].
  - by destruct (run idle net (k x) s) as [[[r s'] out]|].
  - done.
  - destruct (f s) as [[s' a']|]; [apply IH|].
    destruct (f (idle s)) as [[s' a']|]; [apply IH|done].
  - rewrite settle_in_order_bind. destruct (c _) as [a'|]; [apply IH|done].
  - rewrite IH. destruct (run idle net a s) as [[[[x|e] s'] out]|]; [|done..].
    by destruct (run idle net (k x) s') as [[[r s''] out']|].
Qed.

Lemma run_act {St A} (idle : St → St) net (f : St → result (A * St)) s :
  run idle net (act f) s
  = Some (match f s with Ok (x, s') => (Ok x, s', []) | Throw e => (Throw e, s, []) end).
Proof. cbn. by destruct (f s) as [[x s']|e]. Qed.

Lemma run_gets {St A} (idle : St → St) net (f : St → result A) s : run idle net (gets f) s = Some (f s, s, []).
Proof. unfold gets. rewrite run_act. by destruct (f s). Qed.

Lemma settle_request_all {A} net (f : list settlement → A) (reqs0 reqs : list (jsstring * list Z)) got i :
  length got = i → (i + length reqs = length reqs0)%nat →
  settle_in_order net
    (λ got : list settlement, if Nat.eqb (length got) (length reqs0) then Some (f got) else None)
    got i reqs
  = got ++ imap (λ j m, ((i + j)%nat, net m.1 m.2)) reqs.
Proof.
  revert got i. induction reqs as [|[to body] reqs IH]; intros got i Hg Hi; cbn [settle_in_order].
  - destruct (Nat.eqb_spec (length got) (length reqs0)); by rewrite app_nil_r.
  - cbn in Hi. destruct (Nat.eqb_spec (length got) (length reqs0)) as [|_]; [lia|].
    rewrite IH by (rewrite ?length_app; cbn; lia). rewrite <-app_assoc. f_equal. cbn.
    rewrite Nat.add_0_r. f_equal. apply imap_ext. intros j m _. cbn. f_equal. lia.
Qed.

Lemma reply_of_imap (l : list (option (list Z))) i :
  (i < length l)%nat → Some (reply_of (imap (λ j o, (j, o)) l) i) = l !! i.
Proof.
  intros Hi. destruct (lookup_lt_is_Some_2 l i Hi) as [o Ho]. rewrite Ho. f_equal.
  unfold reply_of.
  match goal with |- context [list_find ?P ?m] =>
    assert (list_find P m = Some (i, (i, o))) as ->; [|done] end.
  apply list_find_Some. rewrite list_lookup_imap, Ho. split; [done|]. split; [done|].
  intros j [j' o'] Hj Hlt. rewrite list_lookup_imap in Hj.
  apply fmap_Some in Hj as (o'' & _ & [= -> ->]). cbn. lia.
Qed.

Lemma run_request_all {St} (idle : St → St) net reqs (s : St) :
  run idle net (request_all reqs) s = Some (Ok ((λ m, net m.1 m.2) <$> reqs), s, []).
Proof.
  unfold request_all. cbn [run]. 
  rewrite (settle_request_all net _ reqs reqs [] 0) by done. cbn [app].
  assert (imap (λ j m, ((0 + j)%nat, net m.1 m.2)) reqs
          = imap (λ j o, (j, o)) ((λ m, net m.1 m.2) <$> reqs)) as ->.
  { rewrite imap_fmap. by apply imap_ext. }
  rewrite length_imap, length_fmap, Nat.eqb_refl. cbn [run]. do 4 f_equal.
  apply list_eq. intros i. destruct (decide (i < length reqs)%nat) as [Hi|Hi].
  - rewrite list_lookup_fmap, lookup_seq_lt by done. cbn.
    apply reply_of_imap. by rewrite length_fmap.
  - rewrite !lookup_ge_None_2; [done|rewrite length_fmap; lia|rewrite length_fmap, length_seq; lia].
Qed.

Lemma run_request {St} (idle : St → St) net to body (s : St) :
  run idle net (request to body) s
  = Some (match net to body with Some r => Ok r | None => Throw TransportError end, s, []).
Proof.
  unfold request. rewrite run_bind, run_request_all. cbn. by destruct (net to body).
Qed.

(** ** The cluster: every interleaving of the nodes' programs *)

Section cluster.
Context {St O : Type}.

(** A program in progress, or one that waits for the settlements of the requests
    of its current [Collect], named by a token. *)
Inductive pstate :=
  | Running (a : async St (O + list Z))
  | Waiting (token : nat) (reqs : list (jsstring * list Z)) (got : list settlement)
      (k : list settlement → option (async St (O + list Z))).

(** Whom a process answers: a local client, or the request of token and position
    it serves with its body; a posted request has none to answer. *)
Inductive origin :=
  | Client
  | Server (to : option (nat * nat)) (body : list Z).

Record proc := MkProc { pr_node : jsstring; pr_origin : origin; pr_state : pstate }.

Record message := MkMessage {
  mg_slot : option (nat * nat); mg_from : jsstring; mg_to : jsstring; mg_body : list Z }.

(** A reply on its way: the slot it settles, who answered, to what, and the bytes. *)
Record reply := MkReply {
  rp_slot : nat * nat; rp_by : jsstring; rp_request : list Z; rp_bytes : list Z }.

(** A node is its state, or [None] once it has crashed. *)
Record cluster := MkCluster {
  nodes : gmap jsstring (option St);
  procs : list proc;
  requests : list message;
  replies : list reply;
  tokens : nat;
  log : list (jsstring * result O) }.

Context (receive : jsstring → list Z → async St (list Z)).
Context (client : jsstring → async St O → Prop).
Context (env : jsstring → St → St → Prop).

Definition set_procs (c : cluster) (ps : list proc) : cluster :=
  MkCluster (nodes c) ps (requests c) (replies c) (tokens c) (log c).

(** What a finished client adds to the log, and a finished server to the replies. *)
Definition logged (n : jsstring) (r : result (O + list Z)) (l : list (jsstring * result O))
    : list (jsstring * result O) :=
  match r with
  | Ok (inl o) => (n, Ok o) :: l
  | Ok (inr _) => l
  | Throw e => (n, Throw e) :: l
  end.

Definition answered (to : option (nat * nat)) (n : jsstring) (body : list Z)
    (r : result (O + list Z)) (rs : list reply) : list reply :=
  match to, r with
  | Some slot, Ok (inr bytes) => MkReply slot n body bytes :: rs
  | _, _ => rs
  end.

Inductive step : cluster → cluster → Prop :=
  | step_client c n s a :
      nodes c !! n = Some (Some s) → client n a →
      step c (set_procs c (MkProc n Client (Running (async_map inl a)) :: procs c))
  | step_await c ps1 ps2 n org f s s' a :
      procs c = ps1 ++ MkProc n org (Running (Await f)) :: ps2 →
      nodes c !! n = Some (Some s) → f s = Some (s', a) →
      step c (MkCluster (<[n := Some s']> (nodes c)) (ps1 ++ MkProc n org (Running a) :: ps2)
                (requests c) (replies c) (tokens c) (log c))
  | step_collect c ps1 ps2 n org reqs k :
      procs c = ps1 ++ MkProc n org (Running (Collect reqs k)) :: ps2 →
      step c (MkCluster (nodes c) (ps1 ++ MkProc n org (Waiting (tokens c) reqs [] k) :: ps2)
                (imap (λ i m, MkMessage (Some (tokens c, i)) n m.1 m.2) reqs ++ requests c)
                (replies c) (S (tokens c)) (log c))
  | step_resume c ps1 ps2 n org t reqs got k a :
      procs c = ps1 ++ MkProc n org (Waiting t reqs got k) :: ps2 → k got = Some a →
      step c (set_procs c (ps1 ++ MkProc n org (Running a) :: ps2))
  | step_reply c ps1 ps2 rs1 rs2 n org t i by_ req reqs got k bytes :
      procs c = ps1 ++ MkProc n org (Waiting t reqs got k) :: ps2 → k got = None →
      replies c = rs1 ++ MkReply (t, i) by_ req bytes :: rs2 →
      reqs !! i = Some (by_, req) → i ∉ got.*1 →
      step c (MkCluster (nodes c)
                (ps1 ++ MkProc n org (Waiting t reqs (got ++ [(i, Some bytes)]) k) :: ps2)
                (requests c) (rs1 ++ rs2) (tokens c) (log c))
  | step_fail c ps1 ps2 n org t i m reqs got k :
      procs c = ps1 ++ MkProc n org (Waiting t reqs got k) :: ps2 → k got = None →
      reqs !! i = Some m → i ∉ got.*1 →
      step c (set_procs c
                (ps1 ++ MkProc n org (Waiting t reqs (got ++ [(i, None)]) k) :: ps2))
  | step_post c ps1 ps2 n org to body a :
      procs c = ps1 ++ MkProc n org (Running (Post to body a)) :: ps2 →
      step c (MkCluster (nodes c) (ps1 ++ MkProc n org (Running a) :: ps2)
                (MkMessage None n to body :: requests c) (replies c) (tokens c) (log c))
  | step_deliver c ms1 ms2 m s :
      requests c = ms1 ++ m :: ms2 → nodes c !! mg_to m = Some (Some s) →
      step c (MkCluster (nodes c)
                (MkProc (mg_to m) (Server (mg_slot m) (mg_body m))
                   (Running (async_map inr (receive (mg_from m) (mg_body m)))) :: procs c)
                (ms1 ++ ms2) (replies c) (tokens c) (log c))
  | step_lose_request c ms1 ms2 m :
      requests c = ms1 ++ m :: ms2 →
      step c (MkCluster (nodes c) (procs c) (ms1 ++ ms2) (replies c) (tokens c) (log c))
  | step_lose_reply c rs1 rs2 r :
      replies c = rs1 ++ r :: rs2 →
      step c (MkCluster (nodes c) (procs c) (requests c) (rs1 ++ rs2) (tokens c) (log c))
  | step_return c ps1 ps2 n r :
      procs c = ps1 ++ MkProc n Client (Running (Ret r)) :: ps2 →
      step c (MkCluster (nodes c) (ps1 ++ ps2) (requests c) (replies c) (tokens c)
                (logged n r (log c)))
  | step_answer c ps1 ps2 n to body r :
      procs c = ps1 ++ MkProc n (Server to body) (Running (Ret r)) :: ps2 →
      step c (MkCluster (nodes c) (ps1 ++ ps2) (requests c)
                (answered to n body r (replies c)) (tokens c) (log c))
  | step_env c n s s' :
      nodes c !! n = Some (Some s) → env n s s' →
      step c (MkCluster (<[n := Some s']> (nodes c)) (procs c) (requests c) (replies c)
                (tokens c) (log c))
  | step_crash c n s :
      nodes c !! n = Some (Some s) →
      step c (MkCluster (<[n := None]> (nodes c)) (filter (λ p, pr_node p ≠ n) (procs c))
                (requests c) (replies c) (tokens c) (log c)).

Definition initial (w : gmap jsstring (option St)) : cluster := MkCluster w [] [] [] 0 [].
Definition reachable (w : gmap jsstring (option St)) : cluster → Prop := rtc step (initial w).
(** *** Executing a schedule *)

(** One scheduling choice: the process or message it picks, by position. *)
Inductive move :=
  | DoClient (n : jsstring) (a : async St O)
  | DoAwait (i : nat)
  | DoCollect (i : nat)
  | DoResume (i : nat)
  | DoReply (i j : nat)
  | DoPost (i : nat)
  | DoDeliver (j : nat)
  | DoReturn (i : nat)
  | DoAnswer (i : nat)
  | DoEnv (n : jsstring) (f : St → St)
  | DoCrash (n : jsstring).

Definition move_ok (m : move) : Prop :=
  match m with
  | DoClient n a => client n a
  | DoEnv n f => ∀ s, env n s (f s)
  | _ => True
  end.

Definition set_proc (c : cluster) (i : nat) (p : proc) : list proc :=
  take i (procs c) ++ p :: drop (S i) (procs c).

Definition perform (m : move) (c : cluster) : option cluster :=
  match m with
  | DoClient n a =>
      if nodes c !! n is Some (Some _)
      then Some (set_procs c (MkProc n Client (Running (async_map inl a)) :: procs c)) else None
  | DoAwait i =>
      if procs c !! i is Some (MkProc n org (Running (Await f))) then
        if nodes c !! n is Some (Some s) then
          if f s is Some (s', a) then
            Some (MkCluster (<[n := Some s']> (nodes c)) (set_proc c i (MkProc n org (Running a)))
                    (requests c) (replies c) (tokens c) (log c))
          else None
        else None
      else None
  | DoCollect i =>
      if procs c !! i is Some (MkProc n org (Running (Collect reqs k))) then
        Some (MkCluster (nodes c) (set_proc c i (MkProc n org (Waiting (tokens c) reqs [] k)))
                (imap (λ i m, MkMessage (Some (tokens c, i)) n m.1 m.2) reqs ++ requests c)
                (replies c) (S (tokens c)) (log c))
      else None
  | DoResume i =>
      if procs c !! i is Some (MkProc n org (Waiting t reqs got k)) then
        if k got is Some a then Some (set_procs c (set_proc c i (MkProc n org (Running a)))) else None
      else None
  | DoReply i j =>
      if procs c !! i is Some (MkProc n org (Waiting t reqs got k)) then
        if replies c !! j is Some (MkReply (t', slot) by_ req bytes) then
          if k got is None then
            if bool_decide (t' = t ∧ reqs !! slot = Some (by_, req) ∧ slot ∉ got.*1) then
              Some (MkCluster (nodes c)
                (set_proc c i (MkProc n org (Waiting t reqs (got ++ [(slot, Some bytes)]) k)))
                (requests c) (take j (replies c) ++ drop (S j) (replies c)) (tokens c) (log c))
            else None
          else None
        else None
      else None
  | DoPost i =>
      if procs c !! i is Some (MkProc n org (Running (Post to body a))) then
        Some (MkCluster (nodes c) (set_proc c i (MkProc n org (Running a)))
                (MkMessage None n to body :: requests c) (replies c) (tokens c) (log c))
      else None
  | DoDeliver j =>
      if requests c !! j is Some m then
        if nodes c !! mg_to m is Some (Some _) then
          Some (MkCluster (nodes c)
            (MkProc (mg_to m) (Server (mg_slot m) (mg_body m))
               (Running (async_map inr (receive (mg_from m) (mg_body m)))) :: procs c)
            (take j (requests c) ++ drop (S j) (requests c)) (replies c) (tokens c) (log c))
        else None
      else None
  | DoReturn i =>
      if procs c !! i is Some (MkProc n Client (Running (Ret r))) then
        Some (MkCluster (nodes c) (take i (procs c) ++ drop (S i) (procs c)) (requests c) (replies c)
                (tokens c)
                (logged n r (log c)))
      else None
  | DoAnswer i =>
      if procs c !! i is Some (MkProc n (Server to body) (Running (Ret r))) then
        Some (MkCluster (nodes c) (take i (procs c) ++ drop (S i) (procs c)) (requests c)
                (answered to n body r (replies c)) (tokens c) (log c))
      else None
  | DoEnv n f =>
      if nodes c !! n is Some (Some s) then
        Some (MkCluster (<[n := Some (f s)]> (nodes c)) (procs c) (requests c) (replies c)
                (tokens c) (log c))
      else None
  | DoCrash n =>
      if nodes c !! n is Some (Some s) then
        Some (MkCluster (<[n := None]> (nodes c)) (filter (λ p, pr_node p ≠ n) (procs c))
                (requests c) (replies c) (tokens c) (log c))
      else None
  end.

Fixpoint schedule (ms : list move) (c : cluster) : option cluster :=
  match ms with
  | [] => Some c
  | m :: ms' => if perform m c is Some c' then schedule ms' c' else None
  end.

Lemma perform_step m c c' : move_ok m → perform m c = Some c' → step c c'.
Proof.
  intros Hm H. destruct m; cbn [perform] in H; unfold set_proc in H;
    repeat (case_match; try done); simplify_eq;
    try match goal with E : procs c !! _ = Some _ |- _ => apply take_drop_middle in E end.
  - by eapply step_client.
  - by eapply step_await.
  - by eapply step_collect.
  - by eapply step_resume.
  - match goal with E : bool_decide _ = true |- _ =>
      apply bool_decide_eq_true in E as (-> & ? & ?) end. eapply step_reply; [done|done| |done|done].
    symmetry. by apply take_drop_middle.
  - by eapply step_post.
  - eapply step_deliver; [|done]. symmetry. by apply take_drop_middle.
  - by eapply step_return.
  - by eapply step_answer.
  - by eapply step_env.
  - by eapply step_crash.
Qed.

Lemma schedule_rtc ms c0 c : Forall move_ok ms → schedule ms c0 = Some c → rtc step c0 c.
Proof.
  revert c0. induction ms as [|m ms IH]; intros c0 Hms H; cbn in H.
  { injection H as <-. apply rtc_refl. }
  apply Forall_cons in Hms as [Hm Hms]. destruct (perform m c0) as [c1|] eqn:E; [|done].
  eapply rtc_l; [by eapply perform_step|]. by apply IH.
Qed.

Lemma schedule_reachable ms w c :
  Forall move_ok ms → schedule ms (initial w) = Some c → reachable w c.
Proof. apply schedule_rtc. Qed.
End cluster.

(** ** A program logic for lasting facts *)

Section logic.
Context {St O : Type}.
(** What holds of a node between its atomic steps, and how its state may move. *)
Context (Inv : jsstring → St → Prop) (le : St → St → Prop) `{!PreOrder le}.
(** What a sender guarantees of a request and a responder of its reply. *)
Context (send_ok : jsstring → list Z → Prop).
Context (reply_ok : gmap jsstring (option St) → jsstring → list Z → list Z → Prop).

Definition node_le (o o' : option St) : Prop :=
  match o, o' with
  | Some s, Some s' => le s s'
  | None, Some _ => False
  | _, None => True
  end.

(** Every node is still there, further on or crashed. *)
Definition world_le (w w' : gmap jsstring (option St)) : Prop :=
  ∀ n o, w !! n = Some o → ∃ o', w' !! n = Some o' ∧ node_le o o'.

#[global] Instance node_le_preorder : PreOrder node_le.
Proof.
  split.
  - intros [s|]; cbn; [reflexivity|done].
  - intros [s|] [s'|] [s''|]; cbn; try done. intros. by etrans.
Qed.

#[global] Instance world_le_preorder : PreOrder world_le.
Proof.
  split.
  - intros w n o Hn. exists o. split; [done|reflexivity].
  - intros w1 w2 w3 H12 H23 n o Hn. destruct (H12 n o Hn) as (o2 & Hn2 & Hle).
    destruct (H23 n o2 Hn2) as (o3 & Hn3 & Hle3). exists o3. split; [done|]. by etrans.
Qed.

Lemma world_le_insert w n o o' : w !! n = Some o → node_le o o' → world_le w (<[n := o']> w).
Proof.
  intros Hn Hle m om Hm. destruct (decide (m = n)) as [->|].
  - exists o'. rewrite lookup_insert_eq. split; [done|]. by simplify_eq.
  - exists om. rewrite lookup_insert_ne by done. split; [done|reflexivity].
Qed.

(** A settlement consistent with the requests, its reply vouched for. *)
Definition settled_ok (w : gmap jsstring (option St)) (reqs : list (jsstring * list Z))
    (x : settlement) : Prop :=
  ∃ to body, reqs !! x.1 = Some (to, body) ∧ ∀ bytes, x.2 = Some bytes → reply_ok w to body bytes.

Definition got_ok w reqs (got : list settlement) : Prop :=
  NoDup got.*1 ∧ Forall (settled_ok w reqs) got.

(** The weakest precondition of a program at node [n] in world [w]: under any
    interference, what it sends is right, it keeps the node's invariant, and it
    ends with [Φ]. *)
Fixpoint wp {A} (n : jsstring) (a : async St A)
    (Φ : gmap jsstring (option St) → result A → Prop) (w : gmap jsstring (option St)) : Prop :=
  match a with
  | Ret r => Φ w r
  | Await f =>
      ∀ w' s, world_le w w' → w' !! n = Some (Some s) → Inv n s →
        match f s with
        | None => True
        | Some (s', a') => Inv n s' ∧ le s s' ∧ wp n a' Φ (<[n := Some s']> w')
        end
  | Collect reqs k =>
      Forall (λ m, send_ok m.1 m.2) reqs
      ∧ ∀ w' got, world_le w w' → got_ok w' reqs got →
        match k got with None => True | Some a' => wp n a' Φ w' end
  | Post to body a' => send_ok to body ∧ wp n a' Φ w
  end.

Definition lasting {A} (Φ : gmap jsstring (option St) → result A → Prop) : Prop :=
  ∀ w w' r, world_le w w' → Φ w r → Φ w' r.

Lemma wp_world {A} n (a : async St A) Φ w w' :
  lasting Φ → world_le w w' → wp n a Φ w → wp n a Φ w'.
Proof.
  intros HΦ. revert a w w'. fix IH 1. intros [r|f|reqs k|to body a] w w' Hw; cbn [wp].
  - by apply HΦ.
  - intros H w2 s Hw2. apply H. by etrans.
  - intros [Hs H]. split; [done|]. intros w2 got Hw2. apply H. by etrans.
  - intros [Hs H]. split; [done|]. by apply (IH a w w').
Qed.

Lemma wp_bind {A B} n (a : async St A) (k : A → async St B) Φ w :
  wp n a (λ w r, match r with Ok x => wp n (k x) Φ w | Throw e => Φ w (Throw e) end) w →
  wp n (async_bind a k) Φ w.
Proof.
  revert a w. fix IH 1. intros [[x|e]|f|reqs c|to body a] w; cbn [wp async_bind].
  - done.
  - done.
  - intros H w' s Hw Hs HI. specialize (H w' s Hw Hs HI).
    destruct (f s) as [[s' a']|]; [|done]. destruct H as (? & ? & H). split; [done|].
    split; [done|]. by apply IH.
  - intros [Hs H]. split; [done|]. intros w' got Hw Hg. specialize (H w' got Hw Hg).
    destruct (c got) as [a'|]; [|done]. by apply IH.
  - intros [Hs H]. split; [done|]. by apply IH.
Qed.

Lemma wp_mono {A} n (a : async St A) (Φ Ψ : _ → _ → Prop) w :
  (∀ w r, Φ w r → Ψ w r) → wp n a Φ w → wp n a Ψ w.
Proof.
  intros HΦ. revert a w. fix IH 1. intros [r|f|reqs c|to body a] w; cbn [wp].
  - apply HΦ.
  - intros H w' s Hw Hs HI. specialize (H w' s Hw Hs HI).
    destruct (f s) as [[s' a']|]; [|done]. destruct H as (? & ? & H). split; [done|].
    split; [done|]. by apply (IH a').
  - intros [Hs H]. split; [done|]. intros w' got Hw Hg. specialize (H w' got Hw Hg).
    destruct (c got) as [a'|]; [|done]. by apply (IH a').
  - intros [Hs H]. split; [done|]. by apply (IH a).
Qed.

Lemma wp_act {A} n (f : St → result (A * St)) (Φ : _ → _ → Prop) w :
  (∀ w' s, world_le w w' → w' !! n = Some (Some s) → Inv n s →
     match f s with
     | Ok (x, s') => Inv n s' ∧ le s s' ∧ Φ (<[n := Some s']> w') (Ok x)
     | Throw e => Φ w' (Throw e)
     end) →
  wp n (act f) Φ w.
Proof.
  intros H w' s Hw Hs HI. specialize (H w' s Hw Hs HI). destruct (f s) as [[x s']|e]; [done|].
  split; [done|]. split; [reflexivity|]. cbn [wp]. by rewrite insert_id.
Qed.

Lemma wp_gets {A} n (f : St → result A) (Φ : _ → _ → Prop) w :
  (∀ w' s, world_le w w' → w' !! n = Some (Some s) → Inv n s → Φ w' (f s)) →
  wp n (gets f) Φ w.
Proof.
  intros H. apply wp_act. intros w' s Hw Hs HI. specialize (H w' s Hw Hs HI).
  destruct (f s) as [x|e]; [|done]. cbn. split; [done|]. split; [reflexivity|].
  by rewrite insert_id.
Qed.

Lemma wp_request n to body (Φ : _ → _ → Prop) w :
  send_ok to body →
  (∀ w' bytes, world_le w w' → reply_ok w' to body bytes → Φ w' (Ok bytes)) →
  (∀ w', world_le w w' → Φ w' (Throw TransportError)) →
  wp n (request to body) Φ w.
Proof.
  intros Hs Hok Hno. unfold request. apply wp_bind. cbn [request_all wp]. split; [by constructor|].
  intros w' got Hw [Hnd Hgot].
  destruct (Nat.eqb_spec (length got) (length [(to, body)])) as [Hl|]; [|done]. cbn in Hl.
  destruct got as [|[i o] [|]]; [done| |done]. cbn [wp].
  apply Forall_cons in Hgot as [(to' & body' & Hi & Hb) _]. cbn in Hi, Hb.
  destruct i as [|i]; [|by destruct i]. cbn in Hi. injection Hi as <- <-. cbn.
  destruct o as [bytes|]; cbn; [apply Hok|apply Hno]; auto.
Qed.

Lemma wp_request_all n reqs (Φ : _ → _ → Prop) w :
  Forall (λ m, send_ok m.1 m.2) reqs →
  (∀ w' os, world_le w w' → length os = length reqs → Φ w' (Ok os)) →
  wp n (request_all reqs) Φ w.
Proof.
  intros Hs H. cbn [request_all wp]. split; [done|]. intros w' got Hw Hg.
  destruct (Nat.eqb _ _); [|done]. cbn [wp]. apply H; [done|].
  by rewrite length_fmap, length_seq.
Qed.

(** *** Adequacy *)

Context (receive : jsstring → list Z → async St (list Z)).
Context (client : jsstring → async St O → Prop) (env : jsstring → St → St → Prop).
Context (outcome_ok : jsstring → gmap jsstring (option St) → O → Prop).
Context (Hreply : ∀ w w' by_ req bytes,
  world_le w w' → reply_ok w by_ req bytes → reply_ok w' by_ req bytes).
Context (Houtcome : ∀ w w' n o, world_le w w' → outcome_ok n w o → outcome_ok n w' o).
Context (Henv : ∀ n s s', env n s s' → Inv n s → Inv n s' ∧ le s s').
Context (Hreceive : ∀ n from body w, send_ok n body →
  wp n (receive from body) (λ w r, ∀ bytes, r = Ok bytes → reply_ok w n body bytes) w).
Context (Hclient : ∀ n a w, client n a →
  wp n a (λ w r, ∀ o, r = Ok o → outcome_ok n w o) w).

(** What a process ends with. *)
Definition goal (n : jsstring) (org : origin) (w : gmap jsstring (option St))
    (r : result (O + list Z)) : Prop :=
  match org with
  | Client => ∀ o, r = Ok (inl o) → outcome_ok n w o
  | Server _ body => ∀ bytes, r = Ok (inr bytes) → reply_ok w n body bytes
  end.

Lemma goal_lasting n org : lasting (goal n org).
Proof.
  intros w w' r Hw. destruct org; cbn; intros H x Hx; [eapply Houtcome|eapply Hreply]; eauto.
Qed.

Definition proc_ok (w : gmap jsstring (option St)) (p : proc) : Prop :=
  match pr_state p with
  | Running a => wp (pr_node p) a (goal (pr_node p) (pr_origin p)) w
  | Waiting _ reqs got k =>
      got_ok w reqs got
      ∧ ∀ w' got', world_le w w' → got_ok w' reqs got' →
        match k got' with
        | None => True
        | Some a => wp (pr_node p) a (goal (pr_node p) (pr_origin p)) w'
        end
  end.

Record cluster_ok (c : cluster) : Prop := {
  co_nodes : ∀ n s, nodes c !! n = Some (Some s) → Inv n s;
  co_procs : Forall (proc_ok (nodes c)) (procs c);
  co_requests : Forall (λ m, send_ok (mg_to m) (mg_body m)) (requests c);
  co_replies : Forall (λ r, reply_ok (nodes c) (rp_by r) (rp_request r) (rp_bytes r)) (replies c);
  co_log : Forall (λ x, ∀ o, x.2 = Ok o → outcome_ok x.1 (nodes c) o) (log c) }.

Lemma got_ok_world w w' reqs got : world_le w w' → got_ok w reqs got → got_ok w' reqs got.
Proof.
  intros Hw [Hnd H]. split; [done|]. eapply Forall_impl; [exact H|].
  intros x (to & body & Hx & Hb). exists to, body. split; [done|].
  intros bytes Hbytes. eapply Hreply; eauto.
Qed.

Lemma proc_ok_world w w' p : world_le w w' → proc_ok w p → proc_ok w' p.
Proof.
  intros Hw. unfold proc_ok. destruct (pr_state p) as [a|t reqs got k].
  - by apply wp_world; [apply goal_lasting|].
  - intros [Hg H]. split; [by eapply got_ok_world|]. intros w2 got' Hw2. apply H. by etrans.
Qed.

(** The parts that only depend on the nodes survive their progress. *)
Lemma cluster_ok_world c w ps ms rs t l :
  cluster_ok c → world_le (nodes c) w → (∀ n s, w !! n = Some (Some s) → Inv n s) →
  Forall (proc_ok w) ps → Forall (λ m, send_ok (mg_to m) (mg_body m)) ms →
  (∀ r, r ∈ rs → r ∈ replies c ∨ reply_ok w (rp_by r) (rp_request r) (rp_bytes r)) →
  (∀ x, x ∈ l → x ∈ log c ∨ ∀ o, x.2 = Ok o → outcome_ok x.1 w o) →
  cluster_ok (MkCluster w ps ms rs t l).
Proof.
  intros [_ _ _ Hr Hl] Hw HI Hps Hms Hrs Hls. split; cbn; [done..| |].
  - rewrite Forall_forall in *. intros r [Hin|?]%Hrs; [|done].
    eapply Hreply; [done|]. by apply Hr.
  - rewrite Forall_forall in *. intros x [Hin|?]%Hls; [|done]. intros o Ho.
    eapply Houtcome; [done|]. by apply Hl.
Qed.

Lemma wp_inject {A B} n (g : A → B) (a : async St A) (Φ : _ → result B → Prop) w :
  wp n a (λ w r, Φ w (match r with Ok x => Ok (g x) | Throw e => Throw e end)) w →
  wp n (async_map g a) Φ w.
Proof. intros H. apply wp_bind. eapply wp_mono; [|exact H]. by intros w' [x|e]. Qed.

(** Replacing one process and leaving the nodes alone. *)
Lemma cluster_ok_procs c ps1 p ps2 ps ms rs t l :
  cluster_ok c → procs c = ps1 ++ p :: ps2 →
  (proc_ok (nodes c) p → Forall (proc_ok (nodes c)) ps) →
  (proc_ok (nodes c) p → Forall (λ m, send_ok (mg_to m) (mg_body m)) ms) →
  (∀ r, r ∈ rs → r ∈ replies c
     ∨ (proc_ok (nodes c) p → reply_ok (nodes c) (rp_by r) (rp_request r) (rp_bytes r))) →
  (∀ x, x ∈ l → x ∈ log c ∨ (proc_ok (nodes c) p → ∀ o, x.2 = Ok o → outcome_ok x.1 (nodes c) o)) →
  cluster_ok (MkCluster (nodes c) (ps1 ++ ps ++ ps2) ms rs t l).
Proof.
  intros Hc Hps Hp Hm Hr Hl. pose proof (co_procs c Hc) as Hall. rewrite Hps in Hall.
  apply Forall_app in Hall as [H1 [Hpp H2]%Forall_cons].
  apply (cluster_ok_world c); [done|reflexivity|apply Hc| |by apply Hm|..].
  - apply Forall_app. split; [done|]. apply Forall_app. split; [by apply Hp|done].
  - intros r [?|?]%Hr; auto.
  - intros x [?|?]%Hl; auto.
Qed.

Lemma cluster_ok_node c n s s' :
  cluster_ok c → nodes c !! n = Some (Some s) → Inv n s' → le s s' →
  let w := <[n := Some s']> (nodes c) in
  world_le (nodes c) w ∧ (∀ m sm, w !! m = Some (Some sm) → Inv m sm).
Proof.
  intros Hc Hn HI Hle w. split; [by eapply world_le_insert|].
  intros m sm. unfold w. destruct (decide (m = n)) as [->|].
  - rewrite lookup_insert_eq. by intros [= <-].
  - rewrite lookup_insert_ne by done. apply Hc.
Qed.

Lemma step_ok_nodes c n s s' ps :
  cluster_ok c → nodes c !! n = Some (Some s) → Inv n s' → le s s' →
  (∀ w, w = <[n := Some s']> (nodes c) → world_le (nodes c) w → Forall (proc_ok w) ps) →
  cluster_ok (MkCluster (<[n := Some s']> (nodes c)) ps (requests c) (replies c) (tokens c) (log c)).
Proof.
  intros Hc Hn HI Hle Hps. destruct (cluster_ok_node c n s s' Hc Hn HI Hle) as [Hw Hnodes].
  apply (cluster_ok_world c); [done..|by apply Hps|apply Hc|auto|auto].
Qed.

Lemma step_ok_env c n s s' :
  cluster_ok c → nodes c !! n = Some (Some s) → env n s s' →
  cluster_ok (MkCluster (<[n := Some s']> (nodes c)) (procs c) (requests c) (replies c)
                (tokens c) (log c)).
Proof.
  intros Hc Hn He. destruct (Henv n s s' He) as [HI Hle]; [by apply Hc|].
  apply (step_ok_nodes c n s s'); [done..|]. intros w -> Hw.
  eapply Forall_impl; [apply Hc|]. intros p. by apply proc_ok_world.
Qed.

Lemma step_ok_crash c n s :
  cluster_ok c → nodes c !! n = Some (Some s) →
  cluster_ok (MkCluster (<[n := None]> (nodes c)) (filter (λ p, pr_node p ≠ n) (procs c))
                (requests c) (replies c) (tokens c) (log c)).
Proof.
  intros Hc Hn. assert (world_le (nodes c) (<[n := None]> (nodes c))) as Hw
    by (by eapply world_le_insert).
  apply (cluster_ok_world c); [done..| | |apply Hc|auto|auto].
  - intros m sm. destruct (decide (m = n)) as [->|].
    + by rewrite lookup_insert_eq.
    + rewrite lookup_insert_ne by done. apply Hc.
  - apply Forall_forall. intros p [_ Hp]%list_elem_of_filter.
    eapply proc_ok_world; [done|]. pose proof (co_procs c Hc) as Hps.
    rewrite Forall_forall in Hps. by apply Hps.
Qed.

Lemma step_ok_await c ps1 ps2 n org f s s' a :
  cluster_ok c → procs c = ps1 ++ MkProc n org (Running (Await f)) :: ps2 →
  nodes c !! n = Some (Some s) → f s = Some (s', a) →
  cluster_ok (MkCluster (<[n := Some s']> (nodes c)) (ps1 ++ MkProc n org (Running a) :: ps2)
                (requests c) (replies c) (tokens c) (log c)).
Proof.
  intros Hc Hps Hn Hf. pose proof (co_procs c Hc) as Hall. rewrite Hps in Hall.
  apply Forall_app in Hall as [H1 [Hp H2]%Forall_cons]. cbn in Hp.
  specialize (Hp (nodes c) s ltac:(reflexivity) Hn ltac:(by apply Hc)).
  rewrite Hf in Hp. destruct Hp as (HI & Hle & Hwp).
  apply (step_ok_nodes c n s s'); [done..|]. intros w -> Hw.
  apply Forall_app. split; [|apply Forall_cons; split; [exact Hwp|]];
    (eapply Forall_impl; [eassumption|]); intros p; by apply proc_ok_world.
Qed.

Lemma Forall_imap {A B} (P : B → Prop) (f : nat → A → B) (l : list A) :
  (∀ i x, l !! i = Some x → P (f i x)) → Forall P (imap f l).
Proof.
  intros H. apply Forall_lookup. intros i y Hy. rewrite list_lookup_imap in Hy.
  apply fmap_Some in Hy as (x & Hx & ->). by apply H.
Qed.

Lemma got_ok_snoc w reqs got i o to body :
  got_ok w reqs got → i ∉ got.*1 → reqs !! i = Some (to, body) →
  (∀ bytes, o = Some bytes → reply_ok w to body bytes) → got_ok w reqs (got ++ [(i, o)]).
Proof.
  intros [Hnd Hg] Hi Hr Ho. split.
  - rewrite fmap_app. apply NoDup_app. split; [done|]. split; [|apply NoDup_singleton].
    intros x Hx ->%list_elem_of_singleton. done.
  - apply Forall_app. split; [done|]. apply Forall_singleton. by exists to, body.
Qed.

Lemma step_preserves c c' : cluster_ok c → step receive client env c c' → cluster_ok c'.
Proof.
  intros Hc Hstep. pose proof (co_requests c Hc) as Hms. pose proof (co_replies c Hc) as Hrs.
  destruct Hstep; subst; [..|by eapply step_ok_env|by eapply step_ok_crash]; unfold set_procs.
  - apply (cluster_ok_world c); [done|reflexivity|apply Hc| |done|auto|auto].
    constructor; [|apply Hc]. apply wp_inject. eapply wp_mono; [|by apply Hclient].
    intros w [x|e] Hx o; cbn; [|done]. intros [= ->]. by apply Hx.
  - by eapply step_ok_await.
  - apply (cluster_ok_procs c ps1 _ ps2 [_] _ _ _ _ Hc H); [..|auto|auto]; intros [Hs Hk].
    + constructor; [|done]. split; [|exact Hk]. split; constructor.
    + apply Forall_app. split; [|done]. apply Forall_imap. intros i [to body] Hm.
      rewrite Forall_forall in Hs. apply (Hs (to, body)). by eapply list_elem_of_lookup_2.
  - apply (cluster_ok_procs c ps1 _ ps2 [_] _ _ _ _ Hc H); [|done|auto|auto].
    intros [Hg Hk]. constructor; [|done]. specialize (Hk (nodes c) got ltac:(reflexivity) Hg).
    by rewrite H0 in Hk.
  - apply (cluster_ok_procs c ps1 _ ps2 [_] _ _ _ _ Hc H); [|done|..|auto].
    + intros [Hg Hk]. constructor; [|done]. split; [|exact Hk].
      eapply got_ok_snoc; [done..|]. intros ? [= <-]. rewrite H1 in Hrs.
      apply Forall_app in Hrs as [_ [Hr _]%Forall_cons]. exact Hr.
    + intros r Hr. left. rewrite H1. set_solver.
  - apply (cluster_ok_procs c ps1 _ ps2 [_] _ _ _ _ Hc H); [|done|auto|auto].
    intros [Hg Hk]. constructor; [|done]. split; [|exact Hk]. destruct m as [to body].
    by eapply got_ok_snoc.
  - apply (cluster_ok_procs c ps1 _ ps2 [_] _ _ _ _ Hc H); [..|auto|auto]; intros [Hs Hk].
    + by constructor.
    + by constructor.
  - rewrite H in Hms. apply Forall_app in Hms as [Hm1 [Hm Hm2]%Forall_cons].
    apply (cluster_ok_world c); [done|reflexivity|apply Hc| |by apply Forall_app|auto|auto].
    constructor; [|apply Hc]. apply wp_inject. eapply wp_mono; [|by apply Hreceive].
    intros w [x|e] H' bytes; cbn; [|done]. intros [= ->]. by apply H'.
  - rewrite H in Hms. apply Forall_app in Hms as [Hm1 [Hm Hm2]%Forall_cons].
    apply (cluster_ok_world c); [done|reflexivity|apply Hc|apply Hc|by apply Forall_app|auto|auto].
  - apply (cluster_ok_world c); [done|reflexivity|apply Hc|apply Hc|done| |auto].
    intros x Hx. left. rewrite H. set_solver.
  - apply (cluster_ok_procs c ps1 _ ps2 [] _ _ _ _ Hc H); [by constructor|done|auto|].
    intros x Hx. destruct r as [[o|b]|e]; [|by left|];
      (apply elem_of_cons in Hx as [->|Hx]; [right|by left]); [|done].
    intros Hp o' [= <-]. by apply Hp.
  - apply (cluster_ok_procs c ps1 _ ps2 [] _ _ _ _ Hc H); [by constructor|done| |auto].
    intros x Hx. destruct to as [slot|]; [|by left]. destruct r as [[o|b]|e]; [by left| |by left].
    apply elem_of_cons in Hx as [->|Hx]; [right|by left]. intros Hp. by apply Hp.
Qed.

(** Every outcome a client of a reachable cluster observed is vouched for. *)
Theorem adequacy w c n o :
  (∀ n s, w !! n = Some (Some s) → Inv n s) →
  reachable receive client env w c → (n, Ok o) ∈ log c → outcome_ok n (nodes c) o.
Proof.
  intros HI Hreach Hin.
  assert (cluster_ok (initial w)) as H0 by (split; cbn; [done|constructor..]).
  assert (cluster_ok c) as Hc.
  { clear Hin. unfold reachable in Hreach. remember (initial w) as c0 eqn:E. clear E.
    induction Hreach; [done|]. apply IHHreach. by eapply step_preserves. }
  pose proof (co_log c Hc) as Hl. rewrite Forall_forall in Hl. by apply (Hl (n, Ok o)).
Qed.
End logic.
