(* ===== verification/ByteIO.v ===== *)
(** * Byte sinks and sources ([src/kv/wire.ts]: ByteWriter, ByteReader)

    [ByteSink] is the interface the codec's writers are written against: a sink
    appends big-endian fields and gives back what was written.  [ByteWriter], with
    its doubling buffer, is shown to implement it.  [ByteReader] is the
    bounds-checked cursor the readers run on.  [roundtrips] relates a writer to the
    reader of the same value and composes. *)
From S2P Require Import Prelude JsNumber JsString.

(** ** The sink interface *)

Class ByteSink (W : Type) := {
  sink_u8 : Z → W → W;
  sink_u16 : Z → W → W;
  sink_u32 : Z → W → W;
  sink_u64 : Z → W → W;
  sink_i64 : Z → W → W;
  sink_raw : list Z → W → W;
  sink_finish : W → list Z }.

(** What a sink promises: every write appends the field and nothing else. *)
Class ByteSinkLaws (W : Type) `{ByteSink W} := {
  sink_ok : W → Prop;
  sink_u8_law v w : sink_ok w → sink_ok (sink_u8 v w)
    ∧ sink_finish (sink_u8 v w) = sink_finish w ++ be_encode 1 v;
  sink_u16_law v w : sink_ok w → sink_ok (sink_u16 v w)
    ∧ sink_finish (sink_u16 v w) = sink_finish w ++ be_encode 2 v;
  sink_u32_law v w : sink_ok w → sink_ok (sink_u32 v w)
    ∧ sink_finish (sink_u32 v w) = sink_finish w ++ be_encode 4 v;
  sink_u64_law v w : sink_ok w → sink_ok (sink_u64 v w)
    ∧ sink_finish (sink_u64 v w) = sink_finish w ++ be_encode 8 v;
  sink_i64_law v w : sink_ok w → sink_ok (sink_i64 v w)
    ∧ sink_finish (sink_i64 v w) = sink_finish w ++ be_encode 8 v;
  sink_raw_law bs w : sink_ok w → sink_ok (sink_raw bs w)
    ∧ sink_finish (sink_raw bs w) = sink_finish w ++ bs }.

(** ** [ByteWriter] *)

Record ByteWriter := MkWriter { wr_bytes : list Z; wr_offset : nat }.

Definition new_ByteWriter (capacity : nat) : ByteWriter :=
  MkWriter (replicate (Nat.max 1 capacity) 0) 0.

(** The doubling loop of [#ensure]: from a positive capacity, [required] doublings
    are more than enough. *)
Fixpoint grow_capacity (fuel capacity required : nat) : nat :=
  match fuel with
  | O => capacity
  | S fuel' =>
      if Nat.ltb capacity required then grow_capacity fuel' (capacity * 2) required
      else capacity
  end.

(** [typedArray.set(src, offset)]: overwrites in place; the source fits. *)
Definition bytes_set (dst src : list Z) (offset : nat) : list Z :=
  take offset dst ++ src ++ drop (offset + length src) dst.

Definition wr_ensure (w : ByteWriter) (extra : nat) : ByteWriter :=
  let required := (wr_offset w + extra)%nat in
  if Nat.leb required (length (wr_bytes w)) then w
  else
    let capacity := grow_capacity required (length (wr_bytes w) * 2) required in
    MkWriter (bytes_set (replicate capacity 0) (wr_bytes w) 0) (wr_offset w).

(** Stores the bytes at the offset and advances it: the [DataView] setters with the
    bytes of the field, and [raw]. *)
Definition wr_put (w : ByteWriter) (bs : list Z) : ByteWriter :=
  let w := wr_ensure w (length bs) in
  MkWriter (bytes_set (wr_bytes w) bs (wr_offset w)) (wr_offset w + length bs).

Definition wr_u8 (v : Z) (w : ByteWriter) : ByteWriter := wr_put w (be_encode 1 v).
Definition wr_u16 (v : Z) (w : ByteWriter) : ByteWriter := wr_put w (be_encode 2 v).
Definition wr_u32 (v : Z) (w : ByteWriter) : ByteWriter := wr_put w (be_encode 4 v).
Definition wr_u64 (v : Z) (w : ByteWriter) : ByteWriter := wr_put w (be_encode 8 v).
Definition wr_i64 (v : Z) (w : ByteWriter) : ByteWriter := wr_put w (be_encode 8 v).
Definition wr_raw (bs : list Z) (w : ByteWriter) : ByteWriter := wr_put w bs.
Definition wr_finish (w : ByteWriter) : list Z := take (wr_offset w) (wr_bytes w).

#[global] Instance ByteWriter_sink : ByteSink ByteWriter := {|
  sink_u8 := wr_u8; sink_u16 := wr_u16; sink_u32 := wr_u32; sink_u64 := wr_u64;
  sink_i64 := wr_i64; sink_raw := wr_raw; sink_finish := wr_finish |}.

(** The offset stays inside the buffer, whose capacity is never zero. *)
Definition writer_ok (w : ByteWriter) : Prop :=
  (wr_offset w ≤ length (wr_bytes w) ∧ 0 < length (wr_bytes w))%nat.

Lemma grow_capacity_spec fuel c required :
  (0 < c → required ≤ c + fuel → required ≤ grow_capacity fuel c required
   ∧ c ≤ grow_capacity fuel c required)%nat.
Proof.
  revert c. induction fuel as [|fuel IH]; intros c Hc Hr; cbn [grow_capacity]; [lia|].
  destruct (Nat.ltb_spec c required); [|lia]. destruct (IH (c * 2)%nat); lia.
Qed.

Lemma wr_ensure_spec w extra :
  writer_ok w →
  let w' := wr_ensure w extra in
  writer_ok w' ∧ wr_offset w' = wr_offset w ∧ wr_finish w' = wr_finish w
  ∧ (wr_offset w + extra ≤ length (wr_bytes w'))%nat.
Proof.
  intros [Ho Hl]. cbv zeta. unfold wr_ensure.
  destruct (Nat.leb_spec (wr_offset w + extra) (length (wr_bytes w))) as [Hle|Hgt]; [done|].
  destruct (grow_capacity_spec (wr_offset w + extra) (length (wr_bytes w) * 2)
    (wr_offset w + extra)) as [Hc1 Hc2]; [lia..|].
  set (c := grow_capacity _ _ _) in *. unfold bytes_set. rewrite take_0. cbn [app].
  rewrite Nat.add_0_l, drop_replicate. unfold writer_ok, wr_finish. cbn [wr_bytes wr_offset].
  rewrite length_app, length_replicate. split; [lia|]. split; [done|].
  split; [by rewrite take_app_le by lia|lia].
Qed.

(** Every write appends. *)
Lemma wr_put_spec w bs :
  writer_ok w → writer_ok (wr_put w bs) ∧ wr_finish (wr_put w bs) = wr_finish w ++ bs.
Proof.
  intros Hw. destruct (wr_ensure_spec w (length bs) Hw) as ([Ho Hl] & Hoff & Hfin & Hroom).
  unfold wr_put. set (w1 := wr_ensure w (length bs)) in *.
  unfold bytes_set, writer_ok, wr_finish. cbn [wr_bytes wr_offset].
  rewrite Hoff in *. split.
  - rewrite !length_app, length_take, length_drop. lia.
  - rewrite app_assoc, take_app_le by (rewrite length_app, length_take; lia).
    rewrite take_ge by (rewrite length_app, length_take; lia).
    unfold wr_finish in Hfin. by rewrite <-Hfin, Hoff.
Qed.

#[global] Program Instance ByteWriter_laws : ByteSinkLaws ByteWriter := {|
  sink_ok := writer_ok |}.
Next Obligation. intros. by apply wr_put_spec. Qed.
Next Obligation. intros. by apply wr_put_spec. Qed.
Next Obligation. intros. by apply wr_put_spec. Qed.
Next Obligation. intros. by apply wr_put_spec. Qed.
Next Obligation. intros. by apply wr_put_spec. Qed.
Next Obligation. intros. by apply wr_put_spec. Qed.

Lemma new_ByteWriter_ok c : writer_ok (new_ByteWriter c) ∧ wr_finish (new_ByteWriter c) = [].
Proof. unfold writer_ok, new_ByteWriter, wr_finish. cbn. rewrite length_replicate. split; [lia|done]. Qed.

(** ** [ByteReader] *)

Record ByteReader := MkReader { rd_bytes : list Z; rd_offset : nat }.

Definition new_ByteReader (bytes : list Z) : ByteReader := MkReader bytes 0.

(** A method of the reader: its value and the reader with the offset advanced. *)
Definition Reader (A : Type) : Type := ByteReader → result (A * ByteReader).

#[global] Instance Reader_ret : MRet Reader := λ A a r, Ok (a, r).
#[global] Instance Reader_bind : MBind Reader := λ A B k m r,
  match m r with
  | Ok (a, r') => k a r'
  | Throw e => Throw e
  end.

(** [fail(message)] inside a decode path. *)
Definition rd_fail {A} (message : string) : Reader A := λ _, Throw (KvProtocolError message).

Definition rd_guard (ok : bool) (message : string) : Reader unit :=
  λ r, if ok then Ok (tt, r) else Throw (KvProtocolError message).

Definition remaining (r : ByteReader) : nat := length (rd_bytes r) - rd_offset r.

(** [take], with the check of [#require] first. *)
Definition rd_take (count : nat) : Reader (list Z) := λ r,
  if Nat.ltb (remaining r) count then Throw (KvProtocolError "unexpected end of input")
  else Ok (take count (drop (rd_offset r) (rd_bytes r)),
           MkReader (rd_bytes r) (rd_offset r + count)).

Definition rd_u8 : Reader Z := bs ← rd_take 1; mret (be_decode bs).
Definition rd_u16 : Reader Z := bs ← rd_take 2; mret (be_decode bs).
Definition rd_u32 : Reader Z := bs ← rd_take 4; mret (be_decode bs).
Definition rd_u64 : Reader Z := bs ← rd_take 8; mret (be_decode bs).
Definition rd_i64 : Reader Z := bs ← rd_take 8; mret (asIntN64 (be_decode bs)).

Definition rd_end : Reader unit := λ r,
  if negb (Nat.eqb (remaining r) 0) then Throw (KvProtocolError "trailing bytes after message")
  else Ok (tt, r).

(** [for (index = 0; index < count; index += 1) items.push(read(reader))]. *)
Fixpoint rd_list {A} (rd : Reader A) (count : nat) : Reader (list A) :=
  match count with
  | O => mret []
  | S count' => x ← rd; xs ← rd_list rd count'; mret (x :: xs)
  end.

(** ** Fields at an offset *)

(** A field read at an offset: [DataView.getUint16], [getBigUint64], [bytes[i]]. *)
Definition field_at (width offset : nat) (bytes : list Z) : Z :=
  be_decode (take width (drop offset bytes)).

(** [bytes_set] where the source goes right behind what is written so far. *)
Lemma bytes_set_next pre src n l offset :
  l = pre ++ replicate n 0 → offset = length pre → (length src ≤ n)%nat →
  bytes_set l src offset = (pre ++ src) ++ replicate (n - length src) 0.
Proof.
  intros -> -> H. unfold bytes_set. rewrite take_app_length, drop_app_ge by lia.
  rewrite drop_replicate, <-app_assoc. do 3 f_equal. lia.
Qed.

(** A field behind a prefix of known length. *)
Lemma field_at_app n offset pre v suf :
  offset = length pre → 0 ≤ v < 256 ^ Z.of_nat n → field_at n offset (pre ++ be_encode n v ++ suf) = v.
Proof.
  intros -> Hv. unfold field_at. rewrite drop_app_length.
  rewrite take_app_length' by (by rewrite length_be_encode). by apply be_decode_encode_id.
Qed.

(** A field behind what is skipped. *)
Lemma field_at_skip n k f l : (length f ≤ k)%nat → field_at n k (f ++ l) = field_at n (k - length f) l.
Proof. intros H. unfold field_at. by rewrite drop_app_ge. Qed.

Lemma field_at_here n v l : 0 ≤ v < 256 ^ Z.of_nat n → field_at n 0 (be_encode n v ++ l) = v.
Proof. intros H. by apply (field_at_app n 0 []). Qed.

(** The next write of a sequence of writes from [length pre] on. *)
Lemma bytes_set_then pre w src n k :
  length w = k → (length src ≤ n)%nat →
  bytes_set ((pre ++ w) ++ replicate n 0) src (length pre + k) = (pre ++ w ++ src) ++ replicate (n - length src) 0.
Proof.
  intros <- H. rewrite (bytes_set_next (pre ++ w) src n _ _ eq_refl) by (rewrite ?length_app; lia).
  by rewrite !app_assoc.
Qed.

(** ** Reading back what was written *)

(** [rd] consumes exactly [bs], wherever it stands in a frame, and yields [a]. *)
Definition reads {A} (rd : Reader A) (bs : list Z) (a : A) : Prop :=
  ∀ pre suf, rd (MkReader (pre ++ bs ++ suf) (length pre))
             = Ok (a, MkReader (pre ++ bs ++ suf) (length pre + length bs)).

Lemma reads_ret {A} (a : A) : reads (mret a) [] a.
Proof. intros pre suf. unfold mret, Reader_ret. by rewrite Nat.add_0_r. Qed.

Lemma reads_bind {A B} (rd : Reader A) (k : A → Reader B) bs1 bs2 a b :
  reads rd bs1 a → reads (k a) bs2 b → reads (rd ≫= k) (bs1 ++ bs2) b.
Proof.
  intros H1 H2 pre suf. unfold mbind, Reader_bind. rewrite <-app_assoc, H1.
  specialize (H2 (pre ++ bs1) suf). rewrite <-!app_assoc, !length_app in H2.
  rewrite H2, length_app. by rewrite Nat.add_assoc.
Qed.

Lemma reads_then {A B} (rd : Reader A) (k : A → Reader B) bs a b :
  reads rd [] a → reads (k a) bs b → reads (rd ≫= k) bs b.
Proof. intros H1 H2. by apply (reads_bind rd k [] bs a b). Qed.

Lemma reads_map {A B} (rd : Reader A) (k : A → Reader B) bs a b :
  reads rd bs a → reads (k a) [] b → reads (rd ≫= k) bs b.
Proof. intros H1 H2. rewrite <-(app_nil_r bs). by eapply reads_bind. Qed.

Lemma reads_guard ok message : ok = true → reads (rd_guard ok message) [] tt.
Proof. intros -> pre suf. unfold rd_guard. by rewrite Nat.add_0_r. Qed.

Lemma reads_take bs : reads (rd_take (length bs)) bs bs.
Proof.
  intros pre suf. unfold rd_take, remaining. cbn [rd_bytes rd_offset].
  rewrite !length_app. destruct (Nat.ltb_spec (length pre + (length bs + length suf) - length pre)
    (length bs)); [lia|].
  by rewrite drop_app_length, take_app_length.
Qed.

Lemma reads_field n v (f : list Z → Z) :
  f (be_encode n v) = v → reads (bs ← rd_take n; mret (f bs)) (be_encode n v) v.
Proof.
  intros Hf. apply (reads_map (rd_take n) _ _ (be_encode n v)); [|rewrite Hf; apply reads_ret].
  rewrite <-(length_be_encode n v) at 1. apply reads_take.
Qed.

Lemma reads_u8 v : 0 ≤ v < 2 ^ 8 → reads rd_u8 (be_encode 1 v) v.
Proof. intros. by apply reads_field, be_decode_encode_id. Qed.
Lemma reads_u16 v : 0 ≤ v < 2 ^ 16 → reads rd_u16 (be_encode 2 v) v.
Proof. intros. by apply reads_field, be_decode_encode_id. Qed.
Lemma reads_u32 v : 0 ≤ v < 2 ^ 32 → reads rd_u32 (be_encode 4 v) v.
Proof. intros. by apply reads_field, be_decode_encode_id. Qed.
Lemma reads_u64 v : 0 ≤ v < 2 ^ 64 → reads rd_u64 (be_encode 8 v) v.
Proof. intros. by apply reads_field, be_decode_encode_id. Qed.
Lemma reads_i64 v : - 2 ^ 63 ≤ v < 2 ^ 63 → reads rd_i64 (be_encode 8 v) v.
Proof.
  intros. apply (reads_field 8 v (λ bs, asIntN64 (be_decode bs))).
  rewrite be_decode_encode. change (256 ^ Z.of_nat 8) with (2 ^ 64).
  rewrite asIntN64_mod. by apply asIntN64_id.
Qed.

Lemma reads_whole {A} (rd : Reader A) bs a :
  reads rd bs a → (x ← rd; rd_end;; mret x) (new_ByteReader bs) = Ok (a, MkReader bs (length bs)).
Proof.
  intros H. specialize (H [] []). rewrite app_nil_r in H. cbn in H.
  unfold mbind, Reader_bind, new_ByteReader. rewrite H. unfold rd_end, remaining. cbn.
  by rewrite Nat.sub_diag.
Qed.

(** ** Writers against readers *)

Section roundtrips.
Context `{ByteSinkLaws W}.

(** Whatever [wr] writes into a sink is what [rd] reads back as [a]. *)
Definition roundtrips {A} (wr : W → result W) (rd : Reader A) (a : A) : Prop :=
  ∀ w w', sink_ok w → wr w = Ok w' →
    sink_ok w' ∧ ∃ bs, sink_finish w' = sink_finish w ++ bs ∧ reads rd bs a.

Lemma roundtrips_bind {A B} (w1 w2 : W → result W) (rd : Reader A) (k : A → Reader B) a b :
  roundtrips w1 rd a → roundtrips w2 (k a) b →
  roundtrips (λ w, let! w' := w1 w in w2 w') (rd ≫= k) b.
Proof.
  intros H1 H2 w w' Hw E. inv_ok. destruct (H1 _ _ Hw E0) as (Hr & bs1 & Hf1 & Hrd1).
  destruct (H2 _ _ Hr E) as (Hr' & bs2 & Hf2 & Hrd2). split; [done|]. exists (bs1 ++ bs2).
  split; [by rewrite Hf2, Hf1, app_assoc|]. by eapply reads_bind.
Qed.

(** A check the writer makes before writing. *)
Lemma roundtrips_check {A} (c : result unit) (wr : W → result W) (rd : Reader A) a :
  (c = Ok tt → roundtrips wr rd a) → roundtrips (λ w, let! _ := c in wr w) rd a.
Proof. intros Hc w w' Hw E. inv_ok. destruct r. by apply Hc. Qed.

(** A check the reader makes, known to hold. *)
Lemma roundtrips_guard {A} ok message (wr : W → result W) (k : Reader A) a :
  ok = true → roundtrips wr k a → roundtrips wr (rd_guard ok message;; k) a.
Proof.
  intros Hok Hwr w w' Hw E. destruct (Hwr _ _ Hw E) as (? & bs & ? & ?).
  split; [done|]. exists bs. split; [done|]. eapply reads_then; [by apply reads_guard|done].
Qed.

Lemma roundtrips_ret {A} (a : A) : roundtrips (λ w, Ok w) (mret a) a.
Proof.
  intros w w' Hw [= <-]. split; [done|]. exists []. split; [by rewrite app_nil_r|apply reads_ret].
Qed.

Lemma roundtrips_map {A B} (wr : W → result W) (rd : Reader A) (f : A → B) a :
  roundtrips wr rd a → roundtrips wr (x ← rd; mret (f x)) (f a).
Proof.
  intros Hwr w w' Hw E. destruct (Hwr _ _ Hw E) as (? & bs & ? & ?).
  split; [done|]. exists bs. split; [done|]. eapply reads_map; [done|apply reads_ret].
Qed.

Lemma roundtrips_ext {A} (wr wr' : W → result W) (rd : Reader A) a :
  (∀ w, wr' w = wr w) → roundtrips wr rd a → roundtrips wr' rd a.
Proof. intros Hext Hwr w w' Hw E. rewrite Hext in E. by apply Hwr. Qed.

Lemma roundtrips_u8 v : 0 ≤ v < 2 ^ 8 → roundtrips (λ w, Ok (sink_u8 v w)) rd_u8 v.
Proof.
  intros Hv w w' Hw [= <-]. destruct (sink_u8_law v w Hw). eauto using reads_u8.
Qed.
Lemma roundtrips_u16 v : 0 ≤ v < 2 ^ 16 → roundtrips (λ w, Ok (sink_u16 v w)) rd_u16 v.
Proof.
  intros Hv w w' Hw [= <-]. destruct (sink_u16_law v w Hw). eauto using reads_u16.
Qed.
Lemma roundtrips_u32 v : 0 ≤ v < 2 ^ 32 → roundtrips (λ w, Ok (sink_u32 v w)) rd_u32 v.
Proof.
  intros Hv w w' Hw [= <-]. destruct (sink_u32_law v w Hw). eauto using reads_u32.
Qed.
Lemma roundtrips_u64 v : 0 ≤ v < 2 ^ 64 → roundtrips (λ w, Ok (sink_u64 v w)) rd_u64 v.
Proof.
  intros Hv w w' Hw [= <-]. destruct (sink_u64_law v w Hw). eauto using reads_u64.
Qed.
Lemma roundtrips_i64 v : - 2 ^ 63 ≤ v < 2 ^ 63 → roundtrips (λ w, Ok (sink_i64 v w)) rd_i64 v.
Proof.
  intros Hv w w' Hw [= <-]. destruct (sink_i64_law v w Hw). eauto using reads_i64.
Qed.
Lemma roundtrips_raw bs n :
  n = length bs → roundtrips (λ w, Ok (sink_raw bs w)) (rd_take n) bs.
Proof.
  intros -> w w' Hw [= <-]. destruct (sink_raw_law bs w Hw). eauto using reads_take.
Qed.
End roundtrips.
