(* ===== verification/KvWire.v ===== *)
(** * The store's wire codec ([src/kv/wire.ts])

    Every writer and reader of the protocol messages, over any [ByteSink].  A
    writer returns the sink or the protocol error its checks raise; a reader is a
    [Reader].  [encodeMessage] and [decodeMessage] compose them. *)
From S2P Require Import Prelude JsNumber JsString Hash Hlc Entry Ports Double Ring.
From S2P Require Import RoutingTable ByteIO.

(** Constants of [src/kv/constants.ts]. *)
Definition MAX_KEY_BYTES : Z := 1_024.
Definition MAX_VALUE_BYTES : Z := 1_048_576.
Definition PROTOCOL_VERSION : Z := 1.
Definition MAX_NAME_BYTES : Z := 255.
Definition MAX_OWNERS_PER_PARTITION : Z := 16.
Definition MAX_WIRE_PARTITIONS : Z := 1_048_576.
Definition MAX_CHUNK_ENTRIES : Z := 1_048_576.

(** Message types. *)
Definition MSG_READ_REQUEST : Z := 0x01.
Definition MSG_READ_RESPONSE : Z := 0x02.
Definition MSG_WRITE_REQUEST : Z := 0x03.
Definition MSG_WRITE_RESPONSE : Z := 0x04.
Definition MSG_REPLICATE : Z := 0x05.
Definition MSG_REPLICATE_ACK : Z := 0x06.
Definition MSG_PEEK_REQUEST : Z := 0x07.
Definition MSG_REBALANCING : Z := 0x08.
Definition MSG_FRAGMENT_REQUEST : Z := 0x09.
Definition MSG_FRAGMENT_PUSH : Z := 0x0a.
Definition MSG_FRAGMENT_ACK : Z := 0x0b.
Definition MSG_SYNC_DIGEST : Z := 0x0c.
Definition MSG_BUCKET_DIGESTS : Z := 0x0d.
Definition MSG_KEY_VERSIONS_REQUEST : Z := 0x0e.
Definition MSG_KEY_VERSIONS : Z := 0x0f.
Definition MSG_TABLE : Z := 0x10.
Definition MSG_FRAGMENT_CHUNK : Z := 0x11.
Definition MSG_OWNERSHIP_REPORT : Z := 0x12.
Definition MSG_ENTRIES_REQUEST : Z := 0x13.

Definition MAX_U64 : Z := 0xffffffffffffffff.
Definition MIN_I64 : Z := - 2 ^ 63.
Definition MAX_I64 : Z := 2 ^ 63 - 1.

Definition CONDITION_TO_BYTE (c : PutCondition) : Z :=
  match c with CondNone => 0 | IfAbsent => 1 | IfPresent => 2 end.
Definition BYTE_TO_CONDITION : list PutCondition := [CondNone; IfAbsent; IfPresent].

Definition OP_PUT : Z := 1.
Definition OP_DELETE : Z := 2.
Definition OP_INCR : Z := 3.
Definition OP_CAS : Z := 4.

Definition REASON_TO_BYTE (r : ConditionFailure) : Z :=
  match r with FailIfAbsent => 0 | FailIfPresent => 1 | FailCompareAndSet => 2 end.
Definition BYTE_TO_REASON : list ConditionFailure := [FailIfAbsent; FailIfPresent; FailCompareAndSet].

Definition ENTRY_FLAG_DELETED : Z := Z.shiftl 1 0.
Definition ENTRY_FLAG_EXPIRES : Z := Z.shiftl 1 1.
Definition RESULT_APPLIED : Z := 1.
Definition RESULT_REJECTED : Z := 0.

(** One chunk of a fragment transfer. *)
Record FragmentChunkWire := MkChunk {
  ch_partitionId : Z;
  ch_final : bool;
  ch_entries : list Entry }.

Inductive KvMessage :=
  | ReadRequest (key : jsstring)
  | ReadResponse (entry : option Entry)
  | WriteRequest (op : WriteOp)
  | WriteResponse (result : WriteResult)
  | Table (table : RoutingTableWire)
  | FragmentChunk (chunk : FragmentChunkWire)
  | OwnershipReportMsg (report : OwnershipReport)
  | Replicate (entry : Entry)
  | ReplicateAck
  | PeekRequest (key : jsstring)
  | Rebalancing (partitionId : Z)
  | FragmentRequest (partitionId : Z) (afterKey : option jsstring)
  | FragmentPush (chunk : FragmentChunkWire)
  | FragmentAck
  | SyncDigest (partitionId : Z) (digest : DigestLanes)
  | BucketDigests (partitionId : Z) (digests : list DigestLanes)
  | KeyVersionsRequest (partitionId : Z) (buckets : list Z)
  | KeyVersions (partitionId : Z) (versions : list KeyVersion)
  | EntriesRequest (partitionId : Z) (keys : list jsstring).

(** ** Checks *)

Definition wr_check (ok : bool) (message : string) : result unit :=
  guard_throw ok (KvProtocolError message).

Definition assertUnsignedInteger (value : Z) (field : string) : result unit :=
  wr_check (negb (negb (is_safe_integer value) || (value <? 0))) (field +:+ " is out of range").

Definition assertU32 (value : Z) (field : string) : result unit :=
  wr_check (negb (negb (is_safe_integer value) || (value <? 0) || (0xffff_ffff <? value)))
    (field +:+ " is out of range").

Definition assertU64 (value : Z) (field : string) : result unit :=
  wr_check (negb ((value <? 0) || (MAX_U64 <? value))) (field +:+ " is out of range").

(** [text.includes("\0")]. *)
Definition includes_nul (s : jsstring) : bool := bool_decide (0 ∈ s).

Definition len (bs : list Z) : Z := Z.of_nat (length bs).

Definition decodeUtf8 (bytes : list Z) (field : string) : Reader jsstring :=
  match text_decode bytes with
  | None => rd_fail (field +:+ " is not valid UTF-8")
  | Some text =>
      rd_guard (negb (includes_nul text)) (field +:+ " contains NUL");; mret text
  end.

Section writers.
Context {W : Type} `{ByteSink W}.

(** [for (const x of l) write(x)]. *)
Fixpoint wr_list {A} (wr : A → W → result W) (l : list A) (w : W) : result W :=
  match l with
  | [] => Ok w
  | x :: l' => let! w := wr x w in wr_list wr l' w
  end.

Definition writeName (name : jsstring) (field : string) (w : W) : result W :=
  let! _ := wr_check (negb (includes_nul name)) (field +:+ " contains NUL") in
  let bytes := text_encode name in
  let! _ := wr_check (negb ((len bytes =? 0) || (MAX_NAME_BYTES <? len bytes)))
    (field +:+ " length is out of range") in
  let! _ := wr_check (is_well_formed name) (field +:+ " is not valid Unicode") in
  Ok (sink_raw bytes (sink_u8 (len bytes) w)).

Definition writeKey (k : jsstring) (w : W) : result W :=
  let! _ := wr_check (negb (includes_nul k)) "key contains NUL" in
  let bytes := text_encode k in
  let! _ := wr_check (negb ((len bytes =? 0) || (MAX_KEY_BYTES <? len bytes)))
    "key length is out of range" in
  let! _ := wr_check (is_well_formed k) "key is not valid Unicode" in
  Ok (sink_raw bytes (sink_u16 (len bytes) w)).

Definition writeBlob (bytes : list Z) (max : Z) (field : string) (w : W) : result W :=
  let! _ := wr_check (negb (max <? len bytes)) (field +:+ " length is out of range") in
  Ok (sink_raw bytes (sink_u32 (len bytes) w)).

Definition writeHybridTime (time : HybridTime) (w : W) : result W :=
  let! _ := assertUnsignedInteger (wallMs time) "wall time" in
  let! _ := assertU32 (logical time) "logical counter" in
  writeName (node time) "node" (sink_u32 (logical time) (sink_u64 (wallMs time) w)).

Definition writeEntry (entry : Entry) (w : W) : result W :=
  let! _ := wr_check (Bool.eqb (deleted entry) (bool_decide (value entry = None)))
    "entry deleted flag is inconsistent with its value" in
  let! _ := assertU64 (sequence entry) "sequence" in
  let flags := if deleted entry then Z.lor 0 ENTRY_FLAG_DELETED else 0 in
  let! flags :=
    match expiresAt entry with
    | Some t => let! _ := assertUnsignedInteger t "expiry" in Ok (Z.lor flags ENTRY_FLAG_EXPIRES)
    | None => Ok flags
    end in
  let! w := writeKey (key entry) (sink_u8 flags w) in
  let! w := writeHybridTime (timestamp entry) w in
  let w := sink_u64 (sequence entry) w in
  let w := match expiresAt entry with Some t => sink_u64 t w | None => w end in
  match value entry with
  | Some v => writeBlob v MAX_VALUE_BYTES "value" w
  | None => Ok w
  end.

Definition writePut (k : jsstring) (v : list Z) (condition : PutCondition) (ttlMs : option Z)
    (w : W) : result W :=
  let w := sink_u8 (CONDITION_TO_BYTE condition) (sink_u8 OP_PUT w) in
  let w := sink_u8 (match ttlMs with Some _ => 1 | None => 0 end) w in
  let! w := writeKey k w in
  let! w := writeBlob v MAX_VALUE_BYTES "value" w in
  match ttlMs with
  | Some ttl => let! _ := assertUnsignedInteger ttl "ttl" in Ok (sink_u64 ttl w)
  | None => Ok w
  end.

Definition writeIncrement (k : jsstring) (delta : Z) (w : W) : result W :=
  let! _ := wr_check (negb ((delta <? MIN_I64) || (MAX_I64 <? delta)))
    "increment delta is out of range" in
  let! w := writeKey k (sink_u8 OP_INCR w) in
  Ok (sink_i64 delta w).

Definition writeCompareAndSet (k : jsstring) (expected v : list Z) (w : W) : result W :=
  let! w := writeKey k (sink_u8 OP_CAS w) in
  let! w := writeBlob expected MAX_VALUE_BYTES "expected" w in
  writeBlob v MAX_VALUE_BYTES "value" w.

Definition writeWriteOp (op : WriteOp) (w : W) : result W :=
  match op with
  | PutOp k v condition ttlMs => writePut k v condition ttlMs w
  | DeleteOp k => writeKey k (sink_u8 OP_DELETE w)
  | IncrementOp k delta => writeIncrement k delta w
  | CompareAndSetOp k expected v => writeCompareAndSet k expected v w
  end.

Definition writeWriteResult (r : WriteResult) (w : W) : result W :=
  match r with
  | WriteApplied entry => writeEntry entry (sink_u8 RESULT_APPLIED w)
  | WriteRejected reason => Ok (sink_u8 (REASON_TO_BYTE reason) (sink_u8 RESULT_REJECTED w))
  end.

Definition writePartitionField (partitionId : Z) (w : W) : result W :=
  let! _ := assertU32 partitionId "partition id" in
  Ok (sink_u32 partitionId w).

Definition writeDigest (digest : DigestLanes) (w : W) : result W :=
  let! _ := assertU32 (hi digest) "digest hi" in
  let! _ := assertU32 (lo digest) "digest lo" in
  Ok (sink_u32 (lo digest) (sink_u32 (hi digest) w)).

Definition writeDigests (digests : list DigestLanes) (w : W) : result W :=
  let! _ := wr_check (negb (REPAIR_BUCKETS <? Z.of_nat (length digests)))
    "bucket digest count is out of range" in
  wr_list writeDigest digests (sink_u32 (Z.of_nat (length digests)) w).

Definition writeBuckets (buckets : list Z) (w : W) : result W :=
  let! _ := wr_check (negb (REPAIR_BUCKETS <? Z.of_nat (length buckets)))
    "bucket count is out of range" in
  wr_list (λ bucket w, let! _ := assertU32 bucket "bucket index" in Ok (sink_u32 bucket w))
    buckets (sink_u32 (Z.of_nat (length buckets)) w).

Definition writeKeyVersions (versions : list KeyVersion) (w : W) : result W :=
  let! _ := wr_check (negb (MAX_CHUNK_ENTRIES <? Z.of_nat (length versions)))
    "key version count is out of range" in
  wr_list (λ version w, let! w := writeKey (kv_key version) w in
                        writeHybridTime (kv_timestamp version) w)
    versions (sink_u32 (Z.of_nat (length versions)) w).

Definition writeKeys (keys : list jsstring) (w : W) : result W :=
  let! _ := wr_check (negb (MAX_CHUNK_ENTRIES <? Z.of_nat (length keys)))
    "key count is out of range" in
  wr_list writeKey keys (sink_u32 (Z.of_nat (length keys)) w).

Definition writeOptionalKey (k : option jsstring) (w : W) : result W :=
  match k with
  | None => Ok (sink_u8 0 w)
  | Some k => writeKey k (sink_u8 1 w)
  end.

Definition writeOptionalEntry (entry : option Entry) (w : W) : result W :=
  match entry with
  | None => Ok (sink_u8 0 w)
  | Some entry => writeEntry entry (sink_u8 1 w)
  end.

(** One turn of the loop of [writeTable]. *)
Definition writePartitionOwners (partition : PartitionOwners) (w : W) : result W :=
  let owners := po_owners partition in
  let n := Z.of_nat (length owners) in
  let! _ := wr_check (negb ((n =? 0) || (MAX_OWNERS_PER_PARTITION <? n)))
    "partition owner count is out of range" in
  wr_list (λ owner, writeName owner "owner") owners (sink_u8 n w).

Definition writeTable (table : RoutingTableWire) (w : W) : result W :=
  let! _ := assertU64 (tw_version table) "table version" in
  let n := Z.of_nat (length (tw_partitions table)) in
  let! _ := wr_check (negb (MAX_WIRE_PARTITIONS <? n)) "table partition count is out of range" in
  wr_list writePartitionOwners (tw_partitions table) (sink_u32 n (sink_u64 (tw_version table) w)).

Definition writeChunk (chunk : FragmentChunkWire) (w : W) : result W :=
  let! _ := assertU32 (ch_partitionId chunk) "partition id" in
  let n := Z.of_nat (length (ch_entries chunk)) in
  let! _ := wr_check (negb (MAX_CHUNK_ENTRIES <? n)) "chunk entry count is out of range" in
  let w := sink_u32 (ch_partitionId chunk) w in
  let w := sink_u8 (if ch_final chunk then 1 else 0) w in
  wr_list writeEntry (ch_entries chunk) (sink_u32 n w).

Definition writeOwnershipReport (report : OwnershipReport) (w : W) : result W :=
  let n := Z.of_nat (length (or_partitions report)) in
  let! _ := wr_check (negb (MAX_WIRE_PARTITIONS <? n))
    "ownership report partition count is out of range" in
  let! w := writeName (or_node report) "report node" w in
  wr_list (λ id w, let! _ := assertU32 id "report partition id" in Ok (sink_u32 id w))
    (or_partitions report) (sink_u32 n w).

Definition writeEnvelope (type : Z) (w : W) : W := sink_u8 type (sink_u8 PROTOCOL_VERSION w).

Definition encodeBody (message : KvMessage) (w : W) : result W :=
  match message with
  | ReadRequest k => writeKey k (writeEnvelope MSG_READ_REQUEST w)
  | ReadResponse entry => writeOptionalEntry entry (writeEnvelope MSG_READ_RESPONSE w)
  | WriteRequest op => writeWriteOp op (writeEnvelope MSG_WRITE_REQUEST w)
  | WriteResponse r => writeWriteResult r (writeEnvelope MSG_WRITE_RESPONSE w)
  | Table table => writeTable table (writeEnvelope MSG_TABLE w)
  | FragmentChunk chunk => writeChunk chunk (writeEnvelope MSG_FRAGMENT_CHUNK w)
  | OwnershipReportMsg report =>
      writeOwnershipReport report (writeEnvelope MSG_OWNERSHIP_REPORT w)
  | Replicate entry => writeEntry entry (writeEnvelope MSG_REPLICATE w)
  | ReplicateAck => Ok (writeEnvelope MSG_REPLICATE_ACK w)
  | PeekRequest k => writeKey k (writeEnvelope MSG_PEEK_REQUEST w)
  | Rebalancing id => writePartitionField id (writeEnvelope MSG_REBALANCING w)
  | FragmentRequest id afterKey =>
      let! w := writePartitionField id (writeEnvelope MSG_FRAGMENT_REQUEST w) in
      writeOptionalKey afterKey w
  | FragmentPush chunk => writeChunk chunk (writeEnvelope MSG_FRAGMENT_PUSH w)
  | FragmentAck => Ok (writeEnvelope MSG_FRAGMENT_ACK w)
  | SyncDigest id digest =>
      let! w := writePartitionField id (writeEnvelope MSG_SYNC_DIGEST w) in
      writeDigest digest w
  | BucketDigests id digests =>
      let! w := writePartitionField id (writeEnvelope MSG_BUCKET_DIGESTS w) in
      writeDigests digests w
  | KeyVersionsRequest id buckets =>
      let! w := writePartitionField id (writeEnvelope MSG_KEY_VERSIONS_REQUEST w) in
      writeBuckets buckets w
  | KeyVersions id versions =>
      let! w := writePartitionField id (writeEnvelope MSG_KEY_VERSIONS w) in
      writeKeyVersions versions w
  | EntriesRequest id keys =>
      let! w := writePartitionField id (writeEnvelope MSG_ENTRIES_REQUEST w) in
      writeKeys keys w
  end.
End writers.

(** [encodeMessage] through [ByteWriter] with its default capacity. *)
Definition encodeMessage (message : KvMessage) : result (list Z) :=
  let! w := encodeBody message (new_ByteWriter 64) in
  Ok (sink_finish w).

(** ** Readers *)

Definition readName (field : string) : Reader jsstring :=
  length ← rd_u8;
  rd_guard (negb (length =? 0)) (field +:+ " length is out of range");;
  bytes ← rd_take (Z.to_nat length);
  decodeUtf8 bytes field.

Definition readKey : Reader jsstring :=
  length ← rd_u16;
  rd_guard (negb ((length =? 0) || (MAX_KEY_BYTES <? length))) "key length is out of range";;
  bytes ← rd_take (Z.to_nat length);
  decodeUtf8 bytes "key".

Definition readBlob (max : Z) (field : string) : Reader (list Z) :=
  length ← rd_u32;
  rd_guard (negb (max <? length)) (field +:+ " length is out of range");;
  rd_take (Z.to_nat length).

Definition readHybridTime : Reader HybridTime :=
  wall ← rd_u64;
  rd_guard (negb (MAX_SAFE_INTEGER <? wall)) "wall time is out of range";;
  lg ← rd_u32;
  nd ← readName "node";
  mret (MkTime wall lg nd).

Definition readSafeU64 (field : string) : Reader Z :=
  v ← rd_u64;
  rd_guard (negb (MAX_SAFE_INTEGER <? v)) (field +:+ " is out of range");;
  mret v.

Definition readEntry : Reader Entry :=
  flags ← rd_u8;
  rd_guard (Z.land flags (Z.lnot (Z.lor ENTRY_FLAG_DELETED ENTRY_FLAG_EXPIRES)) =? 0)
    "entry flags are invalid";;
  let del := negb (Z.land flags ENTRY_FLAG_DELETED =? 0) in
  k ← readKey;
  t ← readHybridTime;
  seqno ← rd_u64;
  expires ← (if negb (Z.land flags ENTRY_FLAG_EXPIRES =? 0)
             then x ← readSafeU64 "expiry"; mret (Some x) else mret None);
  v ← (if (del : bool) then mret None
       else x ← readBlob MAX_VALUE_BYTES "value"; mret (Some x));
  mret (MkEntry k v t seqno expires del).

Definition readPut : Reader WriteOp :=
  conditionByte ← rd_u8;
  match BYTE_TO_CONDITION !! Z.to_nat conditionByte with
  | None => rd_fail "unknown put condition"
  | Some condition =>
      ttlByte ← rd_u8;
      rd_guard (negb (1 <? ttlByte)) "put ttl flag is invalid";;
      k ← readKey;
      v ← readBlob MAX_VALUE_BYTES "value";
      if ttlByte =? 0 then mret (PutOp k v condition None)
      else ttl ← readSafeU64 "ttl"; mret (PutOp k v condition (Some ttl))
  end.

Definition readCompareAndSet : Reader WriteOp :=
  k ← readKey;
  expected ← readBlob MAX_VALUE_BYTES "expected";
  v ← readBlob MAX_VALUE_BYTES "value";
  mret (CompareAndSetOp k expected v).

Definition readWriteOp : Reader WriteOp :=
  opcode ← rd_u8;
  if opcode =? OP_PUT then readPut
  else if opcode =? OP_DELETE then k ← readKey; mret (DeleteOp k)
  else if opcode =? OP_INCR then k ← readKey; delta ← rd_i64; mret (IncrementOp k delta)
  else if opcode =? OP_CAS then readCompareAndSet
  else rd_fail "unknown write opcode".

Definition readWriteResult : Reader WriteResult :=
  marker ← rd_u8;
  if marker =? RESULT_APPLIED then e ← readEntry; mret (WriteApplied e)
  else
    rd_guard (marker =? RESULT_REJECTED) "write result marker is invalid";;
    b ← rd_u8;
    match BYTE_TO_REASON !! Z.to_nat b with
    | None => rd_fail "unknown write rejection reason"
    | Some reason => mret (WriteRejected reason)
    end.

Definition readDigest : Reader DigestLanes :=
  h ← rd_u32; l ← rd_u32; mret (MkLanes h l).

(** A [u32] count checked against its bound, then that many items. *)
Definition rd_counted {A} (max : Z) (message : string) (rd : Reader A) : Reader (list A) :=
  count ← rd_u32;
  rd_guard (negb (max <? count)) message;;
  rd_list rd (Z.to_nat count).

Definition readDigests : Reader (list DigestLanes) :=
  rd_counted REPAIR_BUCKETS "bucket digest count is out of range" readDigest.

Definition readBuckets : Reader (list Z) :=
  rd_counted REPAIR_BUCKETS "bucket count is out of range" rd_u32.

Definition readKeyVersions : Reader (list KeyVersion) :=
  rd_counted MAX_CHUNK_ENTRIES "key version count is out of range"
    (k ← readKey; t ← readHybridTime; mret (MkKeyVersion k t)).

Definition readKeys : Reader (list jsstring) :=
  rd_counted MAX_CHUNK_ENTRIES "key count is out of range" readKey.

Definition readOptionalKey : Reader (option jsstring) :=
  present ← rd_u8;
  if present =? 0 then mret None
  else
    rd_guard (present =? 1) "fragment cursor flag is invalid";;
    k ← readKey; mret (Some k).

Definition readOptionalEntry : Reader (option Entry) :=
  present ← rd_u8;
  if present =? 0 then mret None
  else
    rd_guard (present =? 1) "entry presence flag is invalid";;
    e ← readEntry; mret (Some e).

Definition readPartitionOwners : Reader PartitionOwners :=
  ownerCount ← rd_u8;
  rd_guard (negb ((ownerCount =? 0) || (MAX_OWNERS_PER_PARTITION <? ownerCount)))
    "partition owner count is out of range";;
  owners ← rd_list (readName "owner") (Z.to_nat ownerCount);
  mret (MkPartitionOwners owners).

Definition readTable : Reader RoutingTableWire :=
  version ← rd_u64;
  partitions ← rd_counted MAX_WIRE_PARTITIONS "table partition count is out of range"
    readPartitionOwners;
  mret (MkTableWire version partitions).

Definition readChunk : Reader FragmentChunkWire :=
  partitionId ← rd_u32;
  finalByte ← rd_u8;
  rd_guard (negb (1 <? finalByte)) "chunk final flag is invalid";;
  entries ← rd_counted MAX_CHUNK_ENTRIES "chunk entry count is out of range" readEntry;
  mret (MkChunk partitionId (finalByte =? 1) entries).

Definition readOwnershipReport : Reader OwnershipReport :=
  nd ← readName "report node";
  partitions ← rd_counted MAX_WIRE_PARTITIONS "ownership report partition count is out of range"
    rd_u32;
  mret (MkReport nd partitions).

Definition decodeBody (type : Z) : Reader KvMessage :=
  if type =? MSG_READ_REQUEST then k ← readKey; mret (ReadRequest k)
  else if type =? MSG_READ_RESPONSE then e ← readOptionalEntry; mret (ReadResponse e)
  else if type =? MSG_WRITE_REQUEST then op ← readWriteOp; mret (WriteRequest op)
  else if type =? MSG_WRITE_RESPONSE then r ← readWriteResult; mret (WriteResponse r)
  else if type =? MSG_TABLE then t ← readTable; mret (Table t)
  else if type =? MSG_FRAGMENT_CHUNK then c ← readChunk; mret (FragmentChunk c)
  else if type =? MSG_OWNERSHIP_REPORT then r ← readOwnershipReport; mret (OwnershipReportMsg r)
  else if type =? MSG_REPLICATE then e ← readEntry; mret (Replicate e)
  else if type =? MSG_REPLICATE_ACK then mret ReplicateAck
  else if type =? MSG_PEEK_REQUEST then k ← readKey; mret (PeekRequest k)
  else if type =? MSG_REBALANCING then id ← rd_u32; mret (Rebalancing id)
  else if type =? MSG_FRAGMENT_REQUEST then
    id ← rd_u32; k ← readOptionalKey; mret (FragmentRequest id k)
  else if type =? MSG_FRAGMENT_PUSH then c ← readChunk; mret (FragmentPush c)
  else if type =? MSG_FRAGMENT_ACK then mret FragmentAck
  else if type =? MSG_SYNC_DIGEST then id ← rd_u32; d ← readDigest; mret (SyncDigest id d)
  else if type =? MSG_BUCKET_DIGESTS then id ← rd_u32; d ← readDigests; mret (BucketDigests id d)
  else if type =? MSG_KEY_VERSIONS_REQUEST then
    id ← rd_u32; b ← readBuckets; mret (KeyVersionsRequest id b)
  else if type =? MSG_KEY_VERSIONS then id ← rd_u32; v ← readKeyVersions; mret (KeyVersions id v)
  else if type =? MSG_ENTRIES_REQUEST then id ← rd_u32; k ← readKeys; mret (EntriesRequest id k)
  else rd_fail "unknown message type".

Definition readMessage : Reader KvMessage :=
  version ← rd_u8;
  rd_guard (version =? PROTOCOL_VERSION) "unsupported protocol version";;
  type ← rd_u8;
  decodeBody type.

Definition decodeMessage (bytes : list Z) : result KvMessage :=
  let! mr := (message ← readMessage; rd_end;; mret message) (new_ByteReader bytes) in
  Ok mr.1.

Definition messageType (bytes : list Z) : result Z :=
  let! tr := (version ← rd_u8;
              rd_guard (version =? PROTOCOL_VERSION) "unsupported protocol version";;
              rd_u8) (new_ByteReader bytes) in
  Ok tr.1.
