(* ===== verification/KvCodec.v ===== *)
(** * The codec's properties

    Decoding inverts encoding for every message, frames are self-delimiting, and
    the one class of strings that does not survive the trip: those that start with
    a byte order mark. *)
From S2P Require Import Prelude JsNumber JsString Hash Hlc Entry Ports Double Ring.
From S2P Require Import RoutingTable ByteIO KvWire.

(** A JS string of code units that does not start with a byte order mark. *)
Definition text_ok (s : jsstring) : Prop := Forall is_unit s ∧ starts_with_bom s = false.

Lemma units_check t : forallb (λ u, (0 <=? u) && (u <? 0x10000)) t = true → Forall is_unit t.
Proof.
  intros Ht. rewrite forallb_forall in Ht. apply Forall_forall. intros u Hin%list_elem_of_In%Ht.
  apply andb_true_iff in Hin as [?%Z.leb_le ?%Z.ltb_lt]. unfold is_unit. lia.
Qed.

Lemma wr_check_ok b m u : wr_check b m = Ok u → b = true.
Proof. apply guard_throw_ok. Qed.

Lemma assertUnsignedInteger_ok v f u :
  assertUnsignedInteger v f = Ok u → 0 ≤ v ≤ MAX_SAFE_INTEGER.
Proof.
  intros H%wr_check_ok. unfold is_safe_integer in H.
  rewrite negb_true_iff, orb_false_iff, negb_false_iff, andb_true_iff, !Z.leb_le, Z.ltb_ge in H. lia.
Qed.

Lemma assertU32_ok v f u : assertU32 v f = Ok u → 0 ≤ v < 2 ^ 32.
Proof.
  intros H%wr_check_ok. rewrite negb_true_iff, !orb_false_iff, !Z.ltb_ge in H. lia.
Qed.

Lemma assertU32_total v f : is_u32 v → assertU32 v f = Ok tt.
Proof.
  unfold is_u32, W32, assertU32, wr_check, is_safe_integer. intros H.
  replace (negb _) with true; [done|]. symmetry.
  rewrite negb_true_iff, !orb_false_iff, negb_false_iff, andb_true_iff, !Z.leb_le, !Z.ltb_ge.
  unfold MAX_SAFE_INTEGER. lia.
Qed.

Lemma assertU64_ok v f u : assertU64 v f = Ok u → 0 ≤ v < 2 ^ 64.
Proof.
  intros H%wr_check_ok. unfold MAX_U64 in H. rewrite negb_true_iff, orb_false_iff, !Z.ltb_ge in H. lia.
Qed.

Lemma decodeUtf8_text s s' f :
  Forall is_unit s → is_well_formed s = true → includes_nul s = false →
  s' = (if starts_with_bom s then tail s else s) →
  reads (decodeUtf8 (text_encode s) f) [] s'.
Proof.
  intros Hu Hwf Hnul ->. unfold decodeUtf8. rewrite text_decode_encode by done.
  eapply reads_then; [|apply reads_ret]. apply reads_guard.
  unfold includes_nul in *. rewrite negb_true_iff. apply bool_decide_eq_false.
  apply bool_decide_eq_false in Hnul. destruct (starts_with_bom s); [|done].
  destruct s as [|c s]; [done|]. cbn. intros ?. apply Hnul. by right.
Qed.

Section codec.
Context `{HL : ByteSinkLaws W}.

(** Writing one field, then going on. *)
Lemma roundtrips_u8_then {A} v (wr : W → result W) (k : Z → Reader A) a :
  0 ≤ v < 2 ^ 8 → roundtrips wr (k v) a → roundtrips (λ w, wr (sink_u8 v w)) (rd_u8 ≫= k) a.
Proof.
  intros Hv Hk. apply (roundtrips_bind (λ w, Ok (sink_u8 v w)) wr rd_u8 k v a); [|exact Hk].
  by apply roundtrips_u8.
Qed.
Lemma roundtrips_u16_then {A} v (wr : W → result W) (k : Z → Reader A) a :
  0 ≤ v < 2 ^ 16 → roundtrips wr (k v) a → roundtrips (λ w, wr (sink_u16 v w)) (rd_u16 ≫= k) a.
Proof.
  intros Hv Hk. apply (roundtrips_bind (λ w, Ok (sink_u16 v w)) wr rd_u16 k v a); [|exact Hk].
  by apply roundtrips_u16.
Qed.
Lemma roundtrips_u32_then {A} v (wr : W → result W) (k : Z → Reader A) a :
  0 ≤ v < 2 ^ 32 → roundtrips wr (k v) a → roundtrips (λ w, wr (sink_u32 v w)) (rd_u32 ≫= k) a.
Proof.
  intros Hv Hk. apply (roundtrips_bind (λ w, Ok (sink_u32 v w)) wr rd_u32 k v a); [|exact Hk].
  by apply roundtrips_u32.
Qed.
Lemma roundtrips_u64_then {A} v (wr : W → result W) (k : Z → Reader A) a :
  0 ≤ v < 2 ^ 64 → roundtrips wr (k v) a → roundtrips (λ w, wr (sink_u64 v w)) (rd_u64 ≫= k) a.
Proof.
  intros Hv Hk. apply (roundtrips_bind (λ w, Ok (sink_u64 v w)) wr rd_u64 k v a); [|exact Hk].
  by apply roundtrips_u64.
Qed.

(** Raw bytes whose decoding consumes nothing more. *)
Lemma roundtrips_raw_then {A} bs n (k : list Z → Reader A) a :
  n = length bs → reads (k bs) [] a → roundtrips (λ w, Ok (sink_raw bs w)) (rd_take n ≫= k) a.
Proof.
  intros Hn Hk w w' Hw E. destruct (roundtrips_raw bs n Hn w w' Hw E) as (? & bs' & ? & ?).
  split; [done|]. exists bs'. split; [done|]. by eapply reads_map.
Qed.

(** A name or key comes back as itself, or without its byte order mark. *)
Lemma roundtrips_key_bom k k' :
  Forall is_unit k → k' = (if starts_with_bom k then tail k else k) →
  roundtrips (writeKey k) readKey k'.
Proof.
  intros Hu Hk'. unfold writeKey. set (bytes := text_encode k).
  apply roundtrips_check. intros Hnul%wr_check_ok%negb_true_iff.
  apply roundtrips_check. intros Hlen%wr_check_ok.
  apply roundtrips_check. intros Hwf%wr_check_ok.
  assert (0 < len bytes ≤ MAX_KEY_BYTES) as Hl.
  { unfold len in *. rewrite negb_true_iff, orb_false_iff, Z.eqb_neq, Z.ltb_ge in Hlen. lia. }
  unfold readKey, MAX_KEY_BYTES in *. apply (roundtrips_u16_then (len bytes) (λ w, Ok (sink_raw bytes w))); [lia|].
  apply roundtrips_guard; [done|]. apply roundtrips_raw_then; [unfold len; lia|].
  by eapply decodeUtf8_text.
Qed.

Lemma roundtrips_name_bom n n' f :
  Forall is_unit n → n' = (if starts_with_bom n then tail n else n) →
  roundtrips (writeName n f) (readName f) n'.
Proof.
  intros Hu Hn'. unfold writeName. set (bytes := text_encode n).
  apply roundtrips_check. intros Hnul%wr_check_ok%negb_true_iff.
  apply roundtrips_check. intros Hlen%wr_check_ok.
  apply roundtrips_check. intros Hwf%wr_check_ok.
  unfold MAX_NAME_BYTES in *.
  assert (0 < len bytes ≤ 255) as Hl.
  { unfold len in *. rewrite negb_true_iff, orb_false_iff, Z.eqb_neq, Z.ltb_ge in Hlen. lia. }
  unfold readName. apply (roundtrips_u8_then (len bytes) (λ w, Ok (sink_raw bytes w))); [lia|].
  apply roundtrips_guard; [by rewrite (proj2 (Z.eqb_neq _ _)) by lia|].
  apply roundtrips_raw_then; [unfold len; lia|]. by eapply decodeUtf8_text.
Qed.

Lemma roundtrips_key k : text_ok k → roundtrips (writeKey k) readKey k.
Proof. intros [Hu Hb]. apply roundtrips_key_bom; [done|]. by rewrite Hb. Qed.

Lemma roundtrips_name n f : text_ok n → roundtrips (writeName n f) (readName f) n.
Proof. intros [Hu Hb]. apply roundtrips_name_bom; [done|]. by rewrite Hb. Qed.

Lemma roundtrips_blob bs max f :
  max < 2 ^ 32 → roundtrips (writeBlob bs max f) (readBlob max f) bs.
Proof.
  intros Hmax. unfold writeBlob. apply roundtrips_check. intros Hlen%wr_check_ok.
  unfold readBlob. apply (roundtrips_u32_then (len bs) (λ w, Ok (sink_raw bs w))).
  - unfold len in *. rewrite negb_true_iff, Z.ltb_ge in Hlen. lia.
  - apply roundtrips_guard; [done|]. apply roundtrips_raw. unfold len. lia.
Qed.

Lemma roundtrips_time t :
  text_ok (node t) → roundtrips (writeHybridTime t) readHybridTime t.
Proof.
  intros Ht. unfold writeHybridTime.
  apply roundtrips_check. intros Hw%assertUnsignedInteger_ok.
  apply roundtrips_check. intros Hl%assertU32_ok. unfold readHybridTime, MAX_SAFE_INTEGER in *.
  apply (roundtrips_u64_then (wallMs t)
    (λ w, writeName (node t) "node" (sink_u32 (logical t) w))); [lia|].
  apply roundtrips_guard; [rewrite negb_true_iff, Z.ltb_ge; lia|].
  apply (roundtrips_u32_then (logical t) (writeName (node t) "node")); [lia|].
  destruct t as [w l n]. apply (roundtrips_map _ _ (λ nd, MkTime w l nd)). by apply roundtrips_name.
Qed.

Lemma roundtrips_safe_u64 v f :
  0 ≤ v ≤ MAX_SAFE_INTEGER → roundtrips (λ w, Ok (sink_u64 v w)) (readSafeU64 f) v.
Proof.
  intros Hv. unfold readSafeU64, MAX_SAFE_INTEGER in *.
  apply (roundtrips_u64_then v (λ w, Ok w)); [lia|].
  apply roundtrips_guard; [rewrite negb_true_iff, Z.ltb_ge; lia|]. apply roundtrips_ret.
Qed.

(** The record after its flags: key, timestamp, sequence, expiry and payload. *)
Lemma roundtrips_entry_fields e flags :
  text_ok (key e) → text_ok (node (timestamp e)) →
  deleted e = bool_decide (value e = None) → 0 ≤ sequence e < 2 ^ 64 →
  (∀ t, expiresAt e = Some t → 0 ≤ t ≤ MAX_SAFE_INTEGER) →
  flags = Z.lor (if deleted e then 1 else 0) (if expiresAt e is Some _ then 2 else 0) →
  roundtrips
    (λ w, let! w := writeKey (key e) (sink_u8 flags w) in
          let! w := writeHybridTime (timestamp e) w in
          let w := sink_u64 (sequence e) w in
          let w := match expiresAt e with Some t => sink_u64 t w | None => w end in
          match value e with
          | Some v => writeBlob v MAX_VALUE_BYTES "value" w
          | None => Ok w
          end) readEntry e.
Proof.
  destruct e as [k v t sq ex del]. cbn [key value timestamp sequence expiresAt deleted].
  intros Hk Ht Hd Hs Hx Hf. unfold readEntry.
  assert (0 ≤ flags < 2 ^ 8 ∧ (Z.land flags (Z.lnot (Z.lor ENTRY_FLAG_DELETED ENTRY_FLAG_EXPIRES)) =? 0) = true
    ∧ negb (Z.land flags ENTRY_FLAG_DELETED =? 0) = del
    ∧ negb (Z.land flags ENTRY_FLAG_EXPIRES =? 0) = bool_decide (is_Some ex)) as (Hf1 & Hf2 & Hf3 & Hf4).
  { rewrite Hf. destruct del, ex; vm_compute; intuition congruence. }
  clear Hf.
  apply (roundtrips_u8_then flags (λ w, let! w := writeKey k w in _)); [done|].
  apply roundtrips_guard; [done|]. cbv zeta. rewrite Hf3, Hf4.
  eapply roundtrips_bind; [by apply roundtrips_key|].
  eapply roundtrips_bind; [by apply roundtrips_time|].
  apply (roundtrips_u64_then sq (λ w, let w := match ex with Some t => sink_u64 t w | None => w end in
    match v with Some v => writeBlob v MAX_VALUE_BYTES "value" w | None => Ok w end)); [done|].
  pose (rest w := match v with
    | Some v => writeBlob v MAX_VALUE_BYTES "value" w | None => Ok w end).
  assert (∀ f : option (list Z) → Entry, roundtrips rest
    (x ← (if del then mret None else x ← readBlob MAX_VALUE_BYTES "value"; mret (Some x)); mret (f x))
    (f v)) as Hv.
  { intros f. subst del. unfold rest. destruct v as [v|].
    - rewrite bool_decide_eq_false_2 by done.
      by apply (roundtrips_map _ _ f), (roundtrips_map _ _ Some), roundtrips_blob.
    - rewrite bool_decide_eq_true_2 by done. apply (roundtrips_map _ _ f), roundtrips_ret. }
  destruct ex as [x|]; [rewrite bool_decide_eq_true_2 by eauto|].
  - apply (roundtrips_bind (λ w, Ok (sink_u64 x w)) rest _ _ (Some x)).
    + by apply (roundtrips_map _ _ Some), roundtrips_safe_u64, Hx.
    + apply (Hv (λ v, MkEntry k v t sq (Some x) del)).
  - rewrite bool_decide_eq_false_2 by (by intros [? ?]).
    apply (roundtrips_bind (λ w, Ok w) rest _ _ None); [apply roundtrips_ret|].
    apply (Hv (λ v, MkEntry k v t sq None del)).
Qed.

Lemma roundtrips_entry e :
  text_ok (key e) → text_ok (node (timestamp e)) → roundtrips (writeEntry e) readEntry e.
Proof.
  intros Hk Ht. unfold writeEntry.
  apply roundtrips_check. intros Hd%wr_check_ok%Bool.eqb_prop.
  apply roundtrips_check. intros Hs%assertU64_ok.
  destruct (expiresAt e) as [x|] eqn:Hx.
  - eapply roundtrips_ext with (wr := λ w, let! _ := assertUnsignedInteger x "expiry" in _).
    { intros w. destruct (assertUnsignedInteger x "expiry"); cbn [result_bind]; reflexivity. }
    apply roundtrips_check. intros Hx'%assertUnsignedInteger_ok.
    pose proof (roundtrips_entry_fields e (Z.lor (if deleted e then 1 else 0) 2)) as H1.
    rewrite Hx in H1. eapply roundtrips_ext; [|apply H1; try done]; [|naive_solver].
    intros w. cbn [result_bind]. by destruct (deleted e).
  - pose proof (roundtrips_entry_fields e (Z.lor (if deleted e then 1 else 0) 0)) as H1.
    rewrite Hx in H1. eapply roundtrips_ext; [|apply H1; done].
    intros w. cbn [result_bind]. by destruct (deleted e).
Qed.

(** ** Mutations and results *)

Lemma roundtrips_op op : text_ok (op_key op) → roundtrips (writeWriteOp op) readWriteOp op.
Proof.
  intros Hk. unfold readWriteOp. destruct op as [k v cond ttl|k|k delta|k expected v]; cbn in Hk.
  - apply (roundtrips_u8_then OP_PUT (λ w,
      let w := sink_u8 (match ttl with Some _ => 1 | None => 0 end)
                 (sink_u8 (CONDITION_TO_BYTE cond) w) in
      let! w := writeKey k w in
      let! w := writeBlob v MAX_VALUE_BYTES "value" w in
      match ttl with
      | Some ttl => let! _ := assertUnsignedInteger ttl "ttl" in Ok (sink_u64 ttl w)
      | None => Ok w
      end)); [done|].
    cbn [Z.eqb OP_PUT Pos.eqb]. unfold readPut.
    apply (roundtrips_u8_then (CONDITION_TO_BYTE cond) (λ w,
      let! w := writeKey k (sink_u8 (match ttl with Some _ => 1 | None => 0 end) w) in _));
      [by destruct cond|].
    replace (BYTE_TO_CONDITION !! _) with (Some cond) by (by destruct cond).
    apply (roundtrips_u8_then _ (λ w, let! w := writeKey k w in _)); [by destruct ttl|].
    apply roundtrips_guard; [by destruct ttl|].
    eapply roundtrips_bind; [by apply roundtrips_key|].
    eapply roundtrips_bind; [by apply roundtrips_blob|]. destruct ttl as [ttl|]; cbn [Z.eqb].
    + apply roundtrips_check. intros Ht%assertUnsignedInteger_ok.
      apply (roundtrips_map _ _ (λ x, PutOp k v cond (Some x))). by apply roundtrips_safe_u64.
    + apply roundtrips_ret.
  - apply (roundtrips_u8_then OP_DELETE (writeKey k)); [done|].
    apply (roundtrips_map _ _ DeleteOp). by apply roundtrips_key.
  - cbn [writeWriteOp]. unfold writeIncrement. apply roundtrips_check. intros Hd%wr_check_ok.
    unfold MIN_I64, MAX_I64 in Hd. rewrite negb_true_iff, orb_false_iff, !Z.ltb_ge in Hd.
    apply (roundtrips_u8_then OP_INCR (λ w, let! w := writeKey k w in Ok (sink_i64 delta w))); [done|].
    eapply roundtrips_bind; [by apply roundtrips_key|].
    apply (roundtrips_map _ _ (IncrementOp k)). apply roundtrips_i64. lia.
  - apply (roundtrips_u8_then OP_CAS (λ w, let! w := writeKey k w in _)); [done|].
    unfold readCompareAndSet. cbn [Z.eqb OP_PUT OP_DELETE OP_INCR OP_CAS Pos.eqb].
    eapply roundtrips_bind; [by apply roundtrips_key|].
    eapply roundtrips_bind; [by apply roundtrips_blob|].
    apply (roundtrips_map _ _ (CompareAndSetOp k expected)). by apply roundtrips_blob.
Qed.

Definition entry_ok (e : Entry) : Prop := text_ok (key e) ∧ text_ok (node (timestamp e)).

Lemma roundtrips_result r :
  match r with WriteApplied e => entry_ok e | WriteRejected _ => True end →
  roundtrips (writeWriteResult r) readWriteResult r.
Proof.
  intros Hr. unfold readWriteResult. destruct r as [e|why].
  - apply (roundtrips_u8_then RESULT_APPLIED (writeEntry e)); [done|].
    apply (roundtrips_map _ _ WriteApplied). destruct Hr. by apply roundtrips_entry.
  - apply (roundtrips_u8_then RESULT_REJECTED (λ w, Ok (sink_u8 (REASON_TO_BYTE why) w))); [done|].
    cbn [Z.eqb RESULT_REJECTED RESULT_APPLIED]. apply roundtrips_guard; [done|].
    apply (roundtrips_u8_then _ (λ w, Ok w)); [by destruct why|].
    replace (BYTE_TO_REASON !! _) with (Some why) by (by destruct why). apply roundtrips_ret.
Qed.

(** ** Lists *)

Lemma roundtrips_list {A} (wr : A → W → result W) (rd : Reader A) l :
  (∀ x, x ∈ l → roundtrips (wr x) rd x) →
  roundtrips (wr_list wr l) (rd_list rd (length l)) l.
Proof.
  induction l as [|x l IH]; intros Hl; cbn [wr_list rd_list length]; [apply roundtrips_ret|].
  eapply roundtrips_bind; [apply Hl; left|].
  apply (roundtrips_map _ _ (cons x)), IH. intros y Hy. apply Hl. by right.
Qed.

Lemma roundtrips_counted {A} max message (wr : A → W → result W) (rd : Reader A) l :
  negb (max <? Z.of_nat (length l)) = true → max < 2 ^ 32 →
  (∀ x, x ∈ l → roundtrips (wr x) rd x) →
  roundtrips (λ w, wr_list wr l (sink_u32 (Z.of_nat (length l)) w)) (rd_counted max message rd) l.
Proof.
  intros Hlen Hmax Hl. unfold rd_counted.
  apply (roundtrips_u32_then _ (wr_list wr l)).
  - rewrite negb_true_iff, Z.ltb_ge in Hlen. lia.
  - apply roundtrips_guard; [done|]. rewrite Nat2Z.id. by apply roundtrips_list.
Qed.

(** A [u32] field behind its range check. *)
Lemma roundtrips_checked_u32 v f :
  roundtrips (λ w, let! _ := assertU32 v f in Ok (sink_u32 v w)) rd_u32 v.
Proof. apply roundtrips_check. intros Hv%assertU32_ok. by apply roundtrips_u32. Qed.

Lemma roundtrips_digest d : roundtrips (writeDigest d) readDigest d.
Proof.
  unfold writeDigest. apply roundtrips_check. intros Hh%assertU32_ok.
  apply roundtrips_check. intros Hl%assertU32_ok. unfold readDigest.
  apply (roundtrips_u32_then (hi d) (λ w, Ok (sink_u32 (lo d) w))); [done|].
  destruct d as [h l]. apply (roundtrips_map _ _ (MkLanes h)). by apply roundtrips_u32.
Qed.

Lemma roundtrips_digests l : roundtrips (writeDigests l) readDigests l.
Proof.
  unfold writeDigests. apply roundtrips_check. intros Hn%wr_check_ok.
  apply roundtrips_counted; [done..|]. intros. apply roundtrips_digest.
Qed.

Lemma roundtrips_buckets l : roundtrips (writeBuckets l) readBuckets l.
Proof.
  unfold writeBuckets. apply roundtrips_check. intros Hn%wr_check_ok.
  apply roundtrips_counted; [done..|]. intros. apply roundtrips_checked_u32.
Qed.

Lemma roundtrips_versions l :
  (∀ v, v ∈ l → text_ok (kv_key v) ∧ text_ok (node (kv_timestamp v))) →
  roundtrips (writeKeyVersions l) readKeyVersions l.
Proof.
  intros Hl. unfold writeKeyVersions. apply roundtrips_check. intros Hn%wr_check_ok.
  apply roundtrips_counted; [done..|]. intros [k t] [Hk Ht]%Hl.
  eapply roundtrips_bind; [by apply roundtrips_key|].
  apply (roundtrips_map _ _ (MkKeyVersion k)). by apply roundtrips_time.
Qed.

Lemma roundtrips_keys l :
  (∀ k, k ∈ l → text_ok k) → roundtrips (writeKeys l) readKeys l.
Proof.
  intros Hl. unfold writeKeys. apply roundtrips_check. intros Hn%wr_check_ok.
  apply roundtrips_counted; [done..|]. intros k Hk. by apply roundtrips_key, Hl.
Qed.

Lemma roundtrips_optional_key k :
  (∀ x, k = Some x → text_ok x) → roundtrips (writeOptionalKey k) readOptionalKey k.
Proof.
  intros Hk. unfold readOptionalKey. destruct k as [k|].
  - apply (roundtrips_u8_then 1 (writeKey k)); [done|]. cbn [Z.eqb].
    apply roundtrips_guard; [done|].
    apply (roundtrips_map _ _ Some). by apply roundtrips_key, Hk.
  - apply (roundtrips_u8_then 0 (λ w, Ok w)); [done|]. apply roundtrips_ret.
Qed.

Lemma roundtrips_optional_entry e :
  (∀ x, e = Some x → entry_ok x) → roundtrips (writeOptionalEntry e) readOptionalEntry e.
Proof.
  intros He. unfold readOptionalEntry. destruct e as [e|].
  - apply (roundtrips_u8_then 1 (writeEntry e)); [done|]. cbn [Z.eqb].
    apply roundtrips_guard; [done|].
    apply (roundtrips_map _ _ Some). destruct (He e eq_refl). by apply roundtrips_entry.
  - apply (roundtrips_u8_then 0 (λ w, Ok w)); [done|]. apply roundtrips_ret.
Qed.

Lemma roundtrips_owners p :
  (∀ o, o ∈ po_owners p → text_ok o) →
  roundtrips (writePartitionOwners p) readPartitionOwners p.
Proof.
  intros Hp. unfold writePartitionOwners. apply roundtrips_check. intros Hn%wr_check_ok.
  set (n := Z.of_nat (length (po_owners p))) in *. unfold MAX_OWNERS_PER_PARTITION in *.
  assert (0 < n ≤ 16) as Hn'.
  { rewrite negb_true_iff, orb_false_iff, Z.eqb_neq, Z.ltb_ge in Hn. lia. }
  apply (roundtrips_u8_then n (wr_list (λ owner, writeName owner "owner") (po_owners p))); [lia|].
  apply roundtrips_guard; [done|]. replace (Z.to_nat n) with (length (po_owners p)) by lia.
  destruct p as [os]. apply (roundtrips_map _ _ MkPartitionOwners), roundtrips_list.
  intros o Ho. by apply roundtrips_name, Hp.
Qed.

Lemma roundtrips_table t :
  (∀ p o, p ∈ tw_partitions t → o ∈ po_owners p → text_ok o) →
  roundtrips (writeTable t) readTable t.
Proof.
  intros Ht. unfold writeTable. apply roundtrips_check. intros Hv%assertU64_ok.
  apply roundtrips_check. intros Hn%wr_check_ok. unfold readTable.
  apply (roundtrips_u64_then (tw_version t) (λ w, wr_list writePartitionOwners (tw_partitions t)
    (sink_u32 (Z.of_nat (length (tw_partitions t))) w))); [done|].
  destruct t as [v ps]. apply (roundtrips_map _ _ (MkTableWire v)).
  apply roundtrips_counted; [done..|]. intros p Hp. apply roundtrips_owners. eauto.
Qed.

Lemma roundtrips_chunk c :
  (∀ e, e ∈ ch_entries c → entry_ok e) → roundtrips (writeChunk c) readChunk c.
Proof.
  intros Hc. unfold writeChunk. apply roundtrips_check. intros Hp%assertU32_ok.
  apply roundtrips_check. intros Hn%wr_check_ok. unfold readChunk. cbv zeta.
  apply (roundtrips_u32_then (ch_partitionId c) (λ w, wr_list writeEntry (ch_entries c)
    (sink_u32 (Z.of_nat (length (ch_entries c))) (sink_u8 (if ch_final c then 1 else 0) w)))); [done|].
  apply (roundtrips_u8_then _ (λ w, wr_list writeEntry (ch_entries c)
    (sink_u32 (Z.of_nat (length (ch_entries c))) w))); [by destruct (ch_final c)|].
  apply roundtrips_guard; [by destruct (ch_final c)|].
  destruct c as [id fin es]. cbn [ch_partitionId ch_final ch_entries] in *.
  replace ((if fin then 1 else 0) =? 1) with fin by (by destruct fin).
  apply (roundtrips_map _ _ (MkChunk id fin)), roundtrips_counted; [done..|].
  intros e He. destruct (Hc e He). by apply roundtrips_entry.
Qed.

Lemma roundtrips_report r :
  text_ok (or_node r) → roundtrips (writeOwnershipReport r) readOwnershipReport r.
Proof.
  intros Hr. unfold writeOwnershipReport. apply roundtrips_check. intros Hn%wr_check_ok.
  unfold readOwnershipReport. eapply roundtrips_bind; [by apply roundtrips_name|].
  destruct r as [nd ps]. apply (roundtrips_map _ _ (MkReport nd)).
  apply roundtrips_counted; [done..|]. intros. apply roundtrips_checked_u32.
Qed.

(** ** Messages *)

Definition entry_texts (e : Entry) : list jsstring := [key e; node (timestamp e)].

(** Every key and name a message carries. *)
Definition message_texts (m : KvMessage) : list jsstring :=
  match m with
  | ReadRequest k | PeekRequest k => [k]
  | ReadResponse e => default [] (entry_texts <$> e)
  | WriteRequest op => [op_key op]
  | WriteResponse (WriteApplied e) | Replicate e => entry_texts e
  | Table t => tw_partitions t ≫= po_owners
  | FragmentChunk c | FragmentPush c => ch_entries c ≫= entry_texts
  | OwnershipReportMsg r => [or_node r]
  | FragmentRequest _ k => option_list k
  | KeyVersions _ vs => vs ≫= λ v, [kv_key v; node (kv_timestamp v)]
  | EntriesRequest _ ks => ks
  | WriteResponse (WriteRejected _) | ReplicateAck | Rebalancing _ | FragmentAck
  | SyncDigest _ _ | BucketDigests _ _ | KeyVersionsRequest _ _ => []
  end.

Lemma roundtrips_envelope type (wr : W → result W) m :
  0 ≤ type < 2 ^ 8 → roundtrips wr (decodeBody type) m →
  roundtrips (λ w, wr (writeEnvelope type w)) readMessage m.
Proof.
  intros Ht Hm. unfold readMessage, writeEnvelope.
  apply (roundtrips_u8_then PROTOCOL_VERSION (λ w, wr (sink_u8 type w))); [done|].
  apply roundtrips_guard; [done|]. by apply roundtrips_u8_then.
Qed.

Lemma Forall_entry_texts e : Forall text_ok (entry_texts e) → entry_ok e.
Proof. intros [? [? _]%Forall_cons]%Forall_cons. done. Qed.

Lemma Forall_bind_elem {A} (f : A → list jsstring) (l : list A) x :
  Forall text_ok (l ≫= f) → x ∈ l → Forall text_ok (f x).
Proof.
  rewrite !Forall_forall. intros Hall Hx y Hy. apply Hall, list_elem_of_bind. eauto.
Qed.

(** After the envelope and the partition id. *)
Lemma roundtrips_with_id type id (wr : W → result W) m (k : Z → Reader KvMessage) :
  0 ≤ type < 2 ^ 8 → decodeBody type = (rd_u32 ≫= k) → roundtrips wr (k id) m →
  roundtrips (λ w, let! w := writePartitionField id (writeEnvelope type w) in wr w) readMessage m.
Proof.
  intros Ht Hd Hm. apply (roundtrips_envelope type (λ w, let! w := writePartitionField id w in wr w));
    [done|]. rewrite Hd. eapply roundtrips_bind; [apply roundtrips_checked_u32|done].
Qed.

Lemma roundtrips_message m :
  Forall text_ok (message_texts m) → roundtrips (encodeBody m) readMessage m.
Proof.
  intros Hm. destruct m; cbn [message_texts encodeBody] in *.
  - apply (roundtrips_envelope MSG_READ_REQUEST (writeKey key)); [done|].
    rewrite Forall_singleton in Hm. apply (roundtrips_map _ _ ReadRequest). by apply roundtrips_key.
  - apply (roundtrips_envelope MSG_READ_RESPONSE (writeOptionalEntry entry)); [done|].
    apply (roundtrips_map _ _ ReadResponse), roundtrips_optional_entry.
    intros x ->. by apply Forall_entry_texts.
  - apply (roundtrips_envelope MSG_WRITE_REQUEST (writeWriteOp op)); [done|].
    rewrite Forall_singleton in Hm. by apply (roundtrips_map _ _ WriteRequest), roundtrips_op.
  - apply (roundtrips_envelope MSG_WRITE_RESPONSE (writeWriteResult result)); [done|].
    apply (roundtrips_map _ _ WriteResponse), roundtrips_result.
    destruct result; [by apply Forall_entry_texts|done].
  - apply (roundtrips_envelope MSG_TABLE (writeTable table)); [done|].
    apply (roundtrips_map _ _ Table), roundtrips_table. intros p o Hp Ho.
    pose proof (Forall_bind_elem _ _ _ Hm Hp) as H'. rewrite Forall_forall in H'. by apply H'.
  - apply (roundtrips_envelope MSG_FRAGMENT_CHUNK (writeChunk chunk)); [done|].
    apply (roundtrips_map _ _ FragmentChunk), roundtrips_chunk. intros e He.
    apply Forall_entry_texts. by eapply Forall_bind_elem.
  - apply (roundtrips_envelope MSG_OWNERSHIP_REPORT (writeOwnershipReport report)); [done|].
    rewrite Forall_singleton in Hm. by apply (roundtrips_map _ _ OwnershipReportMsg), roundtrips_report.
  - apply (roundtrips_envelope MSG_REPLICATE (writeEntry entry)); [done|].
    apply Forall_entry_texts in Hm as [? ?].
    by apply (roundtrips_map _ _ Replicate), roundtrips_entry.
  - apply (roundtrips_envelope MSG_REPLICATE_ACK (λ w, Ok w)); [done|]. apply roundtrips_ret.
  - apply (roundtrips_envelope MSG_PEEK_REQUEST (writeKey key)); [done|].
    rewrite Forall_singleton in Hm. apply (roundtrips_map _ _ PeekRequest). by apply roundtrips_key.
  - apply (roundtrips_envelope MSG_REBALANCING (writePartitionField partitionId)); [done|].
    apply (roundtrips_map _ _ Rebalancing), roundtrips_checked_u32.
  - eapply roundtrips_with_id; [done|reflexivity|].
    apply (roundtrips_map _ _ (FragmentRequest partitionId)), roundtrips_optional_key.
    intros x ->. cbn in Hm. by rewrite Forall_singleton in Hm.
  - apply (roundtrips_envelope MSG_FRAGMENT_PUSH (writeChunk chunk)); [done|].
    apply (roundtrips_map _ _ FragmentPush), roundtrips_chunk. intros e He.
    apply Forall_entry_texts. by eapply Forall_bind_elem.
  - apply (roundtrips_envelope MSG_FRAGMENT_ACK (λ w, Ok w)); [done|]. apply roundtrips_ret.
  - eapply roundtrips_with_id; [done|reflexivity|].
    apply (roundtrips_map _ _ (SyncDigest partitionId)), roundtrips_digest.
  - eapply roundtrips_with_id; [done|reflexivity|].
    apply (roundtrips_map _ _ (BucketDigests partitionId)), roundtrips_digests.
  - eapply roundtrips_with_id; [done|reflexivity|].
    apply (roundtrips_map _ _ (KeyVersionsRequest partitionId)), roundtrips_buckets.
  - eapply roundtrips_with_id; [done|reflexivity|].
    apply (roundtrips_map _ _ (KeyVersions partitionId)), roundtrips_versions. intros v Hv.
    apply (Forall_bind_elem _ _ _ Hm) in Hv as [? [? _]%Forall_cons]%Forall_cons. done.
  - eapply roundtrips_with_id; [done|reflexivity|].
    apply (roundtrips_map _ _ (EntriesRequest partitionId)), roundtrips_keys.
    intros k Hk. rewrite Forall_forall in Hm. by apply Hm.
Qed.
End codec.

(** ** Frames are self-delimiting *)

(** A reader is stable: bytes after the part it consumed do not change what it
    reads, and it only moves forward, inside the frame. *)
Definition stable {A} (rd : Reader A) : Prop :=
  ∀ bs suf off a r,
    rd (MkReader bs off) = Ok (a, r) → (off ≤ length bs)%nat →
    ∃ off', r = MkReader bs off' ∧ (off ≤ off' ≤ length bs)%nat
      ∧ rd (MkReader (bs ++ suf) off) = Ok (a, MkReader (bs ++ suf) off').

Lemma stable_ret {A} (a : A) : stable (mret a).
Proof. intros bs suf off x r [= -> <-] Hoff. exists off. split; [done|]. split; [lia|done]. Qed.

Lemma stable_fail {A} m : stable (@rd_fail A m).
Proof. intros bs suf off a r [=]. Qed.

Lemma stable_guard b m : stable (rd_guard b m).
Proof. destruct b; [apply (stable_ret tt)|apply stable_fail]. Qed.

Lemma stable_bind {A B} (rd : Reader A) (k : A → Reader B) :
  stable rd → (∀ a, stable (k a)) → stable (rd ≫= k).
Proof.
  intros Hrd Hk bs suf off b r E Hoff. unfold mbind, Reader_bind in *.
  destruct (rd (MkReader bs off)) as [[a r1]|] eqn:E1; [|done].
  destruct (Hrd bs suf off a r1 E1 Hoff) as (off1 & -> & Ho1 & ->).
  destruct (Hk a bs suf off1 b r E) as (off2 & -> & Ho2 & ->); [lia|].
  exists off2. split; [done|]. split; [lia|done].
Qed.

Lemma stable_take n : stable (rd_take n).
Proof.
  intros bs suf off a r E Hoff. unfold rd_take, remaining in *. cbn [rd_bytes rd_offset] in *.
  destruct (Nat.ltb_spec (length bs - off) n) as [|Hn]; [done|]. injection E as <- <-.
  exists (off + n)%nat. split; [done|]. split; [lia|].
  rewrite length_app. destruct (Nat.ltb_spec (length bs + length suf - off) n); [lia|].
  by rewrite drop_app_le, take_app_le by (rewrite ?length_drop; lia).
Qed.

Lemma stable_list {A} (rd : Reader A) n : stable rd → stable (rd_list rd n).
Proof.
  intros Hrd. induction n as [|n IH]; cbn [rd_list]; [apply stable_ret|].
  apply stable_bind; [done|]. intros x. apply stable_bind; [done|]. intros. apply stable_ret.
Qed.

Create HintDb codec.
#[export] Hint Resolve stable_ret stable_fail stable_guard stable_take stable_list : codec.

(** Splits a reader along its binds and branches. *)
Ltac stable_tac :=
  repeat first
    [ progress intros
    | apply stable_bind
    | solve [eauto with codec]
    | match goal with |- stable (match ?x with _ => _ end) => destruct x end ].

Lemma stable_field n f : stable (bs ← rd_take n; mret (f bs) : Reader Z).
Proof. stable_tac. Qed.

Lemma stable_utf8 bs f : stable (decodeUtf8 bs f).
Proof. unfold decodeUtf8. stable_tac. Qed.
#[export] Hint Resolve stable_utf8 : codec.

Lemma stable_key : stable readKey.
Proof. unfold readKey, rd_u16. stable_tac. Qed.
Lemma stable_name f : stable (readName f).
Proof. unfold readName, rd_u8. stable_tac. Qed.
Lemma stable_blob m f : stable (readBlob m f).
Proof. unfold readBlob, rd_u32. stable_tac. Qed.
#[export] Hint Resolve stable_key stable_name stable_blob : codec.

Lemma stable_time : stable readHybridTime.
Proof. unfold readHybridTime, rd_u64, rd_u32. stable_tac. Qed.
#[export] Hint Resolve stable_time : codec.

Lemma stable_entry : stable readEntry.
Proof. unfold readEntry, readSafeU64, rd_u8, rd_u64. stable_tac. Qed.
#[export] Hint Resolve stable_entry : codec.

Lemma stable_op : stable readWriteOp.
Proof.
  unfold readWriteOp, readPut, readCompareAndSet, readSafeU64, rd_u8, rd_u64, rd_i64. stable_tac.
Qed.
Lemma stable_result : stable readWriteResult.
Proof. unfold readWriteResult, rd_u8. stable_tac. Qed.
Lemma stable_digest : stable readDigest.
Proof. unfold readDigest, rd_u32. stable_tac. Qed.
Lemma stable_counted {A} max m (rd : Reader A) : stable rd → stable (rd_counted max m rd).
Proof. intros. unfold rd_counted, rd_u32. stable_tac. Qed.
#[export] Hint Resolve stable_op stable_result stable_digest stable_counted stable_bind : codec.

Lemma stable_owners : stable readPartitionOwners.
Proof. unfold readPartitionOwners, rd_u8. stable_tac. Qed.
#[export] Hint Resolve stable_owners : codec.

Lemma stable_message : stable readMessage.
Proof.
  unfold readMessage, decodeBody, readOptionalEntry, readOptionalKey, readTable, readChunk,
    readOwnershipReport, readDigests, readBuckets, readKeyVersions, readKeys, rd_u8, rd_u32, rd_u64.
  stable_tac.
Qed.

(** ** The growable buffer against a plain list *)

(** The reference sink: the bytes written so far. *)
#[global] Instance list_sink : ByteSink (list Z) := {|
  sink_u8 := λ v w, w ++ be_encode 1 v; sink_u16 := λ v w, w ++ be_encode 2 v;
  sink_u32 := λ v w, w ++ be_encode 4 v; sink_u64 := λ v w, w ++ be_encode 8 v;
  sink_i64 := λ v w, w ++ be_encode 8 v; sink_raw := λ bs w, w ++ bs;
  sink_finish := λ w, w |}.

(** ** Writers are parametric in the sink *)

(** A relation between two sinks that every field preserves. *)
Class SinkRel {W1 W2 : Type} `{ByteSink W1, ByteSink W2} (R : W1 → W2 → Prop) := {
  rel_u8 v w l : R w l → R (sink_u8 v w) (sink_u8 v l);
  rel_u16 v w l : R w l → R (sink_u16 v w) (sink_u16 v l);
  rel_u32 v w l : R w l → R (sink_u32 v w) (sink_u32 v l);
  rel_u64 v w l : R w l → R (sink_u64 v w) (sink_u64 v l);
  rel_i64 v w l : R w l → R (sink_i64 v w) (sink_i64 v l);
  rel_raw bs w l : R w l → R (sink_raw bs w) (sink_raw bs l) }.

(** Two runs that fail alike, and otherwise end in related sinks. *)
Definition same {W1 W2} (R : W1 → W2 → Prop) (r : result W1) (s : result W2) : Prop :=
  match r, s with
  | Ok w, Ok l => R w l
  | Throw e, Throw e' => e = e'
  | _, _ => False
  end.

Lemma same_ok {W1 W2} (R : W1 → W2 → Prop) w l : R w l → same R (Ok w) (Ok l).
Proof. done. Qed.

Lemma same_check {W1 W2 A} (R : W1 → W2 → Prop) (c : result A) f g :
  (∀ a, same R (f a) (g a)) → same R (let! a := c in f a) (let! a := c in g a).
Proof. intros Hfg. destruct c; cbn [result_bind]; [apply Hfg|done]. Qed.

Lemma same_bind {W1 W2} (R : W1 → W2 → Prop) r s f g :
  same R r s → (∀ w l, R w l → same R (f w) (g l)) →
  same R (let! w := r in f w) (let! l := s in g l).
Proof. intros Hrs Hfg. destruct r, s; cbn [result_bind]; try done. by apply Hfg. Qed.

Lemma same_list {W1 W2 A} (R : W1 → W2 → Prop) (f : A → W1 → result W1) (g : A → W2 → result W2)
    xs w l :
  (∀ x w l, R w l → same R (f x w) (g x l)) → R w l →
  same R (wr_list f xs w) (wr_list g xs l).
Proof.
  intros Hfg. revert w l. induction xs as [|x xs IH]; intros w l Hw; cbn [wr_list]; [done|].
  apply same_bind; [by apply Hfg|]. intros. by apply IH.
Qed.

#[export] Hint Resolve same_ok : codec.

(** Splits two runs of one writer along its checks, writes and branches. *)
Ltac same_tac :=
  repeat first
    [ progress intros
    | progress cbv zeta
    | solve [eauto 10 with codec]
    | apply same_list
    | (apply same_bind; [solve [same_tac]|])
    | apply same_check
    | match goal with |- same _ (match ?x with _ => _ end) _ => destruct x end ].

(** The type byte a message travels under. *)
Definition kind (m : KvMessage) : Z :=
  match m with
  | ReadRequest _ => MSG_READ_REQUEST | ReadResponse _ => MSG_READ_RESPONSE
  | WriteRequest _ => MSG_WRITE_REQUEST | WriteResponse _ => MSG_WRITE_RESPONSE
  | Table _ => MSG_TABLE | FragmentChunk _ => MSG_FRAGMENT_CHUNK
  | OwnershipReportMsg _ => MSG_OWNERSHIP_REPORT | Replicate _ => MSG_REPLICATE
  | ReplicateAck => MSG_REPLICATE_ACK | PeekRequest _ => MSG_PEEK_REQUEST
  | Rebalancing _ => MSG_REBALANCING | FragmentRequest _ _ => MSG_FRAGMENT_REQUEST
  | FragmentPush _ => MSG_FRAGMENT_PUSH | FragmentAck => MSG_FRAGMENT_ACK
  | SyncDigest _ _ => MSG_SYNC_DIGEST | BucketDigests _ _ => MSG_BUCKET_DIGESTS
  | KeyVersionsRequest _ _ => MSG_KEY_VERSIONS_REQUEST | KeyVersions _ _ => MSG_KEY_VERSIONS
  | EntriesRequest _ _ => MSG_ENTRIES_REQUEST
  end.

Section parametric.
Context `{HR : SinkRel W1 W2 R}.
Implicit Types (w : W1) (l : W2).

#[local] Hint Extern 1 (R (sink_u8 _ _) _) => apply rel_u8 : codec.
#[local] Hint Extern 1 (R (sink_u16 _ _) _) => apply rel_u16 : codec.
#[local] Hint Extern 1 (R (sink_u32 _ _) _) => apply rel_u32 : codec.
#[local] Hint Extern 1 (R (sink_u64 _ _) _) => apply rel_u64 : codec.
#[local] Hint Extern 1 (R (sink_i64 _ _) _) => apply rel_i64 : codec.
#[local] Hint Extern 1 (R (sink_raw _ _) _) => apply rel_raw : codec.

Lemma same_key k w l : R w l → same R (writeKey k w) (writeKey k l).
Proof. intros. unfold writeKey. same_tac. Qed.
Lemma same_name n f w l : R w l → same R (writeName n f w) (writeName n f l).
Proof. intros. unfold writeName. same_tac. Qed.
Lemma same_blob bs m f w l : R w l → same R (writeBlob bs m f w) (writeBlob bs m f l).
Proof. intros. unfold writeBlob. same_tac. Qed.
#[local] Hint Resolve same_key same_name same_blob : codec.

Lemma same_time t w l : R w l → same R (writeHybridTime t w) (writeHybridTime t l).
Proof. intros. unfold writeHybridTime. same_tac. Qed.
#[local] Hint Resolve same_time : codec.

Lemma same_entry e w l : R w l → same R (writeEntry e w) (writeEntry e l).
Proof.
  intros. unfold writeEntry. do 3 (apply same_check; intros). same_tac;
    destruct (expiresAt e), (value e); eauto 10 with codec.
Qed.
#[local] Hint Resolve same_entry : codec.

Lemma same_op op w l : R w l → same R (writeWriteOp op w) (writeWriteOp op l).
Proof.
  intros. unfold writeWriteOp, writePut, writeIncrement, writeCompareAndSet. same_tac.
Qed.
Lemma same_result r w l : R w l → same R (writeWriteResult r w) (writeWriteResult r l).
Proof. intros. unfold writeWriteResult. same_tac. Qed.
Lemma same_chunk c w l : R w l → same R (writeChunk c w) (writeChunk c l).
Proof. intros. unfold writeChunk. same_tac. Qed.
Lemma same_field id w l : R w l → same R (writePartitionField id w) (writePartitionField id l).
Proof. intros. unfold writePartitionField. same_tac. Qed.
Lemma same_digest d w l : R w l → same R (writeDigest d w) (writeDigest d l).
Proof. intros. unfold writeDigest. same_tac. Qed.
Lemma same_envelope type w l : R w l → R (writeEnvelope type w) (writeEnvelope type l).
Proof. intros. unfold writeEnvelope. eauto with codec. Qed.
#[local] Hint Resolve same_op same_result same_chunk same_field same_digest : codec.

(** A message's body after its envelope. *)
Lemma same_body m w l :
  R (writeEnvelope (kind m) w) (writeEnvelope (kind m) l) →
  same R (encodeBody m w) (encodeBody m l).
Proof.
  intros Hw. destruct m; cbn [encodeBody kind] in *;
    unfold writeOptionalEntry, writeOptionalKey, writeTable, writePartitionOwners,
      writeOwnershipReport, writeDigests, writeBuckets, writeKeyVersions, writeKeys; same_tac.
Qed.

Lemma same_message m w l : R w l → same R (encodeBody m w) (encodeBody m l).
Proof. intros Hw. by apply same_body, same_envelope. Qed.
End parametric.

(** A lawful sink holds the bytes the list sink holds. *)
Definition holds `{ByteSinkLaws W} (w : W) (l : list Z) : Prop := sink_ok w ∧ sink_finish w = l.

#[global] Instance holds_rel `{ByteSinkLaws W} : SinkRel holds.
Proof.
  split; intros v w l [Hw <-].
  - by destruct (sink_u8_law v w Hw).
  - by destruct (sink_u16_law v w Hw).
  - by destruct (sink_u32_law v w Hw).
  - by destruct (sink_u64_law v w Hw).
  - by destruct (sink_i64_law v w Hw).
  - by destruct (sink_raw_law v w Hw).
Qed.

(** The list sink after a prefix. *)
Definition after (pre w l : list Z) : Prop := w = pre ++ l.

#[global] Instance after_rel pre : SinkRel (after pre).
Proof. split; intros v w l ->; unfold after; cbn; by rewrite app_assoc. Qed.

(** A record's bytes do not depend on what was written before it. *)
Lemma writeEntry_app e (w : list Z) :
  writeEntry e w = (let! b := writeEntry e ([] : list Z) in Ok (w ++ b)).
Proof.
  pose proof (same_entry (R := after w) e w []) as H.
  specialize (H ltac:(unfold after; by rewrite app_nil_r)).
  destruct (writeEntry e w), (writeEntry e []); cbn [result_bind]; try done.
  - unfold same, after in H. by subst.
  - unfold same in H. by subst.
Qed.

(** UTF-8 takes at most three bytes per code unit. *)
Lemma length_text_encode s :
  Forall is_unit s → (length (text_encode s) ≤ 3 * length s)%nat.
Proof.
  assert (∀ c, (length (utf8_of_code_point c) ≤ 4)%nat) as H4
    by (intros c; unfold utf8_of_code_point; repeat case_match; cbn; lia).
  assert (∀ c, c < 0x10000 → (length (utf8_of_code_point c) ≤ 3)%nat) as H3.
  { intros c Hc. unfold utf8_of_code_point. rewrite (proj2 (Z.ltb_lt c 0x10000)) by done.
    repeat case_match; cbn; lia. }
  unfold text_encode. induction s as [s IH] using (induction_ltof1 _ (@length Z)). unfold ltof in IH.
  destruct s as [|u s]; [done|]. intros [Hu Hs]%Forall_cons. cbn [code_points].
  destruct (is_high u) eqn:Eh.
  - destruct s as [|l s]; [vm_compute; lia|]. destruct (is_low l).
    + apply Forall_cons in Hs as [_ Hs].
      rewrite bind_cons, length_app. specialize (IH s ltac:(cbn; lia) Hs).
      specialize (H4 (0x10000 + (u - 0xD800) * 1024 + (l - 0xDC00))). cbn [length]. lia.
    + rewrite bind_cons, length_app. specialize (IH (l :: s) ltac:(cbn; lia) Hs).
      specialize (H3 0xFFFD ltac:(lia)). cbn [length] in *. lia.
  - specialize (IH s ltac:(cbn; lia) Hs). destruct (is_low u); rewrite bind_cons, length_app.
    + specialize (H3 0xFFFD ltac:(lia)). cbn [length] in *. lia.
    + specialize (H3 u ltac:(unfold is_unit in Hu; lia)). cbn [length] in *. lia.
Qed.

(** ** Properties *)

(** The two directions of the codec, for the components that send messages. *)
Lemma encode_append m : encodeMessage m = encodeBody m ([] : list Z).
Proof.
  unfold encodeMessage. destruct (new_ByteWriter_ok 64) as [Hok Hfin].
  pose proof (same_message (R := holds) m (new_ByteWriter 64) [] (conj Hok Hfin)) as H.
  destruct (encodeBody m (new_ByteWriter 64)), (encodeBody m ([] : list Z));
    cbn [result_bind]; try done; [destruct H as [_ <-]; done|by f_equal].
Qed.

Lemma decode_encode m bs :
  Forall text_ok (message_texts m) → encodeMessage m = Ok bs → decodeMessage bs = Ok m.
Proof.
  intros Hm E. unfold encodeMessage in E. inv_ok.
  destruct (new_ByteWriter_ok 64) as [Hok Hfin].
  pose proof (roundtrips_message (HL:=ByteWriter_laws) m Hm) as Hrt.
  destruct (Hrt (new_ByteWriter 64) r Hok E0) as (_ & bs & Hbs & Hrd).
  cbn [sink_finish ByteWriter_sink] in *. rewrite Hfin in Hbs. cbn [app] in Hbs.
  unfold decodeMessage. rewrite Hbs.
  by rewrite (reads_whole readMessage bs m Hrd).
Qed.

(** Two lists that start alike. *)
Definition starts (pre w l : list Z) : Prop := w = l ∧ pre `prefix_of` w.

#[global] Instance starts_rel pre : SinkRel (starts pre).
Proof. split; intros v w l [<- H]; (split; [done|]); cbn; by apply prefix_app_r. Qed.

(** The decoder dispatches on the type the encoder wrote. *)
Lemma rd_bind_ok {A B} (rd : Reader A) (k : A → Reader B) r y :
  (x ← rd; k x) r = Ok y → ∃ a r', rd r = Ok (a, r') ∧ k a r' = Ok y.
Proof. unfold mbind, Reader_bind. destruct (rd r) as [[a r']|]; [eauto|done]. Qed.

Lemma decodeBody_kind type r m r' : decodeBody type r = Ok (m, r') → kind m = type.
Proof.
  unfold decodeBody. intros H.
  repeat match type of H with
    | (if ?b then _ else _) _ = _ =>
        let E := fresh "E" in destruct b eqn:E; [apply Z.eqb_eq in E; subst type|]
    end; repeat (apply rd_bind_ok in H as (? & ? & _ & H)); try done;
    unfold mret, Reader_ret in H; by injection H as <- _.
Qed.

Lemma decodeMessage_kind type rest m :
  0 ≤ type < 256 → decodeMessage ([PROTOCOL_VERSION; type] ++ rest) = Ok m → kind m = type.
Proof.
  intros Ht D. unfold decodeMessage in D. inv_ok. destruct r as [m r]. cbn [fst].
  apply rd_bind_ok in E as (m' & r1 & E & Hend).
  apply rd_bind_ok in Hend as (? & ? & _ & Hend). injection Hend as <- _.
  unfold readMessage, new_ByteReader in E.
  assert (∀ v l o, 0 ≤ v < 256 → drop o l = v :: drop (S o) l →
    rd_u8 (MkReader l o) = Ok (v, MkReader l (S o))) as Hu8.
  { intros v l o Hv Hd. unfold rd_u8, mbind, Reader_bind, rd_take, remaining. cbn [rd_bytes rd_offset].
    pose proof (f_equal length Hd) as Hl. rewrite !length_drop in Hl. cbn in Hl. rewrite length_drop in Hl.
    destruct (Nat.ltb_spec (length l - o) 1); [lia|]. rewrite Hd. cbn.
    rewrite Nat.add_1_r. repeat f_equal. }
  apply rd_bind_ok in E as (v & r2 & Ev & E).
  rewrite (Hu8 PROTOCOL_VERSION) in Ev by done. injection Ev as <- <-.
  apply rd_bind_ok in E as (? & r3 & Eg & E). injection Eg as _ <-.
  apply rd_bind_ok in E as (t & r4 & Et & E).
  rewrite (Hu8 type) in Et by done. injection Et as <- <-. by eapply decodeBody_kind.
Qed.

Lemma decode_kind m m' bs :
  encodeMessage m = Ok bs → decodeMessage bs = Ok m' → kind m' = kind m.
Proof.
  intros E D. rewrite encode_append in E.
  assert (writeEnvelope (kind m) ([] : list Z) = [PROTOCOL_VERSION; kind m]) as Henv
    by (by destruct m).
  assert ([PROTOCOL_VERSION; kind m] `prefix_of` bs) as [rest ->].
  { pose proof (same_body (R := starts [PROTOCOL_VERSION; kind m]) m [] []) as H.
    rewrite E, Henv in H. by apply H. }
  apply decodeMessage_kind in D; [done|]. by destruct m.
Qed.

(** The growable writer is transparent: [encodeMessage], through a buffer that
    starts at 64 bytes and doubles, gives for every message exactly the bytes, or
    the protocol error, that appending every field to a list gives. *)
Theorem encode_refines_append m : encodeMessage m = encodeBody m ([] : list Z).
Proof. apply encode_append. Qed.

(** C3: decoding inverts encoding: for each of the nineteen messages, whatever
    [encodeMessage] accepts [decodeMessage] returns unchanged, provided no key or
    name in it starts with a byte order mark. *)
Theorem wire_roundtrip m bs :
  Forall text_ok (message_texts m) → encodeMessage m = Ok bs → decodeMessage bs = Ok m.
Proof. apply decode_encode. Qed.

Definition sample_chunk : FragmentChunkWire :=
  MkChunk 7 true
    [MkEntry (js "user/1") (Some [1; 2; 255]) (MkTime 1_700_000_000_000 3 (js "n1:9000")) 12
       (Some 1_700_000_060_000) false;
     MkEntry (js "user/2") None (MkTime 1_700_000_000_001 0 (js "n2:9000")) 13 None true].

Definition sample_message : KvMessage := FragmentPush sample_chunk.

Lemma wire_roundtrip_witness :
  ∃ bs, encodeMessage sample_message = Ok bs ∧ length bs = 100%nat
        ∧ decodeMessage bs = Ok sample_message.
Proof.
  destruct (encodeMessage sample_message) as [bs|e] eqn:E; [|vm_compute in E; discriminate E].
  exists bs. split; [reflexivity|]. split.
  - vm_compute in E. injection E as <-. vm_compute. reflexivity.
  - apply (wire_roundtrip sample_message); [|exact E].
    repeat constructor; vm_compute; try reflexivity; discriminate.
Defined.

(** Frames are self-delimiting: bytes appended to a frame that decodes are
    rejected as trailing, so no proper prefix of a frame decodes to anything. *)
Theorem frames_self_delimiting bs m :
  decodeMessage bs = Ok m →
  (∀ suf, suf ≠ [] →
     decodeMessage (bs ++ suf) = Throw (KvProtocolError "trailing bytes after message"))
  ∧ ∀ n m', (n < length bs)%nat → decodeMessage (take n bs) ≠ Ok m'.
Proof.
  assert (∀ bs m suf, decodeMessage bs = Ok m → suf ≠ [] →
    decodeMessage (bs ++ suf) = Throw (KvProtocolError "trailing bytes after message")) as Hsuf.
  { clear. intros bs m suf H Hne. unfold decodeMessage, new_ByteReader in *.
    unfold mbind, Reader_bind in *.
    destruct (readMessage (MkReader bs 0)) as [[m0 r]|] eqn:E; [|done].
    destruct (stable_message bs suf 0%nat m0 r E) as (off & -> & Hoff & ->); [lia|].
    unfold rd_end, remaining in *. cbn [rd_bytes rd_offset] in *.
    destruct (Nat.eqb_spec (length bs - off) 0) as [H0|]; [|done].
    rewrite length_app. destruct (Nat.eqb_spec (length bs + length suf - off) 0); [|done].
    destruct suf; [done|]. cbn [length] in *. lia. }
  intros H. split; [intros suf; by apply (Hsuf bs m)|]. intros n m' Hn H'.
  assert (decodeMessage (take n bs ++ drop n bs) = Throw (KvProtocolError "trailing bytes after message"))
    as E.
  { apply (Hsuf _ m' _ H'). intros E%(f_equal length). rewrite length_drop in E. cbn in E. lia. }
  rewrite take_drop in E. congruence.
Qed.

Lemma frames_self_delimiting_witness :
  (∀ suf, suf ≠ [] →
     decodeMessage ([1; 6] ++ suf) = Throw (KvProtocolError "trailing bytes after message"))
  ∧ ∀ n m', (n < 2)%nat → decodeMessage (take n [1; 6]) ≠ Ok m'.
Proof. apply (frames_self_delimiting [1; 6] ReplicateAck). vm_compute. reflexivity. Defined.

(** A key that starts with U+FEFF does not survive the wire: it is accepted by
    the encoder and comes back without that first character, so the peer reads
    another key. *)
Theorem byte_order_mark_key_changes k bs :
  Forall is_unit k → encodeMessage (ReadRequest (0xFEFF :: k)) = Ok bs →
  decodeMessage bs = Ok (ReadRequest k).
Proof.
  intros Hk E. unfold encodeMessage in E. inv_ok. destruct (new_ByteWriter_ok 64) as [Hok Hfin].
  assert (roundtrips (H0:=ByteWriter_laws) (encodeBody (ReadRequest (0xFEFF :: k))) readMessage
    (ReadRequest k)) as Hrt.
  { apply (roundtrips_envelope MSG_READ_REQUEST (writeKey (0xFEFF :: k))); [done|].
    apply (roundtrips_map _ _ ReadRequest), roundtrips_key_bom; [|done].
    constructor; [done|exact Hk]. }
  destruct (Hrt (new_ByteWriter 64) r Hok E0) as (_ & bs & Hbs & Hrd).
  cbn [sink_finish ByteWriter_sink] in *. rewrite Hfin in Hbs. cbn [app] in Hbs.
  unfold decodeMessage. rewrite Hbs. by rewrite (reads_whole readMessage bs _ Hrd).
Qed.

Lemma byte_order_mark_key_changes_witness :
  ∃ bs, encodeMessage (ReadRequest (0xFEFF :: js "a")) = Ok bs
        ∧ decodeMessage bs = Ok (ReadRequest (js "a")).
Proof.
  destruct (encodeMessage (ReadRequest (0xFEFF :: js "a"))) as [bs|e] eqn:E;
    [|vm_compute in E; discriminate E].
  exists bs. split; [reflexivity|]. apply byte_order_mark_key_changes; [|exact E].
  repeat constructor; vm_compute; try reflexivity; discriminate.
Defined.
