(* ===== verification/Fragment.v ===== *)
(** * Paged fragment transfer ([src/kv/fragment.ts])

    A partition's fragment moves in byte-bounded pages ordered by key, pushed chunk
    by acknowledged chunk or pulled behind a key cursor.  The pages partition the
    fragment, a page never exceeds its byte budget unless it holds one record, and
    a completed push or pull leaves the receiver with the last-write-wins union. *)
From S2P Require Import Prelude JsNumber JsString Hash Hlc Entry Partition Store Ports Engine.
From S2P Require Import Double Ring RoutingTable ByteIO KvWire KvCodec.

Definition ENTRY_OVERHEAD_BYTES : Z := 64.
Definition MAX_UTF8_BYTES_PER_UNIT : Z := 3.

Definition approximateEntrySize (entry : Entry) : Z :=
  let valueBytes := match value entry with None => 0 | Some v => Z.of_nat (length v) end in
  let keyBytes := Z.of_nat (length (key entry)) * MAX_UTF8_BYTES_PER_UNIT in
  let nodeBytes := Z.of_nat (length (node (timestamp entry))) * MAX_UTF8_BYTES_PER_UNIT in
  ENTRY_OVERHEAD_BYTES + valueBytes + keyBytes + nodeBytes.

(** The order [compareByKey] sorts by; keys within a partition are distinct. *)
Definition key_le (a b : Entry) : Prop := str_le (key a) (key b) = true.

#[global] Instance key_le_dec : RelDecision key_le.
Proof. intros a b. unfold key_le. apply _. Defined.

(** [entries.sort(compareByKey)]. *)
Definition sortByKey (entries : list Entry) : list Entry := merge_sort key_le entries.

Definition firstKeyAfter (sorted : list Entry) (afterKey : jsstring) : Z :=
  lower_bound (S (length sorted)) (λ e, str_le (key e) afterKey) sorted
    0 (Z.of_nat (length sorted)).

(** The loop of [pageAfter]: the page filled so far, its size, and what follows. *)
Fixpoint page_loop (entries : list Entry) (bytes : Z) (rest : list Entry)
    : list Entry * list Entry :=
  match rest with
  | [] => (entries, [])
  | entry :: rest' =>
      let size := approximateEntrySize entry in
      if (0 <? Z.of_nat (length entries)) && (FRAGMENT_CHUNK_BYTES <? bytes + size)
      then (entries, rest)
      else page_loop (entries ++ [entry]) (bytes + size) rest'
  end.

Definition pageAfter (sorted : list Entry) (partition : Z) (afterKey : option jsstring)
    : FragmentChunkWire :=
  let index := match afterKey with None => 0 | Some k => firstKeyAfter sorted k end in
  let '(entries, rest) := page_loop [] 0 (drop (Z.to_nat index) sorted) in
  MkChunk partition (Nat.eqb (length rest) 0) entries.

Definition lastKeyOf (chunk : FragmentChunkWire) : option jsstring := key <$> last (ch_entries chunk).

(** [isFragmentAck] and [decodeChunk]: malformed bytes count as no answer. *)
Definition isFragmentAck (bytes : list Z) : bool :=
  match decodeMessage bytes with Ok FragmentAck => true | _ => false end.

Definition decodeChunk (bytes : list Z) : option FragmentChunkWire :=
  match decodeMessage bytes with Ok (FragmentChunk chunk) => Some chunk | _ => None end.

Definition sortedFragment (e : Engine) (partition : Z) : list Entry :=
  sortByKey (snapshot (store e) partition).

Definition servePage (e : Engine) (partition : Z) (afterKey : option jsstring)
    : FragmentChunkWire :=
  pageAfter (sortedFragment e partition) partition afterKey.

Fixpoint merge_entries (e : Engine) (entries : list Entry) : result Engine :=
  match entries with
  | [] => Ok e
  | entry :: entries' => let! e := engine_merge e entry in merge_entries e entries'
  end.

Definition applyChunk (e : Engine) (chunk : FragmentChunkWire) : result Engine :=
  merge_entries e (ch_entries chunk).

(** [#sendChunk]: [carrier] is what the request brings back, [None] when it fails. *)
Definition sendChunk (carrier : list Z → option (list Z)) (chunk : FragmentChunkWire) : result bool :=
  let! request := encodeMessage (FragmentPush chunk) in
  Ok (match carrier request with Some bytes => isFragmentAck bytes | None => false end).

(** [#pushChunks]: [acknowledged i chunk] is what sending the [i]-th chunk comes to, an
    exception when it cannot be encoded.  The outcome and the chunks sent; [None] when the
    fuel runs out. *)
Fixpoint pushChunks (fuel : nat) (acknowledged : nat → FragmentChunkWire → result bool) (i : nat)
    (partition : Z) (sorted : list Entry) (afterKey : option jsstring)
    : option (result (bool * list FragmentChunkWire)) :=
  match fuel with
  | O => None
  | S fuel' =>
      let chunk := pageAfter sorted partition afterKey in
      match acknowledged i chunk with
      | Throw err => Some (Throw err)
      | Ok acked =>
          if negb acked then Some (Ok (false, [chunk]))
          else if ch_final chunk then Some (Ok (true, [chunk]))
          else
            outcome ← pushChunks fuel' acknowledged (S i) partition sorted (lastKeyOf chunk);
            Some (let! (ok, sent) := outcome in Ok (ok, chunk :: sent))
      end
  end.

Definition push (fuel : nat) (acknowledged : nat → FragmentChunkWire → result bool)
    (e : Engine) (partition : Z) : option (result (bool * list FragmentChunkWire)) :=
  pushChunks fuel acknowledged 0 partition (sortedFragment e partition) None.

Definition pushEntries (fuel : nat) (acknowledged : nat → FragmentChunkWire → result bool)
    (partition : Z) (entries : list Entry) : option (result (bool * list FragmentChunkWire)) :=
  pushChunks fuel acknowledged 0 partition (sortByKey entries) None.

(** One turn of the loop of [#pages]: [answer] is what the page request resolves to,
    an exception when it cannot be encoded and [None] on no or a foreign answer;
    [onChunk] updates the caller's state.  The state and the next cursor, if any. *)
Definition page_turn {S} (answer : result (option FragmentChunkWire))
    (onChunk : S → FragmentChunkWire → result S) (afterKey : option jsstring) (s : S)
    : result (S * option jsstring) :=
  let! answer := answer in
  match answer with
  | None => Ok (s, None)
  | Some chunk =>
      let! s' := onChunk s chunk in
      if ch_final chunk then Ok (s', None)
      else
        match lastKeyOf chunk with
        | None => Ok (s', None)
        | Some nextKey =>
            if match afterKey with Some k => str_le nextKey k | None => false end
            then Ok (s', None)
            else Ok (s', Some nextKey)
        end
  end.

(** [#pages]: [request i afterKey] is what the [i]-th page request resolves to. *)
Fixpoint pages {S} (fuel : nat) (request : nat → option jsstring → result (option FragmentChunkWire))
    (onChunk : S → FragmentChunkWire → result S) (i : nat) (afterKey : option jsstring) (s : S)
    : option (result S) :=
  match fuel with
  | O => None
  | Datatypes.S fuel' =>
      match page_turn (request i afterKey) onChunk afterKey s with
      | Throw err => Some (Throw err)
      | Ok (s', None) => Some (Ok s')
      | Ok (s', Some nextKey) => pages fuel' request onChunk (Datatypes.S i) (Some nextKey) s'
      end
  end.

Definition pull (fuel : nat) (request : nat → option jsstring → result (option FragmentChunkWire))
    (e : Engine) : option (result Engine) :=
  pages fuel request applyChunk 0 None e.

Definition collect (fuel : nat)
    (request : nat → option jsstring → result (option FragmentChunkWire))
    : option (result (list Entry)) :=
  pages fuel request (λ entries chunk, Ok (entries ++ ch_entries chunk)) 0 None [].

(** [#requestPage]: one page over a carrier that maps a request to the reply it
    brings, or to nothing when the request fails. *)
Definition requestPage (carrier : list Z → option (list Z)) (partition : Z)
    (afterKey : option jsstring) : result (option FragmentChunkWire) :=
  let! request := encodeMessage (FragmentRequest partition afterKey) in
  Ok (carrier request ≫= decodeChunk).

(** ** Key order *)

Definition key_lt (a b : Entry) : Prop := str_lt (key a) (key b) = true.

#[global] Instance key_le_trans : Transitive key_le.
Proof.
  intros a b c. unfold key_le. rewrite !str_le_spec. intros [H1|H1] [H2|H2].
  - left. by eapply str_lt_trans.
  - left. by rewrite <-H2.
  - left. by rewrite H1.
  - right. congruence.
Qed.

#[global] Instance key_le_total : Total key_le.
Proof.
  intros a b. unfold key_le. rewrite !str_le_spec.
  destruct (str_lt (key a) (key b)) eqn:E1; [auto|].
  destruct (str_lt (key b) (key a)) eqn:E2; [auto|]. left. right. by apply str_lt_total.
Qed.

(** Distinct keys sort strictly. *)
Lemma sorted_strict l :
  StronglySorted key_le l → NoDup (key <$> l) → StronglySorted key_lt l.
Proof.
  induction 1 as [|e l Hl IH He]; [constructor|]. rewrite fmap_cons.
  intros [Hnot Hnd]%NoDup_cons. constructor; [by apply IH|].
  rewrite Forall_forall in *. intros x Hx. specialize (He x Hx). unfold key_le in He.
  apply str_le_spec in He as [He|He]; [done|]. destruct Hnot.
  apply list_elem_of_fmap. exists x. done.
Qed.

Lemma sortByKey_strict l : NoDup (key <$> l) → StronglySorted key_lt (sortByKey l).
Proof.
  intros Hnd. apply sorted_strict; [apply StronglySorted_merge_sort; apply _|].
  unfold sortByKey. by rewrite merge_sort_Permutation.
Qed.

Lemma sortByKey_perm l : sortByKey l ≡ₚ l.
Proof. apply merge_sort_Permutation. Qed.

(** ** One page *)

Definition page_size (entries : list Entry) : Z := foldr (λ e n, approximateEntrySize e + n) 0 entries.

Lemma approximateEntrySize_pos e : 64 ≤ approximateEntrySize e.
Proof.
  unfold approximateEntrySize, ENTRY_OVERHEAD_BYTES, MAX_UTF8_BYTES_PER_UNIT.
  destruct (value e); lia.
Qed.

Lemma page_size_app l e : page_size (l ++ [e]) = page_size l + approximateEntrySize e.
Proof. induction l as [|x l IH]; cbn; [lia|]. unfold page_size in IH. cbn in IH. lia. Qed.

(** A page within its byte budget: it fits, or it is one record. *)
Definition within_budget (entries : list Entry) : Prop :=
  page_size entries ≤ FRAGMENT_CHUNK_BYTES ∨ (length entries ≤ 1)%nat.

Lemma page_loop_spec entries bytes rest :
  bytes = page_size entries → within_budget entries →
  let '(es, rest') := page_loop entries bytes rest in
  (∃ pre, es = entries ++ pre ∧ rest = pre ++ rest')
  ∧ within_budget es
  ∧ (rest ≠ [] → es ≠ []).
Proof.
  revert entries bytes. induction rest as [|e rest IH]; intros entries bytes Hb Hw; cbn [page_loop].
  { split; [exists []; by rewrite app_nil_r|]. done. }
  destruct (Z.ltb_spec 0 (Z.of_nat (length entries))) as [Hne|He]; cbn [andb].
  - destruct (Z.ltb_spec FRAGMENT_CHUNK_BYTES (bytes + approximateEntrySize e)) as [Hbig|Hfit].
    + split; [exists []; by rewrite app_nil_r|]. split; [done|]. intros _ ->. cbn in Hne. lia.
    + specialize (IH (entries ++ [e]) (bytes + approximateEntrySize e)).
      destruct (page_loop _ _ _) as [es rest']. destruct IH as ((pre & -> & ->) & Hw' & _).
      * by rewrite page_size_app, Hb.
      * left. rewrite page_size_app. lia.
      * split; [exists (e :: pre); by rewrite <-app_assoc|]. split; [done|].
        intros _ E%(f_equal length). rewrite !length_app in E. cbn in E. lia.
  - assert (entries = []) as -> by (destruct entries; [done|cbn in He; lia]).
    specialize (IH ([] ++ [e]) (bytes + approximateEntrySize e)).
    destruct (page_loop _ _ _) as [es rest']. destruct IH as ((pre & -> & ->) & Hw' & _).
    + by rewrite page_size_app, Hb.
    + right. cbn. lia.
    + split; [by exists (e :: pre)|]. split; [done|]. by intros _ ?.
Qed.

Lemma firstKeyAfter_split before after e :
  StronglySorted key_lt ((before ++ [e]) ++ after) →
  Z.of_nat (length ((before ++ [e]) ++ after)) < 2 ^ 31 →
  drop (Z.to_nat (firstKeyAfter ((before ++ [e]) ++ after) (key e))) ((before ++ [e]) ++ after)
  = after.
Proof.
  intros Hsort Hlen. set (l := (before ++ [e]) ++ after) in *.
  assert (∀ i j x y, l !! i = Some x → l !! j = Some y → (i ≤ j)%nat →
    str_le (key y) (key e) = true → str_le (key x) (key e) = true) as Hmono.
  { intros i j x y Hi Hj Hij Hy. destruct (decide (i = j)) as [->|]; [by simplify_eq|].
    assert (key_lt x y) as Hxy by (eapply (StronglySorted_lookup _ l i j); eauto; lia).
    apply str_le_spec in Hy. apply str_le_spec. left. unfold key_lt in Hxy.
    destruct Hy as [Hy|Hy]; [by eapply str_lt_trans|by rewrite <-Hy]. }
  destruct (lower_bound_split (λ x, str_le (key x) (key e)) l Hmono Hlen) as (Hr & Ht & Hd).
  fold (firstKeyAfter l (key e)) in *. set (r := Z.to_nat (firstKeyAfter l (key e))) in *.
  apply StronglySorted_app in Hsort as (Hba & _ & _).
  assert (r = length (before ++ [e])) as ->; [|unfold l; by rewrite drop_app_length].
  destruct (Nat.lt_trichotomy r (length (before ++ [e]))) as [Hlt|[?|Hgt]]; [|done|].
  - exfalso. assert (e ∈ drop r l) as Hin.
    { rewrite length_app in Hlt. cbn in Hlt. apply list_elem_of_lookup.
      exists (length before - r)%nat. rewrite lookup_drop.
      replace (r + (length before - r))%nat with (length before) by lia.
      unfold l. rewrite lookup_app_l by (rewrite length_app; cbn; lia).
      by rewrite list_lookup_middle. }
    apply Hd in Hin. unfold str_le in Hin. by rewrite str_lt_irrefl in Hin.
  - exfalso. destruct after as [|a after'] eqn:Ha.
    + assert (length l = length (before ++ [e])) by (unfold l; by rewrite app_nil_r). lia.
    + assert (a ∈ take r l) as Hin.
      { apply elem_of_take. exists (length (before ++ [e])). split; [|done].
        unfold l. by rewrite list_lookup_middle. }
      apply Ht in Hin. assert (key_lt e a) as Hea.
      { apply Hba; [apply elem_of_app; right; left|left]. }
      unfold key_lt, str_le in *. by rewrite Hea in Hin.
Qed.

(** The cursor after some entries were sent. *)
Definition cursor (before : list Entry) : option jsstring := key <$> last before.

Lemma cursor_some l : l ≠ [] → is_Some (cursor l).
Proof.
  unfold cursor. destruct l as [|x l _] using rev_ind; [done|]. rewrite last_snoc. by eexists.
Qed.

(** The page after the cursor: a non-empty prefix of what is left, within budget. *)
Lemma pageAfter_spec before rest p :
  StronglySorted key_lt (before ++ rest) → Z.of_nat (length (before ++ rest)) < 2 ^ 31 →
  ∃ es rest', rest = es ++ rest'
    ∧ pageAfter (before ++ rest) p (cursor before) = MkChunk p (Nat.eqb (length rest') 0) es
    ∧ within_budget es ∧ (rest ≠ [] → es ≠ []).
Proof.
  intros Hsort Hlen. unfold pageAfter, cursor.
  assert (drop (Z.to_nat (match key <$> last before with
    None => 0 | Some k => firstKeyAfter (before ++ rest) k end)) (before ++ rest) = rest) as ->.
  { destruct before as [|e before _] using rev_ind; [done|].
    rewrite last_snoc. cbn [fmap option_fmap option_map]. by apply firstKeyAfter_split. }
  pose proof (page_loop_spec [] 0 rest eq_refl) as H.
  destruct (page_loop [] 0 rest) as [es rest'].
  destruct H as ((pre & -> & ->) & Hw & Hne); [left; vm_compute; discriminate|]. eauto 10.
Qed.

Lemma cursor_app before es : es ≠ [] → cursor (before ++ es) = key <$> last es.
Proof.
  intros Hne. unfold cursor. destruct es as [|e es _] using rev_ind; [done|].
  by rewrite app_assoc, !last_snoc.
Qed.

(** What a push sends: consecutive pages of the fragment, all of it when it
    succeeds, each page but the last marked as not final. *)
Record sent_ok (rest : list Entry) (ok : bool) (sent : list FragmentChunkWire)
    (acked : nat → FragmentChunkWire → result bool) (i : nat) : Prop := {
  so_budget : Forall (λ c, within_budget (ch_entries c)) sent;
  so_prefix : ∃ post, rest = mbind ch_entries sent ++ post ∧ (ok = true → post = []);
  so_acked : ok = true → ∀ j c, sent !! j = Some c → acked (i + j)%nat c = Ok true;
  so_final : ok = true → ∃ init c, sent = init ++ [c] ∧ ch_final c = true
    ∧ Forall (λ c, ch_final c = false) init }.

Lemma pushChunks_spec fuel acked i p before rest :
  StronglySorted key_lt (before ++ rest) → Z.of_nat (length (before ++ rest)) < 2 ^ 31 →
  (length rest < fuel)%nat →
  ∃ outcome, pushChunks fuel acked i p (before ++ rest) (cursor before) = Some outcome
    ∧ match outcome with
      | Ok (ok, sent) => sent_ok rest ok sent acked i
      | Throw err => ∃ j c, acked j c = Throw err
      end.
Proof.
  revert i before rest. induction fuel as [|fuel IH]; intros i before rest Hsort Hlen Hfuel; [lia|].
  cbn [pushChunks].
  destruct (pageAfter_spec before rest p Hsort Hlen) as (es & rest' & Hrest & -> & Hw & Hne).
  set (chunk := MkChunk p (Nat.eqb (length rest') 0) es).
  assert (Forall (λ c, within_budget (ch_entries c)) [chunk]) as Hb by (by constructor).
  destruct (acked i chunk) as [[]|err] eqn:Hack; cbn [negb].
  2: { eexists. split; [done|]. split; [done| |done..].
       exists rest'. cbn. by rewrite app_nil_r. }
  2: { eexists. split; [done|]. by exists i, chunk. }
  cbn [ch_final chunk]. destruct (Nat.eqb_spec (length rest') 0) as [H0|H0].
  - apply length_zero_iff_nil in H0 as ->. eexists. split; [done|]. split; [done|..].
    + exists []. cbn. by rewrite !app_nil_r in *.
    + intros _ j c Hj. apply list_lookup_singleton_Some in Hj as [-> <-]. by rewrite Nat.add_0_r.
    + intros _. by exists [], chunk.
  - assert (es ≠ []) as Hes.
    { apply Hne. intros ->. by destruct es, rest'. }
    subst rest. rewrite app_assoc in *.
    destruct (IH (S i) (before ++ es) rest') as ([[ok sent]|err] & Hpush & Hout);
      [done|done|rewrite length_app in Hfuel; destruct es; [done|cbn in Hfuel; lia]| |].
    all: rewrite cursor_app in Hpush by done; unfold lastKeyOf; cbn [ch_entries chunk].
    all: rewrite Hpush; cbn [mbind option_bind result_bind]; eexists; (split; [done|]). 2: done.
    destruct Hout as [Hb' Hp' Ha' Hf']. split.
    + by constructor.
    + destruct Hp' as (post & -> & Hpost). exists post. split; [|done].
      rewrite bind_cons. cbn [ch_entries]. by rewrite <-app_assoc.
    + intros Hok [|j] c Hj; cbn in Hj; [injection Hj as <-; by rewrite Nat.add_0_r|].
      replace (i + S j)%nat with (S i + j)%nat by lia. by apply Ha'.
    + intros Hok. destruct (Hf' Hok) as (init & c & -> & Hc & Hinit).
      exists (chunk :: init), c. split; [done|]. split; [done|]. by constructor.
Qed.

(** ** Pulling from a peer that serves its pages *)

Section pull.
Context {St : Type} (onChunk : St → FragmentChunkWire → result St).
Context (inv : St → Prop) (step : St → list Entry → St).
Context (Hon : ∀ s c, inv s → onChunk s c = Ok (step s (ch_entries c)) ∧ inv (step s (ch_entries c))).
Context (Hstep : ∀ s a b, inv s → step (step s a) b = step s (a ++ b)).

(** One turn consumes a page of what is left and moves the cursor behind it. *)
Lemma page_turn_spec p before rest s :
  StronglySorted key_lt (before ++ rest) → Z.of_nat (length (before ++ rest)) < 2 ^ 31 → inv s →
  ∃ es rest', rest = es ++ rest' ∧ inv (step s es) ∧ (rest' ≠ [] → es ≠ [])
    ∧ page_turn (Ok (Some (pageAfter (before ++ rest) p (cursor before)))) onChunk (cursor before) s
      = Ok (step s es, match rest' with [] => None | _ => cursor (before ++ es) end)
    ∧ (rest' ≠ [] → is_Some (cursor (before ++ es))).
Proof.
  intros Hsort Hlen Hs.
  destruct (pageAfter_spec before rest p Hsort Hlen) as (es & rest' & Hrest & -> & Hw & Hne).
  unfold page_turn. cbn [result_bind].
  destruct (Hon s (MkChunk p (Nat.eqb (length rest') 0) es) Hs) as [-> Hs'].
  exists es, rest'. cbn [ch_entries ch_final result_bind] in *. split; [done|]. split; [done|].
  destruct rest' as [|r rest']; [done|]. cbn [length Nat.eqb].
  assert (es ≠ []) as Hes by (apply Hne; intros ->; by destruct es).
  split; [done|]. subst rest. rewrite app_assoc in *. unfold lastKeyOf. cbn [ch_entries].
  rewrite <-(cursor_app before es) by done.
  destruct (cursor (before ++ es)) as [nk|] eqn:Hnk; [|destruct (cursor_some (before ++ es)); [by destruct before|congruence]].
  assert ((match cursor before with Some k => str_le nk k | None => false end) = false) as ->; [|by eauto].
  unfold cursor in Hnk |- *. destruct before as [|b before _] using rev_ind; [done|].
  destruct es as [|e es _] using rev_ind; [done|].
  rewrite last_snoc. rewrite app_assoc, last_snoc in Hnk. injection Hnk as <-. cbn.
  apply StronglySorted_app in Hsort as (_ & Hsort & _).
  apply StronglySorted_app in Hsort as (Hbe & _ & _).
  specialize (Hbe b e ltac:(set_solver) ltac:(set_solver)). unfold str_le, key_lt in *. by rewrite Hbe.
Qed.

Lemma pages_spec fuel request i p before rest s :
  StronglySorted key_lt (before ++ rest) → Z.of_nat (length (before ++ rest)) < 2 ^ 31 →
  (length rest < fuel)%nat → inv s →
  (∀ j b r, before ++ rest = b ++ r →
     request j (cursor b) = Ok (Some (pageAfter (before ++ rest) p (cursor b)))) →
  pages fuel request onChunk i (cursor before) s = Some (Ok (step s rest)).
Proof.
  revert i before rest s.
  induction fuel as [|fuel IH]; intros i before rest s Hsort Hlen Hfuel Hs Hreq; [lia|].
  cbn [pages]. rewrite (Hreq i before rest eq_refl).
  destruct (page_turn_spec p before rest s Hsort Hlen Hs) as (es & rest' & Hrest & Hs' & Hes & -> & Hc).
  destruct rest' as [|r rest']; [by rewrite Hrest, app_nil_r|].
  destruct (Hc ltac:(done)) as [nk Hnk]. rewrite Hnk. cbn [fst snd]. rewrite <-Hnk.
  subst rest. rewrite app_assoc in *. rewrite <-(Hstep s es (r :: rest')) by done.
  apply IH; [done|done| |done|].
  - rewrite length_app in Hfuel. specialize (Hes ltac:(done)). destruct es; [done|]. cbn in Hfuel |- *. lia.
  - intros j b r' Hb. by apply (Hreq j b r').
Qed.
End pull.

(** ** Merging a fragment *)

Lemma merge_entries_spec e es :
  store_inv (store e) →
  merge_entries e es = Ok (set_store e (merge_all (store e) es))
  ∧ store_inv (merge_all (store e) es).
Proof.
  revert e. induction es as [|x es IH]; intros e Hs; cbn [merge_entries].
  { by destruct e. }
  unfold engine_merge.
  destruct (store_apply_spec (store e) x Hs) as (ch & s' & Happ & Hs' & _).
  rewrite Happ. cbn [result_bind snd].
  assert (merge_all (store e) (x :: es) = merge_all s' es) as ->.
  { unfold merge_all. cbn [foldl]. unfold store_merge. by rewrite Happ. }
  by apply (IH (set_store e s')).
Qed.

(** The newer of two optional records. *)
Definition union_lww (a b : option Entry) : option Entry :=
  match b with Some x => lww a x | None => a end.

Lemma filter_fragment e p k :
  store_inv (store e) →
  filter (λ x, key x = k) (sortedFragment e p)
  = if decide (home (store e) k = p) then option_list (content (store e) k) else [].
Proof.
  intros Hs. unfold sortedFragment.
  assert (NoDup (key <$> sortByKey (snapshot (store e) p))) as Hnd.
  { rewrite sortByKey_perm. by apply snapshot_nodup. }
  assert (∀ x, x ∈ sortByKey (snapshot (store e) p)
    ↔ content (store e) (key x) = Some x ∧ home (store e) (key x) = p) as Hin.
  { intros x. rewrite sortByKey_perm. by apply snapshot_spec. }
  set (l := sortByKey _) in *. clearbody l.
  assert (∀ x, x ∈ filter (λ x, key x = k) l
    ↔ content (store e) k = Some x ∧ home (store e) k = p ∧ key x = k) as Hfil.
  { intros x. rewrite list_elem_of_filter, Hin. naive_solver. }
  assert ((length (filter (λ x, key x = k) l) ≤ 1)%nat) as Hlen.
  { clear -Hnd. induction l as [|y l IH]; [cbn; lia|]. rewrite fmap_cons in Hnd.
    apply NoDup_cons in Hnd as [Hy Hnd]. rewrite filter_cons.
    destruct (decide (key y = k)) as [Hk|]; [|by apply IH].
    rewrite filter_none; [done|]. intros z Hz Hzk. destruct Hy. rewrite Hk, <-Hzk.
    by apply list_elem_of_fmap_2. }
  destruct (filter (λ x, key x = k) l) as [|x [|y r]]; [..|cbn in Hlen; lia].
  - destruct (decide (home (store e) k = p)) as [Hp|]; [|done].
    destruct (content (store e) k) as [x|] eqn:Hx; [|done].
    exfalso. apply (not_elem_of_nil x), Hfil. split; [done|]. split; [done|].
    by eapply content_key.
  - destruct (proj1 (Hfil x) ltac:(left)) as (-> & Hp & _). by rewrite decide_True.
Qed.

Lemma content_merge_fragment s e p k :
  store_inv s → store_inv (store e) →
  content (merge_all s (sortedFragment e p)) k
  = if decide (home (store e) k = p) then union_lww (content s k) (content (store e) k)
    else content s k.
Proof.
  intros Hs He. rewrite content_merge_all, filter_fragment by done.
  destruct (decide _); [|done]. by destruct (content (store e) k).
Qed.

(** ** Pages over the wire *)

(** A record the codec carries: every field in range, no byte order mark. *)
Definition wire_entry (e : Entry) : Prop :=
  entry_ok e ∧ is_ok (writeEntry e ([] : list Z)) = true.

Lemma wire_entries_write es (w : list Z) :
  (∀ e, e ∈ es → wire_entry e) → ∃ w', wr_list writeEntry es w = Ok w'.
Proof.
  revert w. induction es as [|e es IH]; intros w Hes; cbn [wr_list]; [eauto|].
  destruct (Hes e) as [_ Hok]; [left|]. rewrite writeEntry_app.
  destruct (writeEntry e []) as [b|]; [|done]. cbn [result_bind].
  apply IH. intros x Hx. apply Hes. by right.
Qed.

Lemma wire_entry_key e (w : list Z) : wire_entry e → ∃ w', writeKey (key e) w = Ok w'.
Proof.
  intros [_ Hok]. unfold writeEntry in Hok.
  destruct (wr_check _ _); cbn [result_bind] in Hok; [|done].
  destruct (assertU64 _ _); cbn [result_bind] in Hok; [|done].
  destruct (match expiresAt e with Some _ => _ | None => _ end); cbn [result_bind] in Hok; [|done].
  unfold writeKey in *.
  do 3 (destruct (wr_check _ _); cbn [result_bind] in *; [|done]). eauto.
Qed.

Lemma page_count es : 64 * Z.of_nat (length es) ≤ page_size es.
Proof.
  induction es as [|e es IH]; [done|]. unfold page_size in *. cbn [foldr length].
  pose proof (approximateEntrySize_pos e). lia.
Qed.

Lemma within_budget_count es : within_budget es → Z.of_nat (length es) ≤ MAX_CHUNK_ENTRIES.
Proof.
  pose proof (page_count es). unfold within_budget, FRAGMENT_CHUNK_BYTES, MAX_CHUNK_ENTRIES. lia.
Qed.

(** A chunk of such records encodes and arrives unchanged. *)
Lemma chunk_roundtrip c :
  is_u32 (ch_partitionId c) → Z.of_nat (length (ch_entries c)) ≤ MAX_CHUNK_ENTRIES →
  (∀ e, e ∈ ch_entries c → wire_entry e) →
  ∃ bs, encodeMessage (FragmentChunk c) = Ok bs ∧ decodeMessage bs = Ok (FragmentChunk c).
Proof.
  intros Hid Hw He. destruct (wire_entries_write (ch_entries c)
    (sink_u32 (Z.of_nat (length (ch_entries c))) (sink_u8 (if ch_final c then 1 else 0)
      (sink_u32 (ch_partitionId c) (writeEnvelope MSG_FRAGMENT_CHUNK ([] : list Z))))) He) as (w' & Hw').
  assert (encodeMessage (FragmentChunk c) = Ok w') as E.
  { rewrite encode_append. cbn [encodeBody]. unfold writeChunk, wr_check.
    rewrite assertU32_total by done. cbn [result_bind].
    rewrite (proj2 (Z.ltb_ge _ _) Hw). done. }
  exists w'. split; [done|]. apply decode_encode; [|done]. cbn [message_texts].
  rewrite Forall_forall. intros t (e & Ht & Hin)%list_elem_of_bind.
  destruct (He e Hin) as [[Hk Hn] _]. unfold entry_texts in Ht.
  apply elem_of_cons in Ht as [->|Ht]; [done|]. by apply list_elem_of_singleton in Ht as ->.
Qed.

(** What a peer promises: a well-formed page request is answered with its page. *)
Class PageServer (carrier : list Z → option (list Z)) (peer : Engine) : Prop :=
  page_served : ∀ bs partition afterKey reply,
    decodeMessage bs = Ok (FragmentRequest partition afterKey) →
    encodeMessage (FragmentChunk (servePage peer partition afterKey)) = Ok reply →
    carrier bs = Some reply.

Lemma fragment_request_roundtrip p k :
  is_u32 p → (∀ x, k = Some x → text_ok x ∧ ∀ w : list Z, ∃ w', writeKey x w = Ok w') →
  ∃ bs, encodeMessage (FragmentRequest p k) = Ok bs
        ∧ decodeMessage bs = Ok (FragmentRequest p k).
Proof.
  intros Hp Hk.
  assert (∃ bs, encodeMessage (FragmentRequest p k) = Ok bs) as [bs E].
  { rewrite encode_append. cbn [encodeBody].
    unfold writePartitionField. rewrite assertU32_total by done. cbn [result_bind].
    destruct k as [k|]; cbn [writeOptionalKey]; [|eauto]. by apply (Hk k). }
  exists bs. split; [done|]. apply decode_encode; [|done].
  destruct k as [k|]; cbn; [|constructor]. apply Forall_singleton. by apply (Hk k).
Qed.

Lemma requestPage_served carrier peer p before rest `{!PageServer carrier peer} :
  is_u32 p → sortedFragment peer p = before ++ rest →
  StronglySorted key_lt (before ++ rest) → Z.of_nat (length (before ++ rest)) < 2 ^ 31 →
  (∀ e, e ∈ sortedFragment peer p → wire_entry e) →
  requestPage carrier p (cursor before) = Ok (Some (servePage peer p (cursor before))).
Proof.
  intros Hp Hfrag Hsort Hlen Hw.
  destruct (fragment_request_roundtrip p (cursor before)) as (req & Henc & Hdec); [done|..].
  { intros x Hx. unfold cursor in Hx. apply fmap_Some in Hx as (e & He & ->).
    assert (wire_entry e) as Hwe.
    { apply Hw. rewrite Hfrag, elem_of_app. left. by apply last_Some_elem_of. }
    split; [by apply Hwe|]. intros w. by apply wire_entry_key. }
  unfold requestPage. rewrite Henc. cbn [result_bind].
  unfold servePage. rewrite Hfrag.
  destruct (pageAfter_spec before rest p Hsort Hlen) as (es & rest' & Hrest & Hpage & Hb & _).
  destruct (chunk_roundtrip (pageAfter (before ++ rest) p (cursor before))) as (reply & Hre & Hrd).
  { by rewrite Hpage. }
  { rewrite Hpage. by apply within_budget_count. }
  { rewrite Hpage. cbn. intros e He. apply Hw. rewrite Hfrag, Hrest. set_solver. }
  rewrite (page_served req p (cursor before) reply Hdec).
  - cbn [mbind option_bind]. unfold decodeChunk. by rewrite Hrd.
  - unfold servePage. by rewrite Hfrag.
Qed.

Lemma sortedFragment_strict e p :
  store_inv (store e) → StronglySorted key_lt (sortedFragment e p).
Proof. intros Hs. by apply sortByKey_strict, snapshot_nodup. Qed.

Lemma length_sortedFragment e p : length (sortedFragment e p) = length (snapshot (store e) p).
Proof. unfold sortedFragment. by rewrite sortByKey_perm. Qed.

Lemma merge_all_app s a b : merge_all (merge_all s a) b = merge_all s (a ++ b).
Proof. unfold merge_all. by rewrite foldl_app. Qed.

(** The receiver's side of a push: the chunks merged in the order they arrive. *)
Fixpoint apply_chunks (e : Engine) (chunks : list FragmentChunkWire) : result Engine :=
  match chunks with
  | [] => Ok e
  | c :: chunks' => let! e := applyChunk e c in apply_chunks e chunks'
  end.

Lemma apply_chunks_spec e chunks :
  store_inv (store e) →
  apply_chunks e chunks = Ok (set_store e (merge_all (store e) (chunks ≫= ch_entries)))
  ∧ store_inv (merge_all (store e) (chunks ≫= ch_entries)).
Proof.
  revert e. induction chunks as [|c chunks IH]; intros e Hs; cbn [apply_chunks].
  { by destruct e. }
  unfold applyChunk. destruct (merge_entries_spec e (ch_entries c) Hs) as [-> Hs'].
  cbn [result_bind]. destruct (IH (set_store e (merge_all (store e) (ch_entries c))) Hs') as [-> ?].
  cbn [store set_store] in *. rewrite bind_cons, <-merge_all_app. done.
Qed.

Lemma pull_spec carrier peer e p fuel `{!PageServer carrier peer} :
  store_inv (store e) → store_inv (store peer) → is_u32 p →
  Z.of_nat (length (snapshot (store peer) p)) < 2 ^ 31 →
  (length (snapshot (store peer) p) < fuel)%nat →
  (∀ x, x ∈ snapshot (store peer) p → wire_entry x) →
  ∃ e', pull fuel (λ _ k, requestPage carrier p k) e = Some (Ok e')
    ∧ clock e' = clock e ∧ pipelines e' = pipelines e ∧ store_inv (store e')
    ∧ partitionCount (store e') = partitionCount (store e)
    ∧ ∀ k, content (store e') k
           = if decide (home (store peer) k = p)
             then union_lww (content (store e) k) (content (store peer) k)
             else content (store e) k.
Proof.
  intros He Hpeer Hp Hlen Hfuel Hw. rewrite <-length_sortedFragment in Hlen, Hfuel.
  pose proof (sortedFragment_strict peer p Hpeer) as Hsort.
  exists (set_store e (merge_all (store e) (sortedFragment peer p))).
  split; [|split; [done|]; split; [done|]; split;
    [by apply merge_all_inv|split; [by apply merge_all_count|]; intros k; cbn;
     by apply content_merge_fragment]].
  apply (pages_spec applyChunk (λ e, store_inv (store e))
    (λ e es, set_store e (merge_all (store e) es)) ltac:(intros; by apply merge_entries_spec)
    ltac:(intros s a b _; cbn; by rewrite <-merge_all_app)
    fuel _ 0 p [] (sortedFragment peer p) e Hsort Hlen Hfuel He).
  intros j b r Hbr. cbn [app] in *. change (pageAfter (sortedFragment peer p) p (cursor b))
    with (servePage peer p (cursor b)).
  apply (requestPage_served carrier peer p b r Hp Hbr); [by rewrite <-Hbr|by rewrite <-Hbr|].
  intros x Hx. apply Hw. unfold sortedFragment in Hx. by rewrite sortByKey_perm in Hx.
Qed.

(** A peer that does not answer is skipped. *)
Lemma pull_unreachable p e fuel :
  is_u32 p → pull (S fuel) (λ _ k, requestPage (λ _, None) p k) e = Some (Ok e).
Proof.
  intros Hp. unfold pull. cbn [pages]. unfold requestPage.
  destruct (fragment_request_roundtrip p None Hp) as (bs & -> & _); [done|]. done.
Qed.

Lemma push_spec e recv p acked fuel :
  store_inv (store e) → store_inv (store recv) →
  Z.of_nat (length (snapshot (store e) p)) < 2 ^ 31 →
  (length (snapshot (store e) p) < fuel)%nat →
  ∃ outcome, push fuel acked e p = Some outcome
    ∧ match outcome with
      | Throw err => ∃ i c, acked i c = Throw err
      | Ok (ok, sent) =>
          Forall (λ c, within_budget (ch_entries c)) sent
          ∧ (ok = true → ∀ i c, sent !! i = Some c → acked i c = Ok true)
          ∧ (ok = true → ∃ recv', apply_chunks recv sent = Ok recv'
              ∧ ∀ k, content (store recv') k
                     = if decide (home (store e) k = p)
                       then union_lww (content (store recv) k) (content (store e) k)
                       else content (store recv) k)
      end.
Proof.
  intros He Hr Hlen Hfuel. rewrite <-length_sortedFragment in Hlen, Hfuel.
  destruct (pushChunks_spec fuel acked 0 p [] (sortedFragment e p)
    (sortedFragment_strict e p He) Hlen Hfuel) as ([[ok sent]|err] & Hpush & Hout);
    [|by exists (Throw err)].
  destruct Hout as [Hb (post & Hpost & Hall) Ha _]. exists (Ok (ok, sent)). split; [exact Hpush|]. split; [done|]. split; [exact Ha|]. intros Hok.
  destruct (apply_chunks_spec recv sent Hr) as [Happ _]. eexists. split; [exact Happ|].
  intros k. cbn [store set_store]. rewrite <-content_merge_fragment by done.
  by rewrite Hpost, (Hall Hok), app_nil_r.
Qed.

(** ** Encoded sizes *)

Lemma writeKey_length k (w w' : list Z) :
  Forall is_unit k → writeKey k w = Ok w' → (length w' ≤ length w + 2 + 3 * length k)%nat.
Proof.
  intros Hk H. unfold writeKey in H. inv_ok. cbn.
  rewrite !length_app. pose proof (length_text_encode k Hk). cbn. lia.
Qed.

Lemma writeName_length n f (w w' : list Z) :
  Forall is_unit n → writeName n f w = Ok w' → (length w' ≤ length w + 1 + 3 * length n)%nat.
Proof.
  intros Hn H. unfold writeName in H. inv_ok. cbn.
  rewrite !length_app. pose proof (length_text_encode n Hn). cbn. lia.
Qed.

Lemma writeEntry_length e (w w' : list Z) :
  Forall is_unit (key e) → Forall is_unit (node (timestamp e)) → writeEntry e w = Ok w' →
  Z.of_nat (length w') ≤ Z.of_nat (length w) + approximateEntrySize e.
Proof.
  intros Hk Hn H. unfold writeEntry in H. inv_ok. rename r2 into w1, r3 into w2.
  apply writeKey_length in E2; [|done]. unfold writeHybridTime in E3. inv_ok.
  apply writeName_length in E3; [|done]. cbn in E2, E3. 
  rewrite !length_app in E2. rewrite !length_app in E3. cbn in E2, E3.
  unfold approximateEntrySize, ENTRY_OVERHEAD_BYTES, MAX_UTF8_BYTES_PER_UNIT.
  destruct (expiresAt e); cbn in H; (destruct (value e) as [v|]; cbn in H;
    [unfold writeBlob in H; inv_ok|inv_ok]; cbn; rewrite !length_app; cbn; lia).
Qed.

(** ** Properties *)

(** A push that reports success has moved the fragment: it always ends, with an exception
    only when a chunk cannot be sent, every
    chunk it sends is within the byte budget or holds a single record, and when it
    returns true a receiver that merged the acknowledged chunks holds, for every
    key of the partition, the newer of its own record and the sender's, and is
    unchanged elsewhere, so dropping the sent fragment loses nothing. *)
Theorem push_moves_fragment e recv p acked fuel :
  store_inv (store e) → store_inv (store recv) →
  Z.of_nat (length (snapshot (store e) p)) < 2 ^ 31 →
  (length (snapshot (store e) p) < fuel)%nat →
  ∃ outcome, push fuel acked e p = Some outcome
    ∧ match outcome with
      | Throw err => ∃ i c, acked i c = Throw err
      | Ok (ok, sent) =>
          Forall (λ c, within_budget (ch_entries c)) sent
          ∧ (ok = true → ∀ i c, sent !! i = Some c → acked i c = Ok true)
          ∧ (ok = true → ∃ recv', apply_chunks recv sent = Ok recv'
              ∧ ∀ k, content (store recv') k
                     = if decide (home (store e) k = p)
                       then union_lww (content (store recv) k) (content (store e) k)
                       else content (store recv) k)
      end.
Proof. apply push_spec. Qed.

(** C8: a pull from a live peer completes and is a last-write-wins union: over the
    wire codec, page by page, it ends within one request per record plus one, and
    leaves every key of the partition with the newer of the two records. *)
Theorem pull_merges_fragment carrier peer e p fuel `{!PageServer carrier peer} :
  store_inv (store e) → store_inv (store peer) → is_u32 p →
  Z.of_nat (length (snapshot (store peer) p)) < 2 ^ 31 →
  (length (snapshot (store peer) p) < fuel)%nat →
  (∀ x, x ∈ snapshot (store peer) p → wire_entry x) →
  ∃ e', pull fuel (λ _ k, requestPage carrier p k) e = Some (Ok e')
    ∧ clock e' = clock e ∧ pipelines e' = pipelines e ∧ store_inv (store e')
    ∧ ∀ k, content (store e') k
           = if decide (home (store peer) k = p)
             then union_lww (content (store e) k) (content (store peer) k)
             else content (store e) k.
Proof.
  intros. destruct (pull_spec carrier peer e p fuel) as (e' & ? & ? & ? & ? & _ & ?); eauto 10.
Qed.

(** The page budget is honest: the estimate a page is cut by never undercounts,
    so an encoded chunk is at most eleven bytes of header more than the sum of its
    records' estimates, and a chunk within budget is a frame of at most 262155
    bytes unless it holds a single record. *)
Theorem chunk_frame_bounded c bs :
  (∀ e, e ∈ ch_entries c → Forall is_unit (key e) ∧ Forall is_unit (node (timestamp e))) →
  within_budget (ch_entries c) → encodeMessage (FragmentPush c) = Ok bs →
  Z.of_nat (length bs) ≤ 11 + page_size (ch_entries c)
  ∧ (Z.of_nat (length bs) ≤ 11 + FRAGMENT_CHUNK_BYTES ∨ (length (ch_entries c) ≤ 1)%nat).
Proof.
  intros Hu Hw E. rewrite encode_append in E. cbn [encodeBody] in E. unfold writeChunk in E.
  inv_ok. assert (∀ es (w w' : list Z),
    (∀ e, e ∈ es → Forall is_unit (key e) ∧ Forall is_unit (node (timestamp e))) →
    wr_list writeEntry es w = Ok w' →
    Z.of_nat (length w') ≤ Z.of_nat (length w) + page_size es) as Hlist.
  { clear. induction es as [|e es IH]; intros w w' Hu E; cbn [wr_list] in E.
    - injection E as <-. cbn. lia.
    - inv_ok. destruct (Hu e) as [? ?]; [left|]. apply writeEntry_length in E0; [|done..].
      apply IH in E; [|intros; apply Hu; by right]. unfold page_size in *. cbn [foldr]. lia. }
  apply Hlist in E; [|done]. cbn in E.
  split; [lia|]. destruct Hw as [Hw|Hw]; [left|right]; lia.
Qed.

Definition fragment_sample : Engine :=
  MkEngine (merge_all (MkStore 1 [] 0) [sample_entry "a" 5 false; sample_entry "b" 6 true])
    (MkClock (js "n") 0 0) [].

Lemma fragment_sample_inv : store_inv (store fragment_sample).
Proof. apply merge_all_inv. by apply (new_Store_inv 1). Qed.

Lemma push_moves_fragment_witness :
  ∃ ok sent, push 3 (λ _ _, Ok true) fragment_sample 0 = Some (Ok (ok, sent))
    ∧ Forall (λ c, within_budget (ch_entries c)) sent
    ∧ (ok = true → ∃ recv', apply_chunks sample_engine sent = Ok recv'
        ∧ ∀ k, content (store recv') k
               = if decide (home (store fragment_sample) k = 0)
                 then union_lww (content (store sample_engine) k) (content (store fragment_sample) k)
                 else content (store sample_engine) k).
Proof.
  destruct (push_moves_fragment fragment_sample sample_engine 0 (λ _ _, Ok true) 3) as ([[ok sent]|err] & Hpush & Hout).
  - apply fragment_sample_inv.
  - by apply (new_Store_inv 512).
  - vm_compute. reflexivity.
  - vm_compute. lia.
  - exists ok, sent. destruct Hout as (H1 & _ & H2). exact (conj Hpush (conj H1 H2)).
  - destruct Hout as (_ & _ & E). discriminate E.
Defined.

Lemma chunk_frame_bounded_witness :
  ∃ bs, encodeMessage (FragmentPush sample_chunk) = Ok bs
  ∧ Z.of_nat (length bs) ≤ 11 + 209
  ∧ (Z.of_nat (length bs) ≤ 11 + FRAGMENT_CHUNK_BYTES ∨ (2 ≤ 1)%nat).
Proof.
  destruct (encodeMessage (FragmentPush sample_chunk)) as [bs|e] eqn:E; [|vm_compute in E; discriminate E].
  exists bs. split; [reflexivity|].
  apply (chunk_frame_bounded sample_chunk bs).
  - intros e He. apply list_elem_of_In in He as [<-|[<-|[]]];
      split; repeat constructor; vm_compute; try reflexivity; discriminate.
  - left. vm_compute. discriminate.
  - exact E.
Defined.

(** The carrier of a peer that answers page requests and nothing else. *)
Definition page_carrier (peer : Engine) (bs : list Z) : option (list Z) :=
  match decodeMessage bs with
  | Ok (FragmentRequest partition afterKey) =>
      match encodeMessage (FragmentChunk (servePage peer partition afterKey)) with
      | Ok reply => Some reply
      | Throw _ => None
      end
  | _ => None
  end.

#[global] Instance page_carrier_serves peer : PageServer (page_carrier peer) peer.
Proof. intros bs p k reply Hdec Henc. unfold page_carrier. by rewrite Hdec, Henc. Qed.

Lemma pull_merges_fragment_witness :
  ∃ e', pull 3 (λ _ k, requestPage (page_carrier fragment_sample) 0 k) sample_engine = Some (Ok e')
    ∧ clock e' = clock sample_engine ∧ pipelines e' = pipelines sample_engine ∧ store_inv (store e')
    ∧ ∀ k, content (store e') k
           = if decide (home (store fragment_sample) k = 0)
             then union_lww (content (store sample_engine) k) (content (store fragment_sample) k)
             else content (store sample_engine) k.
Proof.
  apply (pull_merges_fragment (page_carrier fragment_sample) fragment_sample sample_engine 0 3).
  - by apply (new_Store_inv 512).
  - apply fragment_sample_inv.
  - done.
  - vm_compute. reflexivity.
  - vm_compute. lia.
  - intros x Hx. apply list_elem_of_In in Hx. vm_compute in Hx.
    destruct Hx as [<-|[<-|[]]]; (split; [split|vm_compute; reflexivity]);
      (split; [apply units_check; reflexivity|reflexivity]).
Defined.
