(* ===== verification/Replication.v ===== *)
(** * Primary/backup replication and routing ([src/kv/primary.backup.ts],
      [src/kv/replication.ts])

    The router of one node: it serves a write or a read as the partition's primary,
    forwards it there, or gathers across the owners while the partition is moving;
    a primary applies through the engine and replicates to a quorum of backups.
    The node's state is one [Replicator] record; each asynchronous method is an
    [async] program over it. *)
From S2P Require Import Prelude JsNumber JsString Hash Hlc Entry Partition Store Ports Engine.
From S2P Require Import Double Ring RoutingTable Async ByteIO KvWire KvCodec Fragment.

(** ** State *)

Inductive ReplicationMode := ModeSync | ModeAsync.

#[global] Instance ReplicationMode_eq_dec : EqDecision ReplicationMode.
Proof. solve_decision. Defined.

(** One partition's [PrimaryBackup]; its engine and transport are the node's. *)
Record PrimaryBackup := MkGroup {
  pb_partitionId : Z; pb_writeQuorum : Z; pb_mode : ReplicationMode; pb_replicas : list jsstring }.

Definition new_PrimaryBackup (partitionId writeQuorum : Z) (mode : ReplicationMode) : PrimaryBackup :=
  MkGroup partitionId writeQuorum mode [].

Definition memberChange (g : PrimaryBackup) (replicas : list jsstring) : PrimaryBackup :=
  MkGroup (pb_partitionId g) (pb_writeQuorum g) (pb_mode g) replicas.

(** A node: the router, its engine and the promises of the writes submitted to
    the engine.  [calls] are the submitted operations, a ticket is an index of it,
    and [outcomes] are the promises settled so far.  [recovering] are the partitions
    the recovery layer reports, [now] is the physical clock's reading.  [past] is a history
    for stating what a node once held: the stores of the engine, each as it replaced the
    one before, the current one last; nothing reads it. *)
Record Replicator := MkReplicator {
  self : jsstring;
  engine : Engine;
  replicaCount : Z;
  mode : ReplicationMode;
  writeQuorum : Z;
  recovering : list Z;
  groups : list (Z * PrimaryBackup);
  table : option RoutingTable;
  ring : option PartitionRing;
  calls : list WriteOp;
  outcomes : list (nat * result WriteResult);
  now : Z;
  past : list Store }.

Definition new_Replicator (nd : jsstring) (e : Engine) (quorum replicas : Z) (md : ReplicationMode)
    (nowMs : Z) : result Replicator :=
  if negb (is_safe_integer quorum) || (quorum <=? 0)
  then Throw (RangeError "write quorum must be a positive integer")
  else Ok (MkReplicator nd e replicas md quorum [] [] None None [] [] nowMs [store e]).

Definition set_engine (s : Replicator) (e : Engine) : Replicator :=
  MkReplicator (self s) e (replicaCount s) (mode s) (writeQuorum s) (recovering s) (groups s)
    (table s) (ring s) (calls s) (outcomes s) (now s) (past s ++ [store e]).

Definition set_groups (s : Replicator) (g : list (Z * PrimaryBackup)) : Replicator :=
  MkReplicator (self s) (engine s) (replicaCount s) (mode s) (writeQuorum s) (recovering s) g
    (table s) (ring s) (calls s) (outcomes s) (now s) (past s).

Definition isRecovering (s : Replicator) (partition : Z) : bool :=
  bool_decide (partition ∈ recovering s).

Definition placementOf (s : Replicator) (partition : Z) : result PartitionPlacement :=
  match table s, ring s with
  | Some t, Some r => placement t partition r (replicaCount s)
  | _, _ => Throw ClusterUnavailableError
  end.

Definition backupsOf (s : Replicator) (partition : Z) : result (list jsstring) :=
  let! pl := placementOf s partition in Ok (pp_backups pl).

(** [install]: the groups are refreshed in order; a refused placement stops the
    loop and leaves the groups before it refreshed. *)
Fixpoint refresh_groups (s : Replicator) (gs : list (Z * PrimaryBackup))
    : result unit * list (Z * PrimaryBackup) :=
  match gs with
  | [] => (Ok tt, [])
  | (partition, group) :: gs' =>
      match backupsOf s partition with
      | Throw e => (Throw e, gs)
      | Ok backups =>
          let '(r, rest) := refresh_groups s gs' in
          (r, (partition, memberChange group backups) :: rest)
      end
  end.

Definition install (s : Replicator) (t : RoutingTable) (r : PartitionRing)
    : result unit * Replicator :=
  let s := MkReplicator (self s) (engine s) (replicaCount s) (mode s) (writeQuorum s)
    (recovering s) (groups s) (Some t) (Some r) (calls s) (outcomes s) (now s) (past s) in
  let '(res, gs) := refresh_groups s (groups s) in
  (res, set_groups s gs).

(** [#groupFor]: the partition's group, created and seeded on first use. *)
Definition groupFor (s : Replicator) (partition : Z) : result (PrimaryBackup * Replicator) :=
  match jm_get partition (groups s) with
  | Some existing => Ok (existing, s)
  | None =>
      let! backups := backupsOf s partition in
      let created :=
        memberChange (new_PrimaryBackup partition (writeQuorum s) (mode s)) backups in
      Ok (created, set_groups s (jm_set partition created (groups s)))
  end.

(** ** Decoding replies *)

Definition isConditional (op : WriteOp) : bool :=
  match op with
  | PutOp _ _ cond _ => negb (bool_decide (cond = CondNone))
  | CompareAndSetOp _ _ _ | IncrementOp _ _ => true
  | DeleteOp _ => false
  end.

Definition isReplicateAck (bytes : list Z) : bool :=
  match decodeMessage bytes with Ok ReplicateAck => true | _ => false end.

Definition decodeWriteResponse (bytes : list Z) : result WriteResult :=
  let! message := decodeMessage bytes in
  match message with
  | Rebalancing partition => Throw (PartitionRebalancingError partition)
  | WriteResponse r => Ok r
  | _ => Throw (KvProtocolError "expected a write response")
  end.

Definition decodePeek (bytes : list Z) : option Entry :=
  match decodeMessage bytes with Ok (ReadResponse entry) => entry | _ => None end.

Definition decodeReadResponse (bytes : list Z) : result (option Entry) :=
  let! message := decodeMessage bytes in
  match message with
  | ReadResponse entry => Ok entry
  | _ => Throw (KvProtocolError "expected a read response")
  end.

(** ** The engine's promises *)

(** [this.#engine.write(op)]: submits the operation and waits for its promise. *)
Definition submit (op : WriteOp) (s : Replicator) : result (nat * Replicator) :=
  let ticket := length (calls s) in
  let! e := engine_write (engine s) ticket op in
  Ok (ticket,
      MkReplicator (self s) e (replicaCount s) (mode s) (writeQuorum s) (recovering s) (groups s)
        (table s) (ring s) (calls s ++ [op]) (outcomes s) (now s) (past s)).

Definition awaitOutcome (ticket : nat) : async Replicator WriteResult :=
  Await (λ s, match jm_get ticket (outcomes s) with
              | Some r => Some (s, Ret r)
              | None => None
              end).

Definition engineWrite (op : WriteOp) : async Replicator WriteResult :=
  await! ticket := act (submit op) in awaitOutcome ticket.

(** The engine's next microtask of partition [id], which settles its promise. *)
Definition tick (id nowMs : Z) (reading : option Z) (s : Replicator) : Replicator :=
  let '(o, e) := engine_run (engine s) id nowMs reading in
  let settled_now := match o with Some (ticket, r) => [(ticket, r)] | None => [] end in
  MkReplicator (self s) e (replicaCount s) (mode s) (writeQuorum s) (recovering s) (groups s)
    (table s) (ring s) (calls s) (outcomes s ++ settled_now) (now s) (past s ++ [store e]).

Definition merge (entry : Entry) : async Replicator unit :=
  act (λ s, let! e := engine_merge (engine s) entry in Ok (tt, set_engine s e)).

(** ** A partition's primary *)

Definition acked (x : settlement) : bool :=
  match x.2 with Some bytes => isReplicateAck bytes | None => false end.

Definition acknowledgments (got : list settlement) : Z :=
  Z.of_nat (length (filter (λ x, acked x = true) got)).

(** [firstAcks]: the count once [needed] arrived or every send settled. *)
Definition firstAcks (sends : list (jsstring * list Z)) (needed : Z) : async Replicator Z :=
  Collect sends (λ got,
    match got with
    | [] => None
    | _ =>
        let acks := acknowledgments got in
        if (needed <=? acks) || Nat.eqb (length got) (length sends)
        then Some (Ret (Ok acks)) else None
    end).

(** [#replicate] of the group of [partition], whose replicas are those installed
    at this point. *)
Definition replicate (partition : Z) (entry : Entry) : async Replicator unit :=
  await! bytes := lift (encodeMessage (Replicate entry)) in
  await! (group, _) := gets (λ s, groupFor s partition) in
  let sends := (λ backup, (backup, bytes)) <$> pb_replicas group in
  let needed :=
    if decide (pb_mode group = ModeAsync) then 0
    else Z.min (pb_writeQuorum group - 1) (Z.of_nat (length sends)) in
  if needed <=? 0 then post_all sends (Ret (Ok tt))
  else
    await! acks := firstAcks sends needed in
    if acks <? needed then lift (Throw (KvQuorumError "write" (1 + acks) (pb_writeQuorum group)))
    else lift (Ok tt).

(** [propose]: a rejected conditional write is not replicated. *)
Definition propose (partition : Z) (op : WriteOp) : async Replicator WriteResult :=
  await! result := engineWrite op in
  match result with
  | WriteRejected _ => lift (Ok result)
  | WriteApplied entry =>
      await! _ := replicate partition entry in
      lift (Ok result)
  end.

(** [reconcile]: the peers' pulls, whose merges commute, taken peer by peer over
    the carrier to each. *)
Fixpoint reconcile (fuel : nat) (carrier : jsstring → list Z → option (list Z)) (partition : Z)
    (peers : list jsstring) (e : Engine) : option (result Engine) :=
  match peers with
  | [] => Some (Ok e)
  | peer :: peers' =>
      match pull fuel (λ _ k, requestPage (carrier peer) partition k) e with
      | Some (Ok e') => reconcile fuel carrier partition peers' e'
      | other => other
      end
  end.

(** ** Reads across owners *)

Record OwnerRead := MkOwnerRead { or_owner : jsstring; or_entry : option Entry }.

(** The owners' answers in their order: the local one from this node's engine,
    the others from the replies. *)
Fixpoint owner_reads (me : jsstring) (local : option Entry) (owners : list jsstring)
    (replies : list (option (list Z))) : list OwnerRead :=
  match owners with
  | [] => []
  | owner :: owners' =>
      if decide (owner = me) then MkOwnerRead owner local :: owner_reads me local owners' replies
      else
        match replies with
        | [] => []
        | reply :: replies' =>
            MkOwnerRead owner (reply ≫= decodePeek) :: owner_reads me local owners' replies'
        end
  end.

Fixpoint winner_of (winner : option Entry) (reads : list OwnerRead) : option Entry :=
  match reads with
  | [] => winner
  | read :: reads' =>
      winner_of
        (match or_entry read, winner with
         | Some e, None => Some e
         | Some e, Some w => if supersedes e w then Some e else winner
         | None, _ => winner
         end) reads'
  end.

(** Whether an owner's answer is older than the winner or missing. *)
Definition stale (winner : Entry) (read : OwnerRead) : bool :=
  match or_entry read with
  | Some e => supersedes winner e
  | None => true
  end.

Fixpoint repair_each (me : jsstring) (winner : Entry) (bytes : list Z) (reads : list OwnerRead)
    : async Replicator unit :=
  match reads with
  | [] => lift (Ok tt)
  | read :: reads' =>
      if negb (stale winner read) then repair_each me winner bytes reads'
      else if decide (or_owner read = me)
      then await! _ := merge winner in repair_each me winner bytes reads'
      else Post (or_owner read) bytes (repair_each me winner bytes reads')
  end.

Definition readRepair (me : jsstring) (winner : Entry) (reads : list OwnerRead)
    : async Replicator unit :=
  await! bytes := lift (encodeMessage (Replicate winner)) in
  repair_each me winner bytes reads.

Definition gather (k : jsstring) (owners : list jsstring) : async Replicator (option Entry) :=
  await! req := lift (encodeMessage (PeekRequest k)) in
  await! (me, local) := gets (λ s, let! e := store_peek (store (engine s)) k in Ok (self s, e)) in
  await! replies := request_all ((λ owner, (owner, req)) <$> filter (λ owner, owner ≠ me) owners) in
  let reads := owner_reads me local owners replies in
  match winner_of None reads with
  | None => lift (Ok None)
  | Some winner =>
      await! _ := readRepair me winner reads in
      gets (λ s, Ok (if isLiveValue winner (now s) then Some winner else None))
  end.

(** ** The router *)

Definition forwardWrite (primary : jsstring) (op : WriteOp) : async Replicator WriteResult :=
  await! bytes := lift (encodeMessage (WriteRequest op)) in
  await! reply := request primary bytes in
  lift (decodeWriteResponse reply).

Definition forwardRead (primary : jsstring) (k : jsstring) : async Replicator (option Entry) :=
  await! bytes := lift (encodeMessage (ReadRequest k)) in
  await! reply := request primary bytes in
  lift (decodeReadResponse reply).

(** The partition of a key with its placement at this node. *)
Definition route (k : jsstring) (s : Replicator) : result (Z * PartitionPlacement) :=
  let! partition := partitionFor (store (engine s)) k in
  let! pl := placementOf s partition in
  Ok (partition, pl).

(** The rebalance gate: a conditional write of a partition that is moving or
    recovering. *)
Definition refused (op : WriteOp) (s : Replicator) (partition : Z) (pl : PartitionPlacement) : bool :=
  isConditional op && ((1 <? Z.of_nat (length (pp_owners pl))) || isRecovering s partition).

Definition write (op : WriteOp) : async Replicator WriteResult :=
  await! (partition, target) := act (λ s,
    let! (partition, pl) := route (op_key op) s in
    if refused op s partition pl then Throw (PartitionRebalancingError partition)
    else if decide (pp_primary pl = self s)
    then let! (_, s) := groupFor s partition in Ok ((partition, None), s)
    else Ok ((partition, Some (pp_primary pl)), s)) in
  match target with
  | None => propose partition op
  | Some primary => forwardWrite primary op
  end.

Definition servePrimaryRead (partition : Z) (k : jsstring) : async Replicator (option Entry) :=
  await! gathered := act (λ s,
    if isRecovering s partition
    then let! backups := backupsOf s partition in Ok (Some (self s :: backups), s)
    else let! (_, s) := groupFor s partition in Ok (None, s)) in
  match gathered with
  | Some owners => gather k owners
  | None => gets (λ s, engine_read (engine s) k (now s))
  end.

Definition read (k : jsstring) : async Replicator (option Entry) :=
  await! (partition, pl, me) := gets (λ s, let! (p, pl) := route k s in Ok (p, pl, self s)) in
  if 1 <? Z.of_nat (length (pp_owners pl)) then gather k (pp_owners pl)
  else if decide (pp_primary pl = me) then servePrimaryRead partition k
  else forwardRead (pp_primary pl) k.

Definition serveWrite (op : WriteOp) : async Replicator (list Z) :=
  await! admitted := act (λ s,
    let! (partition, pl) := route (op_key op) s in
    if refused op s partition pl then Ok (inr partition, s)
    else let! (_, s) := groupFor s partition in Ok (inl partition, s)) in
  match admitted with
  | inr partition => lift (encodeMessage (Rebalancing partition))
  | inl partition =>
      await! result := propose partition op in
      lift (encodeMessage (WriteResponse result))
  end.

Definition receive (from : jsstring) (body : list Z) : async Replicator (list Z) :=
  await! message := lift (decodeMessage body) in
  match message with
  | WriteRequest op => serveWrite op
  | ReadRequest k =>
      await! partition := gets (λ s, partitionFor (store (engine s)) k) in
      await! entry := servePrimaryRead partition k in
      lift (encodeMessage (ReadResponse entry))
  | PeekRequest k =>
      await! entry := gets (λ s, store_peek (store (engine s)) k) in
      lift (encodeMessage (ReadResponse entry))
  | Replicate entry =>
      await! _ := merge entry in
      lift (encodeMessage ReplicateAck)
  | FragmentRequest partition afterKey =>
      await! chunk := gets (λ s, Ok (servePage (engine s) partition afterKey)) in
      lift (encodeMessage (FragmentChunk chunk))
  | FragmentPush chunk =>
      await! _ := act (λ s, let! e := applyChunk (engine s) chunk in Ok (tt, set_engine s e)) in
      lift (encodeMessage FragmentAck)
  | _ => lift (Throw (KvProtocolError "replication received an unexpected message"))
  end.

(** ** Messages over the wire *)

Lemma wire_entry_texts e : wire_entry e → Forall text_ok (entry_texts e).
Proof. intros [[Hk Hn] _]. unfold entry_texts. by rewrite !Forall_cons, Forall_nil. Qed.

(** Two messages that carry one record encode and arrive unchanged. *)
Lemma replicate_roundtrip e :
  wire_entry e →
  ∃ bs, encodeMessage (Replicate e) = Ok bs ∧ decodeMessage bs = Ok (Replicate e).
Proof.
  intros He. assert (∃ bs, encodeMessage (Replicate e) = Ok bs) as [bs E].
  { rewrite encode_append. cbn [encodeBody]. rewrite writeEntry_app. destruct He as [_ He].
    destruct (writeEntry e []); [cbn; eauto|done]. }
  exists bs. split; [done|]. apply decode_encode; [by apply wire_entry_texts|done].
Qed.

Lemma read_response_roundtrip o :
  (∀ e, o = Some e → wire_entry e) →
  ∃ bs, encodeMessage (ReadResponse o) = Ok bs ∧ decodeMessage bs = Ok (ReadResponse o).
Proof.
  intros Ho. assert (∃ bs, encodeMessage (ReadResponse o) = Ok bs) as [bs E].
  { rewrite encode_append. cbn [encodeBody]. destruct o as [e|]; cbn [writeOptionalEntry]; [|eauto].
    rewrite writeEntry_app. destruct (Ho e eq_refl) as [_ He].
    destruct (writeEntry e []); [cbn; eauto|done]. }
  exists bs. split; [done|]. apply decode_encode; [|done].
  destruct o as [e|]; cbn; [by apply wire_entry_texts, Ho|constructor].
Qed.

Lemma rebalancing_roundtrip p :
  is_u32 p →
  ∃ bs, encodeMessage (Rebalancing p) = Ok bs ∧ decodeMessage bs = Ok (Rebalancing p).
Proof.
  intros Hp. assert (∃ bs, encodeMessage (Rebalancing p) = Ok bs) as [bs E].
  { rewrite encode_append. cbn [encodeBody].
    unfold writePartitionField, assertU32, wr_check, is_safe_integer, guard_throw.
    unfold is_u32, W32 in Hp. replace (negb _) with true; [cbn; eauto|].
    symmetry. rewrite negb_true_iff, !orb_false_iff, negb_false_iff, andb_true_iff, !Z.leb_le, !Z.ltb_ge.
    unfold MAX_SAFE_INTEGER. lia. }
  exists bs. split; [done|]. apply decode_encode; [constructor|done].
Qed.

(** ** A peer's answers *)

(** What a peer in state [p] answers, itself talking to its peers over [net];
    [None] when it throws or waits. *)
Definition answer (idle : Replicator → Replicator) (net : jsstring → list Z → option (list Z))
    (p : Replicator) (from : jsstring) (body : list Z) : option (list Z) :=
  match run idle net (receive from body) p with
  | Some (Ok bytes, _, _) => Some bytes
  | _ => None
  end.

(** The carrier of node [me] to its peers; an absent one does not answer. *)
Definition carrier_to (idle : Replicator → Replicator) (net : jsstring → list Z → option (list Z))
    (peers : jsstring → option Replicator) (me to : jsstring) (body : list Z) : option (list Z) :=
  peers to ≫= λ p, answer idle net p me body.

(** The record a node holds for a key. *)
Definition version (s : Replicator) (k : jsstring) : option Entry := content (store (engine s)) k.

Lemma answer_peek idle net p from req k :
  store_inv (store (engine p)) → decodeMessage req = Ok (PeekRequest k) →
  (∀ e, version p k = Some e → wire_entry e) →
  ∃ bytes, answer idle net p from req = Some bytes ∧ decodePeek bytes = version p k.
Proof.
  intros Hs Hreq Hw. destruct (read_response_roundtrip (version p k) Hw) as (bytes & Henc & Hdec).
  exists bytes. unfold answer, receive. rewrite run_bind. cbn [run lift]. rewrite Hreq.
  rewrite run_bind, run_gets, store_peek_content by done.
  cbn [run lift]. fold (version p k). rewrite Henc. split; [done|].
  unfold decodePeek. by rewrite Hdec.
Qed.

Lemma winner_of_lww w reads : winner_of w reads = foldl lww w (omap or_entry reads).
Proof.
  revert w. induction reads as [|[o [e|]] reads IH]; intros w; cbn; [done| |apply IH].
  rewrite IH. f_equal. destruct w as [w|]; [|done]. cbn. by destruct (supersedes e w).
Qed.

(** What the owners answer to a peek of [k]. *)
Definition owner_version (peers : jsstring → option Replicator) (s : Replicator) (k : jsstring)
    (owner : jsstring) : option Entry :=
  if decide (owner = self s) then version s k else peers owner ≫= λ p, version p k.

Lemma owner_reads_spec idle net peers s k req owners :
  decodeMessage req = Ok (PeekRequest k) →
  (∀ o p, o ∈ owners → peers o = Some p →
     store_inv (store (engine p)) ∧ ∀ e, version p k = Some e → wire_entry e) →
  owner_reads (self s) (version s k) owners
    ((λ m, carrier_to idle net peers (self s) m.1 m.2)
       <$> ((λ o, (o, req)) <$> filter (λ o, o ≠ self s) owners))
  = (λ o, MkOwnerRead o (owner_version peers s k o)) <$> owners.
Proof.
  intros Hreq. induction owners as [|o owners IH]; intros Hp; [done|]. cbn [owner_reads].
  rewrite fmap_cons. unfold owner_version at 1. rewrite filter_cons.
  destruct (decide (o = self s)) as [->|Hne].
  - rewrite decide_False by (intros []; done). f_equal. apply IH. intros. apply (Hp o); [by right|done].
  - rewrite decide_True by done. cbn [fmap list_fmap]. f_equal.
    + f_equal. unfold carrier_to. cbn. destruct (peers o) as [p|] eqn:Ho; [|done]. cbn.
      destruct (Hp o p) as [Hs Hw]; [left|done|].
      destruct (answer_peek idle net p (self s) req k Hs Hreq Hw) as (bytes & -> & Hb). exact Hb.
    + apply IH. intros. apply (Hp o0); [by right|done].
Qed.

(** The state after merging [w] into a node. *)
Definition merged (s : Replicator) (w : Entry) : Replicator :=
  set_engine s (set_store (engine s) (store_merge (store (engine s)) w)).

Lemma run_merge idle net s w :
  store_inv (store (engine s)) →
  run idle net (merge w) s = Some (Ok tt, merged s w, []).
Proof.
  intros Hs. unfold merge. rewrite run_act. unfold engine_merge, merged, store_merge.
  destruct (store_apply_spec (store (engine s)) w Hs) as (ch & s' & -> & _). done.
Qed.

(** A node merges the winner as often as it is listed with an older version. *)
Fixpoint local_merges (me : jsstring) (w : Entry) (reads : list OwnerRead) (s : Replicator)
    : Replicator :=
  match reads with
  | [] => s
  | r :: reads' =>
      local_merges me w reads' (if stale w r && bool_decide (or_owner r = me) then merged s w else s)
  end.

Lemma run_repair_each idle net me w bytes reads s :
  store_inv (store (engine s)) →
  run idle net (repair_each me w bytes reads) s
  = Some (Ok tt, local_merges me w reads s,
          (λ r, (or_owner r, bytes)) <$> filter (λ r, stale w r = true ∧ or_owner r ≠ me) reads).
Proof.
  revert s. induction reads as [|r reads IH]; intros s Hs; cbn [repair_each local_merges]; [done|].
  rewrite filter_cons. destruct (stale w r) eqn:Hst; cbn [negb andb].
  - destruct (decide (or_owner r = me)) as [Hme|Hne].
    + rewrite bool_decide_eq_true_2 by done. rewrite decide_False by (intros [_ []]; done).
      rewrite run_bind, run_merge by done. rewrite IH; [done|]. by apply store_merge_inv.
    + rewrite bool_decide_eq_false_2 by done. rewrite decide_True by done.
      cbn [run]. by rewrite IH.
  - rewrite decide_False by (intros [? _]; done). by apply IH.
Qed.

Lemma lww_idem i w : lww (lww i w) w = lww i w.
Proof.
  destruct i as [i|]; cbn; [|by rewrite supersedes_irrefl].
  destruct (supersedes w i) eqn:E; cbn; [by rewrite supersedes_irrefl|by rewrite E].
Qed.

Lemma version_merged s w k :
  store_inv (store (engine s)) →
  version (merged s w) k = if decide (k = key w) then lww (version s k) w else version s k.
Proof. intros Hs. unfold version, merged. cbn. by apply content_store_merge. Qed.

Lemma local_merges_spec me w reads s :
  store_inv (store (engine s)) →
  let s' := local_merges me w reads s in
  now s' = now s ∧ store_inv (store (engine s'))
  ∧ (∀ k, k ≠ key w → version s' k = version s k)
  ∧ version s' (key w)
    = if existsb (λ r, stale w r && bool_decide (or_owner r = me)) reads
      then lww (version s (key w)) w else version s (key w).
Proof.
  revert s. induction reads as [|r reads IH]; intros s Hs; cbn [local_merges existsb]; [done|].
  destruct (stale w r && bool_decide (or_owner r = me)); cbn [orb]; [|by apply IH].
  destruct (IH (merged s w)) as (Hnow & Hs' & Hne & Hk); [by apply store_merge_inv|].
  split; [done|]. split; [done|]. split.
  - intros k Hkw. by rewrite Hne, version_merged, decide_False by done.
  - rewrite Hk, version_merged, decide_True by done.
    destruct (existsb _ _); [by rewrite lww_idem|done].
Qed.

Lemma owner_version_ok peers s k (owners : list jsstring) e :
  store_inv (store (engine s)) → (∀ e, version s k = Some e → wire_entry e) →
  (∀ o p, o ∈ owners → peers o = Some p →
     store_inv (store (engine p)) ∧ ∀ e, version p k = Some e → wire_entry e) →
  e ∈ omap (owner_version peers s k) owners → wire_entry e ∧ key e = k.
Proof.
  intros Hs Hw Hp (o & Ho & He)%list_elem_of_omap. unfold owner_version in He.
  destruct (decide (o = self s)) as [->|].
  - split; [by apply Hw|]. by eapply content_key.
  - destruct (peers o) as [p|] eqn:Hpo; [|done]. cbn in He.
    destruct (Hp o p Ho Hpo) as [Hps Hpw]. split; [by apply Hpw|]. by eapply content_key.
Qed.

Lemma omap_owner_reads peers s k (owners : list jsstring) :
  omap or_entry ((λ o, MkOwnerRead o (owner_version peers s k o)) <$> owners)
  = omap (owner_version peers s k) owners.
Proof. induction owners as [|o owners IH]; [done|]. cbn. rewrite <-IH. done. Qed.

(** The local merge of a repair leaves the newer of the two records. *)
Lemma local_repair peers s w (owners : list jsstring) :
  store_inv (store (engine s)) →
  let reads := (λ o, MkOwnerRead o (owner_version peers s (key w) o)) <$> owners in
  let s' := local_merges (self s) w reads s in
  version s' (key w)
  = if decide (self s ∈ owners) then lww (version s (key w)) w else version s (key w).
Proof.
  intros Hs reads s'. destruct (local_merges_spec (self s) w reads s Hs) as (_ & _ & _ & Hk).
  unfold s'. rewrite Hk. clear Hk s'. destruct (existsb _ _) eqn:E.
  - apply existsb_exists in E as (r & Hin%list_elem_of_In & Hr).
    apply andb_true_iff in Hr as [_ Hr%bool_decide_eq_true].
    apply list_elem_of_fmap in Hin as (o & -> & Ho). cbn in Hr. subst o. by rewrite decide_True.
  - destruct (decide (self s ∈ owners)) as [Hin|]; [|done].
    assert (stale w (MkOwnerRead (self s) (version s (key w))) = false) as Hst.
    { apply not_true_is_false. intros Hst. apply not_true_iff_false in E. apply E, existsb_exists.
      exists (MkOwnerRead (self s) (owner_version peers s (key w) (self s))). split.
      - apply list_elem_of_In. unfold reads. apply list_elem_of_fmap. by exists (self s).
      - unfold owner_version. rewrite decide_True by done. rewrite Hst. cbn.
        by apply bool_decide_eq_true. }
    unfold stale in Hst. cbn in Hst. destruct (version s (key w)) as [e|]; [|done].
    cbn. by rewrite Hst.
Qed.

(** ** Reconciling with peers *)

(** A replicator serves the pages of its fragments. *)
#[global] Instance replicator_serves idle net p from :
  PageServer (answer idle net p from) (engine p).
Proof.
  intros bs partition afterKey reply Hdec Henc. unfold answer, receive.
  rewrite run_bind. cbn [run lift]. rewrite Hdec. rewrite run_bind, run_gets.
  cbn [run lift]. by rewrite Henc.
Qed.

(** The union of a record with those the reachable peers hold. *)
Definition union_peers (peers : jsstring → option Engine) (o : option Entry) (names : list jsstring)
    (k : jsstring) : option Entry :=
  foldl (λ o n, match peers n with
                | Some e => union_lww o (content (store e) k)
                | None => o
                end) o names.

(** What a reconcile asks of a peer it can reach: its pages, over records the wire
    carries, of a store with the same key mapping. *)
Record peer_ready (carrier : jsstring → list Z → option (list Z)) (fuel : nat) (p : Z)
    (count : Z) (n : jsstring) (peer : Engine) : Prop := {
  pr_serves : PageServer (carrier n) peer;
  pr_inv : store_inv (store peer);
  pr_count : partitionCount (store peer) = count;
  pr_wire : ∀ x, x ∈ snapshot (store peer) p → wire_entry x;
  pr_fuel : Z.of_nat (length (snapshot (store peer) p)) < 2 ^ 31
            ∧ (length (snapshot (store peer) p) < fuel)%nat }.

Lemma reconcile_spec carrier peers fuel p e names :
  store_inv (store e) → is_u32 p → (0 < fuel)%nat →
  (∀ n peer, n ∈ names → peers n = Some peer →
     peer_ready carrier fuel p (partitionCount (store e)) n peer) →
  (∀ n, n ∈ names → peers n = None → carrier n = λ _, None) →
  ∃ e', reconcile fuel carrier p names e = Some (Ok e')
    ∧ store_inv (store e') ∧ partitionCount (store e') = partitionCount (store e)
    ∧ clock e' = clock e ∧ pipelines e' = pipelines e
    ∧ ∀ k, content (store e') k
           = if decide (home (store e) k = p) then union_peers peers (content (store e) k) names k
             else content (store e) k.
Proof.
  intros He Hp Hfuel. revert e He. induction names as [|n names IH]; intros e He Hready Hgone.
  { exists e. cbn. split; [done|]. do 4 (split; [done|]). intros k. by destruct (decide _). }
  cbn [reconcile union_peers foldl].
  destruct (peers n) as [peer|] eqn:Hn.
  - destruct (Hready n peer ltac:(left) Hn) as [Hsrv Hinv Hcount Hw [Hlen Hf]].
    destruct (pull_spec (carrier n) peer e p fuel He Hinv Hp Hlen Hf Hw)
      as (e1 & -> & Hclk & Hpipe & Hs1 & Hc1 & Hcont).
    destruct (IH e1 Hs1) as (e' & -> & Hs' & Hcnt & Hclk' & Hpipe' & Hcont').
    { intros m q Hm Hq. rewrite Hc1. apply Hready; [by right|done]. }
    { intros m Hm. apply Hgone. by right. }
    exists e'. split; [done|]. split; [done|]. split; [congruence|]. split; [congruence|].
    split; [congruence|]. intros k. rewrite Hcont'.
    assert (home (store e1) k = home (store e) k) as -> by by apply home_count.
    assert (home (store peer) k = home (store e) k) as Hh by by apply home_count.
    rewrite Hcont, Hh. by destruct (decide (home (store e) k = p)).
  - rewrite (Hgone n ltac:(left) Hn). destruct fuel as [|fuel]; [lia|].
    rewrite pull_unreachable by done. apply (IH e He).
    + intros m q Hm Hq. apply Hready; [by right|done].
    + intros m Hm. apply Hgone. by right.
Qed.

(** ** Properties *)

(** C4: a read across owners returns the newest record and heals the owners: every
    owner that answers is consulted, the winner is the newest of their records and
    of this node's own, it is returned exactly when it is a live value, the frame
    posted to each owner whose record is older or missing carries the winner, and
    this node, when it is an owner, holds the newer of its record and the winner. *)
Theorem gather_returns_newest idle net peers s k (owners : list jsstring) req :
  store_inv (store (engine s)) → text_ok k → encodeMessage (PeekRequest k) = Ok req →
  (∀ e, version s k = Some e → wire_entry e) →
  (∀ o p, o ∈ owners → peers o = Some p →
     store_inv (store (engine p)) ∧ ∀ e, version p k = Some e → wire_entry e) →
  let versions := omap (owner_version peers s k) owners in
  ∃ r s' out, run idle (carrier_to idle net peers (self s)) (gather k owners) s = Some (Ok r, s', out)
    ∧ (versions = [] ∧ r = None ∧ s' = s ∧ out = []
       ∨ ∃ w bytes, newest versions w
           ∧ r = (if isLiveValue w (now s) then Some w else None)
           ∧ decodeMessage bytes = Ok (Replicate w)
           ∧ out = (λ o, (o, bytes)) <$> filter (λ o, o ≠ self s
                 ∧ stale w (MkOwnerRead o (owner_version peers s k o)) = true) owners
           ∧ version s' k = if decide (self s ∈ owners) then lww (version s k) w
                            else version s k).
Proof.
  intros Hs Hk Hreq Hw Hp versions.
  assert (decodeMessage req = Ok (PeekRequest k)) as Hdec.
  { apply decode_encode; [by apply Forall_singleton|done]. }
  unfold gather. rewrite run_bind. cbn [run lift]. rewrite Hreq.
  rewrite run_bind, run_gets, store_peek_content by done. cbn [result_bind].
  rewrite run_bind, run_request_all. fold (version s k).
  rewrite owner_reads_spec by done. rewrite winner_of_lww, omap_owner_reads. fold versions.
  destruct (foldl lww None versions) as [w|] eqn:Hwin.
  - apply foldl_lww_newest in Hwin. cbn [option_list app] in Hwin.
    destruct (owner_version_ok peers s k owners w Hs Hw Hp (proj1 Hwin)) as [Hww Hkw].
    destruct (replicate_roundtrip w Hww) as (bytes & Henc & Hdb).
    unfold readRepair. rewrite run_bind, run_bind. cbn [run lift]. rewrite Henc.
    rewrite run_repair_each by done. rewrite run_gets.
    eexists _, _, _. split; [done|]. right. exists w, bytes. split; [done|].
    split; [|split; [done|split]].
    + by destruct (local_merges_spec (self s) w
        ((λ o, MkOwnerRead o (owner_version peers s k o)) <$> owners) s Hs) as (-> & _).
    + rewrite app_nil_r. cbn [app]. rewrite list_filter_fmap, <-list_fmap_compose. cbn.
      f_equal. apply list_filter_iff. intros o. cbn. tauto.
    + subst k. by apply local_repair.
  - apply foldl_lww_None in Hwin as [_ Hnil]. eexists _, _, _. split; [done|]. by left.
Qed.

(** ** The rebalance gate *)

Lemma refused_spec op s partition pl :
  isConditional op = true →
  (1 < Z.of_nat (length (pp_owners pl)) ∨ partition ∈ recovering s) →
  refused op s partition pl = true.
Proof.
  intros Hc H. unfold refused, isRecovering. rewrite Hc. apply orb_true_iff.
  destruct H; [left; by apply Z.ltb_lt|right; by apply bool_decide_eq_true].
Qed.

Lemma run_write_refused idle net s op partition pl :
  route (op_key op) s = Ok (partition, pl) → refused op s partition pl = true →
  run idle net (write op) s = Some (Throw (PartitionRebalancingError partition), s, []).
Proof. intros Hr Href. unfold write. rewrite run_bind, run_act, Hr. cbn [result_bind]. by rewrite Href. Qed.

Lemma run_receive_refused idle net s op from body partition pl :
  route (op_key op) s = Ok (partition, pl) → refused op s partition pl = true →
  is_u32 partition → decodeMessage body = Ok (WriteRequest op) →
  ∃ reply, run idle net (receive from body) s = Some (Ok reply, s, [])
    ∧ decodeWriteResponse reply = Throw (PartitionRebalancingError partition).
Proof.
  intros Hr Href Hp Hb. destruct (rebalancing_roundtrip partition Hp) as (reply & Henc & Hdec).
  exists reply. unfold receive. rewrite run_bind. cbn [run lift]. rewrite Hb.
  unfold serveWrite. rewrite run_bind, run_act, Hr. cbn [result_bind]. rewrite Href.
  cbn [run lift]. rewrite Henc. split; [done|]. unfold decodeWriteResponse. by rewrite Hdec.
Qed.

(** The rebalance gate holds at both ends: where a node sees a partition with
    more than one owner, or reports it recovering, a conditional write is refused
    with the rebalancing error, changing nothing and sending nothing, when it enters
    there and when it arrives forwarded; and a sender whose own view would let the
    write pass gets the same error back from such a primary. *)
Theorem conditional_write_gate idle net s op body partition pl :
  route (op_key op) s = Ok (partition, pl) → is_u32 partition → isConditional op = true →
  (1 < Z.of_nat (length (pp_owners pl)) ∨ partition ∈ recovering s) →
  text_ok (op_key op) → encodeMessage (WriteRequest op) = Ok body →
  run idle net (write op) s = Some (Throw (PartitionRebalancingError partition), s, [])
  ∧ (∀ from, ∃ reply, run idle net (receive from body) s = Some (Ok reply, s, [])
       ∧ decodeWriteResponse reply = Throw (PartitionRebalancingError partition))
  ∧ (∀ sender partition' pl' peers,
       route (op_key op) sender = Ok (partition', pl') →
       refused op sender partition' pl' = false →
       pp_primary pl' = self s → self s ≠ self sender → peers (self s) = Some s →
       run idle (carrier_to idle net peers (self sender)) (write op) sender
       = Some (Throw (PartitionRebalancingError partition), sender, [])).
Proof.
  intros Hr Hp Hc Hm Hk Henc. pose proof (refused_spec op s partition pl Hc Hm) as Href.
  assert (decodeMessage body = Ok (WriteRequest op)) as Hdec.
  { apply decode_encode; [by apply Forall_singleton|done]. }
  split; [by eapply run_write_refused|]. split; [intros; by eapply run_receive_refused|].
  intros sender partition' pl' peers Hr' Hpass Hprim Hne Hpeer.
  unfold write. rewrite run_bind, run_act, Hr'. cbn [result_bind]. rewrite Hpass, Hprim.
  rewrite decide_False by done. unfold forwardWrite. rewrite run_bind. cbn [run lift].
  rewrite Henc, run_bind, run_request. unfold carrier_to. rewrite Hpeer. cbn [mbind option_bind].
  destruct (run_receive_refused idle net s op (self sender) body partition pl)
    as (reply & Hrun & Hrep); [done..|].
  unfold answer. rewrite Hrun. cbn [run lift]. by rewrite Hrep.
Qed.

(** ** Samples *)

Definition sample_node (nd : string) (es : list Entry) (t : RoutingTable) (r : PartitionRing)
    : Replicator :=
  MkReplicator (js nd) (MkEngine (merge_all (MkStore 1 [] 0) es) (MkClock (js nd) 0 0) [])
    DEFAULT_REPLICA_COUNT ModeSync DEFAULT_WRITE_QUORUM [] [] (Some t) (Some r) [] [] 10
    [merge_all (MkStore 1 [] 0) es].

Definition sample_peers (nodes : list Replicator) (n : jsstring) : option Replicator :=
  snd <$> list_find (λ p, self p = n) nodes.

(** ** Claims through a former primary *)

(** An engine with one write queued for the partition runs it. *)
Lemma engine_run_one e id ticket op nowMs reading r p' e' :
  queue (pipe e id) = [(ticket, op)] →
  engine_apply e (MkPipeline [] (pl_sequence (pipe e id))) op nowMs reading = Ok (r, p', e') →
  engine_run e id nowMs reading = (Some (ticket, Ok r), MkEngine (store e') (clock e') (jm_set id p' (pipelines e'))).
Proof.
  unfold engine_run, pipe. destruct (jm_get id (pipelines e)) as [p|]; [|done]. cbn. intros -> H. by rewrite H.
Qed.

Definition claim (k : jsstring) (v : list Z) (ttl : option Z) : WriteOp := PutOp k v IfAbsent ttl.

(** Whether the node's own record of the key holds a value at [nowMs]. *)
Definition holds_live (s : Replicator) (k : jsstring) (nowMs : Z) : bool :=
  match version s k with Some x => isLiveValue x nowMs | None => false end.

Lemma claim_rejected e p k v ttl nowMs reading x :
  store_inv (store e) → content (store e) k = Some x → isLiveValue x nowMs = true →
  engine_apply e p (claim k v ttl) nowMs reading = Ok (WriteRejected FailIfAbsent, p, e).
Proof.
  intros Hs Hx Hl. unfold engine_apply. cbn [op_key claim]. rewrite liveValue_spec, Hx by done. cbn. by rewrite Hl.
Qed.

Lemma commit_stamp e p k v expires reading x p' e' :
  commit e p k v expires reading = Ok (WriteApplied x, p', e') → node (timestamp x) = clk_node (clock e).
Proof.
  unfold commit. intros H. inv_ok. destruct r as [tm c]. unfold nextSequence in H. inv_ok. unfold hlc_now in E. by inv_ok.
Qed.

Lemma claim_applied e p k v ttl nowMs reading :
  engine_inv e → (∀ x, content (store e) k = Some x → isLiveValue x nowMs = false) →
  ∃ x p' e', engine_apply e p (claim k v ttl) nowMs (Some reading) = Ok (WriteApplied x, p', e')
    ∧ key x = k ∧ value x = Some v ∧ content (store e') k = Some x ∧ node (timestamp x) = clk_node (clock e).
Proof.
  intros He Hno. unfold engine_apply. cbn [op_key claim]. rewrite liveValue_spec by apply He.
  assert ((content (store e) k ≫= λ x, if isLiveValue x nowMs then Some x else None) = None) as ->.
  { destruct (content (store e) k) as [x|]; [|done]. cbn. by rewrite (Hno x eq_refl). }
  cbn [result_bind]. unfold applyPut. cbn [is_Some_b andb negb]. rewrite andb_false_r, (bool_decide_false (IfAbsent = IfPresent)) by done. cbn [andb].
  destruct (commit_installs e p k (Some v) (match ttl with Some ttl => Some (nowMs + ttl) | None => None end) reading He)
    as (x & s' & c' & Hc & Hk & Hv & _ & _ & Hcont & _).
  exists x, (MkPipeline (queue p) (pl_sequence p + 1)), (MkEngine s' c' (pipelines e)).
  split_and!; [exact Hc|done|done| |by eapply commit_stamp]. cbn. by rewrite Hcont, decide_True.
Qed.

Lemma jm_get_app {K V} `{EqDecision K} (k : K) (m m' : list (K * V)) :
  jm_get k (m ++ m') = match jm_get k m with Some v => Some v | None => jm_get k m' end.
Proof. induction m as [|[k' v] m IH]; [done|]. cbn. by destruct (decide _). Qed.

(** Nothing of the partition is waiting at the node, and its next promise is not settled. *)
Record resting (s : Replicator) (id : Z) : Prop := {
  rs_store : store_inv (store (engine s));
  rs_queue : queue (pipe (engine s) id) = [];
  rs_outcomes : jm_get (length (calls s)) (outcomes s) = None }.

(** A write submitted to a resting engine is applied in the next microtask. *)
Lemma run_engineWrite net s op id nowMs reading :
  resting s id → home (store (engine s)) (op_key op) = id →
  ∃ e p, store e = store (engine s) ∧ clock e = clock (engine s) ∧ ∀ r p' e',
    engine_apply e p op nowMs reading = Ok (r, p', e') →
    ∃ s', run (tick id nowMs reading) net (engineWrite op) s = Some (Ok r, s', [])
      ∧ store (engine s') = store e' ∧ groups s' = groups s.
Proof.
  intros [He Hq Ho] Hid. destruct (engine_write_spec (engine s) (length (calls s)) op He) as (e & Ew & Hst & Hcl & Hp).
  specialize (Hp id). rewrite decide_True in Hp by done. unfold pipeline_run in Hp. rewrite Hq in Hp. cbn [app] in Hp.
  exists e, (MkPipeline [] (pl_sequence (pipe e id))). split_and!; [done..|]. intros r p' e' Ha.
  unfold engineWrite. rewrite run_bind, run_act. unfold submit. rewrite Ew. cbn [result_bind].
  set (s1 := MkReplicator _ e _ _ _ _ _ _ _ _ _ _ _). unfold awaitOutcome. cbn [run outcomes s1]. rewrite Ho.
  pose proof (engine_run_one e id _ op nowMs reading r p' e' ltac:(by rewrite Hp) Ha) as Hrun.
  assert (jm_get (length (calls s)) (outcomes (tick id nowMs reading s1)) = Some (Ok r)) as ->.
  { unfold tick. cbn [engine s1]. rewrite Hrun. cbn [outcomes s1]. rewrite jm_get_app, Ho. cbn. by rewrite decide_True. }
  cbn [run]. exists (tick id nowMs reading s1). unfold tick. cbn [engine s1]. rewrite Hrun. done.
Qed.

Lemma run_post_all idle net (msgs : list (jsstring * list Z)) r (s : Replicator) :
  run idle net (post_all msgs (Ret r)) s = Some (r, s, msgs).
Proof. induction msgs as [|[to body] msgs IH]; [done|]. cbn [post_all run]. by rewrite IH. Qed.

(** Once every request has settled, the wait for acknowledgements ends. *)
Lemma settle_ends {B} net (k : list settlement → option B) reqs got i N :
  (∀ got, length got = N → k got ≠ None) → (length got + length reqs = N)%nat → k (settle_in_order net k got i reqs) ≠ None.
Proof.
  intros Hk. revert got i. induction reqs as [|[to body] reqs IH]; intros got i Hl; cbn [settle_in_order length] in *.
  - destruct (k got) eqn:E; [by rewrite E|]. apply Hk. lia.
  - destruct (k got) eqn:E; [by rewrite E|]. apply IH. rewrite length_app. cbn. lia.
Qed.

(** Replicating ends, and leaves the node as it was. *)
Lemma run_replicate idle net s partition group x :
  jm_get partition (groups s) = Some group → ∃ r out, run idle net (replicate partition x) s = Some (r, s, out).
Proof.
  intros Hg. unfold replicate. rewrite run_bind. cbn [run lift]. destruct (encodeMessage (Replicate x)) as [bytes|e]; [|by do 2 eexists].
  rewrite run_bind, run_gets. unfold groupFor. rewrite Hg. set (sends := _ <$> pb_replicas group). set (needed := if decide _ then _ else _).
  destruct (Z.leb_spec needed 0) as [|Hpos]; [rewrite run_post_all; by do 2 eexists|].
  assert (sends ≠ []) as Hne.
  { intros E. unfold needed in Hpos. rewrite E in Hpos. destruct (decide _); cbn [length] in Hpos; lia. }
  rewrite run_bind. unfold firstAcks. set (k := λ got : list settlement, _).
  change (run idle net (Collect sends k) s) with
    (match k (settle_in_order net k [] 0 sends) with Some a => run idle net a s | None => None end).
  pose proof (settle_ends net k sends [] 0 (length sends)) as Hk. destruct (k (settle_in_order net k [] 0 sends)) as [a|] eqn:E.
  2: { exfalso. apply Hk; [|done|done]. intros [|g got] Hl; [by destruct sends|]. unfold k. rewrite Hl, Nat.eqb_refl, orb_true_r. done. }
  assert (∃ acks, a = Ret (Ok acks)) as [acks ->].
  { unfold k in E. destruct (settle_in_order _ _ _ _ _); [done|]. destruct (_ || _); [|done]. injection E as <-. by eexists. }
  cbn [run]. destruct (_ <? needed); cbn [run lift]; by do 2 eexists.
Qed.

Lemma group_ready k s id pl :
  route k s = Ok (id, pl) →
  ∃ g s1, groupFor s id = Ok (g, s1) ∧ engine s1 = engine s ∧ calls s1 = calls s ∧ outcomes s1 = outcomes s
    ∧ jm_get id (groups s1) = Some g.
Proof.
  unfold route, groupFor, backupsOf. intros H. inv_ok. destruct (jm_get id (groups s)) as [g|] eqn:Eg; [by exists g, s|].
  rewrite E0. cbn [result_bind]. do 2 eexists. split_and!; [done..|]. cbn. by rewrite jm_get_set, decide_True.
Qed.

Lemma route_home k s id pl : store_inv (store (engine s)) → route k s = Ok (id, pl) → home (store (engine s)) k = id.
Proof. intros Hs H. unfold route in H. rewrite partitionFor_ok in H by done. inv_ok. done. Qed.

(** A primary that holds the key live refuses the claim. *)
Lemma primary_rejects net s k v ttl id pl nowMs reading :
  resting s id → route k s = Ok (id, pl) → refused (claim k v ttl) s id pl = false → pp_primary pl = self s →
  holds_live s k nowMs = true →
  ∃ s', run (tick id nowMs reading) net (write (claim k v ttl)) s = Some (Ok (WriteRejected FailIfAbsent), s', []).
Proof.
  intros [He Hq Ho] Hr Hf Hp Hl. destruct (group_ready k s id pl Hr) as (g & s1 & Hg & E1 & E2 & E3 & _).
  unfold write. rewrite run_bind, run_act. cbn [op_key claim]. rewrite Hr. cbn [result_bind]. fold (claim k v ttl).
  rewrite Hf, decide_True, Hg by done. cbn [result_bind].
  destruct (run_engineWrite net s1 (claim k v ttl) id nowMs reading) as (e & p & Hst & _ & Hrun).
  { split; by rewrite ?E1, ?E2, ?E3. }
  { rewrite E1. by eapply route_home. }
  unfold holds_live, version in Hl. destruct (content _ k) as [x|] eqn:Hx; [|done]. rewrite E1 in Hst.
  destruct (Hrun _ _ _ (claim_rejected e p k v ttl nowMs reading x ltac:(by rewrite Hst) ltac:(by rewrite Hst) Hl)) as (s' & Hrun' & _).
  unfold propose. rewrite run_bind, Hrun'. cbn [run lift app]. by eexists.
Qed.

(** A node that does not hold it live applies the claim that is forwarded to it, whoever its
    table says is the primary. *)
Lemma receiver_applies net s from body k v ttl id pl nowMs reading :
  resting s id → engine_inv (engine s) → route k s = Ok (id, pl) → refused (claim k v ttl) s id pl = false →
  holds_live s k nowMs = false → decodeMessage body = Ok (WriteRequest (claim k v ttl)) →
  text_ok k → text_ok (clk_node (clock (engine s))) →
  ∃ x r s' out, run (tick id nowMs (Some reading)) net (receive from body) s = Some (r, s', out)
    ∧ version s' k = Some x ∧ key x = k ∧ value x = Some v
    ∧ match r with Ok reply => decodeWriteResponse reply = Ok (WriteApplied x) | Throw _ => True end.
Proof.
  intros [Hst0 Hq Ho] He Hr Hf Hl Hb Hk Hn. destruct (group_ready k s id pl Hr) as (g & s1 & Hg & E1 & E2 & E3 & Hg1).
  unfold receive. rewrite run_bind. cbn [run lift]. rewrite Hb. unfold serveWrite. rewrite run_bind, run_act.
  cbn [op_key claim]. rewrite Hr. cbn [result_bind]. fold (claim k v ttl). rewrite Hf, Hg. cbn [result_bind].
  destruct (run_engineWrite net s1 (claim k v ttl) id nowMs (Some reading)) as (e & p & Hst & Hcl & Hrun).
  { split; by rewrite ?E1, ?E2, ?E3. }
  { rewrite E1. by eapply route_home. }
  rewrite E1 in Hst, Hcl.
  destruct (claim_applied e p k v ttl nowMs reading) as (x & p' & e' & Ha & Hkx & Hv & Hc & Hnode).
  { destruct He as [H1 H2 H3]. split; by rewrite Hst, ?Hcl. }
  { intros x Hx. unfold holds_live, version in Hl. rewrite Hst in Hx. by rewrite Hx in Hl. }
  destruct (Hrun _ _ _ Ha) as (s2 & Hr2 & Hs2 & Hg2). rewrite run_bind. unfold propose. rewrite run_bind, Hr2.
  rewrite <-Hg2 in Hg1. rewrite run_bind. destruct (run_replicate (tick id nowMs (Some reading)) net s2 id g x Hg1) as (r & out & ->).
  assert (version s2 k = Some x) as Hver by (unfold version; by rewrite Hs2).
  destruct r as [[]|err]; cbn [run lift]; [|by exists x, (Throw err), s2, out].
  exists x, (encodeMessage (WriteResponse (WriteApplied x))), s2. rewrite !app_nil_r. exists out. split_and!; try done.
  destruct (encodeMessage _) as [reply|] eqn:E; [|done]. unfold decodeWriteResponse. rewrite (decode_encode (WriteResponse (WriteApplied x)) reply); [done| |exact E].
  change (Forall text_ok [key x; node (timestamp x)]). rewrite !Forall_cons, Forall_nil, Hkx, Hnode, Hcl. done.
Qed.

(** C39: primacy is not checked at the receiving end of a forwarded write.  Take a node that
    is the primary of a key by its own table and holds a live value for it, another node
    that does not hold one, and a sender whose table still names that other node; none of
    the three sees the partition fragmented or recovering.  Then the put-if-absent that the
    primary rejects is applied to the other node's store when the sender forwards it there,
    whichever node that other node's own table names as the primary; and once its replicas
    acknowledge, the sender is told that its claim succeeded. *)
Theorem stale_sender_duplicates_claim nowMs reading net peers primary former sender k v ttl body id pl1 pl2 pl3 :
  let op := claim k v ttl in
  let idle := tick id nowMs (Some reading) in
  resting primary id → resting former id → engine_inv (engine former) →
  route k primary = Ok (id, pl1) → refused op primary id pl1 = false → pp_primary pl1 = self primary →
  route k former = Ok (id, pl2) → refused op former id pl2 = false →
  route k sender = Ok (id, pl3) → refused op sender id pl3 = false → pp_primary pl3 = self former →
  self former ≠ self sender → peers (self former) = Some former →
  text_ok k → text_ok (clk_node (clock (engine former))) → encodeMessage (WriteRequest op) = Ok body →
  holds_live primary k nowMs = true → holds_live former k nowMs = false →
  (∃ s', run idle net (write op) primary = Some (Ok (WriteRejected FailIfAbsent), s', []))
  ∧ ∃ x r s' out, run idle net (receive (self sender) body) former = Some (r, s', out)
    ∧ version s' k = Some x ∧ value x = Some v
    ∧ (is_ok r = true →
       run idle (carrier_to idle net peers (self sender)) (write op) sender = Some (Ok (WriteApplied x), sender, [])).
Proof.
  intros op idle Hp Hf He Hr1 Hf1 Hp1 Hr2 Hf2 Hr3 Hf3 Hp3 Hne Hpeer Hk Hn Henc Hlive Hdead.
  split; [by eapply primary_rejects|].
  assert (decodeMessage body = Ok (WriteRequest op)) as Hdec by (apply decode_encode; [by apply Forall_singleton|done]).
  destruct (receiver_applies net former (self sender) body k v ttl id pl2 nowMs reading Hf He Hr2 Hf2 Hdead Hdec Hk Hn)
    as (x & r & s' & out & Hrun & Hver & _ & Hv & Hreply).
  exists x, r, s', out. split_and!; [exact Hrun|done..|]. intros Hok. destruct r as [reply|]; [|done].
  unfold write. rewrite run_bind, run_act. cbn [op_key op claim]. rewrite Hr3. cbn [result_bind]. fold op. rewrite Hf3, Hp3.
  rewrite decide_False by done. unfold forwardWrite. rewrite run_bind. cbn [run lift]. rewrite Henc, run_bind, run_request.
  unfold carrier_to. rewrite Hpeer. cbn [mbind option_bind]. unfold answer. fold idle in Hrun. rewrite Hrun. cbn [run lift]. by rewrite Hreply.
Qed.

Lemma sample_node_inv nd es t r : store_inv (store (engine (sample_node nd es t r))).
Proof. apply merge_all_inv. by apply (new_Store_inv 1). Qed.

(** Node c joins a and b, takes the partition over from b and has it drained; b has the
    table of that, a still has the first one, and a is a replica of b's group. *)
Lemma stale_sender_duplicates_claim_witness :
  ∃ ring1 ring2 t1 t2 t3, new_PartitionRing [js "a"; js "b"] 1 = Ok ring1 ∧ new_PartitionRing [js "a"; js "b"; js "c"] 1 = Ok ring2
  ∧ evolve None ring1 [] 1 None = Ok t1
  ∧ evolve (Some t1) ring2 [MkReport (js "b") [0]] 2 None = Ok t2
  ∧ evolve (Some t2) ring2 [MkReport (js "b") []; MkReport (js "c") [0]] 3 None = Ok t3 ∧
  let primary := sample_node "c" [sample_entry "k" 5 false] t3 ring2 in
  let former := sample_node "b" [] t3 ring2 in
  let sender := sample_node "a" [] t1 ring1 in
  let idle := tick 0 10 (Some 10) in
  let net := carrier_to idle (λ _ _, None) (sample_peers [sender]) (js "b") in
  (∃ s', run idle net (write (claim (js "k") [1] None)) primary = Some (Ok (WriteRejected FailIfAbsent), s', []))
  ∧ ∃ x, run idle (carrier_to idle net (sample_peers [former]) (js "a")) (write (claim (js "k") [1] None)) sender
         = Some (Ok (WriteApplied x), sender, []).
Proof.
  destruct (new_PartitionRing [js "a"; js "b"] 1) as [ring1|] eqn:Hr1; [|by vm_compute in Hr1].
  destruct (new_PartitionRing [js "a"; js "b"; js "c"] 1) as [ring2|] eqn:Hr2; [|by vm_compute in Hr2].
  vm_compute in Hr1. vm_compute in Hr2. injection Hr1 as <-. injection Hr2 as <-.
  eexists _, _, (MkTable 1 [[js "b"]]), (MkTable 2 [[js "b"; js "c"]]), (MkTable 3 [[js "c"]]).
  split; [reflexivity|]. split; [reflexivity|]. do 3 (split; [vm_compute; reflexivity|]). cbv zeta.
  set (primary := sample_node "c" _ _ _). set (former := sample_node "b" _ _ _). set (sender := sample_node "a" _ _ _).
  set (idle := tick 0 10 (Some 10)). set (net := carrier_to idle _ _ _).
  destruct (encodeMessage (WriteRequest (claim (js "k") [1] None))) as [body|] eqn:Eb; [|by vm_compute in Eb].
  destruct (stale_sender_duplicates_claim 10 10 net (sample_peers [former]) primary former sender (js "k") [1] None body 0
    (MkPlacement [js "c"] (js "c") [] [js "b"; js "a"]) (MkPlacement [js "c"] (js "c") [] [js "b"; js "a"])
    (MkPlacement [js "b"] (js "b") [] [js "a"])) as [H1 (x & r & s' & out & Hrun & _ & _ & H2)].
  1,2: split; [apply sample_node_inv|reflexivity|reflexivity].
  { split; [apply sample_node_inv|by intros ?? E; vm_compute in E..]. }
  1-8: vm_compute; reflexivity.
  { vm_compute. discriminate. }
  { vm_compute. reflexivity. }
  1,2: split; [by apply units_check|reflexivity].
  { exact Eb. }
  1,2: vm_compute; reflexivity.
  split; [done|]. exists x. apply H2. vm_compute in Eb. injection Eb as <-. vm_compute in Hrun. injection Hrun as <- _ _. reflexivity.
Defined.

(** Two owners hold versions of one key, a third does not answer. *)
Lemma gather_returns_newest_witness :
  ∃ ring, new_PartitionRing [js "a"; js "b"; js "c"] 1 = Ok ring ∧
  let t := MkTable 2 [[js "b"; js "c"; js "a"]] in
  let s := sample_node "a" [sample_entry "k" 5 false] t ring in
  let peers := sample_peers [sample_node "b" [sample_entry "k" 7 false] t ring] in
  let owners := [js "b"; js "c"; js "a"] in
  let versions := omap (owner_version peers s (js "k")) owners in
  let idle := λ s, s in
  let net := λ _ _, None in
  ∃ r s' out, run idle (carrier_to idle net peers (self s)) (gather (js "k") owners) s
              = Some (Ok r, s', out)
    ∧ (versions = [] ∧ r = None ∧ s' = s ∧ out = []
       ∨ ∃ w bytes, newest versions w
           ∧ r = (if isLiveValue w (now s) then Some w else None)
           ∧ decodeMessage bytes = Ok (Replicate w)
           ∧ out = (λ o, (o, bytes)) <$> filter (λ o, o ≠ self s
                 ∧ stale w (MkOwnerRead o (owner_version peers s (js "k") o)) = true) owners
           ∧ version s' (js "k") = if decide (self s ∈ owners) then lww (version s (js "k")) w
                                   else version s (js "k")).
Proof.
  destruct (new_PartitionRing [js "a"; js "b"; js "c"] 1) as [ring|e] eqn:Hr; [|by vm_compute in Hr].
  exists ring. split; [done|]. clear Hr. cbv zeta.
  destruct (encodeMessage (PeekRequest (js "k"))) as [req|e] eqn:Hreq; [|by vm_compute in Hreq].
  eapply (gather_returns_newest (λ s, s) (λ _ _, None)
    (sample_peers [sample_node "b" [sample_entry "k" 7 false] (MkTable 2 [[js "b"; js "c"; js "a"]]) ring])
    (sample_node "a" [sample_entry "k" 5 false] (MkTable 2 [[js "b"; js "c"; js "a"]]) ring)
    (js "k") [js "b"; js "c"; js "a"] req).
  - apply sample_node_inv.
  - split; [by apply units_check|reflexivity].
  - exact Hreq.
  - intros e He. vm_compute in He. injection He as <-.
    split; [split; (split; [by apply units_check|reflexivity])|reflexivity].
  - intros o p Ho Hp. assert (p = sample_node "b" [sample_entry "k" 7 false]
      (MkTable 2 [[js "b"; js "c"; js "a"]]) ring) as ->.
    { unfold sample_peers in Hp. cbn [list_find] in Hp.
      destruct (decide _) in Hp; cbn in Hp; [by injection Hp as <-|done]. }
    split; [apply sample_node_inv|]. intros e He. vm_compute in He. injection He as <-.
    split; [split; (split; [by apply units_check|reflexivity])|reflexivity].
Defined.

(** A partition with two owners. *)
Lemma conditional_write_gate_witness :
  ∃ ring body pl, new_PartitionRing [js "a"; js "b"; js "c"] 1 = Ok ring ∧
  let s := sample_node "a" [] (MkTable 2 [[js "b"; js "a"]]) ring in
  let op := PutOp (js "k") [1] IfAbsent None in
  let idle := λ s, s in
  let net := λ _ _, None in
  route (js "k") s = Ok (0, pl) ∧ encodeMessage (WriteRequest op) = Ok body ∧
  run idle net (write op) s = Some (Throw (PartitionRebalancingError 0), s, [])
  ∧ (∀ from, ∃ reply, run idle net (receive from body) s = Some (Ok reply, s, [])
       ∧ decodeWriteResponse reply = Throw (PartitionRebalancingError 0))
  ∧ (∀ sender partition' pl' peers,
       route (js "k") sender = Ok (partition', pl') →
       refused op sender partition' pl' = false →
       pp_primary pl' = self s → self s ≠ self sender → peers (self s) = Some s →
       run idle (carrier_to idle net peers (self sender)) (write op) sender
       = Some (Throw (PartitionRebalancingError 0), sender, [])).
Proof.
  destruct (new_PartitionRing [js "a"; js "b"; js "c"] 1) as [ring|e] eqn:Hr; [|by vm_compute in Hr].
  destruct (encodeMessage (WriteRequest (PutOp (js "k") [1] IfAbsent None))) as [body|e] eqn:Hb;
    [|by vm_compute in Hb].
  assert (∃ pl, route (js "k") (sample_node "a" [] (MkTable 2 [[js "b"; js "a"]]) ring) = Ok (0, pl)
    ∧ length (pp_owners pl) = 2%nat) as (pl & Hroute & Hlen).
  { vm_compute in Hr. injection Hr as <-. eexists. split; [vm_compute; reflexivity|reflexivity]. }
  exists ring, body, pl. split; [reflexivity|]. cbv zeta. split; [exact Hroute|]. split; [exact Hb|].
  apply (conditional_write_gate (λ s, s) (λ _ _, None) _ (PutOp (js "k") [1] IfAbsent None) body 0 pl).
  - exact Hroute.
  - clear. done.
  - reflexivity.
  - left. rewrite Hlen. reflexivity.
  - split; [by apply units_check|reflexivity].
  - exact Hb.
Defined.
