(* ===== verification/Cluster.v ===== *)
(** * Durability of acknowledged writes across the cluster

    Every interleaving of the routers of a cluster over one routing table: clients
    write and read at any node, requests and replies are lost, delayed or reordered,
    nodes crash, engines run their queues, the janitor sweeps and fragments are
    repaired.  A write a client saw applied is on its primary and on the quorum of
    the partition's backups. *)
From S2P Require Import Prelude JsNumber JsString Hash Hlc Entry Partition Store Ports Engine.
From S2P Require Import Double Ring RoutingTable Async ByteIO KvWire KvCodec Fragment.
From S2P Require Import Replication.

(** ** What a node has taken in *)

(** A store the node's engine has had stored the record. *)
Definition held (s : Replicator) (y : Entry) : Prop :=
  ∃ st, st ∈ past s ∧ content st (key y) = Some y.

(** The node holds the record or one at least as new, or it once held such a record and
    that one is due, so that a sweep may have taken it. *)
Definition covers (s : Replicator) (x : Entry) : Prop :=
  ∃ y, key y = key x ∧ supersedes x y = false
       ∧ (version s (key x) = Some y ∨ held s y ∧ doomed (now s) y = true).

(** How one step may move a key's record. *)
Definition moves (s s' : Replicator) (k : jsstring) : Prop :=
  version s' k = version s k
  ∨ (∃ es, Forall (λ e, key e = k) es ∧ version s' k = foldl lww (version s k) es)
  ∨ version s' k = None ∧ ∃ e, version s k = Some e ∧ doomed (now s') e = true.

(** A later state of a node: its clock and its calls only grow, and it keeps
    covering what it covered. *)
Record later (s s' : Replicator) : Prop := {
  la_calls : calls s `prefix_of` calls s';
  la_covers : ∀ x, covers s x → covers s' x }.

#[global] Instance later_preorder : PreOrder later.
Proof.
  split.
  - intros s. by split.
  - intros s1 s2 s3 [H1 C1] [H2 C2]. split; [by etrans|]. auto.
Qed.

Lemma doomed_mono T T' e : T ≤ T' → doomed T e = true → doomed T' e = true.
Proof.
  unfold doomed, isReapableTombstone. intros HT.
  rewrite !orb_true_iff, !andb_true_iff, !Z.leb_le. intros [[? ?]|He]; [left; split; [done|lia]|right].
  by eapply isExpired_mono.
Qed.

Lemma supersedes_asym a b : supersedes a b = true → supersedes b a = false.
Proof.
  intros H. apply not_true_is_false. intros H'.
  pose proof (supersedes_trans _ _ _ H H') as E. by rewrite supersedes_irrefl in E.
Qed.

Lemma foldl_lww_grows y es :
  Forall (λ e, key e = key y) es → ∃ z, foldl lww (Some y) es = Some z ∧ key z = key y ∧ supersedes y z = false.
Proof.
  revert y. induction es as [|e es IH]; intros y Hes; [exists y; by rewrite supersedes_irrefl|].
  apply Forall_cons in Hes as [He Hes]. cbn. destruct (supersedes e y) eqn:Hs; [|by apply IH].
  destruct (IH e) as (z & ? & ? & ?); [by rewrite He|]. exists z. split; [done|]. split; [congruence|].
  eapply not_supersedes_trans; [|done]. by apply supersedes_asym.
Qed.

Lemma held_mono s s' y : past s `prefix_of` past s' → held s y → held s' y.
Proof. intros [l Hl] (st & Hst & Hy). exists st. split; [|done]. rewrite Hl. apply elem_of_app. by left. Qed.

Lemma covers_moves s s' x :
  store (engine s) ∈ past s → past s `prefix_of` past s' → now s ≤ now s' → moves s s' (key x) →
  covers s x → covers s' x.
Proof.
  intros Hpast Hp Hn Hm (y & Hk & Hy & [Hv|[Hh Hd]]).
  2: { exists y. split; [done|]. split; [done|]. right. split; [by eapply held_mono|by eapply doomed_mono]. }
  destruct Hm as [E|[(es & Hes & E)|[E (e & He & Hde)]]].
  - exists y. rewrite E. auto.
  - rewrite Hv in E. destruct (foldl_lww_grows y es) as (z & Hz & Hkz & Hyz); [by rewrite Hk|].
    exists z. split; [congruence|]. split; [by eapply not_supersedes_trans|]. left. congruence.
  - rewrite Hv in He. injection He as <-. exists y. do 2 (split; [done|]). right. split; [|done].
    eapply held_mono; [done|]. exists (store (engine s)). by rewrite Hk.
Qed.

Lemma later_moves s s' :
  store (engine s) ∈ past s → past s `prefix_of` past s' →
  calls s `prefix_of` calls s' → now s ≤ now s' → (∀ k, moves s s' k) → later s s'.
Proof. intros Hs Hp Hc Hn Hm. split; [done|]. intros x. by apply covers_moves. Qed.

(** ** The invariant of a node *)

(** One epoch: every node has the table [t] and the ring [r]; [N] partitions, write
    quorum [W], replica count [R]. *)
Section epoch.
Context (t : RoutingTable) (r : PartitionRing) (N W R : Z).

Definition part (k : jsstring) : Z := hash32 k mod N.

Record node_ok (n : jsstring) (s : Replicator) : Prop := {
  no_self : self s = n;
  no_name : text_ok n;
  no_store : store_inv (store (engine s));
  no_past : store (engine s) ∈ past s;
  no_count : partitionCount (store (engine s)) = N;
  no_clock : clk_node (clock (engine s)) = n;
  no_table : table s = Some t;
  no_ring : ring s = Some r;
  no_replicas : replicaCount s = R;
  no_mode : mode s = ModeSync;
  no_quorum : writeQuorum s = W;
  no_groups : ∀ p g, jm_get p (groups s) = Some g →
    pb_mode g = ModeSync ∧ pb_writeQuorum g = W ∧ ring_backups r p R = Ok (pb_replicas g);
  no_queue : ∀ id ticket op, (ticket, op) ∈ queue (pipe (engine s) id) →
    calls s !! ticket = Some op;
  no_outcomes : ∀ ticket x, (ticket, Ok (WriteApplied x)) ∈ outcomes s →
    ∃ op, calls s !! ticket = Some op ∧ key x = op_key op
          ∧ node (timestamp x) = n ∧ covers s x }.

Lemma home_part n s k : node_ok n s → home (store (engine s)) k = part k.
Proof. intros H. unfold home, part. by rewrite (no_count _ _ H). Qed.

(** A change of the engine that leaves its queues alone. *)
Lemma node_ok_engine n s e :
  node_ok n s → store_inv (store e) → partitionCount (store e) = N →
  clk_node (clock e) = n → pipelines e = pipelines (engine s) →
  (∀ k, moves s (set_engine s e) k) →
  node_ok n (set_engine s e) ∧ later s (set_engine s e).
Proof.
  intros H Hs Hc Hclk Hp Hm.
  assert (later s (set_engine s e)) as Hl
    by (apply later_moves; [apply H|by eexists|done..]).
  split; [|done]. split; try apply H; try done.
  - cbn. apply elem_of_app. right. by apply list_elem_of_singleton.
  - intros id. unfold pipe. cbn. rewrite Hp. apply H.
  - intros ticket x Hx. destruct (no_outcomes _ _ H ticket x Hx) as (op & ? & ? & ? & Hcov).
    exists op. do 3 (split; [done|]). by apply Hl.
Qed.

(** A node that has just merged a record holds it or a newer one. *)
Lemma merged_covers s x :
  (∃ i, version s (key x) = lww i x ∧ ∀ y, i = Some y → key y = key x) → covers s x.
Proof.
  intros ([i|] & Hv & Hk); cbn in Hv; [destruct (supersedes x i) eqn:Hs|].
  2: exists i; auto.
  all: exists x; rewrite supersedes_irrefl; auto.
Qed.

Lemma merged_ok n s e : node_ok n s → node_ok n (merged s e) ∧ later s (merged s e) ∧ covers (merged s e) e.
Proof.
  intros H. unfold merged. destruct (node_ok_engine n s
    (set_store (engine s) (store_merge (store (engine s)) e)) H) as [Hn Hl].
  - apply store_merge_inv, H.
  - cbn. rewrite store_merge_count by apply H. apply H.
  - apply H.
  - done.
  - intros k. pose proof (version_merged s e k (no_store _ _ H)) as Hv. unfold merged in Hv.
    unfold moves. rewrite Hv. destruct (decide (k = key e)) as [->|]; [|by left].
    right. left. exists [e]. by rewrite Forall_singleton.
  - split; [done|]. split; [done|].
    pose proof (version_merged s e (key e) (no_store _ _ H)) as Hv. rewrite decide_True in Hv by done.
    apply merged_covers. exists (version s (key e)). split; [exact Hv|]. intros i Hi. eapply content_key; [apply H|exact Hi].
Qed.

Lemma merge_all_ok n s es :
  node_ok n s →
  let s' := set_engine s (set_store (engine s) (merge_all (store (engine s)) es)) in
  node_ok n s' ∧ later s s'.
Proof.
  intros H. apply node_ok_engine; [done|apply merge_all_inv, H|cbn; rewrite merge_all_count by apply H; apply H|apply H|done|].
  intros k. right. left. exists (filter (λ e, key e = k) es). split; [|apply content_merge_all, H].
  apply Forall_forall. by intros e [? _]%list_elem_of_filter.
Qed.

Lemma backupsOf_ok n s p bs : node_ok n s → backupsOf s p = Ok bs → ring_backups r p R = Ok bs.
Proof.
  intros H. unfold backupsOf, placementOf. rewrite (no_table _ _ H), (no_ring _ _ H).
  unfold placement. rewrite (no_replicas _ _ H). intros E. by inv_ok.
Qed.

(** The group of a partition has the ring's backups. *)
Lemma groupFor_ok n s p g s' :
  node_ok n s → groupFor s p = Ok (g, s') →
  pb_mode g = ModeSync ∧ pb_writeQuorum g = W ∧ ring_backups r p R = Ok (pb_replicas g)
  ∧ node_ok n s' ∧ later s s'.
Proof.
  intros H. unfold groupFor. destruct (jm_get p (groups s)) as [g0|] eqn:Hg.
  { intros [= <- <-]. destruct (no_groups _ _ H p g0 Hg) as (? & ? & ?). do 4 (split; [done|]).
    reflexivity. }
  destruct (backupsOf s p) as [bs|] eqn:E0; [|done]. intros [= <- <-].
  apply (backupsOf_ok n s p) in E0; [|done].
  cbn. rewrite (no_mode _ _ H), (no_quorum _ _ H). do 3 (split; [done|]).
  split; [|by split]. split; try apply H. intros p' g'. cbn. rewrite jm_get_set.
  destruct (decide (p' = p)) as [->|]; [|apply H]. intros [= <-]. by cbn.
Qed.

Lemma submit_ok n s op ticket s' :
  node_ok n s → submit op s = Ok (ticket, s') →
  node_ok n s' ∧ later s s' ∧ calls s' !! ticket = Some op.
Proof.
  intros H. unfold submit.
  destruct (engine_write_spec (engine s) (length (calls s)) op (no_store _ _ H))
    as (e' & -> & Hst & Hclk & Hpipe). intros [= <- <-].
  assert (calls s `prefix_of` calls s ++ [op]) as Hpre by by eexists.
  assert (∀ x, covers s x → covers (MkReplicator (self s) e' (replicaCount s) (mode s)
    (writeQuorum s) (recovering s) (groups s) (table s) (ring s) (calls s ++ [op]) (outcomes s) (now s) (past s)) x)
    as Hcov by (intros x; unfold covers, held, version; cbn; by rewrite Hst).
  split; [|split; [by split|cbn; by rewrite list_lookup_middle]].
  split; cbn; try apply H; rewrite ?Hst, ?Hclk; try apply H.
  - intros id tk op' Hin. rewrite Hpipe in Hin.
    destruct (decide _); [|eapply prefix_lookup_Some; [by eapply H|done]].
    cbn in Hin. apply elem_of_app in Hin as [Hin|Hin%list_elem_of_singleton].
    + eapply prefix_lookup_Some; [by eapply H|done].
    + injection Hin as -> ->. by rewrite list_lookup_middle.
  - intros tk x Hx. destruct (no_outcomes _ _ H tk x Hx) as (op' & Hop & ? & ? & ?).
    exists op'. split; [by eapply prefix_lookup_Some|]. auto.
Qed.

(** *** What happens at a node besides its programs *)

Inductive background (n : jsstring) (s : Replicator) : Replicator → Prop :=
  | bg_tick id nowMs reading : background n s (tick id nowMs reading s)
  | bg_sweep : background n s (set_engine s (engine_sweep (engine s) (now s)).2)
  | bg_merge e : background n s (merged s e)
  | bg_recovering ps : background n s
      (MkReplicator (self s) (engine s) (replicaCount s) (mode s) (writeQuorum s) ps (groups s)
         (table s) (ring s) (calls s) (outcomes s) (now s) (past s))
  | bg_clock T : now s ≤ T → background n s
      (MkReplicator (self s) (engine s) (replicaCount s) (mode s) (writeQuorum s) (recovering s)
         (groups s) (table s) (ring s) (calls s) (outcomes s) T (past s)).

Lemma tick_ok n s id nowMs reading :
  node_ok n s → node_ok n (tick id nowMs reading s) ∧ later s (tick id nowMs reading s).
Proof.
  intros H. unfold tick. destruct (queue (pipe (engine s) id)) as [|[tk op] rest] eqn:Hq.
  { rewrite engine_run_idle by done. rewrite app_nil_r.
    destruct (node_ok_engine n s (engine s) H) as [H' Hl]; try apply H; try done; try (intros; by left). }
  destruct (engine_run_spec (engine s) id nowMs reading tk op rest (no_store _ _ H) Hq)
    as (res & e' & Hrun & Hs & Hcnt & Hrest & Hoth & Hcm).
  destruct (engine_run_content (engine s) id nowMs reading tk op rest (no_store _ _ H) Hq)
    as (res' & e'' & Hrun' & Hnode & Hcont).
  rewrite Hrun in Hrun'. injection Hrun' as <- <-. rewrite Hrun.
  set (s' := MkReplicator _ _ _ _ _ _ _ _ _ _ _ _ _).
  assert (calls s !! tk = Some op) as Hop by (apply (no_queue _ _ H id); rewrite Hq; left).
  assert (later s s') as Hl.
  { apply later_moves; [apply H|by eexists|done|cbn; lia|]. intros k. unfold moves, version. cbn.
    destruct (committed res) as [x|]; [|rewrite Hcont; by left]. rewrite Hcont.
    destruct (decide (k = key x)) as [->|]; [right; left; exists [x]; by rewrite Forall_singleton|by left]. }
  split; [|done]. split; cbn; try apply H; try done.
  - apply elem_of_app. right. by apply list_elem_of_singleton.
  - rewrite Hcnt. apply H.
  - rewrite Hnode. apply H.
  - intros id' tk' op' Hin. destruct (decide (id' = id)) as [->|Hne].
    + apply (no_queue _ _ H id). rewrite Hrest in Hin. rewrite Hq. by right.
    + rewrite Hoth in Hin by done. by apply (no_queue _ _ H id').
  - intros tk' x [Hin|Hin%list_elem_of_singleton]%elem_of_app.
    + destruct (no_outcomes _ _ H tk' x Hin) as (op' & ? & ? & ? & ?).
      exists op'. do 3 (split; [done|]). by apply Hl.
    + injection Hin as -> <-. cbn in Hcm, Hcont. destruct Hcm as (_ & _ & Hkey & Hts & _).
      exists op. split; [done|]. split; [done|]. split.
      * rewrite Hts. cbn. rewrite Hnode. apply H.
      * apply merged_covers. unfold version. cbn. rewrite Hcont, decide_True by done. exists (version s (key x)). split; [done|].
        intros i Hi. eapply content_key; [apply H|exact Hi].
Qed.

Lemma background_ok n s s' : background n s s' → node_ok n s → node_ok n s' ∧ later s s'.
Proof.
  intros Hb H. destruct Hb as [id nowMs reading| |e|ps|T HT].
  - by apply tick_ok.
  - destruct (sweep_spec (store (engine s)) (now s) (no_store _ _ H)) as (Hcnt & Hsw & _).
    destruct (swept_store _ _ _ (no_store _ _ H) Hcnt Hsw) as [Hs' _].
    unfold engine_sweep. destruct (sweep (store (engine s)) (now s)) as [c st] eqn:E. cbn in *.
    apply node_ok_engine; cbn; [done|done|rewrite Hcnt; apply H|apply H|done|].
    intros k. destruct (swept_content _ _ _ k Hcnt Hsw) as [Hk|Hk]; [by left|by right; right].
  - destruct (merged_ok n s e H) as (? & ? & _). done.
  - split; [|by split]. split; cbn; try apply H. 
  - assert (later s (MkReplicator (self s) (engine s) (replicaCount s) (mode s) (writeQuorum s)
      (recovering s) (groups s) (table s) (ring s) (calls s) (outcomes s) T (past s))) as Hl
      by (apply later_moves; [apply H|done|done|done|by left]).
    split; [|done]. split; cbn; try apply H. intros tk x Hx.
    destruct (no_outcomes _ _ H tk x Hx) as (op & ? & ? & ? & ?). exists op.
    do 3 (split; [done|]). by apply Hl.
Qed.

(** ** What messages promise *)

(** Node [b] has taken the record in, or has crashed since. *)
Definition keeps (w : gmap jsstring (option Replicator)) (b : jsstring) (x : Entry) : Prop :=
  ∃ o, w !! b = Some o ∧ ∀ s, o = Some s → covers s x.

(** The record is on the write quorum: as many of the partition's backups as the
    quorum asks for beside the primary, or all of them when there are fewer. *)
Definition on_quorum (w : gmap jsstring (option Replicator)) (x : Entry) : Prop :=
  ∃ bs holders, ring_backups r (part (key x)) R = Ok bs
    ∧ NoDup holders ∧ holders ⊆ bs
    ∧ Z.min (W - 1) (Z.of_nat (length bs)) ≤ Z.of_nat (length holders)
    ∧ ∀ b, b ∈ holders → keeps w b x.

Definition durable (w : gmap jsstring (option Replicator)) (x : Entry) : Prop :=
  (∃ p, table_primary t (part (key x)) = Ok p ∧ keeps w p x) ∧ on_quorum w x.

(** A write is only sent to the primary; keys carry no byte order mark. *)
Definition send_ok (to : jsstring) (body : list Z) : Prop :=
  ∀ m, decodeMessage body = Ok m →
    match m with
    | WriteRequest op => text_ok (op_key op) ∧ table_primary t (part (op_key op)) = Ok to
    | ReadRequest k => text_ok k
    | _ => True
    end.

(** An acknowledged record was taken in; an applied write is durable. *)
Definition reply_ok (w : gmap jsstring (option Replicator)) (by_ : jsstring) (req bytes : list Z)
    : Prop :=
  (∀ x, decodeMessage req = Ok (Replicate x) → decodeMessage bytes = Ok ReplicateAck →
     keeps w by_ x)
  ∧ (∀ op x, decodeMessage req = Ok (WriteRequest op) →
       decodeMessage bytes = Ok (WriteResponse (WriteApplied x)) →
       key x = op_key op ∧ durable w x).

Lemma keeps_later w w' b x : world_le later w w' → keeps w b x → keeps w' b x.
Proof.
  intros Hw (o & Ho & Hc). destruct (Hw b o Ho) as (o' & Ho' & Hle). exists o'. split; [done|].
  intros s' ->. destruct o as [s|]; [|done]. apply Hle. by apply Hc.
Qed.

Lemma on_quorum_later w w' x : world_le later w w' → on_quorum w x → on_quorum w' x.
Proof.
  intros Hw (bs & hs & ? & ? & ? & ? & Hk). exists bs, hs. do 4 (split; [done|]).
  intros b Hb. eapply keeps_later; eauto.
Qed.

Lemma durable_later w w' x : world_le later w w' → durable w x → durable w' x.
Proof.
  intros Hw [(p & Hp & Hk) Hq]. split; [|by eapply on_quorum_later].
  exists p. split; [done|]. by eapply keeps_later.
Qed.

Lemma reply_ok_later w w' by_ req bytes :
  world_le later w w' → reply_ok w by_ req bytes → reply_ok w' by_ req bytes.
Proof.
  intros Hw [H1 H2]. split.
  - intros x Hx Hb. eapply keeps_later; eauto.
  - intros op x Hop Hb. destruct (H2 op x Hop Hb). split; [done|]. by eapply durable_later.
Qed.

Lemma keeps_self w n s x : w !! n = Some (Some s) → covers s x → keeps w n x.
Proof. intros Hn Hc. exists (Some s). split; [done|]. by intros s' [= <-]. Qed.

(** A frame of another kind is no write and no forwarded read. *)
Lemma send_ok_kind m bytes to :
  encodeMessage m = Ok bytes → kind m ≠ MSG_WRITE_REQUEST → kind m ≠ MSG_READ_REQUEST →
  send_ok to bytes.
Proof.
  intros E Hw Hr m' D. pose proof (decode_kind m m' bytes E D) as Hk.
  destruct m'; try done; by rewrite <-Hk in *.
Qed.

Local Abbreviation wpn := (wp node_ok later send_ok reply_ok).

(** ** The programs *)

Lemma wp_trivial {A} n (a : result A) w : wpn n (lift a) (λ _ _, True) w.
Proof. done. Qed.

Lemma wp_engineWrite n op w :
  wpn n (engineWrite op) (λ w res, ∀ x, res = Ok (WriteApplied x) →
    key x = op_key op ∧ node (timestamp x) = n ∧ text_ok n ∧ keeps w n x) w.
Proof.
  unfold engineWrite. apply wp_bind, wp_act; [apply _|]. intros w1 s1 Hw1 Hs1 H1.
  destruct (submit op s1) as [[ticket s2]|e] eqn:E; [|done].
  destruct (submit_ok n s1 op ticket s2 H1 E) as (H2 & Hl & Hcall). split; [done|]. split; [done|].
  unfold awaitOutcome. intros w3 s3 Hw3 Hs3 H3.
  destruct (jm_get ticket (outcomes s3)) as [res|] eqn:Hres; [|done].
  split; [done|]. split; [reflexivity|]. cbn [wp]. rewrite insert_id by done.
  intros x ->. apply jm_get_elem in Hres.
  destruct (no_outcomes _ _ H3 ticket x Hres) as (op' & Hop' & Hkey & Hnode & Hcov).
  destruct (Hw3 n (Some s2)) as (o & Ho & Hle); [by rewrite lookup_insert_eq|].
  rewrite Hs3 in Ho. injection Ho as <-. cbn in Hle.
  assert (calls s3 !! ticket = Some op) as Hc by (eapply prefix_lookup_Some; [done|apply Hle]).
  rewrite Hc in Hop'. injection Hop' as <-. split; [done|]. split; [done|].
  split; [apply H3|]. by eapply keeps_self.
Qed.

Lemma wp_post_all n msgs (Φ : _ → _ → Prop) w :
  Forall (λ m, send_ok m.1 m.2) msgs → Φ w (Ok tt) →
  wpn n (post_all msgs (Ret (Ok tt))) Φ w.
Proof.
  induction msgs as [|[to body] msgs IH]; [done|].
  intros [Hm Hms]%Forall_cons HΦ. split; [exact Hm|]. by apply IH.
Qed.

(** The backups behind the acknowledgments counted. *)
Lemma acked_holders w bs bytes x got :
  NoDup bs → decodeMessage bytes = Ok (Replicate x) →
  got_ok reply_ok w ((λ b, (b, bytes)) <$> bs) got →
  ∃ holders, NoDup holders ∧ holders ⊆ bs ∧ Z.of_nat (length holders) = acknowledgments got
    ∧ ∀ b, b ∈ holders → keeps w b x.
Proof.
  intros Hbs Hx [Hnd Hgot]. set (acks := filter (λ y, acked y = true) got).
  assert (∀ y, y ∈ acks → ∃ b, bs !! y.1 = Some b ∧ keeps w b x) as Hb.
  { intros [i o] [Ha Hin]%list_elem_of_filter. rewrite Forall_forall in Hgot.
    destruct (Hgot _ Hin) as (to & body & Hi & Hr). cbn [fst snd] in *.
    rewrite list_lookup_fmap in Hi. apply fmap_Some in Hi as (b & Hb & [= -> ->]).
    exists b. split; [done|]. unfold acked in Ha. cbn in Ha.
    destruct o as [rep|]; [|done]. destruct (Hr rep eq_refl) as [Hk _]. apply Hk; [done|].
    unfold isReplicateAck in Ha. destruct (decodeMessage rep) as [[]|]; done. }
  assert (NoDup acks.*1) as Hna.
  { eapply sublist_NoDup; [exact Hnd|]. apply fmap_sublist, sublist_filter. }
  exists ((λ y, bs !!! y.1) <$> acks). split; [|split; [|split]].
  - clear -Hb Hna Hbs. induction acks as [|y acks IH]; [constructor|]. rewrite fmap_cons in *.
    apply NoDup_cons in Hna as [Hy Hna]. constructor; [|apply IH; [|done]; intros; apply Hb; by right].
    intros (z & Hz & Hin)%list_elem_of_fmap.
    destruct (Hb y ltac:(left)) as (b & Hyb & _). destruct (Hb z ltac:(by right)) as (c & Hzc & _).
    rewrite (list_lookup_total_correct _ _ _ Hyb), (list_lookup_total_correct _ _ _ Hzc) in Hz. subst c.
    apply Hy. rewrite (NoDup_lookup bs y.1 z.1 b Hbs Hyb Hzc). by apply list_elem_of_fmap_2.
  - intros b (y & -> & Hin)%list_elem_of_fmap. destruct (Hb y Hin) as (b & Hyb & _).
    rewrite (list_lookup_total_correct _ _ _ Hyb). by eapply list_elem_of_lookup_2.
  - by rewrite length_fmap.
  - intros b (y & -> & Hin)%list_elem_of_fmap. destruct (Hb y Hin) as (b & Hyb & Hk).
    by rewrite (list_lookup_total_correct _ _ _ Hyb).
Qed.

Context (Hnodup : ∀ p bs, ring_backups r p R = Ok bs → NoDup bs).

Lemma wp_replicate n x w :
  entry_ok x → keeps w n x →
  wpn n (replicate (part (key x)) x) (λ w res, res = Ok tt → keeps w n x ∧ on_quorum w x) w.
Proof.
  intros Hx Hkeep. unfold replicate. apply wp_bind. unfold lift. cbn [wp].
  destruct (encodeMessage (Replicate x)) as [bytes|e] eqn:Henc; [|done].
  assert (decodeMessage bytes = Ok (Replicate x)) as Hdec.
  { apply decode_encode; [|done]. destruct Hx. cbn. unfold entry_texts. by rewrite !Forall_cons, Forall_nil. }
  assert (∀ to, send_ok to bytes) as Hsend by (intros to; by eapply send_ok_kind).
  apply wp_bind, wp_gets; [apply _|]. intros w1 s1 Hw1 Hs1 H1.
  destruct (groupFor s1 (part (key x))) as [[g s2]|e] eqn:Hg; [|done].
  destruct (groupFor_ok n s1 _ g s2 H1 Hg) as (Hmode & Hq & Hbs & _). 
  set (sends := (λ b, (b, bytes)) <$> pb_replicas g).
  assert (Forall (λ m, send_ok m.1 m.2) sends) as Hsends.
  { apply Forall_forall. intros m (b & -> & _)%list_elem_of_fmap. apply Hsend. }
  rewrite decide_False by (rewrite Hmode; done). rewrite Hq.
  assert (keeps w1 n x) as Hk1 by by eapply keeps_later.
  assert (length sends = length (pb_replicas g)) as Hlen by (unfold sends; by rewrite length_fmap).
  destruct (Z.leb_spec (Z.min (W - 1) (Z.of_nat (length sends))) 0) as [Hle|Hgt].
  - apply wp_post_all; [done|]. intros _. split; [done|]. exists (pb_replicas g), [].
    split; [done|]. split; [constructor|]. split; [set_solver|]. rewrite <-Hlen.
    split; [cbn; lia|]. by intros b ?%not_elem_of_nil.
  - apply wp_bind. split; [done|]. intros w2 [|y got'] Hw2 Hgot; [done|].
    cbv beta iota zeta. set (got := y :: got') in *. destruct (_ || _); [|done]. cbn [wp].
    destruct (Z.ltb_spec (acknowledgments got) (Z.min (W - 1) (Z.of_nat (length sends)))); [done|].
    intros _. split; [by eapply keeps_later|].
    destruct (acked_holders w2 (pb_replicas g) bytes x got) as (hs & ? & ? & Hl & ?);
      [by eapply Hnodup|done|done|].
    exists (pb_replicas g), hs. do 3 (split; [done|]). split; [|done]. rewrite Hl, <-Hlen. lia.
Qed.

Lemma wp_propose n op w :
  text_ok (op_key op) →
  wpn n (propose (part (op_key op)) op) (λ w res, ∀ x, res = Ok (WriteApplied x) →
    key x = op_key op ∧ entry_ok x ∧ keeps w n x ∧ on_quorum w x) w.
Proof.
  intros Hop. unfold propose. apply wp_bind. eapply wp_mono; [|apply wp_engineWrite].
  intros w1 [[x|why]|e] Hx; [|done..].
  destruct (Hx x eq_refl) as (Hkey & Hnode & Hn & Hkeep).
  assert (entry_ok x) as Hok by (split; [by rewrite Hkey|by rewrite Hnode]).
  apply wp_bind. rewrite <-Hkey. eapply wp_mono; [|by apply wp_replicate].
  intros w2 [[]|e] H2; [|done]. intros x' [= <-]. destruct (H2 eq_refl). done.
Qed.

Lemma wp_merge n e w : wpn n (merge e) (λ w res, keeps w n e) w.
Proof.
  unfold merge. apply wp_act; [apply _|]. intros w1 s1 Hw1 Hs1 H1.
  destruct (merged_ok n s1 e H1) as (H2 & Hl & Hcov). unfold engine_merge.
  unfold merged, store_merge in *.
  destruct (store_apply_spec (store (engine s1)) e (no_store _ _ H1)) as (ch & s' & E & _).
  rewrite E in *. cbn [result_bind snd] in *. split; [exact H2|]. split; [exact Hl|].
  eapply keeps_self; [by rewrite lookup_insert_eq|exact Hcov].
Qed.

Lemma wp_repair_each n me x bytes reads w :
  encodeMessage (Replicate x) = Ok bytes →
  wpn n (repair_each me x bytes reads) (λ _ _, True) w.
Proof.
  intros Henc. revert w. induction reads as [|rd reads IH]; intros w; cbn [repair_each]; [done|].
  destruct (negb _); [apply IH|]. destruct (decide _).
  - apply wp_bind. eapply wp_mono; [|apply wp_merge]. intros w' [[]|] _; [apply IH|done].
  - split; [by eapply send_ok_kind|]. apply IH.
Qed.

Lemma wp_gather n k owners w : wpn n (gather k owners) (λ _ _, True) w.
Proof.
  unfold gather. apply wp_bind. unfold lift at 1. cbn [wp].
  destruct (encodeMessage (PeekRequest k)) as [req|e] eqn:Henc; [|done].
  apply wp_bind, wp_gets; [apply _|]. intros w1 s1 _ _ _.
  destruct (store_peek _ _) as [local|]; cbn [result_bind]; [|done].
  apply wp_bind, wp_request_all.
  { apply Forall_forall. intros m (o & -> & _)%list_elem_of_fmap. by eapply send_ok_kind. }
  intros w2 os _ _. destruct (winner_of _ _) as [x|]; [|done].
  apply wp_bind. unfold readRepair. apply wp_bind. unfold lift. cbn [wp].
  destruct (encodeMessage (Replicate x)) as [bytes|e] eqn:Hx; [|done].
  eapply wp_mono; [|by apply wp_repair_each]. intros w3 [[]|] _; [|done].
  by apply wp_gets; [apply _|].
Qed.

Lemma wp_servePrimaryRead n p k w : wpn n (servePrimaryRead p k) (λ _ _, True) w.
Proof.
  unfold servePrimaryRead. apply wp_bind, wp_act; [apply _|]. intros w1 s1 _ Hs1 H1.
  destruct (isRecovering s1 p).
  - destruct (backupsOf s1 p) as [bs|]; cbn [result_bind]; [|done].
    split; [done|]. split; [reflexivity|]. apply wp_gather.
  - destruct (groupFor s1 p) as [[g s2]|] eqn:Hg; cbn [result_bind]; [|done].
    destruct (groupFor_ok n s1 p g s2 H1 Hg) as (_ & _ & _ & H2 & Hl).
    split; [done|]. split; [done|]. by apply wp_gets; [apply _|].
Qed.

Lemma route_ok n s k p pl :
  node_ok n s → route k s = Ok (p, pl) → p = part k ∧ table_primary t p = Ok (pp_primary pl).
Proof.
  intros H. unfold route. rewrite partitionFor_ok by apply H. cbn [result_bind].
  rewrite (home_part n) by done. unfold placementOf. rewrite (no_table _ _ H), (no_ring _ _ H).
  unfold placement, table_primary.
  destruct (table_owners t (part k)) as [os|] eqn:Hos; cbn [result_bind]; [|done].
  destruct (ring_backups _ _ _); cbn [result_bind]; [|done]. intros [= <- <-]. by rewrite Hos.
Qed.

Lemma wp_read n k w : text_ok k → wpn n (read k) (λ _ _, True) w.
Proof.
  intros Hk. unfold read. apply wp_bind, wp_gets; [apply _|]. intros w1 s1 _ Hs1 H1.
  destruct (route k s1) as [[p pl]|]; cbn [result_bind]; [|done].
  destruct (_ <? _); [apply wp_gather|]. destruct (decide _); [apply wp_servePrimaryRead|].
  unfold forwardRead. apply wp_bind. unfold lift at 1. cbn [wp].
  destruct (encodeMessage (ReadRequest k)) as [bytes|] eqn:Henc; [|done].
  assert (decodeMessage bytes = Ok (ReadRequest k)) as Hdec
    by (apply decode_encode; [by apply Forall_singleton|done]).
  apply wp_bind, wp_request; [|done..]. intros m Hm. rewrite Hdec in Hm. by injection Hm as <-.
Qed.

Lemma wp_write n op w :
  text_ok (op_key op) →
  wpn n (write op) (λ w res, ∀ x, res = Ok (WriteApplied x) → key x = op_key op ∧ durable w x) w.
Proof.
  intros Hop. unfold write. apply wp_bind, wp_act; [apply _|]. intros w1 s1 _ Hs1 H1.
  destruct (route (op_key op) s1) as [[p pl]|] eqn:Hr; cbn [result_bind]; [|done].
  destruct (route_ok n s1 _ p pl H1 Hr) as [-> Hprim]. destruct (refused _ _ _ _); [done|].
  destruct (decide (pp_primary pl = self s1)) as [Heq|Hne].
  - destruct (groupFor s1 _) as [[g s2]|] eqn:Hg; cbn [result_bind]; [|done].
    destruct (groupFor_ok n s1 _ g s2 H1 Hg) as (_ & _ & _ & H2 & Hl).
    split; [done|]. split; [done|]. eapply wp_mono; [|by apply wp_propose].
    intros w2 res Hres x Hx. destruct (Hres x Hx) as (Hkey & _ & Hkeep & Hq).
    split; [done|]. split; [|done]. exists n. split; [|done].
    rewrite Hkey, Hprim, Heq. f_equal. apply H1.
  - split; [done|]. split; [reflexivity|]. unfold forwardWrite. apply wp_bind.
    unfold lift at 1. cbn [wp].
    destruct (encodeMessage (WriteRequest op)) as [bytes|] eqn:Henc; [|done].
    assert (decodeMessage bytes = Ok (WriteRequest op)) as Hdec
      by (apply decode_encode; [by apply Forall_singleton|done]).
    apply wp_bind, wp_request; [|intros w2 rep _ Hrep|done].
    + intros m Hm. rewrite Hdec in Hm. injection Hm as <-. done.
    + unfold lift. cbn [wp]. intros x Hx. unfold decodeWriteResponse in Hx.
      destruct (decodeMessage rep) as [m|] eqn:Hm; cbn [result_bind] in Hx; [|done].
      destruct m; try done. injection Hx as ->. by apply Hrep.
Qed.

Lemma wp_serveWrite n op body w :
  decodeMessage body = Ok (WriteRequest op) → text_ok (op_key op) →
  table_primary t (part (op_key op)) = Ok n →
  wpn n (serveWrite op) (λ w res, ∀ bytes, res = Ok bytes → reply_ok w n body bytes) w.
Proof.
  intros Hbody Hop Hprim. unfold serveWrite. apply wp_bind, wp_act; [apply _|].
  intros w1 s1 _ Hs1 H1.
  destruct (route (op_key op) s1) as [[p pl]|] eqn:Hr; cbn [result_bind]; [|done].
  destruct (route_ok n s1 _ p pl H1 Hr) as [-> _]. destruct (refused _ _ _ _).
  - split; [done|]. split; [reflexivity|]. unfold lift. cbn [wp]. intros bytes Henc.
    split; [by rewrite Hbody|]. intros op' x _ Hx.
    by pose proof (decode_kind _ _ _ Henc Hx).
  - destruct (groupFor s1 _) as [[g s2]|] eqn:Hg; cbn [result_bind]; [|done].
    destruct (groupFor_ok n s1 _ g s2 H1 Hg) as (_ & _ & _ & H2 & Hl).
    split; [done|]. split; [done|]. apply wp_bind. eapply wp_mono; [|by apply wp_propose].
    intros w2 [res|e] Hres; [|done]. unfold lift. cbn [wp]. intros bytes Henc.
    split; [by rewrite Hbody|]. intros op' x Hop' Hx. rewrite Hbody in Hop'. injection Hop' as <-.
    destruct res as [y|why].
    + destruct (Hres y eq_refl) as (Hkey & [Hk Hnd] & Hkeep & Hq).
      assert (decodeMessage bytes = Ok (WriteResponse (WriteApplied y))) as Hdec.
      { apply decode_encode; [|done]. cbn. unfold entry_texts. by rewrite !Forall_cons, Forall_nil. }
      rewrite Hdec in Hx. injection Hx as <-. split; [done|]. split; [|done]. exists n. by rewrite Hkey.
    + assert (decodeMessage bytes = Ok (WriteResponse (WriteRejected why))) as Hdec
        by (apply decode_encode; [constructor|done]).
      by rewrite Hdec in Hx.
Qed.

Lemma wp_receive n from body w :
  send_ok n body →
  wpn n (receive from body) (λ w res, ∀ bytes, res = Ok bytes → reply_ok w n body bytes) w.
Proof.
  intros Hsend. unfold receive. apply wp_bind. unfold lift at 1. cbn [wp].
  destruct (decodeMessage body) as [m|] eqn:Hm; [|done]. specialize (Hsend m Hm).
  assert (∀ A (a : async Replicator A) (Φ : _ → _ → Prop) w,
    (∀ w r, Φ w r) → wpn n a (λ _ _, True) w → wpn n a Φ w) as Htriv
    by (intros; eapply wp_mono; [|done]; auto).
  destruct m; try done.
  - apply wp_bind, wp_gets; [apply _|]. intros w1 s1 _ _ _.
    destruct (partitionFor _ _); [|done]. apply wp_bind.
    eapply wp_mono; [|apply wp_servePrimaryRead]. intros w2 [e|] _; [|done].
    intros bytes _. split; by rewrite Hm.
  - destruct Hsend. by apply wp_serveWrite.
  - apply wp_bind. eapply wp_mono; [|apply wp_merge]. intros w1 [[]|] Hk; [|done].
    intros bytes _. split; rewrite Hm; [|done]. intros x [= <-] _. done.
  - apply wp_bind, wp_gets; [apply _|]. intros w1 s1 _ _ _.
    destruct (store_peek _ _); [|done]. intros bytes _. split; by rewrite Hm.
  - apply wp_bind, wp_gets; [apply _|]. intros w1 s1 _ _ _.
    intros bytes _. split; by rewrite Hm.
  - apply wp_bind, wp_act; [apply _|]. intros w1 s1 _ Hs1 H1.
    unfold applyChunk. destruct (merge_entries_spec (engine s1) (ch_entries chunk) (no_store _ _ H1)) as [-> _].
    cbn [result_bind]. destruct (merge_all_ok n s1 (ch_entries chunk) H1) as [H2 Hl].
    split; [done|]. split; [done|]. intros bytes _. split; by rewrite Hm.
Qed.
End epoch.

(** ** Clients *)

Inductive outcome :=
  | WriteDone (op : WriteOp) (res : WriteResult)
  | ReadDone (entry : option Entry).

(** A client writes or reads one key at some node. *)
Definition client (n : jsstring) (a : async Replicator outcome) : Prop :=
  (∃ op, text_ok (op_key op) ∧ a = async_map (WriteDone op) (write op))
  ∨ (∃ k, text_ok k ∧ a = async_map ReadDone (read k)).

Definition outcome_ok (t : RoutingTable) (r : PartitionRing) (N W R : Z) (w : gmap jsstring (option Replicator)) (o : outcome) : Prop :=
  match o with
  | WriteDone op (WriteApplied x) => key x = op_key op ∧ durable t r N W R w x
  | _ => True
  end.

Lemma wp_client t r N W R n a w :
  (∀ p bs, ring_backups r p R = Ok bs → NoDup bs) → client n a →
  wp (node_ok t r N W R) later (send_ok t N) (reply_ok t r N W R) n a
    (λ w res, ∀ o, res = Ok o → outcome_ok t r N W R w o) w.
Proof.
  intros Hnd [(op & Hop & ->)|(k & Hk & ->)]; apply wp_inject.
  - eapply wp_mono; [|by apply wp_write]. intros w' [[x|]|] H o Ho; cbn in Ho; [..|done];
      injection Ho as <-; [|done]. by apply H.
  - eapply wp_mono; [|by apply wp_read]. intros w' [e|] _ o Ho; cbn in Ho; [|done].
    by injection Ho as <-.
Qed.

(** ** Properties *)

(** C1: an acknowledged write is durable.  In every execution of a cluster whose
    nodes share a routing table and its ring, with messages lost, delayed and
    reordered, nodes crashing, queues running and janitors sweeping at will: when a
    client at any node has seen its write applied, the primary and at least as many
    of the partition's backups as the write quorum asks for, or all of them, have
    taken the record in, so that from then on each of them has crashed, or holds the
    record or a newer one of its key, or has held such a one in its store that is now due
    to be swept.  Keys and names carry no byte order mark. *)
Theorem acknowledged_write_durable ms t r N W R w c n op x :
  new_PartitionRing ms N = Ok r → Z.of_nat (length ms) < 2 ^ 26 →
  (∀ m s, w !! m = Some (Some s) → node_ok t r N W R m s ∧ past s = [store (engine s)]) →
  reachable receive client background w c →
  (n, Ok (WriteDone op (WriteApplied x))) ∈ log c →
  key x = op_key op ∧ durable t r N W R (nodes c) x.
Proof.
  intros Hr HM Hw Hreach Hin.
  assert (∀ p bs, ring_backups r p R = Ok bs → NoDup bs) as Hnd
    by (intros p bs; by eapply ring_backups_nodup).
  exact (adequacy (node_ok t r N W R) later (send_ok t N) (reply_ok t r N W R)
    receive client background (λ _ w o, outcome_ok t r N W R w o)
    (reply_ok_later t r N W R)
    ltac:(intros w1 w2 m [op' [y|why]|e] Hle; cbn; [|done..]; intros [? ?]; split; [done|];
          by eapply durable_later)
    (background_ok t r N W R) (wp_receive t r N W R Hnd)
    (λ m a w', wp_client t r N W R m a w' Hnd) w c n (WriteDone op (WriteApplied x))
    (λ m s Hm, proj1 (Hw m s Hm)) Hreach Hin).
Qed.

(** A write of a client of the backup, forwarded, committed, replicated and
    acknowledged. *)
Definition sample_schedule (primary other : jsstring) (op : WriteOp)
    : list (@move Replicator outcome) :=
  [DoClient other (async_map (WriteDone op) (write op)); DoAwait 0; DoCollect 0; DoDeliver 0;
   DoAwait 0; DoAwait 0; DoEnv primary (tick 0 10 (Some 10)); DoAwait 0; DoAwait 0; DoCollect 0;
   DoDeliver 0; DoAwait 0; DoAnswer 0; DoReply 0 0; DoResume 0; DoAnswer 0; DoReply 0 0;
   DoResume 0; DoReturn 0].

Definition sample_world (t : RoutingTable) (r : PartitionRing) : gmap jsstring (option Replicator) :=
  list_to_map [(js "a", Some (sample_node "a" [] t r)); (js "b", Some (sample_node "b" [] t r))].

Lemma sample_node_ok nd t r :
  text_ok (js nd) →
  node_ok t r 1 DEFAULT_WRITE_QUORUM DEFAULT_REPLICA_COUNT (js nd) (sample_node nd [] t r).
Proof.
  intros Hnd. split; try done; try apply sample_node_inv; [by left|intros; by apply not_elem_of_nil in H..].
Qed.

Lemma acknowledged_write_durable_witness :
  ∃ r c x, new_PartitionRing [js "a"; js "b"] 1 = Ok r
  ∧ reachable receive client background (sample_world (MkTable 1 [[js "b"]]) r) c
  ∧ (js "a", Ok (WriteDone (PutOp (js "k") [1] CondNone None) (WriteApplied x))) ∈ log c
  ∧ key x = js "k"
  ∧ durable (MkTable 1 [[js "b"]]) r 1 DEFAULT_WRITE_QUORUM DEFAULT_REPLICA_COUNT (nodes c) x.
Proof.
  destruct (new_PartitionRing [js "a"; js "b"] 1) as [r|e] eqn:Hr; [|by vm_compute in Hr].
  set (t := MkTable 1 [[js "b"]]). set (op := PutOp (js "k") [1] CondNone None).
  set (ms := sample_schedule (js "b") (js "a") op).
  assert (∃ x, log <$> schedule receive ms (initial (sample_world t r))
    = Some [(js "a", Ok (WriteDone op (WriteApplied x)))]) as (x & Hlog).
  { vm_compute in Hr. injection Hr as <-.
    exists (MkEntry (js "k") (Some [1]) (MkTime 10 0 (js "b")) 1 None false). vm_compute. reflexivity. }
  destruct (schedule receive ms (initial (sample_world t r))) as [c|] eqn:Hc; [|discriminate Hlog].
  injection Hlog as Hlog. exists r, c, x. split; [reflexivity|].
  assert (text_ok (js "k") ∧ text_ok (js "a") ∧ text_ok (js "b")) as (Hk & Ha & Hb)
    by (split; [|split]; (split; [by apply units_check|reflexivity])).
  assert (reachable receive client background (sample_world t r) c) as Hreach.
  { apply (schedule_reachable receive client background ms); [|exact Hc].
    unfold ms, sample_schedule. rewrite !Forall_cons, Forall_nil. cbn [move_ok].
    repeat match goal with |- _ ∧ _ => split | |- True => exact I end.
    - left. exists op. split; [exact Hk|reflexivity].
    - intros s. apply bg_tick. }
  assert ((js "a", Ok (WriteDone op (WriteApplied x))) ∈ log c) as Hin
    by (rewrite Hlog; apply list_elem_of_singleton; reflexivity).
  split; [exact Hreach|]. split; [exact Hin|].
  apply (acknowledged_write_durable [js "a"; js "b"] t r 1 DEFAULT_WRITE_QUORUM
    DEFAULT_REPLICA_COUNT (sample_world t r) c (js "a") op x Hr); [reflexivity| |exact Hreach|exact Hin].
  intros m s Hm. apply elem_of_list_to_map_2 in Hm.
  apply list_elem_of_In in Hm as [E|[E|[]]]; apply pair_equal_spec in E as [<- E];
    apply (inj Some) in E; subst s; (split; [by apply sample_node_ok|reflexivity]).
Defined.
