(* ===== verification/Resolver.v ===== *)
(** * Split-brain resolution ([src/kv/resolver.ts])

    The keep-majority strategy: given the members a half still reaches and the last
    stable view, whether that half keeps serving. *)
From S2P Require Import Prelude JsNumber JsString.

Definition DEFAULT_MEMBER_QUORUM : Z := 1.

Record KeepMajorityResolver := MkResolver { minimumMemberQuorum : Z }.

Definition new_KeepMajorityResolver (quorum : Z) : result KeepMajorityResolver :=
  if negb (is_safe_integer quorum) || (quorum <? 1)
  then Throw (RangeError "minimum member quorum must be a positive integer")
  else Ok (MkResolver quorum).

(** The loop that counts the members of the last stable view still reached. *)
Fixpoint count_held (reachable : list jsstring) (held : Z) (lastStable : list jsstring) : Z :=
  match lastStable with
  | [] => held
  | name :: rest =>
      count_held reachable (if decide (name ∈ reachable) then held + 1 else held) rest
  end.

Definition survives (s : KeepMajorityResolver) (reachable lastStable : list jsstring) : bool :=
  let stableSize := Z.of_nat (length lastStable) in
  if (minimumMemberQuorum s <=? 1) || (stableSize =? 0) then true
  else
    let held := count_held reachable 0 lastStable in
    if stableSize <? held * 2 then true
    else if held * 2 <? stableSize then false
    else match lastStable with
         | oldest :: _ => bool_decide (oldest ∈ reachable)
         | [] => false
         end.

Lemma count_held_filter reachable held l :
  count_held reachable held l = held + Z.of_nat (length (filter (λ n, n ∈ reachable) l)).
Proof.
  revert held. induction l as [|n l IH]; intros held; cbn [count_held]; [cbn; lia|].
  rewrite IH, filter_cons. destruct (decide (n ∈ reachable)); cbn [length]; lia.
Qed.

(** Two sides that share no member of the stable view count at most all of it. *)
Lemma disjoint_counts (r1 r2 l : list jsstring) :
  (∀ n, n ∈ l → n ∈ r1 → n ∈ r2 → False) →
  (length (filter (λ n, n ∈ r1) l) + length (filter (λ n, n ∈ r2) l) ≤ length l)%nat
  ∧ ((∀ n, n ∈ l → n ∈ r1 ∨ n ∈ r2) →
     (length (filter (λ n, n ∈ r1) l) + length (filter (λ n, n ∈ r2) l) = length l)%nat).
Proof.
  induction l as [|n l IH]; intros Hd; [by split|].
  destruct IH as [IHle IHeq]; [intros m Hm; apply Hd; by right|].
  rewrite !filter_cons. specialize (Hd n ltac:(left)).
  destruct (decide (n ∈ r1)), (decide (n ∈ r2)); cbn [length]; [tauto|..];
    (split; [lia|]); intros Hall;
    (specialize (IHeq ltac:(intros m Hm; apply Hall; by right)));
    destruct (Hall n ltac:(left)); first [done|lia].
Qed.

Lemma survives_enabled s reachable n l :
  1 < minimumMemberQuorum s →
  survives s reachable (n :: l) = true ↔
    let held := Z.of_nat (length (filter (λ m, m ∈ reachable) (n :: l))) in
    let size := Z.of_nat (length (n :: l)) in
    size < held * 2 ∨ held * 2 = size ∧ n ∈ reachable.
Proof.
  intros Hq. cbv zeta. unfold survives. rewrite count_held_filter, Z.add_0_l.
  set (held := length (filter _ _)).
  destruct (Z.leb_spec (minimumMemberQuorum s) 1); [lia|]. cbn [orb].
  destruct (Z.eqb_spec (Z.of_nat (length (n :: l))) 0) as [E|_]; [cbn in E; lia|].
  destruct (Z.ltb_spec (Z.of_nat (length (n :: l))) (Z.of_nat held * 2)); [naive_solver|].
  destruct (Z.ltb_spec (Z.of_nat held * 2) (Z.of_nat (length (n :: l)))).
  - split; [done|]. lia.
  - rewrite bool_decide_eq_true. split; [intros ?; right; split; [lia|done]|].
    intros [?|[_ ?]]; [lia|done].
Qed.

(** ** Properties *)

(** Keep-majority decides a partition: when the strategy is enabled and a
    stable view was split between two halves that reach no member of it in common,
    at most one half keeps serving, and when the halves together reach the whole
    view exactly one does, an even split included. *)
Theorem keep_majority_decides s (half1 half2 lastStable : list jsstring) :
  1 < minimumMemberQuorum s → lastStable ≠ [] →
  (∀ n, n ∈ lastStable → n ∈ half1 → n ∈ half2 → False) →
  survives s half1 lastStable && survives s half2 lastStable = false
  ∧ ((∀ n, n ∈ lastStable → n ∈ half1 ∨ n ∈ half2) →
     survives s half1 lastStable = negb (survives s half2 lastStable)).
Proof.
  intros Hq Hne Hd. destruct lastStable as [|n l]; [done|].
  destruct (disjoint_counts half1 half2 (n :: l) Hd) as [Hle Heq].
  pose proof (survives_enabled s half1 n l Hq) as H1.
  pose proof (survives_enabled s half2 n l Hq) as H2. cbv zeta in H1, H2.
  specialize (Hd n ltac:(left)).
  assert (survives s half1 (n :: l) && survives s half2 (n :: l) = false) as Hex.
  { apply not_true_is_false. rewrite andb_true_iff, H1, H2.
    intros [[?|[? ?]] [?|[? ?]]]; try lia. by apply Hd. }
  split; [done|]. intros Hall. specialize (Heq Hall).
  destruct (survives s half1 (n :: l)) eqn:E1, (survives s half2 (n :: l)) eqn:E2; try done.
  exfalso. destruct (Hall n ltac:(left)) as [Hn|Hn].
  - enough (false = true) by done. destruct (Z.lt_trichotomy (Z.of_nat (length (n :: l)))
      (Z.of_nat (length (filter (λ m, m ∈ half1) (n :: l))) * 2)) as [?|[?|?]];
      [apply H1; by left|apply H1; right; split; [lia|done]|apply H2; left; lia].
  - enough (false = true) by done. destruct (Z.lt_trichotomy (Z.of_nat (length (n :: l)))
      (Z.of_nat (length (filter (λ m, m ∈ half2) (n :: l))) * 2)) as [?|[?|?]];
      [apply H2; by left|apply H2; right; split; [lia|done]|apply H1; left; lia].
Qed.

Lemma keep_majority_decides_witness :
  survives (MkResolver 2) [js "a"; js "c"] [js "a"; js "b"; js "c"; js "d"]
  && survives (MkResolver 2) [js "b"; js "d"] [js "a"; js "b"; js "c"; js "d"] = false
  ∧ ((∀ n, n ∈ [js "a"; js "b"; js "c"; js "d"] → n ∈ [js "a"; js "c"] ∨ n ∈ [js "b"; js "d"]) →
     survives (MkResolver 2) [js "a"; js "c"] [js "a"; js "b"; js "c"; js "d"]
     = negb (survives (MkResolver 2) [js "b"; js "d"] [js "a"; js "b"; js "c"; js "d"])).
Proof.
  apply (keep_majority_decides (MkResolver 2) [js "a"; js "c"] [js "b"; js "d"]
    [js "a"; js "b"; js "c"; js "d"]).
  - reflexivity.
  - discriminate.
  - intros n _ H1 H2. apply list_elem_of_In in H1 as [<-|[<-|[]]];
      apply list_elem_of_In in H2 as [E|[E|[]]]; discriminate E.
Defined.
