(* ===== verification/MoveScheduler.v ===== *)
(** * The move scheduler ([src/kv/move.scheduler.ts])

    A priority queue over concurrent fragment moves with a cap on how many run.  A
    move is its priority and an identity for its body; [submit] and [settle] return
    the moves they start, in order. *)
From S2P Require Import Prelude JsNumber JsString.

Definition MAX_CONCURRENT_MOVES : Z := 4.

(** [MovePriority]: most urgent first. *)
Definition PRIORITY_RESTORE : Z := 0.
Definition PRIORITY_DRAIN : Z := 1.
Definition PRIORITY_REBALANCE : Z := 2.

Record QueuedMove := MkMove { mv_priority : Z; mv_run : nat }.

Record MoveScheduler := MkScheduler {
  maxConcurrent : Z; mv_queue : list QueuedMove; mv_running : Z }.

Definition new_MoveScheduler (max : Z) : result MoveScheduler :=
  if negb (is_safe_integer max) || (max <=? 0)
  then Throw (RangeError "max concurrent moves must be a positive integer")
  else Ok (MkScheduler max [] 0).

(** The scan of [#dequeue]: [best] is the position of the best move so far. *)
Fixpoint best_index (best_priority : Z) (best index : nat) (rest : list QueuedMove) : nat :=
  match rest with
  | [] => best
  | m :: rest' =>
      if mv_priority m <? best_priority
      then best_index (mv_priority m) index (S index) rest'
      else best_index best_priority best (S index) rest'
  end.

(** [#dequeue]; [None] on an empty queue, where it is not called. *)
Definition dequeue (q : list QueuedMove) : option (QueuedMove * list QueuedMove) :=
  match q with
  | [] => None
  | m :: rest =>
      let best := best_index (mv_priority m) 0 1 rest in
      move ← q !! best; Some (move, take best q ++ drop (S best) q)
  end.

(** [#pump]: the loop ends because every turn takes a move off the queue. *)
Fixpoint pump (fuel : nat) (s : MoveScheduler) : list QueuedMove * MoveScheduler :=
  match fuel with
  | O => ([], s)
  | S fuel' =>
      if (mv_running s <? maxConcurrent s) && negb (Nat.eqb (length (mv_queue s)) 0) then
        match dequeue (mv_queue s) with
        | Some (move, rest) =>
            let '(started, s') :=
              pump fuel' (MkScheduler (maxConcurrent s) rest (mv_running s + 1)) in
            (move :: started, s')
        | None => ([], s)
        end
      else ([], s)
  end.

Definition pump_all (s : MoveScheduler) : list QueuedMove * MoveScheduler :=
  pump (S (length (mv_queue s))) s.

Definition move_submit (s : MoveScheduler) (m : QueuedMove) : list QueuedMove * MoveScheduler :=
  pump_all (MkScheduler (maxConcurrent s) (mv_queue s ++ [m]) (mv_running s)).

(** [#settle], whichever way the move ended. *)
Definition move_settle (s : MoveScheduler) : list QueuedMove * MoveScheduler :=
  pump_all (MkScheduler (maxConcurrent s) (mv_queue s) (mv_running s - 1)).

(** ** The order of service *)

(** The reference: the queue by priority, arrivals in order within each. *)
Definition service_order (q : list QueuedMove) : list QueuedMove :=
  [PRIORITY_RESTORE; PRIORITY_DRAIN; PRIORITY_REBALANCE] ≫= λ p,
    filter (λ m, mv_priority m = p) q.

Definition move_wf (m : QueuedMove) : Prop :=
  mv_priority m = PRIORITY_RESTORE ∨ mv_priority m = PRIORITY_DRAIN
  ∨ mv_priority m = PRIORITY_REBALANCE.

(** The scan stops at the first of the most urgent moves. *)
Lemma best_index_spec bp best index rest (q : list QueuedMove) m :
  q !! best = Some m → mv_priority m = bp → (best < index)%nat → drop index q = rest →
  (∀ i x, q !! i = Some x → (i < index)%nat → bp ≤ mv_priority x) →
  (∀ i x, q !! i = Some x → (i < best)%nat → bp < mv_priority x) →
  ∃ m', q !! best_index bp best index rest = Some m'
    ∧ (∀ i x, q !! i = Some x → mv_priority m' ≤ mv_priority x)
    ∧ (∀ i x, q !! i = Some x → (i < best_index bp best index rest)%nat →
         mv_priority m' < mv_priority x).
Proof.
  revert bp best index m. induction rest as [|y rest IH]; intros bp best index m Hm Hbp Hlt Hd Hle Hlts;
    cbn [best_index].
  - exists m. split; [done|]. rewrite Hbp. split; [|done]. intros i x Hi. eapply Hle; [done|].
    apply lookup_lt_Some in Hi. apply (f_equal length) in Hd. rewrite length_drop in Hd. cbn in Hd. lia.
  - assert (q !! index = Some y) as Hy
      by (rewrite <-(Nat.add_0_r index), <-lookup_drop, Hd; done).
    assert (drop (S index) q = rest) as Hd'
      by (replace (S index) with (index + 1)%nat by lia; rewrite <-drop_drop, Hd; done).
    destruct (Z.ltb_spec (mv_priority y) bp) as [Hlt'|Hge].
    + apply (IH _ _ _ y); [done|done|lia|done|..].
      * intros i x Hi Hi'. destruct (decide (i = index)) as [->|]; [by simplify_eq|].
        specialize (Hle i x Hi ltac:(lia)). lia.
      * intros i x Hi Hi'. specialize (Hle i x Hi ltac:(lia)). lia.
    + apply (IH _ _ _ m); [done|done|lia|done| |done].
      intros i x Hi Hi'. destruct (decide (i = index)) as [->|]; [by simplify_eq|].
      apply (Hle i x Hi). lia.
Qed.

Lemma dequeue_split q :
  q ≠ [] →
  ∃ m pre post, q = pre ++ m :: post ∧ dequeue q = Some (m, pre ++ post)
    ∧ (∀ x, x ∈ pre → mv_priority m < mv_priority x)
    ∧ (∀ x, x ∈ post → mv_priority m ≤ mv_priority x).
Proof.
  intros Hq. destruct q as [|m0 rest]; [done|].
  destruct (best_index_spec (mv_priority m0) 0 1 rest (m0 :: rest) m0)
    as (m & Hm & Hle & Hlt); [done|done|lia|done|..].
  { intros i x Hi Hi'. assert (i = 0%nat) as -> by lia. by simplify_eq/=. }
  { intros i x _ Hi. lia. }
  set (b := best_index _ _ _ _) in *. exists m, (take b (m0 :: rest)), (drop (S b) (m0 :: rest)).
  split; [by rewrite take_drop_middle|]. split; [cbn [dequeue]; fold b; rewrite Hm; done|]. split.
  - intros x (i & Hi & Hib)%elem_of_take. by eapply Hlt.
  - intros x (i & Hi)%list_elem_of_lookup. rewrite lookup_drop in Hi. by eapply Hle.
Qed.

Lemma filter_lower (l : list QueuedMove) p :
  (∀ x, x ∈ l → p < mv_priority x) → filter (λ m, mv_priority m = p) l = [].
Proof. intros H. apply filter_none. intros x Hx E. specialize (H x Hx). lia. Qed.

(** [#dequeue] takes the head of the service order and leaves its tail. *)
Lemma dequeue_service_order q :
  Forall move_wf q → q ≠ [] →
  ∃ m q', dequeue q = Some (m, q') ∧ service_order q = m :: service_order q'
    ∧ q ≡ₚ m :: q'.
Proof.
  intros Hwf Hq. destruct (dequeue_split q Hq) as (m & pre & post & -> & -> & Hpre & Hpost).
  exists m, (pre ++ post). split; [done|].
  split; [|symmetry; apply Permutation_middle].
  apply Forall_app in Hwf as [Hwpre [Hwm Hwpost]%Forall_cons].
  unfold service_order, PRIORITY_RESTORE, PRIORITY_DRAIN, PRIORITY_REBALANCE.
  cbn [mbind list_bind]. rewrite !app_nil_r, !filter_app, !filter_cons.
  assert (∀ p, p < mv_priority m → filter (λ x, mv_priority x = p) pre = []
    ∧ filter (λ x, mv_priority x = p) post = []) as Hlow.
  { intros p Hp. split; apply filter_lower; intros x Hx;
      [specialize (Hpre x Hx)|specialize (Hpost x Hx)]; lia. }
  pose proof (filter_lower pre (mv_priority m) Hpre) as Heq.
  destruct Hwm as [E|[E|E]]; unfold PRIORITY_RESTORE, PRIORITY_DRAIN, PRIORITY_REBALANCE in E;
    rewrite E in *; repeat (rewrite decide_True by lia || rewrite decide_False by lia).
  - by rewrite Heq.
  - destruct (Hlow 0 ltac:(lia)) as [-> ->]. by rewrite Heq.
  - destruct (Hlow 0 ltac:(lia)) as [-> ->], (Hlow 1 ltac:(lia)) as [-> ->]. by rewrite Heq.
Qed.

Lemma service_order_nil q : Forall move_wf q → service_order q = [] → q = [].
Proof.
  intros Hwf H. destruct q as [|m q]; [done|].
  destruct (dequeue_service_order (m :: q) Hwf) as (? & ? & _ & E & _); [done|]. by rewrite H in E.
Qed.

Lemma service_order_perm q : Forall move_wf q → service_order q ≡ₚ q.
Proof.
  remember (length q) as n eqn:Hn. revert q Hn. induction n as [|n IH]; intros q Hn Hwf.
  { by destruct q. }
  destruct (dequeue_service_order q Hwf) as (m & q' & _ & -> & Hp); [by intros ->|].
  rewrite Hp. constructor. apply IH.
  - apply Permutation_length in Hp. cbn in Hp. lia.
  - rewrite Hp in Hwf. by apply Forall_cons in Hwf as [_ ?].
Qed.

(** A pump starts the next moves of the service order, as many as there are slots. *)
Lemma pump_spec fuel s :
  Forall move_wf (mv_queue s) → (length (mv_queue s) < fuel)%nat →
  let '(started, s') := pump fuel s in
  started = take (Z.to_nat (maxConcurrent s - mv_running s)) (service_order (mv_queue s))
  ∧ service_order (mv_queue s')
    = drop (Z.to_nat (maxConcurrent s - mv_running s)) (service_order (mv_queue s))
  ∧ Forall move_wf (mv_queue s') ∧ maxConcurrent s' = maxConcurrent s
  ∧ mv_running s' = mv_running s + Z.of_nat (length started).
Proof.
  revert s. induction fuel as [|fuel IH]; intros s Hwf Hf; cbn [pump]; [lia|].
  destruct (Z.ltb_spec (mv_running s) (maxConcurrent s)) as [Hlt|Hge]; cbn [andb].
  2: { replace (Z.to_nat _) with 0%nat by lia. cbn. by rewrite Z.add_0_r. }
  destruct (Nat.eqb_spec (length (mv_queue s)) 0) as [H0|H0]; cbn [negb].
  { apply length_zero_iff_nil in H0. destruct s as [mx q rn]. cbn in *. subst q. cbn.
    rewrite take_nil, drop_nil. split; [done|]. split; [done|]. split; [constructor|]. split; [done|lia]. }
  destruct (dequeue_service_order (mv_queue s) Hwf) as (m & q' & -> & Hso & Hp); [by intros E; rewrite E in H0|].
  specialize (IH (MkScheduler (maxConcurrent s) q' (mv_running s + 1))). cbn in IH.
  destruct (pump fuel _) as [started s']. rewrite Hp in Hwf. apply Forall_cons in Hwf as [_ Hwf].
  apply Permutation_length in Hp. cbn in Hp.
  destruct IH as (-> & Hq & Hwf' & Hmax & Hrun); [done|lia|]. rewrite Hso.
  replace (Z.to_nat (maxConcurrent s - mv_running s))
    with (S (Z.to_nat (maxConcurrent s - (mv_running s + 1)))) by lia.
  cbn [take drop length]. do 4 (split; [done|]). rewrite Hrun. lia.
Qed.

(** ** Histories *)

Inductive move_event := Submitted (m : QueuedMove) | Settled.

(** A settlement needs a running move; anything else is no event of the code. *)
Definition move_step (s : MoveScheduler) (ev : move_event) : list QueuedMove * MoveScheduler :=
  match ev with
  | Submitted m => move_submit s m
  | Settled => if 0 <? mv_running s then move_settle s else ([], s)
  end.

Fixpoint move_exec (s : MoveScheduler) (evs : list move_event) : list QueuedMove * MoveScheduler :=
  match evs with
  | [] => ([], s)
  | ev :: evs' =>
      let '(st1, s1) := move_step s ev in
      let '(st2, s2) := move_exec s1 evs' in
      (st1 ++ st2, s2)
  end.

Definition submissions (evs : list move_event) : list QueuedMove :=
  omap (λ ev, match ev with Submitted m => Some m | Settled => None end) evs.

(** A slot is never free while a move waits, and the cap holds. *)
Record scheduler_inv (s : MoveScheduler) : Prop := {
  si_wf : Forall move_wf (mv_queue s);
  si_bounds : 0 ≤ mv_running s ≤ maxConcurrent s;
  si_busy : mv_queue s ≠ [] → mv_running s = maxConcurrent s }.

Lemma pump_all_inv s :
  Forall move_wf (mv_queue s) → 0 ≤ mv_running s ≤ maxConcurrent s →
  let '(started, s') := pump_all s in
  scheduler_inv s' ∧ maxConcurrent s' = maxConcurrent s
  ∧ service_order (mv_queue s) = started ++ service_order (mv_queue s')
  ∧ mv_running s' = mv_running s + Z.of_nat (length started).
Proof.
  intros Hwf Hb. unfold pump_all. pose proof (pump_spec (S (length (mv_queue s))) s Hwf) as H.
  destruct (pump _ s) as [started s']. destruct H as (-> & Hq & Hwf' & Hmax & Hrun); [lia|].
  rewrite length_take in Hrun. split; [|split; [done|]; split; [by rewrite Hq, take_drop|]].
  - split; [done|lia|]. intros Hne. destruct (decide (Z.to_nat (maxConcurrent s - mv_running s)
      < length (service_order (mv_queue s)))%nat); [lia|].
    destruct Hne. apply service_order_nil; [done|]. rewrite Hq. apply drop_ge. lia.
  - rewrite Hrun, length_take. done.
Qed.

Lemma move_step_inv s ev :
  scheduler_inv s → (∀ m, ev = Submitted m → move_wf m) →
  let '(started, s') := move_step s ev in
  scheduler_inv s' ∧ maxConcurrent s' = maxConcurrent s
  ∧ service_order (mv_queue s ++ submissions [ev]) = started ++ service_order (mv_queue s').
Proof.
  intros [Hwf Hb Hbusy] Hev. destruct ev as [m|]; cbn [move_step submissions omap list_omap].
  - unfold move_submit.
    pose proof (pump_all_inv (MkScheduler (maxConcurrent s) (mv_queue s ++ [m]) (mv_running s))) as H.
    destruct (pump_all _) as [started s']. destruct H as (? & ? & ? & _); [|done|done].
    apply Forall_app. split; [done|]. apply Forall_singleton. by apply Hev.
  - rewrite app_nil_r. destruct (Z.ltb_spec 0 (mv_running s)); [|done]. unfold move_settle.
    pose proof (pump_all_inv (MkScheduler (maxConcurrent s) (mv_queue s) (mv_running s - 1))) as H1.
    destruct (pump_all _) as [started s']. destruct H1 as (? & ? & ? & _); [done|cbn; lia|done].
Qed.

Lemma move_exec_inv s evs :
  scheduler_inv s → (∀ m, m ∈ submissions evs → move_wf m) →
  let '(started, s') := move_exec s evs in
  scheduler_inv s' ∧ maxConcurrent s' = maxConcurrent s
  ∧ mv_queue s ++ submissions evs ≡ₚ started ++ mv_queue s'.
Proof.
  revert s. induction evs as [|ev evs IH]; intros s Hs Hwf; cbn [move_exec].
  { cbn. by rewrite app_nil_r. }
  pose proof (move_step_inv s ev Hs) as H1. destruct (move_step s ev) as [st1 s1].
  assert (∀ m, m ∈ submissions [ev] → move_wf m) as Hev.
  { intros m Hm. apply Hwf. unfold submissions in *. cbn in Hm |- *.
    destruct ev; [|by apply not_elem_of_nil in Hm]. apply list_elem_of_singleton in Hm as ->. left. }
  destruct H1 as (Hs1 & Hm1 & Hp1).
  { intros m ->. apply Hev. cbn. left. }
  specialize (IH s1 Hs1). destruct (move_exec s1 evs) as [st2 s2].
  destruct IH as (Hs2 & Hm2 & Hp2).
  { intros m Hm. apply Hwf. unfold submissions in *. cbn. destruct ev; [by right|done]. }
  split; [done|]. split; [congruence|].
  assert (submissions (ev :: evs) = submissions [ev] ++ submissions evs) as ->
    by (by destruct ev).
  assert (mv_queue s ++ submissions [ev] ≡ₚ st1 ++ mv_queue s1) as Hq.
  { rewrite <-(service_order_perm (mv_queue s ++ submissions [ev])), Hp1,
      (service_order_perm (mv_queue s1)); [done|apply Hs1|].
    apply Forall_app. split; [apply Hs|]. apply Forall_forall. done. }
  rewrite app_assoc, Hq, <-!app_assoc, Hp2. done.
Qed.

(** ** Properties *)

(** The scheduler never exceeds its cap, never idles a slot while a move waits,
    and loses or duplicates no move: after any history of submissions and
    settlements from a new scheduler, the moves started and those still queued are
    exactly the submitted ones, and the next settlement starts precisely the first
    queued move of the most urgent priority. *)
Theorem scheduler_invariant max s evs :
  new_MoveScheduler max = Ok s → (∀ m, m ∈ submissions evs → move_wf m) →
  let '(started, s') := move_exec s evs in
  0 ≤ mv_running s' ≤ max
  ∧ (mv_running s' < max → mv_queue s' = [])
  ∧ submissions evs ≡ₚ started ++ mv_queue s'
  ∧ (mv_queue s' ≠ [] →
     (move_settle s').1 = take 1 (service_order (mv_queue s'))
     ∧ ∃ m, (move_settle s').1 = [m]).
Proof.
  intros Hnew Hwf. unfold new_MoveScheduler in Hnew.
  destruct (negb _ || (max <=? 0)) eqn:Hmax; [done|]. injection Hnew as <-.
  apply orb_false_iff in Hmax as [_ Hpos%Z.leb_gt].
  assert (scheduler_inv (MkScheduler max [] 0)) as H0 by (split; cbn; [constructor|lia|done]).
  pose proof (move_exec_inv _ evs H0 Hwf) as H. destruct (move_exec _ evs) as [started s'].
  cbn in H. destruct H as ([Hq Hb Hbusy] & Hm & Hp). rewrite Hm in Hb, Hbusy.
  split; [done|]. split; [|split; [done|]].
  - intros Hlt. destruct (mv_queue s') as [|m q]; [done|]. rewrite Hbusy in Hlt by done. lia.
  - intros Hne. unfold move_settle, pump_all. cbn [mv_queue].
    pose proof (pump_spec (S (length (mv_queue s')))
      (MkScheduler (maxConcurrent s') (mv_queue s') (mv_running s' - 1)) Hq) as H.
    destruct (pump _ _) as [st s2]. destruct H as (-> & _); [cbn; lia|].
    cbn [mv_queue maxConcurrent mv_running fst]. rewrite Hm, Hbusy by done. replace (max - (max - 1)) with 1 by lia. split; [done|].
    destruct (dequeue_service_order (mv_queue s') Hq Hne) as (m & q' & _ & -> & _). by exists m.
Qed.

Lemma scheduler_invariant_witness :
  let s := MkScheduler 1 [] 0 in
  let evs := [Submitted (MkMove 1 10); Submitted (MkMove 2 11); Submitted (MkMove 0 12); Settled] in
  let '(started, s') := move_exec s evs in
  0 ≤ mv_running s' ≤ 1
  ∧ (mv_running s' < 1 → mv_queue s' = [])
  ∧ submissions evs ≡ₚ started ++ mv_queue s'
  ∧ (mv_queue s' ≠ [] →
     (move_settle s').1 = take 1 (service_order (mv_queue s'))
     ∧ ∃ m, (move_settle s').1 = [m]).
Proof.
  apply (scheduler_invariant 1 (MkScheduler 1 [] 0)).
  - reflexivity.
  - intros m Hm. apply list_elem_of_In in Hm. vm_compute in Hm.
    destruct Hm as [<-|[<-|[<-|[]]]]; [right; left|right; right|left]; reflexivity.
Defined.
