(* ===== verification/Coordinator.v ===== *)
(** * The coordinator ([src/kv/coordinator.ts])

    The oldest live member authors the routing table and pushes it to the others; a
    member adopts a newer table from the member it believes is coordinator, and
    answers a push it does not adopt with the table it holds, so that a coordinator
    that resumed from a stale table re-authors above it. *)
From S2P Require Import Prelude JsNumber JsString Hash Hlc Entry Partition Store Ports Engine.
From S2P Require Import Double Ring RoutingTable Async ByteIO KvWire KvCodec.

(** The state of one node's [Coordinator].  [c_members] is what the membership view
    answers, oldest first, [c_held] what the local store reports holding; [c_turn]
    and [c_serving] number the rebalances chained on the tail. *)
Record Coordinator := MkCoordinator {
  c_self : jsstring;
  c_members : list ClusterMember;
  c_partitionCount : Z;
  c_held : list Z;
  c_table : option RoutingTable;
  maxVersion : Z;
  c_reports : list OwnershipReport;
  c_turn : nat;
  c_serving : nat }.

Definition new_Coordinator (me : jsstring) (members : list ClusterMember) (count : Z)
    (held : list Z) : result Coordinator :=
  if negb (is_safe_integer count) || (count <=? 0)
  then Throw (RangeError "partition count must be a positive integer")
  else Ok (MkCoordinator me members count held None 0 [] 0 0).

Definition set_table (s : Coordinator) (t : RoutingTable) (v : Z) : Coordinator :=
  MkCoordinator (c_self s) (c_members s) (c_partitionCount s) (c_held s) (Some t) v (c_reports s)
    (c_turn s) (c_serving s).

Definition set_reports (s : Coordinator) (rs : list OwnershipReport) : Coordinator :=
  MkCoordinator (c_self s) (c_members s) (c_partitionCount s) (c_held s) (c_table s)
    (maxVersion s) rs (c_turn s) (c_serving s).

(** ** Comparing tables *)

Fixpoint sameList (first second : list jsstring) : bool :=
  match first, second with
  | [], [] => true
  | a :: first', b :: second' => if decide (a = b) then sameList first' second' else false
  | _, _ => false
  end.

Fixpoint sameOwners_loop (first second : RoutingTable) (ids : list Z) : result bool :=
  match ids with
  | [] => Ok true
  | id :: ids' =>
      let! a := table_owners first id in
      let! b := table_owners second id in
      if negb (sameList a b) then Ok false else sameOwners_loop first second ids'
  end.

Definition sameOwners (first second : RoutingTable) : result bool :=
  sameOwners_loop first second (partition_ids (rt_partitionCount first)).

Definition informs (held pushed : RoutingTable) : result bool :=
  if table_supersedes pushed held then Ok false
  else if table_supersedes held pushed then Ok true
  else let! same := sameOwners held pushed in Ok (negb same).

(** ** Replies to a push *)

Definition decodeReport (bytes : list Z) : option OwnershipReport :=
  match decodeMessage bytes with Ok (OwnershipReportMsg report) => Some report | _ => None end.

(** Malformed bytes count as no table; a table no [RoutingTable] accepts throws. *)
Definition decodeTable (bytes : list Z) : result (option RoutingTable) :=
  match decodeMessage bytes with
  | Ok (Table wire) => let! t := fromWire wire in Ok (Some t)
  | _ => Ok None
  end.

(** ** The member's side *)

Definition coordinatorName (s : Coordinator) : option jsstring := m_name <$> head (c_members s).

Definition isCoordinator (s : Coordinator) : bool :=
  bool_decide (coordinatorName s = Some (c_self s)).

Definition localReport (s : Coordinator) : OwnershipReport := MkReport (c_self s) (c_held s).

Definition handleTable (from : jsstring) (t : RoutingTable) (s : Coordinator)
    : OwnershipReport * Coordinator :=
  let newer := match c_table s with None => true | Some held => table_supersedes t held end in
  let s := if bool_decide (Some from = coordinatorName s) && newer
           then set_table s t (rt_version t) else s in
  (localReport s, s).

Definition coord_receive (from : jsstring) (body : list Z) (s : Coordinator)
    : result (list Z) * Coordinator :=
  match decodeMessage body with
  | Throw e => (Throw e, s)
  | Ok (Table wire) =>
      match fromWire wire with
      | Throw e => (Throw e, s)
      | Ok pushed =>
          let '(report, s) := handleTable from pushed s in
          (match c_table s with
           | Some held =>
               let! inform := informs held pushed in
               if inform then encodeMessage (Table (toWire held))
               else encodeMessage (OwnershipReportMsg report)
           | None => encodeMessage (OwnershipReportMsg report)
           end, s)
      end
  | Ok _ => (Throw (KvProtocolError "coordinator received a non-table message"), s)
  end.

(** ** The coordinator's side *)

(** [new Set(members.map(name))] and the assignable names. *)
Definition liveNames (members : list ClusterMember) : list jsstring :=
  foldl (λ s m, set_add (m_name m) s) [] members.

Definition assignableNames (members : list ClusterMember) : list jsstring :=
  m_name <$> filter (λ m, m_draining m = false) members.

Definition ringNames (members : list ClusterMember) : list jsstring :=
  match assignableNames members with
  | [] => liveNames members
  | names => names
  end.

Definition recompute (members : list ClusterMember) (s : Coordinator)
    : result (RoutingTable * Coordinator) :=
  let! ring := new_PartitionRing (ringNames members) (c_partitionCount s) in
  let! candidate :=
    evolve (c_table s) ring (c_reports s) (maxVersion s + 1) (Some (liveNames members)) in
  let! unchanged :=
    match c_table s with Some t => sameOwners t candidate | None => Ok false end in
  match c_table s with
  | Some t => if unchanged : bool then Ok (t, s) else Ok (candidate, set_table s candidate (rt_version candidate))
  | None => Ok (candidate, set_table s candidate (rt_version candidate))
  end.

(** The loop of [#push] over the settled responses. *)
Fixpoint fold_responses (gathered : list OwnershipReport) (learned : option RoutingTable)
    (responses : list (option (list Z))) : result (list OwnershipReport * option RoutingTable) :=
  match responses with
  | [] => Ok (gathered, learned)
  | None :: rest => fold_responses gathered learned rest
  | Some bytes :: rest =>
      match decodeReport bytes with
      | Some report => fold_responses (gathered ++ [report]) learned rest
      | None =>
          let! peer := decodeTable bytes in
          fold_responses gathered
            (match peer, learned with
             | Some p, None => Some p
             | Some p, Some l => if table_supersedes p l then Some p else learned
             | None, _ => learned
             end) rest
      end
  end.

(** [#push], called in state [s]: the report and the targets are taken at the call. *)
Definition push_table (t : RoutingTable) (members : list ClusterMember) (s : Coordinator)
    : async Coordinator (option RoutingTable) :=
  await! bytes := lift (encodeMessage (Table (toWire t))) in
  let targets := filter (λ m, m_name m ≠ c_self s) members in
  await! responses := request_all ((λ m, (m_name m, bytes)) <$> targets) in
  await! (gathered, learned) := lift (fold_responses [localReport s] None responses) in
  await! _ := act (λ s, Ok (tt, set_reports s gathered)) in
  lift (Ok learned).

Definition rebalanceOnce : async Coordinator unit :=
  Await (λ s,
    let members := c_members s in
    match members with
    | [] => Some (s, Ret (Ok tt))
    | oldest :: _ =>
        if decide (m_name oldest ≠ c_self s) then Some (s, Ret (Ok tt))
        else match recompute members s with
        | Throw e => Some (s, Ret (Throw e))
        | Ok (t, s) => Some (s,
            await! learned := push_table t members s in
            match learned with
            | None => lift (Ok tt)
            | Some l => Await (λ s,
                let s := set_table s l (rt_version l) in
                match recompute members s with
                | Throw e => Some (s, Ret (Throw e))
                | Ok (t', s) => Some (s,
                    await! _ := push_table t' members s in
                    lift (Ok tt))
                end)
            end)
        end
    end).

(** [rebalance]: chained on the tail, whether the one before failed or not. *)
Definition rebalance : async Coordinator unit :=
  await! turn := act (λ s, Ok (c_turn s,
    MkCoordinator (c_self s) (c_members s) (c_partitionCount s) (c_held s) (c_table s)
      (maxVersion s) (c_reports s) (S (c_turn s)) (c_serving s))) in
  await! _ := Await (λ s, if Nat.eqb (c_serving s) turn then Some (s, Ret (Ok tt)) else None) in
  await! r := attempt rebalanceOnce in
  await! _ := act (λ s, Ok (tt,
    MkCoordinator (c_self s) (c_members s) (c_partitionCount s) (c_held s) (c_table s)
      (maxVersion s) (c_reports s) (c_turn s) (S (c_serving s)))) in
  lift r.

(** ** Comparing tables, specified *)

Lemma sameList_spec a b : sameList a b = bool_decide (a = b).
Proof.
  revert b. induction a as [|x a IH]; intros [|y b]; cbn; try (by case_bool_decide).
  destruct (decide (x = y)) as [->|Hne].
  - rewrite IH. repeat case_bool_decide; congruence.
  - case_bool_decide; congruence.
Qed.

Lemma sameOwners_loop_spec a b ids :
  table_wf a → table_wf b → rt_partitionCount a = rt_partitionCount b →
  (∀ id, id ∈ ids → 0 ≤ id < rt_partitionCount a) →
  ∃ r, sameOwners_loop a b ids = Ok r
    ∧ (r = true ↔ ∀ id, id ∈ ids → rt_owners a !! Z.to_nat id = rt_owners b !! Z.to_nat id).
Proof.
  intros Ha Hb Hn. induction ids as [|id ids IH]; intros Hin; cbn [sameOwners_loop].
  { exists true. split; [done|]. split; [|done]. intros _ id []%not_elem_of_nil. }
  destruct (table_owners_ok a id Ha) as (oa & -> & Hoa & _); [apply Hin; left|].
  destruct (table_owners_ok b id Hb) as (ob & -> & Hob & _); [rewrite <- Hn; apply Hin; left|].
  cbn [result_bind]. rewrite sameList_spec.
  destruct IH as (r & -> & Hr); [intros; apply Hin; by right|].
  case_bool_decide as E; cbn [negb].
  - exists r. split; [done|]. rewrite Hr. setoid_rewrite elem_of_cons.
    split; [|auto]. intros H i [->|Hi]; [congruence|auto].
  - exists false. split; [done|]. split; [done|]. intros H. specialize (H id ltac:(left)). congruence.
Qed.

Lemma owners_ext a b :
  rt_partitionCount a = rt_partitionCount b →
  (∀ id, 0 ≤ id < rt_partitionCount a → rt_owners a !! Z.to_nat id = rt_owners b !! Z.to_nat id) →
  rt_owners a = rt_owners b.
Proof.
  unfold rt_partitionCount. intros Hn H. apply list_eq. intros i.
  destruct (decide (i < length (rt_owners a))%nat) as [Hi|Hi].
  - specialize (H (Z.of_nat i) ltac:(lia)). by rewrite Nat2Z.id in H.
  - rewrite !lookup_ge_None_2 by lia. done.
Qed.

Lemma sameOwners_ok a b :
  table_wf a → table_wf b → rt_partitionCount a = rt_partitionCount b →
  sameOwners a b = Ok (bool_decide (rt_owners a = rt_owners b)).
Proof.
  intros Ha Hb Hn. unfold sameOwners.
  destruct (sameOwners_loop_spec a b (partition_ids (rt_partitionCount a)))
    as (r & -> & Hr); [done..|by intros id ?%elem_partition_ids|].
  f_equal. apply eq_true_iff_eq. rewrite Hr, bool_decide_eq_true. split; [|by intros ->].
  intros H. apply owners_ext; [done|]. intros id Hid. by apply H, elem_partition_ids.
Qed.

Lemma fromWire_toWire t : table_wf t → fromWire (toWire t) = Ok t.
Proof.
  intros Ht. unfold fromWire, toWire. cbn [tw_version tw_partitions].
  rewrite <- list_fmap_compose. change (po_owners ∘ MkPartitionOwners) with (@id (list jsstring)).
  rewrite list_fmap_id, new_RoutingTable_ok; [by destruct t|apply Ht|].
  intros os Hos. by apply (tw_lists _ Ht).
Qed.

(** A message the codec writes and reads back. *)
Definition encodable (m : KvMessage) : Prop :=
  Forall text_ok (message_texts m) ∧ ∃ bs, encodeMessage m = Ok bs.

Lemma decode_table_bytes t bs :
  table_wf t → encodable (Table (toWire t)) → encodeMessage (Table (toWire t)) = Ok bs →
  decodeReport bs = None ∧ decodeTable bs = Ok (Some t).
Proof.
  intros Ht [Htx _] E. unfold decodeReport, decodeTable.
  rewrite (decode_encode _ _ Htx E), (fromWire_toWire t Ht). done.
Qed.

(** ** The invariant of a coordinator *)

Definition coord_ok (s : Coordinator) : Prop :=
  match c_table s with
  | None => maxVersion s = 0
  | Some t => table_wf t ∧ rt_partitionCount t = c_partitionCount s ∧ rt_version t = maxVersion s
  end.

Lemma maxVersion_nonneg s : coord_ok s → 0 ≤ maxVersion s.
Proof. unfold coord_ok. destruct (c_table s) as [t|]; [intros ([? _ _] & _ & <-); done|lia]. Qed.

Lemma handleTable_ok from t s :
  coord_ok s → table_wf t → rt_partitionCount t = c_partitionCount s →
  coord_ok (handleTable from t s).2 ∧ maxVersion s ≤ maxVersion (handleTable from t s).2.
Proof.
  intros Hs Ht Hn. unfold handleTable. destruct (_ && _) eqn:E; [|by cbn; auto].
  cbn [snd]. split; [done|]. cbn [maxVersion set_table].
  apply andb_true_iff in E as [_ E]. unfold coord_ok, table_supersedes in *.
  destruct (c_table s) as [h|]; [destruct Hs as (_ & _ & <-); lia|].
  destruct Ht. lia.
Qed.

Lemma informs_ok held t :
  table_wf held → table_wf t → rt_partitionCount held = rt_partitionCount t →
  table_supersedes t held = false →
  informs held t = Ok (negb (bool_decide (held = t))).
Proof.
  intros Hh Ht Hn Hsup. unfold informs. rewrite Hsup, (sameOwners_ok held t) by done.
  unfold table_supersedes in *. destruct (Z.ltb_spec (rt_version t) (rt_version held)) as [Hlt|Hge].
  - rewrite bool_decide_false by (intros ->; lia). done.
  - cbn [result_bind]. do 2 f_equal. apply bool_decide_ext. split; [|by intros ->].
    intros Ho. destruct held, t; cbn in *. f_equal; [lia|done].
Qed.

(** ** Recomputing the table *)

Lemma next_owners_idem prev reports live id p :
  next_owners (Some (next_owners prev reports live id p)) reports live id p
  = next_owners prev reports live id p.
Proof.
  unfold next_owners. f_equal.
  match goal with |- context [default [] (Some ?l)] => change (default [] (Some l)) with l end.
  rewrite filter_app, list_filter_filter_l by auto. cbn [filter list_filter].
  rewrite decide_False; [by rewrite app_nil_r|]. unfold isRetained. by rewrite decide_True.
Qed.

Lemma assignable_name members p :
  p ∈ ringNames members →
  ∃ m, m ∈ members ∧ m_name m = p ∧ (m_draining m = false ∨ assignableNames members = []).
Proof.
  unfold ringNames. destruct (assignableNames members) as [|a l] eqn:E.
  - intros Hp. assert (∀ acc, p ∈ foldl (λ s m, set_add (m_name m) s) acc members →
      p ∈ acc ∨ ∃ m, m ∈ members ∧ m_name m = p) as H.
    { clear. induction members as [|m ms IH]; intros acc; cbn; [auto|].
      intros [[?| ->]%elem_set_add|(x & ? & ?)]%IH; [auto| |]; right; [exists m|exists x]; set_solver. }
    destruct (H [] Hp) as [[]%not_elem_of_nil|(m & ? & ?)]. eauto.
  - rewrite <- E. unfold assignableNames.
    intros (m & -> & [Hd Hm]%list_elem_of_filter)%list_elem_of_fmap. eauto.
Qed.

Lemma table_primary_last t id os :
  table_wf t → 0 ≤ id < rt_partitionCount t → rt_owners t !! Z.to_nat id = Some os →
  table_primary t id = Ok (last_owner os).
Proof.
  intros Ht Hid Hos. unfold table_primary.
  destruct (table_owners_ok t id Ht Hid) as (os' & -> & Hos' & _). cbn [result_bind]. congruence.
Qed.

Section recompute.
Context (s : Coordinator) (members : list ClusterMember) (ring : PartitionRing).
Context (Hs : coord_ok s) (HM : Z.of_nat (length (ringNames members)) < 2 ^ 26)
  (Hring : new_PartitionRing (ringNames members) (c_partitionCount s) = Ok ring).

Lemma coord_previous : previous_ok (c_partitionCount s) (c_table s).
Proof. unfold coord_ok in Hs. destruct (c_table s) as [t|]; [split; apply Hs|done]. Qed.

(** The table authored: the owners lists it has, whether or not they are new. *)
Definition authored (t : RoutingTable) : Prop :=
  ∀ id, 0 ≤ id < c_partitionCount s → ∃ p, ring_primary ring id = Ok p ∧ p ∈ ringNames members
    ∧ rt_owners t !! Z.to_nat id
      = Some (next_owners (owners_before (c_table s) id) (c_reports s) (liveNames members) id p).

(** What one recomputation returns, in terms of the table held before. *)
Lemma recompute_ok :
  ∃ t, recompute members s = Ok (t, set_table s t (rt_version t)) ∧ authored t
    ∧ coord_ok (set_table s t (rt_version t))
    ∧ (c_table s = Some t ∨
       rt_version t = maxVersion s + 1
       ∧ ∀ t0, c_table s = Some t0 → rt_owners t0 ≠ rt_owners t).
Proof.
  pose proof (maxVersion_nonneg s Hs) as Hv.
  destruct (evolve_ok _ _ ring Hring HM (c_table s) (c_reports s) (maxVersion s + 1)
    (Some (liveNames members)) coord_previous ltac:(lia)) as (c & Hc & Hwf & Hver & Hn & Hos).
  change (default (ringNames members) (Some (liveNames members))) with (liveNames members) in Hos.
  unfold recompute. rewrite Hring. cbn [result_bind]. rewrite Hc. cbn [result_bind].
  pose proof Hs as Hs'. unfold coord_ok in Hs'.
  destruct (c_table s) as [t0|] eqn:Ht0.
  - destruct Hs' as (Hw0 & Hn0 & Hv0). rewrite (sameOwners_ok t0 c) by (done || congruence).
    cbn [result_bind]. case_bool_decide as E.
    + exists t0. split; [|split; [|split; [done|by left]]].
      * do 2 f_equal. destruct s; cbn in *. by subst.
      * unfold authored. rewrite E. intros id Hid. rewrite Ht0. apply Hos, Hid.
    + exists c. split; [done|]. split; [intros id Hid; rewrite Ht0; apply Hos, Hid|].
      split; [done|]. right. split; [done|]. by intros ? [= ->].
  - cbn [result_bind]. exists c. split; [done|].
    split; [intros id Hid; rewrite Ht0; apply Hos, Hid|].
    split; [done|]. right. split; [done|]. by intros ? ?.
Qed.

End recompute.

(** ** Theorems *)

(** Recomputing the table succeeds, keeps the coordinator's invariant, never
    lowers the version and bumps it by exactly one when, and only when, some owners
    list changes; every partition's primary is the ring's, which is a draining member
    only if all are draining; and it is stable: recomputing over the same members and
    reports returns the same table and changes nothing, so a repeated rebalance never
    mints a version. *)
Theorem recompute_stable s members ring :
  coord_ok s → Z.of_nat (length (ringNames members)) < 2 ^ 26 →
  new_PartitionRing (ringNames members) (c_partitionCount s) = Ok ring →
  ∃ t s', recompute members s = Ok (t, s') ∧ coord_ok s' ∧ c_table s' = Some t
    ∧ (c_table s = Some t ∧ maxVersion s' = maxVersion s
       ∨ (∀ t0, c_table s = Some t0 → rt_owners t0 ≠ rt_owners t)
         ∧ maxVersion s' = maxVersion s + 1)
    ∧ (∀ id, 0 ≤ id < c_partitionCount s → ∃ m, m ∈ members
         ∧ table_primary t id = Ok (m_name m) ∧ ring_primary ring id = Ok (m_name m)
         ∧ (m_draining m = false ∨ assignableNames members = []))
    ∧ recompute members s' = Ok (t, s').
Proof.
  intros Hs HM Hring. destruct (recompute_ok s members ring Hs HM Hring) as (t & E & Ha & Hok & Hv).
  exists t, (set_table s t (rt_version t)). split; [done|]. split; [done|]. split; [done|].
  pose proof Hok as Hok'. unfold coord_ok in Hok'. cbn in Hok'. destruct Hok' as (Hwf & Hn & _).
  split; [|split].
  - cbn [maxVersion set_table]. destruct Hv as [Ht|[Hv Hne]]; [left|right; auto].
    split; [done|]. unfold coord_ok in Hs. rewrite Ht in Hs. apply Hs.
  - intros id Hid. destruct (Ha id Hid) as (p & Hp & Hin & Hos).
    destruct (assignable_name _ _ Hin) as (m & Hm & <- & Hd). exists m. split; [done|].
    rewrite (table_primary_last t id _ Hwf ltac:(lia) Hos). unfold next_owners.
    by rewrite last_owner_snoc.
  - destruct (recompute_ok (set_table s t (rt_version t)) members ring Hok HM Hring)
      as (t' & E' & Ha' & Hok' & Hv'). rewrite E'.
    destruct Hv' as [[= <-]|[_ Hne]]; [done|]. destruct (Hne t eq_refl).
    unfold coord_ok in Hok'. cbn in Hok'. apply owners_ext; [by destruct Hok' as (_ & -> & _)|].
    rewrite Hn. intros id Hid. destruct (Ha id Hid) as (p & Hp & _ & Hos), (Ha' id Hid) as (p' & Hp' & _ & Hos').
    rewrite Hos, Hos'. assert (p' = p) as -> by congruence. cbn [c_table c_reports set_table].
    change (owners_before (Some t) id) with (rt_owners t !! Z.to_nat id).
    by rewrite Hos, next_owners_idem.
Qed.

(** C9: no silent divergence: when a member believes the sender is coordinator, its
    answer to a push tells the sender exactly how it stands.  Either it answers its
    ownership report and now holds the pushed table, version and owners alike, or it
    answers the different, not older, table it holds, and keeps that. *)
Theorem push_settles_table s from t body :
  coord_ok s → table_wf t → rt_partitionCount t = c_partitionCount s →
  encodable (Table (toWire t)) → encodeMessage (Table (toWire t)) = Ok body →
  coordinatorName s = Some from →
  encodable (OwnershipReportMsg (localReport s)) →
  (∀ held, c_table s = Some held → encodable (Table (toWire held))) →
  ∃ reply s', coord_receive from body s = (Ok reply, s')
    ∧ (decodeReport reply = Some (localReport s) ∧ c_table s' = Some t
       ∨ ∃ held, decodeReport reply = None ∧ decodeTable reply = Ok (Some held)
           ∧ s' = s ∧ c_table s = Some held ∧ held ≠ t ∧ rt_version t ≤ rt_version held).
Proof.
  intros Hs Ht Hn Henc Hbody Hfrom [Hrt [rb Hrb]] Hheld. unfold coord_receive.
  rewrite (decode_encode _ _ (proj1 Henc) Hbody), (fromWire_toWire t Ht).
  assert (decodeReport rb = Some (localReport s)) as Hdec
    by (unfold decodeReport; by rewrite (decode_encode _ _ Hrt Hrb)).
  assert (informs t t = Ok false) as Hself.
  { rewrite informs_ok, bool_decide_true by (done || unfold table_supersedes; apply Z.ltb_irrefl). done. }
  unfold handleTable. rewrite bool_decide_true by done. cbn [andb].
  destruct (c_table s) as [h|] eqn:Hh.
  2: { cbn [c_table set_table]. rewrite Hself. cbn [result_bind].
       change (localReport (set_table _ _ _)) with (localReport s). rewrite Hrb. eauto 10. }
  destruct (table_supersedes t h) eqn:Hsup.
  { cbn [c_table set_table]. rewrite Hself. cbn [result_bind].
    change (localReport (set_table _ _ _)) with (localReport s). rewrite Hrb. eauto 10. }
  pose proof Hs as Hs'. unfold coord_ok in Hs'. rewrite Hh in Hs'. destruct Hs' as (Hwh & Hnh & _).
  rewrite Hh, (informs_ok h t) by (done || congruence). cbn [result_bind].
  case_bool_decide as E; cbn [negb].
  - subst h. rewrite Hrb. eauto 10.
  - destruct (Hheld h eq_refl) as [Htx [tb Htb]]. rewrite Htb. exists tb, s. split; [done|].
    right. exists h. destruct (decode_table_bytes h tb Hwh (Hheld h eq_refl) Htb) as [H1 H2].
    unfold table_supersedes in Hsup. repeat split; auto. lia.
Qed.

(** ** A cluster of coordinators *)

(** The membership view and the partitions held change under a coordinator's feet. *)
Definition view_changed (members : list ClusterMember) (held : list Z) (s : Coordinator)
    : Coordinator :=
  MkCoordinator (c_self s) members (c_partitionCount s) held (c_table s) (maxVersion s)
    (c_reports s) (c_turn s) (c_serving s).

Definition coord_serve (from : jsstring) (body : list Z) : async Coordinator (list Z) :=
  Await (λ s, let '(r, s') := coord_receive from body s in Some (s', Ret r)).

Definition coord_client (_ : jsstring) (a : async Coordinator unit) : Prop := a = rebalance.

Definition coord_env (_ : jsstring) (s s' : Coordinator) : Prop :=
  ∃ members held, s' = view_changed members held s.

Definition coord_sample (me : string) (members : list string) (version : Z) : Coordinator :=
  MkCoordinator (js me) ((λ m, MkMember (js m) 0 true false) <$> members) 1 []
    (Some (MkTable version [[js me]])) version [] 0 0.

Lemma coord_sample_ok me members version : 0 ≤ version → coord_ok (coord_sample me members version).
Proof.
  intros H. unfold coord_ok. cbn. split; [|done]. split; [done|done|].
  intros os ->%list_elem_of_singleton. split; [done|apply NoDup_singleton].
Qed.

Lemma recompute_stable_witness :
  ∃ ring t s', new_PartitionRing [js "b"; js "c"] 1 = Ok ring
    ∧ recompute [MkMember (js "b") 0 true false; MkMember (js "c") 0 true false]
        (coord_sample "b" ["b"; "c"] 3) = Ok (t, s')
    ∧ recompute [MkMember (js "b") 0 true false; MkMember (js "c") 0 true false] s' = Ok (t, s').
Proof.
  destruct (new_PartitionRing [js "b"; js "c"] 1) as [ring|e] eqn:Hr; [|by vm_compute in Hr].
  destruct (recompute_stable (coord_sample "b" ["b"; "c"] 3)
    [MkMember (js "b") 0 true false; MkMember (js "c") 0 true false] ring) as (t & s' & H1 & _ & _ & _ & _ & H2);
    [by apply coord_sample_ok|reflexivity|exact Hr|].
  exists ring, t, s'. split; [reflexivity|]. split; [exact H1|exact H2].
Defined.

Lemma push_settles_table_witness :
  ∃ body reply s',
    encodeMessage (Table (toWire (MkTable 2 [[js "a"]]))) = Ok body
    ∧ coord_receive (js "a") body (coord_sample "c" ["a"; "c"] 3) = (Ok reply, s')
    ∧ decodeTable reply = Ok (Some (MkTable 3 [[js "c"]])).
Proof.
  destruct (encodeMessage (Table (toWire (MkTable 2 [[js "a"]])))) as [body|] eqn:Hb;
    [|by vm_compute in Hb].
  destruct (push_settles_table (coord_sample "c" ["a"; "c"] 3) (js "a") (MkTable 2 [[js "a"]]) body)
    as (reply & s' & H & Hcase); [by apply coord_sample_ok| |reflexivity| |exact Hb|reflexivity| | |].
  - split; [done|done|]. intros os ->%list_elem_of_singleton. split; [done|apply NoDup_singleton].
  - split; [|by eexists]. repeat constructor; vm_compute; try reflexivity; discriminate.
  - split; [|eexists; vm_compute; reflexivity].
    repeat constructor; vm_compute; try reflexivity; discriminate.
  - intros held E. cbn in E. injection E as <-. split; [|eexists; vm_compute; reflexivity].
    repeat constructor; vm_compute; try reflexivity; discriminate.
  - exists body, reply, s'. split; [reflexivity|]. split; [exact H|].
    destruct Hcase as [[_ Ht]|(held & _ & Hd & _ & Hh & _)].
    + exfalso. pose proof (f_equal (λ x, c_table x.2) H) as E. cbn [snd] in E. rewrite Ht in E.
      vm_compute in Hb. injection Hb as <-. vm_compute in E. discriminate E.
    + cbn in Hh. injection Hh as <-. exact Hd.
Defined.

(** Node [a], coordinator while the older [o] is unreachable, pushes to [c], which
    holds a newer table; before the answer arrives [o] is back, is the coordinator
    of [a]'s view and pushes its table, which [a] adopts. *)
Definition deposed_schedule : list (@move Coordinator unit) :=
  [DoClient (js "a") rebalance; DoAwait 0; DoAwait 0; DoAwait 0; DoCollect 0; DoDeliver 0;
   DoAwait 0; DoAnswer 0;
   DoEnv (js "a") (view_changed (c_members (coord_sample "o" ["o"; "a"; "c"] 7)) []);
   DoClient (js "o") rebalance; DoAwait 0; DoAwait 0; DoAwait 0; DoCollect 0; DoDeliver 0;
   DoAwait 0; DoAnswer 0].

(** The answer of [c] then reaches [a]. *)
Definition resume_schedule : list (@move Coordinator unit) :=
  [DoReply 1 1; DoResume 1; DoAwait 1; DoAwait 1].

Definition fork_world : gmap jsstring (option Coordinator) :=
  list_to_map [(js "o", Some (coord_sample "o" ["o"; "a"; "c"] 7));
               (js "a", Some (coord_sample "a" ["a"; "c"] 1));
               (js "c", Some (coord_sample "c" ["a"; "c"] 3))].

Definition version_at (n : jsstring) (c : @cluster Coordinator unit) : option (option jsstring * Z) :=
  match nodes c !! n with
  | Some (Some s) => Some (coordinatorName s, maxVersion s)
  | _ => None
  end.

(** A deposed coordinator can fall back to an older table.  There is an execution
    in which a node has adopted version 8 from the member its view makes coordinator
    and afterwards holds version 3: it was waiting, from its own spell as coordinator,
    for the answers to a push, and one of them reveals a table that superseded the one
    pushed but not the one adopted since. *)
Theorem deposed_coordinator_regresses :
  (∀ n s, fork_world !! n = Some (Some s) → coord_ok s)
  ∧ ∃ c1 c2, reachable coord_serve coord_client coord_env fork_world c1
    ∧ rtc (step coord_serve coord_client coord_env) c1 c2
    ∧ version_at (js "a") c1 = Some (Some (js "o"), 8)
    ∧ version_at (js "a") c2 = Some (Some (js "o"), 3).
Proof.
  split.
  { intros n s H. apply elem_of_list_to_map_2 in H. unfold fork_world in H.
    apply list_elem_of_In in H as [E|[E|[E|[]]]]; apply pair_equal_spec in E as [_ E];
      apply (inj Some) in E; subst s; by apply coord_sample_ok. }
  assert (Forall (move_ok coord_client coord_env) deposed_schedule) as Hm1.
  { unfold deposed_schedule. rewrite !Forall_cons, Forall_nil. cbn [move_ok].
    repeat match goal with |- _ ∧ _ => split | |- True => exact I | |- coord_client _ _ => reflexivity end.
    intros s. unfold coord_env. eauto. }
  assert (version_at (js "a") <$> schedule coord_serve deposed_schedule (initial fork_world)
    = Some (Some (Some (js "o"), 8))) as E1 by (vm_compute; reflexivity).
  assert (version_at (js "a") <$>
    (schedule coord_serve deposed_schedule (initial fork_world) ≫= schedule coord_serve resume_schedule)
    = Some (Some (Some (js "o"), 3))) as E2 by (vm_compute; reflexivity).
  destruct (schedule coord_serve deposed_schedule (initial fork_world)) as [c1|] eqn:H1;
    [|discriminate E1].
  change (Some c1 ≫= schedule coord_serve resume_schedule) with (schedule coord_serve resume_schedule c1) in E2.
  destruct (schedule coord_serve resume_schedule c1) as [c2|] eqn:H2; [|discriminate E2].
  exists c1, c2. split; [exact (schedule_reachable _ _ _ _ _ _ Hm1 H1)|].
  split; [apply (schedule_rtc _ _ _ resume_schedule); [repeat constructor|exact H2]|].
  split; [exact (inj Some _ _ E1)|exact (inj Some _ _ E2)].
Qed.
