(* ===== verification/AntiEntropy.v ===== *)
(** * Bucketed-digest anti-entropy ([src/kv/anti.entropy.ts])

    Two replicas of a partition compare one digest, then the digests of its repair
    buckets, then the key versions of the buckets that differ, and exchange the
    records one of them is missing or holds an older version of. *)
From S2P Require Import Prelude JsNumber JsString Hash Hlc Entry Partition Store Ports Engine.
From S2P Require Import Double Ring RoutingTable ByteIO KvWire KvCodec Fragment.

Record SyncPlan := MkPlan { plan_push : list Entry; plan_pull : list jsstring }.

Definition decodeOrUndefined (bytes : list Z) : option KvMessage :=
  match decodeMessage bytes with Ok m => Some m | Throw _ => None end.

Definition digestsEqual (left right : DigestLanes) : bool :=
  (hi left =? hi right) && (lo left =? lo right).

(** [new Set(items)], in insertion order. *)
Definition js_set {A} `{EqDecision A} (items : list A) : list A :=
  foldl (λ s x, set_add x s) [] items.

(** ** The responder *)

Definition serveDigest (e : Engine) (partition : Z) (theirDigest : DigestLanes) : result (list Z) :=
  let digests := if digestsEqual (partitionDigest e partition) theirDigest then []
                 else engine_bucketDigests e partition in
  encodeMessage (BucketDigests partition digests).

Definition serveKeyVersions (e : Engine) (partition : Z) (buckets : list Z) : result (list Z) :=
  encodeMessage (KeyVersions partition (engine_keyVersions e partition (js_set buckets))).

Definition serveEntries (e : Engine) (partition : Z) (keys : list jsstring) : result (list Z) :=
  encodeMessage (FragmentChunk
    (MkChunk partition true (engine_entriesFor e partition (js_set keys)))).

Definition sync_receive (e : Engine) (body : list Z) : result (list Z) :=
  let! message := decodeMessage body in
  match message with
  | SyncDigest partition digest => serveDigest e partition digest
  | KeyVersionsRequest partition buckets => serveKeyVersions e partition buckets
  | EntriesRequest partition keys => serveEntries e partition keys
  | _ => Throw (KvProtocolError "anti-entropy received an unexpected message")
  end.

(** ** The initiator *)

(** [#ask]: a carrier maps a request to the reply it brings, or to nothing. *)
Definition ask (carrier : list Z → option (list Z)) (body : list Z) : option KvMessage :=
  carrier body ≫= decodeOrUndefined.

(** The loop of [#divergentBuckets] over the two digest lists. *)
Fixpoint differing (bucket : Z) (localBuckets peerBuckets : list DigestLanes) : list Z :=
  match localBuckets, peerBuckets with
  | l :: ls, p :: ps =>
      if digestsEqual l p then differing (bucket + 1) ls ps
      else bucket :: differing (bucket + 1) ls ps
  | _, _ => []
  end.

(** [#divergentBuckets] from the answer on: [e] is the engine when it arrives. *)
Definition divergentBuckets (answer : option KvMessage) (e : Engine) (partition : Z)
    : option (list Z) :=
  match answer with
  | Some (BucketDigests _ peerBuckets) =>
      match peerBuckets with
      | [] => Some []
      | _ =>
          let localBuckets := engine_bucketDigests e partition in
          if negb (Nat.eqb (length peerBuckets) (length localBuckets)) then None
          else Some (differing 0 localBuckets peerBuckets)
      end
  | _ => None
  end.

Definition peerVersions (answer : option KvMessage) : option (list (jsstring * HybridTime)) :=
  match answer with
  | Some (KeyVersions _ versions) =>
      Some (foldl (λ m v, jm_set (kv_key v) (kv_timestamp v) m) [] versions)
  | _ => None
  end.

(** One turn of the first loop of [#plan] over [(pushKeys, pull, localSeen)]. *)
Definition plan_step (versions : list (jsstring * HybridTime))
    (st : list jsstring * list jsstring * list jsstring) (v : KeyVersion)
    : list jsstring * list jsstring * list jsstring :=
  let '(pushKeys, pull, localSeen) := st in
  let localSeen := set_add (kv_key v) localSeen in
  match jm_get (kv_key v) versions with
  | None => (set_add (kv_key v) pushKeys, pull, localSeen)
  | Some peerTimestamp =>
      let order := compareHybrid (kv_timestamp v) peerTimestamp in
      if 0 <? order then (set_add (kv_key v) pushKeys, pull, localSeen)
      else if order <? 0 then (pushKeys, set_add (kv_key v) pull, localSeen)
      else (pushKeys, pull, localSeen)
  end.

Definition plan (e : Engine) (partition : Z) (buckets : list Z)
    (versions : list (jsstring * HybridTime)) : SyncPlan :=
  let '(pushKeys, pull, localSeen) :=
    foldl (plan_step versions) ([], [], []) (engine_keyVersions e partition buckets) in
  let pull := foldl (λ pull k, if bool_decide (k ∈ localSeen) then pull else set_add k pull)
                pull (jm_keys versions) in
  MkPlan (engine_entriesFor e partition pushKeys) pull.

Definition sync_pull (carrier : list Z → option (list Z)) (meanwhile : Engine → Engine)
    (e : Engine) (partition : Z) (keys : list jsstring) : result Engine :=
  let! request := encodeMessage (EntriesRequest partition keys) in
  let e := meanwhile e in
  match ask carrier request with Some (FragmentChunk chunk) => applyChunk e chunk | _ => Ok e end.

(** The end of [sync], once the plan is made. *)
Definition exchange (fuel : nat) (carrier : list Z → option (list Z)) (meanwhile : Engine → Engine)
    (acknowledged : nat → FragmentChunkWire → result bool) (e : Engine) (partition : Z) (resolved : SyncPlan)
    : option (result (list FragmentChunkWire * Engine)) :=
  match match plan_pull resolved with
        | [] => Ok e
        | keys => sync_pull carrier meanwhile e partition keys
        end with
  | Throw err => Some (Throw err)
  | Ok e =>
      match plan_push resolved with
      | [] => Some (Ok ([], e))
      | entries =>
          outcome ← pushEntries fuel acknowledged partition entries;
          Some (let! (_, sent) := outcome in Ok (sent, e))
      end
  end.

(** [sync]: [carrier i] carries the [i]-th round trip, [meanwhile i] is what else the
    engine does during it, [acknowledged] answers the pushed chunks.  The chunks
    pushed and the engine afterwards; [None] only when the fuel of the push runs out. *)
Definition sync (fuel : nat) (carrier : nat → list Z → option (list Z))
    (meanwhile : nat → Engine → Engine) (acknowledged : nat → FragmentChunkWire → result bool)
    (e : Engine) (partition : Z) : option (result (list FragmentChunkWire * Engine)) :=
  match encodeMessage (SyncDigest partition (partitionDigest e partition)) with
  | Throw err => Some (Throw err)
  | Ok request =>
      let e := meanwhile 0%nat e in
      match divergentBuckets (ask (carrier 0%nat) request) e partition with
      | None | Some [] => Some (Ok ([], e))
      | Some divergent =>
          match encodeMessage (KeyVersionsRequest partition divergent) with
          | Throw err => Some (Throw err)
          | Ok request =>
              let e := meanwhile 1%nat e in
              match peerVersions (ask (carrier 1%nat) request) with
              | None => Some (Ok ([], e))
              | Some versions =>
                  exchange fuel (carrier 2%nat) (meanwhile 2%nat) acknowledged e partition
                    (plan e partition divergent versions)
              end
          end
      end
  end.

(** ** Sets, digests and versions *)

Lemma NoDup_set_add {A} `{EqDecision A} (x : A) s : NoDup s → NoDup (set_add x s).
Proof.
  intros H. unfold set_add. destruct (decide (x ∈ s)); [done|].
  apply NoDup_app. split; [done|]. split; [set_solver|apply NoDup_singleton].
Qed.

Lemma js_set_spec {A} `{EqDecision A} (l : list A) :
  NoDup (js_set l) ∧ ∀ x, x ∈ js_set l ↔ x ∈ l.
Proof.
  unfold js_set. induction l as [|y l IH] using rev_ind; [split; [constructor|done]|].
  rewrite foldl_app. cbn [foldl]. destruct IH as [IH1 IH2].
  split; [by apply NoDup_set_add|]. intros x. rewrite elem_set_add, IH2. set_solver.
Qed.

Lemma digestsEqual_spec a b : digestsEqual a b = true ↔ a = b.
Proof.
  unfold digestsEqual. rewrite andb_true_iff, !Z.eqb_eq. destruct a, b; cbn. naive_solver.
Qed.

Lemma elem_differing b ls ps i :
  length ls = length ps →
  i ∈ differing b ls ps ↔
  ∃ j : nat, i = b + Z.of_nat j ∧ (j < length ls)%nat ∧ ls !! j ≠ ps !! j.
Proof.
  revert b ps. induction ls as [|l ls IH]; intros b [|p ps] Hlen; try done; cbn [differing length].
  { split; [by intros ?%not_elem_of_nil|]. intros (j & _ & ? & _). lia. }
  injection Hlen as Hlen. specialize (IH (b + 1) ps Hlen).
  destruct (digestsEqual l p) eqn:E.
  - apply digestsEqual_spec in E as ->. rewrite IH. split.
    + intros (j & -> & Hj & Hne). exists (S j). cbn. split; [lia|]. split; [lia|done].
    + intros ([|j] & -> & Hj & Hne); [done|]. exists j. cbn in *. split; [lia|]. split; [lia|done].
  - rewrite elem_of_cons, IH. split.
    + intros [->|(j & -> & Hj & Hne)].
      * exists 0%nat. split; [lia|]. split; [lia|]. cbn. intros [= ->].
        by rewrite (proj2 (digestsEqual_spec p p)) in E.
      * exists (S j). cbn. split; [lia|]. split; [lia|done].
    + intros ([|j] & -> & Hj & Hne); [left; lia|right]. exists j. cbn in *.
      split; [lia|]. split; [lia|done].
Qed.

(** What an engine holds at a key of a partition. *)
Definition held (e : Engine) (p : Z) (k : jsstring) : option Entry :=
  if decide (home (store e) k = p) then content (store e) k else None.

Definition version_of (x : Entry) : KeyVersion := MkKeyVersion (key x) (timestamp x).

Lemma held_snapshot e p k x :
  store_inv (store e) → held e p k = Some x ↔ x ∈ snapshot (store e) p ∧ key x = k.
Proof.
  intros Hs. rewrite snapshot_spec by done. unfold held. split.
  - destruct (decide _); [|done]. intros H. pose proof (content_key _ _ _ Hs H) as Hk. by subst.
  - intros [[H Hh] <-]. by rewrite decide_True.
Qed.

Lemma engine_keyVersions_alt e p bs :
  engine_keyVersions e p bs
  = version_of <$> filter (λ x, repairBucket (key x) REPAIR_BUCKETS ∈ bs) (snapshot (store e) p).
Proof.
  unfold engine_keyVersions, store_keyVersions, snapshot.
  destruct (jm_get p (partitions (store e))); [apply keyVersions_alt|done].
Qed.

Lemma omap_step {A B} (g : A → option B) a l :
  omap g (a :: l) = match g a with Some b => b :: omap g l | None => omap g l end.
Proof. done. Qed.

Lemma engine_entriesFor_alt e p ks :
  store_inv (store e) → engine_entriesFor e p ks = omap (held e p) ks.
Proof.
  intros Hs. unfold engine_entriesFor, store_entriesFor.
  assert (∀ g, (∀ k, g k = held e p k) → omap g ks = omap (held e p) ks) as Hext.
  { intros g Hg. induction ks as [|k ks IH]; [done|]. by rewrite !omap_step, Hg, IH. }
  destruct (jm_get p (partitions (store e))) as [pt|] eqn:E.
  - rewrite entriesFor_alt. apply Hext. intros k. unfold held, content.
    destruct (decide (home (store e) k = p)) as [->|Hne]; [by rewrite E|].
    destruct (peek pt k) as [x|] eqn:Hx; [|done].
    destruct Hne. by eapply (st_parts _ Hs _ _ E).
  - rewrite <-(Hext (λ _, None)); [clear Hext; induction ks; [done|by rewrite omap_step]|].
    intros k. unfold held, content. destruct (decide _) as [->|]; [by rewrite E|done].
Qed.

(** The records looked up by distinct keys, at one key. *)
Lemma filter_omap_held (g : jsstring → option Entry) ks k :
  (∀ j x, g j = Some x → key x = j) → NoDup ks →
  filter (λ x, key x = k) (omap g ks) = if decide (k ∈ ks) then option_list (g k) else [].
Proof.
  intros Hg. induction ks as [|j ks IH]; intros Hnd; [done|].
  apply NoDup_cons in Hnd as [Hj Hnd]. specialize (IH Hnd). rewrite omap_step.
  destruct (decide (j = k)) as [->|Hne].
  - rewrite decide_True by left. rewrite decide_False in IH by done.
    destruct (g k) as [x|] eqn:E; [|done]. by rewrite filter_cons_True, IH by eauto.
  - transitivity (filter (λ x, key x = k) (omap g ks)).
    + destruct (g j) as [x|] eqn:E; [|done]. rewrite filter_cons_False; [done|].
      by rewrite (Hg _ _ E).
    + rewrite IH. destruct (decide (k ∈ ks)), (decide (k ∈ j :: ks)); set_solver.
Qed.

Lemma versions_map vs k t :
  NoDup (kv_key <$> vs) →
  jm_get k (foldl (λ m v, jm_set (kv_key v) (kv_timestamp v) m) [] vs) = Some t
  ↔ MkKeyVersion k t ∈ vs.
Proof.
  induction vs as [|v vs IH] using rev_ind; intros Hnd; [split; [done|by intros ?%not_elem_of_nil]|].
  rewrite fmap_app in Hnd. apply NoDup_app in Hnd as (Hnd & Hv & _).
  rewrite foldl_app. cbn [foldl]. rewrite jm_get_set, elem_of_app, list_elem_of_singleton.
  destruct (decide (k = kv_key v)) as [->|Hne].
  - split; [intros [= <-]; right; by destruct v|].
    intros [Hin|<-]; [|done]. destruct (Hv (kv_key v)); [|cbn; left].
    apply list_elem_of_fmap. exists (MkKeyVersion (kv_key v) t). done.
  - rewrite IH by done. split; [auto|]. intros [?|<-]; [done|]. by destruct Hne.
Qed.

(** What one side holds in the compared buckets. *)
Definition compared (e : Engine) (p : Z) (bs : list Z) (k : jsstring) : option Entry :=
  if decide (repairBucket k REPAIR_BUCKETS ∈ bs) then held e p k else None.

Lemma compared_version e p bs k t :
  store_inv (store e) →
  MkKeyVersion k t ∈ engine_keyVersions e p bs ↔
  ∃ x, compared e p bs k = Some x ∧ timestamp x = t.
Proof.
  intros Hs. rewrite engine_keyVersions_alt, list_elem_of_fmap. unfold compared. split.
  - intros (x & [= -> ->] & [Hb Hx]%list_elem_of_filter). rewrite decide_True by done.
    exists x. split; [|done]. by apply held_snapshot.
  - intros (x & Hx & <-). destruct (decide _) as [Hb|]; [|done].
    apply held_snapshot in Hx as [Hx <-]; [|done]. exists x. split; [done|].
    by apply list_elem_of_filter.
Qed.

Lemma NoDup_versions e p bs :
  store_inv (store e) → NoDup (kv_key <$> engine_keyVersions e p bs).
Proof.
  intros Hs. rewrite engine_keyVersions_alt, <-list_fmap_compose.
  eapply sublist_NoDup; [by apply (snapshot_nodup (store e) p)|].
  apply (fmap_sublist key), sublist_filter.
Qed.

(** ** The plan *)

Section plan.
Context (versions : list (jsstring * HybridTime)).

Definition wants_push (v : KeyVersion) : Prop :=
  ∀ t, jm_get (kv_key v) versions = Some t → time_lt t (kv_timestamp v).
Definition wants_pull (v : KeyVersion) : Prop :=
  ∃ t, jm_get (kv_key v) versions = Some t ∧ time_lt (kv_timestamp v) t.

Lemma plan_step_cases pu pl seen v :
  wants_push v ∧ ¬ wants_pull v
    ∧ plan_step versions (pu, pl, seen) v = (set_add (kv_key v) pu, pl, set_add (kv_key v) seen)
  ∨ ¬ wants_push v ∧ wants_pull v
    ∧ plan_step versions (pu, pl, seen) v = (pu, set_add (kv_key v) pl, set_add (kv_key v) seen)
  ∨ ¬ wants_push v ∧ ¬ wants_pull v
    ∧ plan_step versions (pu, pl, seen) v = (pu, pl, set_add (kv_key v) seen).
Proof.
  unfold plan_step, wants_push, wants_pull.
  destruct (jm_get (kv_key v) versions) as [t|].
  2: { left. split; [done|]. split; [by intros (? & ? & _)|done]. }
  pose proof (irreflexivity time_lt) as Hirr. pose proof (transitivity (R:=time_lt)) as Htr.
  destruct (compareHybrid_cases (kv_timestamp v) t) as [C|[C|C]]; rewrite C; cbn [Z.ltb Z.compare].
  - right; left. split; [|split; [|done]].
    + intros H. specialize (H t eq_refl). by destruct (Hirr _ (Htr _ _ _ H C)).
    + by exists t.
  - apply compareHybrid_eq in C as <-. right; right. split; [|split; [|done]].
    + intros H. by destruct (Hirr _ (H _ eq_refl)).
    + intros (? & [= <-] & H). by destruct (Hirr _ H).
  - apply compareHybrid_gt in C. left. split; [by intros ? [= <-]|]. split; [|done].
    intros (? & [= <-] & H). by destruct (Hirr _ (Htr _ _ _ H C)).
Qed.

(** The keys collected from the versions that satisfy [P]. *)
Definition collected (P : KeyVersion → Prop) (vs : list KeyVersion) (ks : list jsstring) : Prop :=
  NoDup ks ∧ ∀ k, k ∈ ks ↔ ∃ v, v ∈ vs ∧ kv_key v = k ∧ P v.

Lemma collected_add (P : KeyVersion → Prop) vs ks v :
  collected P vs ks → P v → collected P (vs ++ [v]) (set_add (kv_key v) ks).
Proof.
  intros [Hnd H] Hv. split; [by apply NoDup_set_add|]. intros k. rewrite elem_set_add, H.
  setoid_rewrite elem_of_app. setoid_rewrite list_elem_of_singleton. split.
  - intros [(x & ? & ? & ?)| ->]; eauto.
  - intros (x & [Hx| ->] & <- & ?); eauto.
Qed.

Lemma collected_skip (P : KeyVersion → Prop) vs ks v :
  collected P vs ks → ¬ P v → collected P (vs ++ [v]) ks.
Proof.
  intros [Hnd H] Hv. split; [done|]. intros k. rewrite H.
  setoid_rewrite elem_of_app. setoid_rewrite list_elem_of_singleton. split.
  - intros (x & ? & ? & ?). eauto.
  - intros (x & [Hx| ->] & <- & ?); [eauto|done].
Qed.

Lemma plan_fold vs :
  let '(pushKeys, pull, seen) := foldl (plan_step versions) ([], [], []) vs in
  collected wants_push vs pushKeys ∧ collected wants_pull vs pull
  ∧ ∀ k, k ∈ seen ↔ k ∈ kv_key <$> vs.
Proof.
  induction vs as [|v vs IH] using rev_ind.
  { cbn. assert (∀ P, collected P [] []) as H; [|done].
    split; [constructor|]. intros k. split; [by intros ?%not_elem_of_nil|].
    by intros (? & ?%not_elem_of_nil & _). }
  rewrite foldl_app. cbn [foldl]. destruct (foldl _ _ vs) as [[pu pl] seen].
  destruct IH as (H1 & H2 & H3).
  assert (∀ k, k ∈ set_add (kv_key v) seen ↔ k ∈ kv_key <$> (vs ++ [v])) as Hseen.
  { intros k. rewrite elem_set_add, H3, fmap_app, elem_of_app. cbn.
    by rewrite list_elem_of_singleton. }
  destruct (plan_step_cases pu pl seen v) as [(Hp & Hq & ->)|[(Hp & Hq & ->)|(Hp & Hq & ->)]];
    auto using collected_add, collected_skip.
Qed.

End plan.

Lemma unseen_fold (seen ks pull : list jsstring) :
  NoDup pull →
  NoDup (foldl (λ pull k, if bool_decide (k ∈ seen) then pull else set_add k pull) pull ks)
  ∧ ∀ k, k ∈ foldl (λ pull k, if bool_decide (k ∈ seen) then pull else set_add k pull) pull ks
      ↔ k ∈ pull ∨ k ∈ ks ∧ k ∉ seen.
Proof.
  revert pull. induction ks as [|j ks IH]; intros pull Hnd; cbn [foldl]; [set_solver|].
  case_bool_decide as Hj.
  - destruct (IH pull Hnd) as [? H]. split; [done|]. intros k. rewrite H. set_solver.
  - destruct (IH (set_add j pull) (NoDup_set_add _ _ Hnd)) as [? H]. split; [done|].
    intros k. rewrite H, elem_set_add. set_solver.
Qed.

Lemma compared_js_set e p bs k : compared e p (js_set bs) k = compared e p bs k.
Proof.
  unfold compared. destruct (js_set_spec bs) as [_ H].
  destruct (decide (_ ∈ js_set bs)) as [Hi|Hi], (decide (_ ∈ bs)) as [Hj|Hj]; try done;
    exfalso; [apply Hj, H, Hi|apply Hi, H, Hj].
Qed.

Lemma peer_version e p bs k :
  store_inv (store e) →
  jm_get k (foldl (λ m v, jm_set (kv_key v) (kv_timestamp v) m) []
    (engine_keyVersions e p (js_set bs))) = timestamp <$> compared e p bs k.
Proof.
  intros Hs. apply option_eq. intros t.
  rewrite versions_map by (by apply NoDup_versions). rewrite compared_version by done.
  rewrite compared_js_set. destruct (compared e p bs k); cbn; naive_solver.
Qed.

(** The newer side of a key: [x] is held here and the other side holds nothing as new. *)
Definition ahead (mine theirs : option Entry) : Prop :=
  ∃ x, mine = Some x ∧ ∀ y, theirs = Some y → supersedes x y = true.

Lemma plan_spec e q p bs :
  store_inv (store e) → store_inv (store q) →
  let versions := foldl (λ m v, jm_set (kv_key v) (kv_timestamp v) m) []
                    (engine_keyVersions q p (js_set bs)) in
  ∃ pushKeys, plan_push (plan e p bs versions) = omap (held e p) pushKeys ∧ NoDup pushKeys
    ∧ (∀ k, k ∈ pushKeys ↔ ahead (compared e p bs k) (compared q p bs k))
    ∧ NoDup (plan_pull (plan e p bs versions))
    ∧ ∀ k, k ∈ plan_pull (plan e p bs versions)
        ↔ ahead (compared q p bs k) (compared e p bs k).
Proof.
  intros He Hq versions. assert (∀ k, jm_get k versions = timestamp <$> compared q p bs k) as Hv
    by (intros; by apply peer_version). clearbody versions.
  unfold plan. pose proof (plan_fold versions (engine_keyVersions e p bs)) as H.
  destruct (foldl _ _ _) as [[pushKeys pull] seen]. destruct H as ([Hn1 H1] & [Hn2 H2] & H3).
  destruct (unseen_fold seen (jm_keys versions) pull Hn2) as [Hn4 H4].
  exists pushKeys. cbn [plan_push plan_pull]. split; [by apply engine_entriesFor_alt|].
  split; [done|]. assert (∀ v, v ∈ engine_keyVersions e p bs ↔
    ∃ x, compared e p bs (kv_key v) = Some x ∧ timestamp x = kv_timestamp v) as Hloc.
  { intros [k t]. by apply compared_version. }
  split; [|split; [done|]]; intros k.
  - rewrite H1. unfold wants_push, ahead. setoid_rewrite supersedes_spec. split.
    + intros (v & (x & Hx & Ht)%Hloc & <- & Hp). exists x. split; [done|].
      intros y Hy. rewrite Ht. apply Hp. by rewrite Hv, Hy.
    + intros (x & Hx & Hy). exists (MkKeyVersion k (timestamp x)). rewrite Hloc. cbn.
      split; [eauto|]. split; [done|]. intros t. rewrite Hv.
      intros (y & Hcy & ->)%fmap_Some. by apply Hy.
  - rewrite H4, H2, H3. unfold wants_pull, ahead. setoid_rewrite supersedes_spec. split.
    + intros [(v & (x & Hx & Ht)%Hloc & <- & t & Hgt & Hlt)|[Hk Hns]].
      * rewrite Hv in Hgt. apply fmap_Some in Hgt as (y & Hy & ->). exists y. split; [done|].
        intros x' Hx'. assert (x' = x) as -> by congruence. by rewrite Ht.
      * destruct (jm_get k versions) as [t|] eqn:Hg; [|by apply jm_get_None in Hg].
        rewrite Hv in Hg. apply fmap_Some in Hg as (y & Hy & ->). exists y. split; [done|].
        intros x Hx. destruct Hns. apply list_elem_of_fmap. exists (MkKeyVersion k (timestamp x)).
        split; [done|]. apply Hloc. cbn. eauto.
    + intros (y & Hy & Hx). destruct (compared e p bs k) as [x|] eqn:Hcx; [left|right].
      * exists (MkKeyVersion k (timestamp x)). rewrite Hloc. cbn. split; [eauto|]. split; [done|].
        exists (timestamp y). rewrite Hv, Hy. split; [done|]. by apply Hx.
      * split.
        -- destruct (decide (k ∈ jm_keys versions)) as [|Hn]; [done|].
           apply jm_get_None in Hn. by rewrite Hv, Hy in Hn.
        -- intros (v & -> & Hvin)%list_elem_of_fmap. apply Hloc in Hvin as (x & ? & _). congruence.
Qed.

(** ** The comparison over the wire *)

(** A message the codec accepts and returns unchanged. *)
Definition travels (m : KvMessage) : Prop :=
  ∃ bs, encodeMessage m = Ok bs ∧ decodeMessage bs = Ok m.

Lemma travels_ok m :
  (∃ bs : list Z, encodeBody m ([] : list Z) = Ok bs) → Forall text_ok (message_texts m) → travels m.
Proof.
  intros [bs E] Ht. exists bs. rewrite encode_append. split; [done|].
  apply decode_encode; [done|]. by rewrite encode_append.
Qed.

Lemma wr_list_total {A} (wr : A → list Z → result (list Z)) l w :
  (∀ x w, x ∈ l → ∃ w', wr x w = Ok w') → ∃ w', wr_list wr l w = Ok w'.
Proof.
  revert w. induction l as [|x l IH]; intros w H; cbn [wr_list]; [eauto|].
  destruct (H x w) as [w' ->]; [left|]. cbn [result_bind]. apply IH. intros y v Hy. apply H. by right.
Qed.

Definition lanes_u32 (d : DigestLanes) : Prop := is_u32 (hi d) ∧ is_u32 (lo d).

Lemma writeDigest_total d (w : list Z) : lanes_u32 d → ∃ w', writeDigest d w = Ok w'.
Proof. intros [Hh Hl]. unfold writeDigest. rewrite !assertU32_total by done. by eexists. Qed.

Lemma travels_SyncDigest p d : is_u32 p → lanes_u32 d → travels (SyncDigest p d).
Proof.
  intros Hp Hd. apply travels_ok; [|constructor]. cbn [encodeBody]. unfold writePartitionField.
  rewrite assertU32_total by done. by apply writeDigest_total.
Qed.

Lemma travels_BucketDigests p ds :
  is_u32 p → Z.of_nat (length ds) ≤ REPAIR_BUCKETS → (∀ d, d ∈ ds → lanes_u32 d) →
  travels (BucketDigests p ds).
Proof.
  intros Hp Hn Hd. apply travels_ok; [|constructor]. cbn [encodeBody]. unfold writePartitionField.
  rewrite assertU32_total by done. cbn [result_bind]. unfold writeDigests, wr_check.
  rewrite (proj2 (Z.ltb_ge _ _) Hn). apply wr_list_total. intros; by apply writeDigest_total, Hd.
Qed.

Lemma travels_KeyVersionsRequest p bs :
  is_u32 p → Z.of_nat (length bs) ≤ REPAIR_BUCKETS → (∀ b, b ∈ bs → is_u32 b) →
  travels (KeyVersionsRequest p bs).
Proof.
  intros Hp Hn Hb. apply travels_ok; [|constructor]. cbn [encodeBody]. unfold writePartitionField.
  rewrite assertU32_total by done. cbn [result_bind]. unfold writeBuckets, wr_check.
  rewrite (proj2 (Z.ltb_ge _ _) Hn). apply wr_list_total. intros b w Hin.
  rewrite assertU32_total by (by apply Hb). by eexists.
Qed.

Lemma travels_EntriesRequest p ks :
  is_u32 p → Z.of_nat (length ks) ≤ MAX_CHUNK_ENTRIES →
  (∀ k, k ∈ ks → ∃ x, wire_entry x ∧ key x = k) → travels (EntriesRequest p ks).
Proof.
  intros Hp Hn Hk. apply travels_ok.
  - cbn [encodeBody]. unfold writePartitionField.
    rewrite assertU32_total by done. cbn [result_bind]. unfold writeKeys, wr_check.
    rewrite (proj2 (Z.ltb_ge _ _) Hn). apply wr_list_total. intros k w Hin.
    destruct (Hk k Hin) as (x & Hx & <-). by apply wire_entry_key.
  - cbn [message_texts]. apply Forall_forall. intros k Hin.
    destruct (Hk k Hin) as (x & [[Hx _] _] & <-). done.
Qed.

Lemma wire_entry_time x (w : list Z) : wire_entry x → ∃ w', writeHybridTime (timestamp x) w = Ok w'.
Proof.
  intros [_ Hok]. unfold writeEntry in Hok.
  destruct (wr_check _ _); cbn [result_bind] in Hok; [|done].
  destruct (assertU64 _ _); cbn [result_bind] in Hok; [|done].
  destruct (match expiresAt x with Some _ => _ | None => _ end); cbn [result_bind] in Hok; [|done].
  destruct (writeKey _ _) as [w1|]; cbn [result_bind] in Hok; [|done].
  assert (is_ok (writeHybridTime (timestamp x) w1) = true) as Ht
    by (by destruct (writeHybridTime _ _)). clear Hok.
  unfold writeHybridTime, writeName in *.
  destruct (assertUnsignedInteger _ _); cbn [result_bind] in *; [|done].
  destruct (assertU32 _ _); cbn [result_bind] in *; [|done].
  do 3 (destruct (wr_check _ _); cbn [result_bind] in *; [|done]). eauto.
Qed.

Lemma travels_KeyVersions p (xs : list Entry) :
  is_u32 p → Z.of_nat (length xs) ≤ MAX_CHUNK_ENTRIES → (∀ x, x ∈ xs → wire_entry x) →
  travels (KeyVersions p (version_of <$> xs)).
Proof.
  intros Hp Hn Hx. apply travels_ok.
  - cbn [encodeBody]. unfold writePartitionField.
    rewrite assertU32_total by done. cbn [result_bind]. unfold writeKeyVersions, wr_check.
    rewrite length_fmap, (proj2 (Z.ltb_ge _ _) Hn). apply wr_list_total.
    intros v w (x & -> & Hin)%list_elem_of_fmap. cbn.
    destruct (wire_entry_key x w) as [w1 ->]; [by apply Hx|]. cbn. by apply wire_entry_time, Hx.
  - cbn [message_texts]. apply Forall_forall.
    intros t (v & Ht & (x & -> & Hin)%list_elem_of_fmap)%list_elem_of_bind.
    destruct (Hx x Hin) as [[Hk Hnd] _]. cbn in Ht.
    apply elem_of_cons in Ht as [->|Ht]; [done|]. by apply list_elem_of_singleton in Ht as ->.
Qed.

Lemma partitionDigest_u32 e p : lanes_u32 (partitionDigest e p).
Proof.
  unfold partitionDigest, store_digest.
  destruct (jm_get p (partitions (store e))) as [pt|]; [|done]. split; apply u32_range.
Qed.

Lemma length_engine_bucketDigests e p :
  length (engine_bucketDigests e p) = Z.to_nat REPAIR_BUCKETS.
Proof.
  unfold engine_bucketDigests, store_bucketDigests.
  destruct (jm_get p (partitions (store e))); [apply length_bucketDigests|apply length_replicate].
Qed.

Lemma engine_bucketDigests_u32 e p d :
  d ∈ engine_bucketDigests e p → lanes_u32 d.
Proof.
  unfold engine_bucketDigests, store_bucketDigests.
  destruct (jm_get p (partitions (store e))) as [pt|].
  - intros [i Hi]%list_elem_of_lookup.
    pose proof (lookup_lt_Some _ _ _ Hi) as Hlt. rewrite length_bucketDigests in Hlt.
    rewrite bucketDigests_lookup in Hi by (unfold REPAIR_BUCKETS in *; lia).
    apply (inj Some) in Hi as <-.
    split; cbn [hi lo]; apply xor_over_u32; [apply contribution_hi_u32|apply contribution_lo_u32].
  - intros [-> _]%elem_of_replicate. done.
Qed.

(** What a peer promises: whatever [receive] answers is the reply. *)
Class SyncServer (carrier : list Z → option (list Z)) (peer : Engine) : Prop :=
  sync_served : ∀ body reply, sync_receive peer body = Ok reply → carrier body = Some reply.

Lemma ask_served carrier peer m r `{!SyncServer carrier peer} :
  travels m → travels r →
  (∀ body, decodeMessage body = Ok m → sync_receive peer body = encodeMessage r) →
  ∃ body, encodeMessage m = Ok body ∧ ask carrier body = Some r.
Proof.
  intros (body & Henc & Hdec) (reply & Hr & Hrd) Hserve. exists body. split; [done|].
  unfold ask. rewrite (sync_served body reply) by (by rewrite Hserve). cbn.
  unfold decodeOrUndefined. by rewrite Hrd.
Qed.

(** ** One key on the two sides *)

Lemma lww_self x : lww (Some x) x = Some x.
Proof. cbn. by destruct (supersedes x x). Qed.

Lemma union_lww_same a : union_lww a a = a.
Proof. destruct a as [x|]; [apply lww_self|done]. Qed.

Lemma union_lww_ahead a b (moved : bool) :
  (moved = true ↔ ahead b a) →
  foldl lww a (if moved then option_list b else []) = union_lww a b.
Proof.
  intros H. destruct moved; [by destruct b|]. cbn. destruct b as [y|]; [|done]. cbn.
  destruct a as [x|]; cbn.
  - destruct (supersedes y x) eqn:E; [|done]. assert (false = true); [|done].
    apply H. exists y. split; [done|]. by intros ? [= <-].
  - assert (false = true); [|done]. apply H. by exists y.
Qed.

Lemma union_lww_comm a b :
  (∀ x y, a = Some x → b = Some y → timestamp x = timestamp y → x = y) →
  union_lww a b = union_lww b a.
Proof.
  intros H. destruct a as [x|], b as [y|]; cbn; try done.
  destruct (supersedes y x) eqn:E1, (supersedes x y) eqn:E2; try done.
  - apply supersedes_spec in E1, E2. destruct (irreflexivity time_lt (timestamp x)).
    by transitivity (timestamp y).
  - f_equal. apply H; [done..|]. apply not_true_iff_false in E1, E2.
    rewrite supersedes_spec in E1, E2. by destruct (time_lt_total (timestamp x) (timestamp y)) as [|[|]].
Qed.

(** The records moved for distinct keys, in any order, at one key. *)
Lemma filter_moved (g : jsstring → option Entry) ks l k :
  (∀ j x, g j = Some x → key x = j) → NoDup ks → l ≡ₚ omap g ks →
  filter (λ x, key x = k) l = if bool_decide (k ∈ ks) then option_list (g k) else [].
Proof.
  intros Hg Hnd Hl. apply (filter_Permutation (λ x, key x = k)) in Hl.
  rewrite (filter_omap_held g ks k Hg Hnd) in Hl.
  rewrite decide_bool_decide in Hl. destruct (bool_decide _); [|by apply Permutation_nil_r].
  destruct (g k); [by apply Permutation_singleton_r|by apply Permutation_nil_r].
Qed.

Lemma length_omap {A B} (g : A → option B) l : (length (omap g l) ≤ length l)%nat.
Proof. induction l as [|a l IH]; [done|]. rewrite omap_step. destruct (g a); cbn; lia. Qed.

Lemma NoDup_omap_keys (g : jsstring → option Entry) ks :
  (∀ j x, g j = Some x → key x = j) → NoDup ks → NoDup (key <$> omap g ks).
Proof.
  intros Hg. induction 1 as [|j ks Hj Hnd IH]; [constructor|]. rewrite omap_step.
  destruct (g j) as [x|] eqn:E; [|done]. rewrite fmap_cons. apply NoDup_cons. split; [|done].
  rewrite (Hg _ _ E). intros (y & -> & (i & Hi & Hy)%list_elem_of_omap)%list_elem_of_fmap.
  apply Hj. by rewrite (Hg _ _ Hy).
Qed.

Lemma held_key e p k x : store_inv (store e) → held e p k = Some x → key x = k.
Proof. intros Hs H. by apply held_snapshot in H as [_ ?]. Qed.

Lemma pushChunks_acked fuel p sorted :
  ∀ acked i afterKey outcome, (∀ j c, acked j c = Ok true) →
  pushChunks fuel acked i p sorted afterKey = Some outcome → ∃ sent, outcome = Ok (true, sent).
Proof.
  induction fuel as [|fuel IH]; intros acked i afterKey outcome Ha; cbn [pushChunks]; [done|].
  rewrite Ha. cbn [negb]. destruct (ch_final _); [intros [= <-]; by eexists|].
  intros (out & H & [= <-])%bind_Some. destruct (IH _ _ _ _ Ha H) as [sent ->]. by eexists.
Qed.

(** ** One pass *)

(** Digests that agree stand for fragments that agree; the lanes are 64 bits of
    hash, so this can fail, with the probability of a hash collision. *)
Record no_collision (e q : Engine) (p : Z) : Prop := {
  nc_partition : partitionDigest e p = partitionDigest q p →
    ∀ k, home (store e) k = p → content (store e) k = content (store q) k;
  nc_bucket : ∀ k, home (store e) k = p →
    engine_bucketDigests e p !! Z.to_nat (repairBucket k REPAIR_BUCKETS)
    = engine_bucketDigests q p !! Z.to_nat (repairBucket k REPAIR_BUCKETS) →
    content (store e) k = content (store q) k }.

Section pass.
Context (e q : Engine) (p : Z) (carrier : list Z → option (list Z)) `{!SyncServer carrier q}.
Context (He : store_inv (store e)) (Hq : store_inv (store q)) (Hp : is_u32 p).
Context (Hwq : ∀ x, x ∈ snapshot (store q) p → wire_entry x).
Context (Hle : Z.of_nat (length (snapshot (store e) p)) ≤ MAX_CHUNK_ENTRIES)
  (Hlq : Z.of_nat (length (snapshot (store q) p)) ≤ MAX_CHUNK_ENTRIES).

Lemma length_differing b ls ps : (length (differing b ls ps) ≤ length ls)%nat.
Proof.
  revert b ps. induction ls as [|l ls IH]; intros b [|d ps]; cbn [differing length]; try lia.
  specialize (IH (b + 1) ps). destruct (digestsEqual l d); cbn [length]; lia.
Qed.

Lemma divergentBuckets_served :
  no_collision e q p →
  ∃ body bs, encodeMessage (SyncDigest p (partitionDigest e p)) = Ok body
    ∧ divergentBuckets (ask carrier body) e p = Some bs
    ∧ Z.of_nat (length bs) ≤ REPAIR_BUCKETS ∧ (∀ b, b ∈ bs → is_u32 b)
    ∧ ∀ k, home (store e) k = p → repairBucket k REPAIR_BUCKETS ∉ bs →
        content (store e) k = content (store q) k.
Proof.
  intros [Hpart Hbucket].
  set (ds := if digestsEqual (partitionDigest q p) (partitionDigest e p) then []
             else engine_bucketDigests q p).
  assert (travels (BucketDigests p ds)) as Ht.
  { apply travels_BucketDigests; [done|..]; unfold ds; destruct (digestsEqual _ _).
    - done.
    - by rewrite length_engine_bucketDigests.
    - by intros ? ?%not_elem_of_nil.
    - intros d. apply engine_bucketDigests_u32. }
  destruct (ask_served carrier q (SyncDigest p (partitionDigest e p)) (BucketDigests p ds))
    as (body & Hb & Ha); [apply travels_SyncDigest; [done|apply partitionDigest_u32]|done| |].
  { intros body Hd. unfold sync_receive. by rewrite Hd. }
  exists body. rewrite Ha. unfold divergentBuckets, ds.
  destruct (digestsEqual (partitionDigest q p) (partitionDigest e p)) eqn:E.
  { exists []. apply digestsEqual_spec in E. split; [done|]. split; [done|]. split; [done|].
    split; [by intros ? ?%not_elem_of_nil|]. intros k Hk _. by apply Hpart. }
  pose proof (length_engine_bucketDigests q p) as Hlen.
  destruct (engine_bucketDigests q p) as [|d l] eqn:Eq; [done|].
  rewrite length_engine_bucketDigests, Hlen, Nat.eqb_refl. cbn [negb].
  eexists. split; [done|]. split; [done|].
  pose proof (length_differing 0 (engine_bucketDigests e p) (d :: l)) as Hld.
  rewrite length_engine_bucketDigests in Hld. unfold REPAIR_BUCKETS in *.
  split; [lia|].
  assert (length (engine_bucketDigests e p) = length (d :: l)) as Hll
    by (by rewrite length_engine_bucketDigests, Hlen).
  split.
  - intros b (j & -> & Hj & _)%(elem_differing _ _ _ _ Hll).
    rewrite length_engine_bucketDigests in Hj. unfold REPAIR_BUCKETS in Hj.
    unfold is_u32, W32. lia.
  - intros k Hk Hnot. apply Hbucket; [done|]. 
    destruct (decide (engine_bucketDigests e p !! Z.to_nat (repairBucket k 64)
      = (d :: l) !! Z.to_nat (repairBucket k 64))) as [|Hne]; [done|]. destruct Hnot.
    apply (elem_differing _ _ _ _ Hll). pose proof (repairBucket_range k 64 ltac:(lia)).
    exists (Z.to_nat (repairBucket k 64)).
    rewrite length_engine_bucketDigests. unfold REPAIR_BUCKETS. split; [lia|]. split; [lia|done].
Qed.

Lemma peerVersions_served bs :
  Z.of_nat (length bs) ≤ REPAIR_BUCKETS → (∀ b, b ∈ bs → is_u32 b) →
  ∃ body, encodeMessage (KeyVersionsRequest p bs) = Ok body
    ∧ peerVersions (ask carrier body)
      = Some (foldl (λ m v, jm_set (kv_key v) (kv_timestamp v) m) []
                (engine_keyVersions q p (js_set bs))).
Proof.
  intros Hn Hb.
  destruct (ask_served carrier q (KeyVersionsRequest p bs)
    (KeyVersions p (engine_keyVersions q p (js_set bs)))) as (body & Henc & Hask).
  - by apply travels_KeyVersionsRequest.
  - rewrite engine_keyVersions_alt. apply travels_KeyVersions; [done|..].
    + etransitivity; [|exact Hlq]. apply Nat2Z.inj_le, sublist_length, sublist_filter.
    + intros x [_ Hx]%list_elem_of_filter. by apply Hwq.
  - intros body Hd. unfold sync_receive. by rewrite Hd.
  - exists body. by rewrite Hask.
Qed.

Lemma pulled_entries ks :
  NoDup ks → (∀ k, k ∈ ks → is_Some (held q p k)) →
  sync_pull carrier id e p ks
  = Ok (set_store e (merge_all (store e) (omap (held q p) (js_set ks)))).
Proof.
  intros Hnd Hks. destruct (js_set_spec ks) as [Hnd' Hset].
  assert (∀ l : list jsstring, NoDup l → (∀ k, k ∈ l → k ∈ ks) →
    Z.of_nat (length l) ≤ MAX_CHUNK_ENTRIES) as Hcap.
  { intros l Hl Hsub. etransitivity; [|exact Hlq]. apply Nat2Z.inj_le.
    rewrite <-(length_fmap key (snapshot (store q) p)). apply submseteq_length, NoDup_submseteq; [done|].
    intros k [x Hx]%Hsub%Hks. apply held_snapshot in Hx as [Hx <-]; [|done]. by apply list_elem_of_fmap_2. }
  destruct (ask_served carrier q (EntriesRequest p ks)
    (FragmentChunk (MkChunk p true (engine_entriesFor q p (js_set ks))))) as (body & Henc & Hask).
  - apply travels_EntriesRequest; [done|by apply Hcap|].
    intros k [x Hx]%Hks. apply held_snapshot in Hx as [Hx <-]; [|done]. eauto.
  - apply chunk_roundtrip; cbn [ch_partitionId ch_entries]; [done|..];
      rewrite engine_entriesFor_alt by done.
    + etransitivity; [apply Nat2Z.inj_le, length_omap|]. apply Hcap; [done|]. intros k. apply Hset.
    + intros x (k & _ & Hx)%list_elem_of_omap. apply held_snapshot in Hx as [Hx _]; [|done]. by apply Hwq.
  - intros body Hd. unfold sync_receive. by rewrite Hd.
  - unfold sync_pull. rewrite Henc. cbn [result_bind]. rewrite Hask. unfold applyChunk. cbn [ch_entries].
    rewrite engine_entriesFor_alt by done. by apply merge_entries_spec.
Qed.

Lemma pushed_entries fuel acked ks :
  (∀ i c, acked i c = Ok true) → NoDup ks →
  (length (snapshot (store e) p) < fuel)%nat →
  ∃ sent, pushEntries fuel acked p (omap (held e p) ks) = Some (Ok (true, sent))
    ∧ sent ≫= ch_entries ≡ₚ omap (held e p) ks.
Proof.
  intros Ha Hnd Hfuel.
  assert (NoDup (key <$> omap (held e p) ks)) as Hk
    by (apply NoDup_omap_keys; [intros j x; by apply held_key|done]).
  assert (length (omap (held e p) ks) ≤ length (snapshot (store e) p))%nat as Hl.
  { apply submseteq_length, NoDup_submseteq; [by eapply NoDup_fmap_1|].
    intros x (k & _ & Hx)%list_elem_of_omap. by apply held_snapshot in Hx as [Hx _]. }
  set (l := omap (held e p) ks) in *.
  assert (length (sortByKey l) = length l) as Hsl by (by rewrite sortByKey_perm).
  destruct (pushChunks_spec fuel acked 0 p [] (sortByKey l)) as (outcome & E & Hout).
  - by apply sortByKey_strict.
  - cbn [app]. rewrite Hsl. unfold MAX_CHUNK_ENTRIES in Hle. lia.
  - lia.
  - cbn [app] in E. destruct (pushChunks_acked _ _ _ _ _ _ _ Ha E) as [sent ->]. destruct Hout as [_ (post & Hpost & Hall) _ _].
    exists sent. split; [exact E|]. rewrite <-(sortByKey_perm l), Hpost, (Hall eq_refl). by rewrite app_nil_r.
Qed.

Lemma exchange_ok fuel acked resolved pushes :
  (∀ i c, acked i c = Ok true) → (length (snapshot (store e) p) < fuel)%nat →
  NoDup (plan_pull resolved) → (∀ k, k ∈ plan_pull resolved → is_Some (held q p k)) →
  plan_push resolved = omap (held e p) pushes → NoDup pushes →
  ∃ sent, exchange fuel carrier id acked e p resolved
    = Some (Ok (sent, set_store e (merge_all (store e)
                        (omap (held q p) (js_set (plan_pull resolved))))))
    ∧ sent ≫= ch_entries ≡ₚ omap (held e p) pushes.
Proof.
  intros Ha Hfuel Hnl Hheld Hpush Hnp. unfold exchange.
  replace (match plan_pull resolved with [] => _ | _ => _ end) with
    (Ok (set_store e (merge_all (store e) (omap (held q p) (js_set (plan_pull resolved)))))).
  2: { destruct (plan_pull resolved) as [|k0 ks] eqn:Ek; [by destruct e|].
       symmetry. by apply pulled_entries. }
  destruct (pushed_entries fuel acked pushes Ha Hnp Hfuel) as (sent & E & Hsent).
  rewrite Hpush. destruct (omap (held e p) pushes) as [|x l]; [by exists []|].
  exists sent. by rewrite E.
Qed.

(** The pass: the buckets compared and the keys moved either way. *)
Lemma sync_ok fuel acked :
  no_collision e q p → (∀ i c, acked i c = Ok true) → (length (snapshot (store e) p) < fuel)%nat →
  ∃ bs pulls pushes sent e',
    sync fuel (λ _, carrier) (λ _ x, x) acked e p = Some (Ok (sent, e'))
    ∧ store e' = merge_all (store e) (omap (held q p) (js_set pulls))
    ∧ sent ≫= ch_entries ≡ₚ omap (held e p) pushes ∧ NoDup pushes
    ∧ (∀ k, k ∈ pulls ↔ ahead (compared q p bs k) (compared e p bs k))
    ∧ (∀ k, k ∈ pushes ↔ ahead (compared e p bs k) (compared q p bs k))
    ∧ ∀ k, home (store e) k = p → repairBucket k REPAIR_BUCKETS ∉ bs →
        content (store e) k = content (store q) k.
Proof.
  intros Hnc Ha Hfuel.
  destruct (divergentBuckets_served Hnc) as (b1 & bs & E1 & E2 & Hn & Hb & Hsame).
  unfold sync. rewrite E1, E2. destruct bs as [|b bs'].
  { exists [], [], [], [], e. split; [done|]. split; [done|]. split; [done|]. split; [constructor|].
    assert (∀ a c k, k ∈ ([] : list jsstring) ↔ ahead (compared a p [] k) (compared c p [] k)) as H.
    { intros a c k. split; [by intros ?%not_elem_of_nil|]. intros (x & Hx & _).
      unfold compared in Hx. rewrite decide_False in Hx; [done|apply not_elem_of_nil]. }
    auto. }
  set (bs := b :: bs') in *.
  destruct (peerVersions_served bs Hn Hb) as (b2 & E3 & E4). rewrite E3, E4.
  destruct (plan_spec e q p bs He Hq) as (pk & Hpush & Hnp & Hpk & Hnl & Hpl).
  set (resolved := plan e p bs _) in *.
  destruct (exchange_ok fuel acked resolved pk Ha Hfuel Hnl) as (sent & E5 & Hsent); [|done..|].
  { intros x (y & Hy & _)%Hpl. unfold compared in Hy. destruct (decide _); [by exists y|done]. }
  exists bs, (plan_pull resolved), pk. eexists _, _. split; [exact E5|]. auto 10.
Qed.

End pass.

(** Per key: what the two sides hold once the planned records have moved. *)
Lemma pass_key e q p bs pulls l k :
  store_inv (store e) → store_inv (store q) → partitionCount (store e) = partitionCount (store q) →
  NoDup pulls → (∀ k, k ∈ pulls ↔ ahead (compared q p bs k) (compared e p bs k)) →
  (∀ k, home (store e) k = p → repairBucket k REPAIR_BUCKETS ∉ bs →
     content (store e) k = content (store q) k) →
  l ≡ₚ omap (held q p) pulls →
  content (merge_all (store e) l) k
  = if decide (home (store e) k = p) then union_lww (content (store e) k) (content (store q) k)
    else content (store e) k.
Proof.
  intros He Hq Hc Hnd Hpull Hsame Hl. rewrite content_merge_all by done.
  rewrite (filter_moved (held q p) pulls) by (done || (intros j x; by apply held_key)).
  assert (home (store q) k = home (store e) k) as Hhome by (unfold home; by rewrite Hc).
  assert (∀ b, b = content (store q) k → union_lww (content (store e) k) b
    = union_lww (content (store e) k) (content (store q) k)) as Heq by (by intros ? ->).
  destruct (decide (home (store e) k = p)) as [Hk|Hk].
  - destruct (decide (repairBucket k REPAIR_BUCKETS ∈ bs)) as [Hb|Hb].
    + rewrite union_lww_ahead; [apply Heq; unfold held; by rewrite decide_True by congruence|].
      rewrite bool_decide_eq_true, Hpull. unfold compared, held.
      rewrite !(decide_True _ _ Hb), !decide_True by congruence. done.
    + rewrite bool_decide_false.
      * rewrite <-(Hsame k Hk Hb), union_lww_same. done.
      * rewrite Hpull. unfold compared. rewrite (decide_False (P:=_ ∈ bs)) by done.
        by intros (x & ? & _).
  - rewrite bool_decide_false; [done|]. rewrite Hpull. unfold compared, held.
    rewrite (decide_False (P:=home (store q) k = p)) by congruence.
    intros (x & Hx & _). by destruct (decide (_ ∈ bs)).
Qed.

(** C7: an undisturbed anti-entropy pass converges: when the peer answers and
    acknowledges, the pass ends, and both replicas then hold, at every key of the
    partition, the newer of the two records they held, and are unchanged elsewhere,
    over the wire codec and through digest, bucket, version and record exchange,
    provided equal digests mean equal fragments and one timestamp names one write. *)
Theorem sync_converges e q p carrier acked fuel `{!SyncServer carrier q} :
  store_inv (store e) → store_inv (store q) →
  partitionCount (store e) = partitionCount (store q) → is_u32 p →
  (∀ x, x ∈ snapshot (store e) p ++ snapshot (store q) p → wire_entry x) →
  Z.of_nat (length (snapshot (store e) p)) ≤ MAX_CHUNK_ENTRIES →
  Z.of_nat (length (snapshot (store q) p)) ≤ MAX_CHUNK_ENTRIES →
  coherent (snapshot (store e) p ++ snapshot (store q) p) → no_collision e q p →
  (∀ i c, acked i c = Ok true) → (length (snapshot (store e) p) < fuel)%nat →
  ∃ sent e' q', sync fuel (λ _, carrier) (λ _ x, x) acked e p = Some (Ok (sent, e'))
    ∧ apply_chunks q sent = Ok q'
    ∧ ∀ k,
        content (store e') k
        = (if decide (home (store e) k = p)
           then union_lww (content (store e) k) (content (store q) k) else content (store e) k)
        ∧ content (store q') k
        = (if decide (home (store e) k = p)
           then union_lww (content (store e) k) (content (store q) k) else content (store q) k).
Proof.
  intros He Hq Hc Hp Hw Hle Hlq Hcoh Hnc Hack Hfuel. setoid_rewrite elem_of_app in Hw.
  destruct (sync_ok e q p carrier He Hq Hp (λ x H, Hw x (or_intror H)) Hle Hlq fuel acked Hnc Hack Hfuel)
    as (bs & pulls & pushes & sent & e' & Hsync & Hstore & Hsent & Hnd & Hpl & Hpu & Hsame).
  destruct (apply_chunks_spec q sent Hq) as [Happ _].
  exists sent, e'. eexists. split; [exact Hsync|]. split; [exact Happ|]. intros k. cbn [store set_store].
  destruct (js_set_spec pulls) as [Hnd' Hset].
  split.
  - rewrite Hstore. apply (pass_key e q p bs (js_set pulls)); [done..| |done|done].
    intros j. by rewrite Hset, Hpl.
  - assert (∀ j, home (store q) j = home (store e) j) as Hh by (intros; unfold home; by rewrite Hc).
    rewrite (pass_key q e p bs pushes _ k); [|done..|by intros j; rewrite Hh; intros; symmetry; apply Hsame|done].
    rewrite Hh. destruct (decide _) as [Hk|]; [|done]. apply union_lww_comm. intros y x Hy Hx Ht.
    assert (y ∈ snapshot (store q) p ∧ x ∈ snapshot (store e) p) as [Hy' Hx'].
    { rewrite !snapshot_spec by done. pose proof (content_key _ _ _ Hq Hy) as Ky.
      pose proof (content_key _ _ _ He Hx) as Kx. rewrite Ky, Kx, Hh. done. }
    apply Hcoh; [apply elem_of_app; by right|apply elem_of_app; by left| |done].
    by rewrite (content_key _ _ _ Hq Hy), (content_key _ _ _ He Hx).
Qed.

(** ** Witness *)

Definition sync_carrier (peer : Engine) (body : list Z) : option (list Z) :=
  match sync_receive peer body with Ok reply => Some reply | Throw _ => None end.

#[global] Instance sync_carrier_serves peer : SyncServer (sync_carrier peer) peer.
Proof. intros body reply H. unfold sync_carrier. by rewrite H. Qed.

Definition sync_sample (es : list Entry) : Engine :=
  MkEngine (merge_all (MkStore 1 [] 0) es) (MkClock (js "n") 0 0) [].

Lemma sync_sample_inv es : store_inv (store (sync_sample es)).
Proof. apply merge_all_inv. by apply (new_Store_inv 1). Qed.

Lemma sync_sample_absent es k :
  forallb (λ x, negb (bool_decide (key x = k))) es = true → content (store (sync_sample es)) k = None.
Proof.
  intros H. cbn [store sync_sample]. rewrite content_merge_all by (by apply (new_Store_inv 1)).
  rewrite filter_none; [done|]. intros x Hx%list_elem_of_In Hk.
  rewrite forallb_forall in H. apply H in Hx. by rewrite bool_decide_true in Hx.
Qed.

Definition sync_left : Engine := sync_sample [sample_entry "a" 5 false; sample_entry "b" 6 true].
Definition sync_right : Engine := sync_sample [sample_entry "a" 5 false; sample_entry "c" 7 false].

Lemma sync_samples_no_collision : no_collision sync_left sync_right 0.
Proof.
  split.
  - intros E. exfalso. vm_compute in E. discriminate E.
  - intros k _. destruct (decide (k = js "a")) as [->|Ha]; [intros _; vm_compute; reflexivity|].
    destruct (decide (k = js "b")) as [->|Hb]; [intros E; exfalso; vm_compute in E; discriminate E|].
    destruct (decide (k = js "c")) as [->|Hc]; [intros E; exfalso; vm_compute in E; discriminate E|].
    intros _. unfold sync_left, sync_right.
    rewrite !sync_sample_absent; [done|..]; cbn [forallb key sample_entry];
      by rewrite !bool_decide_false by done.
Qed.

Lemma sync_converges_witness :
  ∃ sent e' q',
    sync 4 (λ _, sync_carrier sync_right) (λ _ x, x) (λ _ _, Ok true) sync_left 0 = Some (Ok (sent, e'))
    ∧ apply_chunks sync_right sent = Ok q'
    ∧ content (store e') (js "c") = Some (sample_entry "c" 7 false)
    ∧ content (store q') (js "b") = Some (sample_entry "b" 6 true).
Proof.
  destruct (sync_converges sync_left sync_right 0 (sync_carrier sync_right) (λ _ _, Ok true) 4)
    as (sent & e' & q' & H1 & H2 & H3).
  - apply sync_sample_inv.
  - apply sync_sample_inv.
  - reflexivity.
  - split; reflexivity.
  - intros x Hx. apply list_elem_of_In in Hx. vm_compute in Hx.
    destruct Hx as [<-|[<-|[<-|[<-|[]]]]]; (split; [split|vm_compute; reflexivity]);
      (split; [apply units_check; reflexivity|reflexivity]).
  - vm_compute. discriminate.
  - vm_compute. discriminate.
  - intros x y Hx Hy. apply list_elem_of_In in Hx, Hy. vm_compute in Hx, Hy.
    destruct Hx as [<-|[<-|[<-|[<-|[]]]]], Hy as [<-|[<-|[<-|[<-|[]]]]];
      intros Hk; try reflexivity; vm_compute in Hk; discriminate Hk.
  - apply sync_samples_no_collision.
  - reflexivity.
  - vm_compute. lia.
  - exists sent, e', q'. split; [exact H1|]. split; [exact H2|]. split.
    + rewrite (proj1 (H3 (js "c"))). vm_compute. reflexivity.
    + rewrite (proj2 (H3 (js "b"))). vm_compute. reflexivity.
Defined.
