(* ===== verification/Recovery.v ===== *)
(** * Departure and recovery ([src/kv/recovery.ts])

    What a node moves when a routing table is installed: a promoted primary whose
    predecessor died unions the fragments of the surviving backups, a primary refills
    the backups the ring has added, a demoted owner drains its fragment to the new
    primary, and a node away too long re-seeds. *)
From S2P Require Import Prelude JsNumber JsString Hash Hlc Entry Partition Store Ports Engine.
From S2P Require Import Double Ring RoutingTable Async ByteIO KvWire KvCodec Fragment.
From S2P Require Import Replication.

(** ** State and planning *)

(** [rc_members] is what the membership view answers. *)
Record Recovery := MkRecovery {
  rc_self : jsstring;
  rc_members : list ClusterMember;
  rc_replicaCount : Z;
  rc_recovering : list Z;
  rc_table : option RoutingTable;
  rc_ring : option PartitionRing }.

Definition new_Recovery (me : jsstring) (members : list ClusterMember) (replicas : option Z) : Recovery :=
  MkRecovery me members (default DEFAULT_REPLICA_COUNT replicas) [] None None.

(** [CrashPromotion]: a partition and its placement under the new table. *)
Definition CrashPromotion : Type := Z * PartitionPlacement.

Definition rc_isRecovering (s : Recovery) (partition : Z) : bool :=
  bool_decide (partition ∈ rc_recovering s).

Definition isLive (s : Recovery) (name : jsstring) : bool :=
  existsb (λ m, bool_decide (m_name m = name)) (rc_members s).

Definition isCrashPromotion (s : Recovery) (previous : option RoutingTable) (partition : Z)
    (placement : PartitionPlacement) : result bool :=
  if bool_decide (pp_primary placement ≠ rc_self s) || Nat.ltb 1 (length (pp_owners placement))
  then Ok false
  else match previous with
       | None => Ok false
       | Some previous =>
           let! priorPrimary := table_primary previous partition in
           if decide (priorPrimary = rc_self s) then Ok false else Ok (negb (isLive s priorPrimary))
       end.

(** The loop of [onTable]: the marks set so far, also when a turn throws. *)
Fixpoint onTable_loop (s : Recovery) (previous : option RoutingTable) (t : RoutingTable)
    (ring : PartitionRing) (marks : list Z) (promotions : list CrashPromotion) (refills ids : list Z)
    : result (list CrashPromotion * list Z) * list Z :=
  match ids with
  | [] => (Ok (promotions, refills), marks)
  | id :: ids' =>
      match placement t id ring (rc_replicaCount s) with
      | Throw e => (Throw e, marks)
      | Ok pl =>
          if decide (pp_primary pl ≠ rc_self s)
          then onTable_loop s previous t ring marks promotions refills ids'
          else match isCrashPromotion s previous id pl with
               | Throw e => (Throw e, marks)
               | Ok true => onTable_loop s previous t ring (set_add id marks)
                              (promotions ++ [(id, pl)]) refills ids'
               | Ok false => onTable_loop s previous t ring marks promotions (refills ++ [id]) ids'
               end
      end
  end.

(** [onTable] up to its first yield: the moves it starts and the state it leaves. *)
Definition onTable (s : Recovery) (t : RoutingTable) (ring : PartitionRing)
    : result (list CrashPromotion * list Z) * Recovery :=
  let '(moves, marks) :=
    onTable_loop s (rc_table s) t ring (rc_recovering s) [] [] (partition_ids (rt_partitionCount t)) in
  (moves, MkRecovery (rc_self s) (rc_members s) (rc_replicaCount s) marks (Some t) (Some ring)).

(** The end of [#recover]'s wait, whether it succeeded or not. *)
Definition unmark (s : Recovery) (partition : Z) : Recovery :=
  MkRecovery (rc_self s) (rc_members s) (rc_replicaCount s)
    (filter (λ p, p ≠ partition) (rc_recovering s)) (rc_table s) (rc_ring s).

Definition freshBackups (s : Recovery) (partition : Z) (previousRing : option PartitionRing)
    (ring : PartitionRing) : result (list jsstring) :=
  match previousRing with
  | None => Ok []
  | Some previousRing =>
      let! before := ring_backups previousRing partition (rc_replicaCount s) in
      let! backups := ring_backups ring partition (rc_replicaCount s) in
      Ok (filter (λ b, b ∉ before) backups)
  end.

(** ** Moves *)

(** [#refill]: [acknowledged b] answers the chunks pushed to backup [b]. *)
Definition refill (fuel : nat) (acknowledged : jsstring → nat → FragmentChunkWire → result bool)
    (s : Recovery) (e : Engine) (partition : Z) (previousRing : option PartitionRing)
    (ring : PartitionRing) : result (list (jsstring * option (result (bool * list FragmentChunkWire)))) :=
  let! fresh := freshBackups s partition previousRing ring in
  Ok ((λ b, (b, push fuel (acknowledged b) e partition)) <$> fresh).

(** [#recover]'s pulls, one per backup, each behind its own cursor; the scheduler
    interleaves them with each other and with the node's other work.  [rv_failed]
    is set when a pull throws, which ends the wait. *)
Record Reconcile := MkReconcile {
  rv_engine : Engine;
  rv_pulls : list (jsstring * option jsstring);
  rv_failed : bool }.

Definition recover_start (e : Engine) (placement : PartitionPlacement) : Reconcile :=
  MkReconcile e ((λ b, (b, None)) <$> pp_backups placement) false.

Inductive reconcile_step (net : jsstring → list Z → option (list Z)) (partition : Z)
    : Reconcile → Reconcile → Prop :=
  | pull_page e l1 b after l2 failed e' next :
      page_turn (requestPage (net b) partition after) applyChunk after e = Ok (e', next) →
      reconcile_step net partition (MkReconcile e (l1 ++ (b, after) :: l2) failed)
        (MkReconcile e' (l1 ++ (match next with Some k => [(b, Some k)] | None => [] end) ++ l2) failed)
  | pull_throws e l1 b after l2 failed err :
      page_turn (requestPage (net b) partition after) applyChunk after e = Throw err →
      reconcile_step net partition (MkReconcile e (l1 ++ (b, after) :: l2) failed)
        (MkReconcile e (l1 ++ l2) true)
  | other_write e pulls failed entry clk pipes :
      reconcile_step net partition (MkReconcile e pulls failed)
        (MkReconcile (MkEngine (store_merge (store e) entry) clk pipes) pulls failed).

(** The partitions [drain] moves: owned, not as primary. *)
Fixpoint drain_partitions (s : Recovery) (t : RoutingTable) (ids : list Z) : result (list Z) :=
  match ids with
  | [] => Ok []
  | id :: ids' =>
      let! owners := table_owners t id in
      let! rest := drain_partitions s t ids' in
      if bool_decide (last_owner owners ≠ rc_self s) && bool_decide (rc_self s ∈ owners)
      then Ok (id :: rest) else Ok rest
  end.

(** [#drainOne]: [meanwhile] is what else the engine does while the chunks travel. *)
Definition drainOne (fuel : nat) (acknowledged : nat → FragmentChunkWire → result bool)
    (meanwhile : Engine → Engine) (s : Recovery) (e : Engine) (partition : Z) (t : RoutingTable)
    (ring : PartitionRing) : option (result (bool * list FragmentChunkWire * Engine)) :=
  match table_primary t partition with
  | Throw err => Some (Throw err)
  | Ok _ =>
      outcome ← push fuel acknowledged e partition;
      let e := meanwhile e in
      Some (
        let! (pushed, sent) := outcome in
        if negb pushed then Ok (pushed, sent, e)
        else
          let! backups := ring_backups ring partition (rc_replicaCount s) in
          Ok (pushed, sent, if bool_decide (rc_self s ∈ backups) then e else engine_drop e partition))
  end.

Definition shouldReseed (awayMs : Z) : bool := TOMBSTONE_TTL_MS <? awayMs.

Definition reseed (fuel : nat) (request : nat → option jsstring → result (option FragmentChunkWire))
    (e : Engine) (partition : Z) : option (result Engine) :=
  pull fuel request (engine_drop e partition).

(** [drain]: the moves touch distinct partitions, so their interleaving does not
    show; they are taken in turn.  Whether all drained, and the engine afterwards. *)
Fixpoint drain_each (fuel : nat) (acknowledged : Z → nat → FragmentChunkWire → result bool)
    (meanwhile : Z → Engine → Engine) (s : Recovery) (e : Engine) (t : RoutingTable)
    (ring : PartitionRing) (ids : list Z) : option (result (list bool * Engine)) :=
  match ids with
  | [] => Some (Ok ([], e))
  | id :: ids' =>
      r ← drainOne fuel (acknowledged id) (meanwhile id) s e id t ring;
      match r with
      | Throw err => Some (Throw err)
      | Ok (pushed, _, e) =>
          r ← drain_each fuel acknowledged meanwhile s e t ring ids';
          Some (let! (drained, e) := r in Ok (pushed :: drained, e))
      end
  end.

Definition drain (fuel : nat) (acknowledged : Z → nat → FragmentChunkWire → result bool)
    (meanwhile : Z → Engine → Engine) (s : Recovery) (e : Engine) (t : RoutingTable)
    (ring : PartitionRing) : option (result (bool * Engine)) :=
  match drain_partitions s t (partition_ids (rt_partitionCount t)) with
  | Throw err => Some (Throw err)
  | Ok ids =>
      r ← drain_each fuel acknowledged meanwhile s e t ring ids;
      Some (let! (drained, e) := r in Ok (forallb id drained, e))
  end.

(** ** Covering a record *)

(** The engine holds the record or one at least as new. *)
Definition holds_of (e : Engine) (x : Entry) : Prop :=
  ∃ y, content (store e) (key x) = Some y ∧ supersedes x y = false.

Lemma lww_covers o y x :
  (∃ z, o = Some z ∧ supersedes x z = false) → ∃ z, lww o y = Some z ∧ supersedes x z = false.
Proof.
  intros (z & -> & Hz). cbn. destruct (supersedes y z) eqn:E; [|by exists z]. exists y.
  split; [done|]. apply not_true_is_false. intros H.
  rewrite (supersedes_trans _ _ _ H E) in Hz. done.
Qed.

Lemma foldl_lww_covers o l x :
  (∃ z, o = Some z ∧ supersedes x z = false) → ∃ z, foldl lww o l = Some z ∧ supersedes x z = false.
Proof. revert o. induction l as [|y l IH]; intros o H; [done|]. cbn. by apply IH, lww_covers. Qed.

Lemma foldl_lww_elem o l x : x ∈ l → ∃ z, foldl lww o l = Some z ∧ supersedes x z = false.
Proof.
  revert o. induction l as [|y l IH]; intros o; [by intros ?%not_elem_of_nil|].
  intros [->|Hx]%elem_of_cons; cbn [foldl]; [|by apply IH]. apply foldl_lww_covers.
  destruct o as [i|]; cbn; [|by exists y; rewrite supersedes_irrefl].
  destruct (supersedes y i) eqn:E; [exists y; by rewrite supersedes_irrefl|by exists i].
Qed.

Lemma holds_merge_all e es x :
  store_inv (store e) → holds_of e x → holds_of (set_store e (merge_all (store e) es)) x.
Proof. intros Hs H. unfold holds_of. cbn. rewrite content_merge_all by done. by apply foldl_lww_covers. Qed.

Lemma holds_merged e es x :
  store_inv (store e) → x ∈ es → holds_of (set_store e (merge_all (store e) es)) x.
Proof.
  intros Hs Hx. unfold holds_of. cbn. rewrite content_merge_all by done.
  apply foldl_lww_elem, list_elem_of_filter. done.
Qed.

Lemma holds_write e y clk pipes x :
  store_inv (store e) → holds_of e x → holds_of (MkEngine (store_merge (store e) y) clk pipes) x.
Proof.
  intros Hs (z & Hz & Hsz). unfold holds_of. cbn. rewrite content_store_merge by done.
  destruct (decide _) as [E|]; [|by eauto]. apply lww_covers. by exists z.
Qed.

(** ** Reconciling with the surviving backups *)

(** A backup that answers page requests from a fragment the codec carries. *)
Record serving (carrier : list Z → option (list Z)) (peer : Engine) (p : Z) : Prop := {
  sv_pages : PageServer carrier peer;
  sv_store : store_inv (store peer);
  sv_length : Z.of_nat (length (snapshot (store peer) p)) < 2 ^ 31;
  sv_wire : ∀ x, x ∈ snapshot (store peer) p → wire_entry x }.

Section reconcile.
Context (net : jsstring → list Z → option (list Z)) (p : Z) (Hp : is_u32 p).
Context (bs : list jsstring) (peers : jsstring → Engine).

(** The backups that answer; the others may be gone, or answer anything. *)
Context (good : jsstring → Prop).
Context (Hserve : ∀ b, b ∈ bs → good b → serving (net b) (peers b) p).

(** A pull has merged the part of its peer's fragment before its cursor. *)
Definition pull_at (e : Engine) (b : jsstring) (after : option jsstring) (rest : list Entry) : Prop :=
  ∃ before, sortedFragment (peers b) p = before ++ rest ∧ after = cursor before
    ∧ ∀ x, x ∈ before → holds_of e x.

Record reconciling (e0 : Engine) (st : Reconcile) : Prop := {
  rg_store : store_inv (store (rv_engine st));
  rg_count : partitionCount (store (rv_engine st)) = partitionCount (store e0);
  rg_failed : (∀ b, b ∈ bs → good b) → rv_failed st = false;
  rg_own : ∀ x, holds_of e0 x → holds_of (rv_engine st) x;
  rg_pulls : ∀ b after, (b, after) ∈ rv_pulls st →
    b ∈ bs ∧ (good b → ∃ rest, pull_at (rv_engine st) b after rest);
  rg_done : ∀ b, b ∈ bs → good b → (∃ after, (b, after) ∈ rv_pulls st)
    ∨ ∀ x, x ∈ sortedFragment (peers b) p → holds_of (rv_engine st) x }.

Lemma pull_at_mono e e' b after rest :
  (∀ x, holds_of e x → holds_of e' x) → pull_at e b after rest → pull_at e' b after rest.
Proof. intros H (before & ? & ? & Hc). exists before. auto. Qed.

(** One page of a pull from a serving backup. *)
Lemma pull_turn e b after rest :
  store_inv (store e) → b ∈ bs → good b → pull_at e b after rest →
  ∃ es rest', page_turn (requestPage (net b) p after) applyChunk after e
    = Ok (set_store e (merge_all (store e) es), match rest' with [] => None | _ => key <$> last es end)
    ∧ rest = es ++ rest' ∧ (rest' ≠ [] → es ≠ [])
    ∧ (rest' ≠ [] → ∃ k, key <$> last es = Some k
         ∧ pull_at (set_store e (merge_all (store e) es)) b (Some k) rest')
    ∧ (rest' = [] → ∀ x, x ∈ sortedFragment (peers b) p →
         holds_of (set_store e (merge_all (store e) es)) x).
Proof.
  intros He Hb Hg (before & Hfrag & -> & Hbefore). destruct (Hserve b Hb Hg) as [Hpages Hs Hlen Hw].
  pose proof (sortedFragment_strict (peers b) p Hs) as Hsort. rewrite Hfrag in Hsort.
  assert (Z.of_nat (length (before ++ rest)) < 2 ^ 31) as Hlen'
    by (by rewrite <-Hfrag, length_sortedFragment).
  rewrite (requestPage_served (net b) (peers b) p before rest Hp Hfrag Hsort Hlen').
  2: { intros x Hx. apply Hw. unfold sortedFragment in Hx. by rewrite sortByKey_perm in Hx. }
  unfold servePage. rewrite Hfrag.
  destruct (page_turn_spec applyChunk (λ e, store_inv (store e))
    (λ e es, set_store e (merge_all (store e) es)) ltac:(intros; by apply merge_entries_spec)
    ltac:(intros s a c _; cbn; by rewrite <-merge_all_app) p before rest e Hsort Hlen' He) as (es & rest' & Hrest & Hinv & Hne & Hturn & Hcur).
  exists es, rest'. rewrite Hturn. split.
  { do 2 f_equal. destruct rest'; [done|]. apply cursor_app. by apply Hne. }
  split; [done|]. split; [done|]. split.
  - intros Hr. destruct (Hcur Hr) as [k Hk]. exists k. rewrite <-(cursor_app before es), Hk by auto.
    split; [done|]. exists (before ++ es). split; [by rewrite Hfrag, Hrest, app_assoc|].
    split; [done|]. intros x [Hx|Hx]%elem_of_app; [by apply holds_merge_all, Hbefore|by apply holds_merged].
  - intros -> x. rewrite Hrest, app_nil_r.
    intros [Hx|Hx]%elem_of_app; [by apply holds_merge_all, Hbefore|by apply holds_merged].
Qed.

Lemma set_store_count e es :
  store_inv (store e) →
  partitionCount (store (set_store e (merge_all (store e) es))) = partitionCount (store e).
Proof. intros Hs. cbn. by apply merge_all_count. Qed.

(** A page of any peer only merges records. *)
Lemma page_turn_merges answer after e e' next :
  store_inv (store e) → page_turn answer applyChunk after e = Ok (e', next) →
  ∃ es, e' = set_store e (merge_all (store e) es).
Proof.
  intros He. unfold page_turn. destruct answer as [[c|]|]; cbn [result_bind]; [|intros [= <- <-]; exists []; by destruct e|done].
  unfold applyChunk. destruct (merge_entries_spec e (ch_entries c) He) as [-> _]. cbn [result_bind].
  intros E. exists (ch_entries c). repeat case_match; by injection E as <- <-.
Qed.

(** Replacing one element of a list by a few. *)
Lemma elem_replaced {A} (l1 l2 nx : list A) x y :
  (y ∈ l1 ++ nx ++ l2 → y ∈ l1 ++ x :: l2 ∨ y ∈ nx)
  ∧ (y ∈ nx → y ∈ l1 ++ nx ++ l2)
  ∧ (y ∈ l1 ++ x :: l2 → y ≠ x → y ∈ l1 ++ nx ++ l2)
  ∧ x ∈ l1 ++ x :: l2.
Proof. rewrite !elem_of_app, !elem_of_cons. tauto. Qed.

(** One page of the pull from [b]: what its entry becomes. *)
Lemma page_inv e b after e' next :
  store_inv (store e) → b ∈ bs → (good b → ∃ rest, pull_at e b after rest) →
  page_turn (requestPage (net b) p after) applyChunk after e = Ok (e', next) →
  store_inv (store e') ∧ partitionCount (store e') = partitionCount (store e)
  ∧ (∀ x, holds_of e x → holds_of e' x)
  ∧ (good b → match next with
              | Some k => ∃ rest, pull_at e' b (Some k) rest
              | None => ∀ x, x ∈ sortedFragment (peers b) p → holds_of e' x
              end).
Proof.
  intros He Hb Hat Hturn. destruct (page_turn_merges _ _ _ _ _ He Hturn) as [es ->].
  split; [by apply merge_all_inv|]. split; [by rewrite set_store_count|].
  split; [intros x; by apply holds_merge_all|]. intros Hg. destruct (Hat Hg) as (rest & Hp').
  destruct (pull_turn e b after rest He Hb Hg Hp') as (es' & rest' & Et & _ & _ & Hnext & Hlast).
  rewrite Hturn in Et. injection Et as E ->.
  destruct rest' as [|r rest']; [unfold set_store; rewrite E; by apply Hlast|].
  destruct (Hnext ltac:(done)) as (k & -> & Hk). exists (r :: rest'). unfold set_store. by rewrite E.
Qed.

Lemma reconcile_step_inv e0 st st' :
  reconciling e0 st → reconcile_step net p st st' → reconciling e0 st'.
Proof.
  intros [Hs Hc Hf Hown Hpulls Hdone] Hstep. destruct Hstep as
    [e l1 b after l2 failed e' next Hturn|e l1 b after l2 failed err Hturn|e pulls failed y clk pipes];
    cbn [rv_engine rv_pulls rv_failed] in *.
  - destruct (Hpulls b after) as (Hb & Hat); [apply (elem_replaced l1 l2 [] (b, after) (b, after))|].
    destruct (page_inv e b after e' next Hs Hb Hat Hturn) as (Hs' & Hc' & Hmono & Hnext).
    split; cbn [rv_engine rv_pulls rv_failed]; [done|congruence|done|by auto| |].
    + intros c k Hin.
      apply (proj1 (elem_replaced l1 l2 _ (b, after) (c, k))) in Hin as [Hin|Hin].
      * destruct (Hpulls c k Hin) as [? Hr]. split; [done|]. intros Hg. destruct (Hr Hg) as [r ?]. exists r. by eapply pull_at_mono.
      * destruct next as [k'|]; [|by apply not_elem_of_nil in Hin].
        apply list_elem_of_singleton in Hin. injection Hin as -> ->. done.
    + intros c Hcb Hg. destruct (decide (c = b)) as [->|Hne].
      * destruct next as [k|]; [left|right; by apply Hnext].
        exists (Some k). apply (proj1 (proj2 (elem_replaced l1 l2 _ (b, after) (b, Some k)))). left.
      * destruct (Hdone c Hcb Hg) as [[k Hk]|Hall]; [left|right; auto]. exists k.
        apply (proj1 (proj2 (proj2 (elem_replaced l1 l2 _ (b, after) (c, k))))); [done|congruence].
  - destruct (Hpulls b after) as (Hb & Hat); [apply (elem_replaced l1 l2 [] (b, after) (b, after))|].
    assert (¬ good b) as Hbad.
    { intros Hg. destruct (Hat Hg) as (rest & Hp'). destruct (pull_turn e b after rest Hs Hb Hg Hp') as (es & rest' & Et & _). congruence. }
    split; cbn [rv_engine rv_pulls rv_failed]; [done|done|intros Hall; destruct Hbad; by apply Hall|done| |].
    + intros c k Hin. apply Hpulls. by apply (proj1 (elem_replaced l1 l2 [] (b, after) (c, k))) in Hin as [?|?%not_elem_of_nil].
    + intros c Hcb Hg. destruct (Hdone c Hcb Hg) as [[k Hk]|Hall]; [left|by right]. exists k.
      apply (proj1 (proj2 (proj2 (elem_replaced l1 l2 [] (b, after) (c, k))))); [done|congruence].
  - assert (∀ x, holds_of e x → holds_of (MkEngine (store_merge (store e) y) clk pipes) x) as Hmono
      by (intros x; by apply holds_write).
    split; cbn [rv_engine rv_pulls rv_failed]; [by apply store_merge_inv| |done|by auto| |].
    + cbn. by rewrite store_merge_count.
    + intros c k Hin. destruct (Hpulls c k Hin) as [? Hr]. split; [done|]. intros Hg. destruct (Hr Hg) as [r ?]. exists r.
      by eapply pull_at_mono.
    + intros c Hcb Hg. destruct (Hdone c Hcb Hg) as [?|Hall]; [by left|right; auto].
Qed.

Lemma reconciling_start e pl :
  store_inv (store e) → pp_backups pl = bs → reconciling e (recover_start e pl).
Proof.
  intros He Hbs. unfold recover_start. rewrite Hbs.
  split; cbn [rv_engine rv_pulls rv_failed]; try done.
  - intros b after (b' & E & Hb)%list_elem_of_fmap. injection E as -> ->. split; [done|]. intros _.
    exists (sortedFragment (peers b') p), []. split; [done|]. split; [done|].
    by intros x ?%not_elem_of_nil.
  - intros b Hb _. left. exists None. apply list_elem_of_fmap. by exists b.
Qed.

Lemma reconciling_reachable e0 st st' :
  reconciling e0 st → rtc (reconcile_step net p) st st' → reconciling e0 st'.
Proof. intros H Hr. induction Hr as [|? ? ? Hstep _ IH]; [done|]. by apply IH, (reconcile_step_inv e0 _ _ H). Qed.

(** The records a pull has yet to merge, and the pages left at most. *)
Definition remaining (b : jsstring) (after : option jsstring) : nat :=
  length (filter (λ x, match after with Some k => str_le (key x) k | None => false end = false)
    (sortedFragment (peers b) p)).

Definition work (pulls : list (jsstring * option jsstring)) : nat :=
  foldr (λ pl n, S (remaining pl.1 pl.2) + n)%nat 0%nat pulls.

Lemma remaining_at e b after rest :
  b ∈ bs → good b → pull_at e b after rest → remaining b after = length rest.
Proof.
  intros Hb Hg (before & Hfrag & -> & _). destruct (Hserve b Hb Hg) as [_ Hs _ _].
  pose proof (sortedFragment_strict (peers b) p Hs) as Hsort. unfold remaining.
  rewrite Hfrag in *. destruct before as [|y before _] using rev_ind.
  { cbn. by rewrite filter_all. }
  unfold cursor. rewrite last_snoc. cbn [fmap option_fmap option_map].
  rewrite filter_app, filter_none, filter_all; [done|..].
  - intros x Hx. apply StronglySorted_app in Hsort as (Hyx & _ & _).
    specialize (Hyx y x ltac:(set_solver) Hx). unfold key_lt, str_le in *. by rewrite Hyx.
  - intros x Hx Hle. apply StronglySorted_app in Hsort as (_ & Hsort & _).
    apply elem_of_app in Hx as [Hx|Hx%list_elem_of_singleton].
    + apply StronglySorted_app in Hsort as (Hxy & _ & _).
      specialize (Hxy x y Hx ltac:(set_solver)). unfold key_lt, str_le in *.
      apply str_lt_asym in Hxy. by rewrite Hxy in Hle.
    + subst. unfold str_le in Hle. by rewrite str_lt_irrefl in Hle.
Qed.

Lemma work_app l1 l2 : work (l1 ++ l2) = (work l1 + work l2)%nat.
Proof. unfold work. induction l1 as [|a l1 IH]; cbn [foldr app]; lia. Qed.

(** While every backup answers, the pulls get on. *)
Context (Hall : ∀ b, b ∈ bs → good b).

Lemma page_work e0 e l1 b after l2 f e' next :
  reconciling e0 (MkReconcile e (l1 ++ (b, after) :: l2) f) →
  page_turn (requestPage (net b) p after) applyChunk after e = Ok (e', next) →
  (work (l1 ++ (match next with Some k => [(b, Some k)] | None => [] end) ++ l2)
   < work (l1 ++ (b, after) :: l2))%nat.
Proof.
  intros [Hs _ _ _ Hpulls _] Hturn. cbn in *.
  destruct (Hpulls b after) as (Hb & Hat0); [apply (elem_replaced l1 l2 [] (b, after) (b, after))|].
  pose proof (Hall b Hb) as Hg. destruct (Hat0 Hg) as (rest & Hat).
  destruct (pull_turn e b after rest Hs Hb Hg Hat) as (es & rest' & Et & Hrest & Hne & Hnext & _).
  rewrite Et in Hturn. injection Hturn as <- <-. rewrite !work_app.
  change (work ((b, after) :: l2)) with (S (remaining b after) + work l2)%nat.
  rewrite (remaining_at e b after rest Hb Hg Hat). destruct rest' as [|r rest']; [cbn; lia|].
  destruct (Hnext ltac:(done)) as (k & -> & Hat').
  change (work [(b, Some k)]) with (S (remaining b (Some k)) + 0)%nat.
  rewrite (remaining_at _ b (Some k) _ Hb Hg Hat'), Hrest, length_app.
  specialize (Hne ltac:(done)). destruct es; [done|]. cbn. lia.
Qed.

(** Any step either leaves the pulls alone or takes one page off the work left. *)
Lemma reconcile_step_work e0 st st' :
  reconciling e0 st → reconcile_step net p st st' →
  (work (rv_pulls st') < work (rv_pulls st))%nat ∨ rv_pulls st' = rv_pulls st.
Proof.
  intros H Hstep. destruct Hstep as
    [e l1 b after l2 f e' next Hturn|e l1 b after l2 f err Hturn|e pulls f y clk pipes];
    [left|left|by right]; cbn [rv_pulls].
  - by eapply page_work.
  - rewrite !work_app. change (work ((b, after) :: l2)) with (S (remaining b after) + work l2)%nat. lia.
Qed.

(** While pulls are left, some page can be taken. *)
Lemma reconcile_progress e0 st :
  reconciling e0 st → rv_pulls st ≠ [] →
  ∃ st', reconcile_step net p st st' ∧ (work (rv_pulls st') < work (rv_pulls st))%nat.
Proof.
  intros H Hne. pose proof H as [Hs _ _ _ Hpulls _]. destruct st as [e [|[b after] l] f]; [done|].
  destruct (Hpulls b after) as (Hb & Hat0); [left|]. destruct (Hat0 (Hall b Hb)) as (rest & Hat).
  destruct (pull_turn e b after rest Hs Hb (Hall b Hb) Hat) as (es & rest' & Et & _).
  eexists. split; [exact (pull_page net p e [] b after l f _ _ Et)|].
  exact (page_work e0 e [] b after l f _ _ H Et).
Qed.

End reconcile.

(** ** The moves a table starts *)

Section planned.
Context (s : Recovery) (previous : option RoutingTable) (t : RoutingTable) (ring : PartitionRing).
Context (pl : Z → PartitionPlacement) (crashed : Z → bool).


End planned.




(** ** Theorems *)


(** Recovery ends: as long as a pull is left some page can be taken, every page
    taken strictly lowers the number of pages the pulls still need at most, and
    nothing else a node does raises it. *)
Theorem recovery_pulls_end net id bs peers e pl st :
  is_u32 id → (∀ b, b ∈ bs → serving (net b) (peers b) id) → pp_backups pl = bs →
  store_inv (store e) → rtc (reconcile_step net id) (recover_start e pl) st →
  (rv_pulls st ≠ [] → ∃ st', reconcile_step net id st st'
     ∧ (work id peers (rv_pulls st') < work id peers (rv_pulls st))%nat)
  ∧ ∀ st', reconcile_step net id st st' →
      (work id peers (rv_pulls st') < work id peers (rv_pulls st))%nat ∨ rv_pulls st' = rv_pulls st.
Proof.
  intros Hu Hserve Hbs He Hrun.
  assert (∀ b, b ∈ bs → True → serving (net b) (peers b) id) as Hsv by auto.
  pose proof (reconciling_reachable net id Hu bs peers (λ _, True) Hsv e _ st
    (reconciling_start id bs peers (λ _, True) e pl He Hbs) Hrun) as H.
  split; [by apply (reconcile_progress net id Hu bs peers (λ _, True) Hsv ltac:(done) e)|].
  intros st'. by apply (reconcile_step_work net id Hu bs peers (λ _, True) Hsv ltac:(done) e).
Qed.

(** A drained fragment has moved: an undisturbed drain of a partition ends; if the
    receiver did not acknowledge every chunk nothing is dropped, and if it did, it
    holds every record of the partition this node held, or a newer one; this node
    then drops the partition exactly when it is not one of its backups, and keeps
    every other partition. *)
Theorem drain_hands_over s ms n r t id e recv fuel acked :
  new_PartitionRing ms n = Ok r → Z.of_nat (length ms) < 2 ^ 26 →
  0 < rc_replicaCount s ≤ MAX_SAFE_INTEGER → table_wf t → rt_partitionCount t = n → 0 ≤ id < n →
  store_inv (store e) → store_inv (store recv) →
  Z.of_nat (length (snapshot (store e) id)) < 2 ^ 31 →
  (length (snapshot (store e) id) < fuel)%nat → (∀ i c, is_ok (acked i c) = true) →
  ∃ pushed sent e' bs, drainOne fuel acked (λ e, e) s e id t r = Some (Ok (pushed, sent, e'))
    ∧ ring_backups r id (rc_replicaCount s) = Ok bs
    ∧ (pushed = false → e' = e)
    ∧ (pushed = true →
        (∀ i c, sent !! i = Some c → acked i c = Ok true)
        ∧ (∃ recv', apply_chunks recv sent = Ok recv'
             ∧ ∀ x, home (store e) (key x) = id → holds_of e x → holds_of recv' x)
        ∧ (∀ x, home (store e) (key x) ≠ id → holds_of e x → holds_of e' x)
        ∧ (if decide (rc_self s ∈ bs) then e' = e else snapshot (store e') id = [])).
Proof.
  intros Hr HM HR Ht Hn Hid He Hrecv Hlen Hfuel Hsends.
  destruct (ring_primary_ok ms n r Hr HM id Hid) as (p & Hp & _).
  destruct (ring_backups_ok ms n r Hr HM id (rc_replicaCount s) p HR Hp) as [_ Hbs].
  destruct (table_owners_ok t id Ht ltac:(lia)) as (os & Hos & _).
  destruct (push_spec e recv id acked fuel He Hrecv Hlen Hfuel) as ([[ok sent]|err] & Hpush & Hout).
  2: { destruct Hout as (i & c & E). specialize (Hsends i c). by rewrite E in Hsends. }
  destruct Hout as (_ & Hack & Hmove).
  unfold drainOne, table_primary. rewrite Hos. cbn [result_bind]. rewrite Hpush.
  cbn [mbind option_bind result_bind]. destruct ok; cbn [negb].
  2: { eexists _, _, _, _. split; [done|]. split; [exact Hbs|]. done. }
  rewrite Hbs. cbn [result_bind]. eexists _, _, _, _. split; [done|]. split; [done|]. split; [done|].
  intros _. split; [by apply Hack|]. split; [|split].
  - destruct (Hmove eq_refl) as (recv' & Happ & Hcont). exists recv'. split; [done|].
    intros x Hx (y & Hy & Hxy). unfold holds_of. rewrite Hcont, decide_True, Hy by done. cbn.
    destruct (content (store recv) (key x)) as [z|]; cbn; [|by eauto].
    destruct (supersedes y z) eqn:E; [by eauto|]. exists z. split; [done|]. by eapply not_supersedes_trans.
  - intros x Hx (y & Hy & Hxy). exists y. split; [|done]. case_bool_decide; [done|].
    cbn [engine_drop store set_store]. rewrite content_store_drop by done. by rewrite decide_False.
  - destruct (decide (rc_self s ∈ _)) as [Hin|Hin].
    + by rewrite bool_decide_true.
    + rewrite bool_decide_false by done. unfold engine_drop, snapshot, store_drop. cbn.
      by rewrite jm_get_delete, decide_True.
Qed.

(** A record that arrives during a drain is lost: when this node is not a backup
    of the partition, what it merges under a new key of the partition while the chunks
    travel is in no chunk sent, and the drop at the end removes it, although the drain
    reports success. *)
Theorem drain_drops_late_record s t r id e fuel y e1 sent e' bs :
  store_inv (store e) → home (store e) (key y) = id → content (store e) (key y) = None →
  Z.of_nat (length (snapshot (store e) id)) < 2 ^ 31 →
  (length (snapshot (store e) id) < fuel)%nat →
  engine_merge e y = Ok e1 → ring_backups r id (rc_replicaCount s) = Ok bs → rc_self s ∉ bs →
  drainOne fuel (λ _ _, Ok true) (λ _, e1) s e id t r = Some (Ok (true, sent, e')) →
  content (store e1) (key y) = Some y ∧ content (store e') (key y) = None
  ∧ ∀ c x, c ∈ sent → x ∈ ch_entries c → key x ≠ key y.
Proof.
  intros He Hy Hnone Hlen Hfuel Hm Hbs Hself Hd.
  unfold engine_merge in Hm. destruct (store_apply (store e) y) as [[ch st]|] eqn:Ea; [|done].
  injection Hm as <-. assert (st = store_merge (store e) y) as -> by (unfold store_merge; by rewrite Ea).
  pose proof (pushChunks_spec fuel (λ _ _, Ok true) 0 id [] (sortedFragment e id)
    (sortedFragment_strict e id He)) as Hspec. cbn [app] in Hspec.
  rewrite length_sortedFragment in Hspec.
  destruct (Hspec Hlen Hfuel) as ([[ok2 sent2]|err] & Hp2 & Hout); [|by destruct Hout as (? & ? & ?)].
  destruct Hout as [_ (post & Hpost & _) _ _].
  change (push fuel (λ _ _, Ok true) e id = Some (Ok (ok2, sent2))) in Hp2.
  unfold drainOne in Hd. destruct (table_primary t id); [|done]. rewrite Hp2 in Hd.
  cbn [mbind option_bind result_bind] in Hd. destruct ok2; cbn [negb] in Hd; [|by injection Hd as ?].
  rewrite Hbs in Hd. cbn [result_bind] in Hd. rewrite bool_decide_false in Hd by done.
  injection Hd as <- <-. cbn [store set_store snd]. split; [|split].
  - rewrite content_store_merge by done. by rewrite decide_True, Hnone.
  - cbn [engine_drop store set_store]. rewrite content_store_drop.
    assert (home (store_merge (store e) y) (key y) = id) as Hh.
    { unfold home. by rewrite store_merge_count. }
    by rewrite decide_True.
  - intros c x Hc Hx Hk. assert (x ∈ sortedFragment e id) as Hin.
    { rewrite Hpost. apply elem_of_app. left. apply list_elem_of_bind. eauto. }
    unfold sortedFragment in Hin. rewrite sortByKey_perm, snapshot_spec in Hin by done.
    destruct Hin as [Hin _]. rewrite Hk, Hnone in Hin. done.
Qed.

(** Re-seeding replaces the fragment: a node away beyond the tombstone lifetime
    drops its fragment and pulls the owner's, and then holds, for every key of the
    partition, exactly the owner's record, deletions included, so no stale key
    comes back; the other partitions are untouched. *)
Theorem reseed_replaces carrier peer e p fuel `{!PageServer carrier peer} :
  store_inv (store e) → store_inv (store peer) →
  partitionCount (store e) = partitionCount (store peer) → is_u32 p →
  Z.of_nat (length (snapshot (store peer) p)) < 2 ^ 31 →
  (length (snapshot (store peer) p) < fuel)%nat →
  (∀ x, x ∈ snapshot (store peer) p → wire_entry x) →
  ∃ e', reseed fuel (λ _ k, requestPage carrier p k) e p = Some (Ok e')
    ∧ ∀ k, content (store e') k
           = if decide (home (store e) k = p) then content (store peer) k else content (store e) k.
Proof.
  intros He Hpeer Hc Hp Hlen Hfuel Hw.
  destruct (pull_spec carrier peer (engine_drop e p) p fuel) as (e' & Hpull & _ & _ & _ & _ & Hcont);
    [by apply store_drop_inv|done..|].
  exists e'. split; [exact Hpull|]. intros k. rewrite Hcont.
  assert (home (store peer) k = home (store e) k) as Hh by (unfold home; by rewrite Hc).
  cbn [engine_drop store set_store]. rewrite content_store_drop, Hh.
  destruct (decide _); [|done]. by destruct (content (store peer) k).
Qed.

Definition crash_table : RoutingTable := MkTable 1 [[js "d"; js "c"]].

Definition crash_member (nd : string) (draining : bool) : ClusterMember :=
  MkMember (js nd) 0 true draining.

(** C40: a primary that dies while its partition has a previous owner left is not
    recovered.  Node "d" is draining partition 0 to its primary "c", whose write a
    quorum acknowledged with backup "a"; "c" dies.  The next table keeps "d" and
    promotes "b", which installs it without marking the partition recovering and
    starts no pull, and a read at "b" gathers the owners "d" and "b" and answers
    that the key is absent, although "a" holds the record. *)
Theorem fragmented_crash_unrecovered :
  ∃ r r' t' s',
    new_PartitionRing [js "a"; js "b"; js "c"] 1 = Ok r
    ∧ ring_primary r 0 = Ok (js "c") ∧ ring_backups r 0 DEFAULT_REPLICA_COUNT = Ok [js "b"; js "a"]
    ∧ new_PartitionRing [js "a"; js "b"] 1 = Ok r'
    ∧ evolve (Some crash_table) r' [] 2 (Some [js "a"; js "b"; js "d"]) = Ok t'
    ∧ onTable (MkRecovery (js "b") [crash_member "a" false; crash_member "b" false; crash_member "d" true]
        DEFAULT_REPLICA_COUNT [] (Some crash_table) (Some r)) t' r' = (Ok ([], [0]), s')
    ∧ rc_isRecovering s' 0 = false
    ∧ version (sample_node "a" [sample_entry "k" 5 false] t' r') (js "k")
      = Some (sample_entry "k" 5 false)
    ∧ ∃ s'', run (λ s, s) (carrier_to (λ s, s) (λ _ _, None)
        (sample_peers [sample_node "a" [sample_entry "k" 5 false] t' r'; sample_node "d" [] t' r'])
        (js "b")) (read (js "k")) (sample_node "b" [] t' r') = Some (Ok None, s'', []).
Proof.
  destruct (new_PartitionRing [js "a"; js "b"; js "c"] 1) as [r|] eqn:Hr; [|vm_compute in Hr; discriminate Hr].
  destruct (new_PartitionRing [js "a"; js "b"] 1) as [r'|] eqn:Hr'; [|vm_compute in Hr'; discriminate Hr'].
  vm_compute in Hr. injection Hr as <-. vm_compute in Hr'. injection Hr' as <-.
  eexists _, _, (MkTable 2 [[js "d"; js "b"]]), _. split; [reflexivity|].
  split; [vm_compute; reflexivity|]. split; [vm_compute; reflexivity|]. split; [reflexivity|].
  split; [vm_compute; reflexivity|]. split; [vm_compute; reflexivity|].
  split; [reflexivity|]. split; [vm_compute; reflexivity|]. eexists. vm_compute. reflexivity.
Qed.

(** ** Witnesses *)

Definition sample_recovery (previous : RoutingTable) : Recovery :=
  MkRecovery (js "b") [crash_member "a" false; crash_member "b" false] DEFAULT_REPLICA_COUNT []
    (Some previous) None.

Lemma single_table_wf v o : 0 ≤ v → table_wf (MkTable v [[o]]).
Proof.
  intros H. split; [done|done|]. intros os ->%list_elem_of_singleton.
  split; [done|apply NoDup_singleton].
Qed.

Definition sample_fragment (es : list Entry) : Engine :=
  MkEngine (merge_all (MkStore 1 [] 0) es) (MkClock (js "b") 0 0) [].

Lemma sample_fragment_inv es : store_inv (store (sample_fragment es)).
Proof. apply merge_all_inv. by apply (new_Store_inv 1). Qed.

Lemma sample_fragment_serving :
  serving (page_carrier (sample_fragment [sample_entry "k" 5 false]))
    (sample_fragment [sample_entry "k" 5 false]) 0.
Proof.
  split; [apply _|apply sample_fragment_inv|vm_compute; reflexivity|].
  intros x Hx. apply list_elem_of_In in Hx. vm_compute in Hx. destruct Hx as [<-|[]].
  split; [split; (split; [by apply units_check|reflexivity])|reflexivity].
Qed.



Lemma recovery_pulls_end_witness :
  ∃ st', reconcile_step (λ _, page_carrier (sample_fragment [sample_entry "k" 5 false])) 0
      (recover_start (sample_fragment []) (MkPlacement [js "b"] (js "b") [] [js "a"])) st'
    ∧ (work 0 (λ _, sample_fragment [sample_entry "k" 5 false]) (rv_pulls st')
       < work 0 (λ _, sample_fragment [sample_entry "k" 5 false]) [(js "a", None)])%nat.
Proof.
  apply (recovery_pulls_end (λ _, page_carrier (sample_fragment [sample_entry "k" 5 false])) 0 [js "a"]
    (λ _, sample_fragment [sample_entry "k" 5 false]) (sample_fragment [])
    (MkPlacement [js "b"] (js "b") [] [js "a"])
    (recover_start (sample_fragment []) (MkPlacement [js "b"] (js "b") [] [js "a"]))).
  - done.
  - intros b _. apply sample_fragment_serving.
  - reflexivity.
  - apply sample_fragment_inv.
  - apply rtc_refl.
  - discriminate.
Defined.

Lemma drain_hands_over_witness :
  ∃ r pushed sent e' bs, new_PartitionRing [js "a"; js "c"] 1 = Ok r
    ∧ drainOne 3 (λ _ _, Ok true) (λ e, e) (sample_recovery crash_table)
        (sample_fragment [sample_entry "k" 5 false]) 0 (MkTable 2 [[js "c"]]) r
      = Some (Ok (pushed, sent, e'))
    ∧ ring_backups r 0 DEFAULT_REPLICA_COUNT = Ok bs
    ∧ (pushed = false → e' = sample_fragment [sample_entry "k" 5 false]).
Proof.
  destruct (new_PartitionRing [js "a"; js "c"] 1) as [r|] eqn:Hr; [|vm_compute in Hr; discriminate Hr].
  destruct (drain_hands_over (sample_recovery crash_table) [js "a"; js "c"] 1 r (MkTable 2 [[js "c"]]) 0
    (sample_fragment [sample_entry "k" 5 false]) (sample_fragment []) 3 (λ _ _, Ok true))
    as (pushed & sent & e' & bs & H1 & H2 & H3 & _).
  - exact Hr.
  - reflexivity.
  - split; [reflexivity|vm_compute; discriminate].
  - by apply single_table_wf.
  - reflexivity.
  - lia.
  - apply sample_fragment_inv.
  - apply sample_fragment_inv.
  - vm_compute. reflexivity.
  - vm_compute. lia.
  - reflexivity.
  - exists r, pushed, sent, e', bs. split; [reflexivity|]. split; [exact H1|]. split; [exact H2|exact H3].
Defined.

Lemma drain_drops_late_record_witness :
  ∃ r sent e', new_PartitionRing [js "a"; js "c"] 1 = Ok r
    ∧ drainOne 3 (λ _ _, Ok true) (λ _, sample_fragment [sample_entry "k" 5 false; sample_entry "j" 6 false])
        (sample_recovery crash_table) (sample_fragment [sample_entry "k" 5 false]) 0
        (MkTable 2 [[js "c"]]) r = Some (Ok (true, sent, e'))
    ∧ content (store e') (js "j") = None.
Proof.
  destruct (new_PartitionRing [js "a"; js "c"] 1) as [r|] eqn:Hr; [|vm_compute in Hr; discriminate Hr].
  assert (ring_backups r 0 (rc_replicaCount (sample_recovery crash_table)) = Ok [js "a"]) as Hbs.
  { vm_compute in Hr. injection Hr as <-. vm_compute. reflexivity. }
  destruct (drainOne 3 (λ _ _, Ok true) (λ _, sample_fragment [sample_entry "k" 5 false; sample_entry "j" 6 false])
    (sample_recovery crash_table) (sample_fragment [sample_entry "k" 5 false]) 0 (MkTable 2 [[js "c"]]) r)
    as [[[[pushed sent] e']|]|] eqn:Hd.
  - assert (pushed = true) as ->.
    { vm_compute in Hr. injection Hr as <-. vm_compute in Hd. injection Hd as <- _ _. reflexivity. }
    destruct (drain_drops_late_record (sample_recovery crash_table) (MkTable 2 [[js "c"]]) r 0
      (sample_fragment [sample_entry "k" 5 false]) 3 (sample_entry "j" 6 false)
      (sample_fragment [sample_entry "k" 5 false; sample_entry "j" 6 false]) sent e' [js "a"])
      as (_ & H & _).
    + apply sample_fragment_inv.
    + reflexivity.
    + vm_compute. reflexivity.
    + vm_compute. reflexivity.
    + vm_compute. lia.
    + vm_compute. reflexivity.
    + exact Hbs.
    + intros Hin. apply list_elem_of_singleton in Hin. discriminate Hin.
    + exact Hd.
    + exists r, sent, e'. split; [reflexivity|]. split; [exact Hd|exact H].
  - exfalso. vm_compute in Hr. injection Hr as <-. vm_compute in Hd. discriminate Hd.
  - exfalso. vm_compute in Hr. injection Hr as <-. vm_compute in Hd. discriminate Hd.
Defined.

Lemma reseed_replaces_witness :
  ∃ e', reseed 3 (λ _ k, requestPage (page_carrier (sample_fragment [sample_entry "k" 5 false])) 0 k)
      (sample_fragment [sample_entry "j" 6 false]) 0 = Some (Ok e')
    ∧ ∀ k, content (store e') k
           = if decide (home (store (sample_fragment [sample_entry "j" 6 false])) k = 0)
             then content (store (sample_fragment [sample_entry "k" 5 false])) k
             else content (store (sample_fragment [sample_entry "j" 6 false])) k.
Proof.
  destruct sample_fragment_serving as [_ _ Hl Hw].
  apply (reseed_replaces (page_carrier (sample_fragment [sample_entry "k" 5 false]))
    (sample_fragment [sample_entry "k" 5 false]) (sample_fragment [sample_entry "j" 6 false]) 0 3).
  - apply sample_fragment_inv.
  - apply sample_fragment_inv.
  - reflexivity.
  - split; reflexivity.
  - exact Hl.
  - vm_compute. lia.
  - exact Hw.
Defined.
