(* ===== verification/Membership.v ===== *)
(** * The membership table ([src/membership/view.ts])

    The state machine that decides which members exist: truths about a member are
    ordered by incarnation, then by state, a node refutes accusations against itself
    by raising its incarnation, and terminal truths are retained for a grace period
    and removed by guarded reap tokens. *)
From S2P Require Import Prelude JsNumber JsString.

(** ** Data ([src/membership/wire.ts], [src/membership/view.ts]) *)

Inductive MemberState := Alive | Suspect | Dead | Left.

#[export] Instance MemberState_eq_dec : EqDecision MemberState.
Proof. solve_decision. Defined.

(** The wire value; its order is the precedence at equal incarnation. *)
Definition state_code (s : MemberState) : Z :=
  match s with Alive => 0 | Suspect => 1 | Dead => 2 | Left => 3 end.

Definition MAX_MEMBERS : Z := 1_024.
Definition TERMINAL_RETENTION_MS : Z := 30_000.
Definition MAX_INCARNATION : Z := 0xffffffff.

Record MembershipUpdate := MkUpdate {
  u_state : MemberState;
  selfOriginated : bool;
  incarnation : Z;
  stateChangeTime : Z;
  u_member : jsstring;
  u_reporter : jsstring;
  metadata : list Z }.

(** [StoredRecord]: the accepted truth, when it was applied and, for a suspect, the
    distinct accusers in order.  A [MemberRecord] snapshot is its first two fields. *)
Record StoredRecord := MkStored {
  truth : MembershipUpdate;
  appliedAt : Z;
  confirmations : list jsstring }.

Inductive MembershipEventType := EvJoined | EvLeft | EvDead | EvUpdated.

Record MembershipEvent := MkEvent {
  ev_type : MembershipEventType;
  ev_member : MembershipUpdate;
  ev_previous : option MembershipUpdate }.

Inductive ApplyResult :=
  | Applied (record : StoredRecord) (event : option MembershipEvent)
  | Confirmed (member : jsstring) (incarnation : Z) (reporter : jsstring) (count : Z)
  | Refuted (accusation : MembershipUpdate) (record : StoredRecord) (event : option MembershipEvent)
  | Ignored.

Record ReapOperation := MkReap {
  rp_member : jsstring; rp_state : MemberState; rp_incarnation : Z; rp_dueAt : Z }.

(** [lastAppliedAt] is [None] for [-Infinity]. *)
Record MembershipView := MkView {
  selfName : jsstring;
  records : list (jsstring * StoredRecord);
  lastAppliedAt : option Z;
  eligibleCount : Z }.

Definition new_MembershipView (name : jsstring) : MembershipView := MkView name [] None 0.

(** ** Pure helpers *)

Fixpoint wire_bytesEqual_from (left right : list Z) : bool :=
  match left, right with
  | x :: left', y :: right' => if negb (x =? y) then false else wire_bytesEqual_from left' right'
  | _, _ => true
  end.

Definition wire_bytesEqual (left right : list Z) : bool :=
  if negb (Nat.eqb (length left) (length right)) then false else wire_bytesEqual_from left right.

Definition compareMembershipUpdates (left right : MembershipUpdate) : Z :=
  if negb (incarnation left =? incarnation right)
  then (if incarnation right <? incarnation left then 1 else -1)
  else if decide (u_state left = u_state right) then 0
  else if state_code (u_state right) <? state_code (u_state left) then 1 else -1.

Definition isTerminalState (s : MemberState) : bool :=
  bool_decide (s = Dead) || bool_decide (s = Left).

Definition isProbeEligibleState (s : MemberState) : bool :=
  bool_decide (s = Alive) || bool_decide (s = Suspect).

Definition eventType (previous : option StoredRecord) (next : StoredRecord)
    : option MembershipEventType :=
  let st := u_state (truth next) in
  if decide (st = Alive) then
    match previous with
    | None => Some EvJoined
    | Some p =>
        if isTerminalState (u_state (truth p)) then Some EvJoined
        else if bool_decide (u_state (truth p) = Alive)
                && negb (wire_bytesEqual (metadata (truth p)) (metadata (truth next)))
        then Some EvUpdated else None
    end
  else if isTerminalState st then
    match previous with
    | None => None
    | Some p =>
        if isTerminalState (u_state (truth p)) then None
        else Some (if decide (st = Dead) then EvDead else EvLeft)
    end
  else None.

(** ** Reads *)

Definition view_size (v : MembershipView) : Z := Z.of_nat (length (records v)).

Definition view_get (v : MembershipView) (name : jsstring) : option StoredRecord :=
  jm_get name (records v).

Definition stateOf (v : MembershipView) (name : jsstring) : option (MemberState * Z) :=
  (λ r, (u_state (truth r), incarnation (truth r))) <$> view_get v name.

Definition eachMember (v : MembershipView) : list (jsstring * MemberState) :=
  (λ r, (u_member (truth r), u_state (truth r))) <$> jm_values (records v).

Definition view_self (v : MembershipView) : option StoredRecord := view_get v (selfName v).

Definition view_members (v : MembershipView) : list StoredRecord := jm_values (records v).

Definition view_updates (v : MembershipView) : list MembershipUpdate := truth <$> jm_values (records v).

Definition aliveOrSuspectCount (v : MembershipView) : Z := eligibleCount v.

Definition confirmationReporters (v : MembershipView) (member : jsstring) : list jsstring :=
  match view_get v member with
  | Some r => if decide (u_state (truth r) = Suspect) then confirmations r else []
  | None => []
  end.

Definition isGossipEligible (v : MembershipView) (name : jsstring) (now : Z) : bool :=
  match view_get v name with
  | None => false
  | Some r =>
      isProbeEligibleState (u_state (truth r))
      || (isTerminalState (u_state (truth r)) && (now <? appliedAt r + TERMINAL_RETENTION_MS))
  end.

Definition wouldRefute (v : MembershipView) (update : MembershipUpdate) : bool :=
  if decide (u_member update ≠ selfName v) then false
  else
    let current := view_get v (u_member update) in
    if decide (u_state update ≠ Alive)
    then match current with None => true | Some c => incarnation (truth c) <=? incarnation update end
    else match current with
         | None => false
         | Some c =>
             if decide (u_state (truth c) ≠ Alive) then false
             else if incarnation (truth c) <? incarnation update then true
             else (incarnation update =? incarnation (truth c))
                  && negb (wire_bytesEqual (metadata update) (metadata (truth c)))
         end.

(** ** Operations *)

Definition clamp_time (now : Z) (last : option Z) : Z :=
  match last with None => now | Some l => Z.max now l end.

(** [#replace]: the stored record, the event it derives, and the view. *)
Definition replace (v : MembershipView) (incoming : MembershipUpdate)
    (previous : option StoredRecord) (now : Z)
    : result (StoredRecord * option MembershipEvent * MembershipView) :=
  if bool_decide (previous = None) && (MAX_MEMBERS <=? view_size v)
  then Throw MembershipCapacityError
  else
    let previousEligible :=
      match previous with Some p => isProbeEligibleState (u_state (truth p)) | None => false end in
    let nextEligible := isProbeEligibleState (u_state incoming) in
    let count :=
      if negb (Bool.eqb previousEligible nextEligible)
      then eligibleCount v + (if nextEligible then 1 else -1) else eligibleCount v in
    let at_ := clamp_time now (lastAppliedAt v) in
    let stored := MkStored incoming at_
      (if decide (u_state incoming = Suspect) then [u_reporter incoming] else []) in
    let event := (λ type, MkEvent type incoming (truth <$> previous)) <$> eventType previous stored in
    Ok (stored, event,
        MkView (selfName v) (jm_set (u_member incoming) stored (records v)) (Some at_) count).

(** [#confirmationOrIgnored]: a distinct accuser of the same suspicion is added to the
    retained record in place. *)
Definition confirmationOrIgnored (v : MembershipView) (incoming : MembershipUpdate)
    (current : StoredRecord) : ApplyResult * MembershipView :=
  if bool_decide (u_state incoming ≠ Suspect) || bool_decide (u_state (truth current) ≠ Suspect)
     || negb (incarnation incoming =? incarnation (truth current))
     || bool_decide (u_reporter incoming ∈ confirmations current)
  then (Ignored, v)
  else
    let confirmed := confirmations current ++ [u_reporter incoming] in
    let stored := MkStored (truth current) (appliedAt current) confirmed in
    (Confirmed (u_member incoming) (incarnation incoming) (u_reporter incoming)
       (Z.of_nat (length confirmed) - 1),
     MkView (selfName v) (jm_set (u_member incoming) stored (records v)) (lastAppliedAt v)
       (eligibleCount v)).

(** [#refute]. *)
Definition refute (v : MembershipView) (accusation : MembershipUpdate)
    (current : option StoredRecord) (now time : Z) : result (ApplyResult * MembershipView) :=
  let base := Z.max (incarnation accusation)
                (match current with Some c => incarnation (truth c) | None => 0 end) in
  if MAX_INCARNATION <=? base then Throw (IncarnationExhaustedError base)
  else
    let kept := match current with
                | Some c => if decide (u_state (truth c) = Alive) then metadata (truth c) else []
                | None => []
                end in
    let alive := MkUpdate Alive true (base + 1) time (selfName v) [] kept in
    let! (record, event, v') := replace v alive current now in
    Ok (Refuted accusation record event, v').

Definition view_apply (v : MembershipView) (incoming : MembershipUpdate) (now time : Z)
    : result (ApplyResult * MembershipView) :=
  let current := view_get v (u_member incoming) in
  if wouldRefute v incoming then refute v incoming current now time
  else if bool_decide (current = None) && isTerminalState (u_state incoming) then Ok (Ignored, v)
  else match current with
       | Some c =>
           if compareMembershipUpdates incoming (truth c) <=? 0
           then Ok (confirmationOrIgnored v incoming c)
           else let! (record, event, v') := replace v incoming current now in
                Ok (Applied record event, v')
       | None =>
           let! (record, event, v') := replace v incoming current now in
           Ok (Applied record event, v')
       end.

Definition applyLocal (v : MembershipView) (update : MembershipUpdate) (now : Z)
    : result (ApplyResult * MembershipView) :=
  match view_get v (u_member update) with
  | Some c =>
      if compareMembershipUpdates update (truth c) <=? 0
      then Ok (confirmationOrIgnored v update c)
      else let! (record, event, v') := replace v update (Some c) now in
           Ok (Applied record event, v')
  | None =>
      let! (record, event, v') := replace v update None now in
      Ok (Applied record event, v')
  end.

Definition reapOperation (v : MembershipView) (name : jsstring) : option ReapOperation :=
  match view_get v name with
  | Some r =>
      if isTerminalState (u_state (truth r))
      then Some (MkReap (u_member (truth r)) (u_state (truth r)) (incarnation (truth r))
                   (appliedAt r + TERMINAL_RETENTION_MS))
      else None
  | None => None
  end.

Definition dueReaps (v : MembershipView) (now : Z) : list ReapOperation :=
  omap (λ r, if isTerminalState (u_state (truth r)) then
               match reapOperation v (u_member (truth r)) with
               | Some op => if rp_dueAt op <=? now then Some op else None
               | None => None
               end
             else None) (jm_values (records v)).

Definition view_reap (v : MembershipView) (op : ReapOperation) : bool * MembershipView :=
  match view_get v (rp_member op) with
  | Some c =>
      if negb (bool_decide (u_state (truth c) = rp_state op))
         || negb (incarnation (truth c) =? rp_incarnation op)
         || negb (appliedAt c + TERMINAL_RETENTION_MS =? rp_dueAt op)
      then (false, v)
      else (true, MkView (selfName v) (jm_delete (rp_member op) (records v)) (lastAppliedAt v)
                    (eligibleCount v))
  | None => (false, v)
  end.

(** ** Precedence *)

Lemma wire_bytesEqual_spec a b : wire_bytesEqual a b = bool_decide (a = b).
Proof.
  unfold wire_bytesEqual. revert b. induction a as [|x a IH]; intros [|y b]; try (by case_bool_decide).
  cbn. specialize (IH b). destruct (Nat.eqb (length a) (length b)) eqn:E; cbn [negb] in *.
  - destruct (Z.eqb_spec x y) as [->|Hne]; cbn [negb].
    + rewrite IH. repeat case_bool_decide; congruence.
    + rewrite bool_decide_false; [done|]. by intros [= ? _].
  - apply Nat.eqb_neq in E. rewrite bool_decide_false; [done|]. intros [= _ ->]. done.
Qed.

(** A truth's precedence as one number. *)
Definition rank (u : MembershipUpdate) : Z := 4 * incarnation u + state_code (u_state u).

Lemma state_code_range s : 0 ≤ state_code s ≤ 3.
Proof. destruct s; cbn; lia. Qed.

Lemma rank_inj a b : rank a = rank b → incarnation a = incarnation b ∧ u_state a = u_state b.
Proof.
  unfold rank. pose proof (state_code_range (u_state a)). pose proof (state_code_range (u_state b)).
  intros H1. assert (incarnation a = incarnation b) by lia. split; [done|].
  assert (state_code (u_state a) = state_code (u_state b)) as E by lia.
  by destruct (u_state a), (u_state b).
Qed.

Lemma compare_rank a b : (compareMembershipUpdates a b <=? 0) = (rank a <=? rank b).
Proof.
  unfold compareMembershipUpdates, rank.
  pose proof (state_code_range (u_state a)). pose proof (state_code_range (u_state b)).
  destruct (Z.eqb_spec (incarnation a) (incarnation b)) as [E|E]; cbn [negb].
  - destruct (decide (u_state a = u_state b)) as [Es|Es]; [rewrite Es, E; lia|].
    assert (state_code (u_state a) ≠ state_code (u_state b)) by (by destruct (u_state a), (u_state b)).
    destruct (Z.ltb_spec (state_code (u_state b)) (state_code (u_state a))); lia.
  - destruct (Z.ltb_spec (incarnation b) (incarnation a)); lia.
Qed.

(** ** Counting bound values *)

Section counting.
Context {K V : Type} `{EqDecision K} (P : V → Prop) `{!∀ v, Decision (P v)}.

Definition count_of (o : option V) : nat :=
  match o with Some v => if decide (P v) then 1 else 0 | None => 0 end%nat.

Lemma jm_count_set (k : K) v (m : list (K * V)) :
  (length (filter P (jm_values (jm_set k v m))) + count_of (jm_get k m)
   = length (filter P (jm_values m)) + count_of (Some v))%nat.
Proof.
  unfold jm_values, count_of. induction m as [|[j w] m IH]; csimpl.
  - rewrite filter_cons. destruct (decide (P v)); cbn; lia.
  - destruct (decide (k = j)) as [->|Hne]; csimpl; rewrite !filter_cons.
    + destruct (decide (P v)), (decide (P w)); cbn; lia.
    + destruct (decide (P w)); cbn [length]; lia.
Qed.

Lemma jm_count_delete (k : K) (m : list (K * V)) :
  jm_wf m →
  (length (filter P (jm_values (jm_delete k m))) + count_of (jm_get k m)
   = length (filter P (jm_values m)))%nat.
Proof.
  unfold jm_wf, jm_values, count_of. induction m as [|[j w] m IH]; csimpl; [done|].
  intros [Hj Hnd]%NoDup_cons. specialize (IH Hnd).
  destruct (decide (k = j)) as [->|Hne]; csimpl; rewrite !filter_cons.
  - rewrite jm_delete_notin by done. destruct (decide (P w)); cbn; lia.
  - destruct (decide (P w)); cbn [length]; lia.
Qed.
End counting.

(** ** Executions *)

(** A remote update, a local one, or the execution of a reap token. *)
Inductive view_op :=
  | OpApply (u : MembershipUpdate) (now time : Z)
  | OpLocal (u : MembershipUpdate) (now : Z)
  | OpReap (op : ReapOperation).

(** A reap token names a terminal state. *)
Definition op_ok (op : view_op) : Prop :=
  match op with OpReap r => isTerminalState (rp_state r) = true | _ => True end.

Definition event_of (r : ApplyResult) : option MembershipEvent :=
  match r with Applied _ e | Refuted _ _ e => e | _ => None end.

(** One operation and the event it emits; one that throws changes nothing. *)
Definition view_step (v : MembershipView) (op : view_op) : option MembershipEvent * MembershipView :=
  match match op with
        | OpApply u now time => view_apply v u now time
        | OpLocal u now => applyLocal v u now
        | OpReap r => Ok (Ignored, (view_reap v r).2)
        end with
  | Ok (r, v') => (event_of r, v')
  | Throw _ => (None, v)
  end.

Fixpoint view_exec (v : MembershipView) (ops : list view_op) : list MembershipEvent * MembershipView :=
  match ops with
  | [] => ([], v)
  | op :: ops' =>
      let '(e, v) := view_step v op in
      let '(es, v) := view_exec v ops' in
      (option_list e ++ es, v)
  end.

Definition eligible (r : StoredRecord) : Prop := isProbeEligibleState (u_state (truth r)) = true.

Record view_inv (v : MembershipView) : Prop := {
  vi_wf : jm_wf (records v);
  vi_keys : ∀ k r, view_get v k = Some r → u_member (truth r) = k;
  vi_count : eligibleCount v = Z.of_nat (length (filter eligible (jm_values (records v))));
  vi_cap : view_size v ≤ MAX_MEMBERS;
  vi_applied : ∀ k r, view_get v k = Some r → ∃ l, lastAppliedAt v = Some l ∧ appliedAt r ≤ l;
  vi_accusers : ∀ k r, view_get v k = Some r → NoDup (confirmations r)
    ∧ head (confirmations r) = (if decide (u_state (truth r) = Suspect)
                                then Some (u_reporter (truth r)) else None) }.

Lemma new_view_inv name : view_inv (new_MembershipView name).
Proof. split; try done; apply jm_wf_nil. Qed.

(** What changes at one key. *)
Definition put (v v' : MembershipView) (m : jsstring) (r : StoredRecord) : Prop :=
  selfName v' = selfName v ∧ ∀ k, view_get v' k = if decide (k = m) then Some r else view_get v k.

Lemma eligible_terminal s : isProbeEligibleState s = negb (isTerminalState s).
Proof. by destruct s. Qed.

Lemma length_jm_set {K V} `{EqDecision K} (k : K) (v : V) m :
  length (jm_set k v m) = (length m + match jm_get k m with Some _ => 0 | None => 1 end)%nat.
Proof.
  induction m as [|[j w] m IH]; cbn [jm_set jm_get length]; [done|].
  destruct (decide (k = j)); cbn [length]; lia.
Qed.

Lemma count_eligible o :
  count_of eligible o
  = match o with Some r => if isProbeEligibleState (u_state (truth r)) then 1 else 0 | None => 0 end%nat.
Proof.
  unfold count_of, eligible. destruct o as [r|]; [|done].
  by destruct (isProbeEligibleState _), (decide _).
Qed.

Lemma replace_ok v u now stored event v' :
  view_inv v → replace v u (view_get v (u_member u)) now = Ok (stored, event, v') →
  truth stored = u ∧ put v v' (u_member u) stored ∧ view_inv v'
  ∧ event = (λ type, MkEvent type u (truth <$> view_get v (u_member u)))
              <$> eventType (view_get v (u_member u)) stored.
Proof.
  intros [Hwf Hk Hc Hcap Hat Hacc] H. unfold replace in H. destruct (_ && _) eqn:Hfull; [done|].
  injection H as <- <- <-. set (st := MkStored u _ _).
  assert (∀ k, view_get (MkView (selfName v) (jm_set (u_member u) st (records v))
    (Some (clamp_time now (lastAppliedAt v))) 0) k
    = if decide (k = u_member u) then Some st else view_get v k) as Hget
    by (intros k; unfold view_get; cbn; by rewrite jm_get_set).
  split; [done|]. split; [split; [done|]; exact Hget|]. split; [|done]. split.
  - by apply jm_wf_set.
  - intros k r Hr. unfold view_get in Hget, Hr. cbn in Hget, Hr. rewrite Hget in Hr.
    destruct (decide (k = u_member u)) as [->|]; [by injection Hr as <-|by apply Hk].
  - cbn [eligibleCount records]. rewrite Hc.
    pose proof (jm_count_set eligible (u_member u) st (records v)) as Hcnt.
    fold (view_get v (u_member u)) in Hcnt. rewrite !count_eligible in Hcnt. cbn [truth st] in Hcnt.
    destruct (view_get v (u_member u)) as [p|];
      [destruct (isProbeEligibleState (u_state (truth p)))|];
      destruct (isProbeEligibleState (u_state u)); cbn [Bool.eqb negb] in *; lia.
  - unfold view_size in *. cbn [records]. rewrite length_jm_set. fold (view_get v (u_member u)).
    destruct (view_get v (u_member u)); [lia|]. rewrite bool_decide_true in Hfull by done.
    cbn [andb] in Hfull. lia.
  - intros k r Hr. unfold view_get in Hget, Hr. cbn in Hget, Hr. rewrite Hget in Hr. eexists. split; [done|].
    destruct (decide (k = u_member u)) as [->|]; [injection Hr as <-; done|].
    destruct (Hat k r Hr) as (l & Hl & Hle). rewrite Hl. cbn. lia.
  - intros k r Hr. unfold view_get in Hget, Hr. cbn in Hget, Hr. rewrite Hget in Hr.
    destruct (decide (k = u_member u)) as [->|]; [|by eapply Hacc].
    injection Hr as <-. cbn. destruct (decide (u_state u = Suspect)); split; try done;
      [apply NoDup_singleton|constructor].
Qed.

(** How one operation changes the table, and the event it emits. *)
Inductive change (v v' : MembershipView) : option MembershipEvent → Prop :=
  | ch_same :
      (∀ k, truth <$> view_get v' k = truth <$> view_get v k) → change v v' None
  | ch_put m st :
      put v v' m st → u_member (truth st) = m →
      (∀ p, view_get v m = Some p → rank (truth p) < rank (truth st)) →
      change v v' ((λ type, MkEvent type (truth st) (truth <$> view_get v m))
                     <$> eventType (view_get v m) st)
  | ch_reap m p :
      view_get v m = Some p → isTerminalState (u_state (truth p)) = true →
      (∀ k, view_get v' k = if decide (k = m) then None else view_get v k) → change v v' None.

(** An operation keeps the invariant and is a change. *)
Definition step_ok (v : MembershipView) (r : option MembershipEvent) (v' : MembershipView) : Prop :=
  view_inv v' ∧ selfName v' = selfName v ∧ change v v' r.

Lemma step_ok_refl v : view_inv v → step_ok v None v.
Proof. intros H. split; [done|]. split; [done|]. by apply ch_same. Qed.

Lemma confirmation_ok v u c :
  view_inv v → view_get v (u_member u) = Some c →
  step_ok v (event_of (confirmationOrIgnored v u c).1) (confirmationOrIgnored v u c).2.
Proof.
  intros Hv Hc. unfold confirmationOrIgnored. destruct (_ || _) eqn:E; [by apply step_ok_refl|].
  apply orb_false_iff in E as [[[E1 E2]%orb_false_iff E3]%orb_false_iff E4].
  apply bool_decide_eq_false in E2, E4. apply dec_stable in E2.
  destruct Hv as [Hwf Hk Hcnt Hcap Hat Hacc]. cbn [fst snd event_of].
  set (st := MkStored (truth c) (appliedAt c) _).
  assert (∀ k, jm_get k (jm_set (u_member u) st (records v))
    = if decide (k = u_member u) then Some st else view_get v k) as Hget
    by (intros k; by rewrite jm_get_set).
  split; [|split; [done|]].
  - split; cbn [records eligibleCount lastAppliedAt]; unfold view_get; cbn [records].
    + by apply jm_wf_set.
    + intros k r. rewrite Hget. destruct (decide (k = u_member u)) as [->|]; [|apply Hk].
      intros [= <-]. exact (Hk _ _ Hc).
    + rewrite Hcnt. pose proof (jm_count_set eligible (u_member u) st (records v)) as H.
      fold (view_get v (u_member u)) in H. rewrite !count_eligible, Hc in H. cbn [truth st] in H. lia.
    + unfold view_size in *. cbn [records]. rewrite length_jm_set. fold (view_get v (u_member u)).
      rewrite Hc. lia.
    + intros k r. rewrite Hget. destruct (decide (k = u_member u)) as [->|]; [|apply Hat].
      intros [= <-]. exact (Hat _ _ Hc).
    + intros k r. rewrite Hget. destruct (decide (k = u_member u)) as [->|]; [|apply Hacc].
      intros [= <-]. cbn [truth confirmations st]. destruct (Hacc _ _ Hc) as [Hnd Hh]. split.
      * apply NoDup_app. split; [done|]. split; [|apply NoDup_singleton].
        intros x Hx ->%list_elem_of_singleton. done.
      * rewrite decide_True in Hh |- * by done. by destruct (confirmations c).
  - apply ch_same. intros k. unfold view_get at 1. cbn [records]. rewrite Hget.
    destruct (decide (k = u_member u)) as [->|]; [|done]. by rewrite Hc.
Qed.

Lemma replace_step v u now stored event v' :
  view_inv v → replace v u (view_get v (u_member u)) now = Ok (stored, event, v') →
  (∀ p, view_get v (u_member u) = Some p → rank (truth p) < rank u) → step_ok v event v'.
Proof.
  intros Hv H Hr. destruct (replace_ok v u now stored event v' Hv H) as (Ht & Hput & Hv' & ->).
  split; [done|]. split; [apply Hput|]. rewrite <-Ht in Hput, Hr |- *.
  by apply (ch_put v v' (u_member (truth stored)) stored).
Qed.

Lemma refute_step v u now time r v' :
  view_inv v → u_member u = selfName v →
  refute v u (view_get v (u_member u)) now time = Ok (r, v') → step_ok v (event_of r) v'.
Proof.
  intros Hv Hself H. unfold refute in H. destruct (MAX_INCARNATION <=? _); [done|].
  rewrite Hself in H. set (alive := MkUpdate Alive _ _ _ _ _ _) in H.
  destruct (replace v alive _ now) as [[[st ev] v1]|] eqn:E; [|done]. injection H as <- <-.
  apply (replace_step v alive now st ev v1 Hv E). intros p Hp. change (u_member alive) with (selfName v) in Hp.
  unfold alive, rank. rewrite Hp. cbn [incarnation u_state state_code].
  pose proof (state_code_range (u_state (truth p))). lia.
Qed.

Lemma apply_step v u now time r v' :
  view_inv v → view_apply v u now time = Ok (r, v') → step_ok v (event_of r) v'.
Proof.
  intros Hv H. unfold view_apply in H. destruct (wouldRefute v u) eqn:Hw.
  - apply (refute_step v u now time r v' Hv); [|done]. unfold wouldRefute in Hw.
    destruct (decide (u_member u ≠ selfName v)) as [|He]; [done|]. by apply dec_stable in He.
  - destruct (_ && _); [injection H as <- <-; by apply step_ok_refl|].
    destruct (view_get v (u_member u)) as [c|] eqn:Hc.
    + rewrite compare_rank in H. destruct (Z.leb_spec (rank u) (rank (truth c))) as [|Hlt].
      * assert (confirmationOrIgnored v u c = (r, v')) as H' by congruence. pose proof (confirmation_ok v u c Hv Hc) as Hs. by rewrite H' in Hs.
      * rewrite <-Hc in H. destruct (replace v u _ now) as [[[st ev] v1]|] eqn:E; [|done].
        injection H as <- <-. apply (replace_step v u now st ev v1 Hv E).
        intros p Hp. rewrite Hc in Hp. by injection Hp as <-.
    + rewrite <-Hc in H. destruct (replace v u _ now) as [[[st ev] v1]|] eqn:E; [|done].
      injection H as <- <-. apply (replace_step v u now st ev v1 Hv E).
      intros p Hp. congruence.
Qed.

Lemma local_step v u now r v' :
  view_inv v → applyLocal v u now = Ok (r, v') → step_ok v (event_of r) v'.
Proof.
  intros Hv H. unfold applyLocal in H. destruct (view_get v (u_member u)) as [c|] eqn:Hc.
  - rewrite compare_rank in H. destruct (Z.leb_spec (rank u) (rank (truth c))) as [|Hlt].
    + assert (confirmationOrIgnored v u c = (r, v')) as H' by congruence. pose proof (confirmation_ok v u c Hv Hc) as Hs. by rewrite H' in Hs.
    + rewrite <-Hc in H. destruct (replace v u _ now) as [[[st ev] v1]|] eqn:E; [|done].
      injection H as <- <-. apply (replace_step v u now st ev v1 Hv E).
      intros p Hp. rewrite Hc in Hp. by injection Hp as <-.
  - rewrite <-Hc in H. destruct (replace v u _ now) as [[[st ev] v1]|] eqn:E; [|done].
    injection H as <- <-. apply (replace_step v u now st ev v1 Hv E). intros p Hp. congruence.
Qed.

Lemma reap_step v op :
  view_inv v → isTerminalState (rp_state op) = true → step_ok v None (view_reap v op).2.
Proof.
  intros Hv Hop. unfold view_reap. destruct (view_get v (rp_member op)) as [c|] eqn:Hc; [|by apply step_ok_refl].
  destruct (_ || _) eqn:E; [by apply step_ok_refl|].
  apply orb_false_iff in E as [[E _]%orb_false_iff _].
  apply negb_false_iff, bool_decide_eq_true in E. rewrite <-E in Hop.
  destruct Hv as [Hwf Hk Hcnt Hcap Hat Hacc].
  assert (∀ k, jm_get k (jm_delete (rp_member op) (records v))
    = if decide (k = rp_member op) then None else view_get v k) as Hget
    by (intros k; by rewrite jm_get_delete).
  assert (∀ k r, jm_get k (jm_delete (rp_member op) (records v)) = Some r → view_get v k = Some r) as Hold
    by (intros k r; rewrite Hget; by destruct (decide _)).
  split; [|split; [done|]; by apply (ch_reap v _ (rp_member op) c)].
  split; cbn [snd records eligibleCount lastAppliedAt]; unfold view_get; cbn [records].
  - by apply jm_wf_delete.
  - intros k r ?%Hold. by apply Hk.
  - rewrite Hcnt. pose proof (jm_count_delete eligible (rp_member op) (records v) Hwf) as H.
    fold (view_get v (rp_member op)) in H. rewrite count_eligible, Hc, eligible_terminal, Hop in H.
    cbn in H. lia.
  - unfold view_size in *. cbn [records]. rewrite jm_delete_filter. etransitivity; [|exact Hcap].
    apply Nat2Z.inj_le, length_filter.
  - intros k r ?%Hold. by apply (Hat k).
  - intros k r ?%Hold. by apply (Hacc k).
Qed.

Lemma view_step_ok v op : view_inv v → op_ok op → step_ok v (view_step v op).1 (view_step v op).2.
Proof.
  intros Hv Hop. unfold view_step. destruct op as [u now time|u now|r].
  - destruct (view_apply v u now time) as [[r v']|] eqn:E; [|by apply step_ok_refl]. by eapply apply_step.
  - destruct (applyLocal v u now) as [[r v']|] eqn:E; [|by apply step_ok_refl]. by eapply local_step.
  - by apply reap_step.
Qed.

Lemma view_exec_cons v op ops :
  view_exec v (op :: ops)
  = (option_list (view_step v op).1 ++ (view_exec (view_step v op).2 ops).1,
     (view_exec (view_step v op).2 ops).2).
Proof. cbn [view_exec]. destruct (view_step v op) as [e v1]. cbn. by destruct (view_exec v1 ops). Qed.

Lemma view_exec_inv v ops :
  view_inv v → Forall op_ok ops →
  view_inv (view_exec v ops).2 ∧ selfName (view_exec v ops).2 = selfName v.
Proof.
  revert v. induction ops as [|op ops IH]; intros v Hv Hops; [done|].
  apply Forall_cons in Hops as [Hop Hops]. rewrite view_exec_cons. cbn [snd].
  destruct (view_step_ok v op Hv Hop) as (Hv1 & Hn & _).
  destruct (IH _ Hv1 Hops) as [Hv2 Hn2]. split; [done|congruence].
Qed.

(** ** Convergence *)

(** [v] receives a batch of remote updates, each at its own time. *)
Definition receive (v : MembershipView) (us : list (MembershipUpdate * Z * Z)) : MembershipView :=
  (view_exec v ((λ p, OpApply p.1.1 p.1.2 p.2) <$> us)).2.

(** The updates about [m] in a batch. *)
Definition about (m : jsstring) (us : list (MembershipUpdate * Z * Z)) : list MembershipUpdate :=
  filter (λ u, u_member u = m) ((λ p, p.1.1) <$> us).

Lemma confirmation_get v u c k :
  view_get v (u_member u) = Some c →
  truth <$> view_get (confirmationOrIgnored v u c).2 k = truth <$> view_get v k.
Proof.
  intros Hc. unfold confirmationOrIgnored. destruct (_ || _); [done|]. unfold view_get at 1.
  cbn [snd records]. rewrite jm_get_set. destruct (decide (k = u_member u)) as [->|]; [by rewrite Hc|done].
Qed.

Lemma replace_get v u now stored event v' k :
  view_inv v → replace v u (view_get v (u_member u)) now = Ok (stored, event, v') →
  truth <$> view_get v' k = if decide (k = u_member u) then Some u else truth <$> view_get v k.
Proof.
  intros Hv H. destruct (replace_ok v u now stored event v' Hv H) as (Ht & [_ Hput] & _).
  rewrite Hput. destruct (decide _); cbn; congruence.
Qed.

(** The truth a remote update about another node leaves for each member. *)
Lemma apply_foreign v u now time k c :
  view_inv v → u_member u ≠ selfName v → view_get v (u_member u) = Some c →
  truth <$> view_get (view_step v (OpApply u now time)).2 k
  = if decide (k = u_member u ∧ rank (truth c) < rank u) then Some u else truth <$> view_get v k.
Proof.
  intros Hv Hm Hc. unfold view_step, view_apply, wouldRefute.
  destruct (decide (u_member u ≠ selfName v)); [|done]. rewrite Hc, bool_decide_false, compare_rank by done. cbn [andb].
  destruct (Z.leb_spec (rank u) (rank (truth c))) as [Hle|Hlt].
  - rewrite decide_False by lia. pose proof (confirmation_get v u c k Hc) as H.
    by destruct (confirmationOrIgnored v u c).
  - rewrite <-Hc. destruct (replace v u _ now) as [[[st ev] v1]|e] eqn:E; cbn [snd].
    + transitivity (truth <$> view_get v1 k); [done|].
      rewrite (replace_get v u now st ev v1 k Hv E). repeat destruct (decide _); tauto.
    + unfold replace in E. rewrite bool_decide_false in E by congruence. done.
Qed.

(** An update about one member leaves the others alone. *)
Lemma apply_frame v u now time k :
  view_inv v → k ≠ u_member u →
  truth <$> view_get (view_step v (OpApply u now time)).2 k = truth <$> view_get v k.
Proof.
  intros Hv Hk. unfold view_step. destruct (view_apply v u now time) as [[r v']|] eqn:H; [|done].
  cbn [snd]. unfold view_apply in H. destruct (wouldRefute v u) eqn:Hw.
  - unfold wouldRefute in Hw. destruct (decide (u_member u ≠ selfName v)) as [|He%dec_stable]; [done|].
    unfold refute in H. destruct (MAX_INCARNATION <=? _); [done|].
    rewrite He in H. set (alive := MkUpdate Alive _ _ _ _ _ _) in H.
    destruct (replace v alive _ now) as [[[st ev] v1]|] eqn:E; [|done]. injection H as <- <-.
    rewrite (replace_get v alive now st ev v1 k Hv E), decide_False by (cbn; congruence). done.
  - destruct (_ && _); [by injection H as <- <-|].
    destruct (view_get v (u_member u)) as [c|] eqn:Hc; [destruct (_ <=? 0)|]; rewrite <-?Hc in H.
    + pose proof (confirmation_get v u c k Hc) as Hg. destruct (confirmationOrIgnored v u c).
      by injection H as <- <-.
    + destruct (replace v u _ now) as [[[st ev] v1]|] eqn:E; [|done]. injection H as <- <-.
      rewrite (replace_get v u now st ev v1 k Hv E), decide_False by done. done.
    + destruct (replace v u _ now) as [[[st ev] v1]|] eqn:E; [|done]. injection H as <- <-.
      rewrite (replace_get v u now st ev v1 k Hv E), decide_False by done. done.
Qed.

(** After a batch, the truth about a retained foreign member is a greatest one among
    the truth held before and the updates received. *)
Lemma receive_greatest v us m c :
  view_inv v → m ≠ selfName v → view_get v m = Some c →
  ∃ u, truth <$> view_get (receive v us) m = Some u ∧ u ∈ truth c :: about m us
    ∧ ∀ w, w ∈ truth c :: about m us → rank w ≤ rank u.
Proof.
  revert v c. induction us as [|[[u now] time] us IH]; intros v c Hv Hm Hc.
  - exists (truth c). unfold receive. cbn [fmap list_fmap view_exec snd]. rewrite Hc.
    split; [done|]. split; [by left|]. by intros w ->%list_elem_of_singleton.
  - destruct (view_step_ok v (OpApply u now time) Hv I) as (Hv1 & Hn & _).
    assert (receive v ((u, now, time) :: us)
      = receive (view_step v (OpApply u now time)).2 us) as ->.
    { unfold receive. by rewrite fmap_cons, view_exec_cons. }
    set (v1 := (view_step v _).2) in *. rewrite <-Hn in Hm.
    assert (∃ c1, view_get v1 m = Some c1
      ∧ (if decide (u_member u = m ∧ rank (truth c) < rank u) then u else truth c) = truth c1)
      as (c1 & Hc1 & Ht).
    { apply fmap_Some. unfold v1. destruct (decide (u_member u = m)) as [<-|He].
      - rewrite (apply_foreign v u now time _ c Hv), Hc by congruence. repeat destruct (decide _); tauto.
      - rewrite apply_frame, Hc by (done || congruence). rewrite decide_False by tauto. done. }
    destruct (IH v1 c1 Hv1 Hm Hc1) as (w & Hw & Hin & Hmax). exists w. split; [done|].
    unfold about in *. rewrite fmap_cons, filter_cons. cbn [fst]. set (rest := filter _ _) in *.
    pose proof (Hmax (truth c1) ltac:(by left)) as Hc1w.
    destruct (decide (u_member u = m)) as [He|He];
      [|rewrite decide_False in Ht by tauto; by rewrite Ht].
    setoid_rewrite elem_of_cons in Hmax. rewrite elem_of_cons in Hin. setoid_rewrite elem_of_cons.
    setoid_rewrite elem_of_cons. destruct (decide (u_member u = m ∧ rank (truth c) < rank u)) as [[_ Hlt]|Hlt].
    + split; [destruct Hin as [->|]; [right; by left|by do 2 right]|].
      intros x [->|[->|Hx]]; [rewrite <-Ht in Hc1w; lia|by rewrite Ht|by apply Hmax; right].
    + split; [destruct Hin as [->|]; [by left|by do 2 right]|].
      intros x [->|[->|Hx]]; [by rewrite Ht| |by apply Hmax; right].
      rewrite <-Ht in Hc1w. destruct (decide (rank (truth c) < rank u)); [tauto|lia].
Qed.

(** A view that does not know a member ignores its end. *)
Lemma unknown_terminal_ignored v u now time :
  u_member u ≠ selfName v → view_get v (u_member u) = None → isTerminalState (u_state u) = true → receive v [(u, now, time)] = v.
Proof.
  intros Hs Hn Ht. unfold receive. cbn [fmap list_fmap fst snd view_exec]. unfold view_step, view_apply, wouldRefute.
  rewrite decide_True, Hn, bool_decide_true, Ht by done. done.
Qed.

(** C31: two members whose views both retain a third one, and that between what they hold and
    what they receive have the same truths about it, agree on it, in whatever order and
    however often the truths arrived.  That the views retain it is needed: a view that does
    not know a member ignores a truth that says it is dead or has left, and changes nothing,
    so that what arrives first then matters. *)
Theorem gossip_converges v1 v2 us1 us2 m c1 c2 :
  view_inv v1 → view_inv v2 → m ≠ selfName v1 → m ≠ selfName v2 →
  view_get v1 m = Some c1 → view_get v2 m = Some c2 →
  (∀ r, r ∈ rank <$> truth c1 :: about m us1 ↔ r ∈ rank <$> truth c2 :: about m us2) →
  stateOf (receive v1 us1) m = stateOf (receive v2 us2) m
  ∧ ((∀ a b, a ∈ truth c1 :: about m us1 → b ∈ truth c2 :: about m us2 → rank a = rank b →
      metadata a = metadata b) →
     metadata ∘ truth <$> view_get (receive v1 us1) m
     = metadata ∘ truth <$> view_get (receive v2 us2) m)
  ∧ ∀ v u now time,
      u_member u ≠ selfName v → view_get v (u_member u) = None → isTerminalState (u_state u) = true →
      receive v [(u, now, time)] = v.
Proof.
  intros Hv1 Hv2 Hm1 Hm2 Hc1 Hc2 Hsame. rewrite (assoc (∧)). split; [|by apply unknown_terminal_ignored].
  destruct (receive_greatest v1 us1 m c1 Hv1 Hm1 Hc1) as (a & Ha & Hina & Hmaxa).
  destruct (receive_greatest v2 us2 m c2 Hv2 Hm2 Hc2) as (b & Hb & Hinb & Hmaxb).
  assert (rank a = rank b) as Hr.
  { pose proof (proj1 (Hsame (rank a)) (list_elem_of_fmap_2 rank _ _ Hina)) as (x & E1 & H1)%list_elem_of_fmap.
    pose proof (proj2 (Hsame (rank b)) (list_elem_of_fmap_2 rank _ _ Hinb)) as (y & E2 & H2)%list_elem_of_fmap.
    specialize (Hmaxb x H1). specialize (Hmaxa y H2). lia. }
  destruct (rank_inj a b Hr) as [Hi Hs]. unfold stateOf.
  destruct (view_get (receive v1 us1) m) as [r1|], (view_get (receive v2 us2) m) as [r2|]; try done.
  apply (inj Some) in Ha, Hb. cbn. subst a b. rewrite Hi, Hs. split; [done|].
  intros Hmd. by rewrite (Hmd _ _ Hina Hinb Hr).
Qed.

(** ** Self-defence *)

(** [v] holds its own record as alive at [inc], with metadata [md]. *)
Definition self_alive (v : MembershipView) (inc : Z) (md : list Z) : Prop :=
  ∃ u, truth <$> view_self v = Some u ∧ u_state u = Alive ∧ incarnation u = inc ∧ metadata u = md.

(** A refutation: the node's record alive, one above the accusation, its metadata kept. *)
Lemma refute_self v u now time c :
  view_inv v → u_member u = selfName v → wouldRefute v u = true → view_get v (u_member u) = Some c →
  u_state (truth c) = Alive → incarnation u < MAX_INCARNATION →
  incarnation (truth c) ≤ incarnation u
  ∧ ∃ a, truth <$> view_get (view_step v (OpApply u now time)).2 (u_member u) = Some a
      ∧ u_state a = Alive ∧ incarnation a = incarnation u + 1 ∧ metadata a = metadata (truth c).
Proof.
  intros Hv Hu Hr Hc Hst Hmax.
  assert (incarnation (truth c) ≤ incarnation u) as Hle.
  { unfold wouldRefute in Hr. rewrite decide_False, Hc, Hst in Hr by tauto. cbn in Hr.
    destruct (decide (u_state u ≠ Alive)); [lia|].
    destruct (incarnation (truth c) <? incarnation u) eqn:E; [lia|].
    apply andb_true_iff in Hr as [Hr _]. lia. }
  split; [done|]. unfold view_step, view_apply. rewrite Hr. unfold refute. rewrite Hc, Hst.
  rewrite Z.max_l by done. destruct (Z.leb_spec MAX_INCARNATION (incarnation u)) as [|_]; [lia|].
  rewrite decide_True, <-Hc by done. set (a := MkUpdate Alive _ _ _ _ _ _). exists a. split; [|done].
  rewrite Hu.
  change (selfName v) with (u_member a).
  destruct (replace v a _ now) as [[[st ev] v1]|] eqn:E; cbn [snd].
  - transitivity (truth <$> view_get v1 (u_member a)); [done|].
    by rewrite (replace_get v a now st ev v1 _ Hv E), decide_True.
  - unfold replace in E. rewrite bool_decide_false in E; [done|]. cbn. rewrite <-Hu. congruence.
Qed.

(** What one update about the node itself leaves: its own record, alive with the same
    metadata, above an accusation and at or above a copy of itself. *)
Lemma apply_self v u now time inc md :
  view_inv v → self_alive v inc md → u_member u = selfName v → incarnation u < MAX_INCARNATION →
  ∃ inc', self_alive (view_step v (OpApply u now time)).2 inc' md ∧ inc ≤ inc'
    ∧ incarnation u ≤ inc' ∧ (u_state u ≠ Alive → incarnation u < inc').
Proof.
  intros Hv (w & Hw & Hst & Hi & Hmd) Hu Hmax.
  assert (∃ c, view_get v (u_member u) = Some c ∧ truth c = w) as (c & Hc & Hcw).
  { unfold view_self in Hw. rewrite Hu. apply fmap_Some in Hw as (c & ? & ->). by exists c. }
  destruct (view_step_ok v (OpApply u now time) Hv I) as (_ & Hname & _).
  unfold self_alive, view_self. rewrite Hname. clear Hname. rewrite <-Hu.
  destruct (wouldRefute v u) eqn:Hr.
  - destruct (refute_self v u now time c Hv Hu Hr Hc) as (Hge & a & Ha & Ha1 & Ha2 & Ha3);
      [congruence..|]. rewrite Hcw in Hge, Ha3. exists (incarnation u + 1).
    split; [exists a; split; [done|]; split; [done|]; split; [done|congruence]|lia].
  - assert (incarnation u ≤ inc ∧ (u_state u ≠ Alive → incarnation u < inc)) as [Hle Hlt].
    { unfold wouldRefute in Hr. rewrite decide_False, Hc, Hcw, Hst, Hi in Hr by tauto.
      destruct (decide (u_state u ≠ Alive)) as [|Ha]; [lia|]. cbn in Hr.
      destruct (inc <? incarnation u) eqn:E; [done|]. split; [lia|tauto]. }
    exists inc. split; [|by split; [lia|]]. exists w. split; [|done]. rewrite <-Hcw.
    unfold view_step, view_apply. rewrite Hr, Hc, bool_decide_false by done. cbn [andb].
    rewrite compare_rank. replace (rank u <=? rank (truth c)) with true.
    + pose proof (confirmation_get v u c (u_member u) Hc) as Hg.
      destruct (confirmationOrIgnored v u c). cbn in *. by rewrite Hg, Hc.
    + symmetry. apply Z.leb_le. unfold rank. rewrite Hcw, Hst, Hi.
      pose proof (state_code_range (u_state u)). cbn [state_code].
      destruct (decide (u_state u = Alive)) as [->|Hn]; [cbn; lia|specialize (Hlt Hn); lia].
Qed.

(** At the last incarnation there is nothing above the accusation. *)
Lemma refute_exhausted v u now time inc md :
  self_alive v inc md → u_member u = selfName v → u_state u ≠ Alive → inc ≤ incarnation u → MAX_INCARNATION ≤ incarnation u →
  view_apply v u now time = Throw (IncarnationExhaustedError (incarnation u)).
Proof.
  intros (w & Hw & Hst & Hi & _) Hu Ha Hle Hmax. unfold view_self in Hw. apply fmap_Some in Hw as (c & Hc & ->).
  rewrite <-Hu in Hc. unfold view_apply, wouldRefute. rewrite decide_False, decide_True, Hc by tauto.
  rewrite (proj2 (Z.leb_le _ _)) by lia. unfold refute. rewrite Z.max_l by lia. by rewrite (proj2 (Z.leb_le _ _)) by lia.
Qed.

(** The node's record after any answers to accusations below the last incarnation. *)
Lemma accusations_refuted v us inc md :
  view_inv v → self_alive v inc md →
  (∀ u, u ∈ about (selfName v) us → incarnation u < MAX_INCARNATION) →
  ∃ inc', self_alive (receive v us) inc' md ∧ inc ≤ inc'
    ∧ ∀ u, u ∈ about (selfName v) us →
        incarnation u ≤ inc' ∧ (u_state u ≠ Alive → incarnation u < inc').
Proof.
  revert v inc. induction us as [|[[u now] time] us IH]; intros v inc Hv Hs Hmax.
  { exists inc. split; [done|]. split; [lia|]. intros u []%not_elem_of_nil. }
  destruct (view_step_ok v (OpApply u now time) Hv I) as (Hv1 & Hn & _).
  assert (receive v ((u, now, time) :: us)
    = receive (view_step v (OpApply u now time)).2 us) as ->
    by (unfold receive; by rewrite fmap_cons, view_exec_cons).
  set (v1 := (view_step v _).2) in *. rewrite <-Hn in Hmax |- *.
  unfold about in Hmax |- *. rewrite fmap_cons, filter_cons in Hmax |- *. cbn [fst] in Hmax |- *.
  destruct (decide (u_member u = selfName v1)) as [He|He].
  - rewrite Hn in He.
    destruct (apply_self v u now time inc md Hv Hs He) as (i1 & H1 & Hi1 & Hu1 & Hu2);
      [apply Hmax; by left|].
    destruct (IH v1 i1 Hv1 H1) as (i2 & H2 & Hi2 & Hall); [intros w ?; apply Hmax; by right|].
    exists i2. split; [done|]. split; [lia|].
    intros w [->|Hw]%elem_of_cons; [split; [lia|]; intros ?%Hu2; lia|by apply Hall].
  - apply IH; [done| |done]. destruct Hs as (w & Hw & Hrest). exists w. split; [|done].
    unfold view_self in *. rewrite Hn. unfold v1. rewrite apply_frame by congruence. done.
Qed.

(** C32: whatever the other members say about it, in any order, at incarnations below the
    last one (4294967295), a node keeps its own record alive with its own metadata, at an
    incarnation above every accusation.  An accusation at the last incarnation cannot be
    answered: applying it throws [IncarnationExhaustedError] and the view stays as it was. *)
Theorem self_defense_holds v us inc md :
  view_inv v → self_alive v inc md →
  ((∀ u, u ∈ about (selfName v) us → incarnation u < MAX_INCARNATION) →
   ∃ inc', self_alive (receive v us) inc' md ∧ inc ≤ inc'
    ∧ ∀ u, u ∈ about (selfName v) us →
        incarnation u ≤ inc' ∧ (u_state u ≠ Alive → incarnation u < inc'))
  ∧ ∀ u now time,
      u_member u = selfName v → u_state u ≠ Alive → inc ≤ MAX_INCARNATION → incarnation u = MAX_INCARNATION →
      view_apply v u now time = Throw (IncarnationExhaustedError MAX_INCARNATION) ∧ receive v [(u, now, time)] = v.
Proof.
  intros Hv Hs. split; [intros Hmax; by apply accusations_refuted|]. intros u now time Hu Ha Hinc Hmax.
  pose proof (refute_exhausted v u now time inc md Hs Hu Ha ltac:(lia) ltac:(lia)) as E. rewrite Hmax in E. split; [done|].
  unfold receive. cbn [fmap list_fmap fst snd view_exec]. unfold view_step. by rewrite E.
Qed.

(** ** Events *)

(** What a consumer of the events believes about [m]: present once it joined, until it
    left or died. *)
Definition believe (m : jsstring) (present : bool) (e : MembershipEvent) : bool :=
  if decide (u_member (ev_member e) = m) then
    match ev_type e with EvJoined => true | EvLeft | EvDead => false | EvUpdated => present end
  else present.

(** Whether the table holds [m] alive or suspect. *)
Definition present (v : MembershipView) (m : jsstring) : bool :=
  match view_get v m with Some r => isProbeEligibleState (u_state (truth r)) | None => false end.

(** No operation takes [m] from absent or terminal straight to suspect. *)
Fixpoint arrives_alive (m : jsstring) (v : MembershipView) (ops : list view_op) : bool :=
  match ops with
  | [] => true
  | op :: ops' =>
      let v' := (view_step v op).2 in
      (present v m || negb (bool_decide (fst <$> stateOf v' m = Some Suspect)))
      && arrives_alive m v' ops'
  end.

Lemma foldl_believe m b u previous o :
  u_member u = m →
  foldl (believe m) b (option_list ((λ type, MkEvent type u previous) <$> o))
  = match o with Some EvJoined => true | Some EvLeft | Some EvDead => false | _ => b end.
Proof.
  intros Hu. destruct o as [t|]; [|done]. cbn. unfold believe. cbn. rewrite decide_True by done.
  by destruct t.
Qed.

Lemma change_believe v v' e m b :
  change v v' e → (b = true → present v m = true) →
  let b' := foldl (believe m) b (option_list e) in
  (b' = true → present v' m = true)
  ∧ (b = present v m → present v m || negb (bool_decide (fst <$> stateOf v' m = Some Suspect)) = true →
     b' = present v' m).
Proof.
  intros Hch Hb. destruct Hch as [Hsame|k st [_ Hput] Hk _|k p Hp Hterm Hget].
  - assert (present v' m = present v m) as ->; [|done]. unfold present. specialize (Hsame m).
    destruct (view_get v' m), (view_get v m); cbn in Hsame; congruence.
  - unfold present, stateOf in *. rewrite Hput. destruct (decide (m = k)) as [->|Hne].
    + rewrite foldl_believe by done. unfold eventType. cbn [fmap option_fmap option_map fst].
      destruct (view_get v k) as [p|]; [destruct (u_state (truth p))|]; destruct (u_state (truth st));
        vm_compute in Hb; try (destruct (wire_bytesEqual _ _)); vm_compute; by destruct b; auto.
    + destruct (eventType _ st); cbn; [|done]. unfold believe. cbn. by rewrite decide_False by congruence.
  - unfold present, stateOf in *. rewrite Hget. cbn. destruct (decide (m = k)) as [->|]; [|done].
    rewrite Hp, eligible_terminal, Hterm in *. cbn in *. split; [|done]. by destruct b.
Qed.

Lemma exec_believe m v ops b :
  view_inv v → Forall op_ok ops → (b = true → present v m = true) →
  let r := view_exec v ops in
  (foldl (believe m) b r.1 = true → present r.2 m = true)
  ∧ (b = present v m → arrives_alive m v ops = true → foldl (believe m) b r.1 = present r.2 m).
Proof.
  revert v b. induction ops as [|op ops IH]; intros v b Hv Hops Hb; [done|].
  apply Forall_cons in Hops as [Hop Hops]. cbv zeta. rewrite view_exec_cons. cbn [fst snd].
  destruct (view_step_ok v op Hv Hop) as (Hv1 & _ & Hch).
  destruct (change_believe _ _ _ m b Hch Hb) as [H1 H2]. rewrite foldl_app.
  destruct (IH _ _ Hv1 Hops H1) as [H3 H4]. split; [done|].
  cbn [arrives_alive]. intros He [Ha Hrest]%andb_true_iff. by apply H4; [apply H2|].
Qed.

(** A consumer of the events never believes in a member the table does not hold alive or
    suspect; it knows exactly those that never came in through a suspicion. *)
Theorem events_track_members name ops m :
  Forall op_ok ops →
  let '(es, v) := view_exec (new_MembershipView name) ops in
  (foldl (believe m) false es = true → present v m = true)
  ∧ (arrives_alive m (new_MembershipView name) ops = true → foldl (believe m) false es = present v m).
Proof.
  intros Hops. destruct (exec_believe m _ ops false (new_view_inv name) Hops) as [H1 H2]; [done|].
  destruct (view_exec _ ops) as [es v]. by split; [|apply H2].
Qed.

(** A greater truth about a retained foreign member is accepted. *)
Lemma accept_foreign v u now time c :
  u_member u ≠ selfName v → view_get v (u_member u) = Some c → rank (truth c) < rank u →
  ∃ st ev v', replace v u (view_get v (u_member u)) now = Ok (st, ev, v')
    ∧ view_step v (OpApply u now time) = (ev, v').
Proof.
  intros Hm Hc Hlt. destruct (replace v u (view_get v (u_member u)) now) as [[[st ev] v']|] eqn:E.
  - exists st, ev, v'. split; [done|]. unfold view_step, view_apply, wouldRefute.
    rewrite decide_True by done. rewrite Hc, bool_decide_false, compare_rank by done. cbn [andb].
    destruct (Z.leb_spec (rank u) (rank (truth c))); [lia|]. rewrite Hc in E. by rewrite E.
  - unfold replace in E. by rewrite Hc, bool_decide_false in E.
Qed.

(** A member first heard of through a suspicion and then seen alive is in the table
    with no event ever emitted for it. *)
Theorem suspect_first_unreported v s a now1 time1 now2 time2 :
  view_inv v → u_member s ≠ selfName v → view_get v (u_member s) = None → view_size v < MAX_MEMBERS →
  u_state s = Suspect → u_member a = u_member s → u_state a = Alive → incarnation s < incarnation a →
  let '(es, v') := view_exec v [OpApply s now1 time1; OpApply a now2 time2] in
  es = [] ∧ stateOf v' (u_member s) = Some (Alive, incarnation a).
Proof.
  intros Hv Hm Hnone Hcap Hs Ha Hal Hlt. rewrite view_exec_cons. cbn [view_exec fst snd].
  destruct (replace v s None now1) as [[[st ev] v1]|] eqn:E;
    [|unfold replace in E; by destruct (_ && _) eqn:E'; [lia|]].
  assert (view_step v (OpApply s now1 time1) = (ev, v1)) as ->.
  { unfold view_step, view_apply, wouldRefute. rewrite decide_True, Hnone, Hs by done. cbn.
    by rewrite E. }
  rewrite <-Hnone in E. destruct (replace_ok v s now1 st ev v1 Hv E) as (Ht & [Hn Hput] & Hv1 & ->).
  cbn [fst snd]. specialize (Hput (u_member s)). rewrite decide_True, <-Ha in Hput by done. rewrite <-Hn, <-Ha in Hm.
  destruct (accept_foreign v1 a now2 time2 st Hm Hput) as (st2 & ev2 & v2 & E2 & ->).
  { rewrite Ht. unfold rank. rewrite Hs, Hal. cbn. lia. }
  destruct (replace_ok v1 a now2 st2 ev2 v2 Hv1 E2) as (Ht2 & [_ Hput2] & _ & ->).
  rewrite Hnone, Hput. cbn [fst snd]. unfold eventType. rewrite Ht, Ht2, Hs, Hal.
  split; [done|]. unfold stateOf. rewrite Hput2, decide_True by done. cbn. by rewrite Ht2, Hal.
Qed.

(** ** Witnesses *)

Section examples.

Definition ex_alive (m : string) (inc : Z) (md : list Z) : MembershipUpdate :=
  MkUpdate Alive true inc 0 (js m) [] md.
Definition ex_suspect (m : string) (inc : Z) (by_ : string) : MembershipUpdate :=
  MkUpdate Suspect false inc 0 (js m) (js by_) [].

(** Node [n] with itself and [b] alive. *)
Definition ex_view (n : string) : MembershipView :=
  (view_exec (new_MembershipView (js n))
     [OpLocal (ex_alive n 1 [7]) 10; OpApply (ex_alive "b" 1 [9]) 11 11]).2.

Lemma ex_view_inv n : view_inv (ex_view n).
Proof. apply view_exec_inv; [apply new_view_inv|by repeat constructor]. Qed.

Lemma gossip_converges_witness :
  stateOf (receive (ex_view "a") [(ex_suspect "b" 1 "c", 20, 20); (ex_alive "b" 2 [9], 21, 21)]) (js "b")
  = stateOf (receive (ex_view "c") [(ex_alive "b" 2 [9], 30, 30); (ex_suspect "b" 1 "c", 31, 31);
                                    (ex_alive "b" 2 [9], 32, 32)]) (js "b").
Proof.
  destruct (view_get (ex_view "a") (js "b")) as [c1|] eqn:E1; [|by vm_compute in E1].
  destruct (view_get (ex_view "c") (js "b")) as [c2|] eqn:E2; [|by vm_compute in E2].
  refine (proj1 (gossip_converges _ _ _ _ _ c1 c2 (ex_view_inv _) (ex_view_inv _) _ _ E1 E2 _));
    [vm_compute; discriminate..|].
  vm_compute in E1, E2. injection E1 as <-. injection E2 as <-.
  intros r. cbn [fmap list_fmap]. vm_compute about. cbn [fmap list_fmap]. rewrite !elem_of_cons. tauto.
Defined.

Lemma self_defense_holds_witness :
  (∃ inc', self_alive (receive (ex_view "a") [(ex_suspect "a" 1 "b", 20, 20)]) inc' [7] ∧ 1 < inc')
  ∧ view_apply (ex_view "a") (ex_suspect "a" 4294967295 "b") 20 20 = Throw (IncarnationExhaustedError 4294967295).
Proof.
  assert (about (selfName (ex_view "a")) [(ex_suspect "a" 1 "b", 20, 20)] = [ex_suspect "a" 1 "b"])
    as Habout by (by vm_compute).
  destruct (self_defense_holds (ex_view "a") [(ex_suspect "a" 1 "b", 20, 20)] 1 [7])
    as [(i & H & _ & Hall) Hlast].
  - apply ex_view_inv.
  - exists (ex_alive "a" 1 [7]). by vm_compute.
  - intros u. rewrite Habout. intros ->%list_elem_of_singleton. by vm_compute.
  - split; [|by apply Hlast; vm_compute]. exists i. split; [done|]. rewrite Habout in Hall.
    apply (Hall (ex_suspect "a" 1 "b")); [by left|by vm_compute].
Defined.

Lemma events_track_members_witness :
  foldl (believe (js "b")) false
    (view_exec (new_MembershipView (js "a")) [OpApply (ex_alive "b" 1 [9]) 11 11]).1 = true.
Proof.
  pose proof (events_track_members (js "a") [OpApply (ex_alive "b" 1 [9]) 11 11] (js "b")
    ltac:(by repeat constructor)) as H.
  destruct (view_exec _ _) as [es v] eqn:E. destruct H as [_ H]. cbn [fst].
  rewrite H by (by vm_compute). vm_compute in E. by injection E as <- <-.
Defined.

Lemma suspect_first_unreported_witness :
  (view_exec (ex_view "a") [OpApply (ex_suspect "d" 1 "b") 20 20; OpApply (ex_alive "d" 2 [4]) 21 21]).1 = [].
Proof.
  pose proof (suspect_first_unreported (ex_view "a") (ex_suspect "d" 1 "b") (ex_alive "d" 2 [4])
    20 20 21 21 (ex_view_inv _) ltac:(vm_compute; discriminate) ltac:(by vm_compute) ltac:(vm_compute; done)
    ltac:(by vm_compute) ltac:(by vm_compute) ltac:(by vm_compute) ltac:(vm_compute; done)) as H.
  destruct (view_exec _ _) as [es v]. apply H.
Defined.

End examples.
