(* ===== verification/NodeMetadata.v ===== *)
(** * Node metadata and the store's view of the cluster
      ([src/clustering.metadata.ts], [src/clustering.view.ts])

    The record a node gossips about itself, and the adapter that turns membership
    records into the list of members the store works with. *)
From S2P Require Import Prelude JsNumber JsString ByteIO Hash Hlc Entry Ports Membership.

(** ** The metadata record *)

Record NodeMetadata := MkNodeMetadata {
  nm_startedAt : Z;
  nm_ready : bool;
  nm_draining : bool;
  nm_address : jsstring }.

Definition STARTED_AT_OFFSET : nat := 0.
Definition READY_OFFSET : nat := 8.
Definition DRAINING_OFFSET : nat := 9.
Definition ADDRESS_LENGTH_OFFSET : nat := 10.
Definition ADDRESS_OFFSET : nat := 12.
Definition MAX_ADDRESS_BYTES : nat := 255.
Definition REMOTING_LENGTH_SIZE : nat := 2.
Definition MAX_METADATA_BYTES : nat := 512.

Definition UNDECODABLE : NodeMetadata := MkNodeMetadata MAX_SAFE_INTEGER false false [].

Definition encodeNodeMetadata (m : NodeMetadata) : result (list Z) :=
  if negb (is_safe_integer (nm_startedAt m)) || (nm_startedAt m <? 0)
  then Throw (RangeError "node metadata startedAt must be a non-negative integer of milliseconds")
  else
    let addressBytes := text_encode (nm_address m) in
    if Nat.ltb MAX_ADDRESS_BYTES (length addressBytes)
    then Throw (RangeError "node metadata address cannot exceed 255 bytes")
    else
      let bytes := replicate (ADDRESS_OFFSET + length addressBytes) 0 in
      let bytes := bytes_set bytes (be_encode 8 (nm_startedAt m)) STARTED_AT_OFFSET in
      let bytes := bytes_set bytes [if nm_ready m then 1 else 0] READY_OFFSET in
      let bytes := bytes_set bytes [if nm_draining m then 1 else 0] DRAINING_OFFSET in
      let bytes := bytes_set bytes (be_encode 2 (Z.of_nat (length addressBytes))) ADDRESS_LENGTH_OFFSET in
      Ok (bytes_set bytes addressBytes ADDRESS_OFFSET).

Definition decodeNodeMetadata (bytes : list Z) : NodeMetadata :=
  if Nat.ltb (length bytes) ADDRESS_OFFSET then UNDECODABLE
  else
    let addressLength := Z.to_nat (field_at 2 ADDRESS_LENGTH_OFFSET bytes) in
    if Nat.ltb (length bytes) (ADDRESS_OFFSET + addressLength) then UNDECODABLE
    else
      MkNodeMetadata
        (number_of_u64 (field_at 8 STARTED_AT_OFFSET bytes))
        (negb (field_at 1 READY_OFFSET bytes =? 0))
        (negb (field_at 1 DRAINING_OFFSET bytes =? 0))
        (text_decode_lossy (take addressLength (drop ADDRESS_OFFSET bytes))).

Definition appendRemotingAddress (metadata : list Z) (remotingAddress : jsstring) : result (list Z) :=
  let addressBytes := text_encode remotingAddress in
  if Nat.eqb (length addressBytes) 0 then Ok metadata
  else
    let total := (length metadata + REMOTING_LENGTH_SIZE + length addressBytes)%nat in
    if Nat.ltb MAX_METADATA_BYTES total
    then Throw (RangeError "node metadata with a remoting address cannot exceed 512 bytes")
    else
      let bytes := bytes_set (replicate total 0) metadata 0 in
      let bytes := bytes_set bytes (be_encode 2 (Z.of_nat (length addressBytes))) (length metadata) in
      Ok (bytes_set bytes addressBytes (length metadata + REMOTING_LENGTH_SIZE)).

Definition readRemotingAddress (metadata : list Z) : jsstring :=
  if Nat.ltb (length metadata) ADDRESS_OFFSET then []
  else
    let dataAddressLength := Z.to_nat (field_at 2 ADDRESS_LENGTH_OFFSET metadata) in
    let fieldOffset := (ADDRESS_OFFSET + dataAddressLength)%nat in
    if Nat.ltb (length metadata) (fieldOffset + REMOTING_LENGTH_SIZE) then []
    else
      let addressLength := Z.to_nat (field_at 2 fieldOffset metadata) in
      let addressStart := (fieldOffset + REMOTING_LENGTH_SIZE)%nat in
      if Nat.ltb (length metadata) (addressStart + addressLength) then []
      else text_decode_lossy (take addressLength (drop addressStart metadata)).

(** ** The layout *)

Lemma encodeNodeMetadata_layout m bs :
  encodeNodeMetadata m = Ok bs →
  0 ≤ nm_startedAt m ≤ 0x1FFFFFFFFFFFFF ∧ (length (text_encode (nm_address m)) ≤ 255)%nat
  ∧ bs = be_encode 8 (nm_startedAt m) ++ [if nm_ready m then 1 else 0]
      ++ [if nm_draining m then 1 else 0] ++ be_encode 2 (Z.of_nat (length (text_encode (nm_address m))))
      ++ text_encode (nm_address m).
Proof.
  unfold encodeNodeMetadata, is_safe_integer, MAX_SAFE_INTEGER, MAX_ADDRESS_BYTES. set (ab := text_encode _).
  destruct (negb _ || _) eqn:E; [done|]. destruct (Nat.ltb_spec 255 (length ab)); [done|].
  intros H1%(inj Ok). subst bs. split; [lia|]. split; [done|].
  pose proof (length_be_encode 8 (nm_startedAt m)) as L1.
  pose proof (length_be_encode 2 (Z.of_nat (length ab))) as L2.
  set (f1 := be_encode 8 _) in *. set (f4 := be_encode 2 _) in *. clearbody f1 f4.
  unfold STARTED_AT_OFFSET, READY_OFFSET, DRAINING_OFFSET, ADDRESS_LENGTH_OFFSET, ADDRESS_OFFSET.
  rewrite (bytes_set_next [] f1 (12 + length ab)) by (reflexivity || (cbn [length]; lia)).
  change ([] ++ f1) with f1.
  set (r := [if nm_ready m then 1 else 0]). set (d := [if nm_draining m then 1 else 0]).
  assert (length r = 1 ∧ length d = 1)%nat as [Lr Ld] by done. clearbody r d.
  erewrite (bytes_set_next f1 r) by (reflexivity || lia).
  erewrite (bytes_set_next (f1 ++ r) d) by (reflexivity || (rewrite ?length_app; lia)).
  erewrite (bytes_set_next ((f1 ++ r) ++ d) f4) by (reflexivity || (rewrite ?length_app; lia)).
  erewrite (bytes_set_next (((f1 ++ r) ++ d) ++ f4) ab) by (reflexivity || (rewrite ?length_app; lia)).
  match goal with |- context [replicate ?k 0] => replace k with 0%nat by lia end.
  cbn [replicate]. by rewrite app_nil_r, <-!app_assoc.
Qed.

(** A metadata record as its fields. *)
Definition layout (startedAt : Z) (ready draining : bool) (address : list Z) : list Z :=
  be_encode 8 startedAt ++ [if ready then 1 else 0] ++ [if draining then 1 else 0]
  ++ be_encode 2 (Z.of_nat (length address)) ++ address.

Lemma length_layout s r d a : length (layout s r d a) = (12 + length a)%nat.
Proof. unfold layout. rewrite !length_app, !length_be_encode. done. Qed.

Lemma layout_fields s r d a suf :
  0 ≤ s ≤ 0x1FFFFFFFFFFFFF → (length a ≤ 255)%nat →
  let bytes := layout s r d a ++ suf in
  field_at 8 STARTED_AT_OFFSET bytes = s
  ∧ field_at 1 READY_OFFSET bytes = (if r then 1 else 0)
  ∧ field_at 1 DRAINING_OFFSET bytes = (if d then 1 else 0)
  ∧ field_at 2 ADDRESS_LENGTH_OFFSET bytes = Z.of_nat (length a)
  ∧ drop ADDRESS_OFFSET bytes = a ++ suf.
Proof.
  intros Hs Ha. cbv zeta. unfold layout.
  pose proof (length_be_encode 8 s) as L1. pose proof (length_be_encode 2 (Z.of_nat (length a))) as L2.
  assert (∀ b : bool, be_encode 1 (if b then 1 else 0) = [if b then 1 else 0]) as Hb by (by intros []).
  rewrite <-!Hb, <-!app_assoc. split_and!.
  - apply (field_at_app 8 _ []); [done|lia].
  - apply (field_at_app 1 _ (be_encode 8 s)); [done|destruct r; lia].
  - rewrite app_assoc. apply field_at_app; [rewrite length_app, L1; done|destruct d; lia].
  - rewrite !(app_assoc (be_encode 8 s)). rewrite (app_assoc (_ ++ _)).
    apply field_at_app; [rewrite !length_app, L1; done|lia].
  - rewrite !(app_assoc (be_encode 8 s)), !(app_assoc (_ ++ _)), <-(app_assoc _ a).
    apply drop_app_length'. rewrite !length_app, L1, L2. done.
Qed.

(** What [appendRemotingAddress] leaves behind the record. *)
Definition remoting_field (r : jsstring) : list Z :=
  match text_encode r with [] => [] | a => be_encode 2 (Z.of_nat (length a)) ++ a end.

Lemma appendRemotingAddress_layout md r bs :
  appendRemotingAddress md r = Ok bs →
  bs = md ++ remoting_field r
  ∧ (text_encode r ≠ [] → length bs ≤ MAX_METADATA_BYTES)%nat.
Proof.
  unfold appendRemotingAddress, remoting_field. generalize (text_encode r) as ab. intros ab.
  destruct (Nat.eqb_spec (length ab) 0) as [->%nil_length_inv|Hne].
  { intros ->%(inj Ok). by rewrite app_nil_r. }
  destruct (Nat.ltb_spec MAX_METADATA_BYTES (length md + REMOTING_LENGTH_SIZE + length ab)) as [|Hle]; [done|].
  replace (match ab with [] => [] | _ => _ end) with (be_encode 2 (Z.of_nat (length ab)) ++ ab)
    by (by destruct ab).
  pose proof (length_be_encode 2 (Z.of_nat (length ab))) as L. set (f := be_encode 2 _) in *. clearbody f.
  intros H%(inj Ok). subst bs. unfold REMOTING_LENGTH_SIZE in *.
  erewrite (bytes_set_next [] md (length md + 2 + length ab)) by (reflexivity || (cbn [length]; lia)).
  change ([] ++ md) with md. erewrite (bytes_set_next md f) by (reflexivity || lia).
  erewrite (bytes_set_next (md ++ f) ab) by (reflexivity || (rewrite ?length_app; lia)).
  match goal with |- context [replicate ?k 0] => replace k with 0%nat by lia end.
  cbn [replicate]. rewrite app_nil_r, <-app_assoc. split; [done|].
  intros _. rewrite !length_app. lia.
Qed.

Lemma decode_layout s r d a suf :
  0 ≤ s ≤ 0x1FFFFFFFFFFFFF → (length a ≤ 255)%nat →
  decodeNodeMetadata (layout s r d a ++ suf) = MkNodeMetadata s r d (text_decode_lossy a).
Proof.
  intros Hs Ha. destruct (layout_fields s r d a suf Hs Ha) as (E1 & E2 & E3 & E4 & E5).
  unfold decodeNodeMetadata. rewrite E1, E2, E3, E4, E5, Nat2Z.id, take_app_length.
  rewrite length_app, length_layout. unfold ADDRESS_OFFSET.
  destruct (Nat.ltb_spec (12 + length a + length suf) 12); [lia|].
  destruct (Nat.ltb_spec (12 + length a + length suf) (12 + length a)); [lia|].
  unfold number_of_u64. destruct (Z.ltb_spec s (2 ^ 53)); [|lia]. by destruct r, d.
Qed.

Lemma read_layout s b d a r :
  0 ≤ s ≤ 0x1FFFFFFFFFFFFF → (length a ≤ 255)%nat → Z.of_nat (length (text_encode r)) < 65536 → plain r →
  readRemotingAddress (layout s b d a ++ remoting_field r) = r.
Proof.
  intros Hs Ha Hr Hp. destruct (layout_fields s b d a (remoting_field r) Hs Ha) as (_ & _ & _ & E4 & E5).
  unfold readRemotingAddress. rewrite E4, Nat2Z.id, !length_app, length_layout.
  unfold REMOTING_LENGTH_SIZE, ADDRESS_OFFSET in *.
  destruct (Nat.ltb_spec (12 + length a + length (remoting_field r)) 12); [lia|].
  assert (∀ k, drop (12 + length a + k) (layout s b d a ++ remoting_field r) = drop k (remoting_field r)) as Hd.
  { intros k. rewrite <-Nat.add_assoc, <-drop_drop, E5, <-drop_drop. by rewrite drop_app_length. }
  unfold field_at. pose proof (Hd 0%nat) as Hd0. rewrite Nat.add_0_r in Hd0. rewrite Hd0, Hd, drop_0.
  unfold remoting_field in *. pose proof (plain_roundtrip r Hp) as Hrt.
  destruct (text_encode r) as [|x e] eqn:Ee; [by rewrite (proj2 (Nat.ltb_lt _ _)) by (cbn [length]; lia)|].
  rewrite <-Ee in *. set (ab := text_encode r) in *. rewrite !length_app, !length_be_encode.
  destruct (Nat.ltb_spec (12 + length a + (2 + length ab)) (12 + length a + 2)); [lia|].
  rewrite take_app_length' by (by rewrite length_be_encode). rewrite be_decode_encode_id, Nat2Z.id by lia.
  destruct (Nat.ltb_spec (12 + length a + (2 + length ab)) (12 + length a + 2 + length ab)); [lia|].
  rewrite drop_app_length' by (by rewrite length_be_encode). by rewrite firstn_all.
Qed.

(** What a node announces about itself is what its peers decode, with or without a
    remoting endpoint, and it fits the membership metadata budget. *)
Theorem node_metadata_roundtrip m r bs bs' :
  plain (nm_address m) → plain r →
  encodeNodeMetadata m = Ok bs → appendRemotingAddress bs r = Ok bs' →
  decodeNodeMetadata bs' = m ∧ readRemotingAddress bs' = r ∧ (length bs' ≤ MAX_METADATA_BYTES)%nat.
Proof.
  intros Hm Hr H1 H2. destruct (encodeNodeMetadata_layout m bs H1) as (Hs & Ha & ->).
  fold (layout (nm_startedAt m) (nm_ready m) (nm_draining m) (text_encode (nm_address m))) in H2.
  destruct (appendRemotingAddress_layout _ r bs' H2) as [-> Hlen].
  assert (length (remoting_field r) + length (text_encode (nm_address m)) ≤ 500)%nat as Hlen'.
  { rewrite length_app, length_layout in Hlen. unfold remoting_field, MAX_METADATA_BYTES in *.
    destruct (text_encode r); [cbn; lia|]. specialize (Hlen ltac:(done)). lia. }
  rewrite decode_layout, read_layout by (done || (unfold remoting_field in Hlen';
    destruct (text_encode r); [cbn; lia|]; rewrite length_app, length_be_encode in Hlen'; lia)).
  rewrite plain_roundtrip, length_app, length_layout by done. unfold MAX_METADATA_BYTES.
  split; [by destruct m|]. split; [done|lia].
Qed.

Lemma node_metadata_roundtrip_witness :
  ∃ bs bs', encodeNodeMetadata (MkNodeMetadata 1700000000000 true false (js "10.0.0.1:4000")) = Ok bs
    ∧ appendRemotingAddress bs (js "10.0.0.1:5000") = Ok bs'
    ∧ decodeNodeMetadata bs' = MkNodeMetadata 1700000000000 true false (js "10.0.0.1:4000")
    ∧ readRemotingAddress bs' = js "10.0.0.1:5000".
Proof.
  destruct (encodeNodeMetadata _) as [bs|] eqn:E1; [|by vm_compute in E1].
  destruct (appendRemotingAddress bs (js "10.0.0.1:5000")) as [bs'|] eqn:E2.
  - exists bs, bs'.
    destruct (node_metadata_roundtrip (MkNodeMetadata 1700000000000 true false (js "10.0.0.1:4000"))
      (js "10.0.0.1:5000") bs bs') as (H1 & H2 & _); [by apply plain_check; vm_compute..|done|done|done].
  - exfalso. vm_compute in E1. apply (inj Ok) in E1. subst bs. by vm_compute in E2.
Defined.
