(* ===== verification/ClusterView.v ===== *)
(** * The store's view of the cluster ([src/clustering.view.ts])

    The adapter that turns membership records into the store's members: present
    records, named by the data address their metadata carries, oldest first. *)
From S2P Require Import Prelude JsNumber JsString ByteIO Hash Hlc Entry Ports Membership NodeMetadata.

(** ** [toClusterMembers] *)

(** Negative when [left] goes first; never zero. *)
Definition compareByAgeThenName (left right : ClusterMember) : Z :=
  if negb (m_startedAt left =? m_startedAt right) then m_startedAt left - m_startedAt right
  else if str_lt (m_name left) (m_name right) then -1 else 1.

(** [a] may stand before [b] in a list sorted by the comparator: a stable sort moves
    [b] ahead of [a] only when [compare(b, a) < 0]. *)
Definition member_le (a b : ClusterMember) : Prop := ¬ compareByAgeThenName b a < 0.

#[global] Instance member_le_dec : RelDecision member_le.
Proof. intros a b. unfold member_le. apply _. Defined.

(** One record's contribution: none when it is terminal or carries no data address. *)
Definition toClusterMember (record : StoredRecord) : option ClusterMember :=
  if negb (bool_decide (u_state (truth record) = Alive))
     && negb (bool_decide (u_state (truth record) = Suspect)) then None
  else
    let md := decodeNodeMetadata (metadata (truth record)) in
    if Nat.eqb (length (nm_address md)) 0 then None
    else Some (MkMember (nm_address md) (nm_startedAt md) (nm_ready md) (nm_draining md)).

Definition toClusterMembers (records : list StoredRecord) : list ClusterMember :=
  merge_sort member_le (omap toClusterMember records).

(** ** [SwimClusterView] *)

(** Listeners are named by numbers, in registration order.  The snapshot function is
    [swim.members()]: the records of the membership view at the time of the call. *)
Record SwimClusterView := MkClusterView {
  cv_self : jsstring;
  cv_listeners : list nat }.

Definition new_SwimClusterView (me : jsstring) : SwimClusterView := MkClusterView me [].

Definition cv_members (swim : MembershipView) : list ClusterMember := toClusterMembers (view_members swim).

Definition cv_coordinator (s : SwimClusterView) (swim : MembershipView) : jsstring :=
  match cv_members swim with
  | [] => cv_self s
  | m :: _ => m_name m
  end.

Fixpoint remotingAddressIn (records : list StoredRecord) (dataAddress : jsstring) : option jsstring :=
  match records with
  | [] => None
  | record :: records' =>
      if negb (bool_decide (u_state (truth record) = Alive))
         && negb (bool_decide (u_state (truth record) = Suspect))
      then remotingAddressIn records' dataAddress
      else if bool_decide (nm_address (decodeNodeMetadata (metadata (truth record))) ≠ dataAddress)
      then remotingAddressIn records' dataAddress
      else
        let remotingAddress := readRemotingAddress (metadata (truth record)) in
        if Nat.eqb (length remotingAddress) 0 then None else Some remotingAddress
  end.

Definition remotingAddressOf (swim : MembershipView) (dataAddress : jsstring) : option jsstring :=
  if Nat.eqb (length dataAddress) 0 then None else remotingAddressIn (view_members swim) dataAddress.

Definition onChange (s : SwimClusterView) (listener : nat) : SwimClusterView :=
  MkClusterView (cv_self s) (set_add listener (cv_listeners s)).

(** The function [onChange] returns. *)
Definition unsubscribe (s : SwimClusterView) (listener : nat) : SwimClusterView :=
  MkClusterView (cv_self s) (filter (λ l, l ≠ listener) (cv_listeners s)).

(** The calls [publish] makes, in order. *)
Definition publish (s : SwimClusterView) (swim : MembershipView) : list (nat * list ClusterMember) :=
  let members := cv_members swim in (λ l, (l, members)) <$> cv_listeners s.

(** ** The order *)

Lemma member_le_spec a b :
  member_le a b ↔ m_startedAt a < m_startedAt b
    ∨ m_startedAt a = m_startedAt b ∧ str_le (m_name a) (m_name b) = true.
Proof.
  unfold member_le, compareByAgeThenName, str_le.
  destruct (Z.eqb_spec (m_startedAt b) (m_startedAt a)) as [E|E]; cbn [negb]; [|lia].
  rewrite negb_true_iff. destruct (str_lt (m_name b) (m_name a)); intuition (done || lia).
Qed.

#[global] Instance member_le_total : Total member_le.
Proof.
  intros a b. rewrite !member_le_spec, !str_le_spec.
  destruct (Z.lt_trichotomy (m_startedAt a) (m_startedAt b)) as [?|[?|?]]; [by left; left| |by right; left].
  destruct (str_lt (m_name a) (m_name b)) eqn:E1; [by left; right; auto|].
  destruct (str_lt (m_name b) (m_name a)) eqn:E2; [by right; right; auto|].
  left. right. split; [done|]. right. by apply str_lt_total.
Qed.

#[global] Instance member_le_trans : Transitive member_le.
Proof.
  intros a b c. rewrite !member_le_spec. intros [H1|[H1 H1']] [H2|[H2 H2']]; try lia.
  right. split; [lia|]. apply str_le_spec in H1', H2' as [H3|H3]; [|by rewrite <-H3; apply str_le_spec].
  destruct H1' as [H4|H4]; apply str_le_spec; left; [by eapply str_lt_trans|by rewrite H4].
Qed.

Lemma member_le_antisym a b : member_le a b → member_le b a → m_name a = m_name b.
Proof.
  rewrite !member_le_spec, !str_le_spec. intros [H1|[H1 [H1'|H1']]] [H2|[H2 [H2'|H2']]]; try (lia || done).
  apply str_lt_asym in H1'. congruence.
Qed.

(** Members with distinct names sort to one list, whatever order they came in. *)
Lemma sort_members_perm l1 l2 :
  l1 ≡ₚ l2 → NoDup (m_name <$> l1) → merge_sort member_le l1 = merge_sort member_le l2.
Proof.
  intros Hp Hnd. apply (StronglySorted_unique_strong member_le);
    [|apply StronglySorted_merge_sort; apply _..|by rewrite !merge_sort_Permutation].
  intros x y Hx Hy H1 H2. rewrite merge_sort_Permutation in Hx. rewrite merge_sort_Permutation, <-Hp in Hy.
  pose proof (member_le_antisym x y H1 H2) as Hn.
  apply list_elem_of_lookup in Hx as [i Hi]. apply list_elem_of_lookup in Hy as [j Hj].
  assert (i = j) as ->; [|congruence].
  apply (NoDup_lookup (m_name <$> l1) i j (m_name x) Hnd); rewrite list_lookup_fmap.
  - by rewrite Hi.
  - by rewrite Hj, Hn.
Qed.

(** ** Agreement *)

Lemma jm_get_fmap {K V W} `{EqDecision K} (f : V → W) k (m : list (K * V)) :
  jm_get k (prod_map id f <$> m) = f <$> jm_get k m.
Proof.
  induction m as [|[j v] m IH]; [done|]. cbn. destruct (decide (k = j)); [done|]. exact IH.
Qed.

Lemma jm_wf_fmap {K V W} `{EqDecision K} (f : V → W) (m : list (K * V)) :
  jm_wf m → jm_wf (prod_map id f <$> m).
Proof. unfold jm_wf. by rewrite <-list_fmap_compose. Qed.

(** The part of a record the adapter reads. *)
Definition public (r : StoredRecord) : MemberState * list Z := (u_state (truth r), metadata (truth r)).

Definition member_of (p : MemberState * list Z) : option ClusterMember :=
  toClusterMember (MkStored (MkUpdate p.1 false 0 0 [] [] p.2) 0 []).

Lemma members_of_public v :
  omap toClusterMember (view_members v)
  = omap member_of ((prod_map id public <$> records v).*2).
Proof.
  unfold view_members, jm_values. induction (records v) as [|[k r] m IH]; [done|].
  cbn [fmap list_fmap omap list_omap]. unfold prod_map at 1. cbn [snd].
  change (toClusterMember r) with (member_of (public r)). by rewrite IH.
Qed.

(** The tables say the same of every member. *)
Definition same_table (v1 v2 : MembershipView) : Prop :=
  ∀ k, public <$> view_get v1 k = public <$> view_get v2 k.

(** No two present members carry one data address. *)
Definition addresses_unique (v : MembershipView) : Prop :=
  NoDup (m_name <$> omap toClusterMember (view_members v)).

Lemma same_table_members v1 v2 :
  view_inv v1 → view_inv v2 → same_table v1 v2 →
  omap toClusterMember (view_members v1) ≡ₚ omap toClusterMember (view_members v2).
Proof.
  intros H1 H2 Hs. rewrite !members_of_public.
  apply omap_Permutation, fmap_Permutation, jm_get_ext_perm; [apply jm_wf_fmap, vi_wf; done..|].
  intros k. rewrite !jm_get_fmap. apply Hs.
Qed.

(** C33: Nodes whose membership tables agree hand the store the same list of members, so
    they name one coordinator, which is present and the oldest of all. *)
Theorem coordinator_agreement s1 s2 v1 v2 :
  view_inv v1 → view_inv v2 → same_table v1 v2 → addresses_unique v1 → cv_members v1 ≠ [] →
  cv_members v1 = cv_members v2 ∧ cv_coordinator s1 v1 = cv_coordinator s2 v2
  ∧ ∃ c, c ∈ cv_members v1 ∧ m_name c = cv_coordinator s1 v1
      ∧ ∀ m, m ∈ cv_members v1 → m_startedAt c ≤ m_startedAt m.
Proof.
  intros H1 H2 Hs Hu Hne.
  assert (cv_members v1 = cv_members v2) as E
    by (apply sort_members_perm; [by apply same_table_members|done]).
  split; [done|]. unfold cv_coordinator. rewrite <-E.
  assert (StronglySorted member_le (cv_members v1)) as Hsort by (apply StronglySorted_merge_sort; apply _).
  destruct (cv_members v1) as [|c ms]; [done|]. split; [done|]. exists c. split; [by left|]. split; [done|].
  intros m [->|Hm]%elem_of_cons; [done|].
  apply StronglySorted_inv in Hsort as [_ Hc]. rewrite Forall_forall in Hc. specialize (Hc m Hm).
  apply member_le_spec in Hc. lia.
Qed.

(** A member is on the list through one of the records. *)
Lemma elem_cv_members v m :
  view_inv v → m ∈ cv_members v ↔ ∃ k r, view_get v k = Some r ∧ toClusterMember r = Some m.
Proof.
  intros Hv. unfold cv_members, toClusterMembers. rewrite merge_sort_Permutation, list_elem_of_omap.
  unfold view_members, jm_values. split.
  - intros (r & ([k r'] & -> & Hin)%list_elem_of_fmap & Hm). exists k, r'. split; [|done].
    apply elem_jm_get; [apply vi_wf|]; done.
  - intros (k & r & Hg & Hm). exists r. split; [|done]. apply list_elem_of_fmap.
    exists (k, r). split; [done|]. by apply jm_get_elem.
Qed.

(** A suspicion carries no metadata, so a member the store works with is gone from its
    list as soon as it is suspected, the oldest member included. *)
Theorem suspected_member_vanishes v c m u now time :
  view_inv v → u_member u ≠ selfName v → view_get v (u_member u) = Some c →
  toClusterMember c = Some m → u_state (truth c) = Alive →
  (∀ k r m', view_get v k = Some r → toClusterMember r = Some m' → m_name m' = m_name m → k = u_member u) →
  u_state u = Suspect → incarnation u = incarnation (truth c) → metadata u = [] →
  let v' := (view_step v (OpApply u now time)).2 in
  m ∈ cv_members v ∧ stateOf v' (u_member u) = Some (Suspect, incarnation u)
  ∧ m_name m ∉ (m_name <$> cv_members v').
Proof.
  intros Hv Hself Hc Hm Hal Huniq Hs Hi Hmd. cbv zeta.
  assert (rank (truth c) < rank u) as Hr by (unfold rank; rewrite Hs, Hal, Hi; cbn; lia).
  destruct (view_step_ok v (OpApply u now time) Hv I) as (Hv' & _ & _).
  destruct (accept_foreign v u now time c Hself Hc Hr) as (st & ev & v' & E & Hstep).
  rewrite Hstep in *. cbn [snd] in *.
  destruct (replace_ok v u now st ev v' Hv E) as (Ht & [_ Hput] & _ & _).
  split; [apply elem_cv_members; eauto|]. split.
  - unfold stateOf. rewrite Hput, decide_True by done. cbn. by rewrite Ht, Hs.
  - intros (m' & Hn & (k & r & Hg & Hm')%elem_cv_members)%list_elem_of_fmap; [|done].
    rewrite Hput in Hg. destruct (decide (k = u_member u)) as [->|Hk].
    + injection Hg as <-. unfold toClusterMember in Hm'. by rewrite Ht, Hs, Hmd in Hm'.
    + by apply Hk, (Huniq k r m').
Qed.

(** ** Witnesses *)

Section examples.

(** Metadata of a node started at [t] with data address [a]. *)
Definition ex_metadata (t : Z) (a : string) : list Z :=
  match encodeNodeMetadata (MkNodeMetadata t true false (js a)) with Ok bs => bs | Throw _ => [] end.

(** Node [n]'s table: itself, started at 5, and [b], started at 3. *)
Definition ex_cluster (n : string) : MembershipView :=
  (view_exec (new_MembershipView (js n))
     [OpLocal (ex_alive "a" 1 (ex_metadata 5 "a:1")) 10;
      OpApply (ex_alive "b" 1 (ex_metadata 3 "b:1")) 11 11]).2.

Lemma ex_cluster_inv n : view_inv (ex_cluster n).
Proof. apply view_exec_inv; [apply new_view_inv|by repeat constructor]. Qed.

Lemma coordinator_agreement_witness :
  cv_coordinator (new_SwimClusterView (js "a:1")) (ex_cluster "a")
  = cv_coordinator (new_SwimClusterView (js "c:1")) (ex_cluster "c").
Proof.
  apply (coordinator_agreement (new_SwimClusterView (js "a:1")) (new_SwimClusterView (js "c:1"))
    (ex_cluster "a") (ex_cluster "c") (ex_cluster_inv _) (ex_cluster_inv _)).
  - intros k. unfold view_get.
    assert (records (ex_cluster "a") = records (ex_cluster "c")) as -> by (by vm_compute). done.
  - unfold addresses_unique. apply (bool_decide_unpack _). by vm_compute.
  - assert (cv_members (ex_cluster "a") = [MkMember (js "b:1") 3 true false; MkMember (js "a:1") 5 true false])
      as -> by (by vm_compute). done.
Defined.

Lemma suspected_member_vanishes_witness :
  let v' := (view_step (ex_cluster "a") (OpApply (ex_suspect "b" 1 "c") 20 20)).2 in
  cv_coordinator (new_SwimClusterView (js "a:1")) (ex_cluster "a") = js "b:1"
  ∧ (js "b:1" ∉ (m_name <$> cv_members v'))
  ∧ cv_coordinator (new_SwimClusterView (js "a:1")) v' = js "a:1".
Proof.
  cbv zeta. split; [by vm_compute|]. split; [|by vm_compute].
  destruct (view_get (ex_cluster "a") (js "b")) as [c|] eqn:Ec; [|by vm_compute in Ec].
  assert (toClusterMember <$> Some c = Some (Some (MkMember (js "b:1") 3 true false))
    ∧ public <$> Some c = Some (Alive, ex_metadata 3 "b:1")
    ∧ incarnation ∘ truth <$> Some c = Some 1) as (H1 & H2 & H3) by (rewrite <-Ec; by vm_compute).
  apply (inj Some) in H1, H2, H3.
  refine (proj2 (proj2 (suspected_member_vanishes (ex_cluster "a") c (MkMember (js "b:1") 3 true false)
    (ex_suspect "b" 1 "c") 20 20 (ex_cluster_inv _) _ Ec H1 (f_equal fst H2) _ eq_refl (eq_sym H3) eq_refl))).
  - by vm_compute.
  - intros k r m' Hg Hm Hn.
    assert (forallb (λ p, match toClusterMember p.2 with
      | Some m => negb (bool_decide (m_name m = js "b:1")) || bool_decide (p.1 = js "b") | None => true end)
      (records (ex_cluster "a")) = true) as Hall by (by vm_compute).
    apply (proj1 (forallb_forall _ _)) with (x := (k, r)) in Hall;
      [|by apply list_elem_of_In, jm_get_elem].
    cbn [fst snd] in Hall. rewrite Hm, (bool_decide_true (_ = _) Hn) in Hall. cbn [negb orb] in Hall.
    by apply bool_decide_eq_true in Hall.
Defined.

End examples.
