(* ===== verification/Clock.v ===== *)
(** * One-shot timers ([src/membership/clock.ts])

    [WallClock] timers and [timedSignal] deadlines over the host's [setTimeout],
    which takes at most 2^31 - 1 milliseconds: longer delays are chained. *)
From S2P Require Import Prelude JsNumber.

Definition MAX_HOST_TIMER_DELAY_MS : Z := 2 ^ 31 - 1.

(** One [setTimeout] registration: its delay, and the [remainingMs] its callback
    captured. *)
Record HostTimer := MkHost { ht_slice : Z; ht_remaining : Z }.

Record WallTimer := MkWall { wt_cancelled : bool; wt_handle : option HostTimer }.

Definition validateDelay (delayMs : Z) : result unit :=
  if delayMs <? 0 then Throw (RangeError "delay must be a finite non-negative number") else Ok tt.

Definition arm (timer : WallTimer) (remainingMs : Z) : WallTimer :=
  MkWall (wt_cancelled timer)
    (Some (MkHost (Z.min remainingMs MAX_HOST_TIMER_DELAY_MS) remainingMs)).

Definition wc_schedule (delayMs : Z) : result WallTimer :=
  let! _ := validateDelay delayMs in
  Ok (arm (MkWall false None) delayMs).

(** The host runs registration [h]: whether the callback is invoked, and the timer. *)
Definition host_fire (timer : WallTimer) (h : HostTimer) : bool * WallTimer :=
  if wt_cancelled timer then (false, timer)
  else
    let remainder := ht_remaining h - ht_slice h in
    if 0 <? remainder then (false, arm timer remainder)
    else (true, MkWall false None).

Definition wc_cancel (timer : WallTimer) : WallTimer :=
  if wt_cancelled timer then timer else MkWall true None.

(** [timedSignal]: the pending registration, and whether the signal is aborted. *)
Record Deadline := MkDeadline { dl_handle : option HostTimer; dl_aborted : bool }.

Definition deadline_arm (d : Deadline) (remainingMs : Z) : Deadline :=
  MkDeadline (Some (MkHost (Z.min remainingMs MAX_HOST_TIMER_DELAY_MS) remainingMs)) (dl_aborted d).

Definition timedSignal (milliseconds : Z) : Deadline := deadline_arm (MkDeadline None false) milliseconds.

Definition deadline_fire (d : Deadline) (h : HostTimer) : Deadline :=
  let remainder := ht_remaining h - ht_slice h in
  if 0 <? remainder then deadline_arm d remainder else MkDeadline (dl_handle d) true.

Definition deadline_dispose (d : Deadline) : Deadline :=
  match dl_handle d with
  | Some _ => MkDeadline None (dl_aborted d)
  | None => d
  end.

(** ** The chain of host timers *)

(** The host runs each registration in turn until the callback is invoked: the slices
    waited, and whether it was. *)
Fixpoint run_chain (fuel : nat) (timer : WallTimer) : list Z * bool :=
  match fuel, wt_handle timer with
  | S fuel', Some h =>
      let '(ran, timer') := host_fire timer h in
      if ran then ([ht_slice h], true)
      else let '(waited, ran) := run_chain fuel' timer' in (ht_slice h :: waited, ran)
  | _, _ => ([], false)
  end.

Lemma run_chain_spec fuel d :
  0 ≤ d → d ≤ Z.of_nat fuel * MAX_HOST_TIMER_DELAY_MS → (0 < fuel)%nat →
  let '(waited, ran) := run_chain fuel (arm (MkWall false None) d) in
  ran = true ∧ foldr Z.add 0 waited = d ∧ Forall (λ s, 0 ≤ s ≤ MAX_HOST_TIMER_DELAY_MS) waited
  ∧ (length waited ≤ fuel)%nat.
Proof.
  revert d. induction fuel as [|fuel IH]; intros d Hd Hf Hpos; [lia|].
  cbn [run_chain wt_handle arm]. unfold host_fire. cbn [wt_cancelled arm ht_remaining ht_slice].
  assert (0 < MAX_HOST_TIMER_DELAY_MS) as HM by (by vm_compute).
  set (M := MAX_HOST_TIMER_DELAY_MS) in *. clearbody M.
  destruct (Z.ltb_spec 0 (d - Z.min d M)) as [Hlt|Hge].
  - specialize (IH (d - Z.min d M)).
    assert (0 < fuel)%nat as Hpos' by (destruct fuel; lia).
    destruct (run_chain fuel _) as [waited ran] eqn:E.
    destruct IH as (-> & Hsum & Hall & Hlen); [lia|lia|done|].
    cbn [foldr length]. split; [done|]. split; [lia|]. split; [constructor; [lia|done]|lia].
  - cbn. split; [done|]. split; [lia|]. split; [repeat constructor; lia|lia].
Qed.

(** A scheduled callback runs exactly once its whole delay has been waited, in slices
    the host honours. *)
Theorem timer_waits_whole_delay delayMs :
  0 ≤ delayMs →
  ∃ timer waited, wc_schedule delayMs = Ok timer
    ∧ run_chain (Z.to_nat (delayMs / MAX_HOST_TIMER_DELAY_MS) + 1) timer = (waited, true)
    ∧ foldr Z.add 0 waited = delayMs ∧ Forall (λ s, 0 ≤ s ≤ MAX_HOST_TIMER_DELAY_MS) waited
    ∧ ∀ h, host_fire (wc_cancel timer) h = (false, wc_cancel timer).
Proof.
  intros Hd. unfold wc_schedule, validateDelay. destruct (Z.ltb_spec delayMs 0); [lia|].
  eexists. pose proof (run_chain_spec (Z.to_nat (delayMs / MAX_HOST_TIMER_DELAY_MS) + 1) delayMs Hd) as H'.
  assert (0 < MAX_HOST_TIMER_DELAY_MS) as HM by (by vm_compute).
  pose proof (Z.div_mod delayMs MAX_HOST_TIMER_DELAY_MS ltac:(lia)).
  pose proof (Z.mod_pos_bound delayMs MAX_HOST_TIMER_DELAY_MS HM).
  pose proof (Z.div_pos delayMs MAX_HOST_TIMER_DELAY_MS Hd HM).
  set (M := MAX_HOST_TIMER_DELAY_MS) in *. clearbody M.
  destruct (run_chain _ _) as [waited ran] eqn:E. destruct H' as (-> & Hsum & Hall & _); [lia|lia|].
  exists waited. split; [done|]. split; [exact E|]. done.
Qed.

Lemma timer_waits_whole_delay_witness :
  ∃ timer waited, wc_schedule 5_000_000_000 = Ok timer
    ∧ run_chain (Z.to_nat (5_000_000_000 / MAX_HOST_TIMER_DELAY_MS) + 1) timer = (waited, true)
    ∧ foldr Z.add 0 waited = 5_000_000_000.
Proof.
  destruct (timer_waits_whole_delay 5_000_000_000) as (t & w & H1 & H2 & H3 & _); [lia|]. eauto.
Defined.
