(* ===== verification/Suspicion.v ===== *)
(** * Suspicions ([src/membership/suspicion.ts])

    Each suspected member has a deadline that independent confirmations shorten and a
    timer that turns it into an expiry.  The manager runs over a clock whose timers may
    fire early, and whose cancelled callbacks may still be delivered. *)
From S2P Require Import Prelude JsNumber JsString Membership.

Definition SUSPICION_MULTIPLIER : Z := 4.
Definition SUSPICION_MAX_MULTIPLIER : Z := 6.
Definition SUSPICION_CONFIRMATION_TARGET : Z := 3.

Record SuspicionBounds := MkBounds { sb_minimum : Z; sb_maximum : Z }.

Record SuspicionStart := MkStart {
  si_member : jsstring;
  si_incarnation : Z;
  si_reporter : jsstring;
  si_memberCount : Z;
  si_effectivePeriod : Z }.

Record SuspicionExpiry := MkExpiry { se_member : jsstring; se_incarnation : Z }.

(** [StoredSuspicion].  [ss_id] is the object's identity, which timer callbacks
    capture; [ss_timer] names a timer of the clock. *)
Record StoredSuspicion := MkSuspicion {
  ss_id : nat;
  ss_member : jsstring;
  ss_incarnation : Z;
  ss_start : Z;
  ss_minimum : Z;
  ss_maximum : Z;
  ss_reporter : jsstring;
  confirmationReporters : list jsstring;
  ss_deadline : Z;
  ss_revision : Z;
  ss_timer : option nat }.

(** A timer of the clock: its callback runs [#expire(record, revision)], where the
    record is the object [tm_record] of [tm_member]. *)
Record Timer := MkTimer {
  tm_id : nat;
  tm_due : Z;
  tm_member : jsstring;
  tm_record : nat;
  tm_revision : Z }.

(** The manager with its clock: [sm_now] is the reading of [now()], [sm_pending] the
    timers not yet run or cancelled, [sm_expired] the calls of [onExpire] so far, and
    [sm_next] the next fresh identity, of a record or of a timer. *)
Record SuspicionManager := MkManager {
  sm_active : list (jsstring * StoredSuspicion);
  sm_now : Z;
  sm_pending : list Timer;
  sm_expired : list SuspicionExpiry;
  sm_next : nat }.

Definition new_SuspicionManager (now : Z) : SuspicionManager := MkManager [] now [] [] 0.

(** ** Guards *)

Definition requirePositiveSafeInteger (value : Z) (message : string) : result unit :=
  guard_throw (negb (negb (is_safe_integer value) || (value <=? 0))) (RangeError message).

Definition requireNonNegativeSafeInteger (value : Z) (message : string) : result unit :=
  guard_throw (negb (negb (is_safe_integer value) || (value <? 0))) (RangeError message).

Definition requireIncarnation (value : Z) : result unit :=
  let! _ := requireNonNegativeSafeInteger value "incarnation must be a non-negative safe integer" in
  guard_throw (negb (MAX_INCARNATION <? value)) (RangeError "incarnation must not exceed 4294967295").

Definition requireSafeTime (value : Z) (message : string) : result unit :=
  guard_throw (is_safe_integer value) (RangeError message).

(** ** Deadlines *)

(** What is used of [Math.log10] and [Math.log], which the language leaves to the
    implementation to approximate: [Math.ceil(Math.log10(n))], and
    [Math.floor((range * Math.log(count + 1)) / Math.log(target + 1))]. *)
Class MathLog := {
  ceil_log10 : Z → Z;
  floor_decay : Z → Z → Z → Z }.

(** A logarithm is positive above one and increasing. *)
Class MathLogLaws `{MathLog} := {
  ceil_log10_pos n : 2 ≤ n → 1 ≤ ceil_log10 n;
  floor_decay_range range count target :
    0 ≤ range → 0 < count < target → 0 ≤ floor_decay range count target ≤ range;
  floor_decay_mono range c1 c2 target :
    0 ≤ range → 0 < c1 → c1 ≤ c2 → c2 < target →
    floor_decay range c1 target ≤ floor_decay range c2 target }.

Section manager.
Context `{MathLog}.

Definition suspicionBounds (memberCount effectivePeriod : Z) : result SuspicionBounds :=
  let! _ := requireNonNegativeSafeInteger memberCount "member count must be a non-negative safe integer" in
  let! _ := requirePositiveSafeInteger effectivePeriod "effective period must be a positive safe integer" in
  let count := Z.max 1 memberCount in
  let minimum := SUSPICION_MULTIPLIER * ceil_log10 (count + 1) * effectivePeriod in
  let maximum := SUSPICION_MAX_MULTIPLIER * minimum in
  let! _ := requirePositiveSafeInteger minimum "minimum suspicion timeout must be a positive safe integer" in
  let! _ := requirePositiveSafeInteger maximum "maximum suspicion timeout must be a positive safe integer" in
  Ok (MkBounds minimum maximum).

Definition suspicionDeadline (start minimum maximum confirmationCount confirmationTarget : Z) : result Z :=
  let! _ := requireSafeTime start "start must be a safe integer" in
  let! _ := requirePositiveSafeInteger minimum "minimum suspicion timeout must be a positive safe integer" in
  let! _ := requirePositiveSafeInteger maximum "maximum suspicion timeout must be a positive safe integer" in
  let! _ := requireNonNegativeSafeInteger confirmationCount
              "confirmation count must be a non-negative safe integer" in
  let! _ := requirePositiveSafeInteger confirmationTarget "confirmation target must be a positive safe integer" in
  let! _ := guard_throw (negb (maximum <? minimum))
              (RangeError "maximum suspicion timeout must not be less than minimum") in
  let count := Z.min confirmationCount confirmationTarget in
  let deadline :=
    if count =? 0 then start + maximum
    else if count =? confirmationTarget then start + minimum
    else start + (maximum - floor_decay (maximum - minimum) count confirmationTarget) in
  let! _ := requireSafeTime deadline "suspicion deadline must be a safe integer" in
  Ok deadline.

(** ** The manager *)

Definition sm_size (s : SuspicionManager) : nat := length (sm_active s).

(** The snapshot is the record itself: nothing of it is mutable here. *)
Definition sm_get (s : SuspicionManager) (member : jsstring) : option StoredSuspicion :=
  jm_get member (sm_active s).

Definition set_timer (a : StoredSuspicion) (t : option nat) : StoredSuspicion :=
  MkSuspicion (ss_id a) (ss_member a) (ss_incarnation a) (ss_start a) (ss_minimum a) (ss_maximum a)
    (ss_reporter a) (confirmationReporters a) (ss_deadline a) (ss_revision a) t.

Definition bump_revision (a : StoredSuspicion) : StoredSuspicion :=
  MkSuspicion (ss_id a) (ss_member a) (ss_incarnation a) (ss_start a) (ss_minimum a) (ss_maximum a)
    (ss_reporter a) (confirmationReporters a) (ss_deadline a) (ss_revision a + 1) (ss_timer a).

(** [#schedule]: a timer for the record's deadline; the record, which is installed under
    its member, holds its handle. *)
Definition sm_schedule (s : SuspicionManager) (a : StoredSuspicion) : SuspicionManager :=
  let delay := Z.max 0 (ss_deadline a - sm_now s) in
  let t := MkTimer (sm_next s) (sm_now s + delay) (ss_member a) (ss_id a) (ss_revision a) in
  MkManager (jm_set (ss_member a) (set_timer a (Some (sm_next s))) (sm_active s)) (sm_now s)
    (sm_pending s ++ [t]) (sm_expired s) (S (sm_next s)).

(** [#cancelTimer]: the clock forgets the timer. *)
Definition cancelTimer (s : SuspicionManager) (a : StoredSuspicion) : SuspicionManager :=
  match ss_timer a with
  | Some t => MkManager (sm_active s) (sm_now s) (filter (λ x, tm_id x ≠ t) (sm_pending s))
                (sm_expired s) (sm_next s)
  | None => s
  end.

(** [#expire]: [record] is the captured object, [revision] the captured generation. *)
Definition sm_expire (s : SuspicionManager) (member : jsstring) (record : nat) (revision : Z)
    : SuspicionManager :=
  match sm_get s member with
  | Some a =>
      if negb (Nat.eqb (ss_id a) record) || negb (ss_revision a =? revision) then s
      else if sm_now s <? ss_deadline a then sm_schedule s a
      else MkManager (jm_delete member (sm_active s)) (sm_now s) (sm_pending s)
             (sm_expired s ++ [MkExpiry (ss_member a) (ss_incarnation a)]) (sm_next s)
  | None => s
  end.

Definition sm_start (s : SuspicionManager) (input : SuspicionStart) : result (bool * SuspicionManager) :=
  let! _ := requireIncarnation (si_incarnation input) in
  let! _ := guard_throw (negb (Nat.eqb (length (si_member input)) 0))
              (RangeError "member must not be empty") in
  let! _ := guard_throw (negb (Nat.eqb (length (si_reporter input)) 0))
              (RangeError "reporter must not be empty") in
  let current := sm_get s (si_member input) in
  if match current with Some c => si_incarnation input <=? ss_incarnation c | None => false end
  then Ok (false, s)
  else
    let start := sm_now s in
    let! _ := requireSafeTime start "clock time must be a safe integer" in
    let! bounds := suspicionBounds (si_memberCount input) (si_effectivePeriod input) in
    let! deadline := suspicionDeadline start (sb_minimum bounds) (sb_maximum bounds) 0
                       SUSPICION_CONFIRMATION_TARGET in
    let active := MkSuspicion (sm_next s) (si_member input) (si_incarnation input) start
      (sb_minimum bounds) (sb_maximum bounds) (si_reporter input) [] deadline 0 None in
    let s := MkManager (sm_active s) (sm_now s) (sm_pending s) (sm_expired s) (S (sm_next s)) in
    let s := match current with Some c => cancelTimer s c | None => s end in
    Ok (true, sm_schedule s active).

Definition sm_confirm (s : SuspicionManager) (member : jsstring) (incarnation : Z) (reporter : jsstring)
    : result (bool * SuspicionManager) :=
  let! _ := requireIncarnation incarnation in
  match sm_get s member with
  | None => Ok (false, s)
  | Some active =>
      if negb (ss_incarnation active =? incarnation)
         || bool_decide (reporter = ss_reporter active)
         || bool_decide (reporter ∈ confirmationReporters active)
         || (SUSPICION_CONFIRMATION_TARGET <=? Z.of_nat (length (confirmationReporters active)))
      then Ok (false, s)
      else
        let reporters := confirmationReporters active ++ [reporter] in
        let! deadline := suspicionDeadline (ss_start active) (ss_minimum active) (ss_maximum active)
                           (Z.of_nat (length reporters)) SUSPICION_CONFIRMATION_TARGET in
        let confirmed := MkSuspicion (ss_id active) (ss_member active) (ss_incarnation active)
          (ss_start active) (ss_minimum active) (ss_maximum active) (ss_reporter active) reporters
          deadline (ss_revision active) (ss_timer active) in
        let s := cancelTimer s confirmed in
        let confirmed := bump_revision (set_timer confirmed None) in
        let s := MkManager (jm_set member confirmed (sm_active s)) (sm_now s) (sm_pending s)
                   (sm_expired s) (sm_next s) in
        if deadline <=? sm_now s then Ok (true, sm_expire s member (ss_id confirmed) (ss_revision confirmed))
        else Ok (true, sm_schedule s confirmed)
  end.

Definition sm_cancelThrough (s : SuspicionManager) (member : jsstring) (incarnation : Z)
    : result (bool * SuspicionManager) :=
  let! _ := requireIncarnation incarnation in
  match sm_get s member with
  | None => Ok (false, s)
  | Some active =>
      if incarnation <? ss_incarnation active then Ok (false, s)
      else
        let s := MkManager (jm_delete member (sm_active s)) (sm_now s) (sm_pending s) (sm_expired s)
                   (sm_next s) in
        Ok (true, cancelTimer s active)
  end.

Definition sm_cancelAll (s : SuspicionManager) : SuspicionManager :=
  let s := foldl cancelTimer s (jm_values (sm_active s)) in
  MkManager [] (sm_now s) (sm_pending s) (sm_expired s) (sm_next s).
End manager.

(** ** Executions *)

#[export] Instance Timer_eq_dec : EqDecision Timer.
Proof. solve_decision. Defined.

(** A call, the passing of time, the clock running one of its timers, or the late
    delivery of a callback whose timer was cancelled. *)
Inductive sm_event :=
  | SmStart (input : SuspicionStart)
  | SmConfirm (member : jsstring) (incarnation : Z) (reporter : jsstring)
  | SmCancelThrough (member : jsstring) (incarnation : Z)
  | SmCancelAll
  | SmTick (elapsed : Z)
  | SmFire (timer : Timer)
  | SmLate (timer : Timer).

Section executions.
Context `{MathLog}.

Definition keep (s : SuspicionManager) (r : result (bool * SuspicionManager)) : SuspicionManager :=
  match r with Ok (_, s') => s' | Throw _ => s end.

(** The manager after a call; one that throws leaves it as it was. *)
Definition sm_call (s : SuspicionManager) (e : sm_event) : SuspicionManager :=
  match e with
  | SmStart input => keep s (sm_start s input)
  | SmConfirm m i r => keep s (sm_confirm s m i r)
  | SmCancelThrough m i => keep s (sm_cancelThrough s m i)
  | SmCancelAll => sm_cancelAll s
  | SmTick d => MkManager (sm_active s) (sm_now s + d) (sm_pending s) (sm_expired s) (sm_next s)
  | SmFire x =>
      sm_expire (MkManager (sm_active s) (sm_now s) (filter (λ y, tm_id y ≠ tm_id x) (sm_pending s))
                   (sm_expired s) (sm_next s)) (tm_member x) (tm_record x) (tm_revision x)
  | SmLate x => sm_expire s (tm_member x) (tm_record x) (tm_revision x)
  end.

(** One step: the manager, and the timers cancelled so far.  Time does not go back, a
    timer that fires is pending, and a late callback is one of a cancelled timer. *)
Inductive sm_step : SuspicionManager * list Timer → sm_event → SuspicionManager * list Timer → Prop :=
  | step_call s dead e :
      match e with SmTick _ | SmFire _ | SmLate _ => False | _ => True end →
      sm_step (s, dead) e
        (sm_call s e, dead ++ filter (λ x, x ∉ sm_pending (sm_call s e)) (sm_pending s))
  | step_tick s dead d : 0 ≤ d → sm_step (s, dead) (SmTick d) (sm_call s (SmTick d), dead)
  | step_fire s dead x : x ∈ sm_pending s → sm_step (s, dead) (SmFire x) (sm_call s (SmFire x), dead)
  | step_late s dead x : x ∈ dead → sm_step (s, dead) (SmLate x) (sm_call s (SmLate x), dead).

(** What an execution from an empty manager reaches. *)
Inductive sm_reach : SuspicionManager * list Timer → Prop :=
  | reach_new now : sm_reach (new_SuspicionManager now, [])
  | reach_step p e p' : sm_reach p → sm_step p e p' → sm_reach p'.

(** ** The invariant *)

Record suspicion_ok (now : Z) (a : StoredSuspicion) : Prop := {
  so_bounds : 0 < ss_minimum a ≤ ss_maximum a;
  so_safe : is_safe_integer (ss_maximum a) = true ∧ is_safe_integer (ss_start a) = true
    ∧ is_safe_integer (ss_start a + ss_maximum a) = true;
  so_start : ss_start a ≤ now;
  so_distinct : NoDup (ss_reporter a :: confirmationReporters a);
  so_target : Z.of_nat (length (confirmationReporters a)) ≤ SUSPICION_CONFIRMATION_TARGET;
  so_deadline : suspicionDeadline (ss_start a) (ss_minimum a) (ss_maximum a)
    (Z.of_nat (length (confirmationReporters a))) SUSPICION_CONFIRMATION_TARGET = Ok (ss_deadline a) }.

(** [x] is the running timer of [a]. *)
Definition live (now : Z) (x : Timer) (a : StoredSuspicion) : Prop :=
  ss_timer a = Some (tm_id x) ∧ tm_member x = ss_member a ∧ tm_record x = ss_id a
  ∧ tm_revision x = ss_revision a ∧ ss_deadline a ≤ tm_due x ≤ Z.max (ss_deadline a) now.

(** Everything but what concerns the members in [hole]. *)
Record sm_inv (hole : option jsstring) (s : SuspicionManager) (dead : list Timer) : Prop := {
  si_wf : jm_wf (sm_active s);
  si_ok : ∀ m a, sm_get s m = Some a → Some m ≠ hole →
    ss_member a = m ∧ suspicion_ok (sm_now s) a ∧ ∃ x, x ∈ sm_pending s ∧ live (sm_now s) x a;
  si_pending : ∀ x, x ∈ sm_pending s → Some (tm_member x) ≠ hole
    ∧ ∃ a, sm_get s (tm_member x) = Some a ∧ live (sm_now s) x a;
  si_ids : NoDup (tm_id <$> sm_pending s);
  si_fresh : (∀ x, x ∈ sm_pending s → (tm_id x < sm_next s)%nat)
    ∧ (∀ m a, sm_get s m = Some a → Some m ≠ hole → (ss_id a < sm_next s)%nat)
    ∧ ∀ x, x ∈ dead → (tm_record x < sm_next s)%nat;
  si_dead : ∀ x a, x ∈ dead → sm_get s (tm_member x) = Some a → Some (tm_member x) ≠ hole →
    ss_id a = tm_record x → tm_revision x < ss_revision a }.

Lemma sm_inv_dead h s dead dead' :
  (∀ x, x ∈ dead' → x ∈ dead) → sm_inv h s dead → sm_inv h s dead'.
Proof.
  intros Hsub [? ? ? ? (? & ? & Hd) Hdead]. split; try done; [|by eauto].
  split; [done|]. split; [done|]. intros x Hx. by apply Hd, Hsub.
Qed.

(** A member with no record has nothing to hide. *)
Lemma hole_open s dead m : sm_inv None s dead → sm_get s m = None → sm_inv (Some m) s dead.
Proof.
  intros [Hwf Hok Hp Hids (Hf1 & Hf2 & Hf3) Hd] Hn. split; try done.
  - intros k a Hk _. by apply Hok.
  - intros x Hx. destruct (Hp x Hx) as (_ & a & Ha & Hl). split; [congruence|eauto].
  - split; [done|]. split; [|done]. intros k a Hk _. by apply (Hf2 k).
  - intros x a Hx Ha _. by apply Hd.
Qed.

Lemma hole_close s dead m : sm_inv (Some m) s dead → sm_get s m = None → sm_inv None s dead.
Proof.
  intros [Hwf Hok Hp Hids (Hf1 & Hf2 & Hf3) Hd] Hn. split; try done.
  - intros k a Hk _. apply Hok; congruence.
  - intros x Hx. split; [done|]. by apply Hp.
  - split; [done|]. split; [|done]. intros k a Hk _. apply (Hf2 k); congruence.
  - intros x a Hx Ha _. apply Hd; congruence.
Qed.

(** Inside a hole the member's record may change. *)
Lemma hole_change s dead m active expired next :
  sm_inv (Some m) s dead → jm_wf active → (∀ k, k ≠ m → jm_get k active = sm_get s k) →
  (sm_next s ≤ next)%nat →
  sm_inv (Some m) (MkManager active (sm_now s) (sm_pending s) expired next) dead.
Proof.
  intros [Hwf Hok Hp Hids (Hf1 & Hf2 & Hf3) Hd] Hwf' Hact Hn.
  assert (∀ k a, jm_get k active = Some a → Some k ≠ Some m → sm_get s k = Some a) as Hold
    by (intros k a Hk Hne; rewrite <-Hact; congruence).
  split; try done; unfold sm_get; cbn [sm_active sm_pending sm_now sm_next].
  - intros k a Hk Hne. by apply Hok; [apply Hold|].
  - intros x Hx. destruct (Hp x Hx) as (Hne & a & Ha & Hl). split; [done|]. exists a.
    by rewrite Hact by congruence.
  - split; [intros x Hx; specialize (Hf1 x Hx); lia|].
    split; [intros k a Hk Hne; specialize (Hf2 k a (Hold k a Hk Hne) Hne); lia|].
    intros x Hx. specialize (Hf3 x Hx). lia.
  - intros x a Hx Ha Hne. apply Hd; [done|by apply Hold|done].
Qed.

(** Two pending timers of one member are one. *)
Lemma pending_member s dead x y :
  sm_inv None s dead → x ∈ sm_pending s → y ∈ sm_pending s → tm_member x = tm_member y → tm_id x = tm_id y.
Proof.
  intros Hi Hx Hy He. destruct (si_pending _ _ _ Hi x Hx) as (_ & a & Ha & Hl & _).
  destruct (si_pending _ _ _ Hi y Hy) as (_ & b & Hb & Hl' & _). rewrite He in Ha. congruence.
Qed.

(** Removing a pending timer leaves a hole at its member. *)
Lemma hole_filter s dead x :
  sm_inv None s dead → x ∈ sm_pending s →
  sm_inv (Some (tm_member x))
    (MkManager (sm_active s) (sm_now s) (filter (λ y, tm_id y ≠ tm_id x) (sm_pending s)) (sm_expired s)
       (sm_next s)) (x :: dead).
Proof.
  intros Hi Hx. pose proof Hi as [Hwf Hok Hp Hids (Hf1 & Hf2 & Hf3) Hd].
  split; unfold sm_get; cbn [sm_active sm_pending sm_now sm_next].
  - done.
  - intros k a Hk Hne. destruct (Hok k a Hk) as (Hm & Hs & y & Hy & Hl); [done|].
    split; [done|]. split; [done|]. exists y. split; [|done]. apply list_elem_of_filter. split; [|done].
    intros He. destruct (Hp x Hx) as (_ & b & Hb & Hl' & _). destruct Hl as (Ht & Hty & _).
    assert (y = x) as ->; [|congruence].
    apply list_elem_of_lookup in Hx as [i Hi1], Hy as [j Hj].
    assert (i = j) as ->; [|congruence].
    apply (NoDup_lookup (tm_id <$> sm_pending s) i j (tm_id x) Hids); rewrite list_lookup_fmap.
    + by rewrite Hi1.
    + by rewrite Hj; cbn; f_equal.
  - intros y [Hne Hy]%list_elem_of_filter. split; [|by apply Hp].
    intros [= He]. by apply Hne, (pending_member s dead).
  - eapply sublist_NoDup; [done|]. by apply fmap_sublist, sublist_filter.
  - split; [intros y [_ Hy]%list_elem_of_filter; by apply Hf1|].
    split; [intros k a Hk _; by apply (Hf2 k)|].
    intros y [->|Hy]%elem_of_cons; [|by apply Hf3].
    destruct (Hp x Hx) as (_ & a & Ha & _ & _ & -> & _). by apply (Hf2 _ _ Ha).
  - intros y a [->|Hy]%elem_of_cons Ha Hne; [done|]. by apply Hd.
Qed.

(** Scheduling a record closes the hole. *)
Lemma schedule_inv s dead a :
  sm_inv (Some (ss_member a)) s dead → suspicion_ok (sm_now s) a → (ss_id a < sm_next s)%nat →
  (∀ x, x ∈ dead → tm_member x = ss_member a → ss_id a = tm_record x → tm_revision x < ss_revision a) →
  sm_inv None (sm_schedule s a) dead.
Proof.
  intros [Hwf Hok Hp Hids (Hf1 & Hf2 & Hf3) Hd] Ha Hid Hda.
  assert (∀ k, sm_get (sm_schedule s a) k
    = if decide (k = ss_member a) then Some (set_timer a (Some (sm_next s))) else sm_get s k) as Hget
    by (intros k; unfold sm_get, sm_schedule; cbn; by rewrite jm_get_set).
  split; try setoid_rewrite Hget; unfold sm_schedule; cbn [sm_active sm_pending sm_now sm_next].
  - by apply jm_wf_set.
  - intros k b Hk _. setoid_rewrite elem_of_app. destruct (decide (k = ss_member a)) as [->|Hne].
    + injection Hk as <-. split; [done|]. split; [by destruct Ha|].
      eexists. split; [right; by apply list_elem_of_singleton|]. repeat split; cbn; lia.
    + destruct (Hok k b Hk) as (? & ? & x & ? & ?); [congruence|]. eauto 10.
  - intros x [Hx| ->%list_elem_of_singleton]%elem_of_app; (split; [done|]).
    + destruct (Hp x Hx) as (Hne & b & Hb & Hl). exists b. by rewrite decide_False by congruence.
    + cbn. rewrite decide_True by done. eexists. split; [done|]. repeat split; cbn; lia.
  - rewrite fmap_app. apply NoDup_app. split; [done|]. split; [|apply NoDup_singleton].
    intros i (x & -> & Hx)%list_elem_of_fmap Hi%list_elem_of_singleton. specialize (Hf1 x Hx). cbn in Hi. lia.
  - split; [intros x [Hx| ->%list_elem_of_singleton]%elem_of_app; [specialize (Hf1 x Hx)|cbn]; lia|].
    split; [|intros x Hx; specialize (Hf3 x Hx); lia].
    intros k b Hk _. destruct (decide (k = ss_member a)); [injection Hk as <-; cbn; lia|].
    specialize (Hf2 k b Hk ltac:(congruence)). lia.
  - intros x b Hx Hb _. destruct (decide (tm_member x = ss_member a)); [injection Hb as <-; by apply Hda|].
    apply Hd; congruence.
Qed.

(** What a call removes from the clock counts as cancelled. *)
Lemma inv_settle s s' dead extra :
  sm_inv None s' (extra ++ dead) → (∀ y, y ∈ sm_pending s → y ∈ sm_pending s' ∨ y ∈ extra) →
  sm_inv None s' (dead ++ filter (λ x, x ∉ sm_pending s') (sm_pending s)).
Proof.
  intros Hi Hsub. eapply sm_inv_dead; [|exact Hi]. intros x.
  rewrite !elem_of_app, list_elem_of_filter. intros [Hx|[Hn Hx]]; [by right|].
  destruct (Hsub x Hx); [done|by left].
Qed.

Lemma inv_settle_same s dead : sm_inv None s dead → sm_inv None s (dead ++ filter (λ x, x ∉ sm_pending s) (sm_pending s)).
Proof. intros Hi. apply (inv_settle s s dead []); [done|by left]. Qed.

(** Cancelling the timer of an installed record. *)
Lemma hole_cancel s dead m a :
  sm_inv None s dead → sm_get s m = Some a →
  ∃ x, sm_inv (Some m) (cancelTimer s a) (x :: dead) ∧ tm_record x = ss_id a ∧ tm_revision x = ss_revision a
    ∧ ∀ y, y ∈ sm_pending s → y ∈ sm_pending (cancelTimer s a) ∨ y ∈ [x].
Proof.
  intros Hi Hm. destruct (si_ok _ _ _ Hi m a Hm) as (Hk & Hok & x & Hx & Hl & Hxm & Hxr & Hxv & _); [done|].
  exists x. unfold cancelTimer. rewrite Hl. cbn [sm_pending]. rewrite <-Hk, <-Hxm.
  split; [by apply hole_filter|]. split; [done|]. split; [done|].
  intros y Hy. destruct (decide (tm_id y = tm_id x)) as [He|He].
  - right. apply list_elem_of_singleton. apply list_elem_of_lookup in Hx as [i Hi1], Hy as [j Hj].
    assert (j = i) as ->; [|congruence].
    apply (NoDup_lookup (tm_id <$> sm_pending s) j i (tm_id x) (si_ids _ _ _ Hi)); rewrite list_lookup_fmap.
    + by rewrite Hj; cbn; f_equal.
    + by rewrite Hi1.
  - left. by apply list_elem_of_filter.
Qed.

Lemma requirePositive_ok v message u :
  requirePositiveSafeInteger v message = Ok u ↔ is_safe_integer v = true ∧ 0 < v.
Proof.
  unfold requirePositiveSafeInteger, guard_throw. destruct u.
  destruct (is_safe_integer v), (Z.leb_spec v 0); cbn; intuition (done || lia).
Qed.

Lemma suspicionBounds_ok n period b :
  suspicionBounds n period = Ok b →
  0 < sb_minimum b ≤ sb_maximum b ∧ is_safe_integer (sb_maximum b) = true.
Proof.
  intros H0. unfold suspicionBounds, SUSPICION_MAX_MULTIPLIER in H0. inv_ok.
  cbn [sb_minimum sb_maximum]. apply requirePositive_ok in E1, E2. destruct E1, E2. split; [lia|done].
Qed.

Lemma suspicionDeadline_zero start minimum maximum target d :
  0 < target → suspicionDeadline start minimum maximum 0 target = Ok d →
  d = start + maximum ∧ is_safe_integer start = true ∧ is_safe_integer d = true.
Proof.
  intros Ht H0. unfold suspicionDeadline, requireSafeTime in H0. inv_ok.
  rewrite Z.min_l in * by lia. done.
Qed.

Lemma suspicion_opened s bounds deadline input id :
  suspicionBounds (si_memberCount input) (si_effectivePeriod input) = Ok bounds →
  suspicionDeadline (sm_now s) (sb_minimum bounds) (sb_maximum bounds) 0
    SUSPICION_CONFIRMATION_TARGET = Ok deadline →
  suspicion_ok (sm_now s) (MkSuspicion id (si_member input) (si_incarnation input) (sm_now s)
    (sb_minimum bounds) (sb_maximum bounds) (si_reporter input) [] deadline 0 None).
Proof.
  intros [Hb Hs]%suspicionBounds_ok Hd.
  destruct (suspicionDeadline_zero _ _ _ SUSPICION_CONFIRMATION_TARGET _ ltac:(done) Hd) as (-> & Hs1 & Hs2).
  split; cbn; try done. apply NoDup_singleton.
Qed.

Lemma start_inv s dead input b s' :
  sm_inv None s dead → sm_start s input = Ok (b, s') →
  sm_inv None s' (dead ++ filter (λ x, x ∉ sm_pending s') (sm_pending s)).
Proof.
  intros Hi H0. unfold sm_start in H0.
  apply result_bind_ok in H0 as ([] & _ & H0). apply result_bind_ok in H0 as ([] & _ & H0).
  apply result_bind_ok in H0 as ([] & _ & H0).
  destruct (sm_get s (si_member input)) as [c|] eqn:Hc;
    [destruct (si_incarnation input <=? ss_incarnation c)|].
  - injection H0 as <- <-. by apply inv_settle_same.
  - apply result_bind_ok in H0 as ([] & _ & H0). apply result_bind_ok in H0 as (bd & Hb & H0).
    apply result_bind_ok in H0 as (d & Hd & H0). injection H0 as <- <-.
    destruct (hole_cancel s dead _ c Hi Hc) as (x & Hx & Hr & _ & Hp).
    pose proof (si_fresh _ _ _ Hi) as (_ & Hf & _). specialize (Hf _ _ Hc ltac:(done)).
    set (s1 := MkManager _ _ _ _ _).
    assert (cancelTimer s1 c = MkManager (sm_active s) (sm_now (cancelTimer s c))
      (sm_pending (cancelTimer s c)) (sm_expired s) (S (sm_next s))) as ->
      by (unfold cancelTimer; by destruct (ss_timer c)).
    assert (sm_now (cancelTimer s c) = sm_now s ∧ sm_next (cancelTimer s c) = sm_next s) as [En Ex]
      by (unfold cancelTimer; by destruct (ss_timer c)).
    apply (inv_settle s _ dead [x]); [apply schedule_inv; cbn [ss_id ss_member ss_revision sm_now sm_next]|].
    + apply hole_change; [done|apply Hi| |lia]. intros k _. unfold sm_get, cancelTimer. by destruct (ss_timer c).
    + rewrite En. by apply suspicion_opened.
    + lia.
    + intros y [->|Hy]%elem_of_cons _ He; [lia|]. pose proof (si_fresh _ _ _ Hi) as (_ & _ & Hf3).
      specialize (Hf3 y Hy). lia.
    + intros y Hy. destruct (Hp y Hy); [left|by right]. apply elem_of_app. by left.
  - apply result_bind_ok in H0 as ([] & _ & H0). apply result_bind_ok in H0 as (bd & Hb & H0).
    apply result_bind_ok in H0 as (d & Hd & H0). injection H0 as <- <-.
    apply (inv_settle s _ dead []); [apply schedule_inv; cbn [ss_id ss_member ss_revision sm_now sm_next]|].
    + apply (hole_change s); [by apply hole_open|apply Hi|done|lia].
    + by apply suspicion_opened.
    + lia.
    + intros y Hy _ He. pose proof (si_fresh _ _ _ Hi) as (_ & _ & Hf3). specialize (Hf3 y Hy). lia.
    + intros y Hy. left. apply elem_of_app. by left.
Qed.

(** The callback of a record inside the hole closes it: it re-arms or expires. *)
Lemma expire_hole s dead a :
  sm_inv (Some (ss_member a)) s dead → sm_get s (ss_member a) = Some a → suspicion_ok (sm_now s) a →
  (ss_id a < sm_next s)%nat →
  (∀ x, x ∈ dead → tm_member x = ss_member a → ss_id a = tm_record x → tm_revision x < ss_revision a) →
  let s' := sm_expire s (ss_member a) (ss_id a) (ss_revision a) in
  sm_inv None s' dead ∧ ∀ y, y ∈ sm_pending s → y ∈ sm_pending s'.
Proof.
  intros Hi Ha Hok Hid Hd. unfold sm_expire. rewrite Ha, Nat.eqb_refl, Z.eqb_refl. cbn [negb orb].
  destruct (sm_now s <? ss_deadline a).
  - split; [by apply schedule_inv|]. intros y Hy. apply elem_of_app. by left.
  - split; [|done]. apply (hole_close _ _ (ss_member a)).
    + apply hole_change; [done|apply jm_wf_delete, Hi| |lia]. intros k Hk.
      by rewrite jm_get_delete, decide_False by done.
    + unfold sm_get. cbn. by rewrite jm_get_delete, decide_True by done.
Qed.

Lemma fire_inv s dead x :
  sm_inv None s dead → x ∈ sm_pending s → sm_inv None (sm_call s (SmFire x)) dead.
Proof.
  intros Hi Hx. destruct (si_pending _ _ _ Hi x Hx) as (_ & a & Ha & _ & Hm & Hr & Hv & _).
  destruct (si_ok _ _ _ Hi _ a Ha) as (Hk & Hok & _); [done|]. cbn [sm_call]. rewrite Hr, Hv, Hm.
  pose proof (hole_filter s dead x Hi Hx) as Hh. rewrite Hm in Hh, Ha, Hk.
  apply expire_hole; cbn [sm_now sm_next]; try done.
  - by eapply sm_inv_dead; [|exact Hh]; intros y Hy; right.
  - pose proof (si_fresh _ _ _ Hi) as (_ & Hf & _). by apply (Hf _ _ Ha).
  - intros y Hy He. apply (si_dead _ _ _ Hi y a Hy); [by rewrite He|done].
Qed.

(** A cancelled callback that is delivered anyway does nothing. *)
Lemma late_noop s dead x : sm_inv None s dead → x ∈ dead → sm_call s (SmLate x) = s.
Proof.
  intros Hi Hx. cbn [sm_call]. unfold sm_expire. destruct (sm_get s (tm_member x)) as [a|] eqn:Ha; [|done].
  destruct (Nat.eqb_spec (ss_id a) (tm_record x)) as [He|]; [|done].
  pose proof (si_dead _ _ _ Hi x a Hx Ha ltac:(done) He).
  destruct (Z.eqb_spec (ss_revision a) (tm_revision x)); [lia|done].
Qed.

Lemma cancelThrough_inv s dead m i b s' :
  sm_inv None s dead → sm_cancelThrough s m i = Ok (b, s') →
  sm_inv None s' (dead ++ filter (λ x, x ∉ sm_pending s') (sm_pending s)).
Proof.
  intros Hi H0. unfold sm_cancelThrough in H0. apply result_bind_ok in H0 as ([] & _ & H0).
  destruct (sm_get s m) as [a|] eqn:Ha; [destruct (i <? ss_incarnation a)|];
    try (injection H0 as <- <-; by apply inv_settle_same).
  injection H0 as <- <-. destruct (hole_cancel s dead m a Hi Ha) as (x & Hx & _ & _ & Hp).
  set (s1 := MkManager _ _ _ _ _).
  assert (cancelTimer s1 a = MkManager (jm_delete m (sm_active s)) (sm_now (cancelTimer s a))
    (sm_pending (cancelTimer s a)) (sm_expired s) (sm_next (cancelTimer s a))) as ->
    by (unfold cancelTimer; by destruct (ss_timer a)).
  apply (inv_settle s _ dead [x]); [|done]. apply (hole_close _ _ m).
  - apply hole_change; [done|apply jm_wf_delete, Hi| |lia]. intros k Hk.
    rewrite jm_get_delete, decide_False by done. unfold sm_get, cancelTimer. by destruct (ss_timer a).
  - unfold sm_get. cbn. by rewrite jm_get_delete, decide_True by done.
Qed.

Lemma cancel_fold l s :
  foldl cancelTimer s l
  = MkManager (sm_active s) (sm_now s) (filter (λ x, Some (tm_id x) ∉ ss_timer <$> l) (sm_pending s))
      (sm_expired s) (sm_next s).
Proof.
  revert s. induction l as [|a l IH]; intros s; cbn [foldl].
  - rewrite filter_all; [by destruct s|]. intros x _. apply not_elem_of_nil.
  - rewrite IH. unfold cancelTimer. destruct (ss_timer a) as [t|] eqn:Et; cbn [sm_active sm_pending sm_now sm_expired sm_next].
    + f_equal. rewrite list_filter_filter. apply list_filter_iff. intros x.
      rewrite fmap_cons, Et, not_elem_of_cons. intuition congruence.
    + f_equal. apply list_filter_iff. intros x. rewrite fmap_cons, Et, not_elem_of_cons. intuition congruence.
Qed.

Lemma cancelAll_inv s dead :
  sm_inv None s dead →
  sm_inv None (sm_cancelAll s) (dead ++ filter (λ x, x ∉ sm_pending (sm_cancelAll s)) (sm_pending s)).
Proof.
  intros Hi. apply (inv_settle s _ dead (sm_pending s)); [|by right].
  assert (sm_pending (sm_cancelAll s) = []) as Hnil.
  { unfold sm_cancelAll. rewrite cancel_fold. cbn [sm_pending]. apply filter_none.
    intros x Hx Hn. apply Hn. destruct (si_pending _ _ _ Hi x Hx) as (_ & a & Ha & <- & _).
    apply list_elem_of_fmap_2, list_elem_of_fmap. exists (tm_member x, a). split; [done|].
    by apply jm_get_elem. }
  split; rewrite ?Hnil; unfold sm_cancelAll; rewrite ?cancel_fold; cbn; try done.
  - apply jm_wf_nil.
  - by intros x ?%not_elem_of_nil.
  - constructor.
  - pose proof (si_fresh _ _ _ Hi) as (_ & Hf & Hf3).
    split; [by intros x ?%not_elem_of_nil|]. split; [done|].
    intros x [Hx|Hx]%elem_of_app; [|by apply Hf3].
    destruct (si_pending _ _ _ Hi x Hx) as (_ & a & Ha & _ & _ & -> & _). by apply (Hf _ _ Ha).
Qed.
End executions.

(** ** Confirmations *)

Section confirmations.
Context `{MathLogLaws}.

(** The duration a confirmation count leaves, as [suspicionDeadline] computes it. *)
Definition duration (minimum maximum count target : Z) : Z :=
  let count := Z.min count target in
  if count =? 0 then maximum
  else if count =? target then minimum
  else maximum - floor_decay (maximum - minimum) count target.

Lemma duration_range minimum maximum count target :
  minimum ≤ maximum → 0 ≤ count → 0 < target → minimum ≤ duration minimum maximum count target ≤ maximum.
Proof.
  intros Hm Hc Ht. unfold duration. destruct (Z.eqb_spec (Z.min count target) 0); [lia|].
  destruct (Z.eqb_spec (Z.min count target) target); [lia|].
  pose proof (floor_decay_range (maximum - minimum) (Z.min count target) target). lia.
Qed.

Lemma duration_antitone minimum maximum c1 c2 target :
  minimum ≤ maximum → 0 ≤ c1 ≤ c2 → 0 < target →
  duration minimum maximum c2 target ≤ duration minimum maximum c1 target.
Proof.
  intros Hm Hc Ht. unfold duration.
  destruct (Z.eqb_spec (Z.min c2 target) 0); [destruct (Z.eqb_spec (Z.min c1 target) 0); lia|].
  destruct (Z.eqb_spec (Z.min c1 target) 0) as [|H1].
  { destruct (Z.eqb_spec (Z.min c2 target) target); [lia|].
    pose proof (floor_decay_range (maximum - minimum) (Z.min c2 target) target). lia. }
  destruct (Z.eqb_spec (Z.min c2 target) target).
  { destruct (Z.eqb_spec (Z.min c1 target) target); [lia|].
    pose proof (floor_decay_range (maximum - minimum) (Z.min c1 target) target). lia. }
  destruct (Z.eqb_spec (Z.min c1 target) target); [lia|].
  pose proof (floor_decay_mono (maximum - minimum) (Z.min c1 target) (Z.min c2 target) target). lia.
Qed.

(** Between an exact start and an exact latest deadline nothing can throw. *)
Lemma suspicionDeadline_spec start minimum maximum count :
  0 < minimum ≤ maximum → is_safe_integer maximum = true → is_safe_integer start = true →
  is_safe_integer (start + maximum) = true → 0 ≤ count ≤ SUSPICION_CONFIRMATION_TARGET →
  suspicionDeadline start minimum maximum count SUSPICION_CONFIRMATION_TARGET
  = Ok (start + duration minimum maximum count SUSPICION_CONFIRMATION_TARGET).
Proof.
  intros Hm Hs1 Hs2 Hs3 Hc.
  pose proof (duration_range minimum maximum count SUSPICION_CONFIRMATION_TARGET
    ltac:(lia) ltac:(lia) ltac:(done)) as Hd.
  unfold suspicionDeadline, requireSafeTime, requirePositiveSafeInteger, requireNonNegativeSafeInteger.
  assert (is_safe_integer (start + duration minimum maximum count SUSPICION_CONFIRMATION_TARGET) = true) as Hs4.
  { unfold is_safe_integer in *. lia. }
  assert (is_safe_integer minimum = true ∧ is_safe_integer count = true) as [Hs5 Hs6].
  { unfold is_safe_integer, MAX_SAFE_INTEGER, SUSPICION_CONFIRMATION_TARGET in *. lia. }
  rewrite Hs1, Hs2, Hs5, Hs6. unfold guard_throw, result_bind.
  destruct (Z.leb_spec minimum 0); [lia|]. destruct (Z.leb_spec maximum 0); [lia|].
  destruct (Z.ltb_spec count 0); [lia|]. destruct (Z.ltb_spec maximum minimum); [lia|].
  revert Hs4. unfold duration. cbn.
  destruct (Z.min count SUSPICION_CONFIRMATION_TARGET =? 0); [by intros ->|].
  destruct (Z.min count SUSPICION_CONFIRMATION_TARGET =? SUSPICION_CONFIRMATION_TARGET); by intros ->.
Qed.

Lemma suspicion_deadline now a :
  suspicion_ok now a →
  ss_deadline a = ss_start a + duration (ss_minimum a) (ss_maximum a)
    (Z.of_nat (length (confirmationReporters a))) SUSPICION_CONFIRMATION_TARGET.
Proof.
  intros [? (? & ? & ?) ? ? ? Hd]. rewrite suspicionDeadline_spec in Hd by (done || lia). congruence.
Qed.

Lemma deadline_window now a :
  suspicion_ok now a → ss_start a + ss_minimum a ≤ ss_deadline a ≤ ss_start a + ss_maximum a.
Proof.
  intros Hok. rewrite (suspicion_deadline _ a Hok). destruct Hok.
  pose proof (duration_range (ss_minimum a) (ss_maximum a) (Z.of_nat (length (confirmationReporters a)))
    SUSPICION_CONFIRMATION_TARGET ltac:(lia) ltac:(lia) ltac:(done)). lia.
Qed.

Lemma confirm_inv s dead m i r b s' :
  sm_inv None s dead → sm_confirm s m i r = Ok (b, s') →
  sm_inv None s' (dead ++ filter (λ x, x ∉ sm_pending s') (sm_pending s)).
Proof.
  intros Hi H1. unfold sm_confirm in H1. apply result_bind_ok in H1 as ([] & _ & H1).
  destruct (sm_get s m) as [a|] eqn:Ha; [|injection H1 as <- <-; by apply inv_settle_same].
  destruct (_ || _) eqn:Hg; [injection H1 as <- <-; by apply inv_settle_same|].
  apply result_bind_ok in H1 as (d & Hd & H1).
  apply orb_false_iff in Hg as [[[_ Hr1]%orb_false_iff Hr2]%orb_false_iff Hlen].
  apply bool_decide_eq_false in Hr1, Hr2.
  destruct (si_ok _ _ _ Hi m a Ha) as (Hk & Hok & _); [done|].
  destruct (hole_cancel s dead m a Hi Ha) as (x & Hx & Hxr & Hxv & Hp).
  set (c := bump_revision _) in H1.
  assert (suspicion_ok (sm_now s) c) as Hc.
  { destruct Hok as [? ? ? Hnd ? _]. split; try done; cbn [confirmationReporters ss_reporter c bump_revision set_timer].
    - apply NoDup_cons in Hnd as [Hn Hnd]. apply NoDup_cons. rewrite elem_of_app, list_elem_of_singleton.
      split; [intuition congruence|]. apply NoDup_app. split; [done|]. split; [|apply NoDup_singleton].
      intros y Hy ->%list_elem_of_singleton. done.
    - rewrite length_app. cbn. lia. }
  set (s1 := MkManager _ _ _ _ _) in H1.
  assert (sm_inv (Some (ss_member c)) s1 (x :: dead)) as Hh.
  { cbn [c bump_revision set_timer ss_member]. rewrite Hk. apply (hole_change (cancelTimer s a)); [done| | |exact (Nat.le_refl _)].
    - apply jm_wf_set. unfold cancelTimer. destruct (ss_timer _); apply Hi.
    - intros k Hkm. by rewrite jm_get_set, decide_False by done. }
  assert (sm_now s1 = sm_now s ∧ sm_next s1 = sm_next s) as [En Ex]
    by (unfold s1, cancelTimer; by destruct (ss_timer _)).
  assert ((ss_id c < sm_next s1)%nat) as Hid
    by (rewrite Ex; pose proof (si_fresh _ _ _ Hi) as (_ & Hf & _); by apply (Hf m a)).
  assert (∀ y, y ∈ x :: dead → tm_member y = ss_member c → ss_id c = tm_record y →
    tm_revision y < ss_revision c) as Hdead.
  { cbn [c bump_revision set_timer ss_member ss_id ss_revision].
    intros y [->|Hy]%elem_of_cons Hym Hyr; [lia|].
    pose proof (si_dead _ _ _ Hi y a Hy ltac:(congruence) ltac:(done) Hyr). lia. }
  rewrite <-En in Hc. destruct (d <=? sm_now s1); injection H1 as <- <-.
  - assert (sm_get s1 (ss_member c) = Some c) as Hget.
    { unfold sm_get. cbn. by rewrite Hk, jm_get_set, decide_True by done. }
    destruct (expire_hole s1 (x :: dead) c Hh Hget Hc Hid Hdead) as [Hinv Hsub].
    change (ss_member c) with (ss_member a) in Hinv, Hsub. rewrite Hk in Hinv, Hsub.
    apply (inv_settle s _ dead [x]); [done|]. intros y Hy. destruct (Hp y Hy); [left|by right].
    by apply Hsub.
  - apply (inv_settle s _ dead [x]); [by apply schedule_inv|]. intros y Hy.
    destruct (Hp y Hy); [left|by right]. apply elem_of_app. by left.
Qed.

(** ** Reachable managers *)

Lemma tick_inv s dead d : 0 ≤ d → sm_inv None s dead → sm_inv None (sm_call s (SmTick d)) dead.
Proof.
  intros Hd [Hwf Hok Hp Hids Hf Hdead].
  assert (∀ x a, live (sm_now s) x a → live (sm_now s + d) x a) as Hlive
    by (intros x a (? & ? & ? & ? & ?); repeat split; try done; lia).
  split; try done; unfold sm_get; cbn [sm_call sm_active sm_now sm_pending].
  - intros m a Ha _. destruct (Hok m a Ha) as (Hk & Hs & x & Hx & Hl); [done|].
    split; [done|]. split; [|exists x; by auto]. destruct Hs. split; try done. lia.
  - intros x Hx. destruct (Hp x Hx) as (Hn & a & Ha & Hl). split; [done|]. eauto.
Qed.

Lemma step_inv s dead e s' dead' :
  sm_inv None s dead → sm_step (s, dead) e (s', dead') → sm_inv None s' dead'.
Proof.
  intros Hi Hstep. inversion Hstep; subst.
  - destruct e; try done; cbn [sm_call] in *; unfold keep.
    + destruct (sm_start s input) as [[b s1]|] eqn:E; [by eapply start_inv|by apply inv_settle_same].
    + destruct (sm_confirm s _ _ _) as [[b s1]|] eqn:E; [by eapply confirm_inv|by apply inv_settle_same].
    + destruct (sm_cancelThrough s _ _) as [[b s1]|] eqn:E; [by eapply cancelThrough_inv|by apply inv_settle_same].
    + by apply cancelAll_inv.
  - by apply tick_inv.
  - by apply fire_inv.
  - pose proof (late_noop s dead' x Hi ltac:(done)) as E. cbn [sm_call] in E. by rewrite E.
Qed.

Lemma reach_inv p : sm_reach p → sm_inv None p.1 p.2.
Proof.
  induction 1 as [now|[s dead] e [s' dead'] _ IH Hstep]; [|by eapply step_inv].
  split; cbn; try done.
  - apply jm_wf_nil.
  - by intros x ?%not_elem_of_nil.
  - constructor.
  - split; [by intros x ?%not_elem_of_nil|]. split; [done|]. by intros x ?%not_elem_of_nil.
Qed.

(** Running the pending timer of a suspicion re-arms it before its deadline and expires
    it from then on. *)
Lemma fire_effect s dead m a x :
  sm_inv None s dead → sm_get s m = Some a → x ∈ sm_pending s → tm_member x = m →
  let s' := sm_call s (SmFire x) in
  if sm_now s <? ss_deadline a
  then (∃ t, sm_get s' m = Some (set_timer a t)) ∧ sm_expired s' = sm_expired s
  else sm_get s' m = None ∧ sm_expired s' = sm_expired s ++ [MkExpiry m (ss_incarnation a)].
Proof.
  intros Hi Ha Hx Hm. destruct (si_pending _ _ _ Hi x Hx) as (_ & b & Hb & _ & Hxm & Hr & Hv & _).
  rewrite Hm in Hb. assert (b = a) as -> by congruence.
  destruct (si_ok _ _ _ Hi m a Ha) as (Hk & _); [done|].
  cbn [sm_call]. unfold sm_expire. rewrite Hm. unfold sm_get in *. cbn [sm_active sm_now].
  rewrite Ha, Hr, Hv, Nat.eqb_refl, Z.eqb_refl. cbn [negb orb].
  destruct (sm_now s <? ss_deadline a); cbn.
  - split; [|done]. eexists. by rewrite jm_get_set, decide_True by done.
  - rewrite jm_get_delete, decide_True, Hk by done. done.
Qed.

(** C34: A reachable suspicion lies within the window its start fixed, owns exactly one timer,
    due at its deadline, and that timer turns it into one expiry and never too early. *)
Theorem suspicion_timing s dead m a :
  sm_reach (s, dead) → sm_get s m = Some a →
  ss_start a + ss_minimum a ≤ ss_deadline a ≤ ss_start a + ss_maximum a
  ∧ (∃ x, x ∈ sm_pending s ∧ tm_member x = m ∧ (∀ y, y ∈ sm_pending s → tm_member y = m → y = x)
      ∧ ss_deadline a ≤ tm_due x ≤ Z.max (ss_deadline a) (sm_now s)
      ∧ let s' := sm_call s (SmFire x) in
        if sm_now s <? ss_deadline a
        then (∃ t, sm_get s' m = Some (set_timer a t)) ∧ sm_expired s' = sm_expired s
        else sm_get s' m = None ∧ sm_expired s' = sm_expired s ++ [MkExpiry m (ss_incarnation a)]).
Proof.
  intros Hi%reach_inv Ha. cbn [fst snd] in Hi.
  destruct (si_ok _ _ _ Hi m a Ha) as (Hk & Hok & x & Hx & Hl); [done|]. split.
  - by eapply deadline_window.
  - destruct Hl as (Ht & Hxm & Hr & Hv & Hdue). assert (tm_member x = m) as Hm by congruence. exists x.
    split; [done|]. split; [done|]. split; [|split; [done|by eapply fire_effect]].
    intros y Hy Hym. pose proof (pending_member s dead y x Hi Hy Hx ltac:(congruence)) as He.
    apply list_elem_of_lookup in Hx as [i Hi1], Hy as [j Hj]. assert (j = i) as ->; [|congruence].
    apply (NoDup_lookup (tm_id <$> sm_pending s) j i (tm_id x) (si_ids _ _ _ Hi)); rewrite list_lookup_fmap.
    + by rewrite Hj; cbn; f_equal.
    + by rewrite Hi1.
Qed.

(** What [confirm] does to a suspicion: a distinct reporter of the same incarnation,
    while the target is not reached, is recorded and the deadline recomputed. *)
Lemma confirm_effect s dead m a i r :
  sm_inv None s dead → sm_get s m = Some a → 0 ≤ i ≤ MAX_INCARNATION →
  let accepted := (ss_incarnation a =? i) && negb (bool_decide (r = ss_reporter a))
    && negb (bool_decide (r ∈ confirmationReporters a))
    && (Z.of_nat (length (confirmationReporters a)) <? SUSPICION_CONFIRMATION_TARGET) in
  let d := ss_start a + duration (ss_minimum a) (ss_maximum a)
    (Z.of_nat (length (confirmationReporters a)) + 1) SUSPICION_CONFIRMATION_TARGET in
  ∃ s', sm_confirm s m i r = Ok (accepted, s')
    ∧ if accepted then
        if d <=? sm_now s
        then sm_get s' m = None ∧ sm_expired s' = sm_expired s ++ [MkExpiry m (ss_incarnation a)]
        else sm_expired s' = sm_expired s ∧ ∃ b, sm_get s' m = Some b ∧ ss_deadline b = d
          ∧ confirmationReporters b = confirmationReporters a ++ [r]
          ∧ (ss_incarnation b, ss_start b, ss_minimum b, ss_maximum b)
            = (ss_incarnation a, ss_start a, ss_minimum a, ss_maximum a)
      else s' = s.
Proof.
  intros Hi Ha Hinc. cbv zeta. destruct (si_ok _ _ _ Hi m a Ha) as (Hk & Hok & _); [done|].
  assert (requireIncarnation i = Ok tt) as Hreq.
  { unfold requireIncarnation, requireNonNegativeSafeInteger, MAX_INCARNATION in *.
    replace (is_safe_integer i) with true
      by (symmetry; unfold is_safe_integer, MAX_SAFE_INTEGER; lia).
    destruct (Z.ltb_spec i 0); [lia|]. cbn. destruct (Z.ltb_spec 4294967295 i); [lia|done]. }
  unfold sm_confirm. rewrite Hreq, Ha. cbn [result_bind].
  destruct (ss_incarnation a =? i); cbn [negb orb andb]; [|by exists s].
  destruct (bool_decide (r = ss_reporter a)); cbn [negb orb andb]; [by exists s|].
  destruct (bool_decide (r ∈ confirmationReporters a)); cbn [negb orb andb]; [by exists s|].
  rewrite Z.leb_antisym.
  destruct (Z.ltb_spec (Z.of_nat (length (confirmationReporters a))) SUSPICION_CONFIRMATION_TARGET) as [Hlt|];
    cbn [negb]; [|by exists s].
  destruct Hok as [Hb (Hs1 & Hs2 & Hs3) _ _ _ _].
  rewrite suspicionDeadline_spec by (done || (rewrite length_app; cbn; lia)). cbn [result_bind].
  rewrite length_app, Nat2Z.inj_add. cbn [length]. change (Z.of_nat 1) with 1.
  set (c := MkSuspicion _ _ _ _ _ _ _ _ _ _ _).
  assert (sm_active (cancelTimer s c) = sm_active s ∧ sm_now (cancelTimer s c) = sm_now s
    ∧ sm_expired (cancelTimer s c) = sm_expired s) as (Ea & En & Ee)
    by (unfold cancelTimer; by destruct (ss_timer c)).
  rewrite Ea, En, Ee. cbn [sm_now]. destruct (_ <=? sm_now s) eqn:Hle; (eexists; split; [done|]).
  - unfold sm_expire, sm_get. cbn [sm_active sm_now sm_expired].
    rewrite jm_get_set, decide_True, Nat.eqb_refl, Z.eqb_refl by done. cbn [negb orb].
    assert ((sm_now s <? ss_deadline (bump_revision (set_timer c None))) = false) as -> by (cbn; lia).
    cbn [sm_active sm_expired]. rewrite jm_get_delete, decide_True by done. split; [done|]. cbn. by rewrite Hk.
  - split; [done|]. unfold sm_get, sm_schedule. cbn. rewrite Hk, jm_get_set, decide_True by done. eauto 10.
Qed.

Lemma start_expired s input b s' : sm_start s input = Ok (b, s') → sm_expired s' = sm_expired s.
Proof.
  intros E. unfold sm_start in E. do 3 apply result_bind_ok in E as ([] & _ & E).
  destruct (sm_get s _) as [c|]; [destruct (_ <=? _); [by injection E as <- <-|]|];
    apply result_bind_ok in E as ([] & _ & E); do 2 apply result_bind_ok in E as (? & _ & E);
    injection E as <- <-; [|done]. unfold cancelTimer. by destruct (ss_timer c).
Qed.

Lemma cancelThrough_expired s m i b s' : sm_cancelThrough s m i = Ok (b, s') → sm_expired s' = sm_expired s.
Proof.
  intros E. unfold sm_cancelThrough in E. apply result_bind_ok in E as ([] & _ & E).
  destruct (sm_get s m) as [a|]; [destruct (_ <? _)|]; injection E as <- <-; try done.
  unfold cancelTimer. by destruct (ss_timer a).
Qed.

Lemma confirm_expired s dead m i r b s' :
  sm_inv None s dead → sm_confirm s m i r = Ok (b, s') →
  sm_expired s' = sm_expired s
  ∨ ∃ k a, sm_get s k = Some a ∧ sm_expired s' = sm_expired s ++ [MkExpiry k (ss_incarnation a)]
      ∧ ss_start a + ss_minimum a ≤ sm_now s ∧ sm_get s' k = None.
Proof.
  intros Hi E. destruct (sm_get s m) as [a|] eqn:Ha.
  - assert (0 ≤ i ≤ MAX_INCARNATION) as Hinc.
    { pose proof E as E'. unfold sm_confirm, requireIncarnation, requireNonNegativeSafeInteger in E'. inv_ok. lia. }
    destruct (confirm_effect s dead m a i r Hi Ha Hinc) as (s1 & E1 & Heff). rewrite E in E1.
    injection E1 as -> ->. destruct (_ && _); [|by left; subst].
    destruct (Z.leb_spec (ss_start a + duration (ss_minimum a) (ss_maximum a)
      (Z.of_nat (length (confirmationReporters a)) + 1) SUSPICION_CONFIRMATION_TARGET) (sm_now s)) as [Hle|];
      [right|left; by apply Heff].
    exists m, a. destruct Heff as [Hn He]. split; [done|]. split; [done|]. split; [|done].
    destruct (si_ok _ _ _ Hi m a Ha) as (_ & Hok & _); [done|]. destruct Hok.
    pose proof (duration_range (ss_minimum a) (ss_maximum a) (Z.of_nat (length (confirmationReporters a)) + 1)
      SUSPICION_CONFIRMATION_TARGET ltac:(lia) ltac:(lia) ltac:(done)). lia.
  - unfold sm_confirm in E. apply result_bind_ok in E as ([] & _ & E). rewrite Ha in E.
    injection E as <- <-. by left.
Qed.

(** Every step reports at most one expiry: of a suspicion that was active, at the
    incarnation it held, not before its minimum window, and then removed.  A late
    callback of a cancelled timer changes nothing. *)
Theorem expiry_sound s dead e s' dead' :
  sm_reach (s, dead) → sm_step (s, dead) e (s', dead') →
  (sm_expired s' = sm_expired s
   ∨ ∃ m a, sm_get s m = Some a ∧ sm_expired s' = sm_expired s ++ [MkExpiry m (ss_incarnation a)]
       ∧ ss_start a + ss_minimum a ≤ sm_now s ∧ sm_get s' m = None)
  ∧ match e with SmLate _ => s' = s | _ => True end.
Proof.
  intros Hi%reach_inv Hstep. cbn [fst snd] in Hi. inversion Hstep; subst; [|by auto| |].
  - split; [|by destruct e]. destruct e; try done; cbn [sm_call]; unfold keep.
    + destruct (sm_start s input) as [[b s1]|] eqn:E; [|by left]. left. by eapply start_expired.
    + destruct (sm_confirm s member incarnation reporter) as [[b s1]|] eqn:E; [|by left].
      by eapply confirm_expired.
    + destruct (sm_cancelThrough s member incarnation) as [[b s1]|] eqn:E; [|by left]. left.
      by eapply cancelThrough_expired.
    + left. unfold sm_cancelAll. by rewrite cancel_fold.
  - split; [|done]. destruct (si_pending _ _ _ Hi x ltac:(done)) as (_ & a & Ha & _).
    pose proof (fire_effect s dead' _ a x Hi Ha ltac:(done) eq_refl) as Hf. cbv zeta in Hf.
    destruct (Z.ltb_spec (sm_now s) (ss_deadline a)); [by left; apply Hf|]. right.
    exists (tm_member x), a. destruct Hf as [Hf1 Hf2]. split; [done|]. split; [done|]. split; [|done].
    destruct (si_ok _ _ _ Hi _ a Ha) as (_ & Hok & _); [done|].
    pose proof (deadline_window _ a Hok). lia.
  - split; [|by apply (late_noop s dead')]. left. pose proof (late_noop s dead' x Hi ltac:(done)) as E.
    cbn [sm_call] in E. by rewrite E.
Qed.

(** A confirmation is accepted exactly from a new reporter of the suspected incarnation
    below the target; it moves the deadline earlier, never before the minimum window,
    and expires the suspicion at once when the new deadline has passed. *)
Theorem confirm_shortens s dead m a i r :
  sm_reach (s, dead) → sm_get s m = Some a → 0 ≤ i ≤ MAX_INCARNATION →
  let accepted := (ss_incarnation a =? i) && negb (bool_decide (r = ss_reporter a))
    && negb (bool_decide (r ∈ confirmationReporters a))
    && (Z.of_nat (length (confirmationReporters a)) <? SUSPICION_CONFIRMATION_TARGET) in
  ∃ s', sm_confirm s m i r = Ok (accepted, s')
    ∧ (accepted = false → s' = s)
    ∧ (accepted = true → ∃ d, ss_start a + ss_minimum a ≤ d ≤ ss_deadline a
        ∧ (Z.of_nat (length (confirmationReporters a)) + 1 = SUSPICION_CONFIRMATION_TARGET →
           d = ss_start a + ss_minimum a)
        ∧ if d <=? sm_now s
          then sm_get s' m = None ∧ sm_expired s' = sm_expired s ++ [MkExpiry m (ss_incarnation a)]
          else sm_expired s' = sm_expired s ∧ ss_deadline <$> sm_get s' m = Some d).
Proof.
  intros Hi%reach_inv Ha Hinc. cbn [fst snd] in Hi. cbv zeta.
  destruct (si_ok _ _ _ Hi m a Ha) as (_ & Hok & _); [done|].
  destruct (confirm_effect s dead m a i r Hi Ha Hinc) as (s' & E & Heff). exists s'. split; [done|].
  split; [intros Hacc; by rewrite Hacc in Heff|]. intros Hacc. rewrite Hacc in Heff.
  set (n := Z.of_nat (length (confirmationReporters a))) in *.
  exists (ss_start a + duration (ss_minimum a) (ss_maximum a) (n + 1) SUSPICION_CONFIRMATION_TARGET).
  pose proof (suspicion_deadline _ a Hok) as Hd. destruct Hok as [Hb _ _ _ _ _].
  pose proof (duration_range (ss_minimum a) (ss_maximum a) (n + 1) SUSPICION_CONFIRMATION_TARGET
    ltac:(lia) ltac:(lia) ltac:(done)).
  pose proof (duration_antitone (ss_minimum a) (ss_maximum a) n (n + 1) SUSPICION_CONFIRMATION_TARGET
    ltac:(lia) ltac:(lia) ltac:(done)). fold n in Hd. split; [lia|]. split.
  - intros ->. done.
  - destruct (_ <=? sm_now s); [done|]. destruct Heff as (He & b & Hb' & Hbd & _). split; [done|].
    by rewrite Hb', <-Hbd.
Qed.
End confirmations.

(** ** Witnesses *)

Section examples.

(** Exact logarithms: counting the powers below a number. *)
#[local] Instance exact_log : MathLog := {|
  ceil_log10 n := Z.of_nat (length (filter (λ d : nat, 10 ^ Z.of_nat d < n) (seq 0 17)));
  floor_decay range c target :=
    Z.of_nat (length (filter (λ d : nat, (target + 1) ^ (Z.of_nat d + 1) ≤ (c + 1) ^ range)
                        (seq 0 (Z.to_nat range)))) |}.

#[local] Instance exact_log_laws : MathLogLaws.
Proof.
  split; cbn [ceil_log10 floor_decay exact_log].
  - intros n Hn. cbn [seq]. rewrite filter_cons, decide_True by (cbn; lia). cbn [length]. lia.
  - intros range c t Hr Hc. pose proof (length_filter (λ d : nat, (t + 1) ^ (Z.of_nat d + 1) ≤ (c + 1) ^ range)
      (seq 0 (Z.to_nat range))) as Hl. rewrite length_seq in Hl. lia.
  - intros range c1 c2 t Hr Hc1 Hc2 Ht. apply Nat2Z.inj_le. apply sublist_length.
    induction (seq 0 (Z.to_nat range)) as [|d l IH]; [done|]. rewrite !filter_cons.
    assert ((c1 + 1) ^ range ≤ (c2 + 1) ^ range) by (apply Z.pow_le_mono_l; lia).
    destruct (decide ((t + 1) ^ (Z.of_nat d + 1) ≤ (c1 + 1) ^ range)) as [H1|H1].
    + rewrite decide_True by lia. by constructor.
    + destruct (decide _); [by constructor|done].
Qed.

(** [b] suspected at time 100, with two members and a period of 1. *)
Definition ex_manager : SuspicionManager :=
  sm_call (new_SuspicionManager 100) (SmStart (MkStart (js "b") 1 (js "a") 2 1)).

Lemma ex_manager_reach : sm_reach (ex_manager, []).
Proof.
  pose proof (reach_step _ _ _ (reach_new 100) (step_call (new_SuspicionManager 100) []
    (SmStart (MkStart (js "b") 1 (js "a") 2 1)) I)) as Hr. exact Hr.
Qed.

(** The same suspicion after its deadline has passed. *)
Definition ex_overdue : SuspicionManager := sm_call ex_manager (SmTick 50).

Lemma ex_overdue_reach : sm_reach (ex_overdue, []).
Proof. eapply reach_step; [apply ex_manager_reach|]. by apply (step_tick ex_manager [] 50). Qed.

Lemma suspicion_timing_witness :
  ∃ a x, sm_get ex_overdue (js "b") = Some a ∧ ss_deadline a = 124
    ∧ sm_get (sm_call ex_overdue (SmFire x)) (js "b") = None
    ∧ sm_expired (sm_call ex_overdue (SmFire x)) = [MkExpiry (js "b") 1].
Proof.
  destruct (sm_get ex_overdue (js "b")) as [a|] eqn:Ea; [|by vm_compute in Ea].
  destruct (suspicion_timing ex_overdue [] (js "b") a ex_overdue_reach Ea) as (_ & x & _ & _ & _ & _ & Hf).
  assert ((λ a, (ss_deadline a, ss_incarnation a)) <$> Some a = Some (124, 1)) as Hd
    by (rewrite <-Ea; by vm_compute). injection Hd as Hd Hinc.
  cbv zeta in Hf. rewrite Hd in Hf. change (sm_now ex_overdue <? 124) with false in Hf. cbv iota in Hf.
  exists a, x. destruct Hf as [Hf1 Hf2]. split; [done|]. split; [done|]. split; [done|].
  rewrite Hf2, Hinc. by vm_compute.
Defined.

Lemma expiry_sound_witness :
  ∃ x, x ∈ sm_pending ex_overdue
    ∧ (sm_expired (sm_call ex_overdue (SmFire x)) = sm_expired ex_overdue
       ∨ ∃ m a, sm_get ex_overdue m = Some a
           ∧ sm_expired (sm_call ex_overdue (SmFire x)) = sm_expired ex_overdue ++ [MkExpiry m (ss_incarnation a)]
           ∧ ss_start a + ss_minimum a ≤ sm_now ex_overdue
           ∧ sm_get (sm_call ex_overdue (SmFire x)) m = None).
Proof.
  destruct (sm_pending ex_overdue) as [|x xs] eqn:Ex; [by vm_compute in Ex|].
  exists x. split; [by left|].
  refine (proj1 (expiry_sound ex_overdue [] (SmFire x) _ [] ex_overdue_reach _)).
  apply step_fire. rewrite Ex. by left.
Defined.

Lemma confirm_shortens_witness :
  ∃ s', sm_confirm ex_manager (js "b") 1 (js "c") = Ok (true, s')
    ∧ ss_deadline <$> sm_get s' (js "b") = Some 114.
Proof.
  destruct (sm_get ex_manager (js "b")) as [a|] eqn:Ea; [|by vm_compute in Ea].
  destruct (confirm_shortens ex_manager [] (js "b") a 1 (js "c") ex_manager_reach Ea) as (s' & E & _); [done|].
  exists s'. split.
  - rewrite E. do 2 f_equal. vm_compute in Ea. apply (inj Some) in Ea. subst a. by vm_compute.
  - assert (match sm_confirm ex_manager (js "b") 1 (js "c") with
      | Ok (_, s1) => ss_deadline <$> sm_get s1 (js "b") | Throw _ => None end = Some 114) as Hd by (by vm_compute).
    by rewrite E in Hd.
Defined.

End examples.
