(* ===== verification/MembershipWire.v ===== *)
(** * The membership wire format ([src/membership/wire.ts])

    Membership records, packets and synchronization chunks as big-endian bytes, the
    splitting of a table into canonical chunks, and the splitter of the stream framing.
    Encoders write into a preallocated buffer at explicit offsets; decoders read fields
    at offsets below a limit. *)
From S2P Require Import Prelude JsNumber JsString ByteIO Membership.

(** ** Constants *)

Definition PROTOCOL_VERSION : Z := 1.
Definition MESSAGE_PING : Z := 0x01.
Definition MESSAGE_PING_REQ : Z := 0x02.
Definition MESSAGE_ACK : Z := 0x03.
Definition MESSAGE_NACK : Z := 0x04.
Definition MESSAGE_GOSSIP : Z := 0x05.
Definition MESSAGE_SYNC_REQUEST : Z := 0x10.
Definition MESSAGE_SYNC_RESPONSE : Z := 0x11.
Definition MESSAGE_HEADER_BYTES : nat := 4.
Definition UPDATE_HEADER_BYTES : nat := 20.
Definition SYNC_HEADER_BYTES : nat := 14.
Definition MAX_PACKET_BYTES : Z := 1_400.
Definition MAX_SYNC_MESSAGE_BYTES : Z := 65_539.
Definition MAX_SYNC_EXCHANGE_BYTES : Z := 1_048_576.
Definition MAX_NAME_BYTES : nat := 255.
Definition UPDATE_LIST_MAX_RECORDS : nat := 255.
Definition MAX_UPDATE_METADATA_BYTES : nat := 512.

(** ** Messages *)

Inductive PacketMessage :=
  | PingMessage (sequence : Z) (owner relay : jsstring) (updates : list MembershipUpdate)
  | PingReqMessage (sequence : Z) (owner target : jsstring) (updates : list MembershipUpdate)
  | AckMessage (sequence : Z) (owner target : jsstring) (updates : list MembershipUpdate)
  | NackMessage (sequence : Z) (owner target helper : jsstring) (updates : list MembershipUpdate)
  | GossipMessage (updates : list MembershipUpdate).

Inductive SyncMessageType := SyncRequest | SyncResponse.

Record SyncMessage := MkSync {
  sy_type : SyncMessageType;
  exchangeId : Z;
  chunkIndex : Z;
  chunkCount : Z;
  sy_updates : list MembershipUpdate }.

Inductive MembershipMessage := PacketMsg (m : PacketMessage) | SyncMsg (m : SyncMessage).

Record DecodedSyncExchange := MkExchange {
  ex_type : SyncMessageType;
  ex_exchangeId : Z;
  ex_updates : list MembershipUpdate }.

#[export] Instance SyncMessageType_eq_dec : EqDecision SyncMessageType.
Proof. solve_decision. Defined.

Definition packet_type (m : PacketMessage) : Z :=
  match m with
  | PingMessage _ _ _ _ => MESSAGE_PING
  | PingReqMessage _ _ _ _ => MESSAGE_PING_REQ
  | AckMessage _ _ _ _ => MESSAGE_ACK
  | NackMessage _ _ _ _ _ => MESSAGE_NACK
  | GossipMessage _ => MESSAGE_GOSSIP
  end.

Definition packet_updates (m : PacketMessage) : list MembershipUpdate :=
  match m with
  | PingMessage _ _ _ us | PingReqMessage _ _ _ us | AckMessage _ _ _ us | NackMessage _ _ _ _ us
  | GossipMessage us => us
  end.

Definition sync_code (t : SyncMessageType) : Z :=
  match t with SyncRequest => MESSAGE_SYNC_REQUEST | SyncResponse => MESSAGE_SYNC_RESPONSE end.

(** [fail(message)]. *)
Definition fail_if (bad : bool) (message : string) : result unit :=
  if bad then Throw (ProtocolError message) else Ok tt.

(** ** Validation and encoding of one record *)

Definition addDistinctMember (names : list jsstring) (member : jsstring) : result (list jsstring) :=
  let! _ := fail_if (bool_decide (member ∈ names)) "duplicate sync member" in
  Ok (names ++ [member]).

Definition assertUint (value maximum : Z) (field : string) : result unit :=
  fail_if ((value <? 0) || (maximum <? value)) (field +:+ " is out of range").

Definition assertU64 (value : Z) (field : string) (nonzero : bool) : result unit :=
  fail_if ((value <? 0) || (0xffffffffffffffff <? value) || (nonzero && (value =? 0)))
    (field +:+ " is out of range").

Definition encodeName (name : jsstring) (field : string) (allowEmpty : bool) : result (list Z) :=
  let! _ := fail_if (bool_decide (0 ∈ name)) (field +:+ " contains NUL") in
  let bytes := text_encode name in
  let! _ := fail_if ((negb allowEmpty && Nat.eqb (length bytes) 0) || Nat.ltb MAX_NAME_BYTES (length bytes))
              (field +:+ " length is out of range") in
  let! _ := fail_if (negb (is_well_formed name)) (field +:+ " is not valid Unicode") in
  Ok bytes.

Definition decodeName (bytes : list Z) (offset len : nat) (field : string) (allowEmpty : bool)
    : result jsstring :=
  let! _ := fail_if ((negb allowEmpty && Nat.eqb len 0) || Nat.ltb MAX_NAME_BYTES len)
              (field +:+ " length is out of range") in
  match text_decode (take len (drop offset bytes)) with
  | None => Throw (ProtocolError (field +:+ " is invalid UTF-8"))
  | Some value =>
      let! _ := fail_if (bool_decide (0 ∈ value)) (field +:+ " contains NUL") in
      Ok value
  end.

Record PreparedUpdate := MkPrepared {
  pu_update : MembershipUpdate;
  pu_member : list Z;
  pu_reporter : list Z;
  pu_length : nat }.

Definition selfRequired (s : MemberState) : bool := bool_decide (s = Alive) || bool_decide (s = Left).

(** The state of an update is one of the four, so the check of it is not repeated. *)
Definition prepareUpdate (u : MembershipUpdate) : result PreparedUpdate :=
  let! _ := assertUint (incarnation u) 0xffffffff "incarnation" in
  let! _ := assertU64 (stateChangeTime u) "state-change time" false in
  let! member := encodeName (u_member u) "member" false in
  let! reporter := encodeName (u_reporter u) "reporter" true in
  let! _ := fail_if (Nat.ltb MAX_UPDATE_METADATA_BYTES (length (metadata u)))
              "metadata length is out of range" in
  let! _ := fail_if (if decide (u_state u = Suspect) then Nat.eqb (length reporter) 0
                     else negb (Nat.eqb (length reporter) 0)) "reporter is inconsistent with state" in
  let! _ := fail_if (if decide (u_state u = Alive) then false
                     else negb (Nat.eqb (length (metadata u)) 0))
              "metadata is only legal on alive updates" in
  let! _ := fail_if (negb (Bool.eqb (selfOriginated u) (selfRequired (u_state u))))
              "self-originated flag is inconsistent with state" in
  Ok (MkPrepared u member reporter
        (UPDATE_HEADER_BYTES + length member + length reporter + length (metadata u))).

(** [view.setUint8], [setUint16], [setUint32] and [setBigUint64] at an offset. *)
Definition put_uint (width offset : nat) (v : Z) (bytes : list Z) : list Z :=
  bytes_set bytes (be_encode width v) offset.

Definition writePreparedUpdate (bytes : list Z) (offset : nat) (p : PreparedUpdate) : list Z * nat :=
  let u := pu_update p in
  let bytes := put_uint 2 offset (Z.of_nat (pu_length p) - 2) bytes in
  let bytes := put_uint 1 (offset + 2) (state_code (u_state u)) bytes in
  let bytes := put_uint 1 (offset + 3) (if selfOriginated u then 1 else 0) bytes in
  let bytes := put_uint 4 (offset + 4) (incarnation u) bytes in
  let bytes := put_uint 8 (offset + 8) (stateChangeTime u) bytes in
  let bytes := put_uint 1 (offset + 16) (Z.of_nat (length (pu_member p))) bytes in
  let bytes := put_uint 1 (offset + 17) (Z.of_nat (length (pu_reporter p))) bytes in
  let bytes := put_uint 2 (offset + 18) (Z.of_nat (length (metadata u))) bytes in
  let position := (offset + UPDATE_HEADER_BYTES)%nat in
  let bytes := bytes_set bytes (pu_member p) position in
  let position := (position + length (pu_member p))%nat in
  let bytes := bytes_set bytes (pu_reporter p) position in
  let position := (position + length (pu_reporter p))%nat in
  let bytes := bytes_set bytes (metadata u) position in
  (bytes, (offset + pu_length p)%nat).

Definition membershipUpdateSize (u : MembershipUpdate) : result nat :=
  let! p := prepareUpdate u in Ok (pu_length p).

Definition encodeMembershipUpdate (u : MembershipUpdate) : result (list Z) :=
  let! p := prepareUpdate u in
  Ok (writePreparedUpdate (replicate (pu_length p) 0) 0 p).1.

(** ** Decoding of one record *)

(** [state as MemberState], for a checked byte. *)
Definition state_of_code (c : Z) : MemberState :=
  if c =? 0 then Alive else if c =? 1 then Suspect else if c =? 2 then Dead else Left.

(** The update and the offset behind it. *)
Definition decodeMembershipUpdateAt (bytes : list Z) (offset limit : nat)
    : result (MembershipUpdate * nat) :=
  let! _ := fail_if (Nat.ltb (limit - offset) UPDATE_HEADER_BYTES) "membership update is truncated" in
  let totalLength := (Z.to_nat (field_at 2 offset bytes) + 2)%nat in
  let! _ := fail_if (Nat.ltb totalLength UPDATE_HEADER_BYTES || Nat.ltb (limit - offset) totalLength)
              "membership record length is inconsistent" in
  let end_ := (offset + totalLength)%nat in
  let state := field_at 1 (offset + 2) bytes in
  let flags := field_at 1 (offset + 3) bytes in
  let memberLength := Z.to_nat (field_at 1 (offset + 16) bytes) in
  let reporterLength := Z.to_nat (field_at 1 (offset + 17) bytes) in
  let metadataLength := Z.to_nat (field_at 2 (offset + 18) bytes) in
  let! _ := fail_if (3 <? state) "unknown membership state" in
  let! _ := fail_if (negb (Z.land flags 0xfe =? 0)) "reserved membership flags are set" in
  let! _ := fail_if (Nat.eqb memberLength 0) "member name is empty" in
  let! _ := fail_if (Nat.ltb MAX_UPDATE_METADATA_BYTES metadataLength) "metadata length is out of range" in
  let expected := (UPDATE_HEADER_BYTES + memberLength + reporterLength + metadataLength)%nat in
  let! _ := fail_if (negb (Nat.eqb totalLength expected)) "membership record fields do not match its length" in
  let selfOriginated := flags =? 1 in
  let st := state_of_code state in
  let! _ := fail_if (negb (Bool.eqb selfOriginated (selfRequired st)))
              "self-originated flag is inconsistent with state" in
  let! _ := fail_if (if decide (st = Suspect) then Nat.eqb reporterLength 0 else negb (Nat.eqb reporterLength 0))
              "reporter is inconsistent with state" in
  let! _ := fail_if (negb (bool_decide (st = Alive)) && negb (Nat.eqb metadataLength 0))
              "metadata is only legal on alive updates" in
  let memberOffset := (offset + UPDATE_HEADER_BYTES)%nat in
  let reporterOffset := (memberOffset + memberLength)%nat in
  let metadataOffset := (reporterOffset + reporterLength)%nat in
  let! member := decodeName bytes memberOffset memberLength "member" false in
  let! reporter := decodeName bytes reporterOffset reporterLength "reporter" true in
  let metadata := if Nat.eqb metadataLength 0 then [] else take metadataLength (drop metadataOffset bytes) in
  Ok (MkUpdate st selfOriginated (field_at 4 (offset + 4) bytes) (field_at 8 (offset + 8) bytes)
        member reporter metadata, end_).

Definition decodeMembershipUpdate (bytes : list Z) : result MembershipUpdate :=
  let! (u, end_) := decodeMembershipUpdateAt bytes 0 (length bytes) in
  let! _ := fail_if (negb (Nat.eqb end_ (length bytes))) "trailing bytes after membership update" in
  Ok u.

(** ** Encoding of messages *)

Definition preparePacketNames (m : PacketMessage) : result (list (list Z) * nat) :=
  let! names :=
    match m with
    | PingMessage _ owner relay _ =>
        let! o := encodeName owner "probe owner" false in
        let! r := encodeName relay "relay" true in Ok [o; r]
    | PingReqMessage _ owner target _ | AckMessage _ owner target _ =>
        let! o := encodeName owner "probe owner" false in
        let! t := encodeName target "target" false in Ok [o; t]
    | NackMessage _ owner target helper _ =>
        let! o := encodeName owner "probe owner" false in
        let! t := encodeName target "target" false in
        let! h := encodeName helper "helper" false in Ok [o; t; h]
    | GossipMessage _ => Ok []
    end in
  Ok (names, foldl (λ base name, base + (1 + length name))%nat
               (match m with GossipMessage _ => 1 | _ => 5 end)%nat names).

Definition packetOverheadLength (m : PacketMessage) : result nat :=
  let! (names, baseLength) := preparePacketNames m in
  Ok (MESSAGE_HEADER_BYTES + baseLength)%nat.

(** The loop over the updates: the prepared records and the body length so far. *)
Fixpoint prepareUpdates (us : list MembershipUpdate) (bodyLength : nat)
    : result (list PreparedUpdate * nat) :=
  match us with
  | [] => Ok ([], bodyLength)
  | u :: us' =>
      let! p := prepareUpdate u in
      let! (ps, n) := prepareUpdates us' (bodyLength + pu_length p) in
      Ok (p :: ps, n)
  end.

Definition preparePacketBody (m : PacketMessage) : result (list (list Z) * list PreparedUpdate * nat) :=
  let! (names, baseLength) := preparePacketNames m in
  let! _ := fail_if (Nat.ltb UPDATE_LIST_MAX_RECORDS (length (packet_updates m)))
              "packet update count exceeds 255" in
  let! (updates, bodyLength) := prepareUpdates (packet_updates m) baseLength in
  Ok (names, updates, bodyLength).

Fixpoint write_names (bytes : list Z) (offset : nat) (names : list (list Z)) : list Z * nat :=
  match names with
  | [] => (bytes, offset)
  | name :: names' =>
      let bytes := put_uint 1 offset (Z.of_nat (length name)) bytes in
      let bytes := bytes_set bytes name (offset + 1) in
      write_names bytes (offset + (1 + length name)) names'
  end.

Fixpoint write_updates (bytes : list Z) (offset : nat) (ps : list PreparedUpdate) : list Z :=
  match ps with
  | [] => bytes
  | p :: ps' => let '(bytes, offset) := writePreparedUpdate bytes offset p in write_updates bytes offset ps'
  end.

(** The sequence of a probe-family packet. *)
Definition packet_sequence (m : PacketMessage) : option Z :=
  match m with
  | PingMessage s _ _ _ | PingReqMessage s _ _ _ | AckMessage s _ _ _ | NackMessage s _ _ _ _ => Some s
  | GossipMessage _ => None
  end.

Definition writePacketBody (m : PacketMessage) (names : list (list Z)) (updates : list PreparedUpdate)
    (bytes : list Z) : result (list Z) :=
  let offset := MESSAGE_HEADER_BYTES in
  let! (bytes, offset) :=
    match packet_sequence m with
    | Some sequence =>
        let! _ := assertUint sequence 0xffffffff "probe sequence" in
        Ok (put_uint 4 offset sequence bytes, (offset + 4)%nat)
    | None => Ok (bytes, offset)
    end in
  let '(bytes, offset) := write_names bytes offset names in
  let bytes := put_uint 1 offset (Z.of_nat (length updates)) bytes in
  Ok (write_updates bytes (offset + 1) updates).

Fixpoint prepareSyncUpdates (names : list jsstring) (us : list MembershipUpdate) (bodyLength : nat)
    : result (list PreparedUpdate * nat) :=
  match us with
  | [] => Ok ([], bodyLength)
  | u :: us' =>
      let! names := addDistinctMember names (u_member u) in
      let! p := prepareUpdate u in
      let! (ps, n) := prepareSyncUpdates names us' (bodyLength + pu_length p) in
      Ok (p :: ps, n)
  end.

Definition prepareSyncBody (m : SyncMessage) : result (list PreparedUpdate * nat) :=
  let! _ := assertU64 (exchangeId m) "exchange ID" true in
  let! _ := assertUint (chunkIndex m) 0xffff "chunk index" in
  let! _ := assertUint (chunkCount m) 0xffff "chunk count" in
  let! _ := fail_if ((chunkCount m =? 0) || (chunkCount m <=? chunkIndex m)) "sync chunk position is invalid" in
  let! _ := fail_if (MAX_MEMBERS <? Z.of_nat (length (sy_updates m))) "sync member count exceeds 1024" in
  prepareSyncUpdates [] (sy_updates m) SYNC_HEADER_BYTES.

Definition allocateMessage (type : Z) (bodyLength : nat) (packet : bool) : result (list Z) :=
  let! _ := fail_if (0xffff <? Z.of_nat bodyLength) "message body exceeds the envelope limit" in
  let totalLength := (MESSAGE_HEADER_BYTES + bodyLength)%nat in
  let! _ := fail_if (packet && (MAX_PACKET_BYTES <? Z.of_nat totalLength)) "packet message exceeds 1400 bytes" in
  let bytes := replicate totalLength 0 in
  let bytes := put_uint 1 0 PROTOCOL_VERSION bytes in
  let bytes := put_uint 1 1 type bytes in
  Ok (put_uint 2 2 (Z.of_nat bodyLength) bytes).

Definition encodeMessage (m : MembershipMessage) : result (list Z) :=
  match m with
  | SyncMsg m =>
      let! (updates, bodyLength) := prepareSyncBody m in
      let! bytes := allocateMessage (sync_code (sy_type m)) bodyLength false in
      let bytes := put_uint 8 4 (exchangeId m) bytes in
      let bytes := put_uint 2 12 (chunkIndex m) bytes in
      let bytes := put_uint 2 14 (chunkCount m) bytes in
      let bytes := put_uint 2 16 (Z.of_nat (length updates)) bytes in
      Ok (write_updates bytes (SYNC_HEADER_BYTES + MESSAGE_HEADER_BYTES) updates)
  | PacketMsg m =>
      let! (names, updates, bodyLength) := preparePacketBody m in
      let! bytes := allocateMessage (packet_type m) bodyLength true in
      writePacketBody m names updates bytes
  end.

(** ** Decoding of messages *)

(** The name and the offset behind it. *)
Definition readName (bytes : list Z) (offset limit : nat) (field : string) (empty : bool)
    : result (jsstring * nat) :=
  let! _ := fail_if (Nat.leb limit offset) (field +:+ " length is truncated") in
  let len := Z.to_nat (field_at 1 offset bytes) in
  let end_ := (offset + 1 + len)%nat in
  let! _ := fail_if (Nat.ltb limit end_) (field +:+ " is truncated") in
  let! value := decodeName bytes (offset + 1) len field empty in
  Ok (value, end_).

Fixpoint decodeUpdateList (bytes : list Z) (offset limit count : nat) : result (list MembershipUpdate) :=
  match count with
  | O =>
      let! _ := fail_if (negb (Nat.eqb offset limit)) "trailing bytes after update list" in
      Ok []
  | S count' =>
      let! (u, offset) := decodeMembershipUpdateAt bytes offset limit in
      let! us := decodeUpdateList bytes offset limit count' in
      Ok (u :: us)
  end.

(** Sequence, owner and the offset behind them. *)
Definition decodeProbeHeader (bytes : list Z) (bodyOffset limit : nat) : result (Z * jsstring * nat) :=
  let! _ := fail_if (Nat.ltb (limit - bodyOffset) 4) "probe sequence is truncated" in
  let sequence := field_at 4 bodyOffset bytes in
  let! (owner, end_) := readName bytes (bodyOffset + 4) limit "probe owner" false in
  Ok (sequence, owner, end_).

Definition decodeCountedPacketUpdates (bytes : list Z) (offset limit : nat)
    : result (list MembershipUpdate) :=
  let! _ := fail_if (Nat.leb limit offset) "packet update count is truncated" in
  decodeUpdateList bytes (offset + 1) limit (Z.to_nat (field_at 1 offset bytes)).

Definition decodeGossipMessage (bytes : list Z) (bodyOffset limit : nat) : result PacketMessage :=
  let! us := decodeCountedPacketUpdates bytes bodyOffset limit in
  Ok (GossipMessage us).

Definition decodePingMessage (bytes : list Z) (bodyOffset limit : nat) : result PacketMessage :=
  let! (sequence, owner, end_) := decodeProbeHeader bytes bodyOffset limit in
  let! (relay, end_) := readName bytes end_ limit "relay" true in
  let! us := decodeCountedPacketUpdates bytes end_ limit in
  Ok (PingMessage sequence owner relay us).

Definition decodeTargetMessage (type : Z) (bytes : list Z) (bodyOffset limit : nat) : result PacketMessage :=
  let! (sequence, owner, end_) := decodeProbeHeader bytes bodyOffset limit in
  let! (target, end_) := readName bytes end_ limit "target" false in
  let! us := decodeCountedPacketUpdates bytes end_ limit in
  Ok (if type =? MESSAGE_PING_REQ then PingReqMessage sequence owner target us
      else AckMessage sequence owner target us).

Definition decodeNackMessage (bytes : list Z) (bodyOffset limit : nat) : result PacketMessage :=
  let! (sequence, owner, end_) := decodeProbeHeader bytes bodyOffset limit in
  let! (target, end_) := readName bytes end_ limit "target" false in
  let! (helper, end_) := readName bytes end_ limit "helper" false in
  let! us := decodeCountedPacketUpdates bytes end_ limit in
  Ok (NackMessage sequence owner target helper us).

Definition decodePacketBody (type : Z) (bytes : list Z) (bodyOffset limit : nat) : result PacketMessage :=
  if type =? MESSAGE_PING then decodePingMessage bytes bodyOffset limit
  else if (type =? MESSAGE_PING_REQ) || (type =? MESSAGE_ACK)
  then decodeTargetMessage type bytes bodyOffset limit
  else if type =? MESSAGE_NACK then decodeNackMessage bytes bodyOffset limit
  else decodeGossipMessage bytes bodyOffset limit.

(** The type; the body lies between [MESSAGE_HEADER_BYTES] and the length. *)
Definition decodeEnvelope (bytes : list Z) : result Z :=
  let! _ := fail_if (Nat.ltb (length bytes) MESSAGE_HEADER_BYTES) "message envelope is truncated" in
  let! _ := fail_if (negb (field_at 1 0 bytes =? PROTOCOL_VERSION)) "unsupported protocol version" in
  let type := field_at 1 1 bytes in
  let bodyLength := Z.to_nat (field_at 2 2 bytes) in
  let! _ := fail_if (negb (Nat.eqb (bodyLength + MESSAGE_HEADER_BYTES) (length bytes)))
              "message body length is inconsistent" in
  Ok type.

Inductive ConnectionRole := RolePacket | RoleStream.

Definition assertEnvelopeForRole (bytes : list Z) (role : ConnectionRole) : result unit :=
  let! type := decodeEnvelope bytes in
  let legalForPacket := (type =? MESSAGE_PING) || (type =? MESSAGE_PING_REQ) || (type =? MESSAGE_ACK)
    || (type =? MESSAGE_NACK) || (type =? MESSAGE_GOSSIP) in
  let legalForStream := (type =? MESSAGE_SYNC_REQUEST) || (type =? MESSAGE_SYNC_RESPONSE) in
  fail_if (match role with RolePacket => negb legalForPacket | RoleStream => negb legalForStream end)
    "message type is illegal for connection role".

Fixpoint check_distinct (names : list jsstring) (us : list MembershipUpdate) : result unit :=
  match us with
  | [] => Ok tt
  | u :: us' => let! names := addDistinctMember names (u_member u) in check_distinct names us'
  end.

Definition decodeSyncBody (type : SyncMessageType) (bytes : list Z) (offset : nat) : result SyncMessage :=
  let! _ := fail_if (Nat.ltb (length bytes - offset) SYNC_HEADER_BYTES) "sync header is truncated" in
  let exchangeId := field_at 8 offset bytes in
  let chunkIndex := field_at 2 (offset + 8) bytes in
  let chunkCount := field_at 2 (offset + 10) bytes in
  let memberCount := field_at 2 (offset + 12) bytes in
  let! _ := fail_if (exchangeId =? 0) "exchange ID is zero" in
  let! _ := fail_if ((chunkCount =? 0) || (chunkCount <=? chunkIndex)) "sync chunk position is invalid" in
  let! _ := fail_if (MAX_MEMBERS <? memberCount) "sync member count exceeds 1024" in
  let! us := decodeUpdateList bytes (offset + SYNC_HEADER_BYTES) (length bytes) (Z.to_nat memberCount) in
  let! _ := check_distinct [] us in
  Ok (MkSync type exchangeId chunkIndex chunkCount us).

Definition decodeMessage (bytes : list Z) : result MembershipMessage :=
  let! type := decodeEnvelope bytes in
  if (MESSAGE_PING <=? type) && (type <=? MESSAGE_GOSSIP) then
    let! _ := fail_if (MAX_PACKET_BYTES <? Z.of_nat (length bytes)) "packet message exceeds 1400 bytes" in
    let! m := decodePacketBody type bytes MESSAGE_HEADER_BYTES (length bytes) in
    Ok (PacketMsg m)
  else if (type =? MESSAGE_SYNC_REQUEST) || (type =? MESSAGE_SYNC_RESPONSE) then
    let! m := decodeSyncBody (if type =? MESSAGE_SYNC_REQUEST then SyncRequest else SyncResponse)
                bytes MESSAGE_HEADER_BYTES in
    Ok (SyncMsg m)
  else Throw (ProtocolError "unknown message type").

Definition decodePacketMessage (bytes : list Z) : result PacketMessage :=
  let! m := decodeMessage bytes in
  match m with
  | PacketMsg m => Ok m
  | SyncMsg _ => Throw (ProtocolError "sync message is illegal on a packet connection")
  end.

Definition decodeSyncMessage (bytes : list Z) : result SyncMessage :=
  let! m := decodeMessage bytes in
  match m with
  | SyncMsg m => Ok m
  | PacketMsg _ => Throw (ProtocolError "packet message is illegal on a stream connection")
  end.

(** ** Splitting and joining a table *)

(** The first loop of [encodeSyncChunks]: distinct members, and the sizes. *)
Fixpoint sync_sizes (names : list jsstring) (us : list MembershipUpdate) : result (list nat) :=
  match us with
  | [] => Ok []
  | u :: us' =>
      let! names := addDistinctMember names (u_member u) in
      let! size := membershipUpdateSize u in
      let! sizes := sync_sizes names us' in
      Ok (size :: sizes)
  end.

(** The second loop: the chunks from here on, given the current one and its size. *)
Fixpoint split_chunks (current : list MembershipUpdate) (currentSize : nat)
    (us : list (MembershipUpdate * nat)) : list (list MembershipUpdate) :=
  match us with
  | [] => [current]
  | (u, size) :: us' =>
      if negb (Nat.eqb (length current) 0) && (MAX_SYNC_MESSAGE_BYTES <? Z.of_nat (currentSize + size))
      then current :: split_chunks [u] (MESSAGE_HEADER_BYTES + SYNC_HEADER_BYTES + size) us'
      else split_chunks (current ++ [u]) (currentSize + size) us'
  end.

(** [chunks.map(encodeMessage)]. *)
Fixpoint encode_chunks (type : SyncMessageType) (exchangeId chunkIndex chunkCount : Z)
    (chunks : list (list MembershipUpdate)) : result (list (list Z)) :=
  match chunks with
  | [] => Ok []
  | chunk :: chunks' =>
      let! bytes := encodeMessage (SyncMsg (MkSync type exchangeId chunkIndex chunkCount chunk)) in
      let! rest := encode_chunks type exchangeId (chunkIndex + 1) chunkCount chunks' in
      Ok (bytes :: rest)
  end.

Definition encodeSyncChunks (type : SyncMessageType) (exchangeId : Z) (updates : list MembershipUpdate)
    : result (list (list Z)) :=
  let! _ := assertU64 exchangeId "exchange ID" true in
  let! _ := fail_if (MAX_MEMBERS <? Z.of_nat (length updates)) "sync table exceeds 1024 members" in
  let! sizes := sync_sizes [] updates in
  let chunks := split_chunks [] (MESSAGE_HEADER_BYTES + SYNC_HEADER_BYTES) (zip updates sizes) in
  encode_chunks type exchangeId 0 (Z.of_nat (length chunks)) chunks.

Fixpoint exchange_budget (framedBytes : Z) (chunks : list (list Z)) : result unit :=
  match chunks with
  | [] => Ok tt
  | bytes :: chunks' =>
      let framedBytes := framedBytes + (4 + Z.of_nat (length bytes)) in
      let! _ := fail_if (MAX_SYNC_EXCHANGE_BYTES <? framedBytes) "sync exchange exceeds 1048576 framed bytes" in
      exchange_budget framedBytes chunks'
  end.

Definition assertSyncExchangeBudget (chunks : list (list Z)) : result unit := exchange_budget 0 chunks.

Fixpoint append_updates (us : list MembershipUpdate) (names : list jsstring)
    (updates : list MembershipUpdate) : result (list jsstring * list MembershipUpdate) :=
  match us with
  | [] => Ok (names, updates)
  | u :: us' =>
      let! names := addDistinctMember names (u_member u) in
      let updates := updates ++ [u] in
      let! _ := fail_if (MAX_MEMBERS <? Z.of_nat (length updates)) "sync table exceeds 1024 members" in
      append_updates us' names updates
  end.

Definition appendCanonicalChunkUpdates (chunk : SyncMessage) (names : list jsstring)
    (updates : list MembershipUpdate) : result (list jsstring * list MembershipUpdate) :=
  append_updates (sy_updates chunk) names updates.

Definition validateCanonicalChunk (chunk first : SyncMessage) (index totalChunks : nat) : result unit :=
  let! _ := fail_if (negb (bool_decide (sy_type chunk = sy_type first))
                     || negb (exchangeId chunk =? exchangeId first)
                     || negb (chunkCount chunk =? chunkCount first)
                     || negb (chunkIndex chunk =? Z.of_nat index)) "sync chunks are reordered or mismatched" in
  fail_if (Nat.eqb (length (sy_updates chunk)) 0 && negb (Nat.eqb totalChunks 1 && Nat.eqb index 0))
    "only an empty sync table may have an empty chunk".

Definition validateLargestPrefix (currentBytes : list Z) (next : option SyncMessage) : result unit :=
  match next ≫= (λ m, head (sy_updates m)) with
  | Some nextUpdate =>
      let! size := membershipUpdateSize nextUpdate in
      fail_if (Z.of_nat (length currentBytes + size) <=? MAX_SYNC_MESSAGE_BYTES)
        "sync chunk is not the largest prefix that fits"
  | None => Ok tt
  end.

(** The loop of [validateCanonicalSyncChunks] from [index] on. *)
Fixpoint validate_chunks (first : SyncMessage) (totalChunks index : nat)
    (chunks : list (list Z)) (decoded : list SyncMessage)
    (names : list jsstring) (updates : list MembershipUpdate) : result (list MembershipUpdate) :=
  match decoded with
  | [] => Ok updates
  | chunk :: decoded' =>
      let! _ := validateCanonicalChunk chunk first index totalChunks in
      let! (names, updates) := appendCanonicalChunkUpdates chunk names updates in
      let! _ := validateLargestPrefix (default [] (head chunks)) (head decoded') in
      validate_chunks first totalChunks (S index) (tail chunks) decoded' names updates
  end.

Definition combineSyncChunks (chunks : list (list Z)) (decoded : list SyncMessage)
    : result DecodedSyncExchange :=
  match decoded with
  | [] => Throw (ProtocolError "sync exchange has no chunks")
  | first :: _ =>
      let! _ := fail_if (negb (Nat.eqb (length chunks) (length decoded))) "sync exchange has no chunks" in
      let! _ := fail_if (negb (chunkCount first =? Z.of_nat (length decoded))) "sync chunk count is incomplete" in
      let! updates := validate_chunks first (length decoded) 0 chunks decoded [] [] in
      Ok (MkExchange (sy_type first) (exchangeId first) updates)
  end.

Fixpoint decode_chunks (chunks : list (list Z)) : result (list SyncMessage) :=
  match chunks with
  | [] => Ok []
  | bytes :: chunks' =>
      let! m := decodeSyncMessage bytes in
      let! ms := decode_chunks chunks' in
      Ok (m :: ms)
  end.

Definition decodeSyncChunks (chunks : list (list Z)) : result DecodedSyncExchange :=
  let! _ := fail_if (Nat.eqb (length chunks) 0) "sync exchange has no chunks" in
  let! _ := assertSyncExchangeBudget chunks in
  let! decoded := decode_chunks chunks in
  combineSyncChunks chunks decoded.

(** ** [SyncFrameAssembler] *)

(** [sa_prefix] holds the prefix bytes so far; [sa_frame] the length of the frame under
    construction and the bytes copied into it. *)
Record SyncFrameAssembler := MkAssembler {
  sa_prefix : list Z;
  sa_frame : option (nat * list Z) }.

Definition new_SyncFrameAssembler : SyncFrameAssembler := MkAssembler [] None.

Definition sa_complete (a : SyncFrameAssembler) : bool :=
  Nat.eqb (length (sa_prefix a)) 0 && bool_decide (sa_frame a = None).

Definition awaitingPrefix (a : SyncFrameAssembler) : bool := bool_decide (sa_frame a = None).

(** The tail of one turn of the loop: copy what fits, and deliver a full frame. *)
Definition fill_frame (prefix : list Z) (len : nat) (got bytes : list Z)
    : list (list Z) * SyncFrameAssembler * list Z :=
  let count := Nat.min (len - length got) (length bytes) in
  let got := got ++ take count bytes in
  let bytes := drop count bytes in
  if Nat.eqb (length got) len then ([got], MkAssembler [] None, bytes)
  else ([], MkAssembler prefix (Some (len, got)), bytes).

(** One turn of the loop of [push] on the bytes that remain; [None] is its early return. *)
Definition push_turn (a : SyncFrameAssembler) (bytes : list Z)
    : result (list (list Z) * SyncFrameAssembler * option (list Z)) :=
  match sa_frame a with
  | Some (len, got) =>
      let '(frames, a, bytes) := fill_frame (sa_prefix a) len got bytes in Ok (frames, a, Some bytes)
  | None =>
      let count := Nat.min (4 - length (sa_prefix a)) (length bytes) in
      let prefix := sa_prefix a ++ take count bytes in
      let bytes := drop count bytes in
      if Nat.ltb (length prefix) 4 then Ok ([], MkAssembler prefix None, None)
      else
        let len := be_decode prefix in
        let! _ := fail_if ((len <? 4) || (MAX_SYNC_MESSAGE_BYTES <? len)) "sync frame length is out of range" in
        let '(frames, a, bytes) := fill_frame prefix (Z.to_nat len) [] bytes in Ok (frames, a, Some bytes)
  end.

(** [push]: each turn consumes a byte, so the number of bytes is fuel enough. *)
Fixpoint push_loop (fuel : nat) (a : SyncFrameAssembler) (bytes : list Z)
    : result (list (list Z) * SyncFrameAssembler) :=
  match fuel, bytes with
  | S fuel', _ :: _ =>
      let! (frames, a, rest) := push_turn a bytes in
      match rest with
      | None => Ok (frames, a)
      | Some bytes =>
          let! (more, a) := push_loop fuel' a bytes in
          Ok (frames ++ more, a)
      end
  | _, _ => Ok ([], a)
  end.

Definition sa_push (a : SyncFrameAssembler) (bytes : list Z) : result (list (list Z) * SyncFrameAssembler) :=
  push_loop (length bytes) a bytes.
