(* ===== verification/MembershipCodec.v ===== *)
(** * Correctness of the membership wire format

    Every record, packet and synchronization chunk decodes to what was encoded; a table
    split into chunks is joined again, within the exchange budget; the stream splitter
    yields the same frames however the carrier cuts the bytes. *)
From S2P Require Import Prelude JsNumber JsString ByteIO Membership MembershipWire.

(** ** One record *)

(** The bytes of a prepared record. *)
Definition record_bytes (p : PreparedUpdate) : list Z :=
  be_encode 2 (Z.of_nat (pu_length p) - 2) ++ be_encode 1 (state_code (u_state (pu_update p)))
  ++ be_encode 1 (if selfOriginated (pu_update p) then 1 else 0)
  ++ be_encode 4 (incarnation (pu_update p)) ++ be_encode 8 (stateChangeTime (pu_update p))
  ++ be_encode 1 (Z.of_nat (length (pu_member p))) ++ be_encode 1 (Z.of_nat (length (pu_reporter p)))
  ++ be_encode 2 (Z.of_nat (length (metadata (pu_update p))))
  ++ pu_member p ++ pu_reporter p ++ metadata (pu_update p).

(** A record whose length is that of its parts. *)
Definition prepared_ok (p : PreparedUpdate) : Prop :=
  pu_length p = (20 + length (pu_member p) + length (pu_reporter p) + length (metadata (pu_update p)))%nat.

Lemma length_record_bytes p : prepared_ok p → length (record_bytes p) = pu_length p.
Proof.
  intros Hp. unfold record_bytes. rewrite !length_app, !length_be_encode. rewrite Hp. lia.
Qed.

(** One of a sequence of writes, when the lengths are known. *)
Ltac put_then := rewrite bytes_set_then by (rewrite ?length_app, ?length_be_encode; cbn; lia).

Lemma writePreparedUpdate_spec pre n p :
  prepared_ok p → (pu_length p ≤ n)%nat →
  writePreparedUpdate (pre ++ replicate n 0) (length pre) p
  = ((pre ++ record_bytes p) ++ replicate (n - pu_length p) 0, (length pre + pu_length p)%nat).
Proof.
  intros Hp Hn. unfold writePreparedUpdate, put_uint, UPDATE_HEADER_BYTES. cbv zeta.
  rewrite (bytes_set_next pre (be_encode 2 _) n _ _ eq_refl eq_refl)
    by (rewrite length_be_encode; rewrite Hp in Hn; lia).
  rewrite <-!Nat.add_assoc. unfold prepared_ok in Hp. do 10 put_then. f_equal. f_equal.
  - unfold record_bytes. by rewrite <-!app_assoc.
  - f_equal. rewrite !length_be_encode. lia.
Qed.

Lemma fail_if_ok b message u : fail_if b message = Ok u → b = false.
Proof. by destruct b. Qed.

(** Splits a chain of checks that passed. *)
Ltac checks :=
  repeat match goal with
    | H : result_bind _ _ = Ok _ |- _ =>
        let a := fresh "r" in let E := fresh "E" in apply result_bind_ok in H as (a & E & H)
    | H : fail_if _ _ = Ok ?u |- _ => apply fail_if_ok in H; try clear u
    end.

Lemma encodeName_ok name field empty bs :
  encodeName name field empty = Ok bs →
  bs = text_encode name ∧ (length bs ≤ 255)%nat ∧ (empty = false → (0 < length bs)%nat) ∧ 0 ∉ name.
Proof.
  unfold encodeName, MAX_NAME_BYTES. intros H. checks. injection H as <-.
  apply bool_decide_eq_false in E. apply orb_false_iff in E0 as [E0 E2]. split; [done|].
  split; [by apply Nat.ltb_ge in E2|]. split; [|done]. intros ->. cbn [negb andb] in E0.
  apply Nat.eqb_neq in E0. lia.
Qed.

(** What [prepareUpdate] has checked. *)
Record encodable (u : MembershipUpdate) (p : PreparedUpdate) : Prop := {
  en_update : pu_update p = u;
  en_member : pu_member p = text_encode (u_member u);
  en_reporter : pu_reporter p = text_encode (u_reporter u);
  en_lengths : (0 < length (pu_member p) ≤ 255 ∧ length (pu_reporter p) ≤ 255
    ∧ length (metadata u) ≤ 512)%nat;
  en_ok : prepared_ok p;
  en_inc : 0 ≤ incarnation u ≤ 0xffffffff;
  en_time : 0 ≤ stateChangeTime u ≤ 0xffffffffffffffff;
  en_nul : (0 ∉ u_member u) ∧ (0 ∉ u_reporter u);
  en_suspect : (if decide (u_state u = Suspect) then Nat.eqb (length (pu_reporter p)) 0
                else negb (Nat.eqb (length (pu_reporter p)) 0)) = false;
  en_alive : (negb (bool_decide (u_state u = Alive)) && negb (Nat.eqb (length (metadata u)) 0)) = false;
  en_self : selfOriginated u = selfRequired (u_state u) }.

Lemma prepareUpdate_ok u p : prepareUpdate u = Ok p → encodable u p.
Proof.
  unfold prepareUpdate. intros H. checks. injection H as <-.
  apply encodeName_ok in E1 as (-> & Hm & Hme & Hm0). apply encodeName_ok in E2 as (-> & Hr & _ & Hr0).
  unfold assertUint, assertU64 in *. checks. unfold MAX_UPDATE_METADATA_BYTES in E3.
  apply Nat.ltb_ge in E3. specialize (Hme eq_refl).
  split; cbn [pu_update pu_member pu_reporter pu_length]; try done.
  - lia.
  - cbn in E0. lia.
  - destruct (decide (u_state u = Alive)) as [->|Hne]; [done|]. by rewrite bool_decide_false by done.
  - apply negb_false_iff, eqb_prop in E6. done.
Qed.

Lemma decodeName_spec bytes offset s suf field empty :
  drop offset bytes = text_encode s ++ suf → text s → 0 ∉ s → (length (text_encode s) ≤ 255)%nat →
  (empty = false → (0 < length (text_encode s))%nat) →
  decodeName bytes offset (length (text_encode s)) field empty = Ok (arrived s).
Proof.
  intros Hd Hs H0 Hl He. unfold decodeName, MAX_NAME_BYTES.
  rewrite Hd, take_app_length, arrived_decode by done.
  rewrite (proj2 (Nat.ltb_ge _ _)) by done. rewrite bool_decide_false by (unfold arrived; destruct s, (starts_with_bom _); set_solver).
  destruct empty; [done|]. specialize (He eq_refl).
  by destruct (Nat.eqb_spec (length (text_encode s)) 0); [lia|].
Qed.

(** The fixed fields of a record. *)
Lemma record_fields u p suf :
  encodable u p →
  let bytes := record_bytes p ++ suf in
  Z.to_nat (field_at 2 0 bytes) = (pu_length p - 2)%nat ∧ field_at 1 2 bytes = state_code (u_state u)
  ∧ field_at 1 3 bytes = (if selfOriginated u then 1 else 0) ∧ field_at 4 4 bytes = incarnation u
  ∧ field_at 8 8 bytes = stateChangeTime u
  ∧ Z.to_nat (field_at 1 16 bytes) = length (pu_member p)
  ∧ Z.to_nat (field_at 1 17 bytes) = length (pu_reporter p)
  ∧ Z.to_nat (field_at 2 18 bytes) = length (metadata u)
  ∧ drop 20 bytes = pu_member p ++ pu_reporter p ++ metadata u ++ suf.
Proof.
  intros [<- _ _ Hl Hok Hi Ht _ _ _ _]. unfold prepared_ok in Hok. cbv zeta. unfold record_bytes.
  rewrite <-!app_assoc. pose proof (state_code_range (u_state (pu_update p))).
  repeat split.
  all: repeat (rewrite field_at_skip by (rewrite length_be_encode; lia); rewrite length_be_encode; cbn [Nat.sub]).
  all: try (rewrite field_at_here by lia; lia).
  by rewrite field_at_here by (destruct (selfOriginated _); lia).
Qed.

Lemma state_of_code_code st : state_of_code (state_code st) = st.
Proof. by destruct st. Qed.

(** A record as it arrives: its names without the byte order mark they start with. *)
Definition arrived_update (u : MembershipUpdate) : MembershipUpdate :=
  MkUpdate (u_state u) (selfOriginated u) (incarnation u) (stateChangeTime u) (arrived (u_member u)) (arrived (u_reporter u)) (metadata u).

(** A record is read back wherever it stands. *)
Lemma decode_record u p pre suf limit :
  encodable u p → text (u_member u) → text (u_reporter u) →
  (length pre + pu_length p ≤ limit)%nat →
  decodeMembershipUpdateAt (pre ++ record_bytes p ++ suf) (length pre) limit
  = Ok (arrived_update u, (length pre + pu_length p)%nat).
Proof.
  intros Hu Hpm Hpr Hlim.
  destruct (record_fields u p suf Hu) as (F1 & F2 & F3 & F4 & F5 & F6 & F7 & F8 & F9).
  destruct Hu as [Hpu Hm Hr Hl Hok _ _ [Hm0 Hr0] Hsus Hal Hself]. unfold prepared_ok in Hok.
  rewrite Hpu in Hok. unfold decodeMembershipUpdateAt.
  assert (∀ n k, field_at n (length pre + k) (pre ++ record_bytes p ++ suf)
    = field_at n k (record_bytes p ++ suf)) as Hf
    by (intros n k; rewrite field_at_skip by lia; f_equal; lia).
  pose proof (Hf 2%nat 0%nat) as Hf0. rewrite Nat.add_0_r in Hf0.
  rewrite !Hf, Hf0, F1, F2, F3, F4, F5, F6, F7, F8. unfold UPDATE_HEADER_BYTES, MAX_UPDATE_METADATA_BYTES.
  replace (pu_length p - 2 + 2)%nat with (pu_length p) by lia.
  rewrite (proj2 (Nat.ltb_ge (limit - length pre) 20)), (proj2 (Nat.ltb_ge (pu_length p) 20)),
    (proj2 (Nat.ltb_ge (limit - length pre) (pu_length p))) by lia.
  pose proof (state_code_range (u_state u)). rewrite (proj2 (Z.ltb_ge 3 _)) by lia.
  rewrite (proj2 (Nat.eqb_neq (length (pu_member p)) 0)), (proj2 (Nat.ltb_ge 512 (length (metadata u)))) by lia.
  rewrite <-Hok, Nat.eqb_refl, state_of_code_code.
  assert (((if selfOriginated u then 1 else 0) =? 1) = selfOriginated u
    ∧ (Z.land (if selfOriginated u then 1 else 0) 254 =? 0) = true) as [E1 E2] by (by destruct (selfOriginated u)).
  rewrite E1, E2, Hself, eqb_reflx, Hsus, Hal. cbn [fail_if result_bind negb orb].
  assert (∀ k, drop (length pre + 20 + k) (pre ++ record_bytes p ++ suf)
    = drop k (pu_member p ++ pu_reporter p ++ metadata u ++ suf)) as Hd.
  { intros k. rewrite <-F9, drop_drop, <-Nat.add_assoc. rewrite drop_app_ge by lia. f_equal. lia. }
  pose proof (Hd 0%nat) as Hd0. rewrite Nat.add_0_r, drop_0 in Hd0.
  pose proof (Hd (length (pu_member p))) as Hd1. rewrite drop_app_length in Hd1.
  rewrite Hm in *. rewrite (decodeName_spec _ _ (u_member u) _ _ _ Hd0) by (done || (intros; lia)).
  cbn [result_bind]. rewrite Hr in *.
  rewrite (decodeName_spec _ _ (u_reporter u) _ _ _ Hd1) by (done || lia). cbn [result_bind].
  rewrite <-(Nat.add_assoc (length pre + 20)), Hd, app_assoc, drop_app_length' by (by rewrite length_app).
  rewrite take_app_length. destruct (Nat.eqb_spec (length (metadata u)) 0) as [Hmd%nil_length_inv|].
  - rewrite <-Hself. destruct u. cbn in *. by subst.
  - rewrite <-Hself. by destruct u.
Qed.

Lemma decode_record' u p bytes offset suf limit :
  encodable u p → text (u_member u) → text (u_reporter u) →
  drop offset bytes = record_bytes p ++ suf → (offset ≤ length bytes)%nat →
  (offset + pu_length p ≤ limit)%nat →
  decodeMembershipUpdateAt bytes offset limit = Ok (arrived_update u, (offset + pu_length p)%nat).
Proof.
  intros Hu Hm Hr Hd Ho Hlim. rewrite <-(take_drop offset bytes), Hd.
  assert (offset = length (take offset bytes)) as He by (rewrite length_take; lia).
  revert He. generalize (take offset bytes) as pre. intros pre ->. by apply decode_record.
Qed.

(** ** Lists of records *)

Definition text_update (u : MembershipUpdate) : Prop := text (u_member u) ∧ text (u_reporter u).

Definition plain_update (u : MembershipUpdate) : Prop := plain (u_member u) ∧ plain (u_reporter u).

Lemma plain_updates_text us : Forall plain_update us → Forall text_update us.
Proof. intros H. eapply Forall_impl; [apply H|]. intros u [? ?]. split; by apply plain_text. Qed.

Lemma plain_updates_arrive us : Forall plain_update us → arrived_update <$> us = us.
Proof.
  induction 1 as [|u us [H1 H2] _ IH]; [done|]. rewrite fmap_cons, IH. unfold arrived_update. rewrite !arrived_plain by done. by destruct u.
Qed.

(** The bytes of prepared records one after the other. *)
Definition records_bytes (ps : list PreparedUpdate) : list Z := mbind record_bytes ps.

Definition total_length (ps : list PreparedUpdate) : nat := foldr (λ p n, pu_length p + n)%nat 0%nat ps.

Lemma length_records_bytes ps : Forall prepared_ok ps → length (records_bytes ps) = total_length ps.
Proof.
  unfold records_bytes. induction 1 as [|p ps Hp _ IH]; [done|]. cbn [mbind list_bind total_length foldr].
  rewrite length_app, IH, length_record_bytes by done. done.
Qed.

Lemma write_updates_spec pre n ps :
  Forall prepared_ok ps → (total_length ps ≤ n)%nat →
  write_updates (pre ++ replicate n 0) (length pre) ps
  = (pre ++ records_bytes ps) ++ replicate (n - total_length ps) 0.
Proof.
  intros Hps. revert pre n. induction Hps as [|p ps Hp Hps IH]; intros pre n Hn.
  - cbn. by rewrite app_nil_r, Nat.sub_0_r.
  - cbn [write_updates total_length foldr] in *. rewrite writePreparedUpdate_spec by (done || lia).
    replace (length pre + pu_length p)%nat with (length (pre ++ record_bytes p))
      by (by rewrite length_app, length_record_bytes).
    unfold total_length in *. rewrite IH by lia. unfold records_bytes. cbn [mbind list_bind].
    rewrite <-!app_assoc. do 3 f_equal. f_equal. lia.
Qed.

Lemma prepareUpdates_ok us base ps n :
  prepareUpdates us base = Ok (ps, n) → Forall2 encodable us ps ∧ n = (base + total_length ps)%nat.
Proof.
  revert base ps n. induction us as [|u us IH]; intros base ps n H; cbn [prepareUpdates] in H.
  - injection H as <- <-. split; [constructor|cbn; lia].
  - checks. destruct r0 as [ps' n']. injection H as <- <-. apply prepareUpdate_ok in E.
    apply IH in E0 as [H1 ->]. split; [by constructor|]. cbn. unfold total_length. lia.
Qed.

Lemma encodable_ok us ps : Forall2 encodable us ps → Forall prepared_ok ps.
Proof. induction 1 as [|u p us ps Hp _ IH]; constructor; [apply Hp|done]. Qed.

Lemma decode_list us ps bytes offset :
  Forall2 encodable us ps → Forall text_update us →
  drop offset bytes = records_bytes ps → (offset ≤ length bytes)%nat →
  decodeUpdateList bytes offset (length bytes) (length us) = Ok (arrived_update <$> us).
Proof.
  intros Hus. revert offset. induction Hus as [|u p us ps Hp Hus IH]; intros offset Hpl Hd Ho.
  - cbn. apply (f_equal length) in Hd. rewrite length_drop in Hd. cbn in Hd.
    by rewrite (proj2 (Nat.eqb_eq offset (length bytes))) by lia.
  - apply Forall_cons in Hpl as [[Hm Hr] Hpl]. cbn [length decodeUpdateList].
    pose proof Hd as Hlen. apply (f_equal length) in Hlen.
    rewrite length_drop, length_records_bytes in Hlen by (constructor; [apply Hp|by eapply encodable_ok]).
    cbn [total_length foldr] in Hlen. fold (total_length ps) in Hlen.
    change (records_bytes (p :: ps)) with (record_bytes p ++ records_bytes ps) in Hd.
    rewrite (decode_record' u p bytes offset (records_bytes ps)) by (done || lia).
    cbn [result_bind]. rewrite IH; [done|done| |lia].
    rewrite <-drop_drop, Hd. by rewrite drop_app_length' by (rewrite length_record_bytes; [done|apply Hp]).
Qed.

(** ** The envelope *)

Definition envelope (type : Z) (n : nat) : list Z :=
  be_encode 1 PROTOCOL_VERSION ++ be_encode 1 type ++ be_encode 2 (Z.of_nat n).

Lemma allocateMessage_ok type n packet bytes :
  allocateMessage type n packet = Ok bytes →
  bytes = envelope type n ++ replicate n 0 ∧ Z.of_nat n ≤ 0xffff
  ∧ (packet = true → Z.of_nat (4 + n) ≤ MAX_PACKET_BYTES).
Proof.
  unfold allocateMessage, MESSAGE_HEADER_BYTES. intros H. checks. injection H as <-.
  split; [reflexivity|]. split; [lia|]. intros ->. by apply Z.ltb_ge in E0.
Qed.

Lemma decodeEnvelope_spec type n body :
  0 ≤ type < 256 → length body = n → Z.of_nat n ≤ 0xffff →
  decodeEnvelope (envelope type n ++ body) = Ok type.
Proof.
  intros Ht Hn Hm. unfold decodeEnvelope, envelope, MESSAGE_HEADER_BYTES.
  rewrite !length_app, !length_be_encode, <-!app_assoc, Hn.
  rewrite (field_at_here 1 PROTOCOL_VERSION) by done.
  rewrite (field_at_skip 1 1), (field_at_skip 2 2) by (rewrite length_be_encode; lia).
  rewrite !length_be_encode. cbn [Nat.sub]. rewrite (field_at_skip 2 1) by (rewrite length_be_encode; lia).
  rewrite !length_be_encode. cbn [Nat.sub]. rewrite !field_at_here by lia. rewrite Nat2Z.id, Z.eqb_refl.
  rewrite (proj2 (Nat.ltb_ge _ _)), (proj2 (Nat.eqb_eq (n + 4) _)) by lia. done.
Qed.

(** ** Names of a packet *)

Definition name_bytes (e : list Z) : list Z := be_encode 1 (Z.of_nat (length e)) ++ e.

Lemma write_names_spec pre n names :
  (length (mbind name_bytes names) ≤ n)%nat →
  write_names (pre ++ replicate n 0) (length pre) names
  = ((pre ++ mbind name_bytes names) ++ replicate (n - length (mbind name_bytes names)) 0,
     (length (pre ++ mbind name_bytes names))).
Proof.
  revert pre n. induction names as [|e names IH]; intros pre n Hn; cbn [mbind list_bind write_names] in *.
  - by rewrite app_nil_r, Nat.sub_0_r.
  - unfold name_bytes in *. rewrite !length_app, length_be_encode in Hn. unfold put_uint.
    rewrite (bytes_set_next pre _ n _ _ eq_refl eq_refl) by (rewrite length_be_encode; lia). put_then.
    replace (length pre + (1 + length e))%nat
      with (length (pre ++ be_encode 1 (Z.of_nat (length e)) ++ e))
      by (rewrite !length_app, length_be_encode; lia).
    rewrite IH by (rewrite length_be_encode; lia). rewrite <-!app_assoc, !length_app, length_be_encode.
    f_equal. do 4 f_equal. f_equal. lia.
Qed.

Lemma readName_spec bytes offset s suf field empty :
  drop offset bytes = name_bytes (text_encode s) ++ suf → (offset ≤ length bytes)%nat →
  text s → 0 ∉ s → (length (text_encode s) ≤ 255)%nat →
  (empty = false → (0 < length (text_encode s))%nat) →
  readName bytes offset (length bytes) field empty
  = Ok (arrived s, (offset + length (name_bytes (text_encode s)))%nat).
Proof.
  intros Hd Ho Hs H0 Hl He. pose proof Hd as Hlen. apply (f_equal length) in Hlen.
  unfold name_bytes in *. rewrite length_drop, !length_app, length_be_encode in Hlen.
  unfold readName. rewrite (proj2 (Nat.leb_gt _ _)) by lia. cbn [fail_if result_bind].
  assert (Z.to_nat (field_at 1 offset bytes) = length (text_encode s)) as ->.
  { unfold field_at. rewrite Hd, <-app_assoc, take_app_length' by (by rewrite length_be_encode).
    rewrite be_decode_encode_id, Nat2Z.id by lia. done. }
  rewrite (proj2 (Nat.ltb_ge _ _)) by lia. cbn [fail_if result_bind].
  rewrite (decodeName_spec _ _ s suf); try done.
  - rewrite length_app, length_be_encode. cbn. do 2 f_equal. lia.
  - rewrite <-drop_drop, Hd, <-app_assoc. by rewrite drop_app_length' by (by rewrite length_be_encode).
Qed.

(** ** Packets *)

Lemma drop_step {A} (l : list A) o a b :
  drop o l = a ++ b → (o ≤ length l)%nat → drop (o + length a) l = b ∧ (o + length a ≤ length l)%nat.
Proof.
  intros H Ho. split; [by rewrite <-drop_drop, H, drop_app_length|].
  apply (f_equal length) in H. rewrite length_drop, length_app in H. lia.
Qed.

Definition sequence_bytes (m : PacketMessage) : list Z :=
  match packet_sequence m with Some s => be_encode 4 s | None => [] end.

Definition packet_body (m : PacketMessage) (names : list (list Z)) (ps : list PreparedUpdate) : list Z :=
  sequence_bytes m ++ mbind name_bytes names ++ be_encode 1 (Z.of_nat (length ps)) ++ records_bytes ps.

Lemma base_length names base :
  foldl (λ base name, base + (1 + length name))%nat base names = (base + length (mbind name_bytes names))%nat.
Proof.
  revert base. induction names as [|e names IH]; intros base; cbn [foldl mbind list_bind]; [cbn; lia|].
  rewrite IH. unfold name_bytes. rewrite !length_app, length_be_encode. lia.
Qed.

Lemma preparePacketBody_ok m names ps n :
  preparePacketBody m = Ok (names, ps, n) →
  Forall2 encodable (packet_updates m) ps ∧ (length ps ≤ 255)%nat
  ∧ n = length (packet_body m names ps).
Proof.
  unfold preparePacketBody, preparePacketNames. intros H.
  apply result_bind_ok in H as ([ns base] & E & H). apply result_bind_ok in E as (ns' & _ & E).
  injection E as -> <-. apply result_bind_ok in H as (u & E0%fail_if_ok & H).
  apply result_bind_ok in H as ([us k] & E1 & H). injection H as -> -> ->.
  apply prepareUpdates_ok in E1 as [Hus ->]. split; [done|].
  rewrite <-(Forall2_length _ _ _ Hus). unfold UPDATE_LIST_MAX_RECORDS in E0. apply Nat.ltb_ge in E0.
  split; [done|]. rewrite base_length. unfold packet_body.
  rewrite !length_app, length_be_encode, length_records_bytes by (by eapply encodable_ok).
  unfold sequence_bytes, packet_sequence. destruct m; rewrite ?length_be_encode; cbn [length]; lia.
Qed.

Lemma writePacketBody_ok m names ps head bs :
  Forall prepared_ok ps → length head = 4%nat →
  writePacketBody m names ps (head ++ replicate (length (packet_body m names ps)) 0) = Ok bs →
  bs = head ++ packet_body m names ps
  ∧ match packet_sequence m with Some s => 0 ≤ s ≤ 0xffffffff | None => True end.
Proof.
  intros Hps Hh H. unfold writePacketBody, MESSAGE_HEADER_BYTES in H.
  set (n := length (packet_body m names ps)) in H.
  assert (n = (length (sequence_bytes m) + (length (mbind name_bytes names) + (1 + total_length ps))))%nat as Hn
    by (unfold n, packet_body; rewrite !length_app, length_be_encode, length_records_bytes by done; done).
  clearbody n. apply result_bind_ok in H as ([b o] & Hb & H).
  assert (b = (head ++ sequence_bytes m) ++ replicate (n - length (sequence_bytes m)) 0
    ∧ o = length (head ++ sequence_bytes m)
    ∧ match packet_sequence m with Some s => 0 ≤ s ≤ 0xffffffff | None => True end) as (-> & -> & Hs).
  { unfold sequence_bytes in *. destruct (packet_sequence m) as [s|].
    - unfold assertUint, put_uint in Hb. checks. apply (inj Ok), pair_equal_spec in Hb as [<- <-].
      rewrite (bytes_set_next head (be_encode 4 s) n _ _ eq_refl (eq_sym Hh)) by lia.
      rewrite length_app, length_be_encode, Hh. split; [done|]. split; [done|lia].
    - injection Hb as <- <-. cbn. by rewrite app_nil_r, Nat.sub_0_r. }
  split; [|done]. rewrite write_names_spec in H by lia. apply (inj Ok) in H. rewrite <-H. unfold put_uint.
  rewrite (bytes_set_next ((head ++ sequence_bytes m) ++ mbind name_bytes names) (be_encode 1 _)
    (n - length (sequence_bytes m) - length (mbind name_bytes names)) _ _ eq_refl eq_refl)
    by (rewrite length_be_encode; lia).
  set (pre := ((head ++ _) ++ _) ++ be_encode 1 _).
  replace (length ((head ++ sequence_bytes m) ++ mbind name_bytes names) + 1)%nat with (length pre)
    by (unfold pre; by rewrite (length_app (_ ++ _)), length_be_encode).
  rewrite write_updates_spec by (done || (rewrite length_be_encode; lia)).
  rewrite length_be_encode. match goal with |- context [replicate ?k 0] => replace k with 0%nat by lia end.
  unfold pre, packet_body. cbn [replicate]. by rewrite app_nil_r, <-!app_assoc.
Qed.

Lemma decode_counted us ps bytes offset :
  Forall2 encodable us ps → Forall text_update us → (length ps ≤ 255)%nat →
  drop offset bytes = be_encode 1 (Z.of_nat (length ps)) ++ records_bytes ps → (offset ≤ length bytes)%nat →
  decodeCountedPacketUpdates bytes offset (length bytes) = Ok (arrived_update <$> us).
Proof.
  intros Hus Hpl Hl Hd Ho. pose proof (f_equal length Hd) as Hlen.
  rewrite length_drop, length_app, length_be_encode in Hlen.
  unfold decodeCountedPacketUpdates. rewrite (proj2 (Nat.leb_gt _ _)) by lia. cbn [fail_if result_bind].
  assert (Z.to_nat (field_at 1 offset bytes) = length us) as ->.
  { unfold field_at. rewrite Hd, take_app_length' by (by rewrite length_be_encode).
    rewrite be_decode_encode_id, Nat2Z.id by lia. by rewrite (Forall2_length _ _ _ Hus). }
  eapply decode_list; [done|done| |lia].
  destruct (drop_step bytes offset _ _ Hd Ho) as [Hd' _]. by rewrite length_be_encode in Hd'.
Qed.

Lemma decode_probe bytes offset s owner suf :
  0 ≤ s ≤ 0xffffffff → drop offset bytes = be_encode 4 s ++ name_bytes (text_encode owner) ++ suf →
  (offset ≤ length bytes)%nat → text owner → 0 ∉ owner → (0 < length (text_encode owner) ≤ 255)%nat →
  decodeProbeHeader bytes offset (length bytes)
  = Ok (s, arrived owner, (offset + 4 + length (name_bytes (text_encode owner)))%nat).
Proof.
  intros Hs Hd Ho Hp H0 Hl. pose proof (f_equal length Hd) as Hlen.
  rewrite length_drop, length_app, length_be_encode in Hlen.
  unfold decodeProbeHeader. rewrite (proj2 (Nat.ltb_ge _ _)) by lia. cbn [fail_if result_bind].
  assert (field_at 4 offset bytes = s) as ->.
  { unfold field_at. rewrite Hd, take_app_length' by (by rewrite length_be_encode).
    by rewrite be_decode_encode_id by lia. }
  destruct (drop_step bytes offset _ _ Hd Ho) as [Hd' _]. rewrite length_be_encode in Hd'.
  rewrite (readName_spec _ _ owner suf) by (done || lia). done.
Qed.

(** A property of every name of a packet, and the packet as it arrives. *)
Definition packet_names (P : jsstring → Prop) (m : PacketMessage) : Prop :=
  Forall (λ u, P (u_member u) ∧ P (u_reporter u)) (packet_updates m)
  ∧ match m with
    | PingMessage _ a b _ | PingReqMessage _ a b _ | AckMessage _ a b _ => P a ∧ P b
    | NackMessage _ a b c _ => P a ∧ P b ∧ P c
    | GossipMessage _ => True
    end.

Definition arrived_packet (m : PacketMessage) : PacketMessage :=
  match m with
  | PingMessage s a b us => PingMessage s (arrived a) (arrived b) (arrived_update <$> us)
  | PingReqMessage s a b us => PingReqMessage s (arrived a) (arrived b) (arrived_update <$> us)
  | AckMessage s a b us => AckMessage s (arrived a) (arrived b) (arrived_update <$> us)
  | NackMessage s a b c us => NackMessage s (arrived a) (arrived b) (arrived c) (arrived_update <$> us)
  | GossipMessage us => GossipMessage (arrived_update <$> us)
  end.

Lemma plain_packet_arrives m : packet_names plain m → arrived_packet m = m.
Proof.
  intros [Hus Hm]. apply (plain_updates_arrive _) in Hus. destruct m; cbn [arrived_packet packet_updates] in *; rewrite Hus, ?arrived_plain by tauto; done.
Qed.

Lemma decodePacketBody_spec m names ps bytes :
  preparePacketBody m = Ok (names, ps, length (packet_body m names ps)) → packet_names text m →
  match packet_sequence m with Some s => 0 ≤ s ≤ 0xffffffff | None => True end →
  drop MESSAGE_HEADER_BYTES bytes = packet_body m names ps → (MESSAGE_HEADER_BYTES ≤ length bytes)%nat →
  decodePacketBody (packet_type m) bytes MESSAGE_HEADER_BYTES (length bytes) = Ok (arrived_packet m).
Proof.
  intros Hprep [Hpl Hnames] Hseq Hd Hb.
  destruct (preparePacketBody_ok m names ps _ Hprep) as (Hus & Hcount & _).
  unfold preparePacketBody in Hprep. apply result_bind_ok in Hprep as ([ns base] & E & Hprep).
  apply result_bind_ok in Hprep as (u & _ & Hprep). apply result_bind_ok in Hprep as ([us k] & _ & Hprep).
  injection Hprep as -> -> _. unfold preparePacketNames in E. apply result_bind_ok in E as (ns' & E & E').
  injection E' as -> _. unfold packet_body, sequence_bytes in Hd.
  destruct m as [s o r us'|s o t us'|s o t us'|s o t h us'|us'];
    cbn [packet_sequence packet_updates packet_type] in *.
  5: { injection E as <-. cbn [mbind list_bind app] in Hd. unfold decodePacketBody, decodeGossipMessage. cbn.
       by rewrite (decode_counted us' ps). }
  all: apply result_bind_ok in E as (eo & (-> & Ho & Ho' & Ho0)%encodeName_ok & E);
    apply result_bind_ok in E as (et & (-> & Ht & Ht' & Ht0)%encodeName_ok & E).
  4: apply result_bind_ok in E as (eh & (-> & Hh & Hh' & Hh0)%encodeName_ok & E).
  all: injection E as <-; cbn [mbind list_bind] in Hd; rewrite ?app_nil_r, <-!app_assoc in Hd.
  all: destruct (drop_step _ _ _ _ Hd Hb) as [Hd1 Hb1]; rewrite length_be_encode in Hd1, Hb1;
    destruct (drop_step _ _ _ _ Hd1 Hb1) as [Hd2 Hb2]; destruct (drop_step _ _ _ _ Hd2 Hb2) as [Hd3 Hb3].
  all: unfold decodePacketBody, decodePingMessage, decodeTargetMessage, decodeNackMessage,
    MESSAGE_PING, MESSAGE_PING_REQ, MESSAGE_ACK, MESSAGE_NACK; cbn [Z.eqb Pos.eqb orb].
  all: rewrite (decode_probe bytes MESSAGE_HEADER_BYTES _ o _ ltac:(done) Hd Hb) by (done || tauto || auto);
    cbn [result_bind].
  - rewrite (readName_spec bytes _ r _ _ _ Hd2) by (done || tauto || auto). cbn [result_bind].
    by rewrite (decode_counted us' ps).
  - rewrite (readName_spec bytes _ t _ _ _ Hd2) by (done || tauto || auto). cbn [result_bind].
    by rewrite (decode_counted us' ps).
  - rewrite (readName_spec bytes _ t _ _ _ Hd2) by (done || tauto || auto). cbn [result_bind].
    by rewrite (decode_counted us' ps).
  - destruct (drop_step _ _ _ _ Hd3 Hb3) as [Hd4 Hb4].
    rewrite (readName_spec bytes _ t _ _ _ Hd2) by (done || tauto || auto). cbn [result_bind].
    rewrite (readName_spec bytes _ h _ _ _ Hd3) by (done || tauto || auto). cbn [result_bind].
    by rewrite (decode_counted us' ps).
Qed.

(** ** Synchronization chunks *)

Lemma prepareSyncUpdates_ok names us base ps n :
  prepareSyncUpdates names us base = Ok (ps, n) →
  Forall2 encodable us ps ∧ n = (base + total_length ps)%nat ∧ check_distinct names us = Ok tt.
Proof.
  revert names base ps n. induction us as [|u us IH]; intros names base ps n H; cbn [prepareSyncUpdates] in H.
  - injection H as <- <-. split; [constructor|]. split; [cbn; lia|done].
  - apply result_bind_ok in H as (names' & E1 & H). apply result_bind_ok in H as (p & E2%prepareUpdate_ok & H).
    apply result_bind_ok in H as ([ps' n'] & E3 & H). injection H as <- <-.
    destruct (IH _ _ _ _ E3) as (H1 & -> & H2). split; [by constructor|].
    split; [cbn; unfold total_length; lia|]. cbn [check_distinct]. by rewrite E1.
Qed.

Definition sync_bytes (m : SyncMessage) (ps : list PreparedUpdate) : list Z :=
  envelope (sync_code (sy_type m)) (14 + total_length ps) ++ be_encode 8 (exchangeId m)
  ++ be_encode 2 (chunkIndex m) ++ be_encode 2 (chunkCount m) ++ be_encode 2 (Z.of_nat (length ps))
  ++ records_bytes ps.

(** What the encoder of a chunk has checked, and what it wrote. *)
Lemma encodeSync_ok m bs :
  encodeMessage (SyncMsg m) = Ok bs →
  ∃ ps, bs = sync_bytes m ps ∧ Forall2 encodable (sy_updates m) ps
    ∧ check_distinct [] (sy_updates m) = Ok tt ∧ Z.of_nat (14 + total_length ps) ≤ 0xffff
    ∧ 0 < exchangeId m ≤ 0xffffffffffffffff ∧ 0 ≤ chunkIndex m < chunkCount m ∧ chunkCount m ≤ 0xffff
    ∧ Z.of_nat (length ps) ≤ MAX_MEMBERS.
Proof.
  cbn [encodeMessage]. intros H. apply result_bind_ok in H as ([ps n] & Hp & H).
  apply result_bind_ok in H as (bytes & (-> & Hn & _)%allocateMessage_ok & H). apply (inj Ok) in H.
  unfold prepareSyncBody, assertU64, assertUint in Hp. checks.
  apply prepareSyncUpdates_ok in Hp as (Hus & -> & Hdist). exists ps.
  rewrite (Forall2_length _ _ _ Hus) in E3.
  assert (length (sy_updates m) = length ps) as Hlen by (by eapply Forall2_length).
  split; [|repeat split; try done; cbn in *; lia].
  rewrite <-H. unfold put_uint, SYNC_HEADER_BYTES, MESSAGE_HEADER_BYTES.
  set (env := envelope _ _).
  assert (length env = 4%nat) as He by (unfold env, envelope; rewrite !length_app, !length_be_encode; done).
  set (f1 := be_encode 8 _). set (f2 := be_encode 2 (chunkIndex m)). set (f3 := be_encode 2 (chunkCount m)).
  set (f4 := be_encode 2 (Z.of_nat _)).
  assert (length f1 = 8 ∧ length f2 = 2 ∧ length f3 = 2 ∧ length f4 = 2)%nat as (L1 & L2 & L3 & L4)
    by (unfold f1, f2, f3, f4; by rewrite !length_be_encode).
  erewrite (bytes_set_next env f1) by (reflexivity || lia).
  erewrite (bytes_set_next (env ++ f1) f2) by (reflexivity || (rewrite ?length_app; lia)).
  erewrite (bytes_set_next ((env ++ f1) ++ f2) f3) by (reflexivity || (rewrite ?length_app; lia)).
  erewrite (bytes_set_next (((env ++ f1) ++ f2) ++ f3) f4) by (reflexivity || (rewrite ?length_app; lia)).
  set (pre := (((env ++ f1) ++ f2) ++ f3) ++ f4).
  assert (length pre = 14 + 4)%nat as Hpre by (unfold pre; rewrite !length_app; lia).
  rewrite <-Hpre, write_updates_spec by (lia || by eapply encodable_ok).
  match goal with |- context [replicate ?k 0] => replace k with 0%nat by lia end.
  unfold pre, sync_bytes. cbn [replicate]. by rewrite app_nil_r, <-!app_assoc.
Qed.

(** A chunk as it arrives. *)
Definition arrived_sync (m : SyncMessage) : SyncMessage :=
  MkSync (sy_type m) (exchangeId m) (chunkIndex m) (chunkCount m) (arrived_update <$> sy_updates m).

Lemma plain_sync_arrives m : Forall plain_update (sy_updates m) → arrived_sync m = m.
Proof. intros H. unfold arrived_sync. rewrite plain_updates_arrive by done. by destruct m. Qed.

Lemma decode_sync m ps :
  Forall2 encodable (sy_updates m) ps →
  Z.of_nat (14 + total_length ps) ≤ 0xffff → 0 < exchangeId m ≤ 0xffffffffffffffff →
  0 ≤ chunkIndex m < chunkCount m → chunkCount m ≤ 0xffff → Z.of_nat (length ps) ≤ MAX_MEMBERS →
  Forall text_update (sy_updates m) →
  decodeMessage (sync_bytes m ps)
  = let! _ := check_distinct [] (sy_updates (arrived_sync m)) in Ok (SyncMsg (arrived_sync m)).
Proof.
  intros Hus Hn Hid Hidx Hcnt Hlen Hpl. unfold decodeMessage.
  assert (Forall prepared_ok ps) as Hps by (by eapply encodable_ok).
  assert (length (sync_bytes m ps) = 4 + (14 + total_length ps))%nat as Hl.
  { unfold sync_bytes, envelope. rewrite !length_app, !length_be_encode, length_records_bytes by done. lia. }
  assert (decodeEnvelope (sync_bytes m ps) = Ok (sync_code (sy_type m))) as ->.
  { unfold sync_bytes. apply decodeEnvelope_spec; [by destruct (sy_type m)| |done].
    rewrite !length_app, !length_be_encode, length_records_bytes by done. lia. }
  cbn [result_bind].
  assert (decodeSyncBody (sy_type m) (sync_bytes m ps) MESSAGE_HEADER_BYTES
    = let! _ := check_distinct [] (sy_updates (arrived_sync m)) in Ok (arrived_sync m)) as Hbody.
  { unfold decodeSyncBody, MESSAGE_HEADER_BYTES, SYNC_HEADER_BYTES. rewrite Hl.
    rewrite (proj2 (Nat.ltb_ge _ _)) by lia. cbn [fail_if result_bind].
    assert (∀ n k, field_at n (4 + k) (sync_bytes m ps)
      = field_at n k (be_encode 8 (exchangeId m) ++ be_encode 2 (chunkIndex m) ++ be_encode 2 (chunkCount m)
          ++ be_encode 2 (Z.of_nat (length ps)) ++ records_bytes ps)) as Hf by done.
    change (field_at 8 4 (sync_bytes m ps)) with (field_at 8 (4 + 0) (sync_bytes m ps)). rewrite !Hf.
    rewrite field_at_here by lia.
    rewrite (field_at_skip 2 8), (field_at_skip 2 10), (field_at_skip 2 12) by (rewrite length_be_encode; lia).
    rewrite !length_be_encode. cbn [Nat.sub]. rewrite field_at_here by lia.
    rewrite (field_at_skip 2 2), (field_at_skip 2 4) by (rewrite length_be_encode; lia).
    rewrite !length_be_encode. cbn [Nat.sub]. rewrite field_at_here by lia.
    rewrite (field_at_skip 2 2) by (rewrite length_be_encode; lia).
    rewrite !length_be_encode. cbn [Nat.sub]. unfold MAX_MEMBERS in *. rewrite field_at_here by lia.
    rewrite (proj2 (Z.eqb_neq _ _)), (proj2 (Z.eqb_neq (chunkCount m) 0)), (proj2 (Z.leb_gt _ _)),
      (proj2 (Z.ltb_ge _ _)) by lia. cbn [fail_if result_bind orb].
    rewrite Nat2Z.id, <-(Forall2_length _ _ _ Hus), <-Hl, (decode_list _ ps); [|done|done| |lia].
    - done.
    - reflexivity. }
  assert (∀ t, (MESSAGE_PING <=? sync_code t) && (sync_code t <=? MESSAGE_GOSSIP) = false
    ∧ (sync_code t =? MESSAGE_SYNC_REQUEST) || (sync_code t =? MESSAGE_SYNC_RESPONSE) = true
    ∧ (if sync_code t =? MESSAGE_SYNC_REQUEST then SyncRequest else SyncResponse) = t) as Ht by (by intros []).
  destruct (Ht (sy_type m)) as (-> & -> & ->). rewrite Hbody. by destruct (check_distinct _ _).
Qed.

(** ** Messages *)

Definition message_names (P : jsstring → Prop) (m : MembershipMessage) : Prop :=
  match m with
  | PacketMsg m => packet_names P m
  | SyncMsg m => Forall (λ u, P (u_member u) ∧ P (u_reporter u)) (sy_updates m)
  end.

(** What the receiver makes of a message: a chunk in which two members now have one name is
    refused. *)
Definition received_message (m : MembershipMessage) : result MembershipMessage :=
  match m with
  | PacketMsg m => Ok (PacketMsg (arrived_packet m))
  | SyncMsg m => let! _ := check_distinct [] (sy_updates (arrived_sync m)) in Ok (SyncMsg (arrived_sync m))
  end.

Lemma message_received m bs :
  message_names text m → encodeMessage m = Ok bs →
  decodeMessage bs = received_message m
  ∧ Z.of_nat (length bs) ≤ match m with PacketMsg _ => MAX_PACKET_BYTES | SyncMsg _ => MAX_SYNC_MESSAGE_BYTES end
  ∧ assertEnvelopeForRole bs (match m with PacketMsg _ => RolePacket | SyncMsg _ => RoleStream end) = Ok tt.
Proof.
  intros Hpl H. destruct m as [m|m].
  - cbn [encodeMessage] in H. apply result_bind_ok in H as ([[names ps] n] & Hprep & H).
    destruct (preparePacketBody_ok m names ps n Hprep) as (Hus & _ & ->).
    apply result_bind_ok in H as (bytes & (-> & Hn & Hp)%allocateMessage_ok & H). specialize (Hp eq_refl).
    assert (length (envelope (packet_type m) (length (packet_body m names ps))) = 4%nat) as He
      by (unfold envelope; rewrite !length_app, !length_be_encode; done).
    destruct (writePacketBody_ok m names ps _ _ (encodable_ok _ _ Hus) He H) as [-> Hseq].
    assert (decodeEnvelope (envelope (packet_type m) (length (packet_body m names ps)) ++ packet_body m names ps)
      = Ok (packet_type m)) as Henv by (by apply decodeEnvelope_spec; [destruct m|..]).
    assert (length (envelope (packet_type m) (length (packet_body m names ps)) ++ packet_body m names ps)
      = 4 + length (packet_body m names ps))%nat as Hl by (by rewrite length_app, He).
    assert (drop MESSAGE_HEADER_BYTES (envelope (packet_type m) (length (packet_body m names ps))
      ++ packet_body m names ps) = packet_body m names ps) as Hd by (by apply drop_app_length').
    set (bytes := envelope _ _ ++ _) in *. clearbody bytes. split; [|split; [by rewrite Hl|]].
    + unfold decodeMessage. rewrite Henv. cbn [result_bind].
      replace ((MESSAGE_PING <=? packet_type m) && (packet_type m <=? MESSAGE_GOSSIP)) with true by (by destruct m).
      rewrite (proj2 (Z.ltb_ge _ _)) by (by rewrite Hl). cbn [fail_if result_bind].
      rewrite (decodePacketBody_spec m names ps); [done..|]. unfold MESSAGE_HEADER_BYTES. lia.
    + unfold assertEnvelopeForRole. rewrite Henv. by destruct m.
  - destruct (encodeSync_ok m bs H) as (ps & -> & Hus & Hdist & Hn & Hid & Hidx & Hcnt & Hlen).
    split; [by apply decode_sync|]. split.
    + unfold sync_bytes, envelope. rewrite !length_app, !length_be_encode, length_records_bytes by (by eapply encodable_ok).
      unfold MAX_SYNC_MESSAGE_BYTES. lia.
    + unfold assertEnvelopeForRole.
      assert (decodeEnvelope (sync_bytes m ps) = Ok (sync_code (sy_type m))) as ->; [|by destruct (sy_type m)].
      unfold sync_bytes. apply decodeEnvelope_spec; [by destruct (sy_type m)| |done].
      rewrite !length_app, !length_be_encode, length_records_bytes by (by eapply encodable_ok). lia.
Qed.

(** C35: what the membership wire carries.  A message that the encoder accepts, its names
    well-formed text, fits the carrier it is meant for and is read back with every field as
    it was, but for its names: one that starts with a byte order mark arrives without it,
    and a synchronization chunk in which two members then have the same name is refused.  So
    a message none of whose names starts with a byte order mark is read back unchanged. *)
Theorem membership_wire_roundtrip m bs :
  message_names text m → encodeMessage m = Ok bs →
  decodeMessage bs = received_message m
  ∧ (message_names plain m → decodeMessage bs = Ok m)
  ∧ Z.of_nat (length bs) ≤ match m with PacketMsg _ => MAX_PACKET_BYTES | SyncMsg _ => MAX_SYNC_MESSAGE_BYTES end
  ∧ assertEnvelopeForRole bs (match m with PacketMsg _ => RolePacket | SyncMsg _ => RoleStream end) = Ok tt.
Proof.
  intros Hpl H. destruct (message_received m bs Hpl H) as (Hd & Hs & Hr). split_and!; try done.
  intros Hm. rewrite Hd. destruct m as [m|m]; cbn [received_message].
  - by rewrite plain_packet_arrives.
  - destruct (encodeSync_ok m bs H) as (_ & _ & _ & Hdist & _). by rewrite plain_sync_arrives, Hdist.
Qed.

(** ** Splitting a table *)

(** The encoded size of a record, and of a chunk with its headers. *)
Definition record_size (u : MembershipUpdate) : nat :=
  (20 + length (text_encode (u_member u)) + length (text_encode (u_reporter u)) + length (metadata u))%nat.

Definition records_size (us : list MembershipUpdate) : nat := sum_list (record_size <$> us).

Definition chunk_size (us : list MembershipUpdate) : nat := (18 + records_size us)%nat.

Lemma encodable_size u p : encodable u p → pu_length p = record_size u.
Proof. intros [<- Hm Hr _ Hok _ _ _ _ _ _]. unfold prepared_ok, record_size in *. by rewrite <-Hm, <-Hr. Qed.

Lemma encodable_total us ps : Forall2 encodable us ps → total_length ps = records_size us.
Proof.
  unfold records_size. induction 1 as [|u p us ps Hp _ IH]; [done|]. cbn. unfold total_length in IH.
  by rewrite IH, (encodable_size u p).
Qed.

(** A record is never larger than the largest alive one. *)
Lemma record_size_bound u p : encodable u p → (20 < record_size u ≤ 787)%nat.
Proof.
  intros Hp. pose proof (encodable_size u p Hp) as Hs. destruct Hp as [Hu Hm Hr Hl Hok _ _ _ Hsus Hal _].
  unfold prepared_ok in Hok. rewrite <-Hs, Hok, Hu. destruct (decide (u_state u = Suspect)) as [E|E].
  - rewrite E in Hal. cbn in Hal. destruct (Nat.eqb_spec (length (metadata u)) 0); [lia|done].
  - apply negb_false_iff, Nat.eqb_eq in Hsus. lia.
Qed.

(** Chunks in a row: each fits, and could not have taken the first record of the next. *)
Inductive canonical : list (list MembershipUpdate) → Prop :=
  | canonical_one c : Z.of_nat (chunk_size c) ≤ MAX_SYNC_MESSAGE_BYTES → canonical [c]
  | canonical_cons c u c' cs :
      c ≠ [] → Z.of_nat (chunk_size c) ≤ MAX_SYNC_MESSAGE_BYTES →
      MAX_SYNC_MESSAGE_BYTES < Z.of_nat (chunk_size c + record_size u) →
      canonical ((u :: c') :: cs) → canonical (c :: (u :: c') :: cs).

Lemma records_size_app us vs : records_size (us ++ vs) = (records_size us + records_size vs)%nat.
Proof. unfold records_size. rewrite fmap_app. apply sum_list_with_app. Qed.

Lemma chunk_size_snoc us u : chunk_size (us ++ [u]) = (chunk_size us + record_size u)%nat.
Proof.
  unfold chunk_size. rewrite records_size_app.
  change (records_size [u]) with (record_size u + 0)%nat. lia.
Qed.

Lemma chunk_size_one u : chunk_size [u] = (18 + record_size u)%nat.
Proof. apply (chunk_size_snoc []). Qed.

Lemma split_chunks_spec current us :
  Forall (λ u, record_size u ≤ 787)%nat us → Z.of_nat (chunk_size current) ≤ MAX_SYNC_MESSAGE_BYTES →
  ∃ more rest, split_chunks current (chunk_size current) (zip us (record_size <$> us)) = (current ++ more) :: rest
    ∧ canonical ((current ++ more) :: rest) ∧ (current ++ more) ++ mjoin rest = current ++ us
    ∧ (length rest ≤ length us)%nat.
Proof.
  revert current. induction us as [|u us IH]; intros current Hus Hc; cbn [fmap list_fmap zip zip_with split_chunks].
  - exists [], []. rewrite app_nil_r. split; [done|]. split; [by constructor|]. cbn.
    split; [by rewrite ?app_nil_r|lia].
  - apply Forall_cons in Hus as [Hu Hus].
    destruct (negb _ && _) eqn:Hfull.
    + apply andb_true_iff in Hfull as [Hne Hbig%Z.ltb_lt]. apply negb_true_iff, Nat.eqb_neq in Hne.
      assert (MESSAGE_HEADER_BYTES + SYNC_HEADER_BYTES + record_size u = chunk_size [u])%nat as ->
        by (by rewrite chunk_size_one).
      destruct (IH [u] Hus) as (more & rest & -> & Hcan & Hj & Hlen).
      { rewrite chunk_size_one. unfold MAX_SYNC_MESSAGE_BYTES. lia. }
      exists [], (([u] ++ more) :: rest). rewrite app_nil_r. split; [done|]. split; [|split].
      * apply (canonical_cons current u more rest); try done. by intros ->.
      * f_equal. exact Hj.
      * cbn [length]. lia.
    + assert (chunk_size current + record_size u = chunk_size (current ++ [u]))%nat as E
        by (by rewrite chunk_size_snoc).
      rewrite E. destruct (IH (current ++ [u]) Hus) as (more & rest & -> & Hcan & Hj & Hlen).
      { apply andb_false_iff in Hfull as [Hnil%negb_false_iff%Nat.eqb_eq%nil_length_inv|Hs%Z.ltb_ge];
          [subst current; cbn [app]; rewrite chunk_size_one; unfold MAX_SYNC_MESSAGE_BYTES; lia|by rewrite <-E]. }
      exists (u :: more), rest. rewrite <-!app_assoc in *. cbn [app] in *. split; [done|]. split; [done|].
      split; [done|]. cbn [length]. lia.
Qed.

(** A record that can be encoded. *)
Definition valid_update (u : MembershipUpdate) : Prop := ∃ p, prepareUpdate u = Ok p.

Lemma valid_size u : valid_update u → membershipUpdateSize u = Ok (record_size u) ∧ (record_size u ≤ 787)%nat.
Proof.
  intros [p Hp]. unfold membershipUpdateSize. rewrite Hp. cbn. apply prepareUpdate_ok in Hp.
  rewrite (encodable_size u p Hp). split; [done|]. by apply (record_size_bound u p).
Qed.

Lemma addDistinct_ok names m : m ∉ names → addDistinctMember names m = Ok (names ++ [m]).
Proof. intros H. unfold addDistinctMember. by rewrite bool_decide_false by done. Qed.

(** The members of [us] are new and distinct. *)
Lemma distinct_cons names u us :
  NoDup (names ++ (u_member <$> u :: us)) →
  addDistinctMember names (u_member u) = Ok (names ++ [u_member u])
  ∧ NoDup ((names ++ [u_member u]) ++ (u_member <$> us)).
Proof.
  rewrite fmap_cons. intros H. split; [|by rewrite <-app_assoc].
  apply addDistinct_ok. apply NoDup_app in H as (_ & H & _). intros Hin. apply (H _ Hin). by left.
Qed.

Lemma prepareSyncUpdates_total names us base :
  Forall valid_update us → NoDup (names ++ (u_member <$> us)) →
  ∃ ps, prepareSyncUpdates names us base = Ok (ps, (base + records_size us)%nat).
Proof.
  intros Hv. revert names base. induction Hv as [|u us [p Hp] Hv IH]; intros names base Hnd.
  - exists []. cbn. do 2 f_equal. unfold records_size. cbn. lia.
  - destruct (distinct_cons names u us Hnd) as [E Hnd']. cbn [prepareSyncUpdates]. rewrite E, Hp. cbn [result_bind].
    destruct (IH _ (base + pu_length p)%nat Hnd') as [ps ->]. exists (p :: ps). cbn [result_bind].
    do 2 f_equal. apply prepareUpdate_ok, encodable_size in Hp. rewrite Hp.
    change (records_size (u :: us)) with (record_size u + records_size us)%nat. lia.
Qed.

Lemma encodeSync_total m :
  Forall valid_update (sy_updates m) → NoDup (u_member <$> sy_updates m) →
  Z.of_nat (chunk_size (sy_updates m)) ≤ MAX_SYNC_MESSAGE_BYTES →
  Z.of_nat (length (sy_updates m)) ≤ MAX_MEMBERS → 0 < exchangeId m ≤ 0xffffffffffffffff →
  0 ≤ chunkIndex m < chunkCount m → chunkCount m ≤ 0xffff →
  ∃ bs, encodeMessage (SyncMsg m) = Ok bs ∧ length bs = chunk_size (sy_updates m).
Proof.
  intros Hv Hnd Hsize Hlen Hid Hidx Hcnt.
  assert (∃ bs, encodeMessage (SyncMsg m) = Ok bs) as [bs E].
  { cbn [encodeMessage]. unfold prepareSyncBody, assertU64, assertUint.
    destruct (prepareSyncUpdates_total [] (sy_updates m) SYNC_HEADER_BYTES Hv Hnd) as [ps ->].
    rewrite !(proj2 (Z.ltb_ge _ _)), (proj2 (Z.eqb_neq (exchangeId m) 0)), (proj2 (Z.eqb_neq (chunkCount m) 0)),
      (proj2 (Z.leb_gt _ _)) by lia. cbn [fail_if result_bind orb andb].
    unfold allocateMessage. unfold chunk_size, MAX_SYNC_MESSAGE_BYTES, SYNC_HEADER_BYTES in *.
    rewrite (proj2 (Z.ltb_ge _ _)) by lia. eexists. done. }
  exists bs. split; [done|]. destruct (encodeSync_ok m bs E) as (ps & -> & Hus & _).
  unfold sync_bytes, envelope. rewrite !length_app, !length_be_encode, length_records_bytes by (by eapply encodable_ok).
  rewrite (encodable_total _ _ Hus). unfold chunk_size. lia.
Qed.

Lemma sync_roundtrip m bs :
  Forall plain_update (sy_updates m) → encodeMessage (SyncMsg m) = Ok bs → decodeSyncMessage bs = Ok m.
Proof.
  intros Hpl H. destruct (encodeSync_ok m bs H) as (ps & -> & Hus & Hdist & Hn & Hid & Hidx & Hcnt & Hlen).
  unfold decodeSyncMessage. rewrite decode_sync by (done || by apply plain_updates_text).
  rewrite plain_sync_arrives by done. by rewrite Hdist.
Qed.

(** ** Joining the chunks *)

Section exchange.
Context (type : SyncMessageType) (id count : Z).

(** The messages of the chunks from [index] on. *)
Fixpoint chunk_messages (index : Z) (cs : list (list MembershipUpdate)) : list SyncMessage :=
  match cs with
  | [] => []
  | c :: cs' => MkSync type id index count c :: chunk_messages (index + 1) cs'
  end.

(** What every chunk of a table satisfies. *)
Definition chunk_ok (c : list MembershipUpdate) : Prop :=
  Forall valid_update c ∧ Forall plain_update c ∧ NoDup (u_member <$> c)
  ∧ Z.of_nat (chunk_size c) ≤ MAX_SYNC_MESSAGE_BYTES ∧ Z.of_nat (length c) ≤ MAX_MEMBERS.

Lemma encode_chunks_spec index cs :
  0 < id ≤ 0xffffffffffffffff → 0 ≤ index → index + Z.of_nat (length cs) ≤ count → count ≤ 0xffff →
  Forall chunk_ok cs →
  ∃ bss, encode_chunks type id index count cs = Ok bss ∧ Forall2 (λ c b, length b = chunk_size c) cs bss
    ∧ decode_chunks bss = Ok (chunk_messages index cs).
Proof.
  intros Hid Hi Hc Hcount Hcs. revert index Hi Hc.
  induction Hcs as [|c cs (Hv & Hpl & Hnd & Hs & Hl) _ IH]; intros index Hi Hc; cbn [length] in Hc.
  - exists []. split; [done|]. by split; [constructor|].
  - set (m := MkSync type id index count c).
    destruct (encodeSync_total m Hv Hnd Hs Hl) as (bs & E & Hlen); cbn [exchangeId chunkIndex chunkCount m]; [lia..|].
    destruct (IH (index + 1)) as (bss & Ebss & Hall & Hdec); [lia..|].
    exists (bs :: bss). cbn [encode_chunks decode_chunks chunk_messages]. fold m.
    rewrite E, Ebss. cbn [result_bind]. rewrite (sync_roundtrip m bs Hpl E). cbn [result_bind]. rewrite Hdec.
    split; [done|]. split; [by constructor|done].
Qed.

Lemma append_updates_spec us names updates :
  NoDup (names ++ (u_member <$> us)) → Z.of_nat (length (updates ++ us)) ≤ MAX_MEMBERS →
  append_updates us names updates = Ok (names ++ (u_member <$> us), updates ++ us).
Proof.
  revert names updates. induction us as [|u us IH]; intros names updates Hnd Hlen; cbn [append_updates].
  - by rewrite !app_nil_r.
  - destruct (distinct_cons names u us Hnd) as [-> Hnd']. cbn [result_bind].
    rewrite (proj2 (Z.ltb_ge _ _)) by (rewrite !length_app in *; cbn [length] in *; lia). cbn [fail_if result_bind].
    rewrite IH by (done || by rewrite <-app_assoc). by rewrite <-!app_assoc.
Qed.

(** One turn of the loop on a chunk that is in place. *)
Lemma validate_chunks_cons first total index c ms b bss names updates :
  sy_type first = type → exchangeId first = id → chunkCount first = count →
  (c = [] → total = 1%nat ∧ index = 0%nat) →
  NoDup (names ++ (u_member <$> c)) → Z.of_nat (length (updates ++ c)) ≤ MAX_MEMBERS →
  validateLargestPrefix b (head ms) = Ok tt →
  validate_chunks first total index (b :: bss) (MkSync type id (Z.of_nat index) count c :: ms) names updates
  = validate_chunks first total (S index) bss ms (names ++ (u_member <$> c)) (updates ++ c).
Proof.
  intros Ht Hi Hc Hone Hnd Hlen Hp. cbn [validate_chunks].
  unfold validateCanonicalChunk, appendCanonicalChunkUpdates.
  cbn [sy_type exchangeId chunkCount chunkIndex sy_updates head tail].
  rewrite Ht, Hi, Hc, bool_decide_true, !Z.eqb_refl by done. cbn [negb orb fail_if result_bind].
  assert ((length c =? 0)%nat && negb ((total =? 1)%nat && (index =? 0)%nat) = false) as ->.
  { destruct c; [|done]. destruct (Hone eq_refl) as [-> ->]. done. }
  cbn [fail_if result_bind]. rewrite append_updates_spec by done. cbn [result_bind]. by setoid_rewrite Hp.
Qed.

Lemma validate_chunks_spec first total index cs bss names updates :
  sy_type first = type → exchangeId first = id → chunkCount first = count →
  canonical cs → (cs = [[]] → total = 1%nat ∧ index = 0%nat) →
  Forall2 (λ c b, length b = chunk_size c) cs bss → Forall valid_update (mjoin cs) →
  NoDup (names ++ (u_member <$> mjoin cs)) → Z.of_nat (length (updates ++ mjoin cs)) ≤ MAX_MEMBERS →
  validate_chunks first total index bss (chunk_messages (Z.of_nat index) cs) names updates
  = Ok (updates ++ mjoin cs).
Proof.
  intros Ht Hi Hc Hcan. revert index bss names updates.
  induction Hcan as [c _|c u c' cs Hne _ Hbig Hcan IH]; intros index bss names updates Hone Hbss Hv Hnd Hlen.
  all: apply Forall2_cons_inv_l in Hbss as (b & bss' & Hb & Hbss & ->).
  - change (mjoin [c]) with (c ++ []) in *. rewrite app_nil_r in *. cbn [chunk_messages].
    rewrite validate_chunks_cons; try done. intros ->. by apply Hone.
  - change (mjoin (c :: (u :: c') :: cs)) with (c ++ mjoin ((u :: c') :: cs)) in *.
    rewrite fmap_app, app_assoc in Hnd. rewrite app_assoc in Hlen |- *. apply Forall_app in Hv as [_ Hv].
    change (chunk_messages (Z.of_nat index) (c :: (u :: c') :: cs))
      with (MkSync type id (Z.of_nat index) count c :: chunk_messages (Z.of_nat index + 1) ((u :: c') :: cs)).
    rewrite validate_chunks_cons; try done.
    + replace (Z.of_nat index + 1) with (Z.of_nat (S index)) by lia. by apply IH.
    + by apply NoDup_app in Hnd as [? _].
    + rewrite length_app in Hlen. lia.
    + cbn [head chunk_messages]. unfold validateLargestPrefix. cbn [mbind option_bind head sy_updates].
      destruct (valid_size u) as [-> _]; [by apply Forall_cons in Hv as [? _]|]. cbn [result_bind].
      by rewrite (proj2 (Z.leb_gt _ _)) by (by rewrite Hb).
Qed.
End exchange.

Lemma sync_sizes_total names us :
  Forall valid_update us → NoDup (names ++ (u_member <$> us)) → sync_sizes names us = Ok (record_size <$> us).
Proof.
  intros Hv. revert names. induction Hv as [|u us Hu Hv IH]; intros names Hnd; [done|].
  destruct (distinct_cons names u us Hnd) as [E Hnd']. cbn [sync_sizes]. rewrite E. cbn [result_bind].
  destruct (valid_size u Hu) as [-> _]. cbn [result_bind]. by rewrite IH.
Qed.

Lemma canonical_chunks_ok cs :
  canonical cs → Forall valid_update (mjoin cs) → Forall plain_update (mjoin cs) →
  NoDup (u_member <$> mjoin cs) → Z.of_nat (length (mjoin cs)) ≤ MAX_MEMBERS → Forall chunk_ok cs.
Proof.
  assert (∀ c cs, Forall valid_update (mjoin (c :: cs)) → Forall plain_update (mjoin (c :: cs)) →
    NoDup (u_member <$> mjoin (c :: cs)) → Z.of_nat (length (mjoin (c :: cs))) ≤ MAX_MEMBERS →
    Z.of_nat (chunk_size c) ≤ MAX_SYNC_MESSAGE_BYTES → chunk_ok c) as Hhead.
  { intros c cs' Hv Hpl Hnd Hlen Hs. change (mjoin (c :: cs')) with (c ++ mjoin cs') in *.
    rewrite fmap_app in Hnd. rewrite length_app in Hlen. apply Forall_app in Hv as [? _], Hpl as [? _].
    apply NoDup_app in Hnd as [? _]. split; [done|]. split; [done|]. split; [done|]. split; [done|lia]. }
  induction 1 as [c Hs|c u c' cs _ Hs _ Hcan IH]; intros Hv Hpl Hnd Hlen.
  - constructor; [by eapply Hhead|constructor].
  - constructor; [by eapply Hhead|].
    change (mjoin (c :: (u :: c') :: cs)) with (c ++ mjoin ((u :: c') :: cs)) in *.
    rewrite fmap_app in Hnd. rewrite length_app in Hlen. apply Forall_app in Hv as [_ ?], Hpl as [_ ?].
    apply NoDup_app in Hnd as (_ & _ & ?). apply IH; try done. lia.
Qed.

Lemma exchange_budget_ok acc cs bss :
  Forall2 (λ c b, length b = chunk_size c) cs bss →
  acc + Z.of_nat (22 * length cs + records_size (mjoin cs)) ≤ MAX_SYNC_EXCHANGE_BYTES →
  exchange_budget acc bss = Ok tt.
Proof.
  intros H. revert acc. induction H as [|c b cs bss Hb _ IH]; intros acc Hsum; [done|].
  change (mjoin (c :: cs)) with (c ++ mjoin cs) in Hsum. rewrite records_size_app in Hsum. cbn [length] in Hsum.
  unfold chunk_size in Hb. cbn [exchange_budget]. rewrite (proj2 (Z.ltb_ge _ _)) by lia. cbn [fail_if result_bind].
  apply IH. lia.
Qed.

Lemma records_size_bound us :
  Forall valid_update us → (records_size us ≤ 787 * length us)%nat.
Proof.
  induction 1 as [|u us Hu _ IH]; [done|]. destruct (valid_size u Hu) as [_ Hs].
  change (records_size (u :: us)) with (record_size u + records_size us)%nat. cbn [length]. lia.
Qed.

Lemma combine_chunks_spec type id cs bss :
  canonical cs → Forall2 (λ c b, length b = chunk_size c) cs bss → Forall valid_update (mjoin cs) →
  NoDup (u_member <$> mjoin cs) → Z.of_nat (length (mjoin cs)) ≤ MAX_MEMBERS →
  combineSyncChunks bss (chunk_messages type id (Z.of_nat (length cs)) 0 cs) = Ok (MkExchange type id (mjoin cs)).
Proof.
  intros Hcan Hall Hv Hnd Hlen. assert (length bss = length cs) as Hb by (symmetry; by eapply Forall2_length).
  assert (∀ n i ds, length (chunk_messages type id n i ds) = length ds) as Hm
    by (intros n i ds; revert i; induction ds as [|? ? IH]; intros i; cbn [chunk_messages length]; by rewrite ?IH).
  specialize (Hm (Z.of_nat (length cs)) 0 cs). unfold combineSyncChunks.
  pose proof (λ first, validate_chunks_spec type id (Z.of_nat (length cs)) first (length cs) 0 cs bss [] []) as Hval.
  change (Z.of_nat 0) with 0 in Hval.
  destruct cs as [|c cs']; [inv Hcan|]. set (cs := c :: cs') in *.
  destruct (chunk_messages type id (Z.of_nat (length cs)) 0 cs) as [|m ms] eqn:Ems; [done|].
  assert (m = MkSync type id 0 (Z.of_nat (length cs)) c) as -> by (by injection Ems).
  rewrite Hb. cbn [length] in Hm |- *. rewrite Hm, Nat.eqb_refl. cbn [chunkCount sy_type exchangeId].
  rewrite Z.eqb_refl. cbn [negb fail_if result_bind]. rewrite Hval; try done. by intros ->.
Qed.

(** A table of distinct, encodable records splits into chunks that fit their frames and
    the exchange budget, pass every canonicity check, and join to the table. *)
Theorem sync_exchange_roundtrip type id us :
  0 < id ≤ 0xffffffffffffffff → Z.of_nat (length us) ≤ MAX_MEMBERS →
  Forall valid_update us → Forall plain_update us → NoDup (u_member <$> us) →
  ∃ chunks, encodeSyncChunks type id us = Ok chunks
    ∧ Forall (λ b, Z.of_nat (length b) ≤ MAX_SYNC_MESSAGE_BYTES) chunks
    ∧ decodeSyncChunks chunks = Ok (MkExchange type id us).
Proof.
  intros Hid Hlen Hv Hpl Hnd. unfold encodeSyncChunks, assertU64.
  rewrite !(proj2 (Z.ltb_ge _ _)), (proj2 (Z.eqb_neq id 0)) by lia. cbn [fail_if result_bind orb andb].
  rewrite (sync_sizes_total [] us Hv Hnd). cbn [result_bind].
  destruct (split_chunks_spec [] us) as (more & rest & Hsplit & Hcan & Hj & Hrest).
  { eapply Forall_impl; [exact Hv|]. intros u Hu. by apply valid_size. }
  { done. }
  change (MESSAGE_HEADER_BYTES + SYNC_HEADER_BYTES)%nat with (chunk_size []). rewrite Hsplit. cbn [app] in *.
  set (cs := more :: rest) in *. change (more ++ mjoin rest) with (mjoin cs) in Hj.
  rewrite <-Hj in Hv, Hpl, Hnd, Hlen.
  assert (Z.of_nat (length cs) ≤ 1025) as Hn by (unfold cs, MAX_MEMBERS in *; cbn [length]; rewrite Hj in Hlen; lia).
  pose proof (canonical_chunks_ok cs Hcan Hv Hpl Hnd Hlen) as Hok.
  destruct (encode_chunks_spec type id (Z.of_nat (length cs)) 0 cs) as (bss & E & Hall & Hdec); [done..|lia|lia|done|].
  exists bss. split; [done|]. split.
  { clear -Hall Hok. induction Hall as [|c b cs bss Hb _ IH]; constructor.
    - apply Forall_cons in Hok as [(_ & _ & _ & Hs & _) _]. by rewrite Hb.
    - apply IH. by apply Forall_cons in Hok as [_ ?]. }
  assert (length bss = length cs) as Hb by (symmetry; by eapply Forall2_length).
  unfold decodeSyncChunks, assertSyncExchangeBudget.
  rewrite (exchange_budget_ok 0 cs bss Hall) by (pose proof (records_size_bound _ Hv); unfold MAX_MEMBERS, MAX_SYNC_EXCHANGE_BYTES in *; lia).
  rewrite Hdec, Hb. change (length cs =? 0)%nat with false. cbn [fail_if result_bind].
  rewrite (combine_chunks_spec type id cs bss); try done. by rewrite Hj.
Qed.

(** ** The stream splitter *)

(** [push] of the pieces of a stream, one after the other. *)
Fixpoint push_all (a : SyncFrameAssembler) (pieces : list (list Z)) : result (list (list Z) * SyncFrameAssembler) :=
  match pieces with
  | [] => Ok ([], a)
  | bytes :: pieces' =>
      let! (frames, a) := sa_push a bytes in
      let! (more, a) := push_all a pieces' in
      Ok (frames ++ more, a)
  end.

(** The bytes of a frame on the carrier. *)
Definition framed (f : list Z) : list Z := be_encode 4 (Z.of_nat (length f)) ++ f.

(** One byte at a time: the reference the loop is compared with. *)
Definition feed (a : SyncFrameAssembler) (b : Z) : result (list (list Z) * SyncFrameAssembler) :=
  match sa_frame a with
  | Some (len, got) =>
      let got := got ++ [b] in
      if Nat.eqb (length got) len then Ok ([got], MkAssembler [] None)
      else Ok ([], MkAssembler (sa_prefix a) (Some (len, got)))
  | None =>
      let prefix := sa_prefix a ++ [b] in
      if Nat.ltb (length prefix) 4 then Ok ([], MkAssembler prefix None)
      else
        let! _ := fail_if ((be_decode prefix <? 4) || (MAX_SYNC_MESSAGE_BYTES <? be_decode prefix))
                    "sync frame length is out of range" in
        Ok ([], MkAssembler prefix (Some (Z.to_nat (be_decode prefix), [])))
  end.

Fixpoint feeds (a : SyncFrameAssembler) (bytes : list Z) : result (list (list Z) * SyncFrameAssembler) :=
  match bytes with
  | [] => Ok ([], a)
  | b :: bytes' =>
      let! (frames, a) := feed a b in
      let! (more, a) := feeds a bytes' in
      Ok (frames ++ more, a)
  end.

Definition assembler_wf (a : SyncFrameAssembler) : Prop :=
  match sa_frame a with
  | Some (len, got) => (length got < len)%nat
  | None => (length (sa_prefix a) < 4)%nat
  end.

Lemma feed_wf a b fs a' : assembler_wf a → feed a b = Ok (fs, a') → assembler_wf a'.
Proof.
  unfold assembler_wf, feed. destruct a as [p [[len got]|]]; cbn [sa_frame sa_prefix]; intros Hwf H.
  - destruct (Nat.eqb_spec (length (got ++ [b])) len); apply (inj Ok) in H; injection H as <- <-; cbn; [lia|].
    rewrite length_app in *; cbn in *; lia.
  - destruct (Nat.ltb_spec (length (p ++ [b])) 4); [apply (inj Ok) in H; injection H as <- <-; done|].
    apply result_bind_ok in H as ([] & Hg & H). apply fail_if_ok in Hg. apply orb_false_iff in Hg as [Hg%Z.ltb_ge _].
    apply (inj Ok) in H. injection H as <- <-. cbn. lia.
Qed.

Lemma feeds_app a bs1 bs2 :
  feeds a (bs1 ++ bs2) = let! (f1, a1) := feeds a bs1 in let! (f2, a2) := feeds a1 bs2 in Ok (f1 ++ f2, a2).
Proof.
  revert a. induction bs1 as [|b bs1 IH]; intros a; cbn [app feeds].
  - cbn [result_bind]. by destruct (feeds a bs2) as [[? ?]|].
  - destruct (feed a b) as [[fs a1]|]; [|done]. cbn [result_bind]. rewrite IH.
    destruct (feeds a1 bs1) as [[fs1 a2]|]; [|done]. cbn [result_bind].
    destruct (feeds a2 bs2) as [[fs2 a3]|]; [|done]. cbn [result_bind]. by rewrite app_assoc.
Qed.

Lemma feeds_wf a bs fs a' : assembler_wf a → feeds a bs = Ok (fs, a') → assembler_wf a'.
Proof.
  revert a fs. induction bs as [|b bs IH]; intros a fs Hwf H; cbn [feeds] in H.
  - apply (inj Ok) in H. by injection H as <- <-.
  - apply result_bind_ok in H as ([f1 a1] & H1 & H). apply result_bind_ok in H as ([f2 a2] & H2 & H).
    apply (inj Ok) in H. injection H as <- <-. eapply IH; [|done]. by eapply feed_wf.
Qed.

(** Filling a frame in one copy is filling it byte by byte. *)
Lemma fill_feeds p len got bytes fs a rest :
  (length got < len)%nat → fill_frame p len got bytes = (fs, a, rest) →
  feeds (MkAssembler p (Some (len, got))) bytes = let! (more, a') := feeds a rest in Ok (fs ++ more, a').
Proof.
  revert got. induction bytes as [|b bytes IH]; intros got Hlt H; unfold fill_frame in H.
  - rewrite Nat.min_0_r, take_nil, drop_nil, app_nil_r in H.
    rewrite (proj2 (Nat.eqb_neq _ _)) in H by lia. by simplify_eq.
  - cbn [feeds]. unfold feed at 1. cbn [sa_frame sa_prefix].
    assert (∃ n, len - length got = S n)%nat as [n Hn] by (exists (len - length got - 1)%nat; lia).
    rewrite Hn in H. cbn [length Nat.min take drop] in H. rewrite cons_middle, app_assoc in H.
    destruct (Nat.eqb_spec (length (got ++ [b])) len) as [E|E].
    + assert (n = 0)%nat as -> by (rewrite length_app in E; cbn in E; lia).
      cbn [Nat.min take drop] in H. rewrite app_nil_r in H. rewrite (proj2 (Nat.eqb_eq _ _)) in H by done. by simplify_eq.
    + assert (length (got ++ [b]) < len)%nat as Hlt' by (rewrite length_app in *; cbn in *; lia).
      cbn [result_bind]. rewrite (IH (got ++ [b]) Hlt').
      * destruct (feeds a rest) as [[? ?]|]; done.
      * unfold fill_frame. assert (len - length (got ++ [b]) = n)%nat as -> by (rewrite length_app; cbn; lia). done.
Qed.

(** Reading the length prefix in one copy is reading it byte by byte. *)
Lemma prefix_feeds p bytes :
  (length p < 4)%nat → 
  let count := Nat.min (4 - length p) (length bytes) in
  feeds (MkAssembler p None) bytes =
  if Nat.ltb (length (p ++ take count bytes)) 4 then Ok ([], MkAssembler (p ++ take count bytes) None)
  else
    let len := be_decode (p ++ take count bytes) in
    let! _ := fail_if ((len <? 4) || (MAX_SYNC_MESSAGE_BYTES <? len)) "sync frame length is out of range" in
    feeds (MkAssembler (p ++ take count bytes) (Some (Z.to_nat len, []))) (drop count bytes).
Proof.
  revert p. induction bytes as [|b bytes IH]; intros p Hlt count.
  - unfold count. rewrite Nat.min_0_r, take_nil, app_nil_r, (proj2 (Nat.ltb_lt _ _) Hlt). done.
  - assert (∃ n, 4 - length p = S n)%nat as [n Hn] by (exists (3 - length p)%nat; lia).
    unfold count. rewrite Hn. cbn [length Nat.min take drop feeds]. unfold feed at 1. cbn [sa_frame sa_prefix].
    rewrite (cons_middle b p (take _ bytes)), app_assoc.
    destruct (Nat.ltb_spec (length (p ++ [b])) 4) as [Hs|Hs].
    + cbn [result_bind]. rewrite (IH (p ++ [b]) Hs).
      assert (4 - length (p ++ [b]) = n)%nat as -> by (rewrite length_app; cbn; lia).
      destruct (Nat.ltb _ 4); [done|]. cbv zeta. destruct (fail_if _ _); [|done]. cbn [result_bind].
      by destruct (feeds _ _) as [[? ?]|].
    + assert (n = 0)%nat as -> by (rewrite length_app in Hs; cbn in Hs; lia). cbn [Nat.min take drop].
      rewrite app_nil_r, (proj2 (Nat.ltb_ge _ _)) by lia. cbv zeta. destruct (fail_if _ _); [|done]. cbn [result_bind].
      rewrite drop_0. by destruct (feeds _ bytes) as [[? ?]|].
Qed.

Lemma fill_frame_cut p len got bytes :
  ∃ fs a rest, fill_frame p len got bytes = (fs, a, rest) ∧ (length rest ≤ length bytes)%nat
    ∧ ((length got < len)%nat → assembler_wf a ∧ (bytes ≠ [] → length rest < length bytes)%nat).
Proof.
  unfold fill_frame, assembler_wf. set (count := Nat.min _ _).
  destruct (Nat.eqb_spec (length (got ++ take count bytes)) len) as [E|E]; eexists _, _, _; (split; [done|]).
  all: rewrite length_drop; split; [lia|]; intros Hlt; split; [|destruct bytes; [done|]; intros _; cbn [length] in *; lia].
  - cbn; lia.
  - cbn [sa_frame]. rewrite length_app, length_take in *. lia.
Qed.

(** The loop of [push] is the byte-wise reference. *)
Lemma push_loop_feeds fuel a bytes :
  assembler_wf a → (length bytes ≤ fuel)%nat → push_loop fuel a bytes = feeds a bytes.
Proof.
  revert a bytes. induction fuel as [|fuel IH]; intros a bytes Hwf Hlen; [by destruct bytes; cbn in Hlen; [|lia]|].
  destruct bytes as [|b bytes']; [done|]. cbn [push_loop]. set (bytes := b :: bytes') in *.
  destruct a as [p [[len got]|]]; unfold push_turn; cbn [sa_frame sa_prefix]; unfold assembler_wf in Hwf; cbn in Hwf.
  - destruct (fill_frame_cut p len got bytes) as (fs & a & rest & E & _ & H). destruct (H Hwf) as [Ha Hlt].
    rewrite E. cbn [result_bind]. rewrite (fill_feeds p len got bytes fs a rest Hwf E).
    rewrite IH; [done..|]. specialize (Hlt ltac:(done)). lia.
  - rewrite (prefix_feeds p bytes Hwf). cbv zeta. destruct (Nat.ltb _ 4) eqn:Hp4; [done|].
    set (count := Nat.min _ _) in *. destruct (fail_if _ _) as [[]|] eqn:Hf; [|done]. cbn [result_bind].
    apply fail_if_ok, orb_false_iff in Hf as [Hf%Z.ltb_ge _].
    destruct (fill_frame_cut (p ++ take count bytes) (Z.to_nat (be_decode (p ++ take count bytes))) [] (drop count bytes))
      as (fs & a & rest & E & Hle & H). destruct H as [Ha _]; [cbn; lia|].
    rewrite E. cbn [result_bind]. rewrite (fill_feeds _ _ _ _ fs a rest) by (done || cbn; lia).
    rewrite IH; [done..|]. rewrite length_drop in Hle. unfold bytes in *. cbn [length] in *. lia.
Qed.

Lemma push_all_feeds a pieces : assembler_wf a → push_all a pieces = feeds a (mjoin pieces).
Proof.
  revert a. induction pieces as [|bs pieces IH]; intros a Hwf; [done|]. cbn [push_all].
  change (mjoin (bs :: pieces)) with (bs ++ mjoin pieces). rewrite feeds_app. unfold sa_push.
  rewrite push_loop_feeds by done. destruct (feeds a bs) as [[fs a']|] eqn:E; [|done]. cbn [result_bind].
  by rewrite IH by (by eapply feeds_wf).
Qed.

Lemma feeds_framed f :
  4 ≤ Z.of_nat (length f) ≤ MAX_SYNC_MESSAGE_BYTES → feeds new_SyncFrameAssembler (framed f) = Ok ([f], new_SyncFrameAssembler).
Proof.
  intros Hf. unfold framed, new_SyncFrameAssembler. rewrite (prefix_feeds []) by (cbn; lia). cbv zeta.
  rewrite !length_app, !length_be_encode, !app_nil_l. cbn [length]. replace (Nat.min (4 - 0) (4 + length f)) with 4%nat by lia.
  rewrite take_app_length' by (by rewrite length_be_encode). rewrite drop_app_length' by (by rewrite length_be_encode).
  rewrite length_be_encode, be_decode_encode_id by (unfold MAX_SYNC_MESSAGE_BYTES in *; lia).
  rewrite !(proj2 (Z.ltb_ge _ _)) by lia. cbn [Nat.ltb Nat.leb orb fail_if result_bind]. rewrite Nat2Z.id.
  rewrite (fill_feeds _ _ [] f [f] (MkAssembler [] None) []); [done|cbn; lia|].
  unfold fill_frame. cbn [length app]. rewrite Nat.sub_0_r, Nat.min_id, firstn_all, drop_all, Nat.eqb_refl. done.
Qed.

(** However the carrier cuts a stream of frames, the splitter returns exactly those frames,
    in order, and ends on a frame boundary. *)
Theorem sync_frames_any_cut frames pieces :
  Forall (λ f, 4 ≤ Z.of_nat (length f) ≤ MAX_SYNC_MESSAGE_BYTES) frames → mjoin pieces = frames ≫= framed →
  ∃ a, push_all new_SyncFrameAssembler pieces = Ok (frames, a) ∧ sa_complete a = true.
Proof.
  intros Hfs E. exists new_SyncFrameAssembler. split; [|done]. rewrite push_all_feeds by (cbn; lia). rewrite E. clear E pieces.
  induction Hfs as [|f frames Hf _ IH]; [done|]. cbn [mbind list_bind]. rewrite feeds_app, feeds_framed by done.
  cbn [result_bind]. by setoid_rewrite IH.
Qed.

(** ** Instances *)

Definition sample_updates : list MembershipUpdate :=
  [MkUpdate Alive true 3 1_700_000_000_000 (js "n1:9000") [] [1; 2; 255];
   MkUpdate Suspect false 4 1_700_000_000_001 (js "n2:9000") (js "n1:9000") []].

Definition sample_nack : MembershipMessage :=
  PacketMsg (NackMessage 12 (js "n1:9000") (js "n2:9000") (js "n3:9000") sample_updates).

Lemma sample_plain : Forall plain_update sample_updates.
Proof. repeat apply Forall_cons_2; try apply Forall_nil_2; split; apply plain_check; vm_compute; reflexivity. Qed.

Lemma sample_valid : Forall valid_update sample_updates.
Proof. repeat apply Forall_cons_2; try apply Forall_nil_2; eexists; vm_compute; reflexivity. Qed.

Lemma membership_wire_roundtrip_witness :
  ∃ bs, encodeMessage sample_nack = Ok bs ∧ decodeMessage bs = Ok sample_nack.
Proof.
  destruct (encodeMessage sample_nack) as [bs|e] eqn:E; [|by vm_compute in E].
  assert (message_names plain sample_nack) as Hp
    by (split; [exact sample_plain|]; split_and!; apply plain_check; vm_compute; reflexivity).
  exists bs. split; [reflexivity|]. apply (membership_wire_roundtrip sample_nack bs); [|exact E|exact Hp].
  split; [apply plain_updates_text, sample_plain|]. destruct Hp as (_ & ? & ? & ?). split_and!; by apply plain_text.
Defined.

Lemma sync_exchange_roundtrip_witness :
  ∃ chunks, encodeSyncChunks SyncRequest 9 sample_updates = Ok chunks
    ∧ decodeSyncChunks chunks = Ok (MkExchange SyncRequest 9 sample_updates).
Proof.
  destruct (sync_exchange_roundtrip SyncRequest 9 sample_updates) as (chunks & E & _ & D).
  - lia.
  - by vm_compute.
  - exact sample_valid.
  - exact sample_plain.
  - apply (bool_decide_unpack _). by vm_compute.
  - by exists chunks.
Defined.

(** Two frames, cut inside the first prefix, inside a body and inside the second prefix. *)
Lemma sync_frames_any_cut_witness :
  ∃ a, push_all new_SyncFrameAssembler [[0; 0]; [0; 4; 1; 2]; [3; 4; 0]; [0; 0; 5; 5; 6; 7; 8; 9]]
       = Ok ([[1; 2; 3; 4]; [5; 6; 7; 8; 9]], a) ∧ sa_complete a = true.
Proof.
  apply sync_frames_any_cut.
  - repeat constructor; vm_compute; discriminate.
  - by vm_compute.
Defined.
