(* ===== verification/Mailbox.v ===== *)
(** * Mailboxes: the contract of [mailbox.ts] and the ring-buffer mailboxes

    The interface as a class of operations, the contract the receive loop relies on as a
    class of laws, and its first-in first-out refinement; [UnboundedMailbox] (a growable
    ring) and [BoundedMailbox] (a fixed ring) are instances.  A backlog is an
    [option (list A)]: [None] once the mailbox is disposed. *)
From S2P Require Import Prelude.

(** The sentinels of [errors.ts] a mailbox returns; a result [None] is [null]. *)
Inductive MailboxError := ErrMailboxFull | ErrMailboxDisposed.

(** ** The interface *)

Class MailboxOps (A M : Type) := {
  mb_enqueue : A → M → option MailboxError * M;
  mb_dequeue : M → option A * M;
  mb_isEmpty : M → bool;
  mb_len : M → nat;
  mb_dispose : M → M }.

(** What every mailbox promises: accepted messages are served once each, in an order the
    implementation chooses. *)
Class Mailbox (A M : Type) {ops : MailboxOps A M} := {
  mb_repr : M → option (list A) → Prop;
  mb_enqueue_live x m q : mb_repr m (Some q) →
    ∃ r m' q', mb_enqueue x m = (r, m') ∧ mb_repr m' (Some q')
      ∧ ((r = None ∧ q' ≡ₚ q ++ [x]) ∨ (r = Some ErrMailboxFull ∧ q' = q));
  mb_enqueue_disposed x m : mb_repr m None →
    ∃ m', mb_enqueue x m = (Some ErrMailboxDisposed, m') ∧ mb_repr m' None;
  mb_dequeue_empty m s : mb_repr m s → default [] s = [] →
    ∃ m', mb_dequeue m = (None, m') ∧ mb_repr m' s;
  mb_dequeue_live m q : mb_repr m (Some q) → q ≠ [] →
    ∃ x m' q', mb_dequeue m = (Some x, m') ∧ mb_repr m' (Some q') ∧ q ≡ₚ x :: q';
  mb_isEmpty_spec m s : mb_repr m s → mb_isEmpty m = bool_decide (default [] s = []);
  mb_len_spec m s : mb_repr m s → mb_len m = length (default [] s);
  mb_dispose_spec m s : mb_repr m s → mb_repr (mb_dispose m) None }.

(** ** First in, first out *)

(** The reference: a list with a capacity ([None]: unbounded). *)
Definition queue_full {A} (cap : option nat) (q : list A) : bool :=
  match cap with Some n => Nat.eqb (length q) n | None => false end.

Definition queue_enqueue {A} (cap : option nat) (x : A) (s : option (list A))
    : option MailboxError * option (list A) :=
  match s with
  | None => (Some ErrMailboxDisposed, None)
  | Some q => if queue_full cap q then (Some ErrMailboxFull, Some q) else (None, Some (q ++ [x]))
  end.

Definition queue_dequeue {A} (s : option (list A)) : option A * option (list A) :=
  match s with Some (x :: q) => (Some x, Some q) | s => (None, s) end.

(** A mailbox that behaves as the reference under a representation relation. *)
Class FifoMailbox (A M : Type) (cap : option nat) {ops : MailboxOps A M} := {
  fifo_repr : M → option (list A) → Prop;
  fifo_enqueue x m s : fifo_repr m s →
    (mb_enqueue x m).1 = (queue_enqueue cap x s).1 ∧ fifo_repr (mb_enqueue x m).2 (queue_enqueue cap x s).2;
  fifo_dequeue m s : fifo_repr m s →
    (mb_dequeue m).1 = (queue_dequeue s).1 ∧ fifo_repr (mb_dequeue m).2 (queue_dequeue s).2;
  fifo_isEmpty m s : fifo_repr m s → mb_isEmpty m = bool_decide (default [] s = []);
  fifo_len m s : fifo_repr m s → mb_len m = length (default [] s);
  fifo_dispose m s : fifo_repr m s → fifo_repr (mb_dispose m) None }.

(** First in first out is one of the orders the contract allows. *)
#[export] Program Instance fifo_is_mailbox {A M} cap `{F : FifoMailbox A M cap} : Mailbox A M | 10 :=
  {| mb_repr := fifo_repr |}.
Next Obligation.
  intros A M cap ops F x m q H. destruct (fifo_enqueue x m (Some q) H) as [H1 H2]. cbn [queue_enqueue] in *.
  destruct (mb_enqueue x m) as [r m']. cbn in *. destruct (queue_full cap q); cbn in *; subst r; eauto 10.
Qed.
Next Obligation.
  intros A M cap ops F x m H. destruct (fifo_enqueue x m None H) as [H1 H2].
  destruct (mb_enqueue x m) as [r m']. cbn in *. subst r. eauto.
Qed.
Next Obligation.
  intros A M cap ops F m s H Hs. destruct (fifo_dequeue m s H) as [H1 H2].
  destruct (mb_dequeue m) as [r m']. destruct s as [[|x q]|]; cbn in *; subst; [eauto|done|eauto].
Qed.
Next Obligation.
  intros A M cap ops F m q H Hs. destruct q as [|x q]; [done|]. destruct (fifo_dequeue m _ H) as [H1 H2].
  destruct (mb_dequeue m) as [r m']. cbn in *; subst. eauto 10.
Qed.
Next Obligation. intros. by apply fifo_isEmpty. Qed.
Next Obligation. intros. by apply fifo_len. Qed.
Next Obligation. intros. by eapply fifo_dispose. Qed.

(** *** Histories *)

(** The calls a mailbox serves and what each returns. *)
Inductive mailbox_call (A : Type) := CallEnqueue (x : A) | CallDequeue | CallIsEmpty | CallLen | CallDispose.
Arguments CallEnqueue {A} x.
Arguments CallDequeue {A}.
Arguments CallIsEmpty {A}.
Arguments CallLen {A}.
Arguments CallDispose {A}.

Inductive mailbox_reply (A : Type) :=
  | ReplyEnqueue (e : option MailboxError) | ReplyDequeue (x : option A)
  | ReplyBool (b : bool) | ReplyNat (n : nat) | ReplyUnit.
Arguments ReplyEnqueue {A} e.
Arguments ReplyDequeue {A} x.
Arguments ReplyBool {A} b.
Arguments ReplyNat {A} n.
Arguments ReplyUnit {A}.

Definition call_mailbox {A M} `{MailboxOps A M} (m : M) (c : mailbox_call A) : mailbox_reply A * M :=
  match c with
  | CallEnqueue x => let '(e, m) := mb_enqueue x m in (ReplyEnqueue e, m)
  | CallDequeue => let '(x, m) := mb_dequeue m in (ReplyDequeue x, m)
  | CallIsEmpty => (ReplyBool (mb_isEmpty m), m)
  | CallLen => (ReplyNat (mb_len m), m)
  | CallDispose => (ReplyUnit, mb_dispose m)
  end.

Definition call_queue {A} (cap : option nat) (s : option (list A)) (c : mailbox_call A)
    : mailbox_reply A * option (list A) :=
  match c with
  | CallEnqueue x => let '(e, s) := queue_enqueue cap x s in (ReplyEnqueue e, s)
  | CallDequeue => let '(x, s) := queue_dequeue s in (ReplyDequeue x, s)
  | CallIsEmpty => (ReplyBool (bool_decide (default [] s = [])), s)
  | CallLen => (ReplyNat (length (default [] s)), s)
  | CallDispose => (ReplyUnit, None)
  end.

Fixpoint history {S C R} (call : S → C → R * S) (s : S) (cs : list C) : list R :=
  match cs with
  | [] => []
  | c :: cs => let '(r, s) := call s c in r :: history call s cs
  end.

Lemma fifo_history {A M} cap `{FifoMailbox A M cap} (m : M) s (cs : list (mailbox_call A)) :
  fifo_repr m s → history call_mailbox m cs = history (call_queue cap) s cs.
Proof.
  revert m s. induction cs as [|c cs IH]; intros m s Hr; [done|]. cbn [history].
  destruct c as [x| | | |]; cbn [call_mailbox call_queue].
  - destruct (fifo_enqueue x m s Hr) as [H1 H2].
    destruct (mb_enqueue x m), (queue_enqueue cap x s); cbn in *; subst. by rewrite (IH _ _ H2).
  - destruct (fifo_dequeue m s Hr) as [H1 H2].
    destruct (mb_dequeue m), (queue_dequeue s); cbn in *; subst. by rewrite (IH _ _ H2).
  - by rewrite (fifo_isEmpty m s Hr), (IH _ _ Hr).
  - by rewrite (fifo_len m s Hr), (IH _ _ Hr).
  - by rewrite (IH _ _ (fifo_dispose m s Hr)).
Qed.

(** ** Rings *)

(** Linear arithmetic over the comparisons of a goal. *)
Ltac nat_cases :=
  repeat match goal with
    | |- context [Nat.ltb ?a ?b] => destruct (Nat.ltb_spec a b)
    | |- context [Nat.leb ?a ?b] => destruct (Nat.leb_spec a b)
    | |- context [Nat.eqb ?a ?b] => destruct (Nat.eqb_spec a b)
    end; lia.

(** The slot [i] places after [head] in a ring of [n] slots. *)
Definition wrap (n a : nat) : nat := if Nat.ltb a n then a else (a - n)%nat.

Lemma wrap_mod n a : (a < 2 * n)%nat → (a mod n)%nat = wrap n a.
Proof.
  intros Ha. unfold wrap. destruct (Nat.ltb_spec a n) as [H|H].
  - by apply Nat.mod_small.
  - symmetry. apply (Nat.mod_unique a n 1); lia.
Qed.

(** A mask of ones is the remainder by a power of two. *)
Lemma land_mask a k : Nat.land a (2 ^ k - 1) = (a mod 2 ^ k)%nat.
Proof.
  rewrite <-(Nat.land_ones a k). f_equal. rewrite Nat.ones_equiv. lia.
Qed.

(** The backlog [q] laid out in the ring [b] from [head]. *)
Definition ring_holds {A} (b : list (option A)) (head : nat) (q : list A) : Prop :=
  ∀ i x, q !! i = Some x → b !! wrap (length b) (head + i) = Some (Some x).

Lemma ring_push {A} (b : list (option A)) head q x :
  (head < length b)%nat → (length q < length b)%nat → ring_holds b head q →
  ring_holds (<[wrap (length b) (head + length q) := Some x]> b) head (q ++ [x]).
Proof.
  intros Hh Hq Hr i y Hy. rewrite length_insert. unfold wrap in *.
  apply lookup_app_Some in Hy as [Hy|[Hi Hy]].
  - pose proof (lookup_lt_Some _ _ _ Hy). rewrite list_lookup_insert_ne; [by apply Hr|].
    nat_cases.
  - apply list_lookup_singleton_Some in Hy as [Hi' ->]. assert (i = length q) as -> by lia.
    apply list_lookup_insert_eq. nat_cases.
Qed.

Lemma ring_pop {A} (b : list (option A)) head q x :
  (head < length b)%nat → (length q < length b)%nat → ring_holds b head (x :: q) →
  ring_holds (<[head := None]> b) (wrap (length b) (head + 1)) q.
Proof.
  intros Hh Hq Hr i y Hy. rewrite length_insert.
  pose proof (lookup_lt_Some _ _ _ Hy). specialize (Hr (S i) y Hy).
  assert (wrap (length b) (wrap (length b) (head + 1) + i) = wrap (length b) (head + S i)) as ->.
  { unfold wrap. nat_cases. }
  rewrite list_lookup_insert_ne; [done|]. unfold wrap. nat_cases.
Qed.

Lemma ring_front {A} (b : list (option A)) head q x :
  (head < length b)%nat → ring_holds b head (x :: q) → b !! head = Some (Some x).
Proof.
  intros Hh Hr. specialize (Hr 0%nat x eq_refl). unfold wrap in Hr. rewrite Nat.add_0_r in Hr.
  destruct (Nat.ltb_spec head (length b)); [done|lia].
Qed.

(** ** [BoundedMailbox] *)

Section bounded.
Context {A : Type}.

Record BoundedMailbox := MkBounded {
  bd_buffer : list (option A);
  bd_capacity : nat;
  bd_head : nat;
  bd_count : nat;
  bd_disposed : bool }.

(** The constructor; a capacity that is not an integer is outside the model. *)
Definition new_BoundedMailbox (capacity : Z) : result BoundedMailbox :=
  if capacity <=? 0 then Throw (RangeError "mailbox capacity must be a positive integer")
  else Ok (MkBounded (replicate (Z.to_nat capacity) None) (Z.to_nat capacity) 0 0 false).

Definition bd_enqueue (msg : A) (m : BoundedMailbox) : option MailboxError * BoundedMailbox :=
  if bd_disposed m then (Some ErrMailboxDisposed, m)
  else if Nat.eqb (bd_count m) (bd_capacity m) then (Some ErrMailboxFull, m)
  else
    let write := (bd_head m + bd_count m)%nat in
    let write := if Nat.leb (bd_capacity m) write then (write - bd_capacity m)%nat else write in
    (None, MkBounded (<[write := Some msg]> (bd_buffer m)) (bd_capacity m) (bd_head m) (S (bd_count m)) false).

Definition bd_dequeue (m : BoundedMailbox) : option A * BoundedMailbox :=
  if Nat.eqb (bd_count m) 0 then (None, m)
  else
    let msg := mjoin (bd_buffer m !! bd_head m) in
    let head := S (bd_head m) in
    let head := if Nat.eqb head (bd_capacity m) then 0%nat else head in
    (msg, MkBounded (<[bd_head m := None]> (bd_buffer m)) (bd_capacity m) head (bd_count m - 1) (bd_disposed m)).

Definition bd_dispose (m : BoundedMailbox) : BoundedMailbox :=
  MkBounded (replicate (length (bd_buffer m)) None) (bd_capacity m) 0 0 true.

#[export] Instance bounded_ops : MailboxOps A BoundedMailbox := {|
  mb_enqueue := bd_enqueue;
  mb_dequeue := bd_dequeue;
  mb_isEmpty m := Nat.eqb (bd_count m) 0;
  mb_len := bd_count;
  mb_dispose := bd_dispose |}.

Definition bd_repr (cap : nat) (m : BoundedMailbox) (s : option (list A)) : Prop :=
  bd_capacity m = cap ∧ length (bd_buffer m) = cap ∧ (bd_head m < cap)%nat
  ∧ bd_disposed m = bool_decide (s = None)
  ∧ bd_count m = length (default [] s) ∧ (bd_count m ≤ cap)%nat
  ∧ ring_holds (bd_buffer m) (bd_head m) (default [] s).

#[export] Program Instance bounded_fifo cap : FifoMailbox A BoundedMailbox (Some cap) := {| fifo_repr := bd_repr cap |}.
Next Obligation.
  intros cap x [b c h n d] s (Hc & Hl & Hh & Hd & Hn & Hle & Hr). cbn in *. subst c d n. unfold bd_enqueue. cbn.
  destruct s as [q|]; cbn in *; [|by split_and!]. unfold queue_full.
  destruct (Nat.eqb_spec (length q) cap) as [E|E]; cbn; [by split_and!|].
  split; [done|]. pose proof (ring_push b h q x ltac:(lia) ltac:(lia) Hr) as Hp.
  assert (wrap (length b) (h + length q) = if (cap <=? h + length q)%nat then (h + length q - cap)%nat else (h + length q)%nat) as Hw.
  { unfold wrap. nat_cases. }
  rewrite Hw in Hp. unfold bd_repr. cbn. rewrite length_insert, length_app. cbn. split_and!; done || lia.
Qed.
Next Obligation.
  intros cap [b c h n d] s (Hc & Hl & Hh & Hd & Hn & Hle & Hr). cbn in *. subst c d n. unfold bd_dequeue. cbn.
  destruct s as [[|x q]|]; cbn in *; [by split_and!| |by split_and!].
  rewrite (ring_front b h q x) by (done || lia). split; [done|]. destruct cap as [|cap]; [lia|].
  pose proof (ring_pop b h q x ltac:(lia) ltac:(lia) Hr) as Hp.
  assert (wrap (length b) (h + 1) = if (h =? cap)%nat then 0%nat else S h) as Hw by (unfold wrap; nat_cases).
  rewrite Hw in Hp. unfold bd_repr. cbn. rewrite length_insert, Nat.sub_0_r. split_and!; try done; [nat_cases|lia].
Qed.
Next Obligation.
  intros cap m s (_ & _ & _ & _ & Hn & _). cbn. rewrite Hn. by destruct (default [] s).
Qed.
Next Obligation. by intros cap m s (_ & _ & _ & _ & Hn & _). Qed.
Next Obligation.
  intros cap m s (Hc & Hl & Hh & _). unfold bd_repr. cbn. rewrite length_replicate. split_and!; try done; lia.
Qed.

Lemma new_BoundedMailbox_repr capacity m :
  new_BoundedMailbox capacity = Ok m → bd_repr (Z.to_nat capacity) m (Some []) ∧ 0 < capacity.
Proof.
  unfold new_BoundedMailbox. destruct (Z.leb_spec capacity 0) as [|Hc]; [done|]. intros [= <-].
  split; [|done]. unfold bd_repr. cbn. rewrite length_replicate. split_and!; try done; lia.
Qed.
End bounded.
Arguments BoundedMailbox A : clear implicits.

#[local] Arguments Nat.land : simpl never.

(** ** [UnboundedMailbox] *)

Section unbounded.
Context {A : Type}.

Definition RELEASE_CAPACITY : nat := 64.

Record UnboundedMailbox := MkUnbounded {
  ub_buffer : option (list (option A));
  ub_mask : nat;
  ub_head : nat;
  ub_size : nat;
  ub_disposed : bool;
  ub_drained : bool }.

Definition new_UnboundedMailbox : UnboundedMailbox := MkUnbounded None 0 0 0 false false.

(** [grow]: the copying loop over the slots of the backlog.  [&] is [Nat.land]: the mask
    is below [2^31], so the 32-bit conversion of the index does not change the result. *)
Definition ub_grow (m : UnboundedMailbox) : UnboundedMailbox :=
  let old := default [] (ub_buffer m) in
  let next := foldl (λ next i, <[i := default None (old !! Nat.land (ub_head m + i) (ub_mask m))]> next)
                (replicate (length old * 2) None) (seq 0 (ub_size m)) in
  MkUnbounded (Some next) (length next - 1) 0 (ub_size m) (ub_disposed m) (ub_drained m).

Definition ub_enqueue (msg : A) (m : UnboundedMailbox) : option MailboxError * UnboundedMailbox :=
  if ub_disposed m then (Some ErrMailboxDisposed, m)
  else
    let m := match ub_buffer m with
             | None => MkUnbounded (Some [None]) 0 (ub_head m) (ub_size m) false (ub_drained m)
             | Some b => if Nat.eqb (ub_size m) (length b) then ub_grow m else m
             end in
    let b := default [] (ub_buffer m) in
    (None, MkUnbounded (Some (<[Nat.land (ub_head m + ub_size m) (ub_mask m) := Some msg]> b))
             (ub_mask m) (ub_head m) (S (ub_size m)) (ub_disposed m) (ub_drained m)).

(** The tail of [dequeue] on a ring that has just drained. *)
Definition ub_release (m : UnboundedMailbox) : UnboundedMailbox :=
  if ub_drained m then MkUnbounded (ub_buffer m) (ub_mask m) 0 (ub_size m) (ub_disposed m) true
  else if Nat.leb (length (default [] (ub_buffer m))) RELEASE_CAPACITY
       then MkUnbounded None 0 0 (ub_size m) (ub_disposed m) true
       else MkUnbounded (ub_buffer m) (ub_mask m) 0 (ub_size m) (ub_disposed m) true.

Definition ub_dequeue (m : UnboundedMailbox) : option A * UnboundedMailbox :=
  match ub_buffer m with
  | Some b =>
      if Nat.eqb (ub_size m) 0 then (None, m)
      else
        let i := ub_head m in
        let msg := mjoin (b !! i) in
        let m := MkUnbounded (Some (<[i := None]> b)) (ub_mask m) (Nat.land (i + 1) (ub_mask m))
                   (ub_size m - 1) (ub_disposed m) (ub_drained m) in
        (msg, if Nat.eqb (ub_size m) 0 then ub_release m else m)
  | None => (None, m)
  end.

Definition ub_dispose (m : UnboundedMailbox) : UnboundedMailbox :=
  MkUnbounded None 0 0 0 true (ub_drained m).

#[export] Instance unbounded_ops : MailboxOps A UnboundedMailbox := {|
  mb_enqueue := ub_enqueue;
  mb_dequeue := ub_dequeue;
  mb_isEmpty m := Nat.eqb (ub_size m) 0;
  mb_len := ub_size;
  mb_dispose := ub_dispose |}.

(** A ring is a power of two long and its mask is one less. *)
Definition ub_ring (b : list (option A)) (mask head : nat) (q : list A) : Prop :=
  (∃ k, length b = 2 ^ k)%nat ∧ mask = (length b - 1)%nat ∧ (head < length b)%nat
  ∧ (length q ≤ length b)%nat ∧ ring_holds b head q.

Definition ub_repr (m : UnboundedMailbox) (s : option (list A)) : Prop :=
  ub_disposed m = bool_decide (s = None) ∧ ub_size m = length (default [] s)
  ∧ match ub_buffer m with
    | Some b => is_Some s ∧ ub_ring b (ub_mask m) (ub_head m) (default [] s)
    | None => default [] s = [] ∧ ub_head m = 0%nat ∧ ub_mask m = 0%nat
    end.

Lemma ub_land b mask head q i :
  ub_ring b mask head q → (i ≤ length b)%nat → Nat.land (head + i) mask = wrap (length b) (head + i).
Proof.
  intros ((k & Hk) & -> & Hh & _) Hi. rewrite <-wrap_mod by lia. rewrite Hk. apply land_mask.
Qed.

Lemma foldl_insert_seq {B} (f : nat → B) l n :
  (n ≤ length l)%nat → foldl (λ l i, <[i := f i]> l) l (seq 0 n) = (f <$> seq 0 n) ++ drop n l.
Proof.
  induction n as [|n IH]; intros Hn; [done|].
  rewrite seq_S, foldl_app, IH, fmap_app by lia. cbn.
  assert (∃ x, l !! n = Some x) as [x Hx] by (apply lookup_lt_is_Some; lia).
  rewrite (drop_S l x n Hx). rewrite insert_app_r_alt by (rewrite length_fmap, length_seq; lia).
  rewrite length_fmap, length_seq, Nat.sub_diag. cbn. by rewrite <-app_assoc.
Qed.

(** Growing keeps the backlog, unrolled from slot 0, and doubles the ring. *)
Lemma ub_grow_repr b mask head q d dr :
  ub_ring b mask head q → length q = length b → 
  ∃ b', ub_grow (MkUnbounded (Some b) mask head (length q) d dr) = MkUnbounded (Some b') (length b' - 1) 0 (length q) d dr
    ∧ ub_ring b' (length b' - 1) 0 q ∧ length b' = (2 * length b)%nat.
Proof.
  intros Hring Hq. pose proof Hring as ((k & Hk) & Hm & Hh & Hle & Hr).
  unfold ub_grow. cbn [ub_buffer from_option id ub_head ub_mask ub_size ub_disposed ub_drained].
  rewrite (foldl_insert_seq (λ i, default None (b !! Nat.land (head + i) mask))) by (rewrite length_replicate; lia).
  set (b' := _ ++ _). assert (length b' = 2 * length b)%nat as Hl.
  { unfold b'. rewrite length_app, length_fmap, length_seq, length_drop, length_replicate. lia. }
  exists b'. split; [done|]. split; [|done]. split; [exists (S k); cbn; lia|]. split; [done|].
  split; [pose proof (Nat.pow_nonzero 2 k); lia|]. split; [lia|].
  intros i x Hi. pose proof (lookup_lt_Some _ _ _ Hi). cbn [Nat.add]. unfold wrap. rewrite (proj2 (Nat.ltb_lt _ _)) by lia.
  unfold b'. rewrite lookup_app_l by (rewrite length_fmap, length_seq; lia).
  rewrite list_lookup_fmap, lookup_seq_lt by lia. cbn. rewrite (ub_land b mask head q) by (done || lia).
  by rewrite (Hr i x Hi).
Qed.

Lemma ub_push_ring b mask head q x :
  ub_ring b mask head q → (length q < length b)%nat →
  ub_ring (<[Nat.land (head + length q) mask := Some x]> b) mask head (q ++ [x]).
Proof.
  intros Hring Hlt. rewrite (ub_land b mask head q) by (done || lia). destruct Hring as (Hk & Hm & Hh & Hle & Hr).
  unfold ub_ring. rewrite length_insert, length_app. cbn. split_and!; try done; [lia|]. by apply ring_push.
Qed.

#[export] Program Instance unbounded_fifo : FifoMailbox A UnboundedMailbox None := {| fifo_repr := ub_repr |}.
Next Obligation.
  intros x [b mask head n d dr] s (Hd & Hn & Hb). cbn in *. subst d n. unfold ub_enqueue. cbn.
  destruct s as [q|]; cbn in *; [|by split_and!]. split; [done|]. unfold ub_repr. cbn.
  rewrite length_app. cbn. split; [by destruct b as [b|]; [destruct (Nat.eqb _ _)|]|].
  destruct b as [b|].
  - destruct Hb as [_ Hring]. destruct (Nat.eqb_spec (length q) (length b)) as [E|E].
    + destruct (ub_grow_repr b mask head q false dr Hring E) as (b' & -> & Hring' & Hl). cbn.
      assert (length b ≠ 0)%nat by (destruct Hring as (_ & _ & ? & _); lia).
      split; [lia|]. split; [done|]. apply (ub_push_ring b' _ 0 q x); [done|lia].
    + cbn. split; [lia|]. split; [done|]. apply ub_push_ring; [done|]. destruct Hring as (_ & _ & _ & ? & _). lia.
  - destruct Hb as (-> & -> & ->). cbn. split; [done|]. split; [done|].
    apply (ub_push_ring [None] 0 0 [] x); [|cbn; lia]. split; [by exists 0%nat|]. cbn. split_and!; try lia. done.
Qed.
Next Obligation.
  intros [b mask head n d dr] s (Hd & Hn & Hb). cbn in *. subst d n. unfold ub_dequeue. cbn.
  destruct b as [b|].
  2: { destruct Hb as (Hs & -> & ->). destruct s as [[|]|]; cbn in *; try done; (split; [done|]); by split_and!. }
  destruct Hb as [[q ->] Hring]. cbn. destruct q as [|x q]; cbn in *; [split; [done|]; by split_and!|].
  pose proof Hring as (Hk & Hm & Hh & Hle & Hr). cbn in Hle. rewrite (ring_front b head q x Hh Hr). split; [done|].
  pose proof (ring_pop b head q x Hh ltac:(lia) Hr) as Hp.
  assert (ub_ring (<[head:=None]> b) mask (Nat.land (head + 1) mask) q) as Hring'.
  { rewrite (ub_land b mask head (x :: q)) by (done || lia). unfold ub_ring. rewrite length_insert.
    split_and!; try done; [unfold wrap; nat_cases|lia]. }
  rewrite Nat.sub_0_r. destruct q as [|y q]; cbn.
  - destruct Hring' as (Hk' & Hm' & _). rewrite length_insert in Hk', Hm'.
    assert (ub_ring (<[head:=None]> b) mask 0 []) as Hz.
    { split; [by rewrite length_insert|]. rewrite length_insert. cbn. split_and!; [done|lia|lia|done]. }
    unfold ub_release. cbn. destruct dr; [by split_and!|]. destruct (Nat.leb _ _); by split_and!.
  - by split_and!.
Qed.
Next Obligation. intros m s (_ & Hn & _). cbn. rewrite Hn. by destruct (default [] s). Qed.
Next Obligation. by intros m s (_ & Hn & _). Qed.
Next Obligation. intros m s _. by split_and!. Qed.

Lemma new_UnboundedMailbox_repr : ub_repr new_UnboundedMailbox (Some []).
Proof. by split_and!. Qed.
End unbounded.
Arguments UnboundedMailbox A : clear implicits.
