(* ===== verification/SegmentedMailbox.v ===== *)
(** * [UnboundedSegmentedMailbox] ([segmented.mailbox.ts])

    Segments are objects the mailbox shares between its list, its tail and its spare, so
    the model keeps them in a store by identity and links them by [seg_next]; the
    representation predicate walks the links.  The mailbox is an instance of the
    first-in first-out contract. *)
From S2P Require Import Prelude Mailbox.

Definition SEGMENT_SIZE : nat := 256.

#[local] Arguments SEGMENT_SIZE : simpl never.

Section segmented.
Context {A : Type}.

Record Segment := MkSegment {
  seg_data : list (option A);
  seg_read : nat;
  seg_write : nat;
  seg_next : option nat }.

Definition new_Segment : Segment := MkSegment (replicate SEGMENT_SIZE None) 0 0 None.

(** [sg_fresh] is the identity the next allocation takes. *)
Record SegmentedMailbox := MkSegmented {
  sg_store : gmap nat Segment;
  sg_fresh : nat;
  sg_head : nat;
  sg_tail : nat;
  sg_spare : option nat;
  sg_size : nat;
  sg_disposed : bool }.

Definition new_SegmentedMailbox : SegmentedMailbox :=
  MkSegmented {[ 0%nat := new_Segment ]} 1 0 0 None 0 false.

(** The object a reference designates. *)
Definition seg_at (m : SegmentedMailbox) (l : nat) : Segment := default new_Segment (sg_store m !! l).

Definition seg_put (m : SegmentedMailbox) (l : nat) (s : Segment) : SegmentedMailbox :=
  MkSegmented (<[l := s]> (sg_store m)) (sg_fresh m) (sg_head m) (sg_tail m) (sg_spare m) (sg_size m) (sg_disposed m).

(** [this.spare ?? new Segment()], linked behind a full tail. *)
Definition sg_extend (m : SegmentedMailbox) : SegmentedMailbox :=
  let '(seg, m) :=
    match sg_spare m with
    | Some l => (l, m)
    | None => (sg_fresh m,
               MkSegmented (<[sg_fresh m := new_Segment]> (sg_store m)) (S (sg_fresh m)) (sg_head m) (sg_tail m)
                 None (sg_size m) (sg_disposed m))
    end in
  let tail := seg_at m (sg_tail m) in
  let m := seg_put m (sg_tail m) (MkSegment (seg_data tail) (seg_read tail) (seg_write tail) (Some seg)) in
  MkSegmented (sg_store m) (sg_fresh m) (sg_head m) seg None (sg_size m) (sg_disposed m).

Definition sg_enqueue (msg : A) (m : SegmentedMailbox) : option MailboxError * SegmentedMailbox :=
  if sg_disposed m then (Some ErrMailboxDisposed, m)
  else
    let m := if Nat.eqb (seg_write (seg_at m (sg_tail m))) SEGMENT_SIZE then sg_extend m else m in
    let tail := seg_at m (sg_tail m) in
    let m := seg_put m (sg_tail m)
               (MkSegment (<[seg_write tail := Some msg]> (seg_data tail)) (seg_read tail) (S (seg_write tail)) (seg_next tail)) in
    (None, MkSegmented (sg_store m) (sg_fresh m) (sg_head m) (sg_tail m) (sg_spare m) (S (sg_size m)) false).

(** The loop of [dequeue]: skip and recycle drained segments.  The list has no cycle, so
    the number of segments is fuel enough. *)
Fixpoint sg_advance (fuel : nat) (m : SegmentedMailbox) (seg : nat) : option nat * SegmentedMailbox :=
  match fuel with
  | O => (None, m)
  | S fuel =>
      let s := seg_at m seg in
      if Nat.eqb (seg_read s) (seg_write s) then
        match seg_next s with
        | None => (None, m)
        | Some next =>
            let m := seg_put m seg (MkSegment (seg_data s) 0 0 None) in
            let spare := match sg_spare m with Some l => Some l | None => Some seg end in
            sg_advance fuel (MkSegmented (sg_store m) (sg_fresh m) next (sg_tail m) spare (sg_size m) (sg_disposed m)) next
        end
      else (Some seg, m)
  end.

Definition sg_dequeue (m : SegmentedMailbox) : option A * SegmentedMailbox :=
  match sg_advance (size (sg_store m)) m (sg_head m) with
  | (None, m) => (None, m)
  | (Some seg, m) =>
      let s := seg_at m seg in
      let msg := mjoin (seg_data s !! seg_read s) in
      let s := MkSegment (<[seg_read s := None]> (seg_data s)) (S (seg_read s)) (seg_write s) (seg_next s) in
      let s := if Nat.eqb (seg_read s) (seg_write s) && Nat.eqb seg (sg_tail m)
               then MkSegment (seg_data s) 0 0 (seg_next s) else s in
      let m := seg_put m seg s in
      (msg, MkSegmented (sg_store m) (sg_fresh m) (sg_head m) (sg_tail m) (sg_spare m) (sg_size m - 1) (sg_disposed m))
  end.

Definition sg_dispose (m : SegmentedMailbox) : SegmentedMailbox :=
  MkSegmented (<[sg_fresh m := new_Segment]> (sg_store m)) (S (sg_fresh m)) (sg_fresh m) (sg_fresh m) None 0 true.

#[export] Instance segmented_ops : MailboxOps A SegmentedMailbox := {|
  mb_enqueue := sg_enqueue;
  mb_dequeue := sg_dequeue;
  mb_isEmpty m := Nat.eqb (sg_size m) 0;
  mb_len := sg_size;
  mb_dispose := sg_dispose |}.

(** ** Representation *)

(** The messages of one segment. *)
Definition seg_holds (s : Segment) (q : list A) : Prop :=
  length (seg_data s) = SEGMENT_SIZE ∧ (seg_write s ≤ SEGMENT_SIZE)%nat ∧ seg_write s = (seg_read s + length q)%nat
  ∧ ∀ i x, q !! i = Some x → seg_data s !! (seg_read s + i)%nat = Some (Some x).

(** The segments from [l] to [t], the messages in them, and their identities. *)
Inductive chain (st : gmap nat Segment) : nat → nat → list A → list nat → Prop :=
  | chain_last l s q : st !! l = Some s → seg_next s = None → seg_holds s q → chain st l l q [l]
  | chain_link l s q l' t q' ls :
      st !! l = Some s → seg_next s = Some l' → seg_holds s q → l ∉ ls →
      chain st l' t q' ls → chain st l t (q ++ q') (l :: ls).

Definition spare_ok (st : gmap nat Segment) (ls : list nat) (spare : option nat) : Prop :=
  match spare with
  | Some l => (l ∉ ls) ∧ ∃ s, st !! l = Some s ∧ seg_holds s [] ∧ seg_read s = 0%nat ∧ seg_next s = None
  | None => True
  end.

Definition sg_core (m : SegmentedMailbox) (q : list A) : Prop :=
  (∀ l, is_Some (sg_store m !! l) → (l < sg_fresh m)%nat)
  ∧ ∃ ls, chain (sg_store m) (sg_head m) (sg_tail m) q ls ∧ spare_ok (sg_store m) ls (sg_spare m).

Definition sg_repr (m : SegmentedMailbox) (s : option (list A)) : Prop :=
  sg_disposed m = bool_decide (s = None) ∧ sg_size m = length (default [] s) ∧ sg_core m (default [] s).

Lemma new_Segment_holds : seg_holds new_Segment [].
Proof. split; [apply length_replicate|]. cbn. split; [lia|]. by split. Qed.

Lemma chain_ends st l t q ls : chain st l t q ls → l ∈ ls ∧ t ∈ ls.
Proof. induction 1 as [l s q|l s q l' t q' ls _ _ _ _ _ [_ IH]]; set_solver. Qed.

Lemma chain_elem st l t q ls k : chain st l t q ls → k ∈ ls → is_Some (st !! k).
Proof.
  induction 1 as [l s q Hl|l s q l' t q' ls Hl _ _ _ _ IH]; rewrite elem_of_cons; intros [->|Hk]; eauto.
  by apply elem_of_nil in Hk.
Qed.

Lemma chain_NoDup st l t q ls : chain st l t q ls → NoDup ls.
Proof. induction 1; [apply NoDup_singleton|by constructor]. Qed.

Lemma chain_frame st l t q ls k s : chain st l t q ls → k ∉ ls → chain (<[k := s]> st) l t q ls.
Proof.
  induction 1 as [l s' q Hl Hn Hs|l s' q l' t q' ls Hl Hn Hs Hni Hc IH]; intros Hk; apply not_elem_of_cons in Hk as [Hk Hks].
  - econstructor; [by rewrite lookup_insert_ne|done..].
  - econstructor; [by rewrite lookup_insert_ne|done..|by apply IH].
Qed.

(** The identities of a chain are distinct keys of the store. *)
Lemma chain_size st l t q ls : chain st l t q ls → (length ls ≤ size st)%nat.
Proof.
  intros Hc. rewrite <-(size_dom st), <-(size_list_to_set (C := gset nat) ls) by (by eapply chain_NoDup).
  apply subseteq_size. intros k Hk%elem_of_list_to_set. apply elem_of_dom. by eapply chain_elem.
Qed.

(** The message written to the tail joins the end of the backlog. *)
Lemma chain_push st l t q ls s x :
  chain st l t q ls → st !! t = Some s → seg_write s ≠ SEGMENT_SIZE →
  chain (<[t := MkSegment (<[seg_write s := Some x]> (seg_data s)) (seg_read s) (S (seg_write s)) (seg_next s)]> st)
    l t (q ++ [x]) ls.
Proof.
  induction 1 as [l s' q Hl Hn Hs|l s' q l' t q' ls Hl Hn Hs Hni Hc IH]; intros Ht Hw; simplify_eq.
  - econstructor; [by rewrite lookup_insert_eq|done|]. destruct Hs as (Hlen & Hle & Hwr & Hq).
    unfold seg_holds. cbn. rewrite length_insert, length_app. cbn. split_and!; [done|lia|lia|].
    intros i y [Hy|[Hi Hy]]%lookup_app_Some.
    + pose proof (lookup_lt_Some _ _ _ Hy). rewrite list_lookup_insert_ne by lia. by apply Hq.
    + apply list_lookup_singleton_Some in Hy as [Hi' ->].
      assert (seg_read s' + i = seg_write s')%nat as -> by lia. apply list_lookup_insert_eq. lia.
  - rewrite <-app_assoc. destruct (chain_ends _ _ _ _ _ Hc) as [_ Hin].
    econstructor; [rewrite lookup_insert_ne; [done|set_solver]|done..|by apply IH].
Qed.

(** A fresh empty segment linked behind the tail holds nothing yet. *)
Lemma chain_extend st l t q ls s n s' :
  chain st l t q ls → st !! t = Some s → n ∉ ls → st !! n = Some s' → seg_holds s' [] → seg_next s' = None →
  chain (<[t := MkSegment (seg_data s) (seg_read s) (seg_write s) (Some n)]> st) l n q (ls ++ [n]).
Proof.
  intros Hc Ht Hn Hs' Hh Hnx. induction Hc as [l s1 q Hl Hn1 Hs|l s1 q l' t q' ls Hl Hn1 Hs Hni Hc IH]; simplify_eq.
  - rewrite <-(app_nil_r q). apply not_elem_of_cons in Hn as [Hn _].
    eapply (chain_link _ l _ q n n [] [n]); [by rewrite lookup_insert_eq|done|done|set_solver|].
    econstructor; [by rewrite lookup_insert_ne|done..].
  - destruct (chain_ends _ _ _ _ _ Hc) as [_ Hin]. apply not_elem_of_cons in Hn as [Hn Hns]. cbn.
    econstructor; [rewrite lookup_insert_ne; [done|set_solver]|done|done|set_solver|by apply IH].
Qed.

(** Taking the first message, and rewinding the tail when it drains. *)
Lemma chain_pop st l t q ls s :
  chain st l t q ls → st !! l = Some s → seg_read s ≠ seg_write s →
  let s1 := MkSegment (<[seg_read s := None]> (seg_data s)) (S (seg_read s)) (seg_write s) (seg_next s) in
  let s2 := if Nat.eqb (seg_read s1) (seg_write s1) && Nat.eqb l t
            then MkSegment (seg_data s1) 0 0 (seg_next s1) else s1 in
  ∃ x q', q = x :: q' ∧ mjoin (seg_data s !! seg_read s) = Some x ∧ chain (<[l := s2]> st) l t q' ls.
Proof.
  assert (∀ s q, seg_holds s q → seg_read s ≠ seg_write s →
    ∃ x q', q = x :: q' ∧ mjoin (seg_data s !! seg_read s) = Some x
      ∧ seg_holds (MkSegment (<[seg_read s := None]> (seg_data s)) (S (seg_read s)) (seg_write s) (seg_next s)) q') as Hpop.
  { clear. intros s q (Hlen & Hle & Hwr & Hq) Hne. destruct q as [|x q]; cbn in Hwr; [lia|]. exists x, q.
    pose proof (Hq 0%nat x eq_refl) as Hx. rewrite Nat.add_0_r in Hx. rewrite Hx. split; [done|]. split; [done|].
    unfold seg_holds. cbn. rewrite length_insert. split_and!; [done|done|lia|]. intros i y Hy.
    rewrite list_lookup_insert_ne by lia. rewrite <-Nat.add_succ_r. by apply Hq. }
  intros Hc Hl Hne s1 s2. inversion Hc as [l0 s0 q0 Hl0 Hn Hs|l0 s0 q0 l' t0 q' ls' Hl0 Hn Hs Hni Hc']; simplify_eq.
  - destruct (Hpop s q Hs Hne) as (x & q' & -> & Hx & Hh). exists x, q'. split; [done|]. split; [done|].
    econstructor; [by rewrite lookup_insert_eq|unfold s2, s1; by destruct (_ && _)|].
    unfold s2. rewrite Nat.eqb_refl, andb_true_r. destruct (Nat.eqb_spec (seg_read s1) (seg_write s1)) as [E|E]; [|done].
    destruct Hh as (Hlen & Hle & Hwr & _). cbn in *. assert (q' = []) as -> by (destruct q'; [done|cbn in *; lia]).
    unfold seg_holds. cbn. split_and!; try done. lia.
  - destruct (Hpop s q0 Hs Hne) as (x & q1 & -> & Hx & Hh). exists x, (q1 ++ q'). split; [done|]. split; [done|].
    destruct (chain_ends _ _ _ _ _ Hc') as [_ Hin].
    assert (s2 = s1) as -> by (unfold s2; rewrite (proj2 (Nat.eqb_neq l t)), andb_false_r by set_solver; done).
    econstructor; [by rewrite lookup_insert_eq|done..|by apply chain_frame].
Qed.

(** Skipping drained segments keeps the backlog and stops at the first message. *)
Lemma sg_advance_spec fuel m q ls :
  (∀ l, is_Some (sg_store m !! l) → (l < sg_fresh m)%nat) →
  chain (sg_store m) (sg_head m) (sg_tail m) q ls → spare_ok (sg_store m) ls (sg_spare m) → (length ls ≤ fuel)%nat →
  ∃ r m', sg_advance fuel m (sg_head m) = (r, m') ∧ sg_core m' q ∧ sg_size m' = sg_size m
    ∧ sg_disposed m' = sg_disposed m
    ∧ match r with
      | None => q = []
      | Some l => l = sg_head m' ∧ seg_read (seg_at m' l) ≠ seg_write (seg_at m' l)
      end.
Proof.
  revert m q ls. induction fuel as [|fuel IH]; intros m q ls Hf Hc Hsp Hlen.
  { destruct (chain_ends _ _ _ _ _ Hc) as [Hin _]. destruct ls; [by apply elem_of_nil in Hin|cbn in Hlen; lia]. }
  assert (sg_core m q) as Hcore by (split; [done|by exists ls]).
  cbn [sg_advance]. assert (∃ s, sg_store m !! sg_head m = Some s) as [s Hs]
    by (eapply chain_elem; [done|apply (chain_ends _ _ _ _ _ Hc)]).
  assert (seg_at m (sg_head m) = s) as Hat by (unfold seg_at; by rewrite Hs). cbv zeta. rewrite Hat.
  destruct (Nat.eqb_spec (seg_read s) (seg_write s)) as [E|E].
  2: { eexists _, m. split; [done|]. split_and!; try done. by rewrite Hat. }
  inversion Hc as [l0 s0 q0 Hl0 Hn Hh|l0 s0 q0 l' t0 q' ls' Hl0 Hn Hh Hni Hc']; simplify_eq.
  - rewrite Hn. eexists _, m. split; [done|]. split_and!; try done. destruct Hh as (_ & _ & Hwr & _).
    destruct q; [done|cbn in *; lia].
  - rewrite Hn. destruct Hh as (Hl & _ & Hwr & _). assert (q0 = []) as -> by (destruct q0; [done|cbn in *; lia]).
    set (m1 := MkSegmented _ _ _ _ _ _ _).
    destruct (IH m1 q' ls') as (r & m' & E1 & H1 & H2 & H3 & H4).
    + cbn. intros k [<-|[_ Hk]]%lookup_insert_is_Some; eauto.
    + cbn. by apply chain_frame.
    + cbn. destruct (sg_spare m) as [sp|]; cbn in *.
      * destruct Hsp as [Hni' Hsp]. apply not_elem_of_cons in Hni' as [Hne Hni']. split; [done|]. by rewrite lookup_insert_ne.
      * split; [done|]. rewrite lookup_insert_eq. eexists. split; [done|]. split; [|done]. unfold seg_holds. cbn. split_and!; try done. lia.
    + cbn in Hlen. lia.
    + exists r, m'. split; [done|]. by split_and!.
Qed.

(** A full tail gets an empty segment behind it. *)
Lemma sg_extend_core m q :
  sg_core m q → sg_core (sg_extend m) q ∧ seg_write (seg_at (sg_extend m) (sg_tail (sg_extend m))) ≠ SEGMENT_SIZE.
Proof.
  intros (Hf & ls & Hc & Hsp).
  assert (∃ s, sg_store m !! sg_tail m = Some s) as [s Hs]
    by (eapply chain_elem; [done|apply (chain_ends _ _ _ _ _ Hc)]).
  assert (∀ l, l ∈ ls → (l < sg_fresh m)%nat) as Hls by (intros l Hl; apply Hf; by eapply chain_elem).
  destruct (chain_ends _ _ _ _ _ Hc) as [_ Hin].
  unfold sg_extend. destruct (sg_spare m) as [sp|] eqn:Esp; cbn in Hsp.
  - destruct Hsp as (Hni & s' & Hs' & Hh & Hr & Hnx).
    assert (sg_tail m ≠ sp) by set_solver. unfold seg_at. rewrite Hs. cbn. split.
    + split.
      * cbn. intros k [<-|[_ Hk]]%lookup_insert_is_Some; eauto.
      * exists (ls ++ [sp]). cbn. split; [|done]. by eapply chain_extend.
    + rewrite lookup_insert_ne, Hs' by done. cbn. destruct Hh as (_ & _ & -> & _). rewrite Hr. done.
  - unfold seg_at. cbn. assert (sg_fresh m ≠ sg_tail m) by (specialize (Hls _ Hin); lia).
    rewrite (lookup_insert_ne _ (sg_fresh m) (sg_tail m)), Hs by done. cbn. split.
    + split.
      * cbn. intros k [<-|[_ [<-|[_ Hk]]%lookup_insert_is_Some]]%lookup_insert_is_Some; [|lia|].
        -- specialize (Hls _ Hin). lia.
        -- specialize (Hf _ Hk). lia.
      * exists (ls ++ [sg_fresh m]). cbn. split; [|done].
        assert (sg_fresh m ∉ ls) as Hfr by (intros Hfr%Hls; lia).
        eapply chain_extend; [by apply chain_frame|by rewrite lookup_insert_ne|done|by rewrite lookup_insert_eq|apply new_Segment_holds|done].
    + rewrite lookup_insert_ne, lookup_insert_eq by done. done.
Qed.

#[export] Program Instance segmented_fifo : FifoMailbox A SegmentedMailbox None := {| fifo_repr := sg_repr |}.
Next Obligation.
  intros x m s (Hd & Hn & Hcore). cbn. unfold sg_enqueue. rewrite Hd. destruct s as [q|]; cbn in *; [|by split_and!].
  set (m1 := if Nat.eqb _ _ then _ else _).
  assert (sg_core m1 q ∧ seg_write (seg_at m1 (sg_tail m1)) ≠ SEGMENT_SIZE) as ((Hf & ls & Hc & Hsp) & Hw).
  { unfold m1. destruct (Nat.eqb_spec (seg_write (seg_at m (sg_tail m))) SEGMENT_SIZE); [by apply sg_extend_core|done]. }
  assert (sg_size m1 = length q) as Hsz.
  { unfold m1, sg_extend. destruct (Nat.eqb _ _); [|done]. by destruct (sg_spare m). }
  split; [done|]. unfold sg_repr. cbn. rewrite length_app, Hsz. cbn. split; [done|]. split; [lia|].
  destruct (chain_ends _ _ _ _ _ Hc) as [_ Hin].
  assert (∃ s, sg_store m1 !! sg_tail m1 = Some s) as [s Hs] by (by eapply chain_elem).
  unfold seg_at in *. rewrite Hs in *. cbn in *. split.
  - cbn. intros k [<-|[_ Hk]]%lookup_insert_is_Some; eauto.
  - exists ls. cbn. split; [by apply chain_push|]. destruct (sg_spare m1) as [sp|]; cbn in *; [|done].
    destruct Hsp as [Hni Hsp]. split; [done|]. rewrite lookup_insert_ne; [done|set_solver].
Qed.
Next Obligation.
  intros m s (Hd & Hn & Hf & ls & Hc & Hsp). cbn. unfold sg_dequeue.
  destruct (sg_advance_spec (size (sg_store m)) m _ ls Hf Hc Hsp) as (r & m' & -> & (Hf' & ls' & Hc' & Hsp') & Hs' & Hd' & Hr).
  { by eapply chain_size. }
  rewrite <-Hd' in Hd. rewrite <-Hs' in Hn. destruct r as [l|].
  2: { destruct s as [[|]|]; cbn in *; try done; (split; [done|]); split_and!; try done; (split; [done|by exists ls']). }
  destruct Hr as [-> Hne]. destruct (chain_ends _ _ _ _ _ Hc') as [Hin _].
  assert (∃ s, sg_store m' !! sg_head m' = Some s) as [sg Hs] by (by eapply chain_elem).
  assert (seg_at m' (sg_head m') = sg) as Hat by (unfold seg_at; by rewrite Hs). cbv zeta. rewrite Hat in *.
  destruct (chain_pop _ _ _ _ _ sg Hc' Hs Hne) as (x & q' & Hq & Hx & Hc''). cbn in Hc''.
  destruct s as [q|]; [|done]. cbn in Hq. subst q. cbn. split; [done|]. unfold sg_repr. cbn. split; [done|].
  split; [rewrite Hn; cbn; lia|]. split; [cbn; intros k [<-|[_ Hk]]%lookup_insert_is_Some; eauto|].
  exists ls'. split; [done|]. cbn. destruct (sg_spare m') as [sp|]; cbn in *; [|done].
  destruct Hsp' as [Hni Hsp']. split; [done|]. rewrite lookup_insert_ne; [done|set_solver].
Qed.
Next Obligation. intros m s (_ & Hn & _). cbn. rewrite Hn. by destruct (default [] s). Qed.
Next Obligation. by intros m s (_ & Hn & _). Qed.
Next Obligation.
  intros m s (_ & _ & Hf & _). split_and!; try done. split.
  - cbn. intros k [<-|[_ Hk]]%lookup_insert_is_Some; [lia|]. specialize (Hf _ Hk). lia.
  - exists [sg_fresh m]. cbn. split; [|done]. econstructor; [by rewrite lookup_insert_eq|done|apply new_Segment_holds].
Qed.

Lemma new_SegmentedMailbox_repr : sg_repr new_SegmentedMailbox (Some []).
Proof.
  split_and!; try done. split.
  - cbn. intros k [s [<- _]%lookup_singleton_Some]. lia.
  - exists [0%nat]. cbn. split; [|done]. econstructor; [by rewrite lookup_singleton_eq|done|apply new_Segment_holds].
Qed.
End segmented.
Arguments SegmentedMailbox A : clear implicits.

(** C14: The three first-in first-out mailboxes answer every sequence of calls as a plain list
    does: unbounded for the ring and for the segments, with its capacity for the bounded
    ring, whose construction fails exactly when the capacity is not positive. *)
Theorem fifo_mailboxes_refine_queue {A} (cs : list (mailbox_call A)) (capacity : Z) :
  history call_mailbox (new_UnboundedMailbox (A := A)) cs = history (call_queue None) (Some []) cs
  ∧ history call_mailbox (new_SegmentedMailbox (A := A)) cs = history (call_queue None) (Some []) cs
  ∧ match new_BoundedMailbox capacity with
    | Ok m => history call_mailbox (m : BoundedMailbox A) cs = history (call_queue (Some (Z.to_nat capacity))) (Some []) cs
    | Throw _ => True
    end
  ∧ (is_ok (new_BoundedMailbox (A := A) capacity) = false ↔ capacity ≤ 0).
Proof.
  split; [exact (fifo_history None (new_UnboundedMailbox (A := A)) (Some []) cs new_UnboundedMailbox_repr)|].
  split; [exact (fifo_history None (new_SegmentedMailbox (A := A)) (Some []) cs new_SegmentedMailbox_repr)|].
  destruct (new_BoundedMailbox capacity) as [m|e] eqn:E.
  - apply new_BoundedMailbox_repr in E as [Hm Hc]. split; [exact (fifo_history (Some (Z.to_nat capacity)) m (Some []) cs Hm)|].
    split; [done|lia].
  - split; [done|]. unfold new_BoundedMailbox in E. destruct (Z.leb_spec capacity 0); done.
Qed.
