(* ===== verification/FairMailbox.v ===== *)
(** * [UnboundedFairMailbox] ([fair.mailbox.ts])

    One sub-queue per sender key, linked into a round-robin ring.  The boxes are objects
    shared by the sender map and the ring, so they live in a store by identity, linked by
    [sb_nextActive].  The abstract state is the ring itself: the senders with pending
    messages, in turn order, each with its messages in arrival order. *)
From S2P Require Import Prelude JsString Mailbox.

Section fair.
Context {A : Type} (senderKeyOf : A → jsstring).

Record SenderBox := MkBox {
  sb_key : jsstring;
  sb_queue : UnboundedMailbox A;
  sb_nextActive : option nat;
  sb_active : bool }.

Record FairMailbox := MkFair {
  fm_store : gmap nat SenderBox;
  fm_fresh : nat;
  fm_senders : list (jsstring * nat);
  fm_activeHead : option nat;
  fm_activeTail : option nat;
  fm_size : nat;
  fm_disposed : bool }.

Definition new_SenderBox (key : jsstring) : SenderBox := MkBox key new_UnboundedMailbox None false.

Definition new_FairMailbox : FairMailbox := MkFair ∅ 0 [] None None 0 false.

(** Field updates of one box. *)
Definition put_next (next : option nat) (b : SenderBox) : SenderBox := MkBox (sb_key b) (sb_queue b) next (sb_active b).
Definition put_active (active : bool) (b : SenderBox) : SenderBox := MkBox (sb_key b) (sb_queue b) (sb_nextActive b) active.
Definition put_queue (q : UnboundedMailbox A) (b : SenderBox) : SenderBox := MkBox (sb_key b) q (sb_nextActive b) (sb_active b).

Definition on_box (id : nat) (f : SenderBox → SenderBox) (m : FairMailbox) : FairMailbox :=
  MkFair (alter f id (fm_store m)) (fm_fresh m) (fm_senders m) (fm_activeHead m) (fm_activeTail m) (fm_size m) (fm_disposed m).

Definition box_at (m : FairMailbox) (id : nat) : SenderBox := default (new_SenderBox []) (fm_store m !! id).

Definition pushActive (id : nat) (m : FairMailbox) : FairMailbox :=
  let m := on_box id (put_next None) m in
  match fm_activeTail m with
  | None => MkFair (fm_store m) (fm_fresh m) (fm_senders m) (Some id) (Some id) (fm_size m) (fm_disposed m)
  | Some tail =>
      let m := on_box tail (put_next (Some id)) m in
      MkFair (fm_store m) (fm_fresh m) (fm_senders m) (fm_activeHead m) (Some id) (fm_size m) (fm_disposed m)
  end.

Definition popActive (m : FairMailbox) : option nat * FairMailbox :=
  match fm_activeHead m with
  | None => (None, m)
  | Some id =>
      let head := sb_nextActive (box_at m id) in
      let tail := match head with None => None | Some _ => fm_activeTail m end in
      let m := MkFair (fm_store m) (fm_fresh m) (fm_senders m) head tail (fm_size m) (fm_disposed m) in
      (Some id, on_box id (put_next None) m)
  end.

(** The box of a key, created on first use. *)
Definition senderBox (key : jsstring) (m : FairMailbox) : nat * FairMailbox :=
  match jm_get key (fm_senders m) with
  | Some id => (id, m)
  | None =>
      let id := fm_fresh m in
      (id, MkFair (<[id := new_SenderBox key]> (fm_store m)) (S id) (jm_set key id (fm_senders m))
             (fm_activeHead m) (fm_activeTail m) (fm_size m) (fm_disposed m))
  end.

Definition fm_enqueue (msg : A) (m : FairMailbox) : option MailboxError * FairMailbox :=
  if fm_disposed m then (Some ErrMailboxDisposed, m)
  else
    let '(id, m) := senderBox (senderKeyOf msg) m in
    let m := on_box id (λ b, put_queue (mb_enqueue msg (sb_queue b)).2 b) m in
    let m := MkFair (fm_store m) (fm_fresh m) (fm_senders m) (fm_activeHead m) (fm_activeTail m)
               (S (fm_size m)) (fm_disposed m) in
    (None, if sb_active (box_at m id) then m else pushActive id (on_box id (put_active true) m)).

(** [this.size--], after the front box gave its message. *)
Definition fm_served (id : nat) (q : UnboundedMailbox A) (m : FairMailbox) : FairMailbox :=
  let m := on_box id (put_queue q) m in
  MkFair (fm_store m) (fm_fresh m) (fm_senders m) (fm_activeHead m) (fm_activeTail m) (fm_size m - 1) (fm_disposed m).

Definition fm_dequeue (m : FairMailbox) : option A * FairMailbox :=
  match popActive m with
  | (None, m) => (None, m)
  | (Some id, m) =>
      let '(msg, q) := mb_dequeue (sb_queue (box_at m id)) in
      let m := fm_served id q m in
      (msg, if mb_isEmpty q then
              let m := on_box id (put_active false) m in
              MkFair (fm_store m) (fm_fresh m) (jm_delete (sb_key (box_at m id)) (fm_senders m))
                (fm_activeHead m) (fm_activeTail m) (fm_size m) (fm_disposed m)
            else pushActive id m)
  end.

Definition fm_dispose (m : FairMailbox) : FairMailbox := MkFair (fm_store m) (fm_fresh m) [] None None 0 true.

#[export] Instance fair_ops : MailboxOps A FairMailbox := {|
  mb_enqueue := fm_enqueue;
  mb_dequeue := fm_dequeue;
  mb_isEmpty m := Nat.eqb (fm_size m) 0;
  mb_len := fm_size;
  mb_dispose := fm_dispose |}.

(** ** The ring as a value *)

(** The senders with pending messages, in turn order. *)
Abbreviation turn_ring := (list (jsstring * list A)).

(** A message joins its sender's queue, or opens it at the end of the ring. *)
Fixpoint ring_enqueue (key : jsstring) (x : A) (r : turn_ring) : turn_ring :=
  match r with
  | [] => [(key, [x])]
  | (k, q) :: r => if decide (key = k) then (k, q ++ [x]) :: r else (k, q) :: ring_enqueue key x r
  end.

(** The sender at the front gives one message and goes to the end, or leaves. *)
Definition ring_dequeue (r : turn_ring) : option A * turn_ring :=
  match r with
  | (k, x :: q) :: r => (Some x, if decide (q = []) then r else r ++ [(k, q)])
  | r => (None, r)
  end.

(** ** Representation *)

(** A box without its link. *)
Definition strip (b : SenderBox) : jsstring * UnboundedMailbox A * bool := (sb_key b, sb_queue b, sb_active b).

(** The boxes [ls], linked from head to tail. *)
Definition links (m : FairMailbox) (ls : list nat) : Prop :=
  NoDup ls ∧ fm_activeHead m = head ls ∧ fm_activeTail m = last ls
  ∧ ∀ i id, ls !! i = Some id → sb_nextActive <$> fm_store m !! id = Some (ls !! S i).

Definition boxed (m : FairMailbox) (id : nat) (kq : jsstring * list A) : Prop :=
  ∃ q, strip <$> fm_store m !! id = Some (kq.1, q, true) ∧ ub_repr q (Some kq.2).

(** The sender map knows exactly the boxes of the ring. *)
Definition indexed (m : FairMailbox) (ls : list nat) (r : turn_ring) : Prop :=
  ∀ k id, jm_get k (fm_senders m) = Some id ↔ ∃ i q, ls !! i = Some id ∧ r !! i = Some (k, q).

Definition ring_ok (r : turn_ring) : Prop := NoDup r.*1 ∧ Forall (λ kq, kq.2 ≠ []) r.

Definition pending (r : turn_ring) : list A := r ≫= snd.

Definition fm_repr (m : FairMailbox) (s : option turn_ring) : Prop :=
  match s with
  | None => fm_disposed m = true ∧ fm_size m = 0%nat ∧ fm_activeHead m = None
  | Some r =>
      fm_disposed m = false ∧ fm_size m = length (pending r) ∧ ring_ok r
      ∧ (∀ id, is_Some (fm_store m !! id) → (id < fm_fresh m)%nat)
      ∧ ∃ ls, links m ls ∧ Forall2 (boxed m) ls r ∧ indexed m ls r
  end.

Lemma alter_is_Some (f : SenderBox → SenderBox) (st : gmap nat SenderBox) i j : is_Some (alter f i st !! j) ↔ is_Some (st !! j).
Proof.
  destruct (decide (i = j)) as [->|Hne]; [|by rewrite lookup_alter_ne]. rewrite lookup_alter_eq. by rewrite fmap_is_Some.
Qed.

(** Relinking a box changes nothing else about it. *)
Lemma relink_strip next id (st : gmap nat SenderBox) j :
  strip <$> alter (put_next next) id st !! j = strip <$> st !! j.
Proof.
  destruct (decide (id = j)) as [->|Hne]; [|by rewrite lookup_alter_ne]. rewrite lookup_alter_eq. by destruct (st !! j).
Qed.

Lemma boxed_ext m m' ls r :
  (∀ id, id ∈ ls → strip <$> fm_store m' !! id = strip <$> fm_store m !! id) →
  Forall2 (boxed m) ls r → Forall2 (boxed m') ls r.
Proof.
  intros Hext H. induction H as [|id kq ls r (q & Hq & Hr) _ IH]; constructor.
  - exists q. split; [|done]. rewrite Hext; [done|left].
  - apply IH. intros j Hj. apply Hext. by right.
Qed.

(** [pushActive] appends a box that is not in the ring. *)
Lemma pushActive_spec m ls id :
  links m ls → id ∉ ls → is_Some (fm_store m !! id) →
  links (pushActive id m) (ls ++ [id])
  ∧ (∀ j, strip <$> fm_store (pushActive id m) !! j = strip <$> fm_store m !! j)
  ∧ fm_senders (pushActive id m) = fm_senders m ∧ fm_size (pushActive id m) = fm_size m
  ∧ fm_disposed (pushActive id m) = fm_disposed m ∧ fm_fresh (pushActive id m) = fm_fresh m.
Proof.
  intros (Hnd & Hh & Ht & Hl) Hid [b Hb].
  assert (NoDup (ls ++ [id])) as Hnd' by (apply NoDup_app; split; [done|]; split; [set_solver|apply NoDup_singleton]).
  unfold pushActive. cbn [on_box fm_activeTail]. rewrite Ht.
  destruct (last ls) as [t|] eqn:El.
  - cbn. split; [|split_and!; try done; intros j; by rewrite !relink_strip].
    apply last_Some in El as [ls' ->]. split; [done|]. cbn. split; [rewrite Hh; by destruct ls'|]. split; [by rewrite last_snoc|].
    assert (t ≠ id) by set_solver. intros i j Hj.
    apply lookup_app_Some in Hj as [Hj|[Hi Hj]].
    + specialize (Hl i j Hj). assert (j ≠ id) by (apply list_elem_of_lookup_2 in Hj; set_solver).
      destruct (decide (t = j)) as [<-|Hne].
      * assert (i = length ls') as -> by (eapply NoDup_lookup; [apply Hnd|done|by rewrite lookup_app_r, Nat.sub_diag]).
        rewrite lookup_alter_eq, lookup_alter_ne by done. rewrite lookup_app_r by (rewrite length_app; cbn; lia).
        rewrite length_app. cbn. replace (S (length ls') - (length ls' + 1))%nat with 0%nat by lia. cbn.
        destruct (fm_store m !! t); [done|discriminate Hl].
      * rewrite !lookup_alter_ne by done. rewrite Hl. f_equal.
        pose proof (lookup_lt_Some _ _ _ Hj) as Hi. rewrite length_app in Hi. cbn in Hi.
        assert (S i < length (ls' ++ [t]))%nat as Hsi.
        { rewrite length_app. cbn. destruct (decide (i = length ls')) as [->|]; [|lia].
          rewrite lookup_app_r, Nat.sub_diag in Hj by done. by simplify_eq/=. }
        by rewrite (lookup_app_l (ls' ++ [t])).
    + apply list_lookup_singleton_Some in Hj as [Hi' <-]. rewrite lookup_alter_ne, lookup_alter_eq, Hb by done. cbn.
      by rewrite lookup_ge_None_2 by (rewrite length_app; cbn; lia).
  - apply last_None in El as ->. cbn. split; [|split_and!; try done; intros j; by rewrite relink_strip].
    split; [done|]. split_and!; try done. intros [|i] j Hj; [|done]. cbn in Hj. simplify_eq.
    cbn. by rewrite lookup_alter_eq, Hb.
Qed.

(** [popActive] takes the first box. *)
Lemma popActive_spec m id ls :
  links m (id :: ls) →
  ∃ m', popActive m = (Some id, m') ∧ links m' ls
    ∧ (∀ j, strip <$> fm_store m' !! j = strip <$> fm_store m !! j)
    ∧ fm_senders m' = fm_senders m ∧ fm_size m' = fm_size m ∧ fm_disposed m' = fm_disposed m ∧ fm_fresh m' = fm_fresh m.
Proof.
  intros (Hnd & Hh & Ht & Hl). apply NoDup_cons in Hnd as [Hid Hnd]. unfold popActive. rewrite Hh. cbn [head].
  pose proof (Hl 0%nat id eq_refl) as Hn. cbn in Hn.
  assert (sb_nextActive (box_at m id) = ls !! 0%nat) as Hnx
    by (unfold box_at; destruct (fm_store m !! id); by simplify_eq/=).
  rewrite Hnx. eexists. split; [done|]. cbn. split; [|split_and!; try done; intros j; by rewrite relink_strip].
  split; [done|]. cbn. split; [by destruct ls|]. split.
  - destruct ls as [|id' ls]; [done|]. cbn in *. done.
  - intros i j Hj. rewrite lookup_alter_ne; [by apply (Hl (S i))|].
    apply list_elem_of_lookup_2 in Hj. set_solver.
Qed.

Lemma ring_enqueue_in key x r i q :
  NoDup r.*1 → r !! i = Some (key, q) → ring_enqueue key x r = <[i := (key, q ++ [x])]> r.
Proof.
  revert i. induction r as [|[k q'] r IH]; intros i Hnd Hi; [done|]. apply NoDup_cons in Hnd as [Hk Hnd]. cbn.
  destruct i as [|i]; cbn in Hi; simplify_eq; [by rewrite decide_True|].
  rewrite decide_False; [cbn; by rewrite (IH i)|]. intros ->. apply Hk. apply list_elem_of_fmap.
  exists (k, q). split; [done|]. by eapply list_elem_of_lookup_2.
Qed.

Lemma ring_enqueue_new key x r : key ∉ r.*1 → ring_enqueue key x r = r ++ [(key, [x])].
Proof.
  induction r as [|[k q] r IH]; [done|]. intros [Hk Hr]%not_elem_of_cons. cbn. rewrite decide_False by done. by rewrite IH.
Qed.

Lemma pending_insert r i key q x :
  r !! i = Some (key, q) → pending (<[i := (key, q ++ [x])]> r) ≡ₚ pending r ++ [x].
Proof.
  revert i. induction r as [|[k q'] r IH]; intros i Hi; [done|]. unfold pending in *. destruct i as [|i]; cbn in *; simplify_eq.
  - rewrite <-!app_assoc. apply Permutation_app_head, Permutation_app_comm.
  - by rewrite (IH i Hi), app_assoc.
Qed.

Lemma ring_enqueue_perm key x r : ring_ok r → pending (ring_enqueue key x r) ≡ₚ pending r ++ [x].
Proof.
  intros [Hnd _]. destruct (decide (key ∈ r.*1)) as [Hin|Hni].
  - apply list_elem_of_fmap in Hin as ([k q] & -> & [i Hi]%list_elem_of_lookup). cbn.
    rewrite (ring_enqueue_in k x r i q) by done. by apply pending_insert.
  - rewrite ring_enqueue_new by done. unfold pending. by rewrite bind_app.
Qed.

Lemma ring_enqueue_ok key x r : ring_ok r → ring_ok (ring_enqueue key x r).
Proof.
  intros [Hnd Hne]. destruct (decide (key ∈ r.*1)) as [Hin|Hni].
  - apply list_elem_of_fmap in Hin as ([k q] & -> & [i Hi]%list_elem_of_lookup). cbn.
    rewrite (ring_enqueue_in k x r i q) by done. split.
    + rewrite list_fmap_insert. cbn. rewrite list_insert_id; [done|]. by rewrite list_lookup_fmap, Hi.
    + apply Forall_insert; [done|]. cbn. by destruct q.
  - rewrite ring_enqueue_new by done. split.
    + rewrite fmap_app. apply NoDup_app. split; [done|]. split; [set_solver|apply NoDup_singleton].
    + apply Forall_app. split; [done|]. by repeat constructor.
Qed.

Lemma ring_dequeue_ok k x q r :
  ring_ok ((k, x :: q) :: r) →
  ring_ok (ring_dequeue ((k, x :: q) :: r)).2 ∧ pending ((k, x :: q) :: r) ≡ₚ x :: pending (ring_dequeue ((k, x :: q) :: r)).2.
Proof.
  intros [Hnd Hne]. apply NoDup_cons in Hnd as [Hk Hnd]. apply Forall_cons in Hne as [_ Hne]. cbn.
  destruct (decide (q = [])) as [->|Hq]; [by split|]. unfold pending. split.
  - split.
    + rewrite fmap_app. apply NoDup_app. split; [done|]. split; [set_solver|apply NoDup_singleton].
    + apply Forall_app. split; [done|]. by repeat constructor.
  - rewrite bind_app. cbn. rewrite app_nil_r. by rewrite (Permutation_app_comm q).
Qed.

(** An update that keeps the link of a box keeps the ring linked. *)
Lemma links_on_box m ls id f :
  (∀ b, sb_nextActive (f b) = sb_nextActive b) → links m ls → links (on_box id f m) ls.
Proof.
  intros Hf (Hnd & Hh & Ht & Hl). split_and!; try done. intros i j Hj. rewrite <-(Hl i j Hj). cbn.
  destruct (decide (id = j)) as [->|Hne]; [|by rewrite lookup_alter_ne].
  rewrite lookup_alter_eq. destruct (fm_store m !! j); cbn; [by rewrite Hf|done].
Qed.

Lemma unbounded_enqueue_repr x (u : UnboundedMailbox A) q : ub_repr u (Some q) → ub_repr (mb_enqueue x u).2 (Some (q ++ [x])).
Proof. intros Hu. by destruct (fifo_enqueue (FifoMailbox := unbounded_fifo) x u (Some q) Hu) as [_ ?]. Qed.

Lemma unbounded_dequeue_repr x (u : UnboundedMailbox A) q :
  ub_repr u (Some (x :: q)) → ∃ u', mb_dequeue u = (Some x, u') ∧ ub_repr u' (Some q) ∧ mb_isEmpty u' = bool_decide (q = []).
Proof.
  intros Hu. destruct (fifo_dequeue (FifoMailbox := unbounded_fifo) u _ Hu) as [H1 H2].
  destruct (mb_dequeue u) as [r u']. cbn in *. subst. exists u'. split; [done|]. split; [done|].
  exact (fifo_isEmpty (FifoMailbox := unbounded_fifo) u' _ H2).
Qed.

Lemma box_at_strip m id k q a : strip <$> fm_store m !! id = Some (k, q, a) →
  sb_key (box_at m id) = k ∧ sb_queue (box_at m id) = q ∧ sb_active (box_at m id) = a.
Proof. unfold box_at. destruct (fm_store m !! id) as [b|]; cbn; [|done]. by intros [= <- <- <-]. Qed.

(** A message of a sender that already waits. *)
Lemma fm_enqueue_known x m r id :
  fm_repr m (Some r) → jm_get (senderKeyOf x) (fm_senders m) = Some id →
  ∃ m', fm_enqueue x m = (None, m') ∧ fm_repr m' (Some (ring_enqueue (senderKeyOf x) x r)).
Proof.
  intros (Hd & Hsz & Hok & Hf & ls & Hl & Hb & Hx) Hget. set (k := senderKeyOf x) in *.
  destruct (proj1 (Hx k id) Hget) as (i & q & Hi & Hri).
  destruct (Forall2_lookup_lr _ _ _ _ _ _ Hb Hi Hri) as (u & Hs & Hu). cbn in Hs, Hu.
  unfold fm_enqueue, senderBox. fold k. rewrite Hd, Hget.
  set (m1 := on_box id _ m). set (m2 := MkFair _ _ _ _ _ _ _).
  assert (∀ j, strip <$> fm_store m2 !! j = if decide (j = id) then Some (k, (mb_enqueue x u).2, true) else strip <$> fm_store m !! j) as Hst.
  { intros j. cbn. destruct (decide (j = id)) as [->|Hne]; [|by rewrite lookup_alter_ne].
    rewrite lookup_alter_eq. destruct (fm_store m !! id) as [b|]; [|done]. cbn in Hs |- *. injection Hs as H1 H2 H3.
    unfold strip. cbn. by rewrite H1, H2, H3. }
  assert (sb_active (box_at m2 id) = true) as ->.
  { specialize (Hst id). rewrite decide_True in Hst by done. by apply box_at_strip in Hst as (_ & _ & ?). }
  exists m2. split; [done|]. pose proof (ring_enqueue_perm k x r Hok) as Hperm.
  split; [done|]. split; [rewrite Hperm, length_app; cbn; rewrite Hsz; lia|]. split; [by apply ring_enqueue_ok|].
  split; [intros j; cbn; rewrite alter_is_Some; apply Hf|]. exists ls.
  assert (links m1 ls) as Hl1 by (by apply links_on_box). split; [exact Hl1|].
  destruct Hok as [Hnd _]. rewrite (ring_enqueue_in k x r i q) by done. split.
  - apply Forall2_same_length_lookup. split; [rewrite length_insert; by eapply Forall2_length|].
    intros j jd kq Hj Hkq. destruct (decide (j = i)) as [->|Hne].
    + rewrite list_lookup_insert_eq in Hkq by (by eapply lookup_lt_Some). simplify_eq. eexists. cbn [fst snd].
      rewrite Hst, decide_True by done. split; [done|]. by apply unbounded_enqueue_repr.
    + rewrite list_lookup_insert_ne in Hkq by done. destruct (Forall2_lookup_lr _ _ _ _ _ _ Hb Hj Hkq) as (u' & Hs' & Hu').
      exists u'. rewrite Hst, decide_False; [done|]. intros ->. apply Hne. destruct Hl as [Hnd' _]. by eapply NoDup_lookup.
  - intros k' id'. change (fm_senders m2) with (fm_senders m). rewrite (Hx k' id'). split; intros (j & q' & Hj & Hq'); exists j.
    + destruct (decide (j = i)) as [->|Hne]; [|exists q'; by rewrite list_lookup_insert_ne].
      rewrite list_lookup_insert_eq by (by eapply lookup_lt_Some). simplify_eq. eauto.
    + destruct (decide (j = i)) as [->|Hne]; [|exists q'; by rewrite list_lookup_insert_ne in Hq'].
      rewrite list_lookup_insert_eq in Hq' by (by eapply lookup_lt_Some). simplify_eq. eauto.
Qed.

(** The first message of a sender opens a box at the end of the ring. *)
Lemma fm_enqueue_new x m r :
  fm_repr m (Some r) → jm_get (senderKeyOf x) (fm_senders m) = None →
  ∃ m', fm_enqueue x m = (None, m') ∧ fm_repr m' (Some (ring_enqueue (senderKeyOf x) x r)).
Proof.
  intros (Hd & Hsz & Hok & Hf & ls & Hl & Hb & Hx) Hget. set (k := senderKeyOf x) in *.
  assert (k ∉ r.*1) as Hk.
  { intros ([k' q] & Hk & [i Hi]%list_elem_of_lookup)%list_elem_of_fmap. cbn in Hk. subst k'.
    assert (∃ id, ls !! i = Some id) as [id Hid].
    { apply lookup_lt_is_Some. rewrite (Forall2_length _ _ _ Hb). by eapply lookup_lt_Some. }
    assert (jm_get k (fm_senders m) = Some id) by (apply Hx; eauto). congruence. }
  assert (∀ id, id ∈ ls → (id < fm_fresh m)%nat) as Hls.
  { intros id [i Hi]%list_elem_of_lookup. apply Hf. destruct Hl as (_ & _ & _ & Hl). specialize (Hl i id Hi).
    by destruct (fm_store m !! id); [eexists|]. }
  set (id := fm_fresh m). assert (id ∉ ls) as Hid by (intros ?%Hls; unfold id in *; lia).
  unfold fm_enqueue, senderBox. fold k id. rewrite Hd, Hget.
  set (m2 := MkFair _ _ _ _ _ _ _).
  assert (sb_active (box_at m2 id) = false) as ->.
  { unfold box_at. cbn. by rewrite lookup_alter_eq, lookup_insert_eq. }
  set (m3 := on_box id _ m2).
  assert (∀ j, j ≠ id → fm_store m3 !! j = fm_store m !! j) as Hoth
    by (intros j Hj; cbn; by rewrite !lookup_alter_ne, lookup_insert_ne by done).
  assert (strip <$> fm_store m3 !! id = Some (k, (mb_enqueue x new_UnboundedMailbox).2, true)) as Hnew
    by (cbn; by rewrite !lookup_alter_eq, lookup_insert_eq).
  assert (links m3 ls) as Hl3.
  { destruct Hl as (H1 & H2 & H3 & H4). split_and!; try done. intros i j Hj. rewrite Hoth; [by apply H4|].
    apply list_elem_of_lookup_2 in Hj. congruence. }
  destruct (pushActive_spec m3 ls id Hl3 Hid) as (Hl4 & Hst & Hse & Hsz4 & Hd4 & Hf4).
  { destruct (fm_store m3 !! id); [by eexists|done]. }
  eexists. split; [done|]. pose proof (ring_enqueue_perm k x r Hok) as Hperm.
  split; [by rewrite Hd4|]. split; [rewrite Hsz4, Hperm, length_app; cbn; rewrite Hsz; lia|].
  split; [by apply ring_enqueue_ok|]. split.
  { intros j Hj. rewrite Hf4. cbn. destruct (decide (j = id)) as [->|Hne]; [unfold id; lia|].
    apply Nat.lt_lt_succ_r, Hf. rewrite <-(Hoth j Hne). destruct Hj as [b Hj]. specialize (Hst j). rewrite Hj in Hst.
    by destruct (fm_store m3 !! j); [eexists|]. }
  exists (ls ++ [id]). split; [done|]. rewrite (ring_enqueue_new k x r Hk). split.
  - apply Forall2_app.
    + eapply boxed_ext; [|exact Hb]. intros j Hj. rewrite Hst. rewrite Hoth; [done|]. congruence.
    + repeat constructor. eexists. cbn [fst snd]. rewrite Hst. split; [exact Hnew|].
      apply (unbounded_enqueue_repr x new_UnboundedMailbox []). apply new_UnboundedMailbox_repr.
  - intros k' id'. rewrite Hse. cbn [m3 m2 on_box fm_senders]. rewrite jm_get_set. destruct (decide (k' = k)) as [->|Hne].
    + split.
      * intros [= <-]. exists (length ls), [x]. rewrite (Forall2_length _ _ _ Hb) at 2.
        by rewrite !lookup_app_r, !Nat.sub_diag by done.
      * intros (i & q & Hi & Hq). apply lookup_app_Some in Hq as [Hq|[Hle Hq]].
        -- destruct Hk. apply list_elem_of_fmap. exists (k, q). split; [done|]. by eapply list_elem_of_lookup_2.
        -- apply list_lookup_singleton_Some in Hq as [Hi' _]. rewrite lookup_app_r in Hi by (rewrite (Forall2_length _ _ _ Hb); lia).
           by apply list_lookup_singleton_Some in Hi as [_ <-].
    + rewrite (Hx k' id'). split; intros (i & q & Hi & Hq); exists i, q.
      * split; by apply lookup_app_l_Some.
      * apply lookup_app_Some in Hq as [Hq|[Hle Hq]]; [|apply list_lookup_singleton_Some in Hq as [_ Hq]; by simplify_eq].
        rewrite lookup_app_l in Hi; [done|]. rewrite (Forall2_length _ _ _ Hb). by eapply lookup_lt_Some.
Qed.

Lemma fm_enqueue_spec x m r :
  fm_repr m (Some r) → ∃ m', fm_enqueue x m = (None, m') ∧ fm_repr m' (Some (ring_enqueue (senderKeyOf x) x r)).
Proof.
  intros Hr. destruct (jm_get (senderKeyOf x) (fm_senders m)) as [id|] eqn:E.
  - by eapply fm_enqueue_known.
  - by apply fm_enqueue_new.
Qed.

(** What [popActive] and the read of the front box leave. *)
Lemma fm_dequeue_front m id ls k x q r :
  links m (id :: ls) → Forall2 (boxed m) (id :: ls) ((k, x :: q) :: r) →
  ∃ m1 u, popActive m = (Some id, m1) ∧ mb_dequeue (sb_queue (box_at m1 id)) = (Some x, u) ∧ ub_repr u (Some q)
    ∧ mb_isEmpty u = bool_decide (q = []) ∧ links m1 ls
    ∧ (∀ j, strip <$> fm_store m1 !! j = strip <$> fm_store m !! j) ∧ sb_key (box_at m1 id) = k
    ∧ fm_senders m1 = fm_senders m ∧ fm_size m1 = fm_size m ∧ fm_disposed m1 = fm_disposed m ∧ fm_fresh m1 = fm_fresh m.
Proof.
  intros Hl Hb. destruct (popActive_spec m id ls Hl) as (m1 & E & Hl1 & Hst & H1 & H2 & H3 & H4).
  apply Forall2_cons in Hb as [(u & Hs & Hu) _]. cbn in Hs, Hu. rewrite <-Hst in Hs.
  destruct (box_at_strip _ _ _ _ _ Hs) as (Hk & Hq & _).
  destruct (unbounded_dequeue_repr x u q Hu) as (u' & E' & Hu' & He). exists m1, u'. rewrite Hq, Hk. by split_and!.
Qed.

Lemma indexed_tail m id ls k q r :
  NoDup (id :: ls) → NoDup (k :: r.*1) → length ls = length r → indexed m (id :: ls) ((k, q) :: r) →
  ∀ k' id', (if decide (k' = k) then None else jm_get k' (fm_senders m)) = Some id'
    ↔ ∃ i q', ls !! i = Some id' ∧ r !! i = Some (k', q').
Proof.
  intros [Hid Hls]%NoDup_cons [Hk Hr]%NoDup_cons Hlen Hx k' id'. destruct (decide (k' = k)) as [->|Hne].
  - split; [done|]. intros (i & q' & _ & Hi). destruct Hk. apply list_elem_of_fmap. exists (k, q'). split; [done|].
    by eapply list_elem_of_lookup_2.
  - rewrite (Hx k' id'). split; intros (i & q' & Hi & Hq).
    + destruct i as [|i]; cbn in *; simplify_eq. eauto.
    + by exists (S i), q'.
Qed.

(** One turn of the round robin. *)
Lemma fm_dequeue_spec m k x q r :
  fm_repr m (Some ((k, x :: q) :: r)) →
  ∃ m', fm_dequeue m = (Some x, m') ∧ fm_repr m' (Some (if decide (q = []) then r else r ++ [(k, q)])).
Proof.
  intros (Hd & Hsz & Hok & Hf & ls & Hl & Hb & Hx). destruct ls as [|id ls]; [by inversion Hb|].
  destruct (fm_dequeue_front m id ls k x q r Hl Hb)
    as (m1 & u & E1 & E2 & Hu & He & Hl1 & Hst & Hk & Hse & Hsz1 & Hd1 & Hf1).
  destruct (ring_dequeue_ok k x q r Hok) as [Hok' Hperm]. cbn [ring_dequeue snd] in Hok', Hperm.
  unfold fm_dequeue. rewrite E1, E2, He. set (m2 := fm_served id u m1).
  destruct Hl as [Hnd _]. pose proof Hnd as [Hid Hls]%NoDup_cons. apply Forall2_cons in Hb as [Hb1 Hb].
  destruct Hok as [Hndk _].
  pose proof (indexed_tail m id ls k (x :: q) r Hnd Hndk (Forall2_length _ _ _ Hb) Hx) as Hx'.
  assert (∀ j, j ≠ id → strip <$> fm_store m2 !! j = strip <$> fm_store m !! j) as Hst2
    by (intros j Hj; cbn; rewrite lookup_alter_ne by done; apply Hst).
  assert (strip <$> fm_store m2 !! id = Some (k, u, true)) as Hid2.
  { cbn. rewrite lookup_alter_eq. specialize (Hst id). destruct Hb1 as (u0 & Hs0 & _). rewrite Hs0 in Hst.
    destruct (fm_store m1 !! id) as [b|]; [|done]. cbn in *. injection Hst as H1 H2 H3. unfold strip. cbn. by rewrite H1, H3. }
  assert (links m2 ls) as Hl2 by (by apply (links_on_box m1 ls id)).
  assert (∀ j, is_Some (fm_store m2 !! j) → (j < fm_fresh m)%nat) as Hf2.
  { intros j. cbn. rewrite alter_is_Some. intros [b Hb']. apply Hf. specialize (Hst j). rewrite Hb' in Hst.
    by destruct (fm_store m !! j); [eexists|]. }
  assert (length (pending (if decide (q = []) then r else r ++ [(k, q)])) = fm_size m2) as Hsz2
    by (cbn; rewrite Hsz1, Hsz, Hperm; cbn; lia).
  eexists. split; [done|]. destruct (decide (q = [])) as [->|Hq].
  - rewrite bool_decide_true by done. split; [by rewrite <-Hd1 in Hd|]. split; [by rewrite Hsz2|]. split; [done|].
    split; [intros j; cbn [fm_store fm_fresh on_box]; rewrite alter_is_Some; intros Hj; cbn; rewrite Hf1; by apply Hf2|].
    exists ls. split; [by apply (links_on_box m2 ls id)|]. split.
    + eapply boxed_ext; [|exact Hb]. intros j Hj. assert (j ≠ id) by congruence. cbn.
      rewrite !lookup_alter_ne by done. apply Hst.
    + intros k' id'. rewrite <-Hx'. cbn [fm_senders on_box]. rewrite jm_get_delete.
      assert (sb_key (box_at (on_box id (put_active false) m2) id) = k) as ->; [|by cbn; rewrite Hse].
      unfold box_at. cbn in Hid2 |- *. rewrite lookup_alter_eq in Hid2. do 2 rewrite lookup_alter_eq.
      destruct (fm_store m1 !! id); [|done]. cbn in *. by injection Hid2.
  - rewrite bool_decide_false by done.
    destruct (pushActive_spec m2 ls id Hl2 Hid) as (Hl3 & Hst3 & Hse3 & Hsz3 & Hd3 & Hf3);
      [destruct (fm_store m2 !! id); [by eexists|done]|].
    split; [rewrite Hd3; cbn; by rewrite Hd1|]. split; [by rewrite Hsz3, Hsz2|]. split; [done|].
    split; [intros j [b Hj]; rewrite Hf3; cbn; rewrite Hf1; apply Hf2; specialize (Hst3 j); rewrite Hj in Hst3;
      by destruct (fm_store m2 !! j); [eexists|]|].
    exists (ls ++ [id]). split; [done|]. split.
    + apply Forall2_app.
      * eapply boxed_ext; [|exact Hb]. intros j Hj. assert (j ≠ id) by congruence. by rewrite Hst3, Hst2.
      * repeat constructor. exists u. by rewrite Hst3.
    + intros k' id'. rewrite Hse3. cbn [fm_senders fm_served on_box m2]. rewrite Hse, (Hx k' id').
      apply Forall2_length in Hb. split; intros (i & q' & Hi & Hq').
      * destruct i as [|i]; cbn in Hi, Hq'; simplify_eq.
        -- exists (length ls), q. by rewrite lookup_app_r, Nat.sub_diag, Hb, lookup_app_r, Nat.sub_diag by lia.
        -- exists i, q'. split; by apply lookup_app_l_Some.
      * apply lookup_app_Some in Hi as [Hi|[Hle Hi]].
        -- exists (S i), q'. rewrite lookup_app_l in Hq' by (apply lookup_lt_Some in Hi; lia). done.
        -- apply list_lookup_singleton_Some in Hi as [Hi <-]. rewrite lookup_app_r in Hq' by lia.
           apply list_lookup_singleton_Some in Hq' as [_ Hq']. simplify_eq. exists 0%nat; eauto.
Qed.

Lemma popActive_none m : fm_activeHead m = None → fm_dequeue m = (None, m).
Proof. intros H. unfold fm_dequeue, popActive. by rewrite H. Qed.

Lemma new_FairMailbox_repr : fm_repr new_FairMailbox (Some []).
Proof.
  split_and!; try done; [split; [apply NoDup_nil_2|done]|intros id [b Hb]; cbn in Hb; by rewrite lookup_empty in Hb|].
  exists []. split; [split_and!; try done; apply NoDup_nil_2|]. split; [done|]. intros k id. cbn. split; [done|].
  by intros (i & q & Hi & _).
Qed.

(** Every message is served once; the order is the ring's. *)
#[export] Program Instance fair_mailbox : Mailbox A FairMailbox :=
  {| mb_repr m s := ∃ r, fm_repr m r ∧ (pending <$> r) = s |}.
Next Obligation.
  intros x m q (r & Hr & Hs). destruct r as [r|]; [|done]. cbn in Hs. simplify_eq.
  destruct (fm_enqueue_spec x m r Hr) as (m' & E & Hr'). cbn [mb_enqueue fair_ops]. rewrite E. eexists _, m', _. split; [done|].
  split; [by eexists|]. left. split; [done|]. apply ring_enqueue_perm. apply Hr.
Qed.
Next Obligation.
  intros x m (r & Hr & Hs). destruct r as [r|]; [done|]. exists m. cbn. unfold fm_enqueue.
  pose proof Hr as (-> & _). split; [done|]. by exists None.
Qed.
Next Obligation.
  intros m s (r & Hr & Hs) Hq. exists m. cbn. split; [|by exists r]. apply popActive_none. destruct r as [r|].
  - destruct Hr as (_ & _ & [_ Hne] & _ & ls & (_ & -> & _) & Hb & _). cbn in Hs. subst s. cbn in Hq.
    destruct Hb as [|id [k [|y q]] ls r _ _]; [done|apply Forall_cons in Hne as [? _]; done|done].
  - by destruct Hr as (_ & _ & ->).
Qed.
Next Obligation.
  intros m q (r & Hr & Hs) Hq. destruct r as [[|[k [|x q']] r]|]; cbn in Hs; simplify_eq.
  - destruct Hr as (_ & _ & [_ Hne] & _). apply Forall_cons in Hne as [Hne _]. by destruct Hne.
  - destruct (fm_dequeue_spec m k x q' r Hr) as (m' & E & Hr'). cbn [mb_dequeue fair_ops]. rewrite E. eexists x, m', _. split; [done|].
    split; [by eexists|]. by destruct (ring_dequeue_ok k x q' r) as [_ Hp]; [apply Hr|].
Qed.
Next Obligation.
  intros m s (r & Hr & <-). cbn. destruct r as [r|].
  - destruct Hr as (_ & -> & _). cbn. by destruct (pending r).
  - by destruct Hr as (_ & -> & _).
Qed.
Next Obligation.
  intros m s (r & Hr & <-). cbn. destruct r as [r|]; [by destruct Hr as (_ & -> & _)|by destruct Hr as (_ & -> & _)].
Qed.
Next Obligation. intros m s _. by exists None. Qed.

(** ** Turns *)

(** The ring after a call, and the message the call serves. *)
Definition ring_call (r : turn_ring) (c : mailbox_call A) : turn_ring :=
  match c with
  | CallEnqueue x => ring_enqueue (senderKeyOf x) x r
  | CallDequeue => (ring_dequeue r).2
  | _ => r
  end.

Definition calls (m : FairMailbox) (cs : list (mailbox_call A)) : FairMailbox :=
  foldl (λ m c, (call_mailbox m c).2) m cs.

(** The messages the dequeues of a history return. *)
Fixpoint served_by (m : FairMailbox) (cs : list (mailbox_call A)) : list A :=
  match cs with
  | [] => []
  | c :: cs =>
      let '(r, m) := call_mailbox m c in
      match r with ReplyDequeue (Some x) => x :: served_by m cs | _ => served_by m cs end
  end.

Definition live_call (c : mailbox_call A) : bool := match c with CallDispose => false | _ => true end.
Definition is_dequeue (c : mailbox_call A) : bool := match c with CallDequeue => true | _ => false end.
Definition dequeues (cs : list (mailbox_call A)) : nat := length (filter is_dequeue cs).

Lemma call_ring m r c :
  fm_repr m (Some r) → live_call c = true →
  fm_repr (call_mailbox m c).2 (Some (ring_call r c))
  ∧ match c with CallDequeue => (call_mailbox m c).1 = ReplyDequeue (ring_dequeue r).1 | _ => True end.
Proof.
  intros Hr Hc. destruct c as [x| | | |]; try done; cbn [call_mailbox ring_call mb_enqueue mb_dequeue fair_ops].
  - destruct (fm_enqueue_spec x m r Hr) as (m' & -> & Hr'). done.
  - destruct r as [|[k [|x q]] r].
    + rewrite popActive_none; [done|]. destruct Hr as (_ & _ & _ & _ & ls & (_ & -> & _) & Hb & _). by inversion Hb.
    + destruct Hr as (_ & _ & [_ Hne] & _). by apply Forall_cons in Hne as [? _].
    + destruct (fm_dequeue_spec m k x q r Hr) as (m' & -> & Hr'). done.
Qed.

Lemma calls_ring m r cs :
  fm_repr m (Some r) → Forall live_call cs → fm_repr (calls m cs) (Some (foldl ring_call r cs)).
Proof.
  intros Hr Hcs. revert m r Hr. induction Hcs as [|c cs Hc _ IH]; intros m r Hr; [done|]. cbn.
  apply IH. apply call_ring; [done|by apply Is_true_true].
Qed.

(** A sender moves one place forward with every dequeue and never back. *)
Lemma ring_position r c i k x q :
  ring_ok r → r !! i = Some (k, x :: q) → live_call c = true → (is_dequeue c = false ∨ i ≠ 0%nat) →
  ∃ q', ring_call r c !! (i - if is_dequeue c then 1 else 0)%nat = Some (k, x :: q').
Proof.
  intros [_ Hok] Hi Hc Hd. destruct c as [y| | | |]; try done; cbn [is_dequeue ring_call]; rewrite ?Nat.sub_0_r; eauto.
  - clear Hd Hok. revert i Hi. induction r as [|[k' q'] r IH]; intros i Hi; [done|]. cbn.
    destruct i as [|i]; cbn in Hi; simplify_eq; destruct (decide _); cbn; eauto.
  - destruct Hd as [|Hd]; [done|]. destruct i as [|i]; [done|]. cbn [Nat.sub]. rewrite Nat.sub_0_r.
    exists q. destruct r as [|[k' [|y q']] r]; cbn in Hi; [done|by apply Forall_cons in Hok as [? _]|].
    cbn. destruct (decide _); [done|]. by apply lookup_app_l_Some.
Qed.

Lemma dequeues_cons c cs : dequeues (c :: cs) = ((if is_dequeue c then 1 else 0) + dequeues cs)%nat.
Proof. unfold dequeues. rewrite filter_cons. by destruct c. Qed.

Lemma ring_turn m r cs i k x q :
  fm_repr m (Some r) → r !! i = Some (k, x :: q) → Forall live_call cs → dequeues cs = i →
  (fm_dequeue (calls m cs)).1 = Some x.
Proof.
  intros Hr Hi Hcs. revert m r i q Hr Hi. induction Hcs as [|c cs Hc _ IH]; intros m r i q Hr Hi Hn.
  - cbn in Hn. subst i. destruct r as [|kq r]; [done|]. cbn in Hi. simplify_eq.
    unfold calls. cbn [foldl]. by destruct (fm_dequeue_spec m k x q r Hr) as (m' & -> & _).
  - apply Is_true_true in Hc. rewrite dequeues_cons in Hn. destruct (call_ring m r c Hr Hc) as [Hr' _].
    destruct (ring_position r c i k x q) as [q' Hi']; [apply Hr|done..|destruct (is_dequeue c); [right; lia|by left]|].
    unfold calls in *. cbn [foldl]. apply (IH _ _ _ q' Hr' Hi'). lia.
Qed.

(** *** One sender's messages stay in order *)

Definition of_key (k : jsstring) (l : list A) : list A := filter (λ x, senderKeyOf x = k) l.

Definition keyed (r : turn_ring) : Prop := Forall (λ kq, Forall (λ x, senderKeyOf x = kq.1) kq.2) r.

Definition enqueued (cs : list (mailbox_call A)) : list A :=
  omap (λ c, match c with CallEnqueue x => Some x | _ => None end) cs.

Lemma of_key_other k k' q : Forall (λ x, senderKeyOf x = k') q → k ≠ k' → of_key k q = [].
Proof. intros Hq Hne. apply filter_none. intros x Hx. rewrite Forall_forall in Hq. rewrite (Hq x Hx). congruence. Qed.

Lemma of_key_absent k r : keyed r → k ∉ r.*1 → of_key k (pending r) = [].
Proof.
  unfold pending, of_key. induction 1 as [|[k' q] r Hq _ IH]; [done|]. intros [Hne Hk]%not_elem_of_cons. cbn.
  rewrite filter_app, IH by done. rewrite app_nil_r. by apply (of_key_other k k').
Qed.

Lemma of_key_enqueue k x r :
  keyed r → NoDup r.*1 → of_key k (pending (ring_enqueue (senderKeyOf x) x r)) = of_key k (pending r) ++ of_key k [x]
    ∧ keyed (ring_enqueue (senderKeyOf x) x r).
Proof.
  induction 1 as [|[k' q] r Hq Hr IH]; intros Hnd.
  { unfold of_key, pending. cbn. split; [done|]. by repeat constructor. }
  apply NoDup_cons in Hnd as [Hk Hnd]. destruct (IH Hnd) as [IH1 IH2]. cbn [ring_enqueue].
  destruct (decide (senderKeyOf x = k')) as [E|E].
  - split; [|constructor; [|done]; apply Forall_app; split; [done|by repeat constructor]].
    change (pending ((k', q ++ [x]) :: r)) with ((q ++ [x]) ++ pending r). change (pending ((k', q) :: r)) with (q ++ pending r).
    unfold of_key. rewrite !filter_app, <-!app_assoc. f_equal. fold (of_key k [x]) (of_key k (pending r)).
    destruct (decide (k = k')) as [->|Hne].
    + rewrite (of_key_absent k' r Hr Hk). by rewrite app_nil_r.
    + rewrite (of_key_other k k' [x] ltac:(by repeat constructor) Hne). by rewrite app_nil_r.
  - split; [|by constructor].
    change (pending ((k', q) :: ring_enqueue (senderKeyOf x) x r)) with (q ++ pending (ring_enqueue (senderKeyOf x) x r)).
    change (pending ((k', q) :: r)) with (q ++ pending r).
    unfold of_key in *. rewrite !filter_app, <-app_assoc. f_equal. exact IH1.
Qed.

Lemma of_key_dequeue k k' x q r :
  keyed ((k', x :: q) :: r) → NoDup (k' :: r.*1) →
  of_key k (pending ((k', x :: q) :: r)) = of_key k [x] ++ of_key k (pending (ring_dequeue ((k', x :: q) :: r)).2)
  ∧ keyed (ring_dequeue ((k', x :: q) :: r)).2.
Proof.
  intros [Hq Hr]%Forall_cons [Hk _]%NoDup_cons. apply Forall_cons in Hq as [Hx Hq]. cbn [ring_dequeue snd].
  change (pending ((k', x :: q) :: r)) with ([x] ++ q ++ pending r). unfold of_key at 1. rewrite filter_app.
  destruct (decide (q = [])) as [->|Hne]; [by split|]. split.
  - f_equal. unfold pending at 2. rewrite bind_app. cbn. rewrite app_nil_r. fold (pending r). unfold of_key. rewrite !filter_app.
    fold (of_key k q) (of_key k (pending r)). destruct (decide (k = k')) as [->|Hkk].
    + by rewrite (of_key_absent k' r Hr Hk), app_nil_r.
    + by rewrite (of_key_other k k' q Hq Hkk), app_nil_r.
  - apply Forall_app. split; [done|]. by repeat constructor.
Qed.

Lemma sender_order m r cs k :
  fm_repr m (Some r) → keyed r → Forall live_call cs →
  of_key k (served_by m cs) ++ of_key k (pending (foldl ring_call r cs)) = of_key k (pending r) ++ of_key k (enqueued cs).
Proof.
  intros Hr Hkd Hcs. revert m r Hr Hkd. induction Hcs as [|c cs Hc _ IH]; intros m r Hr Hkd.
  { cbn. unfold of_key. cbn. by rewrite app_nil_r. }
  apply Is_true_true in Hc. destruct (call_ring m r c Hr Hc) as [Hr' Hd]. pose proof Hr as (_ & _ & [Hnd _] & _).
  cbn [served_by foldl]. destruct (call_mailbox m c) as [rep m'] eqn:E. cbn [snd fst] in Hr', Hd.
  destruct c as [x| | | |]; try done.
  - assert (rep = ReplyEnqueue None) as ->.
    { cbn in E. destruct (fm_enqueue_spec x m r Hr) as (m1 & E1 & _). rewrite E1 in E. by simplify_eq. }
    destruct (of_key_enqueue k x r Hkd Hnd) as [Hk Hkd']. rewrite (IH _ _ Hr' Hkd'). cbn [ring_call]. rewrite Hk, <-app_assoc.
    f_equal. change (enqueued (CallEnqueue x :: cs)) with ([x] ++ enqueued cs). unfold of_key. by rewrite filter_app.
  - subst rep. cbn [ring_call] in *. destruct r as [|[k' [|x q]] r]; [by apply (IH _ []) | by destruct Hr as (_ & _ & [_ [? _]%Forall_cons] & _)|].
    destruct (of_key_dequeue k k' x q r Hkd Hnd) as [Hk Hkd']. rewrite Hk.
    change (ring_dequeue ((k', x :: q) :: r)).1 with (Some x). cbv iota.
    assert (of_key k (x :: served_by m' cs) = of_key k [x] ++ of_key k (served_by m' cs)) as -> by apply (filter_app _ [x]).
    rewrite <-!app_assoc. f_equal. by apply IH.
  - cbn in E. simplify_eq. by apply IH.
  - cbn in E. simplify_eq. by apply IH.
Qed.
End fair.
Arguments FairMailbox A : clear implicits.

(** Round robin is fair: a sender's next message is served on its turn, however many
    messages the others send meanwhile, and one sender's messages keep their order. *)
Theorem fair_turns {A} (senderKeyOf : A → jsstring) (before after : list (mailbox_call A)) i k x q :
  Forall live_call (before ++ after) →
  foldl (ring_call senderKeyOf) [] before !! i = Some (k, x :: q) → dequeues after = i →
  (fm_dequeue (calls senderKeyOf new_FairMailbox (before ++ after))).1 = Some x
  ∧ ∀ key, of_key senderKeyOf key (served_by senderKeyOf new_FairMailbox (before ++ after))
             `prefix_of` of_key senderKeyOf key (enqueued (before ++ after)).
Proof.
  intros Hlive Hi Hn. pose proof Hlive as [Hb Ha]%Forall_app. split.
  - unfold calls. rewrite foldl_app. fold (calls senderKeyOf new_FairMailbox before).
    apply (ring_turn senderKeyOf _ (foldl (ring_call senderKeyOf) [] before) after i k x q); [|done..].
    apply calls_ring; [apply new_FairMailbox_repr|done].
  - intros key. pose proof (sender_order senderKeyOf new_FairMailbox [] (before ++ after) key new_FairMailbox_repr) as H.
    specialize (H (Forall_nil_2 _) Hlive). eexists. symmetry. exact H.
Qed.

(** Two messages of a chatty sender and one of a quiet one: the quiet one is second. *)
Lemma fair_turns_witness :
  let key (x : Z) := if x <? 10 then js "chatty" else js "quiet" in
  (fm_dequeue (calls key new_FairMailbox ([CallEnqueue 1; CallEnqueue 2; CallEnqueue 10] ++ [CallEnqueue 3; CallDequeue]))).1
  = Some 10.
Proof.
  intros key. apply (fair_turns key [CallEnqueue 1; CallEnqueue 2; CallEnqueue 10] [CallEnqueue 3; CallDequeue] 1 (js "quiet") 10 []).
  - repeat constructor.
  - vm_compute. reflexivity.
  - reflexivity.
Defined.
