(* ===== verification/PriorityMailbox.v ===== *)
(** * The priority mailboxes ([priority.mailbox.ts])

    The binary heap behind the four mailboxes, in the flat and, for the stable ones, the
    parallel array of arrival numbers the code keeps.  The heap theory is stated once, over
    the list of slots; the stable mailboxes refine a reference that keeps the messages in
    arrival order and serves the first one nothing outranks. *)
From S2P Require Import Prelude Mailbox.

(** ** A binary heap in a list *)

Definition heap_parent (j : nat) : nat := ((j - 1) / 2)%nat.

Lemma heap_parent_lt j : j ≠ 0%nat → (heap_parent j < j)%nat.
Proof. intros Hj. unfold heap_parent. apply Nat.Div0.div_lt_upper_bound. lia. Qed.

Lemma heap_parent_inv c i : c ≠ 0%nat → heap_parent c = i → c = (2 * i + 1)%nat ∨ c = (2 * i + 2)%nat.
Proof.
  intros Hc <-. unfold heap_parent. pose proof (Nat.div_mod (c - 1) 2 ltac:(lia)).
  pose proof (Nat.mod_upper_bound (c - 1) 2 ltac:(lia)). lia.
Qed.

Lemma heap_parent_child i : heap_parent (2 * i + 1) = i ∧ heap_parent (2 * i + 2) = i.
Proof.
  unfold heap_parent. split; symmetry; [apply (Nat.div_unique _ 2 i 0)|apply (Nat.div_unique _ 2 i 1)]; lia.
Qed.

Section heap.
Context {E : Type} (R : E → E → bool).

(** [R a b]: [a] outranks [b]; a strict weak order. *)
Class StrictWeakOrder : Prop := {
  swo_irrefl a : R a a = false;
  swo_trans a b c : R a b = true → R b c = true → R a c = true;
  swo_incomp a b c : R a b = false → R b c = false → R a c = false }.

Definition swap_list (i j : nat) (l : list E) : list E :=
  match l !! i, l !! j with
  | Some a, Some b => <[i := b]> (<[j := a]> l)
  | _, _ => l
  end.

Definition slot_less (l : list E) (i j : nat) : bool :=
  match l !! i, l !! j with Some a, Some b => R a b | _, _ => false end.

Fixpoint up (fuel : nat) (l : list E) (j : nat) : list E :=
  match fuel with
  | O => l
  | S fuel =>
      if Nat.eqb j 0 then l
      else let i := heap_parent j in
           if slot_less l j i then up fuel (swap_list i j l) i else l
  end.

Fixpoint down (fuel : nat) (l : list E) (i : nat) : list E :=
  match fuel with
  | O => l
  | S fuel =>
      let left := (2 * i + 1)%nat in
      if Nat.leb (length l) left then l
      else
        let child := if Nat.ltb (left + 1) (length l) && slot_less l (left + 1) left then (left + 1)%nat else left in
        if slot_less l child i then down fuel (swap_list i child l) child else l
  end.

Lemma swap_lookup i j l k :
  (i < length l)%nat → (j < length l)%nat →
  swap_list i j l !! k = if decide (k = i) then l !! j else if decide (k = j) then l !! i else l !! k.
Proof.
  intros Hi Hj. unfold swap_list. destruct (lookup_lt_is_Some_2 l i Hi) as [a Ha], (lookup_lt_is_Some_2 l j Hj) as [b Hb].
  rewrite Ha, Hb. destruct (decide (k = i)) as [->|Hki]; [by rewrite list_lookup_insert_eq by (by rewrite length_insert)|].
  rewrite list_lookup_insert_ne by done. destruct (decide (k = j)) as [->|Hkj]; [by rewrite list_lookup_insert_eq|].
  by rewrite list_lookup_insert_ne.
Qed.

Lemma swap_length i j l : length (swap_list i j l) = length l.
Proof. unfold swap_list. destruct (l !! i), (l !! j); try done. by rewrite !length_insert. Qed.

Lemma swap_perm i j l : swap_list i j l ≡ₚ l.
Proof.
  destruct (decide (i < length l ∧ j < length l)%nat) as [[Hi Hj]|Hn].
  - apply Permutation_inj. split; [apply swap_length|].
    exists (λ k, if decide (k = i) then j else if decide (k = j) then i else k). split.
    + intros x y. repeat destruct (decide _); congruence.
    + intros k. rewrite swap_lookup by done. repeat destruct (decide _); done.
  - unfold swap_list. destruct (l !! i) eqn:Hi, (l !! j) eqn:Hj; try done.
    apply lookup_lt_Some in Hi, Hj. tauto.
Qed.

Lemma up_perm fuel l j : up fuel l j ≡ₚ l.
Proof.
  revert l j. induction fuel as [|fuel IH]; intros l j; cbn [up]; [done|]. destruct (Nat.eqb j 0); [done|].
  destruct (slot_less _ _ _); [|done]. rewrite IH. apply swap_perm.
Qed.

Lemma down_perm fuel l i : down fuel l i ≡ₚ l.
Proof.
  revert l i. induction fuel as [|fuel IH]; intros l i; cbn [down]; [done|]. destruct (Nat.leb _ _); [done|].
  destruct (slot_less _ _ i); [|done]. rewrite IH. apply swap_perm.
Qed.

(** Slot [c] does not outrank slot [p]. *)
Definition below (l : list E) (c p : nat) : Prop :=
  ∀ x y, l !! c = Some x → l !! p = Some y → R x y = false.

Definition heap (l : list E) : Prop := ∀ c, c ≠ 0%nat → below l c (heap_parent c).

Context `{SWO : StrictWeakOrder}.

Lemma swo_asym a b : R a b = true → R b a = false.
Proof.
  intros Hab. destruct (R b a) eqn:Hba; [|done]. pose proof (swo_trans a b a Hab Hba) as H. by rewrite swo_irrefl in H.
Qed.

(** What outranks what [y] does not outrank is not outranked by [y]. *)
Lemma swo_weaken x y z : R x z = true → R y z = false → R y x = false.
Proof. intros Hxz Hyz. destruct (R y x) eqn:Hyx; [|done]. by rewrite (swo_trans y x z) in Hyz. Qed.

Lemma slot_less_false l i j : slot_less l i j = false ↔ below l i j.
Proof.
  unfold slot_less, below. destruct (l !! i) as [x|], (l !! j) as [y|]; split; try done; try by intros ???.
  - by intros H ?? [= <-] [= <-].
  - intros H. by apply H.
Qed.

Lemma slot_less_true l i j : slot_less l i j = true → ∃ x y, l !! i = Some x ∧ l !! j = Some y ∧ R x y = true.
Proof. unfold slot_less. destruct (l !! i), (l !! j); try done. eauto. Qed.

Lemma below_trans l a b c : is_Some (l !! b) → below l a b → below l b c → below l a c.
Proof. intros [y Hy] Hab Hbc x z Hx Hz. eapply swo_incomp; [by apply Hab|by apply Hbc]. Qed.

(** [below] after an exchange, slot by slot. *)
Lemma swap_below i j l a b a' b' :
  (i < length l)%nat → (j < length l)%nat →
  (if decide (a = i) then j else if decide (a = j) then i else a) = a' →
  (if decide (b = i) then j else if decide (b = j) then i else b) = b' →
  below l a' b' → below (swap_list i j l) a b.
Proof.
  intros Hi Hj <- <- H x y. rewrite !swap_lookup by done. intros Hx Hy. apply H; repeat destruct (decide _); done.
Qed.

Lemma up_heap fuel l j :
  (j < length l)%nat → (j ≤ fuel)%nat →
  (∀ c, c ≠ 0%nat → c ≠ j → below l c (heap_parent c)) →
  (∀ c, c ≠ 0%nat → j ≠ 0%nat → heap_parent c = j → below l c (heap_parent j)) → heap (up fuel l j).
Proof.
  revert l j. induction fuel as [|fuel IH]; intros l j Hj Hf H1 H2; cbn [up].
  { intros c Hc. apply H1; lia. }
  destruct (Nat.eqb_spec j 0) as [->|Hj0]; [intros c Hc; by apply H1|].
  set (i := heap_parent j). pose proof (heap_parent_lt j Hj0) as Hij. fold i in Hij.
  destruct (slot_less l j i) eqn:Hless.
  2: { intros c Hc. destruct (decide (c = j)) as [->|Hne]; [by apply slot_less_false|by apply H1]. }
  apply slot_less_true in Hless as (x & y & Hx & Hy & Hxy).
  assert (is_Some (l !! i)) as Hli by eauto.
  apply IH; rewrite ?swap_length; try lia.
  - intros c Hc Hci. pose proof (heap_parent_lt c Hc) as Hpc. destruct (decide (c = j)) as [->|Hcj].
    { fold i. eapply swap_below; [lia..|done|done|]. rewrite (decide_False (P := j = i)), !decide_True by (done || lia).
      intros a b Ha Hb. simplify_eq. by apply swo_asym. }
    eapply swap_below; [lia..|done|done|]. rewrite !(decide_False (P := c = _)) by done.
    destruct (decide (heap_parent c = i)) as [Hpi|Hpi].
    { intros a b Ha Hb. simplify_eq. eapply swo_weaken; [exact Hxy|]. apply (H1 c Hc Hcj a y Ha). by rewrite Hpi. }
    destruct (decide (heap_parent c = j)) as [Hpj|Hpj]; [by apply H2|by apply H1].
  - intros c Hc Hi0 Hpc. pose proof (heap_parent_lt i Hi0). pose proof (heap_parent_lt c Hc).
    eapply swap_below; [lia..|done|done|]. rewrite (decide_False (P := c = i)) by lia.
    rewrite !(decide_False (P := heap_parent i = _)) by lia.
    destruct (decide (c = j)) as [->|Hcj]; [by apply H1; lia|].
    eapply below_trans; [exact Hli| |by apply H1; lia]. rewrite <-Hpc. by apply H1.
Qed.

(** The child [down] compares with: the one its sibling does not outrank. *)
Definition best_child (l : list E) (i : nat) : nat :=
  if Nat.ltb (2 * i + 1 + 1) (length l) && slot_less l (2 * i + 1 + 1) (2 * i + 1) then (2 * i + 1 + 1)%nat else (2 * i + 1)%nat.

Lemma best_child_spec l i :
  (2 * i + 1 < length l)%nat →
  (best_child l i < length l)%nat ∧ heap_parent (best_child l i) = i ∧ (i < best_child l i)%nat
  ∧ ∀ c, c ≠ 0%nat → heap_parent c = i → below l c (best_child l i).
Proof.
  intros Hl. destruct (heap_parent_child i) as [Hp1 Hp2]. unfold best_child.
  replace (2 * i + 1 + 1)%nat with (2 * i + 2)%nat by lia.
  assert (∀ c, below l c c) as Hrefl by (intros c a b Ha Hb; simplify_eq; apply swo_irrefl).
  destruct (Nat.ltb_spec (2 * i + 2) (length l)) as [Hr|Hr]; cbn [andb].
  - destruct (slot_less l (2 * i + 2) (2 * i + 1)) eqn:E0.
    + apply slot_less_true in E0 as (x & y & Hx & Hy & Hxy). split_and!; try lia.
      intros c Hc0 Hpc. destruct (heap_parent_inv c i Hc0 Hpc) as [->| ->]; [|apply Hrefl].
      intros a b Ha Hb. simplify_eq. by apply swo_asym.
    + apply slot_less_false in E0. split_and!; try lia.
      intros c Hc0 Hpc. by destruct (heap_parent_inv c i Hc0 Hpc) as [->| ->].
  - split_and!; try lia. intros c Hc0 Hpc. destruct (heap_parent_inv c i Hc0 Hpc) as [->| ->]; [apply Hrefl|].
    intros a b Ha _. apply lookup_lt_Some in Ha. lia.
Qed.

Lemma down_heap fuel l i :
  (length l ≤ fuel + i)%nat →
  (∀ c, c ≠ 0%nat → heap_parent c ≠ i → below l c (heap_parent c)) →
  (∀ c, c ≠ 0%nat → i ≠ 0%nat → heap_parent c = i → below l c (heap_parent i)) → heap (down fuel l i).
Proof.
  revert l i. induction fuel as [|fuel IH]; intros l i Hf H1 H2; cbn [down].
  { intros c Hc. destruct (decide (heap_parent c = i)) as [Hp|Hp]; [|by apply H1].
    intros x y Hx _. apply lookup_lt_Some in Hx. pose proof (heap_parent_lt c Hc). lia. }
  destruct (Nat.leb_spec (length l) (2 * i + 1)) as [Hl|Hl].
  { intros c Hc. destruct (decide (heap_parent c = i)) as [Hp|Hp]; [|by apply H1].
    intros x y Hx _. apply lookup_lt_Some in Hx. apply heap_parent_inv in Hp; [|done]. lia. }
  change (if _ && _ then _ else _) with (best_child l i).
  destruct (best_child_spec l i Hl) as (Hc & Hp & Hic & Hbest). set (ch := best_child l i) in *. clearbody ch.
  destruct (slot_less l ch i) eqn:Hless.
  2: { apply slot_less_false in Hless. intros c Hc0. destruct (decide (heap_parent c = i)) as [Hpc|Hpc]; [|by apply H1].
       rewrite Hpc. eapply below_trans; [by apply lookup_lt_is_Some|by apply Hbest|done]. }
  apply slot_less_true in Hless as (x & y & Hx & Hy & Hxy).
  apply IH; rewrite ?swap_length; [lia| |].
  - intros c Hc0 Hpc. eapply swap_below; [lia..|done|done|].
    rewrite (decide_False (P := heap_parent c = ch)) by done.
    destruct (decide (heap_parent c = i)) as [Hpi|Hpi].
    + destruct (decide (c = i)) as [->|Hci]; [pose proof (heap_parent_lt i Hc0); lia|].
      destruct (decide (c = ch)) as [->|Hcc]; [|by apply Hbest].
      intros a b Ha Hb. simplify_eq. by apply swo_asym.
    + destruct (decide (c = i)) as [->|Hci]; [apply H2; [lia|done|done]|].
      destruct (decide (c = ch)) as [->|Hcc]; [done|by apply H1].
  - intros c Hc0 _ Hpc. rewrite Hp. pose proof (heap_parent_lt c Hc0).
    eapply swap_below; [lia..|done|done|]. rewrite !(decide_False (P := c = _)), decide_True by (done || lia).
    rewrite <-Hpc. apply H1; [done|lia].
Qed.

(** Nothing outranks the root. *)
Lemma heap_top l t : heap l → l !! 0%nat = Some t → ∀ j x, l !! j = Some x → R x t = false.
Proof.
  intros Hh Ht j. induction (lt_wf j) as [j _ IH]. intros x Hx. destruct (decide (j = 0%nat)) as [->|Hj].
  - simplify_eq. apply swo_irrefl.
  - pose proof (heap_parent_lt j Hj) as Hp. pose proof (lookup_lt_Some _ _ _ Hx).
    destruct (lookup_lt_is_Some_2 l (heap_parent j)) as [y Hy]; [lia|].
    eapply swo_incomp; [by apply (Hh j Hj x y)|by apply (IH (heap_parent j))].
Qed.

(** Appending and sifting up; taking the root and sifting the last one down. *)
Lemma heap_push l x : heap l → heap (up (length l) (l ++ [x]) (length l)).
Proof.
  intros Hh. apply up_heap; [rewrite length_app; cbn; lia|lia| |].
  - intros c Hc Hne a b Ha Hb. pose proof (heap_parent_lt c Hc).
    apply lookup_lt_Some in Ha as Hlt. rewrite length_app in Hlt. cbn in Hlt.
    rewrite lookup_app_l in Ha, Hb by lia. by apply (Hh c Hc).
  - intros c Hc Hl Hp a b Ha _. pose proof (heap_parent_lt c Hc). apply lookup_lt_Some in Ha. rewrite length_app in Ha. cbn in Ha. lia.
Qed.

Lemma heap_pop l x : heap l → heap (down (length l) (<[0%nat := x]> (take (length l - 1) l)) 0).
Proof.
  intros Hh. apply down_heap; [rewrite length_insert, length_take; lia| |done].
  intros c Hc Hp a b. rewrite !list_lookup_insert_ne by lia. intros Ha Hb.
  apply lookup_take_Some in Ha as [Ha _], Hb as [Hb _]. by apply (Hh c Hc).
Qed.
End heap.

(** ** The mailbox *)

Section priority.
Context {A Msg : Type} (message : A → Msg) (priorityFunc : Msg → Msg → bool).

(** [pm_seqs] is [None] in unstable mode, [pm_capacity] is [None] for [Infinity]. *)
Record PriorityMailbox := MkPriority {
  pm_items : list A;
  pm_seqs : option (list nat);
  pm_capacity : option nat;
  pm_seq : nat;
  pm_disposed : bool }.

Definition new_PriorityMailbox (capacity : option nat) (stable : bool) : PriorityMailbox :=
  MkPriority [] (if stable then Some [] else None) capacity 0 false.

(** The constructors of the bounded mailboxes, after [checkCapacity]. *)
Definition new_BoundedPriorityMailbox (capacity : Z) (stable : bool) : result PriorityMailbox :=
  if capacity <=? 0 then Throw (RangeError "mailbox capacity must be a positive integer")
  else Ok (new_PriorityMailbox (Some (Z.to_nat capacity)) stable).

(** [less(i, j)]; both slots are in range wherever it is called. *)
Definition pm_less (m : PriorityMailbox) (i j : nat) : bool :=
  match pm_items m !! i, pm_items m !! j with
  | Some a, Some b =>
      if priorityFunc (message a) (message b) then true
      else match pm_seqs m with
           | None => false
           | Some seqs =>
               if priorityFunc (message b) (message a) then false
               else Nat.ltb (default 0%nat (seqs !! i)) (default 0%nat (seqs !! j))
           end
  | _, _ => false
  end.

Definition pm_swap (i j : nat) (m : PriorityMailbox) : PriorityMailbox :=
  MkPriority (swap_list i j (pm_items m)) (swap_list i j <$> pm_seqs m) (pm_capacity m) (pm_seq m) (pm_disposed m).

(** [siftUp]: the index falls at every turn. *)
Fixpoint siftUp (fuel : nat) (m : PriorityMailbox) (j : nat) : PriorityMailbox :=
  match fuel with
  | O => m
  | S fuel =>
      if Nat.eqb j 0 then m
      else let i := heap_parent j in
           if pm_less m j i then siftUp fuel (pm_swap i j m) i else m
  end.

(** [siftDown]: the index rises at every turn. *)
Fixpoint siftDown (fuel : nat) (m : PriorityMailbox) (i : nat) : PriorityMailbox :=
  match fuel with
  | O => m
  | S fuel =>
      let left := (2 * i + 1)%nat in
      if Nat.leb (length (pm_items m)) left then m
      else
        let child := if Nat.ltb (left + 1) (length (pm_items m)) && pm_less m (left + 1) left then (left + 1)%nat else left in
        if pm_less m child i then siftDown fuel (pm_swap i child m) child else m
  end.

(** [this.items.length >= this.capacity]. *)
Definition pm_full (m : PriorityMailbox) : bool :=
  match pm_capacity m with Some n => Nat.leb n (length (pm_items m)) | None => false end.

Definition pm_enqueue (msg : A) (m : PriorityMailbox) : option MailboxError * PriorityMailbox :=
  if pm_disposed m then (Some ErrMailboxDisposed, m)
  else if pm_full m then (Some ErrMailboxFull, m)
  else
    let m' := MkPriority (pm_items m ++ [msg]) ((λ seqs, seqs ++ [pm_seq m]) <$> pm_seqs m) (pm_capacity m)
                (match pm_seqs m with Some _ => S (pm_seq m) | None => pm_seq m end) false in
    (None, siftUp (length (pm_items m)) m' (length (pm_items m))).

(** Popping the last element of an array. *)
Definition pop_last {B} (l : list B) : list B := take (length l - 1) l.

Definition pm_dequeue (m : PriorityMailbox) : option A * PriorityMailbox :=
  let n := length (pm_items m) in
  match pm_items m with
  | [] => (None, m)
  | top :: _ =>
      let last_item := default top (last (pm_items m)) in
      let m1 := MkPriority (pop_last (pm_items m)) (pop_last <$> pm_seqs m) (pm_capacity m) (pm_seq m) (pm_disposed m) in
      (Some top,
       if Nat.ltb 1 n then
         let last_seq := λ seqs, default 0%nat (last seqs) in
         let m2 := MkPriority (<[0%nat := last_item]> (pm_items m1))
                     (match pm_seqs m with Some seqs => Some (<[0%nat := last_seq seqs]> (pop_last seqs)) | None => None end)
                     (pm_capacity m) (pm_seq m) (pm_disposed m) in
         siftDown n m2 0
       else m1)
  end.

Definition pm_dispose (m : PriorityMailbox) : PriorityMailbox :=
  MkPriority [] ((λ _, []) <$> pm_seqs m) (pm_capacity m) (pm_seq m) true.

#[export] Instance priority_ops : MailboxOps A PriorityMailbox := {|
  mb_enqueue := pm_enqueue;
  mb_dequeue := pm_dequeue;
  mb_isEmpty m := Nat.eqb (length (pm_items m)) 0;
  mb_len m := length (pm_items m);
  mb_dispose := pm_dispose |}.

(** *** Slots *)

(** A slot: the message and its arrival number, 0 in unstable mode. *)
Definition slots (m : PriorityMailbox) : list (A * nat) :=
  match pm_seqs m with Some seqs => zip (pm_items m) seqs | None => (λ a, (a, 0%nat)) <$> pm_items m end.

Definition outranks (x y : A) : bool := priorityFunc (message x) (message y).

(** The order of slots: priority, then arrival. *)
Definition slot_before (x y : A * nat) : bool :=
  if outranks x.1 y.1 then true else if outranks y.1 x.1 then false else Nat.ltb x.2 y.2.

(** The two arrays have the same length. *)
Definition pm_shape (m : PriorityMailbox) : Prop :=
  match pm_seqs m with Some seqs => length seqs = length (pm_items m) | None => True end.

Lemma swap_zip i j (l : list A) (k : list nat) :
  length k = length l → swap_list i j (zip l k) = zip (swap_list i j l) (swap_list i j k).
Proof.
  intros Hlen. unfold swap_list. rewrite !lookup_zip_with.
  destruct (l !! i) as [a|] eqn:Ha, (k !! i) as [s|] eqn:Hs; cbn.
  - destruct (l !! j) as [b|] eqn:Hb, (k !! j) as [t|] eqn:Ht; cbn; try done.
    + by rewrite !insert_zip_with.
    + apply lookup_lt_Some in Hb. apply lookup_ge_None in Ht. lia.
    + apply lookup_lt_Some in Ht. apply lookup_ge_None in Hb. lia.
  - apply lookup_lt_Some in Ha. apply lookup_ge_None in Hs. lia.
  - apply lookup_lt_Some in Hs. apply lookup_ge_None in Ha. lia.
  - done.
Qed.

Lemma length_slots m : pm_shape m → length (slots m) = length (pm_items m).
Proof.
  unfold pm_shape, slots. destruct (pm_seqs m); [|by rewrite length_fmap]. intros H. rewrite length_zip_with. lia.
Qed.

Lemma slots_swap i j m : pm_shape m → slots (pm_swap i j m) = swap_list i j (slots m) ∧ pm_shape (pm_swap i j m).
Proof.
  unfold pm_shape, slots. destruct m as [l [k|] c n d]; cbn; intros H.
  - rewrite swap_zip by done. by rewrite !swap_length.
  - split; [|done]. unfold swap_list. rewrite !list_lookup_fmap. destruct (l !! i), (l !! j); cbn; try done.
    by rewrite !list_fmap_insert.
Qed.

Lemma less_slots m i j : pm_shape m → pm_less m i j = slot_less slot_before (slots m) i j.
Proof.
  unfold pm_shape, slots, pm_less, slot_less, slot_before, outranks. destruct m as [l [k|] c n d]; cbn; intros H.
  - rewrite !lookup_zip_with. destruct (l !! i) as [a|] eqn:Ha; cbn; [|done].
    destruct (lookup_lt_is_Some_2 k i) as [s Hs]; [apply lookup_lt_Some in Ha; lia|].
    destruct (l !! j) as [b|] eqn:Hb; cbn; [|by destruct (k !! i)].
    destruct (lookup_lt_is_Some_2 k j) as [t Ht]; [apply lookup_lt_Some in Hb; lia|]. by rewrite Hs, Ht.
  - rewrite !list_lookup_fmap. destruct (l !! i), (l !! j); cbn; try done. by repeat destruct (priorityFunc _ _).
Qed.

(** What sifting leaves alone. *)
Definition same_box (m m' : PriorityMailbox) : Prop :=
  pm_capacity m' = pm_capacity m ∧ pm_seq m' = pm_seq m ∧ pm_disposed m' = pm_disposed m
  ∧ (is_Some (pm_seqs m') ↔ is_Some (pm_seqs m)).

Lemma siftUp_slots fuel m j :
  pm_shape m → slots (siftUp fuel m j) = up slot_before fuel (slots m) j ∧ pm_shape (siftUp fuel m j)
    ∧ same_box m (siftUp fuel m j).
Proof.
  revert m j. induction fuel as [|fuel IH]; intros m j Hm; cbn [siftUp up]; [done|].
  destruct (Nat.eqb j 0); [done|]. rewrite less_slots by done. destruct (slot_less _ _ _ _); [|done].
  destruct (slots_swap (heap_parent j) j m Hm) as [E Hm']. rewrite <-E.
  destruct (IH _ (heap_parent j) Hm') as (H1 & H2 & (H3 & H4 & H5 & H6)). do 5 (split; [done|]).
  rewrite H6. cbn. by rewrite fmap_is_Some.
Qed.

Lemma siftDown_slots fuel m i :
  pm_shape m → slots (siftDown fuel m i) = down slot_before fuel (slots m) i ∧ pm_shape (siftDown fuel m i)
    ∧ same_box m (siftDown fuel m i).
Proof.
  revert m i. induction fuel as [|fuel IH]; intros m i Hm; cbn [siftDown down]; [done|].
  rewrite length_slots by done. destruct (Nat.leb _ _); [done|]. rewrite !less_slots by done.
  set (child := if _ && _ then _ else _). destruct (slot_less _ _ child i); [|done].
  destruct (slots_swap i child m Hm) as [E Hm']. rewrite <-E.
  destruct (IH _ child Hm') as (H1 & H2 & (H3 & H4 & H5 & H6)). do 5 (split; [done|]).
  rewrite H6. cbn. by rewrite fmap_is_Some.
Qed.

(** The arrival number a new message gets. *)
Definition next_seq (m : PriorityMailbox) : nat := match pm_seqs m with Some _ => pm_seq m | None => 0%nat end.

Lemma enqueue_slots x m :
  pm_shape m → pm_disposed m = false → pm_full m = false →
  ∃ m', pm_enqueue x m = (None, m') ∧ pm_shape m' ∧ pm_capacity m' = pm_capacity m ∧ pm_disposed m' = false
    ∧ slots m' = up slot_before (length (slots m)) (slots m ++ [(x, next_seq m)]) (length (slots m))
    ∧ (is_Some (pm_seqs m') ↔ is_Some (pm_seqs m))
    ∧ pm_seq m' = match pm_seqs m with Some _ => S (pm_seq m) | None => pm_seq m end.
Proof.
  intros Hm Hd Hc. unfold pm_enqueue. rewrite Hd, Hc. set (m1 := MkPriority _ _ _ _ _). eexists. split; [done|].
  assert (pm_shape m1) as Hm1.
  { unfold pm_shape in *. cbn. destruct (pm_seqs m); cbn; [|done]. rewrite !length_app. cbn. lia. }
  assert (slots m1 = slots m ++ [(x, next_seq m)]) as Es.
  { unfold slots, next_seq, m1. cbn. unfold pm_shape in Hm. destruct (pm_seqs m); cbn.
    - by rewrite zip_with_app by done.
    - by rewrite fmap_app. }
  rewrite length_slots, <-Es by done.
  destruct (siftUp_slots (length (pm_items m)) m1 (length (pm_items m)) Hm1) as (H1 & H2 & (H3 & H4 & H5 & H6)).
  do 4 (split; [done|]). split; [rewrite H6; cbn; by rewrite fmap_is_Some|done].
Qed.

Lemma last_zip (l : list A) (k : list nat) a s :
  length k = length l → last l = Some a → last k = Some s → last (zip l k) = Some (a, s).
Proof.
  rewrite !last_lookup. intros Hlen Ha Hs. rewrite lookup_zip_with, length_zip_with, Hlen, Nat.min_id, Ha.
  cbn. rewrite <-Hlen, Hs. done.
Qed.

Lemma root_zip (l : list A) (k : list nat) a s :
  length k = length l →
  zip (<[0%nat := a]> (pop_last l)) (<[0%nat := s]> (pop_last k)) = <[0%nat := (a, s)]> (pop_last (zip l k)).
Proof.
  intros Hlen. unfold pop_last. rewrite length_zip_with, Hlen, Nat.min_id, zip_with_take. symmetry. apply (insert_zip_with pair).
Qed.

(** The arrays after the pop, with the last slot moved to the root. *)
Lemma dequeue_slots m top rest :
  pm_shape m → pm_items m = top :: rest →
  ∃ m' s z, pm_dequeue m = (Some top, m') ∧ pm_shape m' ∧ same_box m m'
    ∧ slots m !! 0%nat = Some (top, s) ∧ last (slots m) = Some z
    ∧ slots m' = if Nat.ltb 1 (length (slots m)) then down slot_before (length (slots m)) (<[0%nat := z]> (pop_last (slots m))) 0 else [].
Proof.
  intros Hm Hi. rewrite length_slots by done. unfold pm_dequeue. rewrite Hi. destruct m as [l k c n d]. cbn in Hi. subst l.
  assert (∃ a, last (top :: rest) = Some a) as [a Ha] by (rewrite last_cons; destruct (last rest); eauto).
  cbn [pm_items pm_seqs pm_capacity pm_seq pm_disposed]. rewrite Ha. cbn [from_option id].
  destruct k as [k|]; unfold pm_shape in Hm; cbn in Hm.
  - destruct k as [|s k]; [done|].
    assert (∃ t, last (s :: k) = Some t) as [t Ht] by (rewrite last_cons; destruct (last k); eauto).
    eexists _, s, (a, t). split; [done|]. rewrite Ht. cbn [slots pm_seqs pm_items]. rewrite (last_zip _ _ a t) by done.
    destruct (Nat.ltb_spec 1 (length (top :: rest))) as [Hn|Hn].
    + cbn [from_option id]. set (m2 := MkPriority _ _ _ _ _).
      assert (pm_shape m2) as Hm2.
      { unfold pm_shape, m2, pop_last. cbn [pm_seqs pm_items]. rewrite !length_insert, !length_take, Hm. done. }
      destruct (siftDown_slots (length (top :: rest)) m2 0 Hm2) as (H1 & H2 & (H3 & H4 & H5 & H6)). split; [done|].
      split; [do 3 (split; [done|]); rewrite H6; split; intros _; by eexists|]. do 2 (split; [done|]).
      rewrite H1. unfold slots, m2. cbn [pm_seqs pm_items]. by rewrite root_zip.
    + cbn [length] in Hn. destruct rest; cbn [length] in Hn; [|lia]. destruct k; [|done]. cbn. by split_and!.
  - exists (if (1 <? length (top :: rest))%nat
            then siftDown (length (top :: rest)) (MkPriority (<[0%nat := a]> (pop_last (top :: rest))) None c n d) 0
            else MkPriority (pop_last (top :: rest)) None c n d), 0%nat, (a, 0%nat).
    split; [done|]. cbn [slots pm_seqs pm_items]. rewrite fmap_last, Ha.
    destruct (Nat.ltb_spec 1 (length (top :: rest))) as [Hn|Hn].
    + set (m2 := MkPriority _ _ _ _ _). destruct (siftDown_slots (length (top :: rest)) m2 0 I) as (H1 & H2 & H3).
      do 4 (split; [done|]). rewrite H1. unfold slots, m2, pop_last. cbn [pm_seqs pm_items].
      by rewrite list_fmap_insert, fmap_take, length_fmap.
    + destruct rest; cbn [length] in Hn; [|lia]. cbn. by split_and!.
Qed.

(** One slot leaves: the root. *)
Lemma dequeue_perm m m' top s z :
  slots m !! 0%nat = Some (top, s) → last (slots m) = Some z →
  slots m' = (if Nat.ltb 1 (length (slots m)) then down slot_before (length (slots m)) (<[0%nat := z]> (pop_last (slots m))) 0 else []) →
  slots m ≡ₚ (top, s) :: slots m'.
Proof.
  intros Ht Hz ->. destruct (slots m) as [|t l]; [done|]. cbn in Ht. simplify_eq.
  destruct (Nat.ltb_spec 1 (length ((top, s) :: l))) as [Hn|Hn].
  - rewrite down_perm. destruct l as [|z' l _] using rev_ind; [cbn in Hn; lia|].
    rewrite app_comm_cons, last_snoc in Hz. simplify_eq. unfold pop_last.
    rewrite app_comm_cons, length_app, Nat.add_sub, take_app_length. cbn. by rewrite (Permutation_app_comm l).
  - destruct l; [done|cbn in Hn; lia].
Qed.

Lemma slots_items m : pm_shape m → (slots m).*1 = pm_items m.
Proof.
  unfold pm_shape, slots. destruct (pm_seqs m) as [k|]; intros H; [apply fst_zip; lia|].
  rewrite <-list_fmap_compose. apply list_fmap_id.
Qed.

(** The contract every mailbox has: no order needed. *)
Definition pm_holds (m : PriorityMailbox) (s : option (list A)) : Prop :=
  pm_shape m ∧ pm_disposed m = bool_decide (s = None) ∧ pm_items m ≡ₚ default [] s.

#[export] Program Instance priority_mailbox : Mailbox A PriorityMailbox := {| mb_repr := pm_holds |}.
Next Obligation.
  intros x m q (Hm & Hd & Hp). cbn in *.
  destruct (pm_full m) eqn:Ec.
  - exists (Some ErrMailboxFull), m, q. split; [unfold pm_enqueue; by rewrite Hd, Ec|]. split; [done|]. by right.
  - destruct (enqueue_slots x m Hm Hd Ec) as (m' & E & Hm' & _ & Hd' & Hs & _). exists None, m', (q ++ [x]).
    split; [done|]. split; [|by left]. split; [done|]. split; [done|]. cbn.
    rewrite <-(slots_items m' Hm'), Hs, up_perm, fmap_app, slots_items by done. by rewrite Hp.
Qed.
Next Obligation. intros x m (Hm & Hd & Hp). exists m. cbn in *. unfold pm_enqueue. by rewrite Hd. Qed.
Next Obligation.
  intros m s Hr Hs. exists m. split; [|done]. destruct Hr as (_ & _ & Hp). rewrite Hs in Hp.
  apply Permutation_nil_r in Hp. cbn. unfold pm_dequeue. by rewrite Hp.
Qed.
Next Obligation.
  intros m q (Hm & Hd & Hp) Hq. cbn in *. destruct (pm_items m) as [|top rest] eqn:Hi.
  { by apply Permutation_nil_l in Hp. }
  destruct (dequeue_slots m top rest Hm Hi) as (m' & s & z & E & Hm' & (_ & _ & Hd' & _) & Ht & Hz & Hs).
  exists top, m', (pm_items m'). split; [done|]. split; [split; [done|]; split; [by rewrite Hd'|done]|].
  rewrite <-Hp, <-Hi, <-(slots_items m Hm), <-(slots_items m' Hm'). by rewrite (dequeue_perm m m' top s z).
Qed.
Next Obligation.
  intros m s (_ & _ & Hp). cbn. rewrite (Permutation_length Hp). by destruct (default [] s).
Qed.
Next Obligation. intros m s (_ & _ & Hp). cbn. by rewrite Hp. Qed.
Next Obligation. intros m s (Hm & _). cbn. split; [|done]. unfold pm_shape in *. cbn. by destruct (pm_seqs m). Qed.

(** *** The order *)

Context `{Hswo : !StrictWeakOrder outranks}.

#[export] Instance slot_before_swo : StrictWeakOrder slot_before.
Proof.
  pose proof (swo_irrefl outranks) as Hi. pose proof (swo_trans outranks) as Ht. pose proof (swo_incomp outranks) as Hn.
  split; unfold slot_before.
  - intros [a s]. cbn [fst snd]. rewrite Hi. apply Nat.ltb_irrefl.
  - intros [a s] [b t] [c u]. cbn [fst snd]. pose proof (Ht a b c). pose proof (Hn b c a). pose proof (Hn c a b). pose proof (Ht c a b).
    pose proof (Hn a c b). pose proof (Hn c b a). pose proof (Ht b c a). pose proof (Hn b a c). pose proof (Hn a b c).
    destruct (outranks a b) eqn:?, (outranks b a) eqn:?, (outranks b c) eqn:?, (outranks c b) eqn:?, (outranks a c) eqn:?, (outranks c a) eqn:?;
      try solve [intuition congruence]; rewrite !Nat.ltb_lt; lia.
  - intros [a s] [b t] [c u]. cbn [fst snd]. pose proof (Ht a b c). pose proof (Hn b c a). pose proof (Hn c a b). pose proof (Ht c a b).
    pose proof (Hn a c b). pose proof (Hn c b a). pose proof (Ht b c a). pose proof (Hn b a c). pose proof (Hn a b c).
    destruct (outranks a b) eqn:?, (outranks b a) eqn:?, (outranks b c) eqn:?, (outranks c b) eqn:?, (outranks a c) eqn:?, (outranks c a) eqn:?;
      try solve [intuition congruence]; rewrite !Nat.ltb_ge; lia.
Qed.

(** ** The reference: arrival order, best first *)

(** Nothing pending outranks [x]. *)
Definition unbeaten (q : list A) (x : A) : bool := forallb (λ y, negb (outranks y x)) q.

(** The earliest message nothing outranks, and the others in their order. *)
Definition serve (q : list A) : option A * list A :=
  match list_find (unbeaten q) q with
  | Some (i, x) => (Some x, delete i q)
  | None => (None, q)
  end.

Definition call_ranked (cap : option nat) (s : option (list A)) (c : mailbox_call A)
    : mailbox_reply A * option (list A) :=
  match c, s with
  | CallDequeue, Some q => let '(x, q) := serve q in (ReplyDequeue x, Some q)
  | _, _ => call_queue cap s c
  end.

(** The heap holds the backlog [q], numbered by the increasing [ss]. *)
Definition pm_ranked (cap : option nat) (m : PriorityMailbox) (s : option (list A)) : Prop :=
  pm_shape m ∧ pm_capacity m = cap ∧ is_Some (pm_seqs m) ∧ pm_disposed m = bool_decide (s = None)
  ∧ heap slot_before (slots m)
  ∧ ∃ ss, length ss = length (default [] s) ∧ StronglySorted lt ss ∧ Forall (λ n, n < pm_seq m)%nat ss
      ∧ slots m ≡ₚ zip (default [] s) ss ∧ match cap with Some n => (length (default [] s) ≤ n)%nat | None => True end.

Lemma unbeaten_spec q x : unbeaten q x = true ↔ ∀ y, y ∈ q → outranks y x = false.
Proof.
  unfold unbeaten. rewrite forallb_forall. split; intros H y Hy.
  - apply negb_true_iff. apply H. by apply list_elem_of_In.
  - apply negb_true_iff. apply H. by apply list_elem_of_In.
Qed.

Lemma delete_zip {B C} i (l : list B) (k : list C) : delete i (zip l k) = zip (delete i l) (delete i k).
Proof.
  revert l k. induction i as [|i IH]; intros [|a l] [|b k]; try done; cbn; [by destruct l|]. f_equal. apply IH.
Qed.

Lemma StronglySorted_delete {B} (P : B → B → Prop) i l : StronglySorted P l → StronglySorted P (delete i l).
Proof.
  intros Hl. revert i. induction Hl as [|x l Hl IH Hx]; intros [|i]; cbn; try (done || constructor).
  - apply IH.
  - by apply Forall_delete.
Qed.

(** Stable or not, what is served is outranked by nothing pending. *)
Lemma heap_serves_best m x m' :
  pm_shape m → heap slot_before (slots m) → pm_dequeue m = (Some x, m') →
  unbeaten (pm_items m) x = true ∧ pm_shape m' ∧ heap slot_before (slots m').
Proof.
  intros Hm Hh E. destruct (pm_items m) as [|top rest] eqn:Hi; [by unfold pm_dequeue in E; rewrite Hi in E|].
  destruct (dequeue_slots m top rest Hm Hi) as (m1 & s & z & E' & Hm' & _ & Ht & _ & Hs'). rewrite E' in E. simplify_eq.
  split; [|split; [done|]].
  - apply unbeaten_spec. intros y Hy. rewrite <-Hi, <-(slots_items m Hm) in Hy.
    apply list_elem_of_fmap in Hy as ([y' t] & -> & [j Hj]%list_elem_of_lookup).
    pose proof (heap_top slot_before (slots m) (x, s) Hh Ht j (y', t) Hj) as Hb. unfold slot_before in Hb.
    cbn [fst snd] in *. by destruct (outranks y' x).
  - rewrite Hs'. destruct (Nat.ltb _ _); [exact (heap_pop slot_before (slots m) z Hh)|by intros ? ? ? ? ?].
Qed.

(** The root of the heap is the reference's choice. *)
Lemma serve_top q ss p x s :
  length ss = length q → StronglySorted lt ss → q !! p = Some x → ss !! p = Some s →
  (∀ y t, (y, t) ∈ zip q ss → slot_before (y, t) (x, s) = false) → serve q = (Some x, delete p q).
Proof.
  intros Hlen Hss Hp Hs Htop. unfold serve.
  assert (∀ i y t, q !! i = Some y → ss !! i = Some t → slot_before (y, t) (x, s) = false) as Ht.
  { intros i y t Hy Ht. apply Htop. apply list_elem_of_lookup. exists i. by rewrite lookup_zip_with, Hy, Ht. }
  assert (∀ y, y ∈ q → outranks y x = false) as Hub.
  { intros y [i Hi]%list_elem_of_lookup. destruct (lookup_lt_is_Some_2 ss i) as [t Hti]; [rewrite Hlen; by eapply lookup_lt_Some|].
    specialize (Ht i y t Hi Hti). unfold slot_before in Ht. cbn [fst snd] in Ht. by destruct (outranks y x). }
  replace (list_find (unbeaten q) q) with (Some (p, x)); [done|]. symmetry. apply list_find_Some.
  split; [done|]. split; [apply Is_true_true, unbeaten_spec; exact Hub|].
  intros i y Hy Hip Hbad. apply Is_true_true in Hbad. rewrite unbeaten_spec in Hbad.
  destruct (lookup_lt_is_Some_2 ss i) as [t Hti]; [rewrite Hlen; by eapply lookup_lt_Some|].
  specialize (Ht i y t Hy Hti). pose proof (StronglySorted_lookup _ _ _ _ _ _ Hss Hti Hs Hip) as Hts.
  unfold slot_before in Ht. cbn [fst snd] in Ht.
  rewrite (Hub y), (Hbad x) in Ht by (by eapply list_elem_of_lookup_2). apply Nat.ltb_ge in Ht. lia.
Qed.

Lemma ranked_enqueue cap x m s :
  pm_ranked cap m s →
  (mb_enqueue x m).1 = (queue_enqueue cap x s).1 ∧ pm_ranked cap (mb_enqueue x m).2 (queue_enqueue cap x s).2.
Proof.
  intros (Hm & Hc & Hk & Hd & Hh & ss & Hlen & Hss & Hlt & Hp & Hcap). cbn [mb_enqueue priority_ops].
  destruct s as [q|]; cbn in Hd, Hlen, Hp, Hcap.
  2: { unfold pm_enqueue. rewrite Hd. cbn. split; [done|]. split_and!; try done. by exists ss. }
  assert (length (pm_items m) = length q) as Hlq.
  { rewrite <-length_slots, (Permutation_length Hp), length_zip_with by done. lia. }
  assert (pm_full m = queue_full cap q) as Hfull.
  { unfold pm_full, queue_full. rewrite Hc, Hlq. destruct cap; [nat_cases|done]. }
  cbn [queue_enqueue]. destruct (queue_full cap q) eqn:Ef.
  { unfold pm_enqueue. rewrite Hd, Hfull. cbn. split; [done|]. split_and!; try done. by exists ss. }
  destruct (enqueue_slots x m Hm Hd Hfull) as (m' & E & Hm' & Hc' & Hd' & Hs' & Hk' & Hq'). rewrite E. cbn [fst snd].
  split; [done|]. destruct Hk as [k Hk]. unfold next_seq in Hs'. rewrite Hk in Hs', Hk', Hq'.
  do 2 (split; [done || congruence|]). split; [apply Hk'; by eexists|]. split; [done|].
  split; [rewrite Hs'; exact (heap_push slot_before (slots m) (x, pm_seq m) Hh)|].
  exists (ss ++ [pm_seq m]). cbn. rewrite !length_app. cbn. split; [lia|]. split; [|split; [|split]].
  - apply StronglySorted_app_2; [|done|repeat constructor].
    intros a b Ha ->%list_elem_of_singleton. rewrite Forall_forall in Hlt. by apply Hlt.
  - rewrite Hq'. apply Forall_app. split; [|repeat constructor; lia]. eapply Forall_impl; [exact Hlt|]. intros n Hn; cbn in *; lia.
  - rewrite Hs', up_perm, Hp, zip_with_app by done. done.
  - destruct cap as [n|]; [|done]. cbn in Ef. apply Nat.eqb_neq in Ef. lia.
Qed.

Lemma ranked_dequeue cap m q :
  pm_ranked cap m (Some q) → (mb_dequeue m).1 = (serve q).1 ∧ pm_ranked cap (mb_dequeue m).2 (Some (serve q).2).
Proof.
  intros (Hm & Hc & Hk & Hd & Hh & ss & Hlen & Hss & Hlt & Hp & Hcap). cbn in *.
  destruct (pm_items m) as [|top rest] eqn:Hi.
  - assert (q = []) as ->.
    { apply length_zero_iff_nil. pose proof (length_slots m Hm) as Hl. rewrite Hi, (Permutation_length Hp), length_zip_with in Hl.
      cbn in Hl. lia. }
    unfold pm_dequeue. rewrite Hi. cbn. split; [done|]. split_and!; try done. by exists ss.
  - destruct (dequeue_slots m top rest Hm Hi) as (m' & s & z & E & Hm' & (Hc' & Hq' & Hd' & Hk') & Ht & Hz & Hs'). rewrite E.
    pose proof (dequeue_perm m m' top s z Ht Hz Hs') as Hperm.
    assert ((top, s) ∈ zip q ss) as [p Hpz]%list_elem_of_lookup by (rewrite <-Hp; by eapply list_elem_of_lookup_2).
    pose proof Hpz as Hpz'. rewrite lookup_zip_with in Hpz'. destruct (q !! p) as [x|] eqn:Hx; [|done]. cbn in Hpz'.
    destruct (ss !! p) as [s'|] eqn:Hs; [|done]. cbn in Hpz'. simplify_eq.
    rewrite (serve_top q ss p top s Hlen Hss Hx Hs).
    2: { intros y t Hyt. rewrite <-Hp in Hyt. apply list_elem_of_lookup in Hyt as [j Hj]. exact (heap_top slot_before (slots m) (top, s) Hh Ht j (y, t) Hj). }
    cbn [fst snd]. split; [done|]. do 2 (split; [done || congruence|]). split; [by apply Hk'|]. split; [by rewrite Hd'|].
    split; [rewrite Hs'; destruct (Nat.ltb _ _); [exact (heap_pop slot_before (slots m) z Hh)|by intros ? ? ? ? ?]|].
    exists (delete p ss). cbn. pose proof (lookup_lt_Some _ _ _ Hx). rewrite !length_delete by (by eexists). rewrite Hlen.
    split; [done|]. split; [by apply StronglySorted_delete|]. split; [rewrite Hq'; by apply Forall_delete|]. split.
    + rewrite <-delete_zip. apply (Permutation_cons_inv (a := (top, s))). rewrite <-Hperm, Hp. by apply delete_Permutation.
    + destruct (pm_capacity m); [lia|done].
Qed.

Lemma ranked_history cap m s cs :
  pm_ranked cap m s → history call_mailbox m cs = history (call_ranked cap) s cs.
Proof.
  revert m s. induction cs as [|c cs IH]; intros m s Hr; [done|]. cbn [history].
  pose proof Hr as (Hm & _ & _ & Hd & _ & ss & Hlen & _ & _ & Hp & _).
  assert (length (pm_items m) = length (default [] s)) as Hl.
  { rewrite <-length_slots, (Permutation_length Hp), length_zip_with by done. lia. }
  destruct c as [x| | | |]; cbn [call_mailbox call_ranked call_queue].
  - destruct (ranked_enqueue cap x m s Hr) as [H1 H2].
    destruct (mb_enqueue x m), (queue_enqueue cap x s); cbn in *; subst. by rewrite (IH _ _ H2).
  - destruct s as [q|].
    + destruct (ranked_dequeue cap m q Hr) as [H1 H2].
      destruct (mb_dequeue m), (serve q); cbn in *; subst. by rewrite (IH _ _ H2).
    + cbn in *. unfold pm_dequeue. destruct (pm_items m) eqn:Hi; [|done]. by rewrite (IH _ _ Hr).
  - cbn. rewrite Hl, (IH _ _ Hr). by destruct (default [] s).
  - cbn. by rewrite Hl, (IH _ _ Hr).
  - rewrite (IH _ None); [done|]. destruct Hr as (_ & Hc & [k Hk] & _). cbn. unfold pm_dispose, pm_ranked, pm_shape, slots. rewrite Hk. cbn.
    split_and!; try done. exists []. split_and!; try done; [constructor|by destruct cap; [lia|]].
Qed.

Lemma new_PriorityMailbox_ranked cap : pm_ranked cap (new_PriorityMailbox cap true) (Some []).
Proof.
  unfold pm_ranked, pm_shape. cbn. split_and!; try done.
  exists []. split_and!; try done; [constructor|by destruct cap; [lia|]].
Qed.
End priority.
Arguments PriorityMailbox A : clear implicits.

(** C15: When the priority function is a strict weak order, a stable priority mailbox, bounded
    or not, is the queue that serves the earliest message nothing pending outranks. *)
Theorem stable_priority_refines {A Msg} (message : A → Msg) priorityFunc cap (cs : list (mailbox_call A)) :
  StrictWeakOrder (outranks message priorityFunc) →
  @history _ _ _ (@call_mailbox A (PriorityMailbox A) (priority_ops message priorityFunc)) (new_PriorityMailbox cap true) cs
  = history (call_ranked message priorityFunc cap) (Some []) cs.
Proof. intros Hswo. apply ranked_history; [done|]. apply new_PriorityMailbox_ranked. Qed.

(** Messages ranked by their last digit: of the two that share one, the earlier is first. *)
Lemma stable_priority_refines_witness :
  @history _ _ _ (@call_mailbox Z (PriorityMailbox Z) (priority_ops (λ x, x mod 10) Z.ltb)) (new_PriorityMailbox (Some 3%nat) true)
    [CallEnqueue 25; CallEnqueue 41; CallEnqueue 31; CallEnqueue 9; CallDequeue; CallDequeue; CallLen]
  = [ReplyEnqueue None; ReplyEnqueue None; ReplyEnqueue None; ReplyEnqueue (Some ErrMailboxFull);
     ReplyDequeue (Some 41); ReplyDequeue (Some 31); ReplyNat 1%nat].
Proof.
  rewrite (stable_priority_refines (λ x, x mod 10) Z.ltb (Some 3%nat)); [by vm_compute|].
  split; unfold outranks; intros; lia.
Defined.
