(* ===== verification/Pid.v ===== *)
(** * The process identity of an actor ([pid.ts], [stash.ts], [behavior.stack.ts], [reentrancy.ts])

    One actor's cell: mailbox, stash, behavior stack, lifecycle flags, request bookkeeping,
    the receive loop and the two lifecycle tasks, shutdown and restart.  Every operation is
    the code's between two suspension points; a step is one such run of the event loop.  The
    mailbox is any implementation of the mailbox contract.  What the actor's own code does
    in a turn is a [script]: the calls it makes on its context, each with a continuation on
    the error the call raises, and how the behavior ends.  Log fields record what happened
    for the theorems; no operation reads them. *)
From S2P Require Import Prelude Mailbox.

(** Messages an actor processes between two trips of the event loop. *)
Definition THROUGHPUT : nat := 2048.
#[global] Arguments THROUGHPUT : simpl never.

Inductive Directive := StopDirective | ResumeDirective | RestartDirective | EscalateDirective.

Inductive ReentrancyMode := ModeOff | ModeAllowAll | ModeStashNonReentrant.

(** The errors the operations return or throw. *)
Inductive CellError :=
  | ErrDead | ErrMailbox (e : MailboxError) | ErrStashBufferEmpty
  | ErrReentrancyDisabled | ErrReentrancyInFlightLimit | ErrRequestCanceled | ErrTarget.

Section pid.
Context {U B M : Type}.

(** A message of the application, or a command the runtime consumes in the loop. *)
Inductive Message :=
  | User (u : U)
  | PoisonPill
  | RequestReply (handle : nat)
  | Panicking (child : nat) (d : Directive).

Definition is_command (m : Message) : bool := match m with User _ => false | _ => true end.

Context `{MB : Mailbox Message M}.

(** How a behavior ends: it returns, throws (with the directive the actor's supervisor has
    for the error) or leaves a pending promise. *)
Inductive Outcome := Returns | Throws (d : option Directive) | Pending.

(** The calls of [ReceiveContext] that change the cell: its behaviors, its stash, sends to
    itself, its shutdown and its requests. *)
Inductive Action :=
  | ABecome (b : B) | ABecomeStacked (b : B) | AUnBecome | AUnBecomeStacked
  | AStash | AUnstash | AUnstashAll
  | ATellSelf (m : Message)
  | AShutdown
  | ARequest (mode : option ReentrancyMode) (target : option CellError)
  | ACancel (handle : nat).

Inductive script := Done (o : Outcome) | Do (a : Action) (k : option CellError → script).

(** ** State *)

(** [RequestHandle]: admitted, settled on the owner's turn, or abandoned. *)
Inductive HandleState := HOpen | HSettled | HAbandoned.

(** [ReentrancyState]'s counters with the handles, by number; the flag is [stashMode]. *)
Record Requests := MkRequests {
  inFlight : nat;
  paused : nat;
  handles : list (bool * HandleState) }.

(** Where [doShutdown] stands: parked in [awaitIdle], woken, waiting for the children,
    waiting for [postStop], finished. *)
Inductive ShutdownTask := NoShutdown | SWaitIdle | SIdle | SChildren | SPostStop | SDone.

(** Where [restart] stands; the flag is [wasSuspended]. *)
Inductive RestartTask := NoRestart | RWaitIdle (was : bool) | RIdle (was : bool) | RChildren (was : bool) | RPostStop | RPreStart.

Inductive Hook := PreStart | PostStop.

(** What happened: the messages let in, the ones that left (handled, dropped with the
    mailbox or the stash, or refused on re-delivery), the dead letters, and the hooks. *)
Record Log := MkLog {
  lg_in : list Message;
  lg_out : list Message;
  lg_dropped : list Message;
  lg_dead : list Message;
  lg_hooks : list Hook;
  lg_raced : bool }.

(** [l_ready]: occurrences of this actor in the dispatcher's queue; [l_parked]: the message
    whose behavior is pending, with the count of the turn it belongs to. *)
Record PID := MkPid {
  p_mailbox : M;
  p_stash : option (UnboundedMailbox Message);
  p_behaviors : list B;
  p_running : bool;
  p_processing : bool;
  p_stopping : bool;
  p_suspended : bool;
  p_restarting : bool;
  p_processedCount : nat;
  p_requests : Requests;
  l_ready : nat;
  l_parked : option (U * nat);
  p_shutdown : ShutdownTask;
  p_restart : RestartTask;
  p_log : Log }.

(** The spawn options that stay fixed. *)
Record Config := MkConfig {
  cf_maxMessages : nat;
  cf_reentrancy : option (ReentrancyMode * nat);
  cf_hasParent : bool }.

Context (cf : Config).

(** Field updates. *)
Definition set_mailbox (x : M) (p : PID) : PID :=
  MkPid x (p_stash p) (p_behaviors p) (p_running p) (p_processing p) (p_stopping p) (p_suspended p) (p_restarting p)
    (p_processedCount p) (p_requests p) (l_ready p) (l_parked p) (p_shutdown p) (p_restart p) (p_log p).
Definition set_stash (x : option (UnboundedMailbox Message)) (p : PID) : PID :=
  MkPid (p_mailbox p) x (p_behaviors p) (p_running p) (p_processing p) (p_stopping p) (p_suspended p) (p_restarting p)
    (p_processedCount p) (p_requests p) (l_ready p) (l_parked p) (p_shutdown p) (p_restart p) (p_log p).
Definition set_behaviors (x : list B) (p : PID) : PID :=
  MkPid (p_mailbox p) (p_stash p) x (p_running p) (p_processing p) (p_stopping p) (p_suspended p) (p_restarting p)
    (p_processedCount p) (p_requests p) (l_ready p) (l_parked p) (p_shutdown p) (p_restart p) (p_log p).
Definition set_running (x : bool) (p : PID) : PID :=
  MkPid (p_mailbox p) (p_stash p) (p_behaviors p) x (p_processing p) (p_stopping p) (p_suspended p) (p_restarting p)
    (p_processedCount p) (p_requests p) (l_ready p) (l_parked p) (p_shutdown p) (p_restart p) (p_log p).
Definition set_processing (x : bool) (p : PID) : PID :=
  MkPid (p_mailbox p) (p_stash p) (p_behaviors p) (p_running p) x (p_stopping p) (p_suspended p) (p_restarting p)
    (p_processedCount p) (p_requests p) (l_ready p) (l_parked p) (p_shutdown p) (p_restart p) (p_log p).
Definition set_stopping (x : bool) (p : PID) : PID :=
  MkPid (p_mailbox p) (p_stash p) (p_behaviors p) (p_running p) (p_processing p) x (p_suspended p) (p_restarting p)
    (p_processedCount p) (p_requests p) (l_ready p) (l_parked p) (p_shutdown p) (p_restart p) (p_log p).
Definition set_suspended (x : bool) (p : PID) : PID :=
  MkPid (p_mailbox p) (p_stash p) (p_behaviors p) (p_running p) (p_processing p) (p_stopping p) x (p_restarting p)
    (p_processedCount p) (p_requests p) (l_ready p) (l_parked p) (p_shutdown p) (p_restart p) (p_log p).
Definition set_restarting (x : bool) (p : PID) : PID :=
  MkPid (p_mailbox p) (p_stash p) (p_behaviors p) (p_running p) (p_processing p) (p_stopping p) (p_suspended p) x
    (p_processedCount p) (p_requests p) (l_ready p) (l_parked p) (p_shutdown p) (p_restart p) (p_log p).
Definition set_count (x : nat) (p : PID) : PID :=
  MkPid (p_mailbox p) (p_stash p) (p_behaviors p) (p_running p) (p_processing p) (p_stopping p) (p_suspended p) (p_restarting p)
    x (p_requests p) (l_ready p) (l_parked p) (p_shutdown p) (p_restart p) (p_log p).
Definition set_requests (x : Requests) (p : PID) : PID :=
  MkPid (p_mailbox p) (p_stash p) (p_behaviors p) (p_running p) (p_processing p) (p_stopping p) (p_suspended p) (p_restarting p)
    (p_processedCount p) x (l_ready p) (l_parked p) (p_shutdown p) (p_restart p) (p_log p).
Definition set_ready (x : nat) (p : PID) : PID :=
  MkPid (p_mailbox p) (p_stash p) (p_behaviors p) (p_running p) (p_processing p) (p_stopping p) (p_suspended p) (p_restarting p)
    (p_processedCount p) (p_requests p) x (l_parked p) (p_shutdown p) (p_restart p) (p_log p).
Definition set_parked (x : option (U * nat)) (p : PID) : PID :=
  MkPid (p_mailbox p) (p_stash p) (p_behaviors p) (p_running p) (p_processing p) (p_stopping p) (p_suspended p) (p_restarting p)
    (p_processedCount p) (p_requests p) (l_ready p) x (p_shutdown p) (p_restart p) (p_log p).
Definition set_shutdown (x : ShutdownTask) (p : PID) : PID :=
  MkPid (p_mailbox p) (p_stash p) (p_behaviors p) (p_running p) (p_processing p) (p_stopping p) (p_suspended p) (p_restarting p)
    (p_processedCount p) (p_requests p) (l_ready p) (l_parked p) x (p_restart p) (p_log p).
Definition set_restart (x : RestartTask) (p : PID) : PID :=
  MkPid (p_mailbox p) (p_stash p) (p_behaviors p) (p_running p) (p_processing p) (p_stopping p) (p_suspended p) (p_restarting p)
    (p_processedCount p) (p_requests p) (l_ready p) (l_parked p) (p_shutdown p) x (p_log p).
Definition set_log (x : Log) (p : PID) : PID :=
  MkPid (p_mailbox p) (p_stash p) (p_behaviors p) (p_running p) (p_processing p) (p_stopping p) (p_suspended p) (p_restarting p)
    (p_processedCount p) (p_requests p) (l_ready p) (l_parked p) (p_shutdown p) (p_restart p) x.

(** Log entries. *)
Definition log_in (m : Message) (p : PID) : PID :=
  let l := p_log p in set_log (MkLog (lg_in l ++ [m]) (lg_out l) (lg_dropped l) (lg_dead l) (lg_hooks l) (lg_raced l)) p.
Definition log_out (m : Message) (p : PID) : PID :=
  let l := p_log p in set_log (MkLog (lg_in l) (lg_out l ++ [m]) (lg_dropped l) (lg_dead l) (lg_hooks l) (lg_raced l)) p.
Definition log_dropped (ms : list Message) (p : PID) : PID :=
  let l := p_log p in set_log (MkLog (lg_in l) (lg_out l) (lg_dropped l ++ ms) (lg_dead l) (lg_hooks l) (lg_raced l)) p.
Definition log_dead (m : Message) (p : PID) : PID :=
  let l := p_log p in set_log (MkLog (lg_in l) (lg_out l) (lg_dropped l) (lg_dead l ++ [m]) (lg_hooks l) (lg_raced l)) p.
Definition log_hook (h : Hook) (p : PID) : PID :=
  let l := p_log p in set_log (MkLog (lg_in l) (lg_out l) (lg_dropped l) (lg_dead l) (lg_hooks l ++ [h]) (lg_raced l)) p.
Definition log_raced (b : bool) (p : PID) : PID :=
  let l := p_log p in set_log (MkLog (lg_in l) (lg_out l) (lg_dropped l) (lg_dead l) (lg_hooks l) (lg_raced l || b)) p.

(** ** Receiving *)

Definition isRunning (p : PID) : bool := p_running p && negb (p_stopping p) && negb (p_suspended p).

Definition mailboxEmpty (p : PID) : bool := mb_isEmpty (p_mailbox p).

(** The loop waits for a behavior's promise. *)
Definition parked (p : PID) : nat := match l_parked p with Some _ => 1 | None => 0 end.

(** [schedule]: one entry in the dispatcher's queue unless the loop is already due. *)
Definition schedule (p : PID) : PID :=
  if p_processing p then p else set_ready (S (l_ready p)) (set_processing true p).

(** [doReceive]; [fresh] is false for a message that comes back from the stash. *)
Definition doReceive (fresh : bool) (m : Message) (p : PID) : option CellError * PID :=
  let refused p := log_dead m (if fresh then p else log_dropped [m] p) in
  if negb (isRunning p) then (Some ErrDead, refused p)
  else
    let '(err, mb) := mb_enqueue m (p_mailbox p) in
    let p := set_mailbox mb p in
    match err with
    | Some e => (Some (ErrMailbox e), refused p)
    | None => (None, schedule (if fresh then log_in m p else p))
    end.

(** ** Stash and behaviors *)

(** [stash]; [fresh] is false when the loop itself parks a message. *)
Definition stash (fresh : bool) (m : Message) (p : PID) : option CellError * PID :=
  let s := default new_UnboundedMailbox (p_stash p) in
  let '(err, s) := mb_enqueue m s in
  let p := set_stash (Some s) p in
  match err with
  | Some e => (Some (ErrMailbox e), p)
  | None => (None, if fresh then log_in m p else p)
  end.

Definition unstash (p : PID) : option CellError * PID :=
  match p_stash p with
  | None => (Some ErrStashBufferEmpty, p)
  | Some s =>
      let '(m, s) := mb_dequeue s in
      let p := set_stash (Some s) p in
      match m with
      | None => (Some ErrStashBufferEmpty, p)
      | Some m => doReceive false m p
      end
  end.

(** [unstashAll]: every turn takes one message out of the stash. *)
Fixpoint unstash_loop (fuel : nat) (p : PID) : option CellError * PID :=
  match fuel, p_stash p with
  | S fuel, Some s =>
      let '(m, s) := mb_dequeue s in
      let p := set_stash (Some s) p in
      match m with
      | None => (None, p)
      | Some m =>
          let '(err, p) := doReceive false m p in
          match err with Some e => (Some e, p) | None => unstash_loop fuel p end
      end
  | _, _ => (None, p)
  end.

Definition unstashAll (p : PID) : option CellError * PID :=
  match p_stash p with
  | None => (None, p)
  | Some s => unstash_loop (S (mb_len s)) p
  end.

(** [BehaviorStack], top first. *)
Definition setBehavior (b : B) (p : PID) : PID := set_behaviors [b] p.
Definition setBehaviorStacked (b : B) (p : PID) : PID := set_behaviors (b :: p_behaviors p) p.
Definition resetBehavior (p : PID) : PID := set_behaviors [] p.
Definition unsetBehaviorStacked (p : PID) : PID := set_behaviors (tail (p_behaviors p)) p.

(** ** Shutdown *)

(** [notifyIdle]: the parked tasks become runnable. *)
Definition notifyIdle (p : PID) : PID :=
  let p := match p_shutdown p with SWaitIdle => set_shutdown SIdle p | _ => p end in
  match p_restart p with RWaitIdle was => set_restart (RIdle was) p | _ => p end.

(** [doShutdown] from the point where the loop is idle. *)
Definition shutdown_postStop (p : PID) : PID := set_shutdown SPostStop (log_hook PostStop p).

Definition shutdown_idle (hasChildren : bool) (p : PID) : PID :=
  if hasChildren then set_shutdown SChildren p else shutdown_postStop p.

(** [shutdown]: a call after the first returns the pending promise; one on an actor that
    never started does nothing.  The log notes a shutdown that begins during a restart. *)
Definition shutdown (hasChildren : bool) (p : PID) : PID :=
  match p_shutdown p with
  | NoShutdown =>
      if negb (p_running p) then p
      else
        let p := log_raced (p_restarting p) (set_stopping true p) in
        if p_processing p then set_shutdown SWaitIdle p else shutdown_idle hasChildren p
  | _ => p
  end.

(** The messages a mailbox holds, in serving order. *)
Fixpoint drain {Q} `{MailboxOps Message Q} (fuel : nat) (q : Q) : list Message :=
  match fuel with
  | O => []
  | S fuel => let '(m, q) := mb_dequeue q in match m with Some m => m :: drain fuel q | None => [] end
  end.

Definition contents {Q} `{MailboxOps Message Q} (q : Q) : list Message := drain (mb_len q) q.

Definition stashed (p : PID) : list Message := match p_stash p with Some s => contents s | None => [] end.

(** [reset]. *)
Definition reset (p : PID) : PID :=
  let p := log_dropped (contents (p_mailbox p) ++ stashed p) p in
  let p := set_stash None (set_mailbox (mb_dispose (p_mailbox p)) p) in
  set_suspended false (set_stopping false (set_running false (set_behaviors [] p))).

(** Resuming [doShutdown] after one of its awaits. *)
Definition shutdown_resume (hasChildren : bool) (p : PID) : PID :=
  match p_shutdown p with
  | SIdle => shutdown_idle hasChildren p
  | SChildren => shutdown_postStop p
  | SPostStop => set_shutdown SDone (reset p)
  | _ => p
  end.

(** ** Requests *)

(** [openRequest]: admission; the result is the handle's [stashMode]. *)
Definition openRequest (mode : option ReentrancyMode) (p : PID) : CellError + bool :=
  match cf_reentrancy cf with
  | None => inl ErrReentrancyDisabled
  | Some (configured, maxInFlight) =>
      match default configured mode with
      | ModeOff => inl ErrReentrancyDisabled
      | m =>
          if negb (Nat.eqb maxInFlight 0) && Nat.leb maxInFlight (inFlight (p_requests p)) then inl ErrReentrancyInFlightLimit
          else inr (match m with ModeStashNonReentrant => true | _ => false end)
      end
  end.

Definition admitRequest (stashMode : bool) (p : PID) : PID :=
  let r := p_requests p in
  set_requests (MkRequests (S (inFlight r)) (if stashMode then S (paused r) else paused r)
                  (handles r ++ [(stashMode, HOpen)])) p.

(** [request]: [target] is the error of the target's mailbox, [None] when it accepts. *)
Definition request (mode : option ReentrancyMode) (target : option CellError) (p : PID) : option CellError * PID :=
  match openRequest mode p with
  | inl e => (Some e, p)
  | inr stashMode =>
      match target with
      | Some e => (Some e, p)
      | None => (None, admitRequest stashMode p)
      end
  end.

Definition set_handle (h : nat) (s : HandleState) (p : PID) : PID :=
  let r := p_requests p in
  set_requests (MkRequests (inFlight r) (paused r)
                  (match handles r !! h with Some (stashMode, _) => <[h := (stashMode, s)]> (handles r) | None => handles r end)) p.

Definition handle_open (h : nat) (p : PID) : bool :=
  match handles (p_requests p) !! h with Some (_, HOpen) => true | _ => false end.

(** [abandon]: settles without touching the owner's counters. *)
Definition abandon (h : nat) (p : PID) : PID := if handle_open h p then set_handle h HAbandoned p else p.

Definition deliverRequestReply (h : nat) (p : PID) : PID :=
  let '(err, p) := doReceive true (RequestReply h) p in
  match err with Some _ => abandon h p | None => p end.

Definition cancel (h : nat) (p : PID) : PID := if handle_open h p then deliverRequestReply h p else p.

(** [completeRequest] up to the continuation: [None] when the handle was settled before. *)
Definition settleRequest (h : nat) (p : PID) : option PID :=
  match (handles (p_requests p) !! h : option (bool * HandleState)) with
  | Some (stashMode, HOpen) =>
      let p := set_handle h HSettled p in
      let r := p_requests p in
      let p := set_requests (MkRequests (inFlight r - 1)%nat (if stashMode then (paused r - 1)%nat else paused r) (handles r)) p in
      Some (if stashMode && Nat.eqb (paused (p_requests p)) 0 then (unstashAll p).2 else p)
  | _ => None
  end.

(** ** The actor's own code *)

(** [m] is the message being processed; the continuation of a request has none to stash. *)
Definition act (m : option Message) (a : Action) (p : PID) : option CellError * PID :=
  match a with
  | ABecome b => (None, setBehavior b p)
  | ABecomeStacked b => (None, setBehaviorStacked b p)
  | AUnBecome => (None, resetBehavior p)
  | AUnBecomeStacked => (None, unsetBehaviorStacked p)
  | AStash => match m with Some m => stash true m p | None => (None, p) end
  | AUnstash => unstash p
  | AUnstashAll => unstashAll p
  | ATellSelf m' => doReceive true m' p
  | AShutdown => (None, shutdown false p)
  | ARequest mode target => request mode target p
  | ACancel h => (None, cancel h p)
  end.

Fixpoint run_script (m : option Message) (s : script) (p : PID) : Outcome * PID :=
  match s with
  | Done o => (o, p)
  | Do a k => let '(err, p) := act m a p in run_script m (k err) p
  end.

(** ** Faults *)

Definition suspend (p : PID) : PID := set_suspended true p.

(** [handleFault]: the message sent to the parent is the parent's affair. *)
Definition handleFault (d : option Directive) (p : PID) : PID :=
  match d with Some ResumeDirective => p | _ => suspend p end.

(** [handlePanicking]: stop and restart act on the children; an escalation comes back to
    this actor as a [PanicSignal] message, which [signal] stands for. *)
Definition handlePanicking (signal : U) (d : Directive) (p : PID) : PID :=
  match d with EscalateDirective => (doReceive true (User signal) p).2 | _ => p end.

(** ** The receive loop *)

Definition count_processed (p : PID) : PID := set_count (S (p_processedCount p)) p.

(** [postReceive]: whether the loop goes on.  The loop is processing here, so the
    children are looked at later, by the parked shutdown. *)
Definition postReceive (p : PID) : bool * PID :=
  let p := count_processed p in
  if p_suspended p then (false, notifyIdle (set_processing false p))
  else
    (true, if negb (Nat.eqb (cf_maxMessages cf) 0) && Nat.leb (cf_maxMessages cf) (p_processedCount p)
           then shutdown false p else p).

(** What the actor does in a turn: the script of its [n]th run, given the behavior on top
    of the stack and the message; continuations of requests are run the same way. *)
Definition environment := nat → option B → Message → script.

(** The outcome of a turn: the loop returned, or the continuation of a request threw,
    which nothing catches. *)
Inductive turn := TurnEnds (p : PID) | TurnThrows.

(** [yield]: back to the end of the dispatcher's queue. *)
Definition yield (p : PID) : PID := set_ready (S (l_ready p)) p.

(** [processLoop]; [None] when the fuel does not cover the turn. *)
Fixpoint processLoop (fuel : nat) (signal : U) (env : environment) (n processed : nat) (p : PID) : option turn :=
  match fuel with
  | O => None
  | S fuel =>
      let '(msg, mb) := mb_dequeue (p_mailbox p) in
      let p := set_mailbox mb p in
      match msg with
      | None => Some (TurnEnds (notifyIdle (set_processing false p)))
      | Some (RequestReply h) =>
          let p := count_processed (log_out (RequestReply h) p) in
          match settleRequest h p with
          | None => processLoop fuel signal env n processed p
          | Some p =>
              let '(o, p) := run_script None (env n None (RequestReply h)) p in
              match o with
              | Throws _ => Some TurnThrows
              | _ => processLoop fuel signal env (S n) processed p
              end
          end
      | Some PoisonPill =>
          processLoop fuel signal env n processed (shutdown false (count_processed (log_out PoisonPill p)))
      | Some (Panicking c d) =>
          processLoop fuel signal env n processed (handlePanicking signal d (count_processed (log_out (Panicking c d) p)))
      | Some (User u) =>
          if negb (Nat.eqb (paused (p_requests p)) 0) then
            let p := (stash false (User u) p).2 in
            if Nat.leb THROUGHPUT (S processed) then Some (TurnEnds (yield p))
            else processLoop fuel signal env n (S processed) p
          else
            let '(o, p) := run_script (Some (User u)) (env n (head (p_behaviors p)) (User u)) (log_out (User u) p) in
            match o with
            | Pending => Some (TurnEnds (set_parked (Some (u, processed)) p))
            | o =>
                let p := match o with Throws d => handleFault d p | _ => p end in
                let '(continue, p) := postReceive p in
                if continue then
                  if Nat.leb THROUGHPUT (S processed) then Some (TurnEnds (yield p))
                  else processLoop fuel signal env (S n) (S processed) p
                else Some (TurnEnds p)
            end
      end
  end.

(** [dispatch]: the dispatcher takes this actor's entry and runs the loop. *)
Definition dispatch (fuel : nat) (signal : U) (env : environment) (p : PID) : option turn :=
  processLoop fuel signal env 0 0 (set_ready (l_ready p - 1)%nat p).

(** [resumeLoop], from the settlement of the pending behavior. *)
Definition resumeLoop (fuel : nat) (signal : U) (env : environment) (rejected : option (option Directive)) (p : PID) : option turn :=
  match l_parked p with
  | None => None
  | Some (_, processed) =>
      let p := set_parked None p in
      let p := match rejected with Some d => handleFault d p | None => p end in
      let '(continue, p) := postReceive p in
      if continue then
        if Nat.leb THROUGHPUT (S processed) then Some (TurnEnds (yield p))
        else processLoop fuel signal env 0 (S processed) p
      else Some (TurnEnds p)
  end.

(** ** Start, restart, reinstate *)

(** [start], once [preStart] has returned: the first message is [PostStart]. *)
Definition start (postStart : U) (p : PID) : PID :=
  if p_running p then p else (doReceive true (User postStart) (set_running true (log_hook PreStart p))).2.

(** [restart] from the point where the children are gone. *)
Definition restart_preStart (p : PID) : PID :=
  let p := log_dropped (stashed p) p in
  let p := set_count 0 (set_stash None (set_behaviors [] p)) in
  set_restart RPreStart (log_hook PreStart p).

Definition restart_hooks (was : bool) (p : PID) : PID :=
  if was then restart_preStart p else set_restart RPostStop (log_hook PostStop p).

Definition restart_idle (was hasChildren : bool) (p : PID) : PID :=
  if p_stopping p then set_restarting false (set_restart NoRestart p)
  else if hasChildren then set_restart (RChildren was) p
  else restart_hooks was p.

(** [restart]; an error is [ErrDead] and leaves the actor as it was. *)
Definition restart (hasChildren : bool) (p : PID) : option CellError * PID :=
  if p_stopping p || negb (p_running p) || p_restarting p then (Some ErrDead, p)
  else
    let was := p_suspended p in
    let p := set_suspended true (set_restarting true p) in
    (None, if p_processing p then set_restart (RWaitIdle was) p else restart_idle was hasChildren p).

(** Resuming [restart] after one of its awaits; [ok] is the fate of [preStart]. *)
Definition restart_resume (hasChildren ok : bool) (p : PID) : PID :=
  match p_restart p with
  | RIdle was => restart_idle was hasChildren p
  | RChildren was => restart_hooks was p
  | RPostStop => restart_preStart p
  | RPreStart =>
      let p := set_restarting false (set_restart NoRestart p) in
      if ok then
        let p := set_suspended false p in
        if mailboxEmpty p then p else schedule p
      else p
  | _ => p
  end.

(** [doReinstate]; the log notes one that meets a stop or a restart. *)
Definition reinstate (p : PID) : PID :=
  if negb (p_suspended p) then p
  else
    let p := log_raced (p_stopping p || p_restarting p) (set_suspended false p) in
    if mailboxEmpty p then p else schedule p.
End pid.

(** Reads of a field after a write. *)
Ltac cell :=
  unfold stashed, parked in *;
  cbn [p_mailbox p_stash p_behaviors p_running p_processing p_stopping p_suspended p_restarting p_processedCount p_requests
       l_ready l_parked p_shutdown p_restart p_log lg_in lg_out lg_dropped lg_dead lg_hooks lg_raced
       set_mailbox set_stash set_behaviors set_running set_processing set_stopping set_suspended set_restarting set_count
       set_requests set_ready set_parked set_shutdown set_restart set_log
       log_in log_out log_dropped log_dead log_hook log_raced fst snd].
