(* ===== verification/PidInvariant.v ===== *)
(** * What holds of an actor in every interleaving

    The steps of the event loop that touch one actor, and the invariants every reachable
    state has, for every mailbox that meets the contract and every behavior: one turn at a
    time, no lost wake-up, no message lost, exact request accounting; and the races in
    which a guarantee of the documentation fails. *)
From S2P Require Import Prelude Mailbox Pid.

Section invariant.
Context {U B M : Type} {ops : MailboxOps (@Message U) M} {MB : Mailbox (@Message U) M} (cf : Config).
Abbreviation Msg := (@Message U).
Abbreviation P := (@PID U B M).
Implicit Types (p : P) (m : Msg).

(** ** Steps *)

(** One run of the event loop on this actor: a send from outside, a reply or a
    cancellation of one of its requests, a turn, a call of a parked behavior or its
    settlement, a lifecycle call, or a lifecycle task taking its next leg.  A turn that
    throws has no step: the exception of a request's continuation leaves the event loop
    uncaught, which ends the process. *)
Inductive step : P → P → Prop :=
  | step_tell m p : step p (doReceive true m p).2
  | step_reply h p : step p (deliverRequestReply h p)
  | step_cancel h p : step p (cancel h p)
  | step_dispatch fuel signal env p p' :
      l_ready p ≠ 0%nat → dispatch cf fuel signal env p = Some (TurnEnds p') → step p p'
  | step_act u n s p p' :
      l_parked p = Some (u, n) → run_script cf (Some (User u)) s p = (Returns, p') → step p p'
  | step_settle fuel signal env rejected p p' :
      resumeLoop cf fuel signal env rejected p = Some (TurnEnds p') → step p p'
  | step_shutdown hasChildren p : step p (shutdown hasChildren p)
  | step_shutdown_resume hasChildren p : step p (shutdown_resume hasChildren p)
  | step_restart hasChildren p : step p (restart hasChildren p).2
  | step_restart_resume hasChildren ok p : step p (restart_resume hasChildren ok p)
  | step_reinstate p : step p (reinstate p).

(** The actor as [spawn] leaves it: constructed on an empty mailbox and started. *)
Definition new_PID (mb : M) : P :=
  MkPid mb None [] false false false false false 0 (MkRequests 0 0 []) 0 None NoShutdown NoRestart
    (MkLog [] [] [] [] [] false).

Definition started (mb : M) (postStart : U) : P := start postStart (new_PID mb).

Definition reachable p : Prop := ∃ mb u, mb_repr mb (Some []) ∧ rtc step (started mb u) p.

(** An invariant holds of every reachable state. *)
Lemma reachable_ind (I : P → Prop) :
  (∀ mb u, mb_repr mb (Some []) → I (started mb u)) → (∀ p p', I p → step p p' → I p') → ∀ p, reachable p → I p.
Proof.
  intros H0 Hs p (mb & u & Hmb & Hr). specialize (H0 mb u Hmb). induction Hr as [|x y z Hxy _ IH]; [done|].
  apply IH. by eapply Hs.
Qed.

(** *** Induction over scripts and turns *)

(** What an invariant of the cell needs to hold through the actor's own calls. *)
Record script_closed (I : P → Prop) := {
  sv_behaviors p bs : I p → I (set_behaviors bs p);
  sv_receive p m : I p → I (doReceive true m p).2;
  sv_stash p u : I p → I (stash true (User u) p).2;
  sv_unstash p : I p → I (unstash p).2;
  sv_unstashAll p : I p → I (unstashAll p).2;
  sv_shutdown p : I p → I (shutdown false p);
  sv_admit p b : I p → I (admitRequest b p);
  sv_deliver p h : I p → I (deliverRequestReply h p) }.

(** What it needs to hold during a turn ([I]) and at its end ([J]). *)
Record turn_invariant (I J : P → Prop) := {
  tv_script : script_closed I;
  tv_take p mb m : I p → mb_dequeue (p_mailbox p) = (Some m, mb) → is_command m = true ∨ paused (p_requests p) = 0%nat →
    I (log_out m (set_mailbox mb p));
  tv_pause p mb u : I p → mb_dequeue (p_mailbox p) = (Some (User u), mb) → I (stash false (User u) (set_mailbox mb p)).2;
  tv_empty p mb : I p → mb_dequeue (p_mailbox p) = (None, mb) → J (notifyIdle (set_processing false (set_mailbox mb p)));
  tv_halt p : I p → p_suspended p = true → J (notifyIdle (set_processing false p));
  tv_count p : I p → I (count_processed p);
  tv_settle p h p' : I p → settleRequest h p = Some p' → I p';
  tv_suspend p : I p → I (suspend p);
  tv_yield p : I p → J (yield p);
  tv_park p u n : I p → J (set_parked (Some (u, n)) p) }.

Lemma act_invariant I msg a p :
  script_closed I → (∀ m, msg = Some m → is_command m = false) → I p → I (act cf msg a p).2.
Proof.
  intros HT Hm Hp. destruct a; cbn [act snd].
  - by apply (sv_behaviors I HT).
  - by apply (sv_behaviors I HT).
  - by apply (sv_behaviors I HT).
  - by apply (sv_behaviors I HT).
  - destruct msg as [m|]; [|done]. specialize (Hm m eq_refl). destruct m as [u| | |]; try done. by apply (sv_stash I HT).
  - by apply (sv_unstash I HT).
  - by apply (sv_unstashAll I HT).
  - by apply (sv_receive I HT).
  - by apply (sv_shutdown I HT).
  - unfold request. destruct (openRequest cf mode p); [done|]. destruct target; [done|]. by apply (sv_admit I HT).
  - unfold cancel. destruct (handle_open handle p); [|done]. by apply (sv_deliver I HT).
Qed.

Lemma script_invariant I msg s p o p' :
  script_closed I → (∀ m, msg = Some m → is_command m = false) → I p → run_script cf msg s p = (o, p') → I p'.
Proof.
  intros HT Hm. revert p. induction s as [o'|a k IH]; intros p Hp; cbn [run_script].
  - intros [= _ <-]. done.
  - pose proof (act_invariant I msg a p HT Hm Hp) as Ha. destruct (act cf msg a p) as [e p1]. by apply IH.
Qed.

Lemma post_invariant I J p b p' :
  turn_invariant I J → I p → postReceive cf p = (b, p') → if b then I p' else J p'.
Proof.
  intros HT Hp. unfold postReceive. apply (tv_count I J HT) in Hp. destruct (p_suspended (count_processed p)) eqn:Hs.
  - intros [= <- <-]. by apply (tv_halt I J HT).
  - intros [= <- <-]. destruct (_ && _); [by apply (sv_shutdown I (tv_script I J HT))|done].
Qed.

Lemma fault_invariant I J d p : turn_invariant I J → I p → I (handleFault d p).
Proof. intros HT Hp. destruct d as [[]|]; try done; by apply (tv_suspend I J HT). Qed.

(** The end of a user message: the next turn of the loop, a yield, or a halt. *)
Lemma processLoop_invariant I J fuel signal env n processed p p' :
  turn_invariant I J → I p → processLoop cf fuel signal env n processed p = Some (TurnEnds p') → J p'.
Proof.
  intros HT. revert n processed p. induction fuel as [|fuel IH]; intros n processed p Hp; [done|]. cbn [processLoop].
  destruct (mb_dequeue (p_mailbox p)) as [[m|] mb] eqn:Ed; [|intros [= <-]; by apply (tv_empty I J HT)].
  pose proof (tv_take I J HT p mb m Hp Ed) as Ht. destruct m as [u| |h|c d]; [|specialize (Ht (or_introl eq_refl))..].
  - destruct (negb _) eqn:Ep.
    + pose proof (tv_pause I J HT p mb u Hp Ed) as Hst. destruct (Nat.leb _ _); [|by apply IH].
      intros [= <-]. by apply (tv_yield I J HT).
    + apply negb_false_iff, Nat.eqb_eq in Ep. specialize (Ht (or_intror Ep)). destruct (run_script _ _ _ _) as [o p1] eqn:Er.
      pose proof (script_invariant I (Some (User u)) _ _ _ _ (tv_script I J HT) ltac:(by intros ? [= <-]) Ht Er) as H1.
      assert (∀ p1, I p1 → (let '(continue, p2) := postReceive cf p1 in
        if continue then if Nat.leb THROUGHPUT (S processed) then Some (TurnEnds (yield p2))
          else processLoop cf fuel signal env (S n) (S processed) p2 else Some (TurnEnds p2)) = Some (TurnEnds p') → J p') as Hpost.
      { intros p2 H2. destruct (postReceive cf p2) as [[] p3] eqn:E3; apply (post_invariant I J _ _ _ HT H2) in E3.
        - destruct (Nat.leb _ _); [|by apply IH]. intros [= <-]. by apply (tv_yield I J HT).
        - by intros [= <-]. }
      destruct o; [by apply Hpost|apply Hpost; by apply (fault_invariant I J _ _ HT)|]. intros [= <-]. by apply (tv_park I J HT).
  - apply IH. apply (sv_shutdown I (tv_script I J HT)). by apply (tv_count I J HT).
  - apply (tv_count I J HT) in Ht. destruct (settleRequest h _) as [p1|] eqn:Es; [|by apply IH].
    apply (tv_settle I J HT) in Es; [|done]. destruct (run_script _ _ _ _) as [o p2] eqn:Er.
    apply (script_invariant I None _ _ _ _ (tv_script I J HT)) in Er; [|done..]. destruct o; try done; by apply IH.
  - apply IH. apply (tv_count I J HT) in Ht. destruct d; try done. by apply (sv_receive I (tv_script I J HT)).
Qed.

Lemma resume_invariant I J fuel signal env rejected u n p p' :
  turn_invariant I J → l_parked p = Some (u, n) → I (set_parked None p) →
  resumeLoop cf fuel signal env rejected p = Some (TurnEnds p') → J p'.
Proof.
  intros HT Hpk Hp. unfold resumeLoop. rewrite Hpk.
  assert (I (match rejected with Some d => handleFault d (set_parked None p) | None => set_parked None p end)) as H1
    by (destruct rejected; [by apply (fault_invariant I J _ _ HT)|done]).
  destruct (postReceive cf _) as [[] p2] eqn:E2; apply (post_invariant I J _ _ _ HT H1) in E2.
  - destruct (Nat.leb _ _); [intros [= <-]; by apply (tv_yield I J HT)|]. by apply (processLoop_invariant I J).
  - by intros [= <-].
Qed.

(** ** The buffers *)

Lemma drain_perm {Q} {opsQ : MailboxOps Msg Q} {MQ : Mailbox Msg Q} fuel (b : Q) q :
  mb_repr b (Some q) → (length q ≤ fuel)%nat → drain fuel b ≡ₚ q.
Proof.
  revert b q. induction fuel as [|fuel IH]; intros b q Hb Hl; [by destruct q; cbn in Hl; [|lia]|]. cbn [drain].
  destruct (decide (q = [])) as [->|Hq].
  - by destruct (mb_dequeue_empty b (Some []) Hb eq_refl) as (b' & -> & _).
  - destruct (mb_dequeue_live b q Hb Hq) as (x & b' & q' & -> & Hb' & Hp). rewrite Hp. apply perm_skip, IH; [done|].
    apply Permutation_length in Hp. cbn in Hp. lia.
Qed.

Lemma contents_perm {Q} {opsQ : MailboxOps Msg Q} {MQ : Mailbox Msg Q} (b : Q) s :
  mb_repr b s → contents b ≡ₚ default [] s.
Proof.
  intros Hb. unfold contents. rewrite (mb_len_spec b s Hb). destruct s as [q|]; [|done]. by apply drain_perm.
Qed.

(** A stash holds user messages only. *)
Definition stash_ok (s : option (UnboundedMailbox Msg)) : Prop :=
  match s with
  | Some s => ∃ q, ub_repr s (Some q) ∧ Forall (λ m, is_command m = false) q
  | None => True
  end.

Definition mailbox_ok p : Prop :=
  match p_shutdown p with SDone => mb_repr (p_mailbox p) None | _ => ∃ q, mb_repr (p_mailbox p) (Some q) end.

Definition boxes p : Prop := mailbox_ok p ∧ stash_ok (p_stash p).

Lemma mailbox_ok_inv p : mailbox_ok p → ∃ s, mb_repr (p_mailbox p) s ∧ (p_shutdown p = SDone ↔ s = None).
Proof.
  unfold mailbox_ok. destruct (p_shutdown p); try (intros [q Hq]; by exists (Some q)). intros H. by exists None.
Qed.

(** The ways an enqueue can go. *)
Lemma enqueue_cases m p :
  mailbox_ok p → ∃ r mb, mb_enqueue m (p_mailbox p) = (r, mb) ∧ mailbox_ok (set_mailbox mb p)
    ∧ contents mb ≡ₚ contents (p_mailbox p) ++ (match r with Some _ => [] | None => [m] end)
    ∧ (r = None → p_shutdown p ≠ SDone).
Proof.
  intros Hp. destruct (mailbox_ok_inv p Hp) as (s & Hs & Hd). unfold mailbox_ok. cbn. destruct s as [q|].
  - destruct (mb_enqueue_live m (p_mailbox p) q Hs) as (r & mb & q' & E & Hq' & Hr). exists r, mb.
    split; [done|]. assert (p_shutdown p ≠ SDone) as Hn by (intros ?%Hd; done).
    split; [by destruct (p_shutdown p); eauto|]. split; [|done].
    rewrite (contents_perm mb _ Hq'), (contents_perm _ _ Hs). cbn. destruct Hr as [[-> Hr]|[-> ->]]; [done|]. by rewrite app_nil_r.
  - destruct (mb_enqueue_disposed m (p_mailbox p) Hs) as (mb & E & Hmb). exists (Some ErrMailboxDisposed), mb.
    rewrite (proj2 Hd eq_refl). do 2 (split; [done|]). split; [|done]. by rewrite (contents_perm mb _ Hmb), (contents_perm _ _ Hs).
Qed.

(** The ways a dequeue can go. *)
Lemma dequeue_cases p r mb :
  mailbox_ok p → mb_dequeue (p_mailbox p) = (r, mb) →
  mailbox_ok (set_mailbox mb p)
  ∧ match r with
    | Some m => contents (p_mailbox p) ≡ₚ m :: contents mb
    | None => contents (p_mailbox p) = [] ∧ contents mb = [] ∧ mb_isEmpty mb = true
    end.
Proof.
  intros Hp E. destruct (mailbox_ok_inv p Hp) as (s & Hs & Hd).
  destruct (decide (default [] s = [])) as [He|He].
  - destruct (mb_dequeue_empty _ s Hs He) as (mb' & E' & Hs'). rewrite E' in E. simplify_eq.
    split; [unfold mailbox_ok in *; cbn; destruct (p_shutdown p); destruct s; try done; eauto; naive_solver|].
    pose proof (contents_perm _ _ Hs) as H1. pose proof (contents_perm _ _ Hs') as H2. rewrite He in H1, H2.
    apply Permutation_nil_r in H1, H2. split_and!; [done..|]. rewrite (mb_isEmpty_spec mb s Hs'). by apply bool_decide_true.
  - destruct s as [q|]; [|done]. destruct (mb_dequeue_live _ q Hs He) as (x & mb' & q' & E' & Hq' & Hperm).
    rewrite E' in E. simplify_eq. split; [unfold mailbox_ok in *; cbn; destruct (p_shutdown p); eauto; naive_solver|].
    by rewrite (contents_perm _ _ Hs), (contents_perm _ _ Hq').
Qed.

Lemma empty_contents p : mailbox_ok p → mb_isEmpty (p_mailbox p) = true ↔ contents (p_mailbox p) = [].
Proof.
  intros Hp. destruct (mailbox_ok_inv p Hp) as (s & Hs & _). rewrite (mb_isEmpty_spec _ s Hs), bool_decide_eq_true.
  pose proof (contents_perm _ _ Hs) as Hc. split; intros H; rewrite H in Hc.
  - by apply Permutation_nil_r in Hc.
  - by apply Permutation_nil_l in Hc.
Qed.

(** ** No message vanishes *)

(** Every message let in has left, waits in the mailbox or the stash, or is [hand]led by
    the caller. *)
Definition kept_with (hand : list Msg) p : Prop :=
  boxes p ∧ lg_in (p_log p) ≡ₚ lg_out (p_log p) ++ lg_dropped (p_log p) ++ hand ++ contents (p_mailbox p) ++ stashed p.

Abbreviation kept := (kept_with []).

Lemma kept_frame hand p p' :
  p_mailbox p' = p_mailbox p → p_stash p' = p_stash p → lg_in (p_log p') = lg_in (p_log p) →
  lg_out (p_log p') = lg_out (p_log p) → lg_dropped (p_log p') = lg_dropped (p_log p) →
  (p_shutdown p' = SDone ↔ p_shutdown p = SDone) → kept_with hand p → kept_with hand p'.
Proof.
  intros H1 H2 H3 H4 H5 H6 [[Hm Hs] Hc]. unfold kept_with, boxes, mailbox_ok, stashed in *. rewrite H1, H2, H3, H4, H5.
  split; [|done]. split; [|done]. destruct (p_shutdown p), (p_shutdown p'); try done; naive_solver.
Qed.

(** The accounts after a move between them. *)
Ltac kept_by Hc Hperm := split; [by split|]; cell; rewrite Hc, Hperm; unfold stashed; perm_app.

Lemma kept_schedule hand p : kept_with hand p → kept_with hand (schedule p).
Proof. unfold schedule. destruct (p_processing p); [done|]. by apply kept_frame. Qed.

Lemma kept_notifyIdle hand p : kept_with hand p → kept_with hand (notifyIdle p).
Proof.
  intros Hp. unfold notifyIdle. set (p1 := match p_shutdown p with SWaitIdle => _ | _ => _ end).
  assert (kept_with hand p1) as H1.
  { unfold p1. destruct (p_shutdown p) eqn:E; try done. revert Hp. apply kept_frame; cbn; by rewrite ?E. }
  by destruct (p_restart p1).
Qed.

(** A send from outside takes the message in or refuses it. *)
Lemma kept_receive hand p m : kept_with hand p → kept_with hand (doReceive true m p).2.
Proof.
  intros Hp. unfold doReceive. destruct (negb (isRunning p)); [revert Hp; by apply kept_frame|].
  destruct Hp as [[Hm Hs] Hc]. destruct (enqueue_cases m p Hm) as (r & mb & -> & Hmb & Hperm & _). destruct r as [e|]; cbn [snd].
  - kept_by Hc Hperm.
  - apply kept_schedule. kept_by Hc Hperm.
Qed.

(** A message coming back from the stash is re-delivered or dropped. *)
Lemma kept_redeliver hand p m : kept_with ([m] ++ hand) p → kept_with hand (doReceive false m p).2.
Proof.
  intros [[Hm Hs] Hc]. unfold doReceive. destruct (negb (isRunning p)); cbn [snd].
  - split; [by split|]; cell; rewrite Hc; unfold stashed; perm_app.
  - destruct (enqueue_cases m p Hm) as (r & mb & -> & Hmb & Hperm & _). destruct r as [e|]; cbn [snd].
    + kept_by Hc Hperm.
    + apply kept_schedule. kept_by Hc Hperm.
Qed.

Lemma stash_enqueue m (s : option (UnboundedMailbox Msg)) :
  stash_ok s → is_command m = false →
  ∃ s', mb_enqueue m (default new_UnboundedMailbox s) = (None, s') ∧ stash_ok (Some s')
    ∧ contents s' ≡ₚ (match s with Some s => contents s | None => [] end) ++ [m].
Proof.
  intros Hs Hm. assert (∃ q, ub_repr (default new_UnboundedMailbox s) (Some q) ∧ Forall (λ m, is_command m = false) q
    ∧ q ≡ₚ match s with Some s => contents s | None => [] end) as (q & Hq & Hall & Hc).
  { destruct s as [s|]; cbn in *.
    - destruct Hs as (q & Hq & Hall). exists q. split_and!; [done..|]. symmetry. exact (contents_perm (MQ := fifo_is_mailbox None) s (Some q) Hq).
    - exists []. split_and!; [apply new_UnboundedMailbox_repr|done..]. }
  destruct (fifo_enqueue (FifoMailbox := unbounded_fifo) m _ (Some q) Hq) as [H1 H2].
  destruct (mb_enqueue m _) as [r s']. cbn in H1, H2. subst r. exists s'. split; [done|].
  split; [exists (q ++ [m]); split; [done|]; apply Forall_app; by repeat constructor|].
  rewrite <-Hc. exact (contents_perm (MQ := fifo_is_mailbox None) s' (Some (q ++ [m])) H2).
Qed.

Lemma kept_stash (fresh : bool) hand p m :
  is_command m = false → kept_with (if fresh then hand else [m] ++ hand) p → kept_with hand (stash fresh m p).2.
Proof.
  intros Hcm [[Hm Hs] Hc]. unfold stash. destruct (stash_enqueue m (p_stash p) Hs Hcm) as (s' & -> & Hs' & Hperm). cbn [snd].
  unfold stashed in Hc. destruct fresh; (split; [by split|]); cell; rewrite Hc, Hperm; perm_app.
Qed.

Lemma stash_dequeue (s s' : UnboundedMailbox Msg) r :
  stash_ok (Some s) → mb_dequeue s = (r, s') →
  stash_ok (Some s') ∧ contents s ≡ₚ (match r with Some m => [m] | None => [] end) ++ contents s'
  ∧ ∀ m, r = Some m → is_command m = false.
Proof.
  intros (q & Hq & Hall) E. destruct (fifo_dequeue (FifoMailbox := unbounded_fifo) s (Some q) Hq) as [H1 H2]. rewrite E in H1, H2.
  pose proof (contents_perm (MQ := fifo_is_mailbox None) s (Some q) Hq) as C1.
  pose proof (contents_perm (MQ := fifo_is_mailbox None) s' _ H2) as C2.
  destruct q as [|m q]; cbn in H1, H2, C1, C2; subst r.
  - split; [by exists []|]. split; [by rewrite C1, C2|done].
  - apply Forall_cons in Hall as [Hm Hall]. split; [by exists q|]. split; [by rewrite C1, C2|]. by intros ? [= <-].
Qed.

(** Taking one message out of the stash. *)
Lemma kept_take_stash hand p s r s' :
  p_stash p = Some s → mb_dequeue s = (r, s') → kept_with hand p →
  kept_with ((match r with Some m => [m] | None => [] end) ++ hand) (set_stash (Some s') p).
Proof.
  intros Es Ed [[Hm Hs] Hc]. rewrite Es in Hs. destruct (stash_dequeue s s' r Hs Ed) as (Hs' & Hperm & _).
  unfold stashed in Hc. rewrite Es in Hc. split; [by split|]. cell. rewrite Hc, Hperm. perm_app.
Qed.

Lemma kept_unstash hand p : kept_with hand p → kept_with hand (unstash p).2.
Proof.
  intros Hp. unfold unstash. destruct (p_stash p) as [s|] eqn:Es; [|done]. destruct (mb_dequeue s) as [[m|] s'] eqn:Ed; cbn [snd].
  - apply kept_redeliver. exact (kept_take_stash hand p s _ s' Es Ed Hp).
  - exact (kept_take_stash hand p s _ s' Es Ed Hp).
Qed.

Lemma kept_unstash_loop fuel hand p : kept_with hand p → kept_with hand (unstash_loop fuel p).2.
Proof.
  revert p. induction fuel as [|fuel IH]; intros p Hp; [done|]. cbn [unstash_loop].
  destruct (p_stash p) as [s|] eqn:Es; [|done]. destruct (mb_dequeue s) as [[m|] s'] eqn:Ed.
  - pose proof (kept_redeliver hand _ m (kept_take_stash hand p s _ s' Es Ed Hp)) as H.
    destruct (doReceive false m _) as [[e|] p1]; [done|]. by apply IH.
  - exact (kept_take_stash hand p s _ s' Es Ed Hp).
Qed.

Lemma kept_unstashAll hand p : kept_with hand p → kept_with hand (unstashAll p).2.
Proof. intros Hp. unfold unstashAll. destruct (p_stash p); [|done]. by apply kept_unstash_loop. Qed.

Lemma kept_shutdown hand hasChildren p : kept_with hand p → kept_with hand (shutdown hasChildren p).
Proof.
  intros Hp. unfold shutdown. destruct (p_shutdown p) eqn:E; try done. destruct (negb _); [done|]. cell.
  destruct (p_processing p); [|destruct hasChildren]; revert Hp; apply kept_frame; cell; try done; by rewrite E.
Qed.

Lemma kept_set_handle hand h s p : kept_with hand p → kept_with hand (set_handle h s p).
Proof. by apply kept_frame. Qed.

Lemma kept_abandon hand h p : kept_with hand p → kept_with hand (abandon h p).
Proof. unfold abandon. destruct (handle_open h p); [|done]. apply kept_set_handle. Qed.

Lemma kept_deliver hand h p : kept_with hand p → kept_with hand (deliverRequestReply h p).
Proof.
  intros Hp. unfold deliverRequestReply. apply (kept_receive _ _ (RequestReply h)) in Hp.
  destruct (doReceive true (RequestReply h) p) as [[e|] p1]; [by apply kept_abandon|done].
Qed.

Lemma kept_settle hand h p p' : kept_with hand p → settleRequest h p = Some p' → kept_with hand p'.
Proof.
  intros Hp. unfold settleRequest. destruct (handles (p_requests p) !! h) as [[b []]|]; try done. intros [= <-].
  match goal with |- context [set_requests ?r ?q] => assert (kept_with hand (set_requests r q)) as H1 by (revert Hp; by apply kept_frame) end.
  destruct (_ && _); [by apply kept_unstashAll|done].
Qed.

Lemma kept_take hand p r mb :
  kept_with hand p → mb_dequeue (p_mailbox p) = (r, mb) →
  kept_with ((match r with Some m => [m] | None => [] end) ++ hand) (set_mailbox mb p).
Proof.
  intros [[Hm Hs] Hc] E. destruct (dequeue_cases p r mb Hm E) as [Hm' Hr]. split; [by split|]. cell. rewrite Hc.
  unfold stashed. destruct r as [m|].
  - change (m :: contents mb) with ([m] ++ contents mb) in Hr. rewrite Hr. perm_app.
  - destruct Hr as (-> & -> & _). perm_app.
Qed.

Lemma kept_script : script_closed kept.
Proof.
  split.
  - intros p bs. by apply kept_frame.
  - intros p m. apply kept_receive.
  - intros p u. by apply (kept_stash true).
  - intros p. apply kept_unstash.
  - intros p. apply kept_unstashAll.
  - intros p. apply kept_shutdown.
  - intros p b. by apply kept_frame.
  - intros p h. apply kept_deliver.
Qed.

Lemma kept_turn : turn_invariant kept kept.
Proof.
  split.
  - apply kept_script.
  - intros p mb m Hp E _. destruct (kept_take [] p (Some m) mb Hp E) as [Hb Hc]. split; [done|]. revert Hc. cell. intros ->.
    unfold stashed. perm_app.
  - intros p mb u Hp E. apply kept_stash; [done|]. exact (kept_take [] p _ mb Hp E).
  - intros p mb Hp E. apply kept_notifyIdle. pose proof (kept_take [] p None mb Hp E) as H. revert H. by apply kept_frame.
  - intros p Hp _. apply kept_notifyIdle. revert Hp. by apply kept_frame.
  - intros p. by apply kept_frame.
  - intros p h p'. apply kept_settle.
  - intros p. by apply kept_frame.
  - intros p. by apply kept_frame.
  - intros p m n. by apply kept_frame.
Qed.

Lemma kept_stop p : kept p → kept (set_shutdown SDone (reset p)).
Proof.
  intros [[Hm Hs] Hc]. destruct (mailbox_ok_inv p Hm) as (s & Hr & _). pose proof (mb_dispose_spec _ s Hr) as Hd.
  split; [by split|]. unfold reset. cell. rewrite Hc. rewrite (contents_perm _ _ Hd). cbn [from_option]. unfold stashed. perm_app.
Qed.

Lemma kept_shutdown_resume hasChildren p : kept p → kept (shutdown_resume hasChildren p).
Proof.
  intros Hp. unfold shutdown_resume. destruct (p_shutdown p) eqn:E; try done.
  - destruct hasChildren; revert Hp; apply kept_frame; cell; try done; by rewrite E.
  - revert Hp; apply kept_frame; cell; try done; by rewrite E.
  - by apply kept_stop.
Qed.

Lemma kept_preStart p : kept p → kept (restart_preStart p).
Proof.
  intros [[Hm Hs] Hc]. split; [by split|]. unfold restart_preStart. cell. rewrite Hc. unfold stashed. perm_app.
Qed.

Lemma kept_restart_hooks was p : kept p → kept (restart_hooks was p).
Proof. intros Hp. destruct was; [by apply kept_preStart|]. revert Hp. by apply kept_frame. Qed.

Lemma kept_restart_idle was hasChildren p : kept p → kept (restart_idle was hasChildren p).
Proof.
  intros Hp. unfold restart_idle. destruct (p_stopping p); [revert Hp; by apply kept_frame|].
  destruct hasChildren; [revert Hp; by apply kept_frame|by apply kept_restart_hooks].
Qed.

Lemma kept_restart hasChildren p : kept p → kept (restart hasChildren p).2.
Proof.
  intros Hp. unfold restart. destruct (_ || _); [done|]. cbn [snd].
  assert (kept (set_suspended true (set_restarting true p))) as H1 by (revert Hp; by apply kept_frame).
  destruct (p_processing _); [revert H1; by apply kept_frame|by apply kept_restart_idle].
Qed.

Lemma kept_wake p : kept p → kept (if mailboxEmpty p then p else schedule p).
Proof. intros Hp. destruct (mailboxEmpty p); [done|by apply kept_schedule]. Qed.

Lemma kept_restart_resume hasChildren ok p : kept p → kept (restart_resume hasChildren ok p).
Proof.
  intros Hp. unfold restart_resume. destruct (p_restart p); try done.
  - by apply kept_restart_idle.
  - by apply kept_restart_hooks.
  - by apply kept_preStart.
  - destruct ok; [apply kept_wake|]; revert Hp; by apply kept_frame.
Qed.

Lemma kept_reinstate p : kept p → kept (reinstate p).
Proof. intros Hp. unfold reinstate. destruct (negb _); [done|]. apply kept_wake. revert Hp. by apply kept_frame. Qed.

Lemma kept_started mb u : mb_repr mb (Some []) → kept (started mb u).
Proof.
  intros Hmb. apply kept_receive. split; [split; [by exists []|done]|]. cbn. pose proof (contents_perm mb _ Hmb) as Hc.
  cbn in Hc. by rewrite Hc.
Qed.

Lemma kept_reachable p : reachable p → kept p.
Proof.
  apply reachable_ind; [apply kept_started|]. clear p. intros p p' Hp Hstep. destruct Hstep.
  - by apply kept_receive.
  - by apply kept_deliver.
  - unfold cancel. destruct (handle_open h p); [by apply kept_deliver|done].
  - eapply (processLoop_invariant kept kept); [apply kept_turn| |done]. revert Hp. by apply kept_frame.
  - apply (script_invariant kept (Some (User u)) s p Returns p'); [apply kept_script|by intros ? [= <-]|done..].
  - destruct (l_parked p) as [[u n]|] eqn:Hpk; [|unfold resumeLoop in *; by rewrite Hpk in *].
    eapply (resume_invariant kept kept); [apply kept_turn|done| |done]. revert Hp. by apply kept_frame.
  - by apply kept_shutdown.
  - by apply kept_shutdown_resume.
  - by apply kept_restart.
  - by apply kept_restart_resume.
  - by apply kept_reinstate.
Qed.

(** ** One turn at a time, and no lost wake-up *)

(** [t] is 1 inside a turn, when the loop itself holds the actor, and 0 between turns. *)
Record sched (t : nat) p : Prop := {
  sc_mailbox : mailbox_ok p;
  (** the loop is due, parked or running, at most once, exactly when the flag is set *)
  sc_tokens : (l_ready p + parked p + t = if p_processing p then 1 else 0)%nat;
  (** an actor that may process has its loop armed while its mailbox holds a message *)
  sc_wake : p_running p = true → p_suspended p = false → p_processing p = false → mb_isEmpty (p_mailbox p) = true;
  (** a task parked in [awaitIdle] will be woken *)
  sc_wait : p_shutdown p = SWaitIdle → p_processing p = true;
  sc_rwait : ∀ was, p_restart p = RWaitIdle was → p_processing p = true;
  sc_stopping : p_stopping p = match p_shutdown p with NoShutdown | SDone => false | _ => true end;
  sc_running : p_running p = match p_shutdown p with SDone => false | _ => true end;
  sc_restarting : p_restarting p = match p_restart p with NoRestart => false | _ => true end;
  (** without a race, a stop is alone, and past [awaitIdle] the actor is at rest *)
  sc_calm : lg_raced (p_log p) = false → p_stopping p = true → p_restart p = NoRestart;
  sc_graceful : lg_raced (p_log p) = false → p_stopping p = true → p_shutdown p ≠ SWaitIdle →
    p_processing p = false ∧ (mb_isEmpty (p_mailbox p) = true ∨ p_suspended p = true) }.

Lemma sched_frame t p p' :
  p_mailbox p' = p_mailbox p → l_ready p' = l_ready p → l_parked p' = l_parked p → p_processing p' = p_processing p →
  p_running p' = p_running p → p_suspended p' = p_suspended p → p_shutdown p' = p_shutdown p → p_restart p' = p_restart p →
  p_stopping p' = p_stopping p → p_restarting p' = p_restarting p → lg_raced (p_log p') = lg_raced (p_log p) →
  sched t p → sched t p'.
Proof.
  intros H1 H2 H3 H4 H5 H6 H7 H8 H9 H10 H11 []. split; unfold mailbox_ok, parked in *;
    rewrite ?H1, ?H2, ?H3, ?H4, ?H5, ?H6, ?H7, ?H8, ?H9, ?H10, ?H11 in *; done.
Qed.

(** The queue changes only while the actor accepts messages, and the loop is armed then. *)
Lemma sched_arm t p mb :
  sched t p → isRunning p = true → mailbox_ok (set_mailbox mb p) → sched t (schedule (set_mailbox mb p)).
Proof.
  intros [] Hr Hmb. unfold isRunning in Hr. apply andb_true_iff in Hr as [[_ Hs%negb_true_iff]%andb_true_iff _].
  unfold schedule. cell. destruct (p_processing p) eqn:Ep.
  - split; cell; try done; try (intros; congruence). by rewrite Ep.
  - split; cell; try done; try (intros; congruence). lia.
Qed.

Lemma sched_receive t fresh m p : sched t p → sched t (doReceive fresh m p).2.
Proof.
  intros Hp. unfold doReceive. destruct (isRunning p) eqn:Hr; cbn [negb].
  2: { destruct fresh; revert Hp; by apply sched_frame. }
  pose proof (sc_mailbox t p Hp) as Hm. destruct (enqueue_cases m p Hm) as (r & mb & E & Hmb & Hperm & _). rewrite E.
  destruct r as [e|]; cbn [snd].
  - assert (sched t (set_mailbox mb p)) as H1.
    { assert (mb_isEmpty mb = mb_isEmpty (p_mailbox p)) as Hem.
      { apply eq_bool_prop_intro. rewrite !Is_true_true. pose proof (empty_contents _ Hmb) as E1. cell. cbn [p_mailbox set_mailbox] in E1.
        rewrite E1, (empty_contents p Hm). rewrite app_nil_r in Hperm. split; intros H; rewrite H in Hperm;
          [by apply Permutation_nil_l in Hperm|by apply Permutation_nil_r in Hperm]. }
      destruct Hp. split; cell; try done; rewrite Hem; done. }
    destruct fresh; revert H1; by apply sched_frame.
  - pose proof (sched_arm t p mb Hp Hr Hmb) as H1. destruct fresh; [|done]. revert H1. unfold schedule. cell.
    destruct (p_processing p); by apply sched_frame.
Qed.

Lemma sched_stash t fresh m p : sched t p → sched t (stash fresh m p).2.
Proof. unfold stash. destruct (mb_enqueue m _) as [[e|] s]; [|destruct fresh]; by apply sched_frame. Qed.

Lemma sched_unstash t p : sched t p → sched t (unstash p).2.
Proof.
  intros Hp. unfold unstash. destruct (p_stash p) as [s|]; [|done]. destruct (mb_dequeue s) as [[m|] s']; cbn [snd].
  - apply sched_receive. revert Hp. by apply sched_frame.
  - revert Hp. by apply sched_frame.
Qed.

Lemma sched_unstash_loop t fuel p : sched t p → sched t (unstash_loop fuel p).2.
Proof.
  revert p. induction fuel as [|fuel IH]; intros p Hp; [done|]. cbn [unstash_loop].
  destruct (p_stash p) as [s|]; [|done]. destruct (mb_dequeue s) as [[m|] s'].
  - assert (sched t (set_stash (Some s') p)) as H1 by (revert Hp; by apply sched_frame).
    apply (sched_receive t false m) in H1. destruct (doReceive false m _) as [[e|] p1]; [done|]. by apply IH.
  - revert Hp. by apply sched_frame.
Qed.

Lemma sched_unstashAll t p : sched t p → sched t (unstashAll p).2.
Proof. intros Hp. unfold unstashAll. destruct (p_stash p); [|done]. by apply sched_unstash_loop. Qed.

Lemma sched_shutdown t hasChildren p : sched t p → sched t (shutdown hasChildren p).
Proof.
  intros Hp. unfold shutdown. destruct (p_shutdown p) eqn:E; try done. destruct (negb (p_running p)) eqn:Er; [done|]. cell.
  apply negb_false_iff in Er. destruct Hp. unfold mailbox_ok in *. rewrite E in *.
  assert (lg_raced (p_log p) || p_restarting p = false → p_restart p = NoRestart) as Hcalm.
  { intros [_ Hr]%orb_false_iff. rewrite sc_restarting0 in Hr. by destruct (p_restart p). }
  destruct (p_processing p) eqn:Ep; [|destruct hasChildren]; split;
    unfold mailbox_ok, shutdown_idle, shutdown_postStop; cell; rewrite ?Ep; try done; try (intros Hr _; by apply Hcalm).
  all: intros; split; [done|]; destruct (p_suspended p) eqn:Es; [by right|left; by apply sc_wake0].
Qed.

Lemma sched_requests t r p : sched t p → sched t (set_requests r p).
Proof. by apply sched_frame. Qed.

Lemma sched_deliver t h p : sched t p → sched t (deliverRequestReply h p).
Proof.
  intros Hp. unfold deliverRequestReply. apply (sched_receive t true (RequestReply h)) in Hp.
  destruct (doReceive true (RequestReply h) p) as [[e|] p1]; [|done]. cbn [snd] in Hp. unfold abandon.
  destruct (handle_open h p1); [by apply sched_requests|done].
Qed.

Lemma sched_settle t h p p' : sched t p → settleRequest h p = Some p' → sched t p'.
Proof.
  intros Hp. unfold settleRequest. destruct (handles (p_requests p) !! h) as [[b []]|]; try done. intros [= <-].
  match goal with |- context [set_requests ?r ?q] => assert (sched t (set_requests r q)) as H1 by (by do 2 apply sched_requests) end.
  destruct (_ && _); [by apply sched_unstashAll|done].
Qed.

Lemma sched_in_turn p : sched 1 p → p_processing p = true ∧ l_ready p = 0%nat ∧ l_parked p = None.
Proof. intros []. unfold parked in *. destruct (p_processing p), (l_parked p); try lia. split_and!; [done|lia|done]. Qed.

Lemma sched_take p r mb : sched 1 p → mb_dequeue (p_mailbox p) = (r, mb) → sched 1 (set_mailbox mb p).
Proof.
  intros Hp E. destruct (sched_in_turn p Hp) as (Hpr & _ & _). destruct Hp.
  destruct (dequeue_cases p r mb sc_mailbox0 E) as [Hm _]. split; cell; try done; try (intros; congruence).
  intros H1 H2 H3. destruct (sc_graceful0 H1 H2 H3). congruence.
Qed.

(** The end of a turn that leaves nothing to do. *)
Lemma sched_idle p :
  sched 1 p → mb_isEmpty (p_mailbox p) = true ∨ p_suspended p = true → sched 0 (notifyIdle (set_processing false p)).
Proof.
  intros Hp Hrest. destruct (sched_in_turn p Hp) as (Hpr & Hrd & Hpk). destruct Hp.
  assert (∀ s r, (s = match p_shutdown p with SWaitIdle => SIdle | s => s end) →
    (r = match p_restart p with RWaitIdle was => RIdle was | r => r end) →
    sched 0 (set_restart r (set_shutdown s (set_processing false p)))) as H.
  { intros s r -> ->. split; unfold mailbox_ok, parked in *; cell; rewrite ?Hrd, ?Hpk; try done.
    - by destruct (p_shutdown p).
    - intros H1 H2 _. destruct Hrest; congruence.
    - by destruct (p_shutdown p).
    - intros was. by destruct (p_restart p).
    - rewrite sc_stopping0. by destruct (p_shutdown p).
    - rewrite sc_running0. by destruct (p_shutdown p).
    - rewrite sc_restarting0. by destruct (p_restart p).
    - intros H1 H2. by rewrite (sc_calm0 H1 H2). }
  specialize (H _ _ eq_refl eq_refl). revert H. unfold notifyIdle. cell.
  destruct (p_shutdown p) eqn:E1, (p_restart p) eqn:E2; cell; rewrite ?E1, ?E2; apply sched_frame; cell; rewrite ?E1, ?E2; done.
Qed.

Lemma sched_script t : script_closed (sched t).
Proof.
  split.
  - intros p bs. by apply sched_frame.
  - intros p m. apply sched_receive.
  - intros p u. apply sched_stash.
  - intros p. apply sched_unstash.
  - intros p. apply sched_unstashAll.
  - intros p. apply sched_shutdown.
  - intros p b. apply sched_requests.
  - intros p h. apply sched_deliver.
Qed.

Lemma sched_turn : turn_invariant (sched 1) (sched 0).
Proof.
  split.
  - apply sched_script.
  - intros p mb m Hp E _. pose proof (sched_take p _ mb Hp E) as H. revert H. by apply sched_frame.
  - intros p mb u Hp E. apply sched_stash. by eapply sched_take.
  - intros p mb Hp E. apply sched_idle; [by eapply sched_take|]. left.
    by destruct (dequeue_cases p None mb (sc_mailbox 1 p Hp) E) as (_ & _ & _ & ?).
  - intros p Hp Hs. apply sched_idle; [done|by right].
  - intros p. by apply sched_frame.
  - intros p h p'. apply sched_settle.
  - intros p Hp. destruct (sched_in_turn p Hp) as (Hpr & _ & _). destruct Hp. split; cell; try done.
    intros H1 H2 H3. destruct (sc_graceful0 H1 H2 H3). congruence.
  - intros p Hp. destruct (sched_in_turn p Hp) as (Hpr & Hrd & Hpk). destruct Hp. unfold yield. split; cell; rewrite ?Hrd, ?Hpk, ?Hpr; try done;
      try (intros; congruence). all: intros H1 H2 H3; destruct (sc_graceful0 H1 H2 H3); congruence.
  - intros p u n Hp. destruct (sched_in_turn p Hp) as (Hpr & Hrd & Hpk). destruct Hp. unfold yield. split; cell; rewrite ?Hrd, ?Hpk, ?Hpr; try done;
      try (intros; congruence). all: intros H1 H2 H3; destruct (sc_graceful0 H1 H2 H3); congruence.
Qed.

Lemma sched_suspend t p : sched t p → sched t (suspend p).
Proof.
  intros []. unfold suspend. split; cell; try done. intros H1 H2 H3. destruct (sc_graceful0 H1 H2 H3). auto.
Qed.

(** A leg of a restart: begun on an actor that is not stopping, or gone on with. *)
Lemma sched_leg t p p' :
  sched t p → p_stopping p = false ∨ p_restart p ≠ NoRestart → p_restart p' ≠ NoRestart →
  (∀ was, p_restart p' = RWaitIdle was → p_processing p = true) → p_restarting p' = true →
  p_mailbox p' = p_mailbox p → l_ready p' = l_ready p → l_parked p' = l_parked p → p_processing p' = p_processing p →
  p_running p' = p_running p → p_suspended p' = p_suspended p → p_shutdown p' = p_shutdown p →
  p_stopping p' = p_stopping p → lg_raced (p_log p') = lg_raced (p_log p) → sched t p'.
Proof.
  intros [] Hor Hr Hw H2 H3 H4 H5 H6 H7 H8 H9 H10 H11. split; unfold mailbox_ok, parked in *;
    rewrite ?H2, ?H3, ?H4, ?H5, ?H6, ?H7, ?H8, ?H9, ?H10, ?H11; try done.
  - by destruct (p_restart p').
  - intros H12 H13. destruct Hor; [congruence|]. by specialize (sc_calm0 H12 H13).
Qed.

Lemma sched_leave t p : sched t p → sched t (set_restarting false (set_restart NoRestart p)).
Proof. intros []. by split. Qed.

(** The suspension ends: messages that waited arm the loop. *)
Lemma sched_wake t p :
  sched t p → (lg_raced (p_log p) = false → p_stopping p = false) →
  sched t (let p := set_suspended false p in if mailboxEmpty p then p else schedule p).
Proof.
  intros [] Hr. cbv zeta. unfold mailboxEmpty, schedule. cell. destruct (mb_isEmpty (p_mailbox p)) eqn:Ee.
  - split; cell; try done. intros H1 H2. rewrite Hr in H2; done.
  - destruct (p_processing p) eqn:Ep; split; cell; rewrite ?Ep; try done; try lia; intros H1 H2; rewrite Hr in H2; done.
Qed.

Lemma sched_shutdown_resume t hasChildren p : sched t p → sched t (shutdown_resume hasChildren p).
Proof.
  intros Hp. unfold shutdown_resume. destruct (p_shutdown p) eqn:E; try done; destruct Hp; unfold mailbox_ok in *; rewrite E in *.
  - unfold shutdown_idle, shutdown_postStop. destruct hasChildren; split; unfold mailbox_ok; cell; try done; intros; by apply sc_graceful0.
  - unfold shutdown_postStop. split; unfold mailbox_ok; cell; try done; intros; by apply sc_graceful0.
  - destruct sc_mailbox0 as [q Hq]. unfold reset. split; unfold mailbox_ok; cell; try done. by apply (mb_dispose_spec _ (Some q)).
Qed.

Lemma sched_restart_hooks t was p q :
  sched t p → p_stopping p = false ∨ p_restart p ≠ NoRestart → p_restarting q = true →
  q = p ∨ q = set_restarting true p → sched t (restart_hooks was q).
Proof.
  intros Hp Hor Hq Heq. unfold restart_hooks, restart_preStart.
  destruct Heq as [->| ->], was; apply (sched_leg t p); cell; done.
Qed.

Lemma sched_restart_idle t was hasChildren p q :
  sched t p → p_stopping p = false ∨ p_restart p ≠ NoRestart → p_restarting q = true →
  q = p ∨ q = set_restarting true p → sched t (restart_idle was hasChildren q).
Proof.
  intros Hp Hor Hq Heq. unfold restart_idle. destruct (p_stopping q) eqn:Es.
  - apply (sched_leave t) in Hp. revert Hp. destruct Heq as [->| ->]; by apply sched_frame.
  - destruct hasChildren; [|by eapply sched_restart_hooks]. destruct Heq as [->| ->]; apply (sched_leg t p); cell; done.
Qed.

Lemma sched_restart t hasChildren p : sched t p → sched t (restart hasChildren p).2.
Proof.
  intros Hp. unfold restart. destruct (p_stopping p) eqn:Es; [done|]. cbn [orb]. destruct (_ || _); [done|]. cbn [snd].
  apply (sched_suspend t) in Hp. cell. destruct (p_processing p) eqn:Ep.
  - apply (sched_leg t (suspend p)); cell; try done. by left.
  - apply (sched_restart_idle t _ _ (suspend p)); [done|by left|done|by right].
Qed.

Lemma sched_restart_resume t hasChildren ok p : sched t p → sched t (restart_resume hasChildren ok p).
Proof.
  intros Hp. unfold restart_resume. pose proof (sc_restarting t p Hp) as Hr. destruct (p_restart p) eqn:E; try done.
  - apply (sched_restart_idle t _ _ p); auto. right. by rewrite E.
  - apply (sched_restart_hooks t _ p); auto. right. by rewrite E.
  - apply (sched_restart_hooks t true p); auto. right. by rewrite E.
  - pose proof (sc_calm t p Hp) as Hc. apply (sched_leave t) in Hp. destruct ok; [|done]. apply sched_wake; [done|].
    cell. destruct (p_stopping p); [|done]. intros H. specialize (Hc H eq_refl). congruence.
Qed.

Lemma sched_reinstate t p : sched t p → sched t (reinstate p).
Proof.
  intros Hp. unfold reinstate. destruct (negb _); [done|]. apply (sched_wake t (log_raced (p_stopping p || p_restarting p) p)).
  - destruct Hp. split; cell; try done; intros [H1 _]%orb_false_iff; [by apply sc_calm0|by apply sc_graceful0].
  - cell. by intros [_ [H _]%orb_false_iff]%orb_false_iff.
Qed.

Lemma sched_started mb u : mb_repr mb (Some []) → sched 0 (started mb u).
Proof.
  intros Hmb. apply sched_receive. split; try done; [by exists []|]. intros _ _ _. cbn.
  rewrite (mb_isEmpty_spec mb _ Hmb). by apply bool_decide_true.
Qed.

Lemma sched_enter p p' :
  sched 0 p → p_mailbox p' = p_mailbox p → p_processing p' = p_processing p →
  p_running p' = p_running p → p_suspended p' = p_suspended p → p_shutdown p' = p_shutdown p → p_restart p' = p_restart p →
  p_stopping p' = p_stopping p → p_restarting p' = p_restarting p → lg_raced (p_log p') = lg_raced (p_log p) →
  (l_ready p' + parked p' + 1 = l_ready p + parked p)%nat → sched 1 p'.
Proof.
  intros [] H1 H2 H3 H4 H5 H6 H7 H8 H9 H10. split; unfold mailbox_ok, parked in *;
    rewrite ?H1, ?H2, ?H3, ?H4, ?H5, ?H6, ?H7, ?H8, ?H9; try done.
  destruct (l_parked p), (l_parked p'); lia.
Qed.

Lemma sched_reachable p : reachable p → sched 0 p.
Proof.
  apply reachable_ind; [apply sched_started|]. clear p. intros p p' Hp Hstep. destruct Hstep.
  - by apply sched_receive.
  - by apply sched_deliver.
  - unfold cancel. destruct (handle_open h p); [by apply sched_deliver|done].
  - eapply (processLoop_invariant (sched 1) (sched 0)); [apply sched_turn| |done]. eapply sched_enter; cell; try done. lia.
  - apply (script_invariant (sched 0) (Some (User u)) s p Returns p'); [apply sched_script|by intros ? [= <-]|done..].
  - destruct (l_parked p) as [[u n]|] eqn:Hpk; [|unfold resumeLoop in *; by rewrite Hpk in *].
    eapply (resume_invariant (sched 1) (sched 0)); [apply sched_turn|done| |done]. eapply sched_enter; cell; try done. rewrite Hpk. lia.
  - by apply sched_shutdown.
  - by apply sched_shutdown_resume.
  - by apply sched_restart.
  - by apply sched_restart_resume.
  - by apply sched_reinstate.
Qed.

(** ** Requests *)

(** What a property of the counters, the handles and the messages taken so far needs to
    hold through every step. *)
Record requests_closed (R : Requests → list Msg → Prop) := {
  rq_admit r out b : R r out →
    R (MkRequests (S (inFlight r)) (if b : bool then S (paused r) else paused r) (handles r ++ [(b, HOpen)])) out;
  rq_abandon r out h b : R r out → handles r !! h = Some (b, HOpen) →
    R (MkRequests (inFlight r) (paused r) (<[h := (b, HAbandoned)]> (handles r))) out;
  rq_settle r out h b : R r out → handles r !! h = Some (b, HOpen) →
    R (MkRequests (inFlight r - 1) (if b : bool then paused r - 1 else paused r) (<[h := (b, HSettled)]> (handles r)))%nat out;
  rq_take r out m : R r out → is_command m = true ∨ paused r = 0%nat → R r (out ++ [m]) }.

Definition taken p : Requests * list Msg := (p_requests p, lg_out (p_log p)).

Lemma taken_schedule p : taken (schedule p) = taken p.
Proof. unfold schedule. by destruct (p_processing p). Qed.

Lemma taken_receive fresh m p : taken (doReceive fresh m p).2 = taken p.
Proof.
  unfold doReceive. destruct (isRunning p); cbn [negb]; [|by destruct fresh].
  destruct (mb_enqueue m _) as [[e|] mb]; cbn [snd]; [by destruct fresh|]. rewrite taken_schedule. by destruct fresh.
Qed.

Lemma taken_stash fresh m p : taken (stash fresh m p).2 = taken p.
Proof. unfold stash. destruct (mb_enqueue m _) as [[e|] s]; [done|by destruct fresh]. Qed.

Lemma taken_unstash p : taken (unstash p).2 = taken p.
Proof.
  unfold unstash. destruct (p_stash p) as [s|]; [|done]. destruct (mb_dequeue s) as [[m|] s']; [|done]. by rewrite taken_receive.
Qed.

Lemma taken_unstashAll p : taken (unstashAll p).2 = taken p.
Proof.
  unfold unstashAll. destruct (p_stash p) as [s|]; [|done]. generalize (S (mb_len s)). intros fuel. revert p.
  induction fuel as [|fuel IH]; intros p; [done|]. cbn [unstash_loop]. destruct (p_stash p) as [s'|]; [|done].
  destruct (mb_dequeue s') as [[m|] s'']; [|done]. pose proof (taken_receive false m (set_stash (Some s'') p)) as H.
  destruct (doReceive _ _ _) as [[e|] p1]; [done|]. by rewrite IH.
Qed.

Lemma taken_notifyIdle p : taken (notifyIdle p) = taken p.
Proof. unfold notifyIdle. by destruct (p_shutdown p); cbn; destruct (p_restart p). Qed.

Lemma taken_shutdown hasChildren p : taken (shutdown hasChildren p) = taken p.
Proof.
  unfold shutdown. destruct (p_shutdown p); try done. destruct (negb _); [done|]. destruct (p_processing _); [done|]. by destruct hasChildren.
Qed.

Section requests.
Context (R : Requests → list Msg → Prop) (HR : requests_closed R).
Abbreviation RP := (λ p, uncurry R (taken p)).

Lemma requests_deliver h p : RP p → RP (deliverRequestReply h p).
Proof.
  cbv beta. intros Hp. unfold deliverRequestReply. pose proof (taken_receive true (RequestReply h) p) as H.
  destruct (doReceive true (RequestReply h) p) as [[e|] p1]; cbn [snd] in H; rewrite <- H in Hp; [|done].
  unfold abandon, handle_open. destruct (handles (p_requests p1) !! h) as [[b []]|] eqn:E; try done.
  unfold set_handle. rewrite E. by apply (rq_abandon R HR).
Qed.

Lemma requests_settle h p p' : RP p → settleRequest h p = Some p' → RP p'.
Proof.
  cbv beta. intros Hp. unfold settleRequest. destruct (handles (p_requests p) !! h) as [[b []]|] eqn:E; try done. intros [= <-].
  pose proof (rq_settle R HR _ _ h b Hp E) as H. unfold set_handle. rewrite E. cell.
  destruct (_ && _); [by rewrite taken_unstashAll|done].
Qed.

Lemma requests_script : script_closed RP.
Proof.
  split; cbv beta; intros p; try done.
  - intros m. by rewrite taken_receive.
  - intros m. by rewrite taken_stash.
  - by rewrite taken_unstash.
  - by rewrite taken_unstashAll.
  - by rewrite taken_shutdown.
  - intros b. apply (rq_admit R HR).
  - intros h. apply requests_deliver.
Qed.

Lemma requests_turn : turn_invariant RP RP.
Proof.
  split; cbv beta; try done.
  - apply requests_script.
  - intros p mb m Hp _ Hm. by apply (rq_take R HR).
  - intros p mb u Hp _. by rewrite taken_stash.
  - intros p mb Hp _. by rewrite taken_notifyIdle.
  - intros p Hp _. by rewrite taken_notifyIdle.
  - intros p h p'. apply requests_settle.
Qed.

Lemma requests_step p p' : step p p' → RP p → RP p'.
Proof.
  cbv beta. intros Hstep Hp. destruct Hstep.
  - by rewrite taken_receive.
  - by apply requests_deliver.
  - unfold cancel. destruct (handle_open h p); [by apply requests_deliver|done].
  - by eapply (processLoop_invariant RP RP); [apply requests_turn| |done].
  - apply (script_invariant RP (Some (User u)) s p Returns p'); [apply requests_script|by intros ? [= <-]|done..].
  - destruct (l_parked p) as [[u n]|] eqn:Hpk; [|unfold resumeLoop in *; by rewrite Hpk in *].
    by eapply (resume_invariant RP RP); [apply requests_turn|done| |done].
  - by rewrite taken_shutdown.
  - unfold shutdown_resume. destruct (p_shutdown p); try done. by destruct hasChildren.
  - unfold restart. destruct (_ || _); [done|]. destruct (p_processing _); [done|]. unfold restart_idle.
    destruct (p_stopping _); [done|]. destruct hasChildren; [done|]. unfold restart_hooks. by destruct (p_suspended p).
  - unfold restart_resume, restart_idle, restart_hooks. destruct (p_restart p) as [| |was|was| |]; try done;
      repeat case_match; rewrite ?taken_schedule; done.
  - unfold reinstate. destruct (negb _); [done|]. destruct (mailboxEmpty _); [done|]. by rewrite taken_schedule.
Qed.

Lemma requests_steps p p' : rtc step p p' → RP p → RP p'.
Proof. induction 1 as [|x y z Hxy _ IH]; [done|]. intros Hx. apply IH. by apply (requests_step x y). Qed.
End requests.

(** A handle still counted: open, or abandoned. *)
Definition counted (h : bool * HandleState) : bool := match h.2 with HSettled => false | _ => true end.
Definition counts (f : bool * HandleState → bool) (hs : list (bool * HandleState)) : nat := length (List.filter f hs).

(** The counters agree with the handles. *)
Definition accounts (r : Requests) : Prop :=
  inFlight r = counts counted (handles r) ∧ paused r = counts (λ h, h.1 && counted h) (handles r).

Lemma counts_insert f hs h x y :
  hs !! h = Some x → (counts f (<[h := y]> hs) + (if f x then 1 else 0) = counts f hs + (if f y then 1 else 0))%nat.
Proof.
  intros H. pose proof (lookup_lt_Some _ _ _ H) as Hl. rewrite (insert_take_drop hs h y Hl). rewrite <- (take_drop_middle hs h x H) at 3.
  unfold counts. rewrite !List.filter_app, !length_app. cbn [List.filter]. destruct (f x), (f y); cbn [length]; lia.
Qed.

Lemma accounts_closed : requests_closed (λ r _, accounts r).
Proof.
  split; [| | |done].
  - intros r _ b [H1 H2]. split; cbn [inFlight paused handles]; rewrite ?H1, ?H2; unfold counts;
      rewrite List.filter_app, length_app; cbn; [lia|]. destruct b; cbn; lia.
  - intros r _ h b [H1 H2] E. split; cbn [inFlight paused handles].
    + pose proof (counts_insert counted _ h _ (b, HAbandoned) E). cbn in *. lia.
    + pose proof (counts_insert (λ h, h.1 && counted h) _ h _ (b, HAbandoned) E). cbn in *. destruct b; cbn in *; lia.
  - intros r _ h b [H1 H2] E. split; cbn [inFlight paused handles].
    + pose proof (counts_insert counted _ h _ (b, HSettled) E). cbn in *. lia.
    + pose proof (counts_insert (λ h, h.1 && counted h) _ h _ (b, HSettled) E). cbn in *. destruct b; cbn in *; lia.
Qed.

Lemma accounts_reachable p : reachable p → accounts (p_requests p).
Proof.
  intros (mb & u & Hmb & Hr). apply (requests_steps _ accounts_closed _ _ Hr). unfold started, start.
  cbn [p_running new_PID]. cbv beta. rewrite taken_receive. by split.
Qed.

(** The user messages a turn has handed to a behavior. *)
Definition users (ms : list Msg) : list Msg := List.filter (λ m, negb (is_command m)) ms.

Definition wedged (h : nat) (us : list Msg) (r : Requests) (out : list Msg) : Prop :=
  accounts r ∧ handles r !! h = Some (true, HAbandoned) ∧ users out = us.

Lemma wedged_paused h us r out : wedged h us r out → paused r ≠ 0%nat.
Proof.
  intros ([_ ->] & H & _). unfold counts. rewrite <- (take_drop_middle _ _ _ H).
  rewrite List.filter_app, length_app. cbn. lia.
Qed.

Lemma wedged_closed h us : requests_closed (wedged h us).
Proof.
  destruct accounts_closed as [A1 A2 A3 _]. split.
  - intros r out b (H1 & H2 & H3). split_and!; [by apply A1|by apply lookup_app_l_Some|done].
  - intros r out h' b (H1 & H2 & H3) E. split_and!; [by apply (A2 r out)| |done]. cbn [handles].
    rewrite list_lookup_insert_ne; [done|]. intros ->. congruence.
  - intros r out h' b (H1 & H2 & H3) E. split_and!; [by apply (A3 r out)| |done]. cbn [handles].
    rewrite list_lookup_insert_ne; [done|]. intros ->. congruence.
  - intros r out m Hw Hm. pose proof (wedged_paused h us r out Hw). destruct Hw as (H1 & H2 & H3), Hm as [Hm|]; [|done].
    split_and!; [done..|]. unfold users in *. rewrite List.filter_app, H3. cbn. by rewrite Hm, app_nil_r.
Qed.
End invariant.
