(* ===== verification/PidTurn.v ===== *)
(** * The turn of an actor: its end and its quota

    [processLoop] is written with fuel.  A turn in which the actor's own code sends
    itself no runtime command needs one unit of fuel per command waiting at its start and
    one per user message of the quota; the code between the turns cannot change that.  The
    quota itself bounds the user messages of every turn. *)
From S2P Require Import Prelude Mailbox Pid PidInvariant.

Section turn.
Context {U B M : Type} {ops : MailboxOps (@Message U) M} {MB : Mailbox (@Message U) M} (cf : Config).
Abbreviation Msg := (@Message U).
Abbreviation P := (@PID U B M).
Abbreviation kept := (kept_with []).
Implicit Types (p : P) (m : Msg).

(** ** Runtime commands in the mailbox *)

Definition commands p : nat := length (List.filter is_command (contents (p_mailbox p))).

Lemma filter_perm {A} (f : A → bool) l1 l2 : l1 ≡ₚ l2 → length (List.filter f l1) = length (List.filter f l2).
Proof. induction 1; cbn; repeat case_match; cbn; lia. Qed.

Lemma commands_receive fresh m p :
  mailbox_ok p → (commands (doReceive fresh m p).2 ≤ commands p + (if is_command m then 1 else 0))%nat.
Proof.
  intros Hm. unfold doReceive. destruct (isRunning p); cbn [negb]; [|destruct fresh; unfold commands; cell; lia].
  destruct (enqueue_cases m p Hm) as (r & mb & E & _ & Hc & _). rewrite E.
  assert (commands (set_mailbox mb p) ≤ commands p + (if is_command m then 1 else 0))%nat as H.
  { unfold commands. cell. rewrite (filter_perm _ _ _ Hc), List.filter_app, length_app. destruct r; cbn; [lia|].
    destruct (is_command m); cbn; lia. }
  destruct r as [e|]; cbn [snd]; [by destruct fresh|]. unfold schedule. destruct (p_processing _); by destruct fresh.
Qed.

Lemma commands_redeliver p s m s' :
  kept p → p_stash p = Some s → mb_dequeue s = (Some m, s') →
  (commands (doReceive false m (set_stash (Some s') p)).2 ≤ commands p)%nat.
Proof.
  intros [[Hm Hs] _] Es Ed. rewrite Es in Hs. destruct (stash_dequeue s s' (Some m) Hs Ed) as (_ & _ & Hc).
  pose proof (commands_receive false m (set_stash (Some s') p) Hm) as H. rewrite (Hc m eq_refl) in H. revert H. unfold commands. cell. lia.
Qed.

Lemma commands_unstash p : kept p → (commands (unstash p).2 ≤ commands p)%nat.
Proof.
  intros Hp. unfold unstash. destruct (p_stash p) as [s|] eqn:Es; [|done]. destruct (mb_dequeue s) as [[m|] s'] eqn:Ed; [|done].
  by apply (commands_redeliver p s).
Qed.

Lemma commands_unstash_loop fuel p : kept p → (commands (unstash_loop fuel p).2 ≤ commands p)%nat.
Proof.
  revert p. induction fuel as [|fuel IH]; intros p Hp; [done|]. cbn [unstash_loop].
  destruct (p_stash p) as [s|] eqn:Es; [|done]. destruct (mb_dequeue s) as [[m|] s'] eqn:Ed; [|done].
  pose proof (commands_redeliver p s m s' Hp Es Ed) as H. pose proof (kept_redeliver [] _ m (kept_take_stash [] p s _ s' Es Ed Hp)) as Hk.
  destruct (doReceive false m _) as [[e|] p1]; [done|]. cbn [snd] in *. specialize (IH p1 Hk). lia.
Qed.

Lemma commands_unstashAll p : kept p → (commands (unstashAll p).2 ≤ commands p)%nat.
Proof. intros Hp. unfold unstashAll. destruct (p_stash p); [|done]. by apply commands_unstash_loop. Qed.

Lemma commands_stash fresh m p : commands (stash fresh m p).2 = commands p.
Proof. unfold stash. destruct (mb_enqueue m _) as [[e|] s]; [done|by destruct fresh]. Qed.

Lemma commands_shutdown hasChildren p : commands (shutdown hasChildren p) = commands p.
Proof.
  unfold shutdown. destruct (p_shutdown p); try done. destruct (negb _); [done|]. destruct (p_processing _); [done|]. by destruct hasChildren.
Qed.

Lemma commands_settle h p p' : kept p → settleRequest h p = Some p' → (commands p' ≤ commands p)%nat.
Proof.
  intros Hp. unfold settleRequest. destruct (handles (p_requests p) !! h) as [[b []]|]; try done. intros [= <-].
  match goal with |- context [set_requests ?r ?q] => set (p1 := set_requests r q) end.
  assert (kept p1) as H1 by (revert Hp; by apply kept_frame). apply commands_unstashAll in H1.
  destruct (_ && _); [exact H1|done].
Qed.

(** ** Code that sends itself no command *)

Definition quiet_action (a : @Action U B) : bool :=
  match a with ATellSelf m => negb (is_command m) | ACancel _ => false | _ => true end.

Fixpoint quiet (s : @script U B) : Prop :=
  match s with Done _ => True | Do a k => quiet_action a = true ∧ ∀ e, quiet (k e) end.

Lemma commands_act msg a p :
  quiet_action a = true → (∀ m, msg = Some m → is_command m = false) → kept p → (commands (act cf msg a p).2 ≤ commands p)%nat.
Proof.
  intros Hq Hm Hp. destruct a; cbn [act snd]; try done.
  - destruct msg as [m|]; [|done]. by rewrite commands_stash.
  - by apply commands_unstash.
  - by apply commands_unstashAll.
  - destruct Hp as [[Hmb _] _]. pose proof (commands_receive true m p Hmb) as H. cbn in Hq. apply negb_true_iff in Hq.
    rewrite Hq in H. lia.
  - by rewrite commands_shutdown.
  - unfold request. destruct (openRequest cf mode p); [done|]. by destruct target.
Qed.

Lemma commands_script msg s p o p' :
  quiet s → (∀ m, msg = Some m → is_command m = false) → kept p → run_script cf msg s p = (o, p') →
  kept p' ∧ (commands p' ≤ commands p)%nat.
Proof.
  intros Hq Hm. revert p. induction s as [o'|a k IH]; intros p Hp; cbn [run_script].
  - by intros [= _ <-].
  - destruct Hq as [Hqa Hqk]. pose proof (commands_act msg a p Hqa Hm Hp) as H1.
    pose proof (act_invariant cf kept msg a p kept_script Hm Hp) as H2.
    destruct (act cf msg a p) as [e p1]. intros E. destruct (IH e (Hqk e) p1 H2 E). split; [done|]. cbn [snd] in *. lia.
Qed.

(** ** The turn ends *)

Lemma commands_take p m mb :
  kept p → mb_dequeue (p_mailbox p) = (Some m, mb) →
  commands p = (commands (set_mailbox mb p) + (if is_command m then 1 else 0))%nat.
Proof.
  intros [[Hm _] _] E. destruct (dequeue_cases p _ mb Hm E) as [_ Hc]. unfold commands. cell.
  rewrite (filter_perm _ _ _ Hc). cbn. destruct (is_command m); cbn; lia.
Qed.

Lemma commands_post p : commands (postReceive cf p).2 = commands p.
Proof.
  unfold postReceive. destruct (p_suspended _); cbn [snd].
  - unfold notifyIdle, commands. by destruct (p_shutdown _); cbn; destruct (p_restart p).
  - destruct (_ && _); [by rewrite commands_shutdown|done].
Qed.

Lemma commands_fault d p : commands (handleFault d p) = commands p.
Proof. by destruct d as [[]|]. Qed.

(** One iteration on a user message that a behavior has handled. *)
Lemma processed_step fuel signal env n processed p :
  (∀ n processed p, kept p → (processed < THROUGHPUT)%nat → (commands p + (THROUGHPUT - processed) < fuel)%nat →
    ∃ t, processLoop cf fuel signal env n processed p = Some t) →
  kept p → (processed < THROUGHPUT)%nat → (commands p + (THROUGHPUT - processed) < S fuel)%nat →
  ∃ t, (let '(continue, p) := postReceive cf p in
        if continue then if Nat.leb THROUGHPUT (S processed) then Some (TurnEnds (yield p))
          else processLoop cf fuel signal env n (S processed) p
        else Some (TurnEnds p)) = Some t.
Proof.
  intros IH Hp Hn Hf. pose proof (commands_post p) as Hc. destruct (postReceive cf p) as [c p1] eqn:E.
  apply (post_invariant cf kept kept _ _ _ kept_turn Hp) in E. destruct c; [|by eexists].
  destruct (Nat.leb_spec THROUGHPUT (S processed)); [by eexists|]. cbn [snd] in Hc. apply IH; [done|lia..].
Qed.

Lemma processLoop_total fuel signal env n processed p :
  (∀ k b m, quiet (env k b m)) → kept p → (processed < THROUGHPUT)%nat →
  (commands p + (THROUGHPUT - processed) < fuel)%nat →
  ∃ t, processLoop cf fuel signal env n processed p = Some t.
Proof.
  intros Hq. revert n processed p. induction fuel as [|fuel IH]; intros n processed p Hp Hn Hf; [lia|]. cbn [processLoop].
  destruct (mb_dequeue (p_mailbox p)) as [[m|] mb] eqn:Ed; [|by eexists].
  pose proof (commands_take p m mb Hp Ed) as Hc. destruct m as [u| |h|c d]; cbn [is_command] in Hc.
  - destruct (negb _) eqn:Ep.
    + destruct (Nat.leb_spec THROUGHPUT (S processed)); [by eexists|].
      apply IH; [by apply (tv_pause kept kept kept_turn)|done|rewrite commands_stash; lia].
    + apply negb_false_iff, Nat.eqb_eq in Ep. pose proof (tv_take kept kept kept_turn p mb _ Hp Ed (or_intror Ep)) as Ht.
      destruct (run_script _ _ _ _) as [o p1] eqn:Er.
      destruct (commands_script (Some (User u)) _ _ _ _ (Hq _ _ _) ltac:(by intros ? [= <-]) Ht Er) as [Hk1 Hc1].
      change (commands (log_out _ _)) with (commands (set_mailbox mb p)) in Hc1.
      destruct o as [|d|]; [| |by eexists]; apply processed_step; auto; try lia.
      * by apply (fault_invariant kept kept _ _ kept_turn).
      * rewrite commands_fault. lia.
  - pose proof (tv_take kept kept kept_turn p mb _ Hp Ed (or_introl eq_refl)) as Ht.
    apply IH; [apply kept_shutdown; revert Ht; by apply kept_frame|done|]. rewrite commands_shutdown.
    change (commands (count_processed _)) with (commands (set_mailbox mb p)). lia.
  - pose proof (tv_take kept kept kept_turn p mb _ Hp Ed (or_introl eq_refl)) as Ht. apply (tv_count kept kept kept_turn) in Ht.
    set (p1 := count_processed _) in *. change (commands (set_mailbox mb p)) with (commands p1) in Hc.
    destruct (settleRequest h p1) as [p2|] eqn:Es; [|apply IH; [done|lia..]].
    pose proof (commands_settle h p1 p2 Ht Es) as Hc2. apply (kept_settle [] h) in Es; [|done].
    destruct (run_script _ _ _ _) as [o p3] eqn:Er.
    destruct (commands_script None _ _ _ _ (Hq _ _ _) ltac:(done) Es Er) as [Hk3 Hc3].
    destruct o; [|by eexists|]; (apply IH; [done|lia..]).
  - pose proof (tv_take kept kept kept_turn p mb _ Hp Ed (or_introl eq_refl)) as Ht. apply (tv_count kept kept kept_turn) in Ht.
    set (p1 := count_processed _) in *. change (commands (set_mailbox mb p)) with (commands p1) in Hc.
    destruct d; cbn [handlePanicking]; try (apply IH; [done|lia..]).
    pose proof (commands_receive true (User signal) p1 (proj1 (proj1 Ht))) as H. cbn [is_command] in H.
    apply IH; [by apply kept_receive|lia..].
Qed.

(** ** The quota *)

Definition handled p : nat := length (users (taken p).2).

Lemma taken_deliver h p : (taken (deliverRequestReply h p)).2 = (taken p).2.
Proof.
  unfold deliverRequestReply. rewrite <- (taken_receive true (RequestReply h) p).
  destruct (doReceive true (RequestReply h) p) as [[e|] p1]; [|done]. unfold abandon. by destruct (handle_open h p1).
Qed.

Lemma taken_settle h p p' : settleRequest h p = Some p' → (taken p').2 = (taken p).2.
Proof.
  unfold settleRequest. destruct (handles (p_requests p) !! h) as [[b []]|]; try done. intros [= <-].
  destruct (_ && _); [by rewrite taken_unstashAll|done].
Qed.

Lemma taken_script out : script_closed (λ p, (taken p).2 = out).
Proof.
  split; intros p; cbv beta; intros; try done.
  - by rewrite taken_receive.
  - by rewrite taken_stash.
  - by rewrite taken_unstash.
  - by rewrite taken_unstashAll.
  - by rewrite taken_shutdown.
  - by rewrite taken_deliver.
Qed.

Lemma handled_script msg s p o p' :
  (∀ m, msg = Some m → is_command m = false) → run_script cf msg s p = (o, p') → handled p' = handled p.
Proof.
  intros Hm E. unfold handled. f_equal. f_equal.
  exact (script_invariant cf (λ q, (taken q).2 = (taken p).2) msg s p o p' (taken_script _) Hm eq_refl E).
Qed.

Lemma handled_post p : handled (postReceive cf p).2 = handled p.
Proof.
  unfold postReceive, handled. destruct (p_suspended _); cbn [snd]; [by rewrite taken_notifyIdle|].
  destruct (_ && _); [by rewrite taken_shutdown|done].
Qed.

Lemma handled_take p m mb : (handled (log_out m (set_mailbox mb p)) = handled p + (if is_command m then 0 else 1))%nat.
Proof.
  unfold handled, taken, users. cell. rewrite List.filter_app, length_app. cbn. destruct (is_command m); cbn; lia.
Qed.

Lemma processLoop_quota fuel signal env n processed p p' :
  (processed < THROUGHPUT)%nat → processLoop cf fuel signal env n processed p = Some (TurnEnds p') →
  (handled p' + processed ≤ handled p + THROUGHPUT)%nat.
Proof.
  revert n processed p. induction fuel as [|fuel IH]; intros n processed p Hn; [done|]. cbn [processLoop].
  destruct (mb_dequeue (p_mailbox p)) as [[m|] mb] eqn:Ed.
  2: { intros [= <-]. unfold handled. rewrite taken_notifyIdle. change (taken _) with (taken p). lia. }
  pose proof (handled_take p m mb) as Ht. destruct m as [u| |h|c d]; cbn [is_command] in Ht.
  - destruct (negb _).
    + assert (handled (stash false (User u) (set_mailbox mb p)).2 = handled p) as Hs by (unfold handled; by rewrite taken_stash).
      destruct (Nat.leb_spec THROUGHPUT (S processed)).
      * intros [= <-]. change (handled (yield ?x)) with (handled x). lia.
      * intros E. apply IH in E; lia.
    + destruct (run_script _ _ _ _) as [o p1] eqn:Er. apply handled_script in Er; [|by intros ? [= <-]]. rewrite Ht in Er.
      assert (∀ q, handled q = handled p1 → (let '(continue, p2) := postReceive cf q in
        if continue then if Nat.leb THROUGHPUT (S processed) then Some (TurnEnds (yield p2))
          else processLoop cf fuel signal env (S n) (S processed) p2 else Some (TurnEnds p2)) = Some (TurnEnds p') →
        (handled p' + processed ≤ handled p + THROUGHPUT)%nat) as Hpost.
      { intros q Hq. rewrite <- handled_post in Hq. destruct (postReceive cf q) as [[] q2]; cbn [snd] in Hq.
        - destruct (Nat.leb_spec THROUGHPUT (S processed)); [intros [= <-]; change (handled (yield ?x)) with (handled x); lia|].
          intros E. apply IH in E; lia.
        - intros [= <-]. lia. }
      destruct o as [|d|]; [by apply Hpost|apply Hpost; by destruct d as [[]|]|]. intros [= <-].
      change (handled (set_parked _ ?x)) with (handled x). lia.
  - intros E. apply IH in E; [|done]. unfold handled at 2 in E. rewrite taken_shutdown in E.
    change (length (users (taken (count_processed ?x)).2)) with (handled x) in E. lia.
  - set (p1 := count_processed _) in *. change (handled (log_out _ _)) with (handled p1) in Ht.
    destruct (settleRequest h p1) as [p2|] eqn:Es; [|intros E; apply IH in E; lia].
    apply taken_settle in Es. assert (handled p2 = handled p1) as H2 by (unfold handled; by rewrite Es).
    destruct (run_script _ _ _ _) as [o p3] eqn:Er. apply handled_script in Er; [|done].
    destruct o; [|done|]; intros E; apply IH in E; lia.
  - set (p1 := count_processed _) in *. change (handled (log_out _ _)) with (handled p1) in Ht.
    intros E. apply IH in E; [|done]. destruct d; cbn [handlePanicking] in E; try lia.
    unfold handled at 2 in E. rewrite taken_receive in E. change (length (users (taken p1).2)) with (handled p1) in E. lia.
Qed.
End turn.
