(* ===== verification/PidProperties.v ===== *)
(** * The guarantees of an actor, and the races that break them

    What every reachable state of an actor promises, over any mailbox of the contract and
    any behavior; and the runs of the event loop in which a documented promise of the
    lifecycle does not hold. *)
From S2P Require Import Prelude Mailbox Pid PidInvariant PidTurn.

Section properties.
Context {U B M : Type} {ops : MailboxOps (@Message U) M} {MB : Mailbox (@Message U) M} (cf : Config).
Implicit Types (p : @PID U B M).

(** C11: one turn at a time and no lost wake-up.  In every reachable state the receive loop
    is due, parked or absent exactly as the processing flag says, so never twice; an actor
    that may process and holds a message has its loop due or parked; and a shutdown or a
    restart that waits for the loop to go idle waits for a loop that is due or parked. *)
Theorem pid_single_turn p :
  reachable cf p →
  (l_ready p + parked p = if p_processing p then 1 else 0)%nat
  ∧ (p_running p = true → p_suspended p = false → contents (p_mailbox p) ≠ [] → (l_ready p + parked p)%nat = 1%nat)
  ∧ (p_shutdown p = SWaitIdle → (l_ready p + parked p)%nat = 1%nat)
  ∧ (∀ was, p_restart p = RWaitIdle was → (l_ready p + parked p)%nat = 1%nat).
Proof.
  intros []%sched_reachable. rewrite Nat.add_0_r in sc_tokens. rewrite sc_tokens. split_and!.
  - done.
  - intros H1 H2 H3. destruct (p_processing p); [done|]. by apply empty_contents in sc_wake.
  - by intros ->%sc_wait.
  - by intros was ->%sc_rwait.
Qed.

(** C10: no message vanishes.  The messages an actor has let in are, each exactly once, the
    ones its turns took, the ones discarded with the mailbox or the stash at a stop or a
    restart or refused on their way back from the stash, and the ones that wait in the
    mailbox and the stash. *)
Theorem pid_conserves_messages p :
  reachable cf p →
  lg_in (p_log p) ≡ₚ lg_out (p_log p) ++ lg_dropped (p_log p) ++ contents (p_mailbox p) ++ stashed p.
Proof. by intros [_ H]%kept_reachable. Qed.

(** C12: a graceful stop.  In a run in which no stop begins during a restart and no
    reinstatement meets either, a stopping actor that is not suspended and is past its wait for the loop is at rest with
    an empty mailbox: the children stop and [postStop] runs only after every accepted
    message, and the stop then discards the stash and nothing else. *)
Theorem pid_graceful_stop p hasChildren :
  reachable cf p → lg_raced (p_log p) = false → p_stopping p = true → p_shutdown p ≠ SWaitIdle → p_suspended p = false →
  (l_ready p + parked p)%nat = 0%nat ∧ contents (p_mailbox p) = []
  ∧ lg_dropped (p_log (shutdown_resume hasChildren p))
    = lg_dropped (p_log p) ++ match p_shutdown p with SPostStop => stashed p | _ => [] end.
Proof.
  intros []%sched_reachable H1 H2 H3 H4. rewrite Nat.add_0_r in sc_tokens. rewrite sc_tokens.
  destruct (sc_graceful H1 H2 H3) as [Hpr [He|]]; [|congruence]. apply empty_contents in He; [|done].
  rewrite Hpr. split_and!; [done..|]. unfold shutdown_resume.
  destruct (p_shutdown p); try by rewrite app_nil_r.
  - destruct hasChildren; by rewrite app_nil_r.
  - unfold reset. cell. by rewrite He.
Qed.

(** C13: a turn ends, within its quota.  When the actor's code sends itself no runtime
    command, a turn returns after at most one iteration per command that waits and one per
    user message of the quota, and no turn hands more than the quota of user messages to
    a behavior. *)
Theorem pid_turn_ends p fuel signal env :
  reachable cf p → (∀ k b m, quiet (env k b m)) → (commands p + THROUGHPUT < fuel)%nat →
  ∃ t, dispatch cf fuel signal env p = Some t
    ∧ ∀ p', t = TurnEnds p' → (handled p' ≤ handled p + THROUGHPUT)%nat.
Proof.
  intros Hp%kept_reachable Hq Hf. unfold dispatch. set (p1 := set_ready _ p).
  assert (0 < THROUGHPUT)%nat as Ht by (apply Nat.ltb_lt; by vm_compute).
  destruct (processLoop_total cf fuel signal env 0 0 p1) as [t E]; [done|revert Hp; by apply kept_frame|done| |].
  { change (commands p1) with (commands p). lia. }
  exists t. split; [done|]. intros p' ->. apply processLoop_quota in E; [|done]. change (handled p1) with (handled p) in E. lia.
Qed.

(** C16: an abandoned request wedges the actor.  Once the reply to a request in stash mode
    has been refused, because the actor was suspended when it came, the pause it holds is
    never released: no user message is handed to a behavior in any later state, through
    every later restart and reinstatement. *)
Theorem abandoned_request_wedges p p' h :
  reachable cf p → handles (p_requests p) !! h = Some (true, HAbandoned) → rtc (step cf) p p' →
  paused (p_requests p') ≠ 0%nat ∧ users (lg_out (p_log p')) = users (lg_out (p_log p)).
Proof.
  intros Hp%accounts_reachable Hh Hr.
  pose proof (requests_steps cf _ (wedged_closed h (users (lg_out (p_log p)))) p p' Hr) as H.
  assert (wedged h (users (lg_out (p_log p))) (p_requests p') (lg_out (p_log p'))) as Hw by (apply H; by split_and!).
  split; [by eapply wedged_paused|]. by destruct Hw as (_ & _ & ?).
Qed.
End properties.

(** ** Runs *)

(** An actor on an unbounded mailbox whose requests pause it. *)
Definition run_config : Config := MkConfig 0 (Some (ModeStashNonReentrant, 0%nat)) true.
Abbreviation RunPid := (@PID nat nat (UnboundedMailbox (@Message nat))).

(** The first turn of the actor, on [PostStart]: it ends as [o] says, after the request if
    [asks]. *)
Definition run_script_of (asks : bool) (o : Outcome) : @script nat nat :=
  if asks then Do (ARequest None None) (λ _, Done o) else Done o.

Definition run_started : RunPid := started new_UnboundedMailbox 0%nat.

Definition run_turn (asks : bool) (o : Outcome) (p : RunPid) : RunPid :=
  match dispatch run_config 10 0%nat (λ _ _ _, run_script_of asks o) p with Some (TurnEnds p) => p | _ => p end.

Lemma run_started_reachable : reachable run_config run_started.
Proof. exists new_UnboundedMailbox, 0%nat. split; [apply new_UnboundedMailbox_repr|apply rtc_refl]. Qed.

Lemma reachable_step (p p' : RunPid) : reachable run_config p → step run_config p p' → reachable run_config p'.
Proof. intros (mb & u & H & Hr) Hs. exists mb, u. split; [done|]. by eapply rtc_r. Qed.

Lemma run_turn_reachable (asks : bool) :
  reachable run_config (run_turn asks (if asks then Throws None else Returns) run_started).
Proof.
  eapply reachable_step; [apply run_started_reachable|].
  eapply (step_dispatch _ 10 0%nat (λ _ _ _, run_script_of asks (if asks then Throws None else Returns))); [done|].
  destruct asks; vm_compute; reflexivity.
Qed.

(** The actor has answered its first message and is told to stop. *)
Definition run_stopping : RunPid := shutdown false (run_turn false Returns run_started).

Lemma run_stopping_reachable : reachable run_config run_stopping.
Proof. eapply reachable_step; [apply (run_turn_reachable false)|apply step_shutdown]. Qed.

(** The actor asks in its first turn and faults; the reply finds it suspended. *)
Definition run_abandoned : RunPid := deliverRequestReply 0 (run_turn true (Throws None) run_started).

Lemma run_abandoned_reachable : reachable run_config run_abandoned.
Proof. eapply reachable_step; [apply (run_turn_reachable true)|apply step_reply]. Qed.

Lemma pid_single_turn_witness :
  (l_ready run_started + parked run_started = 1)%nat ∧ contents (p_mailbox run_started) ≠ [].
Proof.
  pose proof (pid_single_turn run_config run_started run_started_reachable) as (H & _).
  split; [exact H|by vm_compute].
Defined.

Lemma pid_conserves_messages_witness :
  lg_in (p_log run_abandoned) = [User 0%nat] ∧
  lg_in (p_log run_abandoned)
    ≡ₚ lg_out (p_log run_abandoned) ++ lg_dropped (p_log run_abandoned) ++ contents (p_mailbox run_abandoned) ++ stashed run_abandoned.
Proof. split; [by vm_compute|]. exact (pid_conserves_messages run_config run_abandoned run_abandoned_reachable). Defined.

Lemma pid_graceful_stop_witness :
  p_shutdown run_stopping = SPostStop ∧ (l_ready run_stopping + parked run_stopping)%nat = 0%nat.
Proof.
  split; [by vm_compute|].
  apply (pid_graceful_stop run_config run_stopping false run_stopping_reachable); by vm_compute.
Defined.

Lemma pid_turn_ends_witness :
  ∃ t, dispatch run_config (S (commands run_started + THROUGHPUT)) 0%nat (λ _ _ _, Done Returns) run_started = Some t.
Proof.
  destruct (pid_turn_ends run_config run_started (S (commands run_started + THROUGHPUT)) 0%nat (λ _ _ _, Done Returns)
    run_started_reachable ltac:(done) ltac:(lia)) as (t & H & _). by exists t.
Defined.

(** The restart that follows the fault, up to the running actor. *)
Definition run_restarted : RunPid := restart_resume false true (restart false run_abandoned).2.

Lemma run_restarted_steps : rtc (step run_config) run_abandoned run_restarted.
Proof. eapply rtc_l; [apply step_restart|]. apply rtc_once, step_restart_resume. Qed.

Lemma abandoned_request_wedges_witness :
  isRunning run_restarted = true ∧ users (lg_out (p_log run_restarted)) = users (lg_out (p_log run_abandoned)) ∧
  paused (p_requests run_restarted) ≠ 0%nat.
Proof.
  destruct (abandoned_request_wedges run_config run_abandoned run_restarted 0%nat run_abandoned_reachable) as [H1 H2].
  - by vm_compute.
  - apply run_restarted_steps.
  - split_and!; [by vm_compute|done..].
Defined.

(** ** A restart that outlives the stop *)

(** Restart runs [postStop]; a shutdown begun meanwhile finds the loop idle, runs
    [postStop] again and resets the actor; the restart then goes on. *)
Definition run_outlived : RunPid :=
  let p := (restart false (run_turn false Returns run_started)).2 in
  let p := shutdown_resume false (shutdown false p) in
  restart_resume false true (restart_resume false true p).

(** C17: a restart does not notice a stop that begins after its wait for the loop.  The stop
    completes, [postStop] has run twice, and the restart then runs [preStart] on the
    stopped actor and returns without an error: what it acquires is never released. *)
Theorem restart_outlives_stop :
  reachable run_config run_outlived ∧ p_running run_outlived = false ∧ p_shutdown run_outlived = SDone
  ∧ p_restart run_outlived = NoRestart ∧ lg_hooks (p_log run_outlived) = [PreStart; PostStop; PostStop; PreStart].
Proof.
  split; [|by vm_compute]. unfold run_outlived. do 2 (eapply reachable_step; [|apply step_restart_resume]).
  eapply reachable_step; [|apply step_shutdown_resume]. eapply reachable_step; [|apply step_shutdown].
  eapply reachable_step; [|apply step_restart]. apply (run_turn_reachable false).
Qed.
