(* ===== verification/Broadcast.v ===== *)
(** * The broadcast queue ([src/membership/broadcast.ts])

    Membership truth waiting to be gossiped: one generation per member, each with a budget
    of accepted sends.  A selection packs whole records into a byte budget without
    touching the queue; acknowledging it charges the generations that are still current. *)
From S2P Require Import Prelude JsNumber JsString Membership Suspicion MembershipWire.

Definition RETRANSMIT_MULTIPLIER : Z := 4.

Record QueuedBroadcast := MkQueued {
  qb_update : MembershipUpdate;
  qb_encodedBytes : Z;
  qb_priority : bool;
  qb_initialRemaining : Z;
  qb_order : Z;
  qb_generation : Z;
  qb_remaining : Z }.

(** [BroadcastSnapshot]. *)
Record BroadcastSnapshot := MkSnapshot {
  sn_update : MembershipUpdate;
  sn_priority : bool;
  sn_initialRemaining : Z;
  sn_remaining : Z;
  sn_transmissions : Z }.

Record IncludedQueuedRecord := MkIncluded { iq_member : jsstring; iq_generation : Z }.

(** A selection object is its identity and its two frozen fields. *)
Record BroadcastSelection := MkSelection {
  sel_id : nat;
  sel_updates : list MembershipUpdate;
  sel_bytes : Z }.

(** The receipts are keyed by the identity of the selection; [bq_objects] is the identity
    of the next object. *)
Record BroadcastQueue := MkBroadcast {
  bq_queued : list (jsstring * QueuedBroadcast);
  bq_receipts : list (nat * list IncludedQueuedRecord);
  bq_nextOrder : Z;
  bq_nextGeneration : Z;
  bq_objects : nat }.

Definition new_BroadcastQueue : BroadcastQueue := MkBroadcast [] [] 0 0 0.

Definition assertNonnegativeInteger (value : Z) (message : string) : result unit :=
  guard_throw (negb (negb (is_safe_integer value) || (value <? 0))) (RangeError message).

Definition transmissions (r : QueuedBroadcast) : Z := qb_initialRemaining r - qb_remaining r.

Definition compareQueued (l r : QueuedBroadcast) : Z :=
  if negb (Bool.eqb (qb_priority l) (qb_priority r)) then (if qb_priority l then -1 else 1)
  else if negb (transmissions l =? transmissions r) then transmissions l - transmissions r
  else qb_order l - qb_order r.

(** [Array.sort] puts [l] before [r] when the comparison is not positive. *)
Definition queued_le (l r : QueuedBroadcast) : Prop := compareQueued l r ≤ 0.

#[global] Instance queued_le_dec : RelDecision queued_le.
Proof. intros l r. unfold queued_le. apply _. Defined.

Definition truthMatches (l r : MembershipUpdate) : bool :=
  (incarnation l =? incarnation r) && bool_decide (u_state l = u_state r).

Definition bq_size (q : BroadcastQueue) : nat := length (bq_queued q).

Definition bq_get (q : BroadcastQueue) (member : jsstring) : option BroadcastSnapshot :=
  match jm_get member (bq_queued q) with
  | Some r => Some (MkSnapshot (qb_update r) (qb_priority r) (qb_initialRemaining r) (qb_remaining r) (transmissions r))
  | None => None
  end.

(** *** Enqueueing *)

Section enqueue.
Context `{MathLog}.

Definition sendBudget (aliveOrSuspectCount : Z) : Z :=
  RETRANSMIT_MULTIPLIER * ceil_log10 (Z.max 1 aliveOrSuspectCount + 1).

(** [#store]. *)
Definition bq_store (q : BroadcastQueue) (incoming : MembershipUpdate) (encodedBytes : nat)
    (aliveOrSuspectCount : Z) (prioritySelfDefense : bool) : result BroadcastQueue :=
  let! _ := assertNonnegativeInteger aliveOrSuspectCount "alive-or-suspect count must be a non-negative safe integer" in
  let remaining := sendBudget aliveOrSuspectCount in
  let r := MkQueued incoming (Z.of_nat encodedBytes) (prioritySelfDefense && bool_decide (u_state incoming = Alive))
             remaining (bq_nextOrder q) (bq_nextGeneration q) remaining in
  Ok (MkBroadcast (jm_set (u_member incoming) r (bq_queued q)) (bq_receipts q)
        (bq_nextOrder q + 1) (bq_nextGeneration q + 1) (bq_objects q)).

Definition bq_enqueue (q : BroadcastQueue) (incoming : MembershipUpdate) (aliveOrSuspectCount : Z)
    (prioritySelfDefense : bool) : result (bool * BroadcastQueue) :=
  let! encodedBytes := membershipUpdateSize incoming in
  let refused :=
    match jm_get (u_member incoming) (bq_queued q) with
    | Some current => compareMembershipUpdates incoming (qb_update current) <=? 0
    | None => false
    end in
  if refused then Ok (false, q)
  else let! q := bq_store q incoming encodedBytes aliveOrSuspectCount prioritySelfDefense in Ok (true, q).

Definition bq_enqueueConfirmation (q : BroadcastQueue) (incoming : MembershipUpdate) (aliveOrSuspectCount : Z)
    : result (bool * BroadcastQueue) :=
  let! encodedBytes := membershipUpdateSize incoming in
  if negb (bool_decide (u_state incoming = Suspect)) then Ok (false, q)
  else
    let refused :=
      match jm_get (u_member incoming) (bq_queued q) with
      | Some current =>
          let precedence := compareMembershipUpdates incoming (qb_update current) in
          (precedence <? 0) || ((precedence =? 0) && bool_decide (u_reporter incoming = u_reporter (qb_update current)))
      | None => false
      end in
    if refused then Ok (false, q)
    else let! q := bq_store q incoming encodedBytes aliveOrSuspectCount false in Ok (true, q).
End enqueue.

(** *** Selecting *)

(** [BroadcastPackOptions]. *)
Record BroadcastPackOptions := MkPackOptions {
  po_perRecordOverhead : option Z;
  po_buddy : option MembershipUpdate;
  po_maxRecords : option Z }.

(** What [pack] has chosen so far. *)
Record Packing := MkPacking {
  pk_updates : list MembershipUpdate;
  pk_included : list IncludedQueuedRecord;
  pk_bytes : Z }.

(** The buddy, when it is allowed and fits, with the member whose queued truth it covers. *)
Definition pack_buddy (q : BroadcastQueue) (byteBudget perRecordOverhead maxRecords : Z) (buddy : option MembershipUpdate)
    : result (Packing * option jsstring) :=
  match buddy with
  | Some b =>
      if 0 <? maxRecords then
        let! size := membershipUpdateSize b in
        let buddyBytes := Z.of_nat size + perRecordOverhead in
        if buddyBytes <=? byteBudget then
          let included :=
            match jm_get (u_member b) (bq_queued q) with
            | Some r => if truthMatches (qb_update r) b then [MkIncluded (u_member (qb_update r)) (qb_generation r)] else []
            | None => []
            end in
          Ok (MkPacking [b] included buddyBytes, Some (u_member b))
        else Ok (MkPacking [] [] 0, None)
      else Ok (MkPacking [] [] 0, None)
  | None => Ok (MkPacking [] [] 0, None)
  end.

Fixpoint pack_loop (byteBudget perRecordOverhead maxRecords : Z) (buddyMember : option jsstring)
    (ordered : list QueuedBroadcast) (p : Packing) : Packing :=
  match ordered with
  | [] => p
  | r :: ordered =>
      if maxRecords <=? Z.of_nat (length (pk_updates p)) then p
      else if bool_decide (Some (u_member (qb_update r)) = buddyMember) then
        pack_loop byteBudget perRecordOverhead maxRecords buddyMember ordered p
      else
        let recordBytes := qb_encodedBytes r + perRecordOverhead in
        if byteBudget <? pk_bytes p + recordBytes then
          pack_loop byteBudget perRecordOverhead maxRecords buddyMember ordered p
        else
          pack_loop byteBudget perRecordOverhead maxRecords buddyMember ordered
            (MkPacking (pk_updates p ++ [qb_update r])
               (pk_included p ++ [MkIncluded (u_member (qb_update r)) (qb_generation r)])
               (pk_bytes p + recordBytes))
  end.

(** The queue in scheduling order. *)
Definition bq_ordered (q : BroadcastQueue) : list QueuedBroadcast := merge_sort queued_le (jm_values (bq_queued q)).

Definition bq_pack (q : BroadcastQueue) (byteBudget : Z) (options : BroadcastPackOptions)
    : result (BroadcastSelection * BroadcastQueue) :=
  let! _ := assertNonnegativeInteger byteBudget "byte budget must be a non-negative safe integer" in
  let perRecordOverhead := default 0 (po_perRecordOverhead options) in
  let maxRecords := default (Z.of_nat UPDATE_LIST_MAX_RECORDS) (po_maxRecords options) in
  let! _ := assertNonnegativeInteger perRecordOverhead "per-record overhead must be a non-negative safe integer" in
  let! _ := assertNonnegativeInteger maxRecords "maximum record count must be a non-negative safe integer" in
  let! _ := guard_throw (negb (Z.of_nat UPDATE_LIST_MAX_RECORDS <? maxRecords)) (RangeError "maximum record count cannot exceed 255") in
  let! (p, buddyMember) := pack_buddy q byteBudget perRecordOverhead maxRecords (po_buddy options) in
  let p := pack_loop byteBudget perRecordOverhead maxRecords buddyMember (bq_ordered q) p in
  Ok (MkSelection (bq_objects q) (pk_updates p) (pk_bytes p),
      MkBroadcast (bq_queued q) (jm_set (bq_objects q) (pk_included p) (bq_receipts q))
        (bq_nextOrder q) (bq_nextGeneration q) (S (bq_objects q))).

(** *** Acknowledging *)




(** ** Well-formed queues *)

Definition size_of (u : MembershipUpdate) : Z := match membershipUpdateSize u with Ok n => Z.of_nat n | Throw _ => 0 end.

(** Each member's truth under its name, with a budget that is not spent, a size that is
    the record's, and a place in the schedule of its own. *)
Record broadcast_ok (q : BroadcastQueue) : Prop := {
  bo_wf : jm_wf (bq_queued q);
  bo_receipts : jm_wf (bq_receipts q);
  bo_ids : ∀ i inc, (i, inc) ∈ bq_receipts q → (i < bq_objects q)%nat ∧ NoDup (iq_member <$> inc);
  bo_member : ∀ k r, (k, r) ∈ bq_queued q → k = u_member (qb_update r);
  bo_size : ∀ k r, (k, r) ∈ bq_queued q → membershipUpdateSize (qb_update r) = Ok (Z.to_nat (qb_encodedBytes r)) ∧ 0 ≤ qb_encodedBytes r;
  bo_budget : ∀ k r, (k, r) ∈ bq_queued q → 0 < qb_remaining r ≤ qb_initialRemaining r;
  bo_fresh : ∀ k r, (k, r) ∈ bq_queued q → qb_order r < bq_nextOrder q ∧ qb_generation r < bq_nextGeneration q;
  bo_order : ∀ k1 r1 k2 r2, (k1, r1) ∈ bq_queued q → (k2, r2) ∈ bq_queued q → qb_order r1 = qb_order r2 → k1 = k2 }.

Lemma new_broadcast_ok : broadcast_ok new_BroadcastQueue.
Proof. split; try constructor; intros; set_solver. Qed.

Lemma elem_jm_set {K V} `{EqDecision K} (k k' : K) (v v' : V) m :
  jm_wf m → (k', v') ∈ jm_set k v m → (k' = k ∧ v' = v) ∨ (k' ≠ k ∧ (k', v') ∈ m).
Proof.
  intros Hm H. apply elem_jm_get in H; [|by apply jm_wf_set]. rewrite jm_get_set in H. case_decide; simplify_eq; [by left|].
  right. split; [done|]. by apply jm_get_elem.
Qed.


Section enqueue_ok.
Context `{MathLogLaws}.

Lemma sendBudget_pos n : 0 < sendBudget n.
Proof. unfold sendBudget, RETRANSMIT_MULTIPLIER. pose proof (ceil_log10_pos (Z.max 1 n + 1) ltac:(lia)). lia. Qed.

Lemma bq_store_ok q u n count priority q' :
  broadcast_ok q → membershipUpdateSize u = Ok n → bq_store q u n count priority = Ok q' → broadcast_ok q'.
Proof.
  intros [] Hn H1. unfold bq_store in H1. inv_ok. pose proof (sendBudget_pos count) as Hb.
  split; cbn [bq_queued bq_receipts bq_nextOrder bq_nextGeneration bq_objects]; auto using jm_wf_set.
  - intros k x [[-> ->]|[_ H1]]%elem_jm_set; [done|eauto|done].
  - intros k x [[-> ->]|[_ H1]]%elem_jm_set; [|eauto|done]. cbn. rewrite Nat2Z.id. split; [done|lia].
  - intros k x [[-> ->]|[_ H1]]%elem_jm_set; [cbn; lia|eauto|done].
  - intros k x [[-> ->]|[_ H1]]%elem_jm_set; [cbn; lia| |done]. specialize (bo_fresh0 k x H1). lia.
  - intros k1 r1 k2 r2 [[-> ->]|[_ H1]]%elem_jm_set [[-> ->]|[_ H2]]%elem_jm_set; try done; cbn; intros Eo.
    + pose proof (bo_fresh0 k2 r2 H2). lia.
    + pose proof (bo_fresh0 k1 r1 H1). lia.
    + by apply (bo_order0 k1 r1 k2 r2).
Qed.

Lemma bq_enqueue_ok q u count priority b q' : broadcast_ok q → bq_enqueue q u count priority = Ok (b, q') → broadcast_ok q'.
Proof.
  intros Hq H1. unfold bq_enqueue in H1. apply result_bind_ok in H1 as (n & Hn & H1).
  destruct (jm_get _ _) as [c|]; [destruct (_ <=? 0)|]; inv_ok; try done; by eapply bq_store_ok.
Qed.

Lemma bq_enqueueConfirmation_ok q u count b q' : broadcast_ok q → bq_enqueueConfirmation q u count = Ok (b, q') → broadcast_ok q'.
Proof.
  intros Hq H1. unfold bq_enqueueConfirmation in H1. apply result_bind_ok in H1 as (n & Hn & H1).
  destruct (negb _); [by inv_ok|]. destruct (jm_get _ _) as [c|]; [destruct (_ || _)|]; inv_ok; try done; by eapply bq_store_ok.
Qed.
End enqueue_ok.

(** ** What a selection holds *)

Section packing.
Context (byteBudget overhead maxRecords : Z) (buddyMember : option jsstring).

Definition record_bytes (r : QueuedBroadcast) : Z := qb_encodedBytes r + overhead.
Definition total_bytes (l : list QueuedBroadcast) : Z := foldr (λ r acc, record_bytes r + acc) 0 l.
Definition included_of (r : QueuedBroadcast) : IncludedQueuedRecord := MkIncluded (u_member (qb_update r)) (qb_generation r).

(** The loop takes a subsequence of the schedule; what it leaves would not fit what it
    took, or finds the record cap reached, or belongs to the buddy's member. *)
Lemma pack_loop_spec ordered p :
  Forall (λ r, 0 ≤ record_bytes r) ordered →
  ∃ sel, sel `sublist_of` ordered
    ∧ pack_loop byteBudget overhead maxRecords buddyMember ordered p
      = MkPacking (pk_updates p ++ (qb_update <$> sel)) (pk_included p ++ (included_of <$> sel)) (pk_bytes p + total_bytes sel)
    ∧ 0 ≤ total_bytes sel
    ∧ (pk_bytes p ≤ byteBudget → pk_bytes p + total_bytes sel ≤ byteBudget)
    ∧ (Z.of_nat (length (pk_updates p)) ≤ maxRecords → Z.of_nat (length (pk_updates p) + length sel) ≤ maxRecords)
    ∧ Forall (λ r, Some (u_member (qb_update r)) ≠ buddyMember) sel
    ∧ Forall (λ r, r ∈ sel ∨ Some (u_member (qb_update r)) = buddyMember
        ∨ maxRecords ≤ Z.of_nat (length (pk_updates p) + length sel)
        ∨ byteBudget < pk_bytes p + total_bytes sel + record_bytes r) ordered.
Proof.
  revert p. induction ordered as [|r ordered IH]; intros p Hpos; cbn [pack_loop].
  - exists []. destruct p. rewrite !app_nil_r, Z.add_0_r. split_and!; try done; try (cbn; lia).
  - apply Forall_cons in Hpos as [Hr Hpos]. fold (record_bytes r).
    destruct (Z.leb_spec maxRecords (Z.of_nat (length (pk_updates p)))) as [Hfull|Hroom].
    { exists []. destruct p. cbn in *. rewrite !app_nil_r, Z.add_0_r. split_and!; try lia; [apply sublist_nil_l|done..|].
      apply Forall_true. intros x. right; right; left. lia. }
    case_bool_decide as Hb; [|destruct (Z.ltb_spec byteBudget (pk_bytes p + record_bytes r)) as [Hbig|Hfit]].
    + destruct (IH p Hpos) as (sel & H1 & H2 & H0 & H3 & H4 & H5 & H6). exists sel. split_and!; auto; by constructor.
    + destruct (IH p Hpos) as (sel & H1 & H2 & H0 & H3 & H4 & H5 & H6). exists sel. split_and!; auto; [by constructor|].
      constructor; [|done]. right; right; right. lia.
    + set (p1 := MkPacking _ _ _). destruct (IH p1 Hpos) as (sel & H1 & H2 & H0 & H3 & H4 & H5 & H6).
      exists (r :: sel). rewrite H2. cbn [pk_updates pk_included pk_bytes p1] in *. cbn [fmap list_fmap total_bytes foldr length].
      rewrite <-!app_assoc, length_app in *. cbn [length app] in *. fold (total_bytes sel).
      split_and!; try lia; [by constructor|f_equal; lia|by constructor|].
      constructor; [left; left|]. eapply Forall_impl; [apply H6|]. cbn. intros x [Hx|[Hx|[Hx|Hx]]].
      * left. by right.
      * by right; left.
      * right; right; left. lia.
      * right; right; right. lia.
Qed.
End packing.

Lemma queued_le_alt l r :
  queued_le l r ↔ (qb_priority l = true ∧ qb_priority r = false)
    ∨ (qb_priority l = qb_priority r
       ∧ (transmissions l < transmissions r ∨ transmissions l = transmissions r ∧ qb_order l ≤ qb_order r)).
Proof.
  unfold queued_le, compareQueued. destruct (qb_priority l), (qb_priority r); cbn;
    destruct (Z.eqb_spec (transmissions l) (transmissions r)); cbn; intuition (try lia; try congruence).
Qed.

#[global] Instance queued_le_trans : Transitive queued_le.
Proof. intros a b c. rewrite !queued_le_alt. intuition (try congruence); right; (split; [congruence|lia]). Qed.

#[global] Instance queued_le_total : Total queued_le.
Proof.
  intros a b. rewrite !queued_le_alt. destruct (qb_priority a), (qb_priority b); intuition;
    destruct (Z.lt_total (transmissions a) (transmissions b)) as [?|[?|?]], (Z.le_ge_cases (qb_order a) (qb_order b)); intuition.
Qed.

Lemma elem_ordered q r : r ∈ bq_ordered q ↔ ∃ k, (k, r) ∈ bq_queued q.
Proof.
  unfold bq_ordered, jm_values. rewrite merge_sort_Permutation, list_elem_of_fmap. split.
  - intros ([k r'] & -> & H). by exists k.
  - intros [k H]. by exists (k, r).
Qed.

Lemma ordered_members q : broadcast_ok q → (λ r, u_member (qb_update r)) <$> bq_ordered q ≡ₚ (bq_queued q).*1.
Proof.
  intros Hq. unfold bq_ordered. rewrite merge_sort_Permutation. unfold jm_values. rewrite <-list_fmap_compose.
  erewrite list_fmap_ext; [done|]. intros i [k r] Hi. cbn. symmetry. apply (bo_member q Hq). by eapply list_elem_of_lookup_2.
Qed.

Lemma ordered_bytes q overhead : broadcast_ok q → 0 ≤ overhead → Forall (λ r, 0 ≤ record_bytes overhead r) (bq_ordered q).
Proof.
  intros Hq Ho. apply Forall_forall. intros r [k Hr]%elem_ordered. pose proof (bo_size q Hq k r Hr). unfold record_bytes. lia.
Qed.

Lemma size_of_queued q k r : broadcast_ok q → (k, r) ∈ bq_queued q → size_of (qb_update r) = qb_encodedBytes r.
Proof. intros Hq Hr. destruct (bo_size q Hq k r Hr) as [E ?]. unfold size_of. rewrite E. lia. Qed.

Lemma sublist_elem {A} (l k : list A) x : l `sublist_of` k → x ∈ l → x ∈ k.
Proof. induction 1; set_solver. Qed.

Lemma sublist_fmap_NoDup {A C} (f : A → C) l k : l `sublist_of` k → NoDup (f <$> k) → NoDup (f <$> l).
Proof.
  induction 1 as [|x l k H IH|x l k H IH]; cbn; [done| |].
  - rewrite !NoDup_cons. intros [Hx Hk]. split; [|by apply IH]. intros (y & Hxy & Hy)%list_elem_of_fmap. apply Hx. rewrite Hxy.
    apply list_elem_of_fmap. exists y. split; [done|]. by eapply sublist_elem.
  - rewrite NoDup_cons. intros [_ Hk]. by apply IH.
Qed.

Lemma sublist_sorted {A} (R : relation A) l k : l `sublist_of` k → StronglySorted R k → StronglySorted R l.
Proof.
  induction 1 as [|x l k H IH|x l k H IH]; intros Hs; [constructor| |].
  - apply StronglySorted_inv in Hs as [Hs Hf]. constructor; [by apply IH|]. rewrite Forall_forall in *. intros y Hy. apply Hf.
    by eapply sublist_elem.
  - apply StronglySorted_inv in Hs as [Hs _]. by apply IH.
Qed.

(** The buddy's part of a packing: nothing, or the buddy alone. *)
Lemma pack_buddy_spec q B overhead maxRecords buddy p bm :
  broadcast_ok q → 0 ≤ B → 0 ≤ overhead → 0 ≤ maxRecords → pack_buddy q B overhead maxRecords buddy = Ok (p, bm) →
  (p = MkPacking [] [] 0 ∧ bm = None)
  ∨ ∃ b, buddy = Some b ∧ pk_updates p = [b] ∧ pk_bytes p = size_of b + overhead ∧ pk_bytes p ≤ B ∧ 1 ≤ maxRecords ∧ bm = Some (u_member b)
      ∧ (pk_included p = [] ∨ ∃ g, pk_included p = [MkIncluded (u_member b) g]).
Proof.
  intros Hq HB Ho Hm. unfold pack_buddy. destruct buddy as [b|]; [|intros [= <- <-]; by left].
  destruct (Z.ltb_spec 0 maxRecords); [|intros [= <- <-]; by left]. intros E. apply result_bind_ok in E as (n & En & E).
  destruct (Z.leb_spec (Z.of_nat n + overhead) B); injection E as <- <-; [|by left]. right. exists b. cbn.
  split_and!; try done; [unfold size_of; by rewrite En|lia|].
  destruct (jm_get (u_member b) (bq_queued q)) as [r|] eqn:Er; [|by left]. destruct (truthMatches _ _); [|by left].
  apply jm_get_elem in Er. right. exists (qb_generation r). by rewrite <-(bo_member q Hq _ r Er).
Qed.

Definition pack_overhead (o : BroadcastPackOptions) : Z := default 0 (po_perRecordOverhead o).
Definition pack_cap (o : BroadcastPackOptions) : Z := default (Z.of_nat UPDATE_LIST_MAX_RECORDS) (po_maxRecords o).

(** A call of [pack] that returns, taken apart. *)
Lemma bq_pack_inv q B o sel q' :
  broadcast_ok q → bq_pack q B o = Ok (sel, q') →
  0 ≤ B ∧ 0 ≤ pack_overhead o ∧ 0 ≤ pack_cap o ∧
  ∃ p bm, pack_buddy q B (pack_overhead o) (pack_cap o) (po_buddy o) = Ok (p, bm)
    ∧ let p' := pack_loop B (pack_overhead o) (pack_cap o) bm (bq_ordered q) p in
      sel = MkSelection (bq_objects q) (pk_updates p') (pk_bytes p')
      ∧ q' = MkBroadcast (bq_queued q) (jm_set (bq_objects q) (pk_included p') (bq_receipts q))
               (bq_nextOrder q) (bq_nextGeneration q) (S (bq_objects q)).
Proof.
  intros Hq H. unfold bq_pack in H. fold (pack_overhead o) in H. fold (pack_cap o) in H.
  unfold assertNonnegativeInteger in H.
  repeat (apply result_bind_ok in H as (? & ?%guard_throw_ok & H)). apply result_bind_ok in H as ([p bm] & E & H).
  injection H as <- <-. rewrite !negb_true_iff, !orb_false_iff, !Z.ltb_ge in *. split_and!; try lia. by exists p, bm.
Qed.

Lemma bo_receive q inc :
  broadcast_ok q → NoDup (iq_member <$> inc) →
  broadcast_ok (MkBroadcast (bq_queued q) (jm_set (bq_objects q) inc (bq_receipts q)) (bq_nextOrder q) (bq_nextGeneration q) (S (bq_objects q))).
Proof.
  intros [] Hi. split; cbn; auto using jm_wf_set. intros i inc' [[-> ->]|[_ H]]%elem_jm_set; [split; [lia|done]| |done].
  destruct (bo_ids0 i inc' H). split; [lia|done].
Qed.

Lemma total_bytes_sizes q overhead (chosen : list QueuedBroadcast) :
  broadcast_ok q → (∀ r, r ∈ chosen → ∃ k, (k, r) ∈ bq_queued q) →
  total_bytes overhead chosen = foldr (λ u acc, size_of u + overhead + acc) 0 (qb_update <$> chosen).
Proof.
  intros Hq. induction chosen as [|r l IH]; intros Hc; [done|]. cbn. unfold record_bytes at 1.
  destruct (Hc r) as [k Hk]; [by left|]. rewrite (size_of_queued q k r Hq Hk). rewrite <-IH; [done|]. intros x Hx. apply Hc. by right.
Qed.

(** A selection is maximal and in order.  Packing leaves the queued truth as it is and
    fits the byte budget and the record cap; it holds the buddy first, if one is given and
    fits, then queued records in scheduling order, self-defense and the least sent first, at
    most one record of a member; and no record it leaves out would still fit. *)
Theorem pack_selects q B o sel q' :
  broadcast_ok q → bq_pack q B o = Ok (sel, q') →
  broadcast_ok q' ∧ bq_queued q' = bq_queued q
  ∧ sel_bytes sel = foldr (λ u acc, size_of u + pack_overhead o + acc) 0 (sel_updates sel)
  ∧ sel_bytes sel ≤ B ∧ Z.of_nat (length (sel_updates sel)) ≤ pack_cap o
  ∧ NoDup (u_member <$> sel_updates sel)
  ∧ (∃ chosen, StronglySorted queued_le chosen ∧ (∀ r, r ∈ chosen → ∃ k, (k, r) ∈ bq_queued q)
      ∧ (sel_updates sel = qb_update <$> chosen ∨ ∃ b, po_buddy o = Some b ∧ sel_updates sel = b :: (qb_update <$> chosen)))
  ∧ ∀ k r, (k, r) ∈ bq_queued q →
      k ∈ u_member <$> sel_updates sel ∨ pack_cap o ≤ Z.of_nat (length (sel_updates sel))
      ∨ B < sel_bytes sel + size_of (qb_update r) + pack_overhead o.
Proof.
  intros Hq H. destruct (bq_pack_inv q B o sel q' Hq H) as (HB & Ho & Hm & p & bm & E & -> & ->).
  destruct (pack_loop_spec B (pack_overhead o) (pack_cap o) bm (bq_ordered q) p (ordered_bytes q _ Hq Ho))
    as (chosen & Hsub & -> & _ & Hbytes & Hcap & Hbuddy & Hmax). cbn [pk_updates pk_included pk_bytes sel_updates sel_bytes].
  assert (∀ r, r ∈ chosen → ∃ k, (k, r) ∈ bq_queued q) as Hin by (intros r Hr; apply elem_ordered; by eapply sublist_elem).
  assert (NoDup ((λ r, u_member (qb_update r)) <$> chosen)) as Hnd.
  { eapply sublist_fmap_NoDup; [done|]. rewrite ordered_members by done. apply (bo_wf q Hq). }
  assert (StronglySorted queued_le chosen) as Hsort by (eapply sublist_sorted; [done|]; apply StronglySorted_merge_sort; apply _).
  pose proof (total_bytes_sizes q (pack_overhead o) chosen Hq Hin) as Hsum.
  assert (iq_member <$> (included_of <$> chosen) = (λ r, u_member (qb_update r)) <$> chosen) as Hinc by (by rewrite <-list_fmap_compose).
  assert (u_member <$> (qb_update <$> chosen) = (λ r, u_member (qb_update r)) <$> chosen) as Hupd by (by rewrite <-list_fmap_compose).
  assert (∀ r, r ∈ chosen → u_member (qb_update r) ∈ u_member <$> (qb_update <$> chosen)) as Hel.
  { intros r Hr. rewrite Hupd. by apply (list_elem_of_fmap_2 (λ r, u_member (qb_update r))). }
  destruct (pack_buddy_spec q B _ _ _ p bm Hq HB Ho Hm E) as [[-> ->]|(b & Hb & Hu & Hp & HpB & Hm1 & -> & Hi)];
    cbn [pk_updates pk_included pk_bytes app length] in *.
  - split_and!; [apply bo_receive; [done|by rewrite Hinc]|done|lia|lia| |by rewrite Hupd|exists chosen; split_and!; eauto|].
    + rewrite length_fmap. lia.
    + intros k r Hr. rewrite (size_of_queued q k r Hq Hr). rewrite Forall_forall in Hmax.
      rewrite length_fmap. destruct (Hmax r (proj2 (elem_ordered q r) (ex_intro _ k Hr))) as [Hx|[Hx|[Hx|Hx]]]; [|done|auto|].
      * left. rewrite (bo_member q Hq k r Hr). by apply Hel.
      * right; right. unfold record_bytes in Hx. lia.
  - rewrite Hu in *. cbn [app length] in *.
    assert (u_member b ∉ (λ r, u_member (qb_update r)) <$> chosen) as Hnb.
    { intros (r & Er & Hr)%list_elem_of_fmap. rewrite Forall_forall in Hbuddy. apply (Hbuddy r Hr). by rewrite Er. }
    split_and!; [apply bo_receive; [done|]|done|cbn; lia|lia|rewrite length_fmap; lia|cbn; rewrite Hupd; by constructor|exists chosen; split_and!; eauto|].
    + rewrite fmap_app, Hinc. destruct Hi as [->|[g ->]]; [done|]. by constructor.
    + intros k r Hr. rewrite (size_of_queued q k r Hq Hr). rewrite Forall_forall in Hmax. cbn [fmap list_fmap]. rewrite length_fmap.
      destruct (Hmax r (proj2 (elem_ordered q r) (ex_intro _ k Hr))) as [Hx|[Hx|[Hx|Hx]]].
      * left. right. rewrite (bo_member q Hq k r Hr). by apply Hel.
      * left. rewrite (bo_member q Hq k r Hr). injection Hx as ->. by left.
      * right; left. lia.
      * right; right. unfold record_bytes in Hx. lia.
Qed.

(** ** Acknowledgements *)








(** ** The queue drains *)










(** Without a buddy, whether [pack] throws depends on its arguments only. *)
Lemma bq_pack_plain q B o :
  po_buddy o = None → is_ok (bq_pack new_BroadcastQueue B o) = true → ∃ sel q', bq_pack q B o = Ok (sel, q').
Proof.
  intros Hb. unfold bq_pack. rewrite Hb. cbn [pack_buddy].
  repeat (match goal with |- context [result_bind ?c _] => destruct c end; cbn [result_bind is_ok]; try done). eauto.
Qed.







(** ** Witnesses *)

Definition ex_truth : MembershipUpdate := MkUpdate Alive true 3 1000 (js "n1:9000") [] [7].

(** The queue of a node that has just announced itself among nine members. *)
Definition ex_queue : BroadcastQueue :=
  match @bq_enqueue exact_log new_BroadcastQueue ex_truth 9 true with Ok (_, q) => q | Throw _ => new_BroadcastQueue end.

Lemma ex_queue_ok : broadcast_ok ex_queue.
Proof. apply (@bq_enqueue_ok exact_log exact_log_laws new_BroadcastQueue ex_truth 9 true true ex_queue new_broadcast_ok). by vm_compute. Qed.

Definition ex_options : BroadcastPackOptions := MkPackOptions (Some 2) None None.

Lemma pack_selects_witness :
  ∃ sel q', bq_pack ex_queue 1200 ex_options = Ok (sel, q') ∧ sel_updates sel = [ex_truth] ∧ sel_bytes sel ≤ 1200.
Proof.
  destruct (bq_pack_plain ex_queue 1200 ex_options eq_refl ltac:(by vm_compute)) as (sel & q' & E). exists sel, q'.
  destruct (pack_selects ex_queue 1200 ex_options sel q' ex_queue_ok E) as (_ & _ & _ & H & _).
  split_and!; [done| |done]. vm_compute in E. by injection E as <- _.
Defined.

