(* ===== verification/NetBytes.v ===== *)
(** * The transport's byte primitives ([src/net/values.ts]: ByteWriter, ByteReader)

    The growable writer with its fixed-width, varint and string encodings, shown to
    append exactly those encodings, and the bounds-checked reader that takes them back.
    The reader has the shape of the store's; its errors are its own. *)
From S2P Require Import Prelude JsNumber JsString ByteIO.

(** ** The writer *)

Record NetWriter := MkNetWriter { nw_buffer : list Z; nw_length : nat }.

Definition new_NetWriter (initialCapacity : nat) : NetWriter :=
  MkNetWriter (replicate (if Nat.ltb initialCapacity 16 then 16 else initialCapacity) 0) 0.

Definition nw_reset (w : NetWriter) : NetWriter := MkNetWriter (nw_buffer w) 0.

(** [bytes()]: the view over what has been written. *)
Definition nw_out (w : NetWriter) : list Z := take (nw_length w) (nw_buffer w).

Definition nw_ensure (extra : nat) (w : NetWriter) : NetWriter :=
  let needed := (nw_length w + extra)%nat in
  if Nat.leb needed (length (nw_buffer w)) then w
  else
    let capacity := grow_capacity needed (length (nw_buffer w) * 2) needed in
    MkNetWriter (bytes_set (replicate capacity 0) (nw_out w) 0) (nw_length w).

(** [bytes[length] = b; length += 1]: outside the buffer the store has no effect. *)
Definition nw_store (w : NetWriter) (b : Z) : NetWriter :=
  MkNetWriter (<[nw_length w := b]> (nw_buffer w)) (S (nw_length w)).

(** [bytes.set(bs, length); length += bs.length]. *)
Definition nw_set (bs : list Z) (w : NetWriter) : NetWriter :=
  MkNetWriter (bytes_set (nw_buffer w) bs (nw_length w)) (nw_length w + length bs).

Definition writeU8 (value : Z) (w : NetWriter) : NetWriter := nw_store (nw_ensure 1 w) (value mod 256).

Definition writeU32 (value : Z) (w : NetWriter) : NetWriter := nw_set (be_encode 4 value) (nw_ensure 4 w).

Definition writeU64 (value : Z) (w : NetWriter) : result NetWriter :=
  let! _ := guard_throw (is_safe_integer value && (0 <=? value)) (TypeError "u64 value out of range") in
  let high := value / 0x100000000 in
  let low := value mod 0x100000000 in
  Ok (nw_set (be_encode 4 low) (nw_set (be_encode 4 high) (nw_ensure 8 w))).

(** A double travels as its bit pattern. *)
Definition writeF64 (bits : Z) (w : NetWriter) : NetWriter := nw_set (be_encode 8 bits) (nw_ensure 8 w).

(** The groups of a varint, low first; a safe integer has at most eight. *)
Fixpoint uvarint_loop (fuel : nat) (remaining : Z) (w : NetWriter) : NetWriter :=
  match fuel with
  | O => w
  | S fuel =>
      if 0x7f <? remaining then
        let low := remaining mod 0x80 in
        uvarint_loop fuel ((remaining - low) / 0x80) (nw_store w (Z.lor low 0x80))
      else nw_store w remaining
  end.

Definition writeUvarint (value : Z) (w : NetWriter) : result NetWriter :=
  let! _ := guard_throw (is_safe_integer value && (0 <=? value)) (TypeError "uvarint value out of range") in
  Ok (uvarint_loop 8 value (nw_ensure 8 w)).

(** [utf8Length]: the bytes [encodeInto] will write. *)
Fixpoint utf8Length (s : jsstring) : Z :=
  match s with
  | [] => 0
  | code :: s' =>
      if code <? 0x80 then 1 + utf8Length s'
      else if code <? 0x800 then 2 + utf8Length s'
      else
        match s' with
        | next :: s'' =>
            if (0xd800 <=? code) && (code <? 0xdc00) && ((0xdc00 <=? next) && (next <? 0xe000)) then 4 + utf8Length s''
            else 3 + utf8Length s'
        | [] => 3 + utf8Length s'
        end
  end.

Definition writeString (value : jsstring) (w : NetWriter) : result NetWriter :=
  let utf8 := utf8Length value in
  let! w := writeUvarint utf8 w in
  let w := nw_ensure (Z.to_nat utf8) w in
  if utf8 =? Z.of_nat (length value) then Ok (foldl nw_store w value)
  else Ok (MkNetWriter (bytes_set (nw_buffer w) (text_encode value) (nw_length w)) (nw_length w + Z.to_nat utf8)).

Definition writeBytes (value : list Z) (w : NetWriter) : NetWriter := nw_set value (nw_ensure (length value) w).

(** ** The reader *)

Definition net_fail {A} (message : string) : Reader A := λ _, Throw (ValueDecodeError message).

Definition net_guard (ok : bool) (message : string) : Reader unit :=
  λ r, if ok then Ok (tt, r) else Throw (ValueDecodeError message).

(** [reader.remaining]. *)
Definition net_remaining : Reader Z := λ r, Ok (Z.of_nat (remaining r), r).

(** [need(count)] and the [count] bytes that follow. *)
Definition readBytes (count : Z) : Reader (list Z) := λ r,
  if Z.of_nat (remaining r) <? count then Throw (ValueDecodeError "truncated input")
  else Ok (take (Z.to_nat count) (drop (rd_offset r) (rd_bytes r)), MkReader (rd_bytes r) (rd_offset r + Z.to_nat count)).

Definition readU8 : Reader Z := bs ← readBytes 1; mret (be_decode bs).

Definition readU32 : Reader Z := bs ← readBytes 4; mret (be_decode bs).

Definition readU64 : Reader Z :=
  bs ← readBytes 8;
  let value := be_decode (take 4 bs) * 0x100000000 + be_decode (drop 4 bs) in
  net_guard (is_safe_integer value) "u64 value exceeds the safe integer range";;
  mret value.

Definition readF64 : Reader Z := bs ← readBytes 8; mret (be_decode bs).

(** [readUvarint] from group [8 - groups]; above the safe range the sum of the source is
    rounded, and the check refuses it either way. *)
Fixpoint uvarint_groups (groups : nat) (value scale : Z) : Reader Z :=
  match groups with
  | O => net_fail "uvarint is too long"
  | S groups =>
      bs ← readBytes 1;
      let byte := be_decode bs in
      let value := value + Z.land byte 0x7f * scale in
      if Z.land byte 0x80 =? 0 then
        net_guard (is_safe_integer value) "uvarint exceeds the safe integer range";; mret value
      else uvarint_groups groups value (scale * 0x80)
  end.

Definition readUvarint : Reader Z := uvarint_groups 8 0 1.

Definition ASCII_FAST_PATH_LIMIT : Z := 24.

Definition readString : Reader jsstring :=
  length ← readUvarint;
  bytes ← readBytes length;
  if (length <? ASCII_FAST_PATH_LIMIT) && forallb (λ b, b <? 0x80) bytes then mret bytes
  else match text_decode bytes with
       | Some s => mret s
       | None => net_fail "invalid utf-8 in string"
       end.

(** ** Writes append *)

Definition nw_ok (w : NetWriter) : Prop := (nw_length w ≤ length (nw_buffer w) ∧ 0 < length (nw_buffer w))%nat.

(** [f] appends [bs]. *)
Definition appends (bs : list Z) (w w' : NetWriter) : Prop := nw_ok w' ∧ nw_out w' = nw_out w ++ bs.

Lemma new_NetWriter_ok c : nw_ok (new_NetWriter c) ∧ nw_out (new_NetWriter c) = [].
Proof. unfold new_NetWriter, nw_ok. cbn [nw_buffer nw_length]. rewrite length_replicate. destruct (Nat.ltb_spec c 16); (split; [lia|done]). Qed.

Lemma nw_ensure_spec extra w :
  nw_ok w → let w' := nw_ensure extra w in
  nw_ok w' ∧ nw_length w' = nw_length w ∧ nw_out w' = nw_out w ∧ (nw_length w + extra ≤ length (nw_buffer w'))%nat.
Proof.
  intros [Ho Hl]. cbv zeta. unfold nw_ensure. destruct (Nat.leb_spec (nw_length w + extra) (length (nw_buffer w))) as [|Hgt]; [done|].
  destruct (grow_capacity_spec (nw_length w + extra) (length (nw_buffer w) * 2) (nw_length w + extra)) as [H1 H2]; [lia..|].
  set (c := grow_capacity _ _ _) in *. unfold bytes_set. rewrite take_0, drop_replicate. cbn [app].
  assert (length (nw_out w) = nw_length w) as Hlen by (unfold nw_out; rewrite length_take; lia).
  unfold nw_ok. cbn [nw_buffer nw_length]. rewrite length_app, length_replicate, Hlen. split; [lia|]. split; [done|].
  unfold nw_out at 1. cbn [nw_buffer nw_length]. rewrite take_app_le by lia. rewrite take_ge by lia. split; [done|lia].
Qed.

Lemma nw_set_spec bs w :
  nw_ok w → (nw_length w + length bs ≤ length (nw_buffer w))%nat →
  appends bs w (nw_set bs w) ∧ length (nw_buffer (nw_set bs w)) = length (nw_buffer w).
Proof.
  intros [Ho Hl] Hroom. unfold appends, nw_ok, nw_set, nw_out, bytes_set. cbn [nw_buffer nw_length].
  rewrite !length_app, length_take, length_drop. split; [|lia]. split; [lia|].
  rewrite app_assoc, take_app_le by (rewrite length_app, length_take; lia). by rewrite take_ge by (rewrite length_app, length_take; lia).
Qed.

Lemma nw_store_set b w : (nw_length w < length (nw_buffer w))%nat → nw_store w b = nw_set [b] w.
Proof.
  intros H. unfold nw_store, nw_set, bytes_set. cbn [length]. rewrite insert_take_drop by done. cbn [app]. f_equal; [|lia].
  by rewrite Nat.add_1_r.
Qed.

Lemma appends_trans bs1 bs2 w1 w2 w3 : appends bs1 w1 w2 → appends bs2 w2 w3 → appends (bs1 ++ bs2) w1 w3.
Proof. intros [_ H1] [H2 H3]. split; [done|]. by rewrite H3, H1, app_assoc. Qed.

Lemma appends_ensure bs extra w w' : nw_ok w → appends bs (nw_ensure extra w) w' → appends bs w w'.
Proof. intros Hw [H1 H2]. split; [done|]. rewrite H2. by destruct (nw_ensure_spec extra w Hw) as (_ & _ & -> & _). Qed.

Lemma nw_put_spec bs w : nw_ok w → appends bs w (nw_set bs (nw_ensure (length bs) w)).
Proof.
  intros Hw. destruct (nw_ensure_spec (length bs) w Hw) as (H1 & H2 & H3 & H4). apply (appends_ensure _ (length bs)); [done|].
  apply nw_set_spec; [done|]. by rewrite H2.
Qed.

Lemma writeU8_spec v w : nw_ok w → appends [v mod 256] w (writeU8 v w).
Proof.
  intros Hw. unfold writeU8. destruct (nw_ensure_spec 1 w Hw) as (H1 & H2 & H3 & H4). rewrite nw_store_set by lia.
  by apply (nw_put_spec [v mod 256]).
Qed.

Lemma writeU32_spec v w : nw_ok w → appends (be_encode 4 v) w (writeU32 v w).
Proof. intros Hw. by apply (nw_put_spec (be_encode 4 v)). Qed.

Lemma writeF64_spec v w : nw_ok w → appends (be_encode 8 v) w (writeF64 v w).
Proof. intros Hw. apply (nw_put_spec (be_encode 8 v)). done. Qed.

Lemma writeBytes_spec bs w : nw_ok w → appends bs w (writeBytes bs w).
Proof. apply nw_put_spec. Qed.

Lemma be_encode_app n m v : be_encode (n + m) v = be_encode n (v / 256 ^ Z.of_nat m) ++ be_encode m v.
Proof.
  induction n as [|n IH]; [done|]. cbn [Nat.add be_encode app]. rewrite IH. do 2 f_equal.
  rewrite Z.div_div by (try lia; apply Z.pow_pos_nonneg; lia). by rewrite <-Z.pow_add_r, Nat2Z.inj_add, Z.add_comm by lia.
Qed.

Lemma be_encode_mod m k v : (m ≤ k)%nat → be_encode m (v mod 256 ^ Z.of_nat k) = be_encode m v.
Proof.
  induction m as [|m IH]; intros Hk; [done|]. cbn [be_encode]. rewrite IH by lia. f_equal.
  rewrite (Zmod_eq_full v (256 ^ Z.of_nat k)) by (apply Z.pow_nonzero; lia). set (q := v / 256 ^ Z.of_nat k).
  replace (256 ^ Z.of_nat k) with (256 * 256 ^ (Z.of_nat k - Z.of_nat m - 1) * 256 ^ Z.of_nat m)
    by (rewrite <-Z.pow_succ_r, <-Z.pow_add_r by lia; f_equal; lia).
  set (p := 256 ^ (Z.of_nat k - Z.of_nat m - 1)). set (r := 256 ^ Z.of_nat m).
  assert (r ≠ 0) by (apply Z.pow_nonzero; lia).
  replace (v - q * (256 * p * r)) with (v + (- (q * p) * 256) * r) by lia. rewrite Z.div_add by done. by rewrite Z.mod_add by lia.
Qed.

Lemma writeU64_spec v w w' :
  nw_ok w → writeU64 v w = Ok w' → appends (be_encode 8 v) w w' ∧ 0 ≤ v ≤ MAX_SAFE_INTEGER.
Proof.
  intros Hw H. unfold writeU64 in H. inv_ok. apply andb_true_iff in E as [E1 E2%Z.leb_le].
  destruct (nw_ensure_spec 8 w Hw) as (H1 & H2 & H3 & H4).
  destruct (nw_set_spec (be_encode 4 (v / 0x100000000)) (nw_ensure 8 w) H1) as [A1 L1]; [cbn; lia|].
  destruct (nw_set_spec (be_encode 4 (v mod 0x100000000)) _ (proj1 A1)) as [A2 _]; [rewrite L1; cbn; lia|].
  split; [|unfold is_safe_integer in E1; lia]. apply (appends_ensure _ 8); [done|].
  replace (be_encode 8 v) with (be_encode 4 (v / 0x100000000) ++ be_encode 4 (v mod 0x100000000)); [by eapply appends_trans|].
  rewrite (be_encode_app 4 4). f_equal. by apply (be_encode_mod 4 4).
Qed.

(** Checking a property of small numbers by evaluation. *)
Lemma below_cases (P : Z → bool) n x : forallb P (Z.of_nat <$> seq 0 n) = true → 0 ≤ x < Z.of_nat n → P x = true.
Proof.
  intros H Hx. rewrite forallb_forall in H. apply H. apply list_elem_of_In, list_elem_of_fmap. exists (Z.to_nat x).
  split; [lia|]. apply elem_of_seq. lia.
Qed.

Lemma varint_bits x :
  0 ≤ x < 128 → Z.lor x 0x80 = x + 128 ∧ Z.land (x + 128) 0x7f = x ∧ Z.land (x + 128) 0x80 = 128
    ∧ Z.land x 0x7f = x ∧ Z.land x 0x80 = 0.
Proof.
  intros Hx. pose proof (below_cases (λ x, (Z.lor x 0x80 =? x + 128) && (Z.land (x + 128) 0x7f =? x)
    && (Z.land (x + 128) 0x80 =? 128) && (Z.land x 0x7f =? x) && (Z.land x 0x80 =? 0)) 128 x eq_refl Hx) as H.
  cbv beta in H. lia.
Qed.

(** The bytes of a varint. *)
Fixpoint uvarint_bytes (fuel : nat) (v : Z) : list Z :=
  match fuel with
  | O => []
  | S fuel => if 0x7f <? v then (v mod 128 + 128) :: uvarint_bytes fuel (v / 128) else [v]
  end.

Abbreviation uvarint := (uvarint_bytes 8).

Lemma uvarint_bytes_length fuel v : (length (uvarint_bytes fuel v) ≤ fuel)%nat.
Proof. revert v. induction fuel as [|fuel IH]; intros v; [done|]. cbn. case_match; cbn; [specialize (IH (v / 128))|]; lia. Qed.

Lemma uvarint_loop_spec fuel v w :
  nw_ok w → 0 ≤ v → (nw_length w + fuel ≤ length (nw_buffer w))%nat → appends (uvarint_bytes fuel v) w (uvarint_loop fuel v w).
Proof.
  revert v w. induction fuel as [|fuel IH]; intros v w Hw Hv Hroom; cbn [uvarint_bytes uvarint_loop].
  { split; [done|]. by rewrite app_nil_r. }
  destruct (Z.ltb_spec 0x7f v) as [Hbig|Hsmall].
  - destruct (varint_bits (v mod 0x80)) as (E & _); [apply Z.mod_pos_bound; lia|]. rewrite E, nw_store_set by lia.
    destruct (nw_set_spec [v mod 0x80 + 128] w Hw) as [A L]; [cbn; lia|].
    replace ((v - v mod 128) / 128) with (v / 128) by (Z.to_euclidean_division_equations; lia).
    apply (appends_trans [v mod 128 + 128] _ w _ _ A), IH; [apply A|Z.to_euclidean_division_equations; lia|].
    rewrite L. cbn. lia.
  - rewrite nw_store_set by lia. apply nw_set_spec; [done|]. cbn. lia.
Qed.

Lemma writeUvarint_spec v w w' :
  nw_ok w → writeUvarint v w = Ok w' → appends (uvarint v) w w' ∧ 0 ≤ v ≤ MAX_SAFE_INTEGER.
Proof.
  intros Hw H. unfold writeUvarint in H. inv_ok. apply andb_true_iff in E as [E1 E2%Z.leb_le].
  destruct (nw_ensure_spec 8 w Hw) as (H1 & H2 & H3 & H4). split; [|unfold is_safe_integer in E1; lia].
  apply (appends_ensure _ 8); [done|]. apply uvarint_loop_spec; [done|done|lia].
Qed.

(** A safe count is written. *)
Lemma writeUvarint_ok v w : 0 ≤ v ≤ MAX_SAFE_INTEGER → ∃ w', writeUvarint v w = Ok w'.
Proof.
  intros Hv. unfold writeUvarint, is_safe_integer. rewrite (proj2 (Z.leb_le _ _)) by lia. rewrite (proj2 (Z.leb_le _ _)) by lia.
  rewrite (proj2 (Z.leb_le _ _)) by lia. by eexists.
Qed.

(** *** Strings *)

Lemma utf8Length_spec s : Forall is_unit s → utf8Length s = Z.of_nat (length (text_encode s)).
Proof.
  remember (length s) as n eqn:Hn. revert s Hn. induction (lt_wf n) as [n _ IH]; intros [|u s] -> Hs; [done|].
  apply Forall_cons in Hs as [Hu Hs]. unfold is_unit in Hu. cbn [utf8Length]. unfold text_encode. cbn [code_points].
  assert (utf8Length s = Z.of_nat (length (text_encode s))) as IHs by (apply (IH (length s)); [cbn; lia|done..]).
  unfold text_encode in IHs. unfold is_high, is_low.
  destruct (Z.ltb_spec u 0x80); [|destruct (Z.ltb_spec u 0x800)].
  - decide_cmp. rewrite bind_cons, length_app. unfold utf8_of_code_point at 1. decide_cmp. cbn [length]. lia.
  - decide_cmp. rewrite bind_cons, length_app. unfold utf8_of_code_point at 1. decide_cmp. cbn [length]. lia.
  - destruct (Z.leb_spec 0xd800 u), (Z.leb_spec u 0xDBFF); cbn [andb].
    + rewrite (proj2 (Z.ltb_lt u 0xdc00)) by lia. destruct s as [|l s]; [done|].
      destruct (Z.leb_spec 0xdc00 l), (Z.leb_spec l 0xdfff), (Z.ltb_spec l 0xe000); cbn [andb]; try lia;
        rewrite bind_cons, length_app; try (unfold utf8_of_code_point at 1; cbn [Z.ltb Z.compare Pos.compare Pos.compare_cont length]; lia).
      apply Forall_cons in Hs as [Hl Hs]. rewrite (IH (length s)) by (cbn; lia || done). unfold text_encode.
      assert (length (utf8_of_code_point (0x10000 + (u - 0xD800) * 1024 + (l - 0xDC00))) = 4%nat) as ->; [|lia].
      unfold utf8_of_code_point. by decide_cmp.
    + rewrite (proj2 (Z.ltb_ge u 0xdc00)) by lia. decide_cmp. destruct (Z.leb_spec u 0xdfff); cbn [andb]; destruct s as [|l s];
        rewrite bind_cons, length_app; unfold utf8_of_code_point at 1; decide_cmp; cbn [length] in *; lia.
    + decide_cmp. destruct s as [|l s]; rewrite bind_cons, length_app; unfold utf8_of_code_point at 1; decide_cmp; cbn [length] in *; lia.
    + lia.
Qed.

(** A string has as many bytes as units exactly when it is ASCII, and is then its own encoding. *)
Lemma ascii_encode s : Forall is_unit s → forallb (λ b, b <? 0x80) s = true → text_encode s = s.
Proof.
  induction s as [|u s IH]; [done|]. intros [Hu Hs]%Forall_cons. cbn [forallb]. intros [Hb%Z.ltb_lt Ha]%andb_true_iff.
  unfold is_unit in Hu. unfold text_encode. cbn [code_points]. unfold is_high, is_low. decide_cmp. rewrite bind_cons.
  fold (text_encode s). rewrite IH by done. unfold utf8_of_code_point. by decide_cmp.
Qed.

Lemma utf8Length_ascii s :
  Forall is_unit s → Z.of_nat (length s) ≤ utf8Length s ∧ (utf8Length s = Z.of_nat (length s) → forallb (λ b, b <? 0x80) s = true).
Proof.
  remember (length s) as n eqn:Hn. revert s Hn. induction (lt_wf n) as [n _ IH]; intros [|u s] -> Hs; [done|].
  apply Forall_cons in Hs as [Hu Hs]. cbn [utf8Length forallb length].
  destruct (IH (length s) ltac:(cbn; lia) s eq_refl Hs) as [H1 H2].
  destruct (Z.ltb_spec u 0x80); [split; [lia|intros; apply H2; lia]|]. destruct (Z.ltb_spec u 0x800); [split; lia|].
  destruct s as [|l s]; [split; cbn in *; lia|]. destruct (_ && _); [|split; lia].
  apply Forall_cons in Hs as [_ Hs]. destruct (IH (length s) ltac:(cbn; lia) s eq_refl Hs) as [H3 _]. cbn [length]. split; lia.
Qed.

Lemma foldl_store bs w :
  nw_ok w → (nw_length w + length bs ≤ length (nw_buffer w))%nat → appends bs w (foldl nw_store w bs).
Proof.
  revert w. induction bs as [|b bs IH]; intros w Hw Hroom; cbn [foldl length] in *; [split; [done|by rewrite app_nil_r]|].
  rewrite nw_store_set by lia. destruct (nw_set_spec [b] w Hw) as [A L]; [cbn; lia|].
  apply (appends_trans [b] bs w _ _ A), IH; [apply A|]. rewrite L. cbn. lia.
Qed.

(** The encoding of a string: its length in bytes, then the bytes. *)
Definition string_bytes (s : jsstring) : list Z := uvarint (utf8Length s) ++ text_encode s.

Lemma writeString_ok s w : Forall is_unit s → utf8Length s ≤ MAX_SAFE_INTEGER → ∃ w', writeString s w = Ok w'.
Proof.
  intros Hu Hs. pose proof (utf8Length_spec s Hu). unfold writeString. destruct (writeUvarint_ok (utf8Length s) w) as [w1 ->]; [lia|].
  cbn [result_bind]. destruct (_ =? _); by eexists.
Qed.

Lemma writeString_spec s w w' :
  nw_ok w → Forall is_unit s → writeString s w = Ok w' → appends (string_bytes s) w w' ∧ utf8Length s ≤ MAX_SAFE_INTEGER.
Proof.
  intros Hw Hs H. unfold writeString in H. apply result_bind_ok in H as (w1 & E1 & H). apply writeUvarint_spec in E1 as [A1 [Hpos Hmax]]; [|done].
  split; [|done]. unfold string_bytes. apply (appends_trans _ _ _ _ _ A1).
  pose proof (utf8Length_spec s Hs) as Hlen. destruct (nw_ensure_spec (Z.to_nat (utf8Length s)) w1 (proj1 A1)) as (H1 & H2 & H3 & H4).
  destruct (Z.eqb_spec (utf8Length s) (Z.of_nat (length s))) as [Heq|_]; injection H as <-.
  - rewrite ascii_encode by (done || by apply utf8Length_ascii). apply (appends_ensure _ (Z.to_nat (utf8Length s))); [apply A1|].
    apply foldl_store; [done|]. rewrite H2. lia.
  - replace (Z.to_nat (utf8Length s)) with (length (text_encode s)) by lia. by apply nw_put_spec, A1.
Qed.

(** Bytes that are all ASCII encode themselves. *)
Lemma ascii_bytes s : Forall is_unit s → forallb (λ b, b <? 0x80) (text_encode s) = true → text_encode s = s.
Proof.
  assert (∀ c l, 0x80 ≤ c → forallb (λ b, b <? 0x80) (utf8_of_code_point c ++ l) = false) as Hbig.
  { intros c l Hc. assert (∃ b l', utf8_of_code_point c = b :: l' ∧ 0x80 ≤ b) as (b & l' & -> & Hb).
    { unfold utf8_of_code_point. destruct (Z.ltb_spec c 0x80); [lia|].
      destruct (c <? 0x800), (c <? 0x10000); do 2 eexists; (split; [done|]); Z.to_euclidean_division_equations; lia. }
    cbn. by rewrite (proj2 (Z.ltb_ge b 0x80)). }
  induction s as [|u s IH]; [done|]. intros [Hu Hs]%Forall_cons. unfold is_unit in Hu. unfold text_encode at 1. cbn [code_points].
  unfold is_high, is_low. destruct (Z.ltb_spec u 0x80) as [Ha|Ha].
  - decide_cmp. rewrite bind_cons. fold (text_encode s). unfold utf8_of_code_point at 1. decide_cmp. cbn [app forallb].
    intros [_ H]%andb_true_iff. unfold text_encode. cbn [code_points]. unfold is_high, is_low. decide_cmp. rewrite bind_cons.
    fold (text_encode s). rewrite IH by done. unfold utf8_of_code_point. by decide_cmp.
  - intros H. exfalso. revert H. repeat case_match; rewrite bind_cons, Hbig; try done; lia.
Qed.

(** ** Reading back *)

Lemma reads_net_guard ok message : ok = true → reads (net_guard ok message) [] tt.
Proof. intros -> pre suf. unfold net_guard. by rewrite Nat.add_0_r. Qed.

Lemma reads_bytes bs : reads (readBytes (Z.of_nat (length bs))) bs bs.
Proof.
  intros pre suf. unfold readBytes, remaining. cbn [rd_bytes rd_offset]. rewrite !length_app, Nat2Z.id.
  destruct (Z.ltb_spec (Z.of_nat (length pre + (length bs + length suf) - length pre)) (Z.of_nat (length bs))); [lia|].
  by rewrite drop_app_length, take_app_length.
Qed.

Lemma reads_net_field n bs {A} (f : list Z → A) : Z.of_nat (length bs) = n → reads (x ← readBytes n; mret (f x)) bs (f bs).
Proof. intros <-. apply (reads_map (readBytes _) _ _ bs); [apply reads_bytes|apply reads_ret]. Qed.

Lemma be_decode_one b : be_decode [b] = b.
Proof. unfold be_decode. cbn [foldl]. lia. Qed.

Lemma reads_readU8 b : reads readU8 [b] b.
Proof. rewrite <-(be_decode_one b) at 2. by apply (reads_net_field 1). Qed.

Lemma reads_readU32 v : 0 ≤ v < 2 ^ 32 → reads readU32 (be_encode 4 v) v.
Proof. intros Hv. rewrite <-(be_decode_encode_id 4 v Hv) at 2. by apply (reads_net_field 4). Qed.

Lemma reads_readF64 v : 0 ≤ v < 2 ^ 64 → reads readF64 (be_encode 8 v) v.
Proof. intros Hv. rewrite <-(be_decode_encode_id 8 v Hv) at 2. by apply (reads_net_field 8). Qed.

Lemma is_safe_nonneg v : 0 ≤ v ≤ MAX_SAFE_INTEGER → is_safe_integer v = true.
Proof. intros. unfold is_safe_integer. apply andb_true_iff. split; apply Z.leb_le; lia. Qed.

Lemma reads_uvarint_groups groups v value scale :
  groups ≠ 0%nat → 0 ≤ v < 128 ^ Z.of_nat groups → 0 ≤ value + v * scale ≤ MAX_SAFE_INTEGER →
  reads (uvarint_groups groups value scale) (uvarint_bytes groups v) (value + v * scale).
Proof.
  revert v value scale. induction groups as [|groups IH]; intros v value scale Hg Hv Hs; [done|]; cbn [uvarint_bytes uvarint_groups].
  destruct (Z.ltb_spec 0x7f v) as [Hbig|Hsmall].
  - change (v mod 128 + 128 :: ?l) with ([v mod 128 + 128] ++ l). eapply reads_bind; [apply (reads_bytes [_])|]. cbv beta zeta.
    rewrite be_decode_one. destruct (varint_bits (v mod 128)) as (_ & -> & -> & _); [apply Z.mod_pos_bound; lia|].
    rewrite (proj2 (Z.eqb_neq 128 0)) by done.
    assert (value + v * scale = value + v mod 128 * scale + v / 128 * (scale * 128)) as Hsplit
      by (rewrite (Z.div_mod v 128) at 1 by lia; ring).
    rewrite Hsplit in Hs |- *.
    rewrite Nat2Z.inj_succ, Z.pow_succ_r in Hv by lia. apply IH.
    + intros ->. cbn in Hv. lia.
    + split; [apply Z.div_pos; lia|apply Z.div_lt_upper_bound; lia].
    + done.
  - change [v] with ([v] ++ []). eapply reads_bind; [apply (reads_bytes [_])|]. cbv beta zeta. rewrite be_decode_one.
    destruct (varint_bits v) as (_ & _ & _ & -> & ->); [lia|]. cbn [Z.eqb].
    apply (reads_then _ _ _ tt); [by apply reads_net_guard, is_safe_nonneg|apply reads_ret].
Qed.

Lemma reads_readUvarint v : 0 ≤ v ≤ MAX_SAFE_INTEGER → reads readUvarint (uvarint v) v.
Proof.
  intros Hv. pose proof (reads_uvarint_groups 8 v 0 1) as H. rewrite Z.mul_1_r, Z.add_0_l in H. apply H; [done| |done].
  unfold MAX_SAFE_INTEGER in Hv. split; [lia|]. eapply Z.le_lt_trans; [apply Hv|]. by vm_compute.
Qed.

Lemma reads_readString_text s :
  Forall is_unit s → is_well_formed s = true → utf8Length s ≤ MAX_SAFE_INTEGER → reads readString (string_bytes s) (arrived s).
Proof.
  intros Hu Hwf Hmax. pose proof (utf8Length_spec s Hu) as Hlen. unfold readString, string_bytes.
  eapply reads_bind; [apply reads_readUvarint; lia|]. cbv beta. rewrite Hlen at 1.
  apply (reads_map _ _ _ (text_encode s)); [apply reads_bytes|]. cbv beta. rewrite (text_decode_encode s Hu Hwf). fold (arrived s).
  destruct (_ && _) eqn:E; [|apply reads_ret]. apply andb_true_iff in E as [_ E]. pose proof (ascii_bytes s Hu E) as Ha.
  rewrite Ha in E |- *. assert (arrived s = s) as ->; [|apply reads_ret]. unfold arrived. destruct s as [|u s]; [done|].
  cbn [starts_with_bom forallb] in *. destruct (Z.eqb_spec u 0xFEFF); [subst|done]. by cbn in E.
Qed.

Lemma reads_readString s :
  plain s → utf8Length s ≤ MAX_SAFE_INTEGER → reads readString (string_bytes s) s.
Proof.
  intros (Hu & Hwf & Hb) Hmax. pose proof (reads_readString_text s Hu Hwf Hmax) as H. unfold arrived in H. by rewrite Hb in H.
Qed.
