(* ===== verification/NetValue.v ===== *)
(** * The value codec ([src/net/values.ts]: encodeValue, decodeValue)

    A message payload is a graph: objects live at addresses of a heap and may be shared
    or cyclic.  The encoder walks it and replaces an object it has seen by a
    back-reference; the decoder rebuilds it, allocating each object before its contents. *)
From S2P Require Import Prelude JsNumber JsString ByteIO NetBytes.

(** ** Numbers *)

(** The fields of an IEEE 754 double given by its bit pattern, and its value as
    significand times a power of two. *)
Definition f64_negative (bits : Z) : bool := 2 ^ 63 <=? bits.
Definition f64_exponent (bits : Z) : Z := (bits / 2 ^ 52) mod 2 ^ 11.
Definition f64_fraction (bits : Z) : Z := bits mod 2 ^ 52.
Definition f64_significand (bits : Z) : Z :=
  if f64_exponent bits =? 0 then f64_fraction bits else 2 ^ 52 + f64_fraction bits.
Definition f64_scale (bits : Z) : Z := (if f64_exponent bits =? 0 then 1 else f64_exponent bits) - 1075.
Definition f64_finite (bits : Z) : bool := negb (f64_exponent bits =? 2047).
Definition f64_nan (bits : Z) : bool := negb (f64_finite bits) && negb (f64_fraction bits =? 0).

(** The value truncated toward zero, and whether it is an integer; for finite numbers. *)
Definition f64_trunc (bits : Z) : Z :=
  let s := f64_significand bits in
  let e := f64_scale bits in
  let m := if 0 <=? e then s * 2 ^ e else s / 2 ^ (- e) in
  if f64_negative bits then - m else m.

Definition f64_integral (bits : Z) : bool :=
  (0 <=? f64_scale bits) || (f64_significand bits mod 2 ^ (- f64_scale bits) =? 0).

(** The double of an integer of at most 53 bits. *)
Definition f64_of_int (z : Z) : Z :=
  let a := Z.abs z in
  let e := Z.log2 a in
  (if z <? 0 then 2 ^ 63 else 0) + (if a =? 0 then 0 else (e + 1023) * 2 ^ 52 + (a - 2 ^ e) * 2 ^ (52 - e)).

(** A JavaScript number: the 32-bit integers other than [-0], the one NaN, and every
    other double by its bits. *)
Inductive jsnumber := NInt (z : Z) | NNaN | NDouble (bits : Z).

#[global] Instance jsnumber_eq_dec : EqDecision jsnumber.
Proof. solve_decision. Defined.

Definition is_int32 (z : Z) : bool := (-2147483648 <=? z) && (z <=? 2147483647).

(** The pattern of [-0]. *)
Definition NEGATIVE_ZERO : Z := 2 ^ 63.

Definition number_of_bits (bits : Z) : jsnumber :=
  if f64_nan bits then NNaN
  else if f64_finite bits && f64_integral bits && is_int32 (f64_trunc bits) && negb (bits =? NEGATIVE_ZERO)
  then NInt (f64_trunc bits)
  else NDouble bits.

(** The NaN the engine writes. *)
Definition NAN_BITS : Z := 0x7ff8000000000000.

Definition bits_of_number (n : jsnumber) : Z :=
  match n with NInt z => f64_of_int z | NNaN => NAN_BITS | NDouble bits => bits end.

(** ** Values and objects *)

Inductive value :=
  | VNull | VUndefined | VBoolean (b : bool) | VNumber (n : jsnumber) | VString (s : jsstring) | VBigint (z : Z)
  | VObject (address : nat)
  | VUncarried.  (* a function or a symbol *)

#[global] Instance value_eq_dec : EqDecision value.
Proof. solve_decision. Defined.

(** The binary objects: an [ArrayBuffer], a view of the table [viewSubtypes] by its
    subtype, a subclass of [Uint8Array], any other view. *)
Inductive binary := BBuffer | BView (subtype : nat) | BSubclass | BOther.

(** An object by the first test of [encodeObject] it passes.  A date is its time value,
    [None] when invalid; a plain object is its own enumerable properties in order. *)
Inductive object :=
  | OArray (items : list value)
  | OMap (entries : list (value * value))
  | OSet (items : list value)
  | ODate (time : option Z)
  | OBytes (shape : binary) (bytes : list Z)
  | OShared
  | OPlain (properties : list (jsstring * value)).

(** ** Encoding *)

Definition TAG_NULL : Z := 0x00.
Definition TAG_UNDEFINED : Z := 0x01.
Definition TAG_FALSE : Z := 0x02.
Definition TAG_TRUE : Z := 0x03.
Definition TAG_INT : Z := 0x04.
Definition TAG_F64 : Z := 0x05.
Definition TAG_STRING : Z := 0x06.
Definition TAG_BIGINT : Z := 0x07.
Definition TAG_DATE : Z := 0x08.
Definition TAG_BYTES : Z := 0x09.
Definition TAG_ARRAY : Z := 0x0a.
Definition TAG_OBJECT : Z := 0x0b.
Definition TAG_MAP : Z := 0x0c.
Definition TAG_SET : Z := 0x0d.
Definition TAG_REF : Z := 0x0e.

Definition MAX_DEPTH : nat := 1024.

(** [((value << 1) ^ (value >> 31)) >>> 0]. *)
Definition zigzag (value : Z) : Z := u32 (Z.lxor (i32 (value * 2)) (Z.shiftr value 31)).

Definition encodeNumber (value : jsnumber) (w : NetWriter) : result NetWriter :=
  match value with
  | NInt z => writeUvarint (zigzag z) (writeU8 TAG_INT w)
  | _ => Ok (writeF64 (bits_of_number value) (writeU8 TAG_F64 w))
  end.

(** The base-256 digits of a magnitude, low first; [fuel] bounds their number. *)
Fixpoint bigint_digits (fuel : nat) (magnitude : Z) : list Z :=
  match fuel with
  | O => []
  | S fuel => if 0 <? magnitude then Z.land magnitude 0xff :: bigint_digits fuel (Z.shiftr magnitude 8) else []
  end.

Definition encodeBigint (value : Z) (w : NetWriter) : result NetWriter :=
  let w := writeU8 TAG_BIGINT w in
  let negative := value <? 0 in
  let w := writeU8 (if negative then 1 else 0) w in
  let magnitude := if negative then - value else value in
  let digits := bigint_digits (Z.to_nat (Z.log2 magnitude + 1)) magnitude in
  let! w := writeUvarint (Z.of_nat (length digits)) w in
  Ok (foldl (λ w d, writeU8 d w) w (rev digits)).

Definition subtype_of (shape : binary) : option nat :=
  match shape with BBuffer => Some 0%nat | BView n => Some n | BSubclass => Some 1%nat | BOther => None end.

(** [encodeView], and the buffer branch before it, which has the same form. *)
Definition encodeBinary (shape : binary) (bytes : list Z) (w : NetWriter) : result NetWriter :=
  match subtype_of shape with
  | None => Throw (TypeError "an unsupported binary view cannot cross the wire")
  | Some subtype =>
      let! w := writeUvarint (Z.of_nat (length bytes)) (writeU8 (Z.of_nat subtype) (writeU8 TAG_BYTES w)) in
      Ok (writeBytes bytes w)
  end.

(** The position of an object in the back-reference map. *)
Fixpoint ref_index (a : nat) (refs : list nat) : option nat :=
  match refs with
  | [] => None
  | b :: refs => if decide (a = b) then Some 0%nat else S <$> ref_index a refs
  end.

Definition Encoder : Type := NetWriter * list nat → result (NetWriter * list nat).

Fixpoint each {A} (f : A → Encoder) (l : list A) : Encoder := λ s,
  match l with
  | [] => Ok s
  | x :: l => let! s := f x s in each f l s
  end.

Definition writing (f : NetWriter → result NetWriter) : Encoder := λ s, let! w := f s.1 in Ok (w, s.2).

Definition then_ (f g : Encoder) : Encoder := λ s, let! s := f s in g s.

(** A tag and a count. *)
Definition writeHead (tag count : Z) : Encoder := writing (λ w, writeUvarint count (writeU8 tag w)).

(** [encodeObject] of an object not seen before, with the encoder for what is in it. *)
Definition encodeContents (encode : value → Encoder) (o : object) : Encoder :=
  match o with
  | OArray items => then_ (writeHead TAG_ARRAY (Z.of_nat (length items))) (each encode items)
  | OMap entries =>
      then_ (writeHead TAG_MAP (Z.of_nat (length entries))) (each (λ e, then_ (encode e.1) (encode e.2)) entries)
  | OSet items => then_ (writeHead TAG_SET (Z.of_nat (length items))) (each encode items)
  | ODate time =>
      writing (λ w, Ok (writeF64 (match time with Some t => f64_of_int t | None => NAN_BITS end) (writeU8 TAG_DATE w)))
  | OBytes shape bytes => writing (encodeBinary shape bytes)
  | OShared => λ _, Throw (TypeError "a SharedArrayBuffer cannot cross the wire")
  | OPlain properties =>
      then_ (writeHead TAG_OBJECT (Z.of_nat (length properties)))
        (each (λ e, then_ (writing (writeString e.1)) (encode e.2)) properties)
  end.

(** [encodeAny] at depth [MAX_DEPTH - room].  The map of the source is created by the first
    object; before it, it is as good as empty. *)
Fixpoint encodeAny (heap : nat → object) (room : nat) (v : value) : Encoder := λ s,
  match v with
  | VNull => writing (λ w, Ok (writeU8 TAG_NULL w)) s
  | VUndefined => writing (λ w, Ok (writeU8 TAG_UNDEFINED w)) s
  | VBoolean b => writing (λ w, Ok (writeU8 (if b then TAG_TRUE else TAG_FALSE) w)) s
  | VNumber n => writing (encodeNumber n) s
  | VString str => writing (λ w, writeString str (writeU8 TAG_STRING w)) s
  | VBigint z => writing (encodeBigint z) s
  | VUncarried => Throw (TypeError "a function or a symbol cannot cross the wire")
  | VObject a =>
      match ref_index a s.2 with
      | Some seen => writeHead TAG_REF (Z.of_nat seen) s
      | None =>
          match room with
          | O => Throw (RangeError "value nesting exceeds the depth limit")
          | S room => encodeContents (encodeAny heap room) (heap a) (s.1, s.2 ++ [a])
          end
      end
  end.

Definition encodeValue (heap : nat → object) (v : value) (w : NetWriter) : result NetWriter :=
  let! (w, _) := encodeAny heap MAX_DEPTH v (w, []) in Ok w.

(** ** Decoding *)

(** The objects built so far, by address, and the back-reference table. *)
Record Building := MkBuilding { bl_heap : list object; bl_refs : list nat }.

Definition Decoder (A : Type) : Type := Building → Reader (A * Building).

Definition dec_ret {A} (a : A) : Decoder A := λ b, mret (a, b).
Definition dec_bind {A C} (m : Decoder A) (k : A → Decoder C) : Decoder C := λ b, x ← m b; k x.1 x.2.
Definition lift {A} (r : Reader A) : Decoder A := λ b, a ← r; mret (a, b).

Notation "'let*' x ':=' c 'in' k" := (dec_bind c (λ x, k))
  (at level 10, x pattern, c at level 100, k at level 200) : nodeakt_scope.

(** A fresh object, registered in the table. *)
Definition allocate (o : object) : Decoder nat := λ b,
  let a := length (bl_heap b) in mret (a, MkBuilding (bl_heap b ++ [o]) (bl_refs b ++ [a])).

Definition update (a : nat) (f : object → object) : Decoder unit := λ b,
  mret (tt, MkBuilding (alter f a (bl_heap b)) (bl_refs b)).

(** The body of a counting loop, [n] times. *)
Fixpoint times (n : nat) (body : Decoder unit) : Decoder unit :=
  match n with O => dec_ret tt | S n => let* _ := body in times n body end.

Definition readCount : Reader Z :=
  count ← readUvarint;
  rest ← net_remaining;
  net_guard (negb (rest <? count)) "count exceeds the remaining input";;
  mret count.

(** The longest bigint of the engine, in bits: a shift that passes it throws. *)
Definition MAX_BIGINT_BITS : Z := 2 ^ 30.

Definition read_throw {A} (e : js_error) : Reader A := λ _, Throw e.

Definition decodeBigint : Reader Z :=
  sign ← readU8;
  net_guard (negb (1 <? sign)) "invalid bigint sign";;
  length ← readUvarint;
  digits ← readBytes length;
  let value := foldl (λ value d, Z.lor (Z.shiftl value 8) d) 0 digits in
  if MAX_BIGINT_BITS <=? Z.log2 value then read_throw (RangeError "Maximum BigInt size exceeded")
  else mret (if sign =? 1 then - value else value).

(** [byteShapes]: the element sizes in wire order. *)
Definition byteShapes : list Z := [1; 1; 1; 1; 2; 2; 4; 4; 4; 8; 8; 8; 1].

Section decoding.

(** The longest buffer the engine allocates when it is asked to. *)
Context (maxBuffer : Z).

(** [new Uint8Array(length)]. *)
Definition new_buffer (length : Z) : Reader unit :=
  if maxBuffer <? length then read_throw (RangeError "Array buffer allocation failed") else mret tt.

Definition decodeBytes : Decoder value :=
  let* subtype := lift readU8 in
  match byteShapes !! Z.to_nat subtype with
  | None => lift (net_fail "unknown bytes subtype")
  | Some size =>
      let* length := lift readUvarint in
      let* _ := lift (net_guard (length mod size =? 0) "bytes length does not fit subtype") in
      let* rest := lift net_remaining in
      let* _ := lift (net_guard (negb (rest <? length)) "truncated input") in
      let* _ := lift (new_buffer length) in
      let* bytes := lift (readBytes length) in
      let* a := allocate (OBytes (if subtype =? 0 then BBuffer else BView (Z.to_nat subtype)) bytes) in
      dec_ret (VObject a)
  end.

(** The time value of [new Date(x)]. *)
Definition MAX_TIME : Z := 8640000000000000.
Definition time_clip (bits : Z) : option Z :=
  if f64_finite bits && (Z.abs (f64_trunc bits) <=? MAX_TIME) then Some (f64_trunc bits) else None.

(** The key under which a [Map] or [Set] files a value. *)
Definition norm_key (v : value) : value :=
  match v with VNumber (NDouble bits) => if bits =? NEGATIVE_ZERO then VNumber (NInt 0) else v | _ => v end.

Definition push_item (x : value) (o : object) : object := match o with OArray l => OArray (l ++ [x]) | o => o end.
Definition add_item (x : value) (o : object) : object := match o with OSet l => OSet (set_add (norm_key x) l) | o => o end.
Definition set_entry (k x : value) (o : object) : object := match o with OMap l => OMap (jm_set (norm_key k) x l) | o => o end.
(** The number of a key that is an array index: its decimal digits, without a leading
    zero, below 2^32 - 1. *)
Definition array_index (k : jsstring) : option Z :=
  let n := foldl (λ n u, n * 10 + (u - 48)) 0 k in
  if forallb (λ u, (48 <=? u) && (u <=? 57)) k && (n <? 2 ^ 32 - 1) && bool_decide (k = str_of_nat n) then Some n else None.

(** A new property: index keys come first, ascending, then the others as they came. *)
Fixpoint put_index (i : Z) (k : jsstring) (x : value) (l : list (jsstring * value)) : list (jsstring * value) :=
  match l with
  | (k', x') :: l' =>
      match array_index k' with
      | Some j => if j <? i then (k', x') :: put_index i k x l' else (k, x) :: l
      | None => (k, x) :: l
      end
  | [] => [(k, x)]
  end.

(** [object[key] = entry]. *)
Definition put_property (k : jsstring) (x : value) (l : list (jsstring * value)) : list (jsstring * value) :=
  if jm_has k l then jm_set k x l
  else match array_index k with Some i => put_index i k x l | None => l ++ [(k, x)] end.

Definition set_property (k : jsstring) (x : value) (o : object) : object :=
  match o with OPlain l => OPlain (put_property k x l) | o => o end.

(** [(zigzag >>> 1) ^ -(zigzag & 1)]. *)
Definition unzigzag (z : Z) : Z := js_xor (js_ushr z 1) (- Z.land z 1).

Definition skipped_key (k : jsstring) : bool := bool_decide (k = js "__proto__") || bool_decide (k = js "constructor").

(** A container: its count, a fresh object, and its contents read into it. *)
Definition decodeContainer (empty : object) (body : nat → Decoder unit) : Decoder value :=
  let* count := lift readCount in
  let* a := allocate empty in
  let* _ := times (Z.to_nat count) (body a) in
  dec_ret (VObject a).

(** The switch on the tag, with the decoder for what is inside a container.  A date or a
    binary object outside any container joins a table nothing reads. *)
Definition decodeTagged (decode : Decoder value) (tag : Z) : Decoder value :=
  if tag =? TAG_NULL then dec_ret VNull
  else if tag =? TAG_UNDEFINED then dec_ret VUndefined
  else if tag =? TAG_FALSE then dec_ret (VBoolean false)
  else if tag =? TAG_TRUE then dec_ret (VBoolean true)
  else if tag =? TAG_INT then
    let* z := lift readUvarint in
    let* _ := lift (net_guard (negb (0xffffffff <? z)) "int zigzag value out of range") in
    dec_ret (VNumber (NInt (unzigzag z)))
  else if tag =? TAG_F64 then let* bits := lift readF64 in dec_ret (VNumber (number_of_bits bits))
  else if tag =? TAG_STRING then let* s := lift readString in dec_ret (VString s)
  else if tag =? TAG_BIGINT then let* z := lift decodeBigint in dec_ret (VBigint z)
  else if tag =? TAG_DATE then
    let* bits := lift readF64 in
    let* a := allocate (ODate (time_clip bits)) in
    dec_ret (VObject a)
  else if tag =? TAG_BYTES then decodeBytes
  else if tag =? TAG_ARRAY then decodeContainer (OArray []) (λ a, let* x := decode in update a (push_item x))
  else if tag =? TAG_OBJECT then
    decodeContainer (OPlain [])
      (λ a, let* k := lift readString in let* x := decode in
            if skipped_key k then dec_ret tt else update a (set_property k x))
  else if tag =? TAG_MAP then
    decodeContainer (OMap []) (λ a, let* k := decode in let* x := decode in update a (set_entry k x))
  else if tag =? TAG_SET then decodeContainer (OSet []) (λ a, let* x := decode in update a (add_item x))
  else if tag =? TAG_REF then
    let* index := lift readUvarint in
    λ b, if Z.of_nat (length (bl_refs b)) <=? index then net_fail "back-reference is out of bounds"
         else mret (VObject (default 0%nat (bl_refs b !! Z.to_nat index)), b)
  else lift (net_fail "unknown value tag").

(** [decodeAny] at depth [MAX_DEPTH - room]. *)
Fixpoint decodeAny (room : nat) : Decoder value :=
  match room with
  | O => lift (net_fail "value nesting exceeds the depth limit")
  | S room => let* tag := lift readU8 in decodeTagged (decodeAny room) tag
  end.

Definition decodeValue : Reader (value * list object) :=
  x ← decodeAny MAX_DEPTH (MkBuilding [] []); mret (x.1, bl_heap x.2).
End decoding.
