(* ===== verification/NetCodec.v ===== *)
(** * The value codec is lossless

    Whatever graph the encoder accepts within the decoder's depth, the decoder rebuilds:
    the same values, the same sharing and the same cycles, at the addresses in which the
    encoder met the objects.  And the depth the two sides allow differs by one. *)
From S2P Require Import Prelude JsNumber JsString ByteIO NetBytes NetValue.

(** ** Scalars *)

Lemma zigzag_eq z : is_int32 z = true → zigzag z = if 0 <=? z then 2 * z else - 2 * z - 1.
Proof.
  intros Hz. unfold is_int32 in Hz. apply andb_true_iff in Hz as [H1%Z.leb_le H2%Z.leb_le]. unfold zigzag.
  destruct (Z.leb_spec 0 z).
  - assert (Z.shiftr z 31 = 0) as -> by (rewrite Z.shiftr_div_pow2 by lia; apply Z.div_small; lia).
    rewrite Z.lxor_0_r, u32_i32, u32_id by (unfold is_u32, W32; lia). lia.
  - assert (Z.shiftr z 31 = -1) as -> by (rewrite Z.shiftr_div_pow2 by lia; Z.to_euclidean_division_equations; lia).
    rewrite Z.lxor_m1_r. unfold Z.lnot. rewrite <-Z.sub_1_r.
    replace (u32 (- i32 (z * 2) - 1)) with (u32 (- (z * 2) - 1)); [rewrite u32_id by (unfold is_u32, W32; lia); lia|].
    pose proof (u32_i32 (z * 2)) as Hc. unfold u32 in *. rewrite (Zminus_mod (- i32 _)), (Zminus_mod (- (z * 2))).
    rewrite <-(Z.sub_0_l (i32 _)), <-(Z.sub_0_l (z * 2)). rewrite (Zminus_mod 0 (i32 _)), Hc, <-(Zminus_mod 0). done.
Qed.

Lemma unzigzag_zigzag z : is_int32 z = true → unzigzag (zigzag z) = z ∧ 0 ≤ zigzag z ≤ 0xffffffff.
Proof.
  intros Hz. rewrite (zigzag_eq z Hz). unfold is_int32 in Hz. apply andb_true_iff in Hz as [H1%Z.leb_le H2%Z.leb_le].
  unfold unzigzag. assert (∀ x, 0 ≤ x < 2 ^ 31 → i32 x = x) as Hi.
  { intros x Hx. unfold i32. rewrite Z.mod_small by (unfold W32; lia). destruct (Z.ltb_spec x (2 ^ 31)); [done|lia]. }
  destruct (Z.leb_spec 0 z).
  - rewrite js_ushr_half by (unfold W32; lia). replace (2 * z / 2) with z by (Z.to_euclidean_division_equations; lia).
    assert (Z.land (2 * z) 1 = 0) as -> by (change 1 with (Z.ones 1); rewrite Z.land_ones by lia; Z.to_euclidean_division_equations; lia).
    unfold js_xor. rewrite Hi by lia. change (i32 (- 0)) with 0. rewrite Z.lxor_0_r. split; [done|lia].
  - rewrite js_ushr_half by (unfold W32; lia). replace ((-2 * z - 1) / 2) with (- z - 1) by (Z.to_euclidean_division_equations; lia).
    assert (Z.land (-2 * z - 1) 1 = 1) as -> by (change 1 with (Z.ones 1) at 2; rewrite Z.land_ones by lia; Z.to_euclidean_division_equations; lia).
    unfold js_xor. rewrite Hi by lia. change (i32 (- (1))) with (-1). rewrite Z.lxor_m1_r. unfold Z.lnot. split; lia.
Qed.

Lemma bigint_digits_spec fuel m :
  0 ≤ m < 256 ^ Z.of_nat fuel →
  foldl (λ v d, Z.lor (Z.shiftl v 8) d) 0 (rev (bigint_digits fuel m)) = m ∧ Forall is_byte (bigint_digits fuel m).
Proof.
  revert m. induction fuel as [|fuel IH]; intros m Hm; cbn [bigint_digits]; [cbn in *; split; [lia|constructor]|].
  destruct (Z.ltb_spec 0 m); [|split; [cbn; lia|constructor]]. cbn [rev].
  change 0xff with (Z.ones 8). rewrite Z.land_ones by lia. rewrite Z.shiftr_div_pow2 by lia. change (2 ^ 8) with 256.
  rewrite Nat2Z.inj_succ, Z.pow_succ_r in Hm by lia.
  destruct (IH (m / 256)) as [IH1 IH2]; [split; [apply Z.div_pos; lia|apply Z.div_lt_upper_bound; lia]|].
  pose proof (Z.mod_pos_bound m 256 ltac:(lia)) as Hb. split; [|constructor; [exact Hb|done]].
  rewrite foldl_app, IH1. cbn [foldl]. rewrite Z.shiftl_mul_pow2 by lia. change (2 ^ 8) with 256.
  assert (Z.land (m / 256 * 256) (m mod 256) = 0) as Hl.
  { change 256 with (2 ^ 8). rewrite <-Z.shiftl_mul_pow2, <-Z.land_ones, Z.land_comm, <-Z.land_assoc by lia.
    replace (Z.land (Z.ones 8) (Z.shiftl (m / 2 ^ 8) 8)) with 0; [apply Z.land_0_r|].
    rewrite Z.land_comm, Z.land_ones, Z.shiftl_mul_pow2, Z.mod_mul by lia. done. }
  pose proof (Z.add_lor_land (m / 256 * 256) (m mod 256)). rewrite Hl in *.
  pose proof (Z.div_mod m 256 ltac:(lia)). lia.
Qed.

Lemma f64_of_int_spec z :
  Z.abs z < 2 ^ 53 → 0 ≤ f64_of_int z < 2 ^ 64 ∧ f64_finite (f64_of_int z) = true ∧ f64_trunc (f64_of_int z) = z.
Proof.
  intros Hz. unfold f64_of_int. destruct (Z.eqb_spec (Z.abs z) 0) as [E|E].
  { assert (z = 0) as -> by lia. by vm_compute. }
  set (a := Z.abs z) in *. set (e := Z.log2 a). destruct (Z.log2_spec a) as [L1 L2]; [lia|]. fold e in L1, L2.
  assert (0 ≤ e) by apply Z.log2_nonneg. assert (e < 53) as He by (apply Z.log2_lt_pow2; lia).
  set (p := 2 ^ (52 - e)). assert (0 < p) by (apply Z.pow_pos_nonneg; lia).
  assert (2 ^ e * p = 2 ^ 52) as Hp by (unfold p; rewrite <-Z.pow_add_r by lia; f_equal; lia).
  rewrite Z.pow_succ_r in L2 by lia. assert (0 ≤ (a - 2 ^ e) * p < 2 ^ 52) as Hf by nia.
  set (f := (a - 2 ^ e) * p) in *. assert (∃ k, (if z <? 0 then 2 ^ 63 else 0) = k * 2 ^ 63 ∧ 0 ≤ k ≤ 1) as (k & Ek & Hk).
  { destruct (z <? 0); [exists 1|exists 0]; lia. }
  set (bits := (if z <? 0 then 2 ^ 63 else 0) + ((e + 1023) * 2 ^ 52 + f)).
  assert (bits = f + (k * 2 ^ 11 + e + 1023) * 2 ^ 52) as Eb by (unfold bits; rewrite Ek; lia).
  assert (f64_fraction bits = f) as Ef by (unfold f64_fraction; rewrite Eb, Z.mod_add by lia; by apply Z.mod_small).
  assert (f64_exponent bits = e + 1023) as Ee.
  { unfold f64_exponent. rewrite Eb, Z.div_add, (Z.div_small f) by lia. Z.to_euclidean_division_equations. lia. }
  split; [rewrite Eb; lia|]. split; [unfold f64_finite; rewrite Ee; apply negb_true_iff, Z.eqb_neq; lia|].
  unfold f64_trunc, f64_significand, f64_scale, f64_negative. rewrite Ee, Ef. rewrite (proj2 (Z.eqb_neq (e + 1023) 0)) by lia.
  assert (2 ^ 52 + f = a * p) as -> by (unfold f; lia).
  assert ((if 0 <=? e + 1023 - 1075 then a * p * 2 ^ (e + 1023 - 1075) else a * p / 2 ^ (- (e + 1023 - 1075))) = a) as ->.
  { destruct (Z.leb_spec 0 (e + 1023 - 1075)).
    - assert (e = 52) as Ee' by lia. unfold p. rewrite Ee'. cbn. lia.
    - replace (- (e + 1023 - 1075)) with (52 - e) by lia. fold p. by rewrite Z.div_mul by lia. }
  unfold a. destruct (Z.leb_spec (2 ^ 63) bits), (Z.ltb_spec z 0); lia.
Qed.

Lemma time_clip_of_int t : Z.abs t ≤ MAX_TIME → time_clip (f64_of_int t) = Some t.
Proof.
  intros Ht. unfold MAX_TIME in Ht. destruct (f64_of_int_spec t) as (_ & H1 & H2); [lia|]. unfold time_clip. rewrite H1, H2.
  by rewrite (proj2 (Z.leb_le _ _)) by done.
Qed.

(** ** What a graph becomes *)

(** An object is at the address of its turn in the walk, a string without the byte order
    mark it starts with. *)
Definition rename (walk : list nat) (v : value) : value :=
  match v with VObject a => VObject (default 0%nat (ref_index a walk)) | VString s => VString (arrived s) | v => v end.

(** A subclass of [Uint8Array] becomes one. *)
Definition decoded_shape (shape : binary) : binary := match shape with BSubclass => BView 1 | s => s end.

Definition rename_object (walk : list nat) (o : object) : object :=
  match o with
  | OArray l => OArray (rename walk <$> l)
  | OMap l => OMap ((λ e, (rename walk e.1, rename walk e.2)) <$> l)
  | OSet l => OSet (rename walk <$> l)
  | ODate t => ODate t
  | OBytes shape bytes => OBytes (decoded_shape shape) bytes
  | OShared => OShared
  | OPlain l => OPlain ((λ e, (e.1, rename walk e.2)) <$> filter (λ e, skipped_key e.1 = false) l)
  end.

(** Values and objects as the language has them: strings well-formed, bigints and buffers
    within what the engine holds; map keys, set items and property names that are strings
    do not start with a byte order mark. *)
Definition carried_number (n : jsnumber) : Prop :=
  match n with
  | NInt z => is_int32 z = true
  | NNaN => True
  | NDouble bits => 0 ≤ bits < 2 ^ 64 ∧ number_of_bits bits = NDouble bits
  end.

Definition carried (v : value) : Prop :=
  match v with
  | VNumber n => carried_number n
  | VString s => text s
  | VBigint z => Z.log2 (Z.abs z) < MAX_BIGINT_BITS
  | _ => True
  end.

Definition keyed (v : value) : Prop := match v with VString s => plain s | _ => True end.

(** The order in which the language lists properties. *)
Definition listed_before (e1 e2 : jsstring * value) : Prop :=
  match array_index e1.1, array_index e2.1 with
  | Some i, Some j => i < j
  | None, Some _ => False
  | _, None => True
  end.

Section codec.

(** The longest buffer the receiver's engine allocates. *)
Context (maxBuffer : Z).

#[local] Abbreviation decodeBytes := (NetValue.decodeBytes maxBuffer).
#[local] Abbreviation decodeTagged := (NetValue.decodeTagged maxBuffer).
#[local] Abbreviation decodeAny := (NetValue.decodeAny maxBuffer).
#[local] Abbreviation decodeValue := (NetValue.decodeValue maxBuffer).

Definition carried_object (o : object) : Prop :=
  match o with
  | OArray l => Forall carried l
  | OMap l => Forall (λ e, carried e.1 ∧ carried e.2 ∧ norm_key e.1 = e.1 ∧ keyed e.1) l ∧ NoDup (l.*1)
  | OSet l => Forall (λ v, carried v ∧ norm_key v = v ∧ keyed v) l ∧ NoDup l
  | ODate t => match t with Some t => Z.abs t ≤ MAX_TIME | None => True end
  | OBytes shape bytes =>
      match subtype_of shape with
      | Some n => ∃ size, byteShapes !! n = Some size ∧ Z.of_nat (length bytes) mod size = 0 ∧ Z.of_nat (length bytes) ≤ maxBuffer ∧ (shape = BView n → n ≠ 0%nat)
      | None => True
      end
  | OShared => True
  | OPlain l => Forall (λ e, plain e.1 ∧ carried e.2) l ∧ NoDup (l.*1) ∧ StronglySorted listed_before l
  end.

(** An object of the value has been met. *)
Definition met (walk : list nat) (v : value) : Prop := match v with VObject a => a ∈ walk | _ => True end.

Lemma met_prefix walk walk' v : walk `prefix_of` walk' → met walk v → met walk' v.
Proof. intros [l ->]. destruct v; cbn; set_solver. Qed.

Lemma ref_index_Some a walk i : ref_index a walk = Some i → walk !! i = Some a ∧ (i < length walk)%nat.
Proof.
  revert i. induction walk as [|b walk IH]; intros i; [done|]. cbn. destruct (decide (a = b)) as [->|].
  - intros [= <-]. cbn. split; [done|lia].
  - destruct (ref_index a walk) as [j|] eqn:E; [|done]. intros [= <-]. destruct (IH j eq_refl). cbn. split; [done|lia].
Qed.

Lemma ref_index_None a walk : ref_index a walk = None ↔ a ∉ walk.
Proof.
  induction walk as [|b walk IH]; cbn; [set_solver|]. destruct (decide (a = b)) as [->|]; [set_solver|].
  destruct (ref_index a walk); cbn; set_solver.
Qed.

Lemma ref_index_app a walk l i : ref_index a walk = Some i → ref_index a (walk ++ l) = Some i.
Proof.
  revert i. induction walk as [|b walk IH]; intros i; [done|]. cbn. destruct (decide (a = b)); [done|].
  destruct (ref_index a walk) as [j|]; [|done]. by rewrite (IH j eq_refl).
Qed.

Lemma ref_index_new a walk l : a ∉ walk → ref_index a (walk ++ a :: l) = Some (length walk).
Proof.
  induction walk as [|b walk IH]; cbn; intros Ha; [by rewrite decide_True|]. rewrite decide_False by set_solver.
  by rewrite IH by set_solver.
Qed.

(** Renaming keeps different values apart. *)
Lemma rename_inj walk v1 v2 :
  met walk v1 → met walk v2 → keyed v1 → keyed v2 → rename walk v1 = rename walk v2 → v1 = v2.
Proof.
  destruct v1 as [| |b1|n1|s1|z1|a|], v2 as [| |b2|n2|s2|z2|b|]; cbn; try congruence.
  { intros _ _ H1 H2. rewrite !arrived_plain by done. congruence. }
  intros Ha Hb _ _ [= H].
  destruct (ref_index a walk) as [i|] eqn:Ea; [|by apply ref_index_None in Ea].
  destruct (ref_index b walk) as [j|] eqn:Eb; [|by apply ref_index_None in Eb].
  apply ref_index_Some in Ea as [Ea _], Eb as [Eb _]. cbn in H. subst. congruence.
Qed.

Lemma rename_NoDup walk l : Forall (met walk) l → Forall keyed l → NoDup l → NoDup (rename walk <$> l).
Proof.
  intros Hm Hk. induction 1 as [|v l Hv Hl IH]; [constructor|]. apply Forall_cons in Hm as [Hmv Hml], Hk as [Hkv Hkl].
  cbn. constructor; [|by apply IH].
  intros (v' & E & Hv')%list_elem_of_fmap. rewrite Forall_forall in Hml, Hkl. apply rename_inj in E as ->; auto.
Qed.

(** ** Decoding steps *)

Definition built (heap : list object) : Building := MkBuilding heap (seq 0 (length heap)).

(** [d], started with [heap] built, reads exactly [bs], yields [x] and leaves [heap'] built. *)
Definition decodes {A} (d : Decoder A) (heap : list object) (bs : list Z) (x : A) (heap' : list object) : Prop :=
  reads (d (built heap)) bs (x, built heap').

Lemma decodes_ret {A} (x : A) heap : decodes (dec_ret x) heap [] x heap.
Proof. apply reads_ret. Qed.

Lemma decodes_bind {A C} (d : Decoder A) (k : A → Decoder C) h1 h2 h3 bs1 bs2 x y :
  decodes d h1 bs1 x h2 → decodes (k x) h2 bs2 y h3 → decodes (dec_bind d k) h1 (bs1 ++ bs2) y h3.
Proof. intros H1 H2. unfold decodes, dec_bind. by eapply reads_bind. Qed.

Lemma decodes_then {A C} (d : Decoder A) (k : A → Decoder C) h1 h2 h3 bs x y :
  decodes d h1 [] x h2 → decodes (k x) h2 bs y h3 → decodes (dec_bind d k) h1 bs y h3.
Proof. intros H1 H2. by apply (decodes_bind d k h1 h2 h3 [] bs x y). Qed.

Lemma decodes_map {A C} (d : Decoder A) (k : A → Decoder C) h1 h2 h3 bs x y :
  decodes d h1 bs x h2 → decodes (k x) h2 [] y h3 → decodes (dec_bind d k) h1 bs y h3.
Proof. intros H1 H2. rewrite <-(app_nil_r bs). by eapply decodes_bind. Qed.

Lemma decodes_lift {A} (r : Reader A) heap bs x : reads r bs x → decodes (lift r) heap bs x heap.
Proof. intros H. unfold decodes, lift. eapply reads_map; [done|]. apply reads_ret. Qed.

Lemma decodes_allocate o heap : decodes (allocate o) heap [] (length heap) (heap ++ [o]).
Proof.
  unfold decodes, allocate, built. cbn [bl_heap bl_refs]. rewrite length_app, Nat.add_1_r, seq_S. apply reads_ret.
Qed.

Lemma decodes_update a f heap : decodes (update a f) heap [] tt (alter f a heap).
Proof. unfold decodes, update, built. cbn [bl_heap bl_refs]. rewrite length_alter. apply reads_ret. Qed.

(** A count is checked against the bytes that follow. *)
Lemma decodes_count {C} n (k : Z → Decoder C) heap bs y heap' :
  0 ≤ n ≤ MAX_SAFE_INTEGER → n ≤ Z.of_nat (length bs) → decodes (k n) heap bs y heap' →
  decodes (dec_bind (lift readCount) k) heap (uvarint n ++ bs) y heap'.
Proof.
  intros Hn Hl H pre suf. pose proof (reads_readUvarint n Hn pre (bs ++ suf)) as Hu. specialize (H (pre ++ uvarint n) suf).
  rewrite <-!app_assoc in *. unfold dec_bind, lift, readCount, net_remaining, net_guard, mret, Reader_ret, mbind, Reader_bind.
  rewrite Hu. cbn [fst snd]. unfold remaining. cbn [rd_bytes rd_offset]. rewrite !length_app in *.
  destruct (Z.ltb_spec (Z.of_nat (length pre + (length (uvarint n) + (length bs + length suf)) - (length pre + length (uvarint n)))) n); [lia|].
  cbn [negb fst snd]. rewrite H. by rewrite Nat.add_assoc.
Qed.

Lemma decodes_rest {C} (k : Z → Decoder C) heap bs y heap' :
  (∀ m, Z.of_nat (length bs) ≤ m → decodes (k m) heap bs y heap') → decodes (dec_bind (lift net_remaining) k) heap bs y heap'.
Proof.
  intros H pre suf. unfold dec_bind, lift, net_remaining, mret, Reader_ret, mbind, Reader_bind. cbn [fst snd].
  apply H. unfold remaining. cbn [rd_bytes rd_offset]. rewrite !length_app. lia.
Qed.

Lemma reads_new_buffer n : n ≤ maxBuffer → reads (new_buffer maxBuffer n) [] tt.
Proof. intros H. unfold new_buffer. rewrite (proj2 (Z.ltb_ge _ _)) by done. apply reads_ret. Qed.

Lemma decodes_tag room tag heap bs x heap' :
  decodes (decodeTagged (decodeAny room) tag) heap bs x heap' → decodes (decodeAny (S room)) heap (tag :: bs) x heap'.
Proof.
  intros H. change (tag :: bs) with ([tag] ++ bs). cbn [NetValue.decodeAny].
  eapply decodes_bind; [apply decodes_lift, reads_readU8|]. exact H.
Qed.

(** ** The encoder against the decoder *)

Section encoder.
Context (heap : nat → object) (Hheap : ∀ a, carried_object (heap a)).

(** The decoded objects of the addresses [new]. *)
Definition news (final new : list nat) : list object := (λ a, rename_object final (heap a)) <$> new.

(** What [enc] writes is what [Dec] reads, given the heap before and the objects added;
    [K] is what is known of the walk afterwards. *)
Definition encodes (enc : Encoder) (Dec : list nat → list object → list Z → list object → Prop) (K : list nat → Prop) : Prop :=
  ∀ w rs w' rs', nw_ok w → NoDup rs → enc (w, rs) = Ok (w', rs') →
  ∃ new bs, rs' = rs ++ new ∧ NoDup rs' ∧ appends bs w w' ∧ (1 ≤ length bs)%nat ∧ K rs' ∧
    ∀ final hp, rs' `prefix_of` final → length hp = length rs → Dec final hp bs (news final new).

(** A value, and an element read into the object at [a]. *)
Definition value_dec (room : nat) (v : value) (final : list nat) (hp : list object) (bs : list Z) (added : list object) : Prop :=
  decodes (decodeAny (S room)) hp bs (rename final v) (hp ++ added).

Definition item_dec (body : nat → Decoder unit) (add : list nat → object → object)
    (final : list nat) (hp : list object) (bs : list Z) (added : list object) : Prop :=
  ∀ a o, hp !! a = Some o → decodes (body a) hp bs tt (<[a := add final o]> hp ++ added).

Lemma news_length final new : length (news final new) = length new.
Proof. apply length_fmap. Qed.

Lemma each_encodes {A} (enc : A → Encoder) body (add : A → list nat → object → object) (K : A → list nat → Prop) l :
  (∀ x walk walk', walk `prefix_of` walk' → K x walk → K x walk') →
  Forall (λ x, encodes (enc x) (item_dec body (add x)) (K x)) l →
  ∀ w rs w' rs', nw_ok w → NoDup rs → each enc l (w, rs) = Ok (w', rs') →
  ∃ new bs, rs' = rs ++ new ∧ NoDup rs' ∧ appends bs w w' ∧ (length l ≤ length bs)%nat ∧ Forall (λ x, K x rs') l ∧
    ∀ final hp, rs' `prefix_of` final → length hp = length rs →
    ∀ a o, hp !! a = Some o →
      decodes (times (length l) (body a)) hp bs tt (<[a := foldl (λ o x, add x final o) o l]> hp ++ news final new).
Proof.
  intros HK. induction 1 as [|x l Hx Hl IH]; intros w rs w' rs' Hw Hrs E; cbn [each] in E.
  - injection E as <- <-. exists [], []. rewrite app_nil_r. split_and!; try done; [split; [done|by rewrite app_nil_r]|].
    intros final hp _ _ a o Ho. cbn [length times foldl]. rewrite list_insert_id by done. rewrite app_nil_r. apply decodes_ret.
  - apply result_bind_ok in E as ([w1 rs1] & E1 & E).
    destruct (Hx w rs w1 rs1 Hw Hrs E1) as (new1 & bs1 & -> & Hnd1 & A1 & L1 & K1 & D1).
    destruct (IH w1 (rs ++ new1) w' rs' (proj1 A1) Hnd1 E) as (new2 & bs2 & -> & Hnd2 & A2 & L2 & K2 & D2).
    exists (new1 ++ new2), (bs1 ++ bs2). rewrite app_assoc. split_and!; try done; [by eapply appends_trans| | |].
    + rewrite length_app. cbn. lia.
    + constructor; [|done]. apply (HK x (rs ++ new1)); [by eexists|done].
    + intros final hp Hpre Hhp a o Ho. cbn [length times foldl].
      assert (rs ++ new1 `prefix_of` final) as Hpre1 by (etrans; [|done]; by eexists).
      pose proof (lookup_lt_Some _ _ _ Ho) as Ha. set (hp1 := <[a := add x final o]> hp ++ news final new1).
      eapply (decodes_bind _ _ _ hp1); [by apply D1|]. cbv beta.
      replace (<[a := foldl (λ o x, add x final o) (add x final o) l]> hp ++ news final (new1 ++ new2))
        with (<[a := foldl (λ o x, add x final o) (add x final o) l]> hp1 ++ news final new2).
      { apply D2; [done| |].
        - unfold hp1. rewrite length_app, length_insert, news_length, length_app. lia.
        - unfold hp1. rewrite lookup_app_l by (by rewrite length_insert). by apply list_lookup_insert_eq. }
      unfold hp1. rewrite insert_app_l by (by rewrite length_insert). rewrite list_insert_insert_eq.
      unfold news. by rewrite fmap_app, app_assoc.
Qed.

Lemma writeHead_spec tag count w rs w' rs' :
  nw_ok w → 0 ≤ tag < 256 → writeHead tag count (w, rs) = Ok (w', rs') →
  rs' = rs ∧ appends (tag :: uvarint count) w w' ∧ 0 ≤ count ≤ MAX_SAFE_INTEGER.
Proof.
  intros Hw Ht E. unfold writeHead, writing in E. apply result_bind_ok in E as (w1 & E & [= <- <-]). cbn [fst snd] in *.
  destruct (writeUvarint_spec count _ _ (proj1 (writeU8_spec tag w Hw)) E) as [A Hc]. split_and!; [done| |lia..].
  pose proof (writeU8_spec tag w Hw) as A0. rewrite Z.mod_small in A0 by done. apply (appends_trans [tag] _ _ _ _ A0 A).
Qed.

(** The value at a new address: [a0] has its turn in the walk, then its contents. *)
Definition object_encodes (room : nat) (a0 : nat) (enc : Encoder) : Prop :=
  ∀ w rs w' rs', nw_ok w → NoDup rs → a0 ∉ rs → enc (w, rs ++ [a0]) = Ok (w', rs') →
  ∃ new bs, rs' = rs ++ new ∧ NoDup rs' ∧ appends bs w w' ∧ (1 ≤ length bs)%nat ∧ a0 ∈ rs' ∧
    ∀ final hp, rs' `prefix_of` final → length hp = length rs → value_dec room (VObject a0) final hp bs (news final new).

Lemma new_address rs a0 new final (hp : list object) :
  a0 ∉ rs → (rs ++ [a0]) ++ new `prefix_of` final → length hp = length rs → rename final (VObject a0) = VObject (length hp).
Proof.
  intros Ha [l ->] Hl. cbn [rename]. rewrite <-!app_assoc. cbn [app]. by rewrite ref_index_new, Hl by done.
Qed.

Lemma container_encodes {A} (room : nat) (a0 : nat) (tag : Z) (empty : object) (body : nat → Decoder unit)
    (enc : A → Encoder) (add : A → list nat → object → object) (K : A → list nat → Prop) (l : list A) :
  0 ≤ tag < 256 → decodeTagged (decodeAny room) tag = decodeContainer empty body →
  (∀ x walk walk', walk `prefix_of` walk' → K x walk → K x walk') →
  Forall (λ x, encodes (enc x) (item_dec body (add x)) (K x)) l →
  (∀ final, Forall (λ x, K x final) l → foldl (λ o x, add x final o) empty l = rename_object final (heap a0)) →
  object_encodes room a0 (then_ (writeHead tag (Z.of_nat (length l))) (each enc l)).
Proof.
  intros Ht Hdec HK Hl Hfold w rs w' rs' Hw Hrs Ha E. unfold then_ in E. apply result_bind_ok in E as ([w1 rs1] & E1 & E).
  apply writeHead_spec in E1 as (-> & A1 & Hc); [|done..].
  assert (NoDup (rs ++ [a0])) as Hrs0 by (apply NoDup_app; split_and!; [done|set_solver|apply NoDup_singleton]).
  destruct (each_encodes enc body add K l HK Hl w1 _ w' rs' (proj1 A1) Hrs0 E) as (new & bs & -> & Hnd & A2 & L & HKl & D).
  exists (a0 :: new), ((tag :: uvarint (Z.of_nat (length l))) ++ bs). split_and!.
  - by rewrite <-app_assoc.
  - done.
  - by eapply appends_trans.
  - cbn. lia.
  - set_solver.
  - intros final hp Hpre Hhp. unfold value_dec. rewrite (new_address rs a0 new final hp) by done.
    cbn [app]. apply decodes_tag. rewrite Hdec. unfold decodeContainer. apply decodes_count; [lia|lia|].
    eapply decodes_then; [apply decodes_allocate|]. cbv beta. rewrite Nat2Z.id.
    eapply decodes_map; [|apply decodes_ret]. cbv beta.
    replace (hp ++ news final (a0 :: new))
      with (<[length hp := foldl (λ o x, add x final o) empty l]> (hp ++ [empty]) ++ news final new).
    { apply D; [done|rewrite !length_app; cbn; lia|]. by rewrite lookup_app_r, Nat.sub_diag by lia. }
    rewrite insert_app_r_alt, Nat.sub_diag by lia. cbn [list_insert insert]. rewrite Hfold, <-app_assoc; [done|].
    eapply Forall_impl; [apply HKl|]. intros x. by apply HK.
Qed.

(** *** Primitive values *)

(** The bytes [f] writes for [v], after the tag, and their decoding. *)
Definition writes_value (room : nat) (f : NetWriter → result NetWriter) (v : value) : Prop :=
  ∀ w w', nw_ok w → f w = Ok w' →
  ∃ tag bs, appends (tag :: bs) w w' ∧ ∀ hp, decodes (decodeTagged (decodeAny room) tag) hp bs v hp.

Lemma primitive_encodes room f v v' :
  (∀ walk, rename walk v = v' ∧ met walk v) → writes_value room f v' → encodes (writing f) (value_dec room v) (λ rs, met rs v).
Proof.
  intros Hv Hf w rs w' rs' Hw Hrs E. unfold writing in E. apply result_bind_ok in E as (w1 & E & [= <- <-]). cbn [fst snd] in *.
  destruct (Hf w w1 Hw E) as (tag & bs & A & D). exists [], (tag :: bs). rewrite app_nil_r. split_and!; try done; [cbn; lia|apply Hv|].
  intros final hp _ _. unfold value_dec. rewrite (proj1 (Hv final)). cbn [news fmap list_fmap]. rewrite app_nil_r. by apply decodes_tag.
Qed.

Lemma appends_tag tag w : nw_ok w → 0 ≤ tag < 256 → appends [tag] w (writeU8 tag w).
Proof. intros Hw Ht. pose proof (writeU8_spec tag w Hw) as A. by rewrite Z.mod_small in A. Qed.

Lemma constant_writes room tag v :
  0 ≤ tag < 256 → decodeTagged (decodeAny room) tag = dec_ret v → writes_value room (λ w, Ok (writeU8 tag w)) v.
Proof.
  intros Ht Hd w w' Hw [= <-]. exists tag, []. split; [by apply appends_tag|]. intros hp. rewrite Hd. apply decodes_ret.
Qed.

Lemma number_writes room n : carried_number n → writes_value room (encodeNumber n) (VNumber n).
Proof.
  intros Hn w w' Hw E. unfold encodeNumber in E. destruct n as [z| |bits].
  - destruct (unzigzag_zigzag z Hn) as [Hz Hr]. pose proof (appends_tag TAG_INT w Hw ltac:(done)) as A0.
    destruct (writeUvarint_spec _ _ _ (proj1 A0) E) as [A _]. exists TAG_INT, (uvarint (zigzag z)).
    split; [by apply (appends_trans [TAG_INT] _ _ _ _ A0)|]. intros hp.
    change (decodeTagged (decodeAny room) TAG_INT) with
      (let* z := lift readUvarint in let* _ := lift (net_guard (negb (0xffffffff <? z)) "int zigzag value out of range") in
       dec_ret (VNumber (NInt (unzigzag z)))).
    eapply decodes_map; [apply decodes_lift, reads_readUvarint; unfold MAX_SAFE_INTEGER; lia|]. cbv beta.
    eapply decodes_then; [apply decodes_lift, reads_net_guard|rewrite Hz; apply decodes_ret].
    by rewrite (proj2 (Z.ltb_ge _ _)) by lia.
  - injection E as <-. pose proof (appends_tag TAG_F64 w Hw ltac:(done)) as A0. exists TAG_F64, (be_encode 8 NAN_BITS).
    split; [apply (appends_trans [TAG_F64] _ _ _ _ A0), writeF64_spec, A0|]. intros hp.
    change (decodeTagged (decodeAny room) TAG_F64) with (let* bits := lift readF64 in dec_ret (VNumber (number_of_bits bits))).
    eapply decodes_map; [by apply decodes_lift, reads_readF64|]. apply decodes_ret.
  - injection E as <-. destruct Hn as [Hr Hb]. pose proof (appends_tag TAG_F64 w Hw ltac:(done)) as A0. exists TAG_F64, (be_encode 8 bits).
    split; [apply (appends_trans [TAG_F64] _ _ _ _ A0), writeF64_spec, A0|]. intros hp.
    change (decodeTagged (decodeAny room) TAG_F64) with (let* bits := lift readF64 in dec_ret (VNumber (number_of_bits bits))).
    eapply decodes_map; [by apply decodes_lift, reads_readF64|]. rewrite Hb. apply decodes_ret.
Qed.

Lemma string_writes room s :
  carried (VString s) → writes_value room (λ w, writeString s (writeU8 TAG_STRING w)) (VString (arrived s)).
Proof.
  intros [Hs Hwf] w w' Hw E. pose proof (appends_tag TAG_STRING w Hw ltac:(done)) as A0.
  destruct (writeString_spec s _ _ (proj1 A0) Hs E) as [A Hm]. exists TAG_STRING, (string_bytes s).
  split; [by apply (appends_trans [TAG_STRING] _ _ _ _ A0)|]. intros hp.
  change (decodeTagged (decodeAny room) TAG_STRING) with (let* s := lift readString in dec_ret (VString s)).
  eapply decodes_map; [by apply decodes_lift, reads_readString_text|]. apply decodes_ret.
Qed.

Lemma foldl_writeU8 bs w : nw_ok w → Forall is_byte bs → appends bs w (foldl (λ w d, writeU8 d w) w bs).
Proof.
  revert w. induction bs as [|b bs IH]; intros w Hw Hb; [split; [done|by rewrite app_nil_r]|]. apply Forall_cons in Hb as [Hb Hbs].
  pose proof (appends_tag b w Hw Hb) as A. apply (appends_trans [b] bs _ _ _ A), IH; [apply A|done].
Qed.

Lemma bigint_writes room z : carried (VBigint z) → writes_value room (encodeBigint z) (VBigint z).
Proof.
  intros Hz w w' Hw E. unfold encodeBigint in E. set (neg := z <? 0) in *. set (m := if neg then - z else z) in *.
  set (digits := bigint_digits _ m) in *. apply result_bind_ok in E as (w1 & E1 & [= <-]).
  assert (0 ≤ m) as Hm by (unfold m, neg; destruct (Z.ltb_spec z 0); lia).
  destruct (bigint_digits_spec (Z.to_nat (Z.log2 m + 1)) m) as [Hval Hbytes].
  { split; [done|]. rewrite Z2Nat.id by (pose proof (Z.log2_nonneg m); lia). destruct (Z.eq_dec m 0) as [->|]; [done|].
    destruct (Z.log2_spec m ltac:(lia)) as [_ H]. eapply Z.lt_le_trans; [apply H|]. rewrite Z.add_1_r.
    apply Z.pow_le_mono_l. split; [lia|done]. }
  fold digits in Hval, Hbytes. pose proof (appends_tag TAG_BIGINT w Hw ltac:(done)) as A0.
  pose proof (appends_tag (if neg then 1 else 0) _ (proj1 A0) ltac:(by destruct neg)) as A1.
  destruct (writeUvarint_spec _ _ _ (proj1 A1) E1) as [A2 Hl].
  pose proof (foldl_writeU8 (rev digits) w1 (proj1 A2) ltac:(by apply List.Forall_rev)) as A3.
  exists TAG_BIGINT, ([if neg then 1 else 0] ++ uvarint (Z.of_nat (length digits)) ++ rev digits). split.
  { apply (appends_trans [TAG_BIGINT] _ _ _ _ A0), (appends_trans _ _ _ _ _ A1). by eapply appends_trans. }
  intros hp. change (decodeTagged (decodeAny room) TAG_BIGINT) with (let* z := lift decodeBigint in dec_ret (VBigint z)).
  eapply decodes_map; [apply decodes_lift|apply decodes_ret]. unfold decodeBigint.
  eapply reads_bind; [apply reads_readU8|]. cbv beta. eapply reads_then; [apply reads_net_guard; by destruct neg|]. cbv beta.
  eapply reads_bind; [apply reads_readUvarint; lia|]. cbv beta. rewrite <-length_rev.
  eapply reads_map; [apply reads_bytes|]. cbv beta zeta. rewrite Hval.
  assert (m = Z.abs z) as Em by (unfold m, neg; destruct (Z.ltb_spec z 0); lia).
  rewrite (proj2 (Z.leb_gt _ _)) by (by rewrite Em).
  assert ((if (if neg then 1 else 0) =? 1 then - m else m) = z) as ->; [|apply reads_ret].
  unfold m, neg. destruct (Z.ltb_spec z 0); cbn; lia.
Qed.

(** *** Objects *)

(** An object without values inside. *)
Lemma leaf_encodes room a0 f :
  (∀ w w', nw_ok w → f w = Ok w' → ∃ tag bs, appends (tag :: bs) w w'
    ∧ ∀ hp final, decodes (decodeTagged (decodeAny room) tag) hp bs (VObject (length hp)) (hp ++ [rename_object final (heap a0)])) →
  object_encodes room a0 (writing f).
Proof.
  intros Hf w rs w' rs' Hw Hrs Ha E. unfold writing in E. apply result_bind_ok in E as (w1 & E & [= <- <-]). cbn [fst snd] in *.
  destruct (Hf w w1 Hw E) as (tag & bs & A & D). exists [a0], (tag :: bs). split_and!; try done; [|cbn; lia|set_solver|].
  - apply NoDup_app; split_and!; [done|set_solver|apply NoDup_singleton].
  - intros final hp Hpre Hhp. unfold value_dec. rewrite (new_address rs a0 [] final hp) by (by rewrite ?app_nil_r).
    apply decodes_tag. apply D.
Qed.

Lemma date_encodes room a0 t :
  heap a0 = ODate t →
  object_encodes room a0 (writing (λ w, Ok (writeF64 (match t with Some t => f64_of_int t | None => NAN_BITS end) (writeU8 TAG_DATE w)))).
Proof.
  intros Ho. pose proof (Hheap a0) as Hc. rewrite Ho in Hc. cbn in Hc. apply leaf_encodes. intros w w' Hw [= <-]. rewrite Ho.
  set (bits := match t with Some t => f64_of_int t | None => NAN_BITS end).
  assert (0 ≤ bits < 2 ^ 64 ∧ time_clip bits = t) as [Hb Ht].
  { unfold bits. destruct t as [t|]; [|done]. split; [|by apply time_clip_of_int]. apply f64_of_int_spec. unfold MAX_TIME in Hc. lia. }
  pose proof (appends_tag TAG_DATE w Hw ltac:(done)) as A0. exists TAG_DATE, (be_encode 8 bits).
  split; [apply (appends_trans [TAG_DATE] _ _ _ _ A0), writeF64_spec, A0|]. intros hp final.
  change (decodeTagged (decodeAny room) TAG_DATE) with
    (let* bits := lift readF64 in let* a := allocate (ODate (time_clip bits)) in dec_ret (VObject a)).
  eapply decodes_map; [by apply decodes_lift, reads_readF64|]. cbv beta. rewrite Ht.
  eapply decodes_then; [apply decodes_allocate|]. apply decodes_ret.
Qed.

Lemma binary_encodes room a0 shape bytes :
  heap a0 = OBytes shape bytes → object_encodes room a0 (writing (encodeBinary shape bytes)).
Proof.
  intros Ho. pose proof (Hheap a0) as Hc. rewrite Ho in Hc. cbn in Hc. apply leaf_encodes. intros w w' Hw E. rewrite Ho.
  unfold encodeBinary in E. destruct (subtype_of shape) as [n|] eqn:En; [|done]. destruct Hc as (size & Hsize & Hmod & Hmax & Hview).
  apply result_bind_ok in E as (w1 & E1 & [= <-]).
  assert (n < 13)%nat as Hn by (by apply lookup_lt_Some in Hsize).
  pose proof (appends_tag TAG_BYTES w Hw ltac:(done)) as A0. pose proof (appends_tag (Z.of_nat n) _ (proj1 A0) ltac:(lia)) as A1.
  destruct (writeUvarint_spec _ _ _ (proj1 A1) E1) as [A2 Hl]. pose proof (writeBytes_spec bytes w1 (proj1 A2)) as A3.
  exists TAG_BYTES, ([Z.of_nat n] ++ uvarint (Z.of_nat (length bytes)) ++ bytes). split.
  { apply (appends_trans [TAG_BYTES] _ _ _ _ A0), (appends_trans _ _ _ _ _ A1). by eapply appends_trans. }
  intros hp final. change (decodeTagged (decodeAny room) TAG_BYTES) with decodeBytes. unfold NetValue.decodeBytes.
  eapply decodes_bind; [apply decodes_lift, reads_readU8|]. cbv beta. rewrite Nat2Z.id, Hsize.
  eapply decodes_bind; [apply decodes_lift, reads_readUvarint; lia|]. cbv beta.
  eapply decodes_then; [apply decodes_lift, reads_net_guard; by apply Z.eqb_eq|]. cbv beta.
  apply decodes_rest. intros m Hm. eapply decodes_then; [apply decodes_lift, reads_net_guard|]; [by rewrite (proj2 (Z.ltb_ge _ _)) by lia|].
  eapply decodes_then; [apply decodes_lift, reads_new_buffer, Hmax|]. cbv beta.
  eapply decodes_map; [apply decodes_lift, reads_bytes|]. cbv beta.
  assert ((if Z.of_nat n =? 0 then BBuffer else BView n) = decoded_shape shape) as ->.
  { destruct shape; cbn in En; simplify_eq; try done. destruct (Z.eqb_spec (Z.of_nat n) 0); [|done]. destruct (Hview eq_refl). lia. }
  eapply decodes_then; [apply decodes_allocate|]. apply decodes_ret.
Qed.

(** *** Elements of containers *)

Lemma alter_grown (f : object → object) a o hp l : hp !! a = Some o → alter f a (hp ++ l) = <[a := f o]> hp ++ l.
Proof.
  revert a. induction hp as [|o' hp IH]; intros [|a] Ho; try done; cbn in *; [by simplify_eq|]. f_equal. by apply IH.
Qed.

(** A value read and stored. *)
Lemma value_item room v (store : value → object → object) enc K :
  encodes enc (value_dec room v) K →
  encodes enc (item_dec (λ a, let* x := decodeAny (S room) in update a (store x)) (λ final o, store (rename final v) o)) K.
Proof.
  intros H w rs w' rs' Hw Hrs E. destruct (H w rs w' rs' Hw Hrs E) as (new & bs & -> & Hnd & A & L & HK & D).
  exists new, bs. split_and!; try done. intros final hp Hpre Hhp a o Ho. eapply decodes_map; [by apply D|]. cbv beta.
  rewrite <-(alter_grown _ _ _ _ _ Ho). apply decodes_update.
Qed.

(** Two encoders in turn. *)
Lemma encodes_then e1 e2 D1 D2 D (K1 K2 : list nat → Prop) :
  (∀ walk walk', walk `prefix_of` walk' → K1 walk → K1 walk') →
  encodes e1 D1 K1 → encodes e2 D2 K2 →
  (∀ final hp bs1 bs2 l1 l2, D1 final hp bs1 l1 → D2 final (hp ++ l1) bs2 l2 → D final hp (bs1 ++ bs2) (l1 ++ l2)) →
  encodes (then_ e1 e2) D (λ rs, K1 rs ∧ K2 rs).
Proof.
  intros HK H1 H2 HD w rs w' rs' Hw Hrs E. unfold then_ in E. apply result_bind_ok in E as ([w1 rs1] & E1 & E2).
  destruct (H1 w rs w1 rs1 Hw Hrs E1) as (n1 & bs1 & -> & Hnd1 & A1 & L1 & HK1 & De1).
  destruct (H2 w1 _ w' rs' (proj1 A1) Hnd1 E2) as (n2 & bs2 & -> & Hnd2 & A2 & L2 & HK2 & De2).
  exists (n1 ++ n2), (bs1 ++ bs2). rewrite app_assoc. split_and!; try done; [by eapply appends_trans|rewrite length_app; lia|..].
  - eapply HK; [|done]. by eexists.
  - intros final hp Hpre Hhp. unfold news. rewrite fmap_app. apply HD.
    + apply De1; [|done]. etrans; [|done]. by eexists.
    + apply De2; [done|]. rewrite length_app, length_fmap, length_app. lia.
Qed.

Lemma entry_item room k v e1 e2 :
  encodes e1 (value_dec room k) (λ rs, met rs k) → encodes e2 (value_dec room v) (λ rs, met rs v) →
  encodes (then_ e1 e2)
    (item_dec (λ a, let* k := decodeAny (S room) in let* x := decodeAny (S room) in update a (set_entry k x))
       (λ final o, set_entry (rename final k) (rename final v) o)) (λ rs, met rs k ∧ met rs v).
Proof.
  intros H1 H2. eapply encodes_then; [intros; by eapply met_prefix|exact H1|exact H2|].
  intros final hp bs1 bs2 l1 l2 D1 D2 a o Ho. eapply decodes_bind; [exact D1|]. cbv beta. eapply decodes_map; [exact D2|]. cbv beta.
  rewrite <-(alter_grown _ _ _ _ _ Ho), app_assoc. apply decodes_update.
Qed.

Lemma property_item room k v e2 :
  plain k → encodes e2 (value_dec room v) (λ rs, met rs v) →
  encodes (then_ (writing (writeString k)) e2)
    (item_dec (λ a, let* k := lift readString in let* x := decodeAny (S room) in
                    if skipped_key k then dec_ret tt else update a (set_property k x))
       (λ final o, if skipped_key k then o else set_property k (rename final v) o)) (λ rs, True ∧ met rs v).
Proof.
  intros Hk H2.
  eapply (encodes_then _ _ (λ _ _ bs l, l = [] ∧ reads readString bs k) _ _ (λ _, True)); [done| |exact H2|].
  - intros w rs w' rs' Hw Hrs E. unfold writing in E. apply result_bind_ok in E as (w1 & E & [= <- <-]). cbn [fst snd] in *.
    destruct (writeString_spec k w w1 Hw (proj1 Hk) E) as [A Hm]. exists [], (string_bytes k). rewrite app_nil_r. split_and!; try done.
    + unfold string_bytes. rewrite length_app. cbn [uvarint_bytes]. destruct (_ <? _); cbn; lia.
    + intros final hp _ _. split; [done|]. by apply reads_readString.
  - intros final hp bs1 bs2 l1 l2 [-> D1] D2 a o Ho. eapply decodes_bind; [by apply decodes_lift|]. cbv beta.
    rewrite app_nil_r in D2. eapply decodes_map; [exact D2|]. cbv beta. cbn [app].
    destruct (skipped_key k); [rewrite list_insert_id by done; apply decodes_ret|]. rewrite <-(alter_grown _ _ _ _ _ Ho). apply decodes_update.
Qed.
(** *** Filling an empty container *)

Lemma fill_array final l o :
  foldl (λ o x, push_item (rename final x) o) (OArray o) l = OArray (o ++ (rename final <$> l)).
Proof. revert o. induction l as [|x l IH]; intros o; cbn; [by rewrite app_nil_r|]. by rewrite IH, <-app_assoc. Qed.

Lemma norm_rename final v : norm_key v = v → norm_key (rename final v) = rename final v.
Proof. by destruct v. Qed.

Lemma foldl_filter {A B} (keep : A → bool) (f : B → A → B) l b :
  foldl (λ b x, if keep x then b else f b x) b l = foldl f b (filter (λ x, keep x = false) l).
Proof.
  revert b. induction l as [|x l IH]; intros b; [done|]. cbn [foldl]. rewrite filter_cons, IH. by destruct (keep x).
Qed.

Lemma fill_set final l o :
  Forall (λ v, norm_key v = v) l → NoDup (o ++ (rename final <$> l)) →
  foldl (λ o x, add_item (rename final x) o) (OSet o) l = OSet (o ++ (rename final <$> l)).
Proof.
  revert o. induction l as [|x l IH]; intros o Hn Hd; cbn; [by rewrite app_nil_r|]. apply Forall_cons in Hn as [Hx Hn].
  rewrite (norm_rename _ _ Hx). cbn in Hd. rewrite (cons_middle (rename final x)) in Hd.
  assert (rename final x ∉ o) as Hout by (apply NoDup_app in Hd as (_ & Hd & _); set_solver).
  unfold set_add. rewrite decide_False by done. rewrite app_assoc in Hd. rewrite IH by done. by rewrite <-app_assoc.
Qed.

Lemma fill_map final l o :
  Forall (λ e : value * value, norm_key e.1 = e.1) l → NoDup (o.*1 ++ ((λ e : value * value, rename final e.1) <$> l)) →
  foldl (λ o e, set_entry (rename final e.1) (rename final e.2) o) (OMap o) l
  = OMap (o ++ ((λ e : value * value, (rename final e.1, rename final e.2)) <$> l)).
Proof.
  revert o. induction l as [|[k x] l IH]; intros o Hn Hd; cbn; [by rewrite app_nil_r|]. apply Forall_cons in Hn as [Hk Hn].
  cbn in Hk, Hd. rewrite (norm_rename _ _ Hk). rewrite (cons_middle (rename final k)) in Hd.
  assert (rename final k ∉ o.*1) as Hout by (apply NoDup_app in Hd as (_ & Hd & _); set_solver).
  rewrite jm_set_new by done. rewrite app_assoc in Hd. rewrite IH; [by rewrite <-app_assoc|done|]. by rewrite fmap_app.
Qed.

Lemma put_index_last i k x l :
  array_index k = Some i → Forall (λ e, listed_before e (k, x)) l → put_index i k x l = l ++ [(k, x)].
Proof.
  intros Hk. induction 1 as [|[k' x'] l Hb Hl IH]; [done|]. cbn [put_index]. unfold listed_before in Hb. cbn in Hb. rewrite Hk in Hb.
  destruct (array_index k') as [j|]; [|done]. rewrite (proj2 (Z.ltb_lt _ _)) by done. by rewrite IH.
Qed.

Lemma put_property_last k x l :
  k ∉ l.*1 → Forall (λ e, listed_before e (k, x)) l → put_property k x l = l ++ [(k, x)].
Proof.
  intros Hk Hl. unfold put_property, jm_has. rewrite (proj2 (jm_get_None k l)) by done.
  destruct (array_index k) as [i|] eqn:E; [|done]. by apply put_index_last.
Qed.

Lemma fill_object final l o :
  NoDup (o.*1 ++ l.*1) → StronglySorted listed_before (o ++ ((λ e : jsstring * value, (e.1, rename final e.2)) <$> l)) →
  foldl (λ o e, set_property e.1 (rename final e.2) o) (OPlain o) l
  = OPlain (o ++ ((λ e : jsstring * value, (e.1, rename final e.2)) <$> l)).
Proof.
  revert o. induction l as [|[k x] l IH]; intros o Hd Hs; cbn; [by rewrite app_nil_r|].
  cbn in Hd, Hs. rewrite (cons_middle k) in Hd. rewrite cons_middle in Hs.
  assert (k ∉ o.*1) as Hout by (apply NoDup_app in Hd as (_ & Hd & _); set_solver).
  rewrite put_property_last; [|done|].
  - rewrite app_assoc in Hd, Hs. rewrite IH; [by rewrite <-app_assoc|by rewrite fmap_app|done].
  - apply Forall_forall. intros e He. eapply StronglySorted_app_1_elem_of; [exact Hs|done|]. set_solver.
Qed.

(** *** The whole walk *)

(** An object met for the first time. *)
Lemma object_encodes_all room a0 :
  (∀ v, carried v → encodes (encodeAny heap room v) (value_dec room v) (λ rs, met rs v)) →
  object_encodes (S room) a0 (encodeContents (encodeAny heap room) (heap a0)).
Proof.
  intros IH. pose proof (Hheap a0) as Hc. destruct (heap a0) as [l|l|l|t|shape bytes| |l] eqn:Ho; cbn [encodeContents carried_object] in *.
  - eapply (container_encodes _ _ _ (OArray []) _ _ (λ x final o, push_item (rename final x) o) (λ x rs, met rs x)); [done|done|..].
    + intros; by eapply met_prefix.
    + eapply Forall_impl; [apply Hc|]. intros x Hx. apply value_item, IH, Hx.
    + intros final _. rewrite Ho. apply fill_array.
  - destruct Hc as [Hc Hd].
    eapply (container_encodes _ _ _ (OMap []) _ _ (λ e final o, set_entry (rename final e.1) (rename final e.2) o)
      (λ e rs, met rs e.1 ∧ met rs e.2)); [done|done|..].
    + intros e walk walk' Hp [H1 H2]. split; by eapply met_prefix.
    + eapply Forall_impl; [apply Hc|]. intros e (H1 & H2 & _). apply entry_item; by apply IH.
    + intros final Hm. rewrite Ho. apply fill_map; [eapply Forall_impl; [apply Hc|]; by intros e (_ & _ & ? & _)|]. cbn.
      change (λ e : value * value, rename final e.1) with (rename final ∘ (fst : value * value → value)).
      rewrite list_fmap_compose. apply rename_NoDup; [..|done]; apply Forall_fmap; eapply Forall_impl; [apply Hm| |apply Hc|].
      * by intros e [? _].
      * by intros e (_ & _ & _ & ?).
  - destruct Hc as [Hc Hd].
    eapply (container_encodes _ _ _ (OSet []) _ _ (λ x final o, add_item (rename final x) o) (λ x rs, met rs x)); [done|done|..].
    + intros; by eapply met_prefix.
    + eapply Forall_impl; [apply Hc|]. intros x [Hx _]. apply value_item, IH, Hx.
    + intros final Hm. rewrite Ho. apply fill_set; [eapply Forall_impl; [apply Hc|]; by intros e (_ & ? & _)|]. apply rename_NoDup; [done| |done]. eapply Forall_impl; [apply Hc|]. by intros e (_ & _ & ?).
  - by apply date_encodes.
  - by apply binary_encodes.
  - intros w rs w' rs' _ _ _ E. done.
  - destruct Hc as (Hc & Hd & Hs).
    eapply (container_encodes _ _ _ (OPlain []) _ _ (λ e final o, if skipped_key e.1 then o else set_property e.1 (rename final e.2) o)
      (λ e rs, True ∧ met rs e.2)); [done|done|..].
    + intros e walk walk' Hp [_ H2]. split; [done|]. by eapply met_prefix.
    + eapply Forall_impl; [apply Hc|]. intros e (H1 & H2). by apply property_item; [..|apply IH].
    + intros final _. rewrite Ho, (foldl_filter (λ e, skipped_key e.1) (λ o e, set_property e.1 (rename final e.2) o)).
      apply (StronglySorted_filter _ (λ e, skipped_key e.1 = false)) in Hs. apply fill_object.
      { cbn. eapply sublist_NoDup; [exact Hd|]. apply fmap_sublist, sublist_filter. }
      cbn. revert Hs. generalize (filter (λ e : jsstring * value, skipped_key e.1 = false) l). clear. intros l Hs.
      induction Hs as [|e l Hs IH Hf]; cbn; constructor; [done|]. apply Forall_fmap. eapply Forall_impl; [apply Hf|]. done.
Qed.

(** An object met before. *)
Lemma ref_encodes room a seen w rs w' rs' :
  nw_ok w → NoDup rs → ref_index a rs = Some seen → writeHead TAG_REF (Z.of_nat seen) (w, rs) = Ok (w', rs') →
  ∃ new bs, rs' = rs ++ new ∧ NoDup rs' ∧ appends bs w w' ∧ (1 ≤ length bs)%nat ∧ met rs' (VObject a) ∧
    ∀ final hp, rs' `prefix_of` final → length hp = length rs → value_dec room (VObject a) final hp bs (news final new).
Proof.
  intros Hw Hrs Hi E. apply writeHead_spec in E as (-> & A & Hc); [|done..]. pose proof (ref_index_Some _ _ _ Hi) as [Hl Hlt].
  exists [], (TAG_REF :: uvarint (Z.of_nat seen)). rewrite app_nil_r. split_and!; try done; [cbn; lia|by eapply list_elem_of_lookup_2|].
  intros final hp [l ->] Hhp. unfold value_dec. cbn [rename news fmap list_fmap]. rewrite (ref_index_app _ _ _ _ Hi), app_nil_r.
  apply decodes_tag. unfold NetValue.decodeTagged. cbn [Z.eqb TAG_REF TAG_NULL TAG_UNDEFINED TAG_FALSE TAG_TRUE TAG_INT TAG_F64 TAG_STRING
    TAG_BIGINT TAG_DATE TAG_BYTES TAG_ARRAY TAG_OBJECT TAG_MAP TAG_SET Pos.eqb].
  eapply decodes_map; [by apply decodes_lift, reads_readUvarint|]. cbv beta. unfold decodes. cbn [built bl_refs].
  rewrite length_seq, Hhp, (proj2 (Z.leb_gt _ _)) by lia. rewrite Nat2Z.id, lookup_seq_lt by lia. apply reads_ret.
Qed.

(** Every value: what the encoder writes with [room] levels left, the decoder reads with
    one more. *)
Lemma encodeAny_encodes room v :
  carried v → encodes (encodeAny heap room v) (value_dec room v) (λ rs, met rs v).
Proof.
  revert v. induction room as [|room IH]; intros v Hv w rs w' rs' Hw Hrs E; destruct v as [| |b|n|s|z|a|]; cbn [encodeAny snd] in E.
  1,9: refine (primitive_encodes _ _ VNull VNull _ (constant_writes _ TAG_NULL VNull _ _) w rs w' rs' Hw Hrs E); done.
  1,8: refine (primitive_encodes _ _ VUndefined VUndefined _ (constant_writes _ TAG_UNDEFINED VUndefined _ _) w rs w' rs' Hw Hrs E); done.
  1,7: refine (primitive_encodes _ _ (VBoolean b) (VBoolean b) _ (constant_writes _ (if b then TAG_TRUE else TAG_FALSE) (VBoolean b) _ _)
         w rs w' rs' Hw Hrs E); by destruct b.
  1,6: refine (primitive_encodes _ _ (VNumber n) (VNumber n) _ (number_writes _ n Hv) w rs w' rs' Hw Hrs E); done.
  1,5: refine (primitive_encodes _ _ (VString s) (VString (arrived s)) _ (string_writes _ s Hv) w rs w' rs' Hw Hrs E); done.
  1,4: refine (primitive_encodes _ _ (VBigint z) (VBigint z) _ (bigint_writes _ z Hv) w rs w' rs' Hw Hrs E); done.
  2,4: done.
  - destruct (ref_index a rs) as [seen|] eqn:Ei; [by eapply ref_encodes|done].
  - destruct (ref_index a rs) as [seen|] eqn:Ei; [by eapply ref_encodes|]. apply ref_index_None in Ei.
    by apply (object_encodes_all room a IH).
Qed.
End encoder.

(** ** More room changes nothing *)

Lemma each_mono {A} (f g : A → Encoder) l s r :
  (∀ x s r, f x s = Ok r → g x s = Ok r) → each f l s = Ok r → each g l s = Ok r.
Proof.
  intros H. revert s. induction l as [|x l IH]; intros s E; cbn in *; [done|].
  apply result_bind_ok in E as (s1 & E1 & E). rewrite (H _ _ _ E1). by apply IH.
Qed.

Lemma then_mono (f f' g g' : Encoder) s r :
  (∀ s r, f s = Ok r → f' s = Ok r) → (∀ s r, g s = Ok r → g' s = Ok r) → then_ f g s = Ok r → then_ f' g' s = Ok r.
Proof. intros Hf Hg E. unfold then_ in *. apply result_bind_ok in E as (s1 & E1 & E). rewrite (Hf _ _ E1). by apply Hg. Qed.

Lemma encodeContents_mono (f g : value → Encoder) o s r :
  (∀ x s r, f x s = Ok r → g x s = Ok r) → encodeContents f o s = Ok r → encodeContents g o s = Ok r.
Proof.
  intros H. destruct o; cbn [encodeContents]; try done; apply then_mono; try done; intros s' r'; apply each_mono; try done.
  - intros e s1 r1. apply then_mono; auto.
  - intros e s1 r1. apply then_mono; auto.
Qed.

Lemma encodeAny_mono heap room v s r : encodeAny heap room v s = Ok r → encodeAny heap (S room) v s = Ok r.
Proof.
  revert v s r. induction room as [|room IH]; intros v s r E; destruct v; try done; cbn [encodeAny] in *.
  - by destruct (ref_index address s.2).
  - destruct (ref_index address s.2); [done|]. eapply encodeContents_mono; [|exact E]. intros x s' r'. apply IH.
Qed.

(** ** What decoding costs *)

(** The slots of the built objects: each object, item, entry, property and byte is one. *)
Definition object_weight (o : object) : nat :=
  match o with
  | OArray l | OSet l => length l
  | OMap l => length l
  | OBytes _ bytes => length bytes
  | OPlain l => length l
  | ODate _ | OShared => 0
  end.
Definition weight (h : list object) : nat := sum_list_with (λ o, S (object_weight o)) h.

(** The reader has moved on over the same bytes, and not past their end. *)
Definition advances (r r' : ByteReader) : Prop :=
  rd_bytes r' = rd_bytes r ∧ (rd_offset r ≤ rd_offset r')%nat
  ∧ ((rd_offset r ≤ length (rd_bytes r))%nat → (rd_offset r' ≤ length (rd_bytes r'))%nat).

#[local] Instance advances_preorder : PreOrder advances.
Proof. split; [by intros r|]. intros r1 r2 r3 (H1 & H2 & H3) (H4 & H5 & H6). split_and!; [congruence|lia|auto]. Qed.

(** Bytes a receiver can hold. *)
Definition received (bytes : list Z) : Prop := Forall is_byte bytes ∧ Z.of_nat (length bytes) ≤ maxBuffer.

(** The errors decoding may end with. *)
Definition refused (bytes : list Z) (e : js_error) : Prop :=
  (∃ message, e = ValueDecodeError message)
  ∨ (e = RangeError "Maximum BigInt size exceeded" ∧ 2 ^ 27 < Z.of_nat (length bytes)).

(** [d] throws nothing else; when it returns, it has consumed at least [n] bytes more than
    the slots it has added, for a negative [n] at most that many fewer. *)
Definition costs {A} (n : Z) (d : Decoder A) : Prop :=
  ∀ b r, received (rd_bytes r) →
         match d b r with
         | Ok ((_, b'), r') => advances r r'
             ∧ Z.of_nat (weight (bl_heap b') + rd_offset r) + n ≤ Z.of_nat (weight (bl_heap b) + rd_offset r')
         | Throw e => refused (rd_bytes r) e
         end.

(** A reader does, and consumes at least [n] bytes. *)
Definition reader_costs {A} (n : nat) (rd : Reader A) : Prop :=
  ∀ r, received (rd_bytes r) →
       match rd r with
       | Ok (_, r') => advances r r' ∧ (rd_offset r + n ≤ rd_offset r')%nat
       | Throw e => refused (rd_bytes r) e
       end.

Lemma refused_decode bytes message : refused bytes (ValueDecodeError message).
Proof. left. by eexists. Qed.

Lemma reader_ret {A} (a : A) : reader_costs 0 (mret a).
Proof. intros r _. cbn. split; [done|lia]. Qed.

Lemma reader_bind {A C} n m (rd : Reader A) (k : A → Reader C) :
  reader_costs n rd → (∀ a, reader_costs m (k a)) → reader_costs (n + m) (rd ≫= k).
Proof.
  intros H1 H2 r Hr. specialize (H1 r Hr). unfold mbind, Reader_bind. destruct (rd r) as [[a r1]|e]; [|done].
  destruct H1 as [Ha Hn]. pose proof (proj1 Ha) as Hb. specialize (H2 a r1). rewrite Hb in H2. specialize (H2 Hr).
  destruct (k a r1) as [[c r2]|e]; [|done]. destruct H2. split; [by etrans|lia].
Qed.

Lemma reader_weaken {A} n m (rd : Reader A) : (m ≤ n)%nat → reader_costs n rd → reader_costs m rd.
Proof. intros Hn H r Hr. specialize (H r Hr). destruct (rd r) as [[a r1]|e]; [|done]. destruct H. split; [done|lia]. Qed.

Lemma reader_guard ok message : reader_costs 0 (net_guard ok message).
Proof. intros r _. unfold net_guard. destruct ok; [split; [done|lia]|apply refused_decode]. Qed.

Lemma reader_fail {A} n message : reader_costs n (net_fail (A := A) message).
Proof. intros r _. apply refused_decode. Qed.

Lemma readBytes_advances count r :
  count ≤ Z.of_nat (remaining r) → advances r (MkReader (rd_bytes r) (rd_offset r + Z.to_nat count)).
Proof. intros H. unfold remaining in H. split_and!; cbn; [done|lia..]. Qed.

Lemma reader_bytes count : reader_costs (Z.to_nat count) (readBytes count).
Proof.
  intros r _. unfold readBytes. destruct (Z.ltb_spec (Z.of_nat (remaining r)) count); [apply refused_decode|].
  by split; [apply readBytes_advances|cbn].
Qed.

Lemma reader_U8 : reader_costs 1 readU8.
Proof. apply (reader_bind 1 0); [apply (reader_bytes 1)|intros; apply reader_ret]. Qed.

Lemma reader_F64 : reader_costs 8 readF64.
Proof. apply (reader_bind 8 0); [apply (reader_bytes 8)|intros; apply reader_ret]. Qed.

Lemma reader_groups g value scale : reader_costs 1 (uvarint_groups g value scale).
Proof.
  revert value scale. induction g as [|g IH]; intros value scale; [apply reader_fail|].
  cbn [uvarint_groups]. apply (reader_bind 1 0); [apply (reader_bytes 1)|]. intros bs. cbv zeta. destruct (_ =? 0).
  - apply (reader_bind 0 0); [apply reader_guard|intros; apply reader_ret].
  - eapply (reader_weaken 1); [lia|]. apply IH.
Qed.

Lemma reader_uvarint : reader_costs 1 readUvarint.
Proof. apply reader_groups. Qed.

Lemma reader_string : reader_costs 1 readString.
Proof.
  apply (reader_bind 1 0); [apply reader_uvarint|]. intros n. eapply (reader_weaken (Z.to_nat n + 0)); [lia|].
  apply reader_bind; [apply reader_bytes|]. intros bs. destruct (_ && _); [apply reader_ret|].
  destruct (text_decode bs); [apply reader_ret|apply reader_fail].
Qed.

(** The digits' value has at most eight bits for each. *)
Lemma digits_bound digits v n :
  Forall is_byte digits → 0 ≤ v < 256 ^ n → 0 ≤ n →
  0 ≤ foldl (λ v d, Z.lor (Z.shiftl v 8) d) v digits < 256 ^ (n + Z.of_nat (length digits)).
Proof.
  revert v n. induction digits as [|d digits IH]; intros v n Hd Hv Hn; cbn [foldl length]; [by rewrite Z.add_0_r|].
  apply Forall_cons in Hd as [Hb Hd]. rewrite Nat2Z.inj_succ, <-Z.add_succ_comm. apply IH; [done| |lia].
  unfold is_byte in Hb. rewrite Z.shiftl_mul_pow2 by lia. change (2 ^ 8) with 256. rewrite Z.pow_succ_r by done.
  assert (0 ≤ Z.lor (v * 256) d) by (apply Z.lor_nonneg; lia).
  pose proof (Z.add_lor_land (v * 256) d). assert (0 ≤ Z.land (v * 256) d) by (apply Z.land_nonneg; lia). nia.
Qed.

Lemma reader_digits n (k : Z → Z) :
  reader_costs 0 (digits ← readBytes n;
    let value := foldl (λ value d, Z.lor (Z.shiftl value 8) d) 0 digits in
    if MAX_BIGINT_BITS <=? Z.log2 value then read_throw (RangeError "Maximum BigInt size exceeded") else mret (k value)).
Proof.
  intros r [Hbytes _]. unfold mbind, Reader_bind, readBytes.
  destruct (Z.ltb_spec (Z.of_nat (remaining r)) n); [apply refused_decode|]. set (digits := take _ _). cbv zeta.
  assert (Forall is_byte digits) as Hd by (by apply Forall_take, Forall_drop).
  assert (length digits ≤ length (rd_bytes r))%nat as Hl by (unfold digits; rewrite length_take, length_drop; lia).
  pose proof (digits_bound digits 0 0 Hd ltac:(cbn; lia) ltac:(done)) as Hv. rewrite Z.add_0_l in Hv.
  set (value := foldl _ 0 digits) in *. destruct (Z.leb_spec MAX_BIGINT_BITS (Z.log2 value)) as [Hbig|].
  - right. split; [done|]. unfold MAX_BIGINT_BITS in Hbig.
    assert (0 < value) as Hpos by (destruct (Z.eq_dec value 0) as [E|]; [rewrite E in Hbig; by cbn in Hbig|lia]).
    assert (Z.log2 value < 8 * Z.of_nat (length digits)); [|lia].
    apply Z.log2_lt_pow2; [done|]. rewrite Z.pow_mul_r by lia. change (2 ^ 8) with 256. apply Hv.
  - split; [|cbn; lia]. by apply readBytes_advances.
Qed.

Lemma reader_bigint : reader_costs 1 decodeBigint.
Proof.
  apply (reader_bind 1 0); [apply reader_U8|]. intros s. apply (reader_bind 0 0); [apply reader_guard|]. intros _.
  eapply (reader_weaken (1 + 0)); [lia|]. apply reader_bind; [apply reader_uvarint|]. intros n.
  apply (reader_digits n (λ value, if s =? 1 then - value else value)).
Qed.

Lemma reader_count : reader_costs 1 readCount.
Proof.
  apply (reader_bind 1 0); [apply reader_uvarint|]. intros n. apply (reader_bind 0 0).
  - intros r _. cbn. split; [done|lia].
  - intros m. apply (reader_bind 0 0); [apply reader_guard|intros; apply reader_ret].
Qed.

Lemma costs_ret {A} (a : A) : costs 0 (dec_ret a).
Proof. intros b r _. cbn. split; [done|lia]. Qed.

Lemma costs_bind {A C} n m (d : Decoder A) (k : A → Decoder C) :
  costs n d → (∀ a, costs m (k a)) → costs (n + m) (dec_bind d k).
Proof.
  intros H1 H2 b r Hr. specialize (H1 b r Hr). unfold dec_bind, mbind, Reader_bind. destruct (d b r) as [[[a b1] r1]|e]; [|done].
  destruct H1 as [Ha ?]. pose proof (proj1 Ha) as Hb. specialize (H2 a b1 r1). rewrite Hb in H2. specialize (H2 Hr).
  cbn [fst snd]. destruct (k a b1 r1) as [[[c b2] r2]|e]; [|done]. destruct H2 as [? ?]. split; [by etrans|lia].
Qed.

Lemma costs_lift {A} n (rd : Reader A) : reader_costs n rd → costs (Z.of_nat n) (lift rd).
Proof.
  intros H b r Hr. specialize (H r Hr). unfold lift, mbind, Reader_bind. destruct (rd r) as [[a r1]|e]; [|done]. destruct H.
  cbn. split; [done|lia].
Qed.

Lemma costs_weaken {A} n m (d : Decoder A) : m ≤ n → costs n d → costs m d.
Proof.
  intros Hn H b r Hr. specialize (H b r Hr). destruct (d b r) as [[[a b1] r1]|e]; [|done]. destruct H as [? ?]. split; [done|lia].
Qed.

Lemma weight_app h1 h2 : weight (h1 ++ h2) = (weight h1 + weight h2)%nat.
Proof. apply sum_list_with_app. Qed.

Lemma weight_alter f a h : (∀ o, object_weight (f o) ≤ S (object_weight o))%nat → (weight (alter f a h) ≤ S (weight h))%nat.
Proof.
  intros Hf. revert a. induction h as [|o h IH]; intros [|a]; cbn; [lia..|specialize (Hf o); lia|]. specialize (IH a).
  change (list_alter f a h) with (alter f a h). fold (weight (alter f a h)). fold (weight h). lia.
Qed.

Lemma costs_allocate o : costs (- Z.of_nat (S (object_weight o))) (allocate o).
Proof. intros b r _. unfold allocate. cbn [mret Reader_ret bl_heap]. rewrite weight_app. cbn [weight sum_list_with]. split; [done|lia]. Qed.

Lemma costs_update a f : (∀ o, object_weight (f o) ≤ S (object_weight o))%nat → costs (-1) (update a f).
Proof.
  intros Hf b r _. unfold update. cbn [mret Reader_ret bl_heap]. pose proof (weight_alter f a (bl_heap b) Hf). split; [done|lia].
Qed.

Lemma costs_times n d : costs 0 d → costs 0 (times n d).
Proof. intros H. induction n as [|n IH]; [apply costs_ret|]. by apply (costs_bind 0 0). Qed.

Lemma costs_container o body : object_weight o = 0%nat → (∀ a, costs 0 (body a)) → costs 0 (decodeContainer o body).
Proof.
  intros Ho Hb. unfold decodeContainer. apply (costs_bind 1 (-1)); [apply (costs_lift 1), reader_count|]. intros count.
  apply (costs_bind (-1) 0); [pose proof (costs_allocate o) as H; by rewrite Ho in H|]. intros a.
  apply (costs_bind 0 0); [by apply costs_times|]. intros _. apply costs_ret.
Qed.

Lemma jm_set_weight {K V} `{EqDecision K} (k : K) (v : V) m : (length (jm_set k v m) ≤ S (length m))%nat.
Proof. induction m as [|[k' v'] m IH]; cbn; [lia|]. destruct (decide _); cbn; lia. Qed.

Lemma put_property_weight k x l : (length (put_property k x l) ≤ S (length l))%nat.
Proof.
  unfold put_property. destruct (jm_has k l); [apply jm_set_weight|]. destruct (array_index k) as [i|]; [|rewrite length_app; cbn; lia].
  induction l as [|[k' x'] l IH]; cbn; [lia|]. destruct (array_index k') as [j|]; [destruct (j <? i)|]; cbn; lia.
Qed.

(** A binary object is allocated once its bytes are known to be there, and they are read. *)
Lemma costs_binary n message (k : list Z → object) :
  (∀ bs, object_weight (k bs) = length bs) →
  costs (-1)
    (let* rest := lift net_remaining in
     let* _ := lift (net_guard (negb (rest <? n)) message) in
     let* _ := lift (new_buffer maxBuffer n) in
     let* bytes := lift (readBytes n) in let* a := allocate (k bytes) in dec_ret (VObject a)).
Proof.
  intros Hk b r [_ Hmax].
  unfold dec_bind, lift, mbind, Reader_bind, net_remaining, net_guard, new_buffer, allocate, readBytes, dec_ret, mret, Reader_ret.
  cbn [fst snd]. destruct (Z.ltb_spec (Z.of_nat (remaining r)) n) as [|Hn]; [apply refused_decode|]. cbn [negb fst snd].
  rewrite (proj2 (Z.ltb_ge maxBuffer n)) by (unfold remaining in Hn; lia).
  cbn [fst snd]. rewrite (proj2 (Z.ltb_ge _ _)) by done. cbn [fst snd bl_heap rd_offset rd_bytes]. rewrite weight_app. cbn [weight sum_list_with]. rewrite Hk, length_take. split; [by apply readBytes_advances|lia].
Qed.

Lemma costs_decodeBytes : costs 0 decodeBytes.
Proof.
  unfold NetValue.decodeBytes. apply (costs_bind 1 (-1)); [apply (costs_lift 1), reader_U8|]. intros subtype.
  destruct (byteShapes !! _) as [size|]; [|apply (costs_weaken 0); [lia|]; apply (costs_lift 0), reader_fail].
  apply (costs_weaken 0); [lia|]. apply (costs_bind 1 (-1)); [apply (costs_lift 1), reader_uvarint|]. intros n.
  apply (costs_bind 0 (-1)); [apply (costs_lift 0), reader_guard|]. intros _. by apply costs_binary.
Qed.

Lemma costs_tagged decode tag : costs 1 decode → costs 0 (decodeTagged decode tag).
Proof.
  intros Hd. assert (∀ a f, (∀ x o, object_weight (f x o) ≤ S (object_weight o))%nat → costs 0 (let* x := decode in update a (f x))) as Hput.
  { intros a f Hf. apply (costs_bind 1 (-1)); [done|]. intros x. by apply costs_update. }
  unfold NetValue.decodeTagged. repeat (match goal with |- context [if ?b =? ?c then _ else _] => destruct (b =? c) end; [try apply costs_ret|]).
  - apply (costs_weaken (1 + 0)); [lia|]. apply costs_bind; [apply (costs_lift 1), reader_uvarint|]. intros z.
    apply (costs_bind 0 0); [apply (costs_lift 0), reader_guard|intros; apply costs_ret].
  - apply (costs_weaken (8 + 0)); [lia|]. apply costs_bind; [apply (costs_lift 8), reader_F64|intros; apply costs_ret].
  - apply (costs_weaken (1 + 0)); [lia|]. apply costs_bind; [apply (costs_lift 1), reader_string|intros; apply costs_ret].
  - apply (costs_weaken (1 + 0)); [lia|]. apply costs_bind; [apply (costs_lift 1), reader_bigint|intros; apply costs_ret].
  - apply (costs_weaken (8 + (-1 + 0))); [lia|]. apply costs_bind; [apply (costs_lift 8), reader_F64|]. intros bits.
    apply costs_bind; [exact (costs_allocate (ODate (time_clip bits)))|intros; apply costs_ret].
  - apply costs_decodeBytes.
  - apply costs_container; [done|]. intros a. apply Hput. intros x []; cbn; rewrite ?length_app; cbn; lia.
  - apply costs_container; [done|]. intros a. apply (costs_weaken (1 + 0)); [lia|].
    apply costs_bind; [apply (costs_lift 1), reader_string|]. intros k. apply (costs_bind 1 (-1)); [done|]. intros x.
    destruct (skipped_key k); [apply (costs_weaken 0); [lia|apply costs_ret]|]. apply costs_update.
    intros []; cbn; try lia. apply put_property_weight.
  - apply costs_container; [done|]. intros a. apply (costs_weaken (1 + 0)); [lia|]. apply costs_bind; [done|]. intros k.
    apply Hput. intros x []; cbn; try lia. apply jm_set_weight.
  - apply costs_container; [done|]. intros a. apply Hput. intros x []; cbn; try lia. unfold set_add.
    destruct (decide _); [lia|rewrite length_app; cbn; lia].
  - apply (costs_weaken (1 + 0)); [lia|]. apply costs_bind; [apply (costs_lift 1), reader_uvarint|]. intros i b r _.
    destruct (_ <=? _); [apply refused_decode|]. cbn. split; [done|lia].
  - apply (costs_lift 0), reader_fail.
Qed.

Lemma costs_decodeAny room : costs 1 (decodeAny room).
Proof.
  induction room as [|room IH]; [apply (costs_lift 1), reader_fail|]. cbn [NetValue.decodeAny].
  apply (costs_bind 1 0); [apply (costs_lift 1), reader_U8|]. intros tag. by apply costs_tagged.
Qed.

(** A read that succeeds, and what follows. *)
Lemma lift_reads {A C} (rd : Reader A) (k : A → Decoder C) bs a b pre suf :
  reads rd bs a →
  dec_bind (lift rd) k b (MkReader (pre ++ bs ++ suf) (length pre)) = k a b (MkReader (pre ++ bs ++ suf) (length pre + length bs)).
Proof. intros H. unfold dec_bind, lift, mbind, Reader_bind. by rewrite (H pre suf). Qed.

(** A container that promises more than there is left. *)
Lemma count_refused room b pre tag count rest :
  tag ∈ [TAG_ARRAY; TAG_OBJECT; TAG_MAP; TAG_SET] → 0 ≤ count ≤ MAX_SAFE_INTEGER → Z.of_nat (length rest) < count →
  decodeAny (S room) b (MkReader (pre ++ [tag] ++ uvarint count ++ rest) (length pre))
  = Throw (ValueDecodeError "count exceeds the remaining input").
Proof.
  intros Ht Hc Hr. cbn [NetValue.decodeAny]. rewrite (lift_reads _ _ [tag] tag) by apply reads_readU8.
  assert (∃ o body, decodeTagged (decodeAny room) tag = decodeContainer o body) as (o & body & ->).
  { repeat (apply elem_of_cons in Ht as [->|Ht]; [by do 2 eexists|]). by apply not_elem_of_nil in Ht. }
  unfold decodeContainer, dec_bind, lift, readCount, net_remaining, net_guard, mret, Reader_ret, mbind, Reader_bind.
  pose proof (reads_readUvarint count Hc (pre ++ [tag]) rest) as R. rewrite length_app, <-!app_assoc in R. rewrite R.
  unfold remaining. cbn [fst snd rd_bytes rd_offset]. rewrite !length_app. cbn [length].
  by rewrite (proj2 (Z.ltb_lt _ _)) by lia.
Qed.

(** A binary object that does. *)
Lemma bytes_refused room b pre n size count rest :
  byteShapes !! n = Some size → 0 ≤ count ≤ MAX_SAFE_INTEGER → count mod size = 0 → Z.of_nat (length rest) < count →
  decodeAny (S room) b (MkReader (pre ++ [TAG_BYTES; Z.of_nat n] ++ uvarint count ++ rest) (length pre))
  = Throw (ValueDecodeError "truncated input").
Proof.
  intros Hn Hc Hm Hr. cbn [NetValue.decodeAny]. change (pre ++ [TAG_BYTES; Z.of_nat n] ++ uvarint count ++ rest)
    with (pre ++ [TAG_BYTES] ++ [Z.of_nat n] ++ uvarint count ++ rest). rewrite (lift_reads _ _ [TAG_BYTES] TAG_BYTES) by apply reads_readU8.
  change (decodeTagged (decodeAny room) TAG_BYTES) with decodeBytes. unfold NetValue.decodeBytes.
  rewrite app_assoc, <-(length_app pre [TAG_BYTES]). rewrite (lift_reads _ _ [Z.of_nat n] (Z.of_nat n)) by apply reads_readU8.
  rewrite Nat2Z.id, Hn, app_assoc, <-(length_app _ [Z.of_nat n]). rewrite (lift_reads _ _ (uvarint count) count) by (by apply reads_readUvarint).
  unfold dec_bind, lift, net_remaining, net_guard, mret, Reader_ret, mbind, Reader_bind. rewrite (proj2 (Z.eqb_eq _ _)) by done.
  unfold remaining. cbn [fst snd rd_bytes rd_offset]. rewrite !length_app. cbn [length]. by rewrite (proj2 (Z.ltb_lt _ _)) by lia.
Qed.

(** What the decoder makes of the encoder's bytes. *)
Lemma graph_arrives heap v capacity w walk :
  (∀ a, carried_object (heap a)) → carried v →
  encodeAny heap (MAX_DEPTH - 1) v (new_NetWriter capacity, []) = Ok (w, walk) →
  NoDup walk ∧ decodeValue (new_ByteReader (nw_out w))
    = Ok ((rename walk v, (λ a, rename_object walk (heap a)) <$> walk), MkReader (nw_out w) (length (nw_out w))).
Proof.
  intros Hheap Hv E. destruct (new_NetWriter_ok capacity) as [Hw Hout].
  destruct (encodeAny_encodes heap Hheap _ v Hv _ _ _ _ Hw (NoDup_nil_2) E) as (new & bs & Hwalk & Hnd & A & _ & _ & D).
  cbn [app] in Hwalk. subst walk. split; [done|]. destruct A as [_ A]. rewrite Hout in A. cbn [app] in A. rewrite A.
  specialize (D new [] ltac:(done) eq_refl [] []). cbn [app length Nat.add] in D. rewrite app_nil_r in D.
  unfold NetValue.decodeValue, mbind, Reader_bind, new_ByteReader. change (MkBuilding [] []) with (built []).
  change (decodeAny MAX_DEPTH) with (decodeAny (S (MAX_DEPTH - 1))). rewrite D. done.
Qed.

Lemma encodeValue_room heap v w0 w walk :
  encodeAny heap (MAX_DEPTH - 1) v (w0, []) = Ok (w, walk) → encodeValue heap v w0 = Ok w.
Proof. intros E. unfold encodeValue. by rewrite (encodeAny_mono _ _ _ _ _ E : encodeAny heap MAX_DEPTH v _ = _). Qed.
End codec.

(** ** The codec's guarantees *)

(** C27: what the value codec carries.  A graph of values, with sharing and cycles, whose
    containers nest at most 1023 deep and which the encoder accepts is decoded to the same
    graph: the object met [n]-th is at address [n], with its contents renamed alike, every
    distinct object once, and every byte consumed.  Three things change on the way: a string
    loses the byte order mark it starts with, an object its properties named [__proto__] and
    [constructor], and a subclass of [Uint8Array] arrives as a [Uint8Array].  The strings of
    the graph are well-formed UTF-16; those that are map keys, set items or property names
    do not start with a byte order mark; bigints have at most 2^30 bits, as the engine's do,
    and binary objects are no longer than [maxBuffer], the longest the receiver allocates. *)
Theorem value_roundtrip maxBuffer heap v capacity w walk :
  (∀ a, carried_object maxBuffer (heap a)) → carried v →
  encodeAny heap (MAX_DEPTH - 1) v (new_NetWriter capacity, []) = Ok (w, walk) →
  encodeValue heap v (new_NetWriter capacity) = Ok w ∧ NoDup walk
  ∧ decodeValue maxBuffer (new_ByteReader (nw_out w))
    = Ok ((rename walk v, (λ a, rename_object walk (heap a)) <$> walk), MkReader (nw_out w) (length (nw_out w))).
Proof. intros Hheap Hv E. split; [by eapply encodeValue_room|by eapply graph_arrives]. Qed.

(** C28: decoding is safe on any bytes.  Where the engine can allocate a buffer as long as
    the input, decoding returns with at most as many slots built (objects, items, entries,
    properties and raw bytes) as the input has bytes, or throws: a [ValueDecodeError], or,
    only for an input of more than 2^27 bytes, the engine's [RangeError] for a bigint of
    more than 2^30 bits.  Wherever it stands in the input, a container that claims more
    elements than there are bytes left is refused before an element is read, and a binary
    object that claims more bytes than there are left before a buffer is allocated. *)
Theorem decode_bounded maxBuffer bytes :
  Forall is_byte bytes → Z.of_nat (length bytes) ≤ maxBuffer →
  match decodeValue maxBuffer (new_ByteReader bytes) with
  | Ok ((_, heap), _) => (weight heap ≤ length bytes)%nat
  | Throw e => (∃ message, e = ValueDecodeError message)
               ∨ e = RangeError "Maximum BigInt size exceeded" ∧ 2 ^ 27 < Z.of_nat (length bytes)
  end
  ∧ (∀ room b pre tag count rest,
      tag ∈ [TAG_ARRAY; TAG_OBJECT; TAG_MAP; TAG_SET] → 0 ≤ count ≤ MAX_SAFE_INTEGER → Z.of_nat (length rest) < count →
      decodeAny maxBuffer (S room) b (MkReader (pre ++ [tag] ++ uvarint count ++ rest) (length pre))
      = Throw (ValueDecodeError "count exceeds the remaining input"))
  ∧ (∀ small room b pre n size count rest,
      byteShapes !! n = Some size → 0 ≤ count ≤ MAX_SAFE_INTEGER → count mod size = 0 → Z.of_nat (length rest) < count →
      decodeAny small (S room) b (MkReader (pre ++ [TAG_BYTES; Z.of_nat n] ++ uvarint count ++ rest) (length pre))
      = Throw (ValueDecodeError "truncated input")).
Proof.
  intros Hb Hmax. split; [|split; [apply count_refused|apply bytes_refused]].
  pose proof (costs_decodeAny maxBuffer MAX_DEPTH (MkBuilding [] []) (new_ByteReader bytes) (conj Hb Hmax)) as H.
  unfold decodeValue, mbind, Reader_bind.
  destruct (decodeAny maxBuffer MAX_DEPTH _ _) as [[[x b] r]|e] eqn:E; [|done]. destruct H as ((H1 & _ & H2) & H3). cbn in *.
  rewrite H1 in H2. lia.
Qed.

(** An array of one [null], then a count that lies. *)
Lemma decode_bounded_witness :
  decodeValue 100 (new_ByteReader [TAG_ARRAY; 1; TAG_NULL]) = Ok ((VObject 0, [OArray [VNull]]), MkReader [TAG_ARRAY; 1; TAG_NULL] 3)
  ∧ (weight [OArray [VNull]] ≤ 3)%nat
  ∧ decodeValue 100 (new_ByteReader [TAG_ARRAY; 2; TAG_NULL]) = Throw (ValueDecodeError "count exceeds the remaining input").
Proof.
  destruct (decode_bounded 100 [TAG_ARRAY; 1; TAG_NULL]) as (H1 & H2 & _).
  { repeat constructor; by vm_compute. } { by vm_compute. }
  assert (decodeValue 100 (new_ByteReader [TAG_ARRAY; 1; TAG_NULL])
    = Ok ((VObject 0, [OArray [VNull]]), MkReader [TAG_ARRAY; 1; TAG_NULL] 3)) as E by (by vm_compute).
  rewrite E in H1. split_and!; [done..|].
  unfold decodeValue, mbind, Reader_bind, new_ByteReader. change (decodeAny 100 MAX_DEPTH) with (decodeAny 100 (S (MAX_DEPTH - 1))).
  pose proof (H2 (MAX_DEPTH - 1)%nat (MkBuilding [] []) [] TAG_ARRAY 2 [TAG_NULL] ltac:(set_solver) ltac:(by vm_compute) ltac:(by vm_compute)) as H3.
  change (MkReader ([] ++ [TAG_ARRAY] ++ uvarint 2 ++ [TAG_NULL]) (length (@nil Z))) with (MkReader [TAG_ARRAY; 2; TAG_NULL] 0) in H3.
  by rewrite H3.
Defined.

(** ** Instances *)

(** An object that holds itself, a date shared twice and a number. *)
Definition knot (a : nat) : object :=
  match a with
  | O => OPlain [(js "7", VNumber (NInt (-3))); (js "self", VObject 0); (js "at", VObject 1); (js "again", VObject 1)]
  | 1%nat => ODate (Some 1_700_000_000_000)
  | _ => OArray []
  end.

Lemma knot_carried a : carried_object 1000 (knot a).
Proof.
  destruct a as [|[|a]]; cbn [knot carried_object]; [|unfold MAX_TIME; lia|constructor]. split_and!.
  - repeat apply Forall_cons_2; try apply Forall_nil_2; split_and!; try apply plain_check; by vm_compute.
  - apply (bool_decide_unpack _). by vm_compute.
  - repeat constructor; by vm_compute.
Qed.

Lemma value_roundtrip_witness :
  ∃ w, encodeValue knot (VObject 0) (new_NetWriter 256) = Ok w
    ∧ ∃ r, decodeValue 1000 (new_ByteReader (nw_out w)) = Ok ((VObject 0, [knot 0; knot 1]), r).
Proof.
  destruct (encodeAny knot (MAX_DEPTH - 1) (VObject 0) (new_NetWriter 256, [])) as [[w walk]|e] eqn:E; [|by vm_compute in E].
  destruct (value_roundtrip 1000 knot (VObject 0) 256 w walk knot_carried I E) as (H1 & _ & H2). exists w. split; [done|].
  eexists. rewrite H2. assert (walk = [0%nat; 1%nat]) as ->; [|done]. vm_compute in E. by injection E as _ <-.
Defined.

(** A value that is neither a string, a bigint, an object nor a function. *)
Definition scalar (p : value) : Prop :=
  match p with VNull | VUndefined | VBoolean _ => True | VNumber n => carried_number n | _ => False end.

(** Arrays inside one another, as deep as the encoder allows, around a scalar. *)
Definition nest (p : value) (a : nat) : object := if Nat.ltb (S a) MAX_DEPTH then OArray [VObject (S a)] else OArray [p].

Definition crossing (maxBuffer : Z) (heap : nat → object) (v : value) : result (value * list object) :=
  let! w := encodeValue heap v (new_NetWriter 256) in
  let! (x, _) := decodeValue maxBuffer (new_ByteReader (nw_out w)) in Ok x.

(** The bytes of [n] arrays of one element. *)
Definition array_heads (n : nat) : list Z := concat (replicate n [TAG_ARRAY; 1]).

Lemma ref_index_fresh a : ref_index a (seq 0 a) = None.
Proof. apply ref_index_None. rewrite elem_of_seq. lia. Qed.

Lemma nest_inner p a : (S a < MAX_DEPTH)%nat → nest p a = OArray [VObject (S a)].
Proof. intros H. unfold nest. by rewrite (proj2 (Nat.ltb_lt _ _)). Qed.

Lemma nest_last p a : S a = MAX_DEPTH → nest p a = OArray [p].
Proof. intros H. unfold nest. by rewrite H, Nat.ltb_irrefl. Qed.

Lemma encodeAny_fresh heap room a w refs :
  ref_index a refs = None → encodeAny heap (S room) (VObject a) (w, refs) = encodeContents (encodeAny heap room) (heap a) (w, refs ++ [a]).
Proof. intros H. cbn [encodeAny fst snd]. by rewrite H. Qed.

(** A scalar is always encoded, to at least one byte. *)
Lemma scalar_encodes heap room p :
  scalar p → ∃ bs, bs ≠ [] ∧ ∀ w refs, nw_ok w → ∃ w', encodeAny heap room p (w, refs) = Ok (w', refs) ∧ appends bs w w'.
Proof.
  intros Hp. assert (∀ tag, 0 ≤ tag < 256 → ∀ w (refs : list nat), nw_ok w →
    ∃ w', writing (λ w, Ok (writeU8 tag w)) (w, refs) = Ok (w', refs) ∧ appends [tag] w w') as Htag.
  { intros tag Ht w refs Hw. eexists. split; [done|]. by apply appends_tag. }
  assert (∀ bits, ∃ bs, bs ≠ [] ∧ ∀ w (refs : list nat), nw_ok w →
    ∃ w', writing (λ w, Ok (writeF64 bits (writeU8 TAG_F64 w))) (w, refs) = Ok (w', refs) ∧ appends bs w w') as Hbits.
  { intros bits. exists ([TAG_F64] ++ be_encode 8 bits). split; [done|]. intros w refs Hw. eexists. split; [done|].
    pose proof (appends_tag TAG_F64 w Hw ltac:(done)) as A. apply (appends_trans [TAG_F64] _ _ _ _ A), writeF64_spec, A. }
  destruct p as [| |b|[z| |bits]|s|z|a|]; try done; destruct room; cbn [encodeAny].
  1,2: exists [TAG_NULL]; split; [done|by apply Htag].
  1,2: exists [TAG_UNDEFINED]; split; [done|by apply Htag].
  1,2: exists [if b then TAG_TRUE else TAG_FALSE]; split; [done|apply Htag; by destruct b].
  3-6: apply Hbits.
  all: destruct (unzigzag_zigzag z Hp) as [_ Hr]; exists ([TAG_INT] ++ uvarint (zigzag z)); split; [done|]; intros w refs Hw;
    pose proof (appends_tag TAG_INT w Hw ltac:(done)) as A;
    destruct (writeUvarint_ok (zigzag z) (writeU8 TAG_INT w)) as [w' E]; [unfold MAX_SAFE_INTEGER; lia|];
    exists w'; unfold writing, encodeNumber; cbn [fst snd]; rewrite E; split; [done|];
    apply (appends_trans [TAG_INT] _ _ _ _ A), (writeUvarint_spec _ _ _ (proj1 A) E).
Qed.

Lemma encode_nest p : scalar p → ∃ bs, bs ≠ [] ∧ ∀ room a w, nw_ok w → (a + S room = MAX_DEPTH)%nat →
  ∃ w' refs, encodeAny (nest p) (S room) (VObject a) (w, seq 0 a) = Ok (w', refs) ∧ appends (array_heads (S room) ++ bs) w w'.
Proof.
  intros Hp. destruct (scalar_encodes (nest p) 0 p Hp) as (bs & Hbs & Hw'). exists bs. split; [done|]. intros room.
  induction room as [|room IH]; intros a w Hw Ha; rewrite encodeAny_fresh by apply ref_index_fresh.
  1: rewrite nest_last by lia. 2: rewrite nest_inner by lia.
  all: cbn [encodeContents]; pose proof (writeU8_spec TAG_ARRAY w Hw) as A1; unfold then_, writeHead, writing; cbn [fst snd length];
    destruct (writeUvarint_ok 1 (writeU8 TAG_ARRAY w)) as [w2 E2]; [by vm_compute|];
    change (Z.of_nat 1) with 1; rewrite E2; cbn [result_bind each]; apply writeUvarint_spec in E2 as [A2 _]; [|apply A1].
  - destruct (Hw' w2 (seq 0 a ++ [a]) (proj1 A2)) as (w3 & E3 & A3). rewrite E3. cbn [result_bind]. eexists _, _. split; [done|].
    exact (appends_trans _ _ _ _ _ A1 (appends_trans _ _ _ _ _ A2 A3)).
  - destruct (IH (S a) w2 (proj1 A2) ltac:(lia)) as (w' & refs & E & A). rewrite seq_S in E. cbn [Nat.add] in E. rewrite E. cbn [result_bind].
    eexists _, _. split; [done|]. exact (appends_trans _ _ _ _ _ A1 (appends_trans _ _ _ _ _ A2 A)).
Qed.

Lemma decode_nest maxBuffer room b pre rest :
  rest ≠ [] →
  decodeAny maxBuffer room b (MkReader (pre ++ array_heads room ++ rest) (length pre)) = Throw (ValueDecodeError "value nesting exceeds the depth limit").
Proof.
  intros Hr. revert b pre. induction room as [|room IH]; intros b pre; [done|]. cbn [decodeAny].
  change (array_heads (S room)) with ([TAG_ARRAY] ++ uvarint 1 ++ array_heads room). set (rest' := array_heads room ++ rest).
  assert (pre ++ ([TAG_ARRAY] ++ uvarint 1 ++ array_heads room) ++ rest = pre ++ [TAG_ARRAY] ++ uvarint 1 ++ rest') as -> by (by rewrite <-!app_assoc).
  pose proof (reads_readU8 TAG_ARRAY pre (uvarint 1 ++ rest')) as R1.
  pose proof (reads_readUvarint 1 ltac:(by vm_compute) (pre ++ [TAG_ARRAY]) rest') as R2. rewrite <-!app_assoc in R2.
  unfold dec_bind at 1, lift at 1, mbind, Reader_bind. rewrite R1. cbn [fst snd mret Reader_ret].
  change (decodeTagged maxBuffer (decodeAny maxBuffer room) TAG_ARRAY) with (decodeContainer (OArray []) (λ a, let* x := decodeAny maxBuffer room in update a (push_item x))).
  rewrite length_app in R2. unfold decodeContainer, dec_bind, lift, readCount, net_remaining, net_guard, mret, Reader_ret, mbind, Reader_bind, allocate.
  rewrite R2. cbn [fst snd]. assert (1 ≤ length rest')%nat as Hlen by (unfold rest'; rewrite length_app; destruct rest; [done|cbn; lia]).
  change (length (uvarint 1)) with 1%nat. change (length [TAG_ARRAY]) with 1%nat.
  assert (remaining (MkReader (pre ++ [TAG_ARRAY] ++ uvarint 1 ++ rest') (length pre + 1 + 1)) = length rest') as ->.
  { unfold remaining. cbn [rd_bytes rd_offset]. rewrite !length_app. change (length (uvarint 1)) with 1%nat. cbn [length]. lia. }
  rewrite (proj2 (Z.ltb_ge _ _)) by lia. cbn [negb fst snd]. change (Z.to_nat 1) with 1%nat. cbn [times]. unfold dec_bind, dec_ret, mbind, Reader_bind.
  pose proof (IH (MkBuilding (bl_heap b ++ [OArray []]) (bl_refs b ++ [length (bl_heap b)])) (pre ++ [TAG_ARRAY] ++ uvarint 1)) as H.
  rewrite !length_app in H. rewrite <-!app_assoc in H. change (length (uvarint 1)) with 1%nat in H. cbn [length] in H.
  rewrite <-Nat.add_assoc. unfold rest', mret, Reader_ret. cbn [fst snd]. by rewrite H.
Qed.

Lemma nest_refused maxBuffer p :
  scalar p → is_ok (encodeValue (nest p) (VObject 0) (new_NetWriter 256)) = true
  ∧ crossing maxBuffer (nest p) (VObject 0) = Throw (ValueDecodeError "value nesting exceeds the depth limit").
Proof.
  intros Hp. destruct (encode_nest p Hp) as (bs & Hbs & En).
  destruct (En (MAX_DEPTH - 1)%nat 0%nat (new_NetWriter 256)) as (w & refs & E & _ & Ho); [apply new_NetWriter_ok|by vm_compute|].
  assert (S (MAX_DEPTH - 1) = MAX_DEPTH) as HS by (by vm_compute). rewrite HS in E, Ho. rewrite (proj2 (new_NetWriter_ok 256)) in Ho. cbn [app] in Ho.
  unfold crossing, encodeValue. change (@nil nat) with (seq 0 0). rewrite E. cbn [result_bind is_ok]. split; [done|]. rewrite Ho.
  unfold decodeValue, new_ByteReader, mbind, Reader_bind. pose proof (decode_nest maxBuffer MAX_DEPTH (MkBuilding [] []) [] bs Hbs) as H.
  change (length (@nil Z)) with 0%nat in H. rewrite app_nil_l in H. by rewrite H.
Qed.

Lemma bom_lost maxBuffer heap s :
  Forall is_unit s → is_well_formed s = true → utf8Length (0xFEFF :: s) ≤ MAX_SAFE_INTEGER →
  crossing maxBuffer heap (VString (0xFEFF :: s)) = Ok (VString s, []).
Proof.
  intros Hu Hwf Hmax. set (t := 0xFEFF :: s). assert (carried (VString t)) as Ht by (split; [constructor; [by vm_compute|done]|done]).
  destruct (writeString_ok t (writeU8 TAG_STRING (new_NetWriter 256)) (proj1 Ht) Hmax) as [w E].
  assert (∀ heap, encodeAny heap (MAX_DEPTH - 1) (VString t) (new_NetWriter 256, []) = Ok (w, [])) as Ew.
  { intros heap'. change (encodeAny heap' (MAX_DEPTH - 1) (VString t)) with (writing (λ w, writeString t (writeU8 TAG_STRING w))).
    unfold writing. cbn [fst snd]. by rewrite E. }
  unfold crossing. rewrite (encodeValue_room _ _ _ _ _ (Ew heap)). cbn [result_bind].
  destruct (graph_arrives maxBuffer (λ _, OArray []) (VString t) 256 w []) as [_ ->]; [intros; constructor|done|apply Ew|]. done.
Qed.

Lemma kept_properties walk (l : list (jsstring * value)) :
  ((λ e, (e.1, rename walk e.2)) <$> filter (λ e, skipped_key e.1 = false) l).*1
  = filter (λ k, k ≠ js "__proto__" ∧ k ≠ js "constructor") l.*1.
Proof.
  induction l as [|[k x] l IH]; [done|]. rewrite fmap_cons, !filter_cons. cbn [fst]. 
  destruct (decide (skipped_key k = false)) as [H|H], (decide (_ ∧ _)) as [H'|H']; cbn; try by rewrite IH.
  - destruct H'. unfold skipped_key in H. by apply orb_false_iff in H as [?%bool_decide_eq_false ?%bool_decide_eq_false].
  - destruct H. unfold skipped_key. apply orb_false_iff. by rewrite !bool_decide_eq_false.
Qed.

(** C30: what the encoder accepts and the decoder does not give back.  Any [null],
    [undefined], boolean or number inside 1024 nested arrays is encoded, and the receiver
    refuses it.  Any well-formed string that starts with a byte order mark arrives without
    it.  And every object of a graph that crosses arrives without the properties named
    [__proto__] and [constructor] that it had, and with all its others. *)
Theorem value_codec_losses maxBuffer :
  (∀ p, scalar p →
    is_ok (encodeValue (nest p) (VObject 0) (new_NetWriter 256)) = true
    ∧ crossing maxBuffer (nest p) (VObject 0) = Throw (ValueDecodeError "value nesting exceeds the depth limit"))
  ∧ (∀ heap s, Forall is_unit s → is_well_formed s = true → utf8Length (0xFEFF :: s) ≤ MAX_SAFE_INTEGER →
    crossing maxBuffer heap (VString (0xFEFF :: s)) = Ok (VString s, []))
  ∧ (∀ heap v w walk i a l,
    (∀ a, carried_object maxBuffer (heap a)) → carried v →
    encodeAny heap (MAX_DEPTH - 1) v (new_NetWriter 256, []) = Ok (w, walk) → walk !! i = Some a → heap a = OPlain l →
    ∃ x h l', crossing maxBuffer heap v = Ok (x, h) ∧ h !! i = Some (OPlain l')
      ∧ l'.*1 = filter (λ k, k ≠ js "__proto__" ∧ k ≠ js "constructor") l.*1).
Proof.
  split_and!; [intros p Hp; by apply nest_refused|intros heap s; by apply bom_lost|].
  intros heap v w walk i a l Hheap Hv E Hi Ho. unfold crossing. rewrite (encodeValue_room _ _ _ _ _ E). cbn [result_bind].
  destruct (graph_arrives maxBuffer heap v 256 w walk Hheap Hv E) as [_ ->]. cbn [result_bind].
  do 3 eexists. split; [done|]. rewrite list_lookup_fmap, Hi. cbn. rewrite Ho. split; [done|]. apply kept_properties.
Qed.

(** An object with a property the receiver drops. *)
Definition labelled (a : nat) : object := OPlain [(js "constructor", VNull); (js "x", VNull)].

Lemma value_codec_losses_witness :
  crossing 1000 (nest (VBoolean true)) (VObject 0) = Throw (ValueDecodeError "value nesting exceeds the depth limit")
  ∧ crossing 1000 labelled (VString [0xFEFF; 65]) = Ok (VString [65], [])
  ∧ ∃ x h l, crossing 1000 labelled (VObject 0) = Ok (x, h) ∧ h !! 0%nat = Some (OPlain l) ∧ l.*1 = [js "x"].
Proof.
  destruct (value_codec_losses 1000) as (H1 & H2 & H3). split; [by apply (H1 (VBoolean true))|]. split.
  { apply (H2 labelled [65]); [repeat constructor; by vm_compute|by vm_compute..]. }
  destruct (encodeAny labelled (MAX_DEPTH - 1) (VObject 0) (new_NetWriter 256, [])) as [[w walk]|e] eqn:E; [|by vm_compute in E].
  assert (walk = [0%nat]) as -> by (vm_compute in E; by injection E as _ <-).
  destruct (H3 labelled (VObject 0) w [0%nat] 0%nat 0%nat [(js "constructor", VNull); (js "x", VNull)]) as (x & h & l & Hc & Hh & Hl);
    [|exact I|exact E|reflexivity|reflexivity|].
  { intros a. split_and!; [|apply (bool_decide_unpack _); by vm_compute|repeat constructor; by vm_compute].
    repeat apply Forall_cons_2; try apply Forall_nil_2; split; try apply plain_check; by vm_compute. }
  exists x, h, l. split_and!; [done..|]. rewrite Hl. by vm_compute.
Defined.
