(* ===== verification/NetQueue.v ===== *)
(** * The queue of the transport ([src/net/queue.ts])

    The head-indexed FIFO of the send paths, with its compaction; it refines a list. *)
From S2P Require Import Prelude.

(** ** [HeadQueue] *)

Definition COMPACT_MIN_HEAD : nat := 64.

Section headqueue.
Context {A : Type}.

(** Consumed slots hold [None]. *)
Record HeadQueue := MkHeadQueue { hq_items : list (option A); hq_head : nat }.

Definition new_HeadQueue : HeadQueue := MkHeadQueue [] 0.

Definition hq_length (q : HeadQueue) : nat := length (hq_items q) - hq_head q.

Definition hq_push (x : A) (q : HeadQueue) : HeadQueue := MkHeadQueue (hq_items q ++ [Some x]) (hq_head q).

Definition hq_peek (q : HeadQueue) : option A := mjoin (hq_items q !! hq_head q).

Definition hq_shift (q : HeadQueue) : option A * HeadQueue :=
  if Nat.eqb (hq_head q) (length (hq_items q)) then (None, q)
  else
    let item := mjoin (hq_items q !! hq_head q) in
    let items := <[hq_head q := None]> (hq_items q) in
    let head := S (hq_head q) in
    if Nat.eqb head (length items) then (item, MkHeadQueue [] 0)
    else if Nat.leb COMPACT_MIN_HEAD head && Nat.leb (length items) (head * 2) then (item, MkHeadQueue (drop head items) 0)
    else (item, MkHeadQueue items head).

Definition hq_pop (q : HeadQueue) : option A * HeadQueue :=
  if Nat.eqb (hq_head q) (length (hq_items q)) then (None, q)
  else
    let item := mjoin (last (hq_items q)) in
    let items := removelast (hq_items q) in
    if Nat.eqb (hq_head q) (length items) then (item, MkHeadQueue [] 0) else (item, MkHeadQueue items (hq_head q)).

Definition hq_clear (q : HeadQueue) : HeadQueue := MkHeadQueue [] 0.

(** The queue holds [l], oldest first, behind a consumed prefix. *)
Definition hq_repr (q : HeadQueue) (l : list A) : Prop :=
  hq_items q = replicate (hq_head q) None ++ (Some <$> l).

Lemma new_HeadQueue_repr : hq_repr new_HeadQueue [].
Proof. done. Qed.

Lemma hq_length_repr q l : hq_repr q l → hq_length q = length l.
Proof. intros H. unfold hq_length. rewrite H, length_app, length_replicate, length_fmap. lia. Qed.

Lemma hq_push_repr x q l : hq_repr q l → hq_repr (hq_push x q) (l ++ [x]).
Proof. unfold hq_repr. intros H. cbn. by rewrite H, fmap_app, app_assoc. Qed.

Lemma hq_peek_repr q l : hq_repr q l → hq_peek q = head l.
Proof.
  unfold hq_repr, hq_peek. intros H. rewrite H, lookup_app_r by (rewrite length_replicate; lia). rewrite length_replicate, Nat.sub_diag.
  by destruct l.
Qed.

Lemma hq_shift_repr q l : hq_repr q l → (hq_shift q).1 = head l ∧ hq_repr (hq_shift q).2 (tail l).
Proof.
  intros H. pose proof (hq_peek_repr q l H) as Hp. unfold hq_peek in Hp. unfold hq_repr in H. unfold hq_shift. rewrite Hp.
  assert (length (hq_items q) = hq_head q + length l)%nat as Hlen by (rewrite H, length_app, length_replicate, length_fmap; done).
  rewrite length_insert, Hlen.
  destruct (Nat.eqb_spec (hq_head q) (hq_head q + length l)) as [E|E].
  { destruct l; [|cbn in E; lia]. by split. }
  destruct l as [|x l]; [cbn in E; lia|]. cbn [head tail length].
  assert (<[hq_head q := None]> (hq_items q) = replicate (S (hq_head q)) None ++ (Some <$> l)) as Hi.
  { rewrite H, insert_app_r_alt by (rewrite length_replicate; lia). rewrite length_replicate, Nat.sub_diag. cbn.
    rewrite (cons_middle None), app_assoc. change (None :: replicate ?n None ++ ?r) with (replicate (S n) None ++ r). by rewrite replicate_S_end. }
  rewrite Hi. destruct (Nat.eqb_spec (S (hq_head q)) (hq_head q + S (length l))) as [E1|E1].
  { destruct l; [by split|cbn in E1; lia]. }
  destruct (_ && _); [|by split]. split; [done|]. unfold hq_repr. cbn [hq_items hq_head snd].
  rewrite drop_app_length'; [done|]. by rewrite length_replicate.
Qed.

Lemma hq_pop_repr q l : hq_repr q l → (hq_pop q).1 = last l ∧ hq_repr (hq_pop q).2 (removelast l).
Proof.
  intros H. unfold hq_repr in H. unfold hq_pop.
  assert (length (hq_items q) = hq_head q + length l)%nat as Hlen by (rewrite H, length_app, length_replicate, length_fmap; done).
  rewrite Hlen.
  destruct (Nat.eqb_spec (hq_head q) (hq_head q + length l)) as [E|E]; [destruct l; [split; [done|exact H]|cbn in E; lia]|].
  destruct l as [|x l _] using rev_ind; [cbn in E; lia|]. rewrite removelast_last, last_snoc.
  assert (hq_items q = (replicate (hq_head q) None ++ (Some <$> l)) ++ [Some x]) as Hi by (by rewrite H, fmap_app, app_assoc).
  rewrite Hi, last_snoc, removelast_last, length_app, length_replicate, length_fmap. cbn [mjoin option_join].
  destruct (Nat.eqb_spec (hq_head q) (hq_head q + length l)); [|by split]. destruct l; [by split|cbn in *; lia].
Qed.
End headqueue.
Arguments HeadQueue A : clear implicits.
