(* ===== verification/NetFrame.v ===== *)
(** * Frames on a connection ([src/net/frame.ts], the read side of [src/net/conn.ts])

    The 16-byte frame header, and the resumable parser that cuts a byte stream into frames
    whatever the socket's chunks are.  The write side is in [NetConn]. *)
From S2P Require Import Prelude JsNumber JsString ByteIO NetBytes.

(** ** The header *)

Definition NET_PROTOCOL_VERSION : Z := 0x01.
Definition FRAME_HEADER_SIZE : nat := 16.
Definition FRAME_HELLO : Z := 0x01.
Definition FRAME_DATA : Z := 0x03.
Definition FRAME_REPLY : Z := 0x04.
Definition FRAME_CHUNK : Z := 0x06.
Definition FRAME_PONG : Z := 0x0a.
Definition FLAG_EXPECTS_REPLY : Z := 1.
Definition FLAG_FIRST_CHUNK : Z := 2.
Definition FLAG_LAST_CHUNK : Z := 4.
Definition RESERVED_FLAGS_MASK : Z := 0xf8.
Definition MIN_MAX_FRAME_SIZE : Z := 16 * 1024.
Definition MAX_U32 : Z := 0xffffffff.

Record FrameHeader := MkHeader {
  fh_type : Z;
  fh_flags : Z;
  fh_lane : Z;
  fh_length : Z;
  fh_correlation : Z }.

Definition MAX_ORDINARY_LANES : Z := 254.

Definition ordinaryLane (index : Z) : result Z :=
  let! _ := guard_throw (negb ((index <? 0) || (MAX_ORDINARY_LANES <=? index))) (RangeError "ordinary lane index out of range") in
  Ok (index + 1).

Definition knownFrameType (type : Z) : bool := (FRAME_HELLO <=? type) && (type <=? FRAME_PONG).

Definition validateCorrelation (type flags correlation : Z) : result unit :=
  let needed := (type =? FRAME_REPLY) || (type =? FRAME_CHUNK)
                || ((type =? FRAME_DATA) && negb (Z.land flags FLAG_EXPECTS_REPLY =? 0)) in
  guard_throw (negb (needed && (correlation =? 0))) (ProtocolError "frame type requires a nonzero correlation").

Definition validateFrameHeader (h : FrameHeader) : result unit :=
  let! _ := guard_throw (knownFrameType (fh_type h)) (ProtocolError "unknown frame type") in
  let! _ := guard_throw (Z.land (fh_flags h) RESERVED_FLAGS_MASK =? 0) (ProtocolError "reserved frame flags set") in
  let! _ := guard_throw (negb ((fh_length h <? 0) || (MAX_U32 <? fh_length h))) (ProtocolError "frame length out of range") in
  validateCorrelation (fh_type h) (fh_flags h) (fh_correlation h).

Definition encodeFrameHeader (h : FrameHeader) (w : NetWriter) : result NetWriter :=
  let! _ := validateFrameHeader h in
  let w := writeU8 (fh_lane h) (writeU8 (fh_flags h) (writeU8 (fh_type h) (writeU8 NET_PROTOCOL_VERSION w))) in
  writeU64 (fh_correlation h) (writeU32 (fh_length h) w).

(** The byte at an index, [undefined] read as a number only outside the checked range. *)
Definition byte_at (bytes : list Z) (i : nat) : Z := default 0 (bytes !! i).

(** Four bytes shifted together and made unsigned. *)
Definition u32_at (bytes : list Z) (i : nat) : Z :=
  u32 (Z.lor (Z.lor (Z.lor (i32 (Z.shiftl (byte_at bytes i) 24)) (Z.shiftl (byte_at bytes (i + 1)) 16))
         (Z.shiftl (byte_at bytes (i + 2)) 8)) (byte_at bytes (i + 3))).

Definition decodeFrameHeader (bytes : list Z) (maxFrameSize : Z) (offset : nat) : result FrameHeader :=
  let! _ := guard_throw (negb (Nat.ltb (length bytes - offset) FRAME_HEADER_SIZE)) (ProtocolError "frame header truncated") in
  let! _ := guard_throw (byte_at bytes offset =? NET_PROTOCOL_VERSION) (ProtocolError "unsupported protocol version") in
  let type := byte_at bytes (offset + 1) in
  let! _ := guard_throw (knownFrameType type) (ProtocolError "unknown frame type") in
  let flags := byte_at bytes (offset + 2) in
  let! _ := guard_throw (Z.land flags RESERVED_FLAGS_MASK =? 0) (ProtocolError "reserved frame flags set") in
  let lane := byte_at bytes (offset + 3) in
  let length := u32_at bytes (offset + 4) in
  let bound := if maxFrameSize =? 0 then MIN_MAX_FRAME_SIZE else maxFrameSize in
  let! _ := guard_throw (negb (bound <? length)) (ProtocolError "frame length exceeds the maximum") in
  let high := u32_at bytes (offset + 8) in
  let low := u32_at bytes (offset + 12) in
  let correlation := high * 0x100000000 + low in
  let! _ := guard_throw (is_safe_integer correlation) (ProtocolError "correlation exceeds the safe integer range") in
  let! _ := validateCorrelation type flags correlation in
  Ok (MkHeader type flags lane length correlation).

(** ** The read side *)

Definition is_some {A} (x : option A) : bool := match x with Some _ => true | None => false end.

(** The parser's fields; the frames it has handed to the owner are the log of [emit].  The
    owner's handlers return and do not close the connection, and the inbound bound is the
    one the parser was made with: a session rebinds it once, between the handshake and the
    frames that follow. *)
Record Parser := MkParser {
  ps_maxFrameSize : Z;
  ps_headerBytes : list Z;
  ps_headerFill : nat;
  ps_header : option FrameHeader;
  ps_bodyBytes : option (list Z);
  ps_bodyFill : nat;
  ps_broken : bool;
  ps_closed : bool;
  ps_frames : list (FrameHeader * list Z) }.

Definition new_Parser (maxFrameSize : Z) : Parser :=
  MkParser maxFrameSize (replicate FRAME_HEADER_SIZE 0) 0 None None 0 false false [].

Definition emit (p : Parser) (h : FrameHeader) (body : list Z) : Parser :=
  MkParser (ps_maxFrameSize p) (ps_headerBytes p) (ps_headerFill p) None None 0 (ps_broken p) (ps_closed p)
    (ps_frames p ++ [(h, body)]).

Definition set_header (bytes : list Z) (fill : nat) (h : option FrameHeader) (p : Parser) : Parser :=
  MkParser (ps_maxFrameSize p) bytes fill h (ps_bodyBytes p) (ps_bodyFill p) (ps_broken p) (ps_closed p) (ps_frames p).

Definition set_body (bytes : list Z) (fill : nat) (p : Parser) : Parser :=
  MkParser (ps_maxFrameSize p) (ps_headerBytes p) (ps_headerFill p) (ps_header p) (Some bytes) fill (ps_broken p) (ps_closed p) (ps_frames p).

Definition set_broken (p : Parser) : Parser :=
  MkParser (ps_maxFrameSize p) (ps_headerBytes p) (ps_headerFill p) (ps_header p) (ps_bodyBytes p) (ps_bodyFill p) true (ps_closed p) (ps_frames p).

(** The new offset and the parser; a violation throws out of [parse] and keeps the fields
    written before. *)
Definition parseHeader (p : Parser) (chunk : list Z) (offset : nat) : (js_error + nat) * Parser :=
  if Nat.eqb (ps_headerFill p) 0 && Nat.leb FRAME_HEADER_SIZE (length chunk - offset) then
    match decodeFrameHeader chunk (ps_maxFrameSize p) offset with
    | Throw e => (inl e, p)
    | Ok h => (inr (offset + FRAME_HEADER_SIZE)%nat, set_header (ps_headerBytes p) (ps_headerFill p) (Some h) p)
    end
  else
    let wanted := (FRAME_HEADER_SIZE - ps_headerFill p)%nat in
    let available := (length chunk - offset)%nat in
    let count := if Nat.ltb wanted available then wanted else available in
    let bytes := bytes_set (ps_headerBytes p) (take count (drop offset chunk)) (ps_headerFill p) in
    let fill := (ps_headerFill p + count)%nat in
    if Nat.ltb fill FRAME_HEADER_SIZE then (inr (offset + count)%nat, set_header bytes fill (ps_header p) p)
    else
      let p := set_header bytes 0 (ps_header p) p in
      match decodeFrameHeader bytes (ps_maxFrameSize p) 0 with
      | Throw e => (inl e, p)
      | Ok h => (inr (offset + count)%nat, set_header bytes 0 (Some h) p)
      end.

(** The body half of a turn of the loop of [parse]: the offset to go on from, or none to stop. *)
Definition parseBody (p : Parser) (chunk : list Z) (offset : nat) (h : FrameHeader) : option nat * Parser :=
  if fh_length h =? 0 then (Some offset, emit p h [])
  else
    let size := Z.to_nat (fh_length h) in
    if negb (is_some (ps_bodyBytes p)) && Nat.leb size (length chunk - offset) then
      (Some (offset + size)%nat, emit p h (take size (drop offset chunk)))
    else
      let '(bytes, fill) := match ps_bodyBytes p with
                            | None => (replicate size 0, 0%nat)
                            | Some bytes => (bytes, ps_bodyFill p)
                            end in
      let wanted := (size - fill)%nat in
      let available := (length chunk - offset)%nat in
      let count := if Nat.ltb wanted available then wanted else available in
      let bytes := bytes_set bytes (take count (drop offset chunk)) fill in
      let fill := (fill + count)%nat in
      if Nat.ltb fill size then (None, set_body bytes fill p)
      else (Some (offset + count)%nat, emit p h bytes).

(** One turn of the loop of [parse]. *)
Definition parse_turn (p : Parser) (chunk : list Z) (offset : nat) : (js_error + option nat) * Parser :=
  let body h offset p := let '(next, p) := parseBody p chunk offset h in (inr next, p) in
  match ps_header p with
  | Some h => body h offset p
  | None =>
      match parseHeader p chunk offset with
      | (inl e, p) => (inl e, p)
      | (inr offset, p) =>
          match ps_header p with
          | None => (inr None, p)
          | Some h => body h offset p
          end
      end
  end.

(** [parse]: every turn that goes on has consumed a byte or a frame without one. *)
Fixpoint parse (fuel : nat) (p : Parser) (chunk : list Z) (offset : nat) : option js_error * Parser :=
  match fuel with
  | O => (None, p)
  | S fuel =>
      if Nat.ltb offset (length chunk) then
        match parse_turn p chunk offset with
        | (inl e, p) => (Some e, p)
        | (inr None, p) => (None, p)
        | (inr (Some offset), p) => parse fuel p chunk offset
        end
      else (None, p)
  end.

(** [onData], for an owner whose handlers return. *)
Definition onData (p : Parser) (chunk : list Z) : Parser :=
  if ps_broken p || ps_closed p then p
  else
    match parse (S (length chunk)) p chunk 0 with
    | (Some _, p) => set_broken p
    | (None, p) => p
    end.

(** ** The header round trip *)

(** A header an encoder accepts, with byte-sized fields and a safe correlation. *)
Definition header_ok (h : FrameHeader) : Prop :=
  is_ok (validateFrameHeader h) = true ∧ is_byte (fh_type h) ∧ is_byte (fh_flags h) ∧ is_byte (fh_lane h)
  ∧ 0 ≤ fh_correlation h ≤ MAX_SAFE_INTEGER.

Definition header_bytes (h : FrameHeader) : list Z :=
  [NET_PROTOCOL_VERSION; fh_type h; fh_flags h; fh_lane h] ++ be_encode 4 (fh_length h) ++ be_encode 8 (fh_correlation h).

Lemma length_header_bytes h : length (header_bytes h) = FRAME_HEADER_SIZE.
Proof. done. Qed.

Lemma encodeFrameHeader_spec h w : 
  nw_ok w → header_ok h → ∃ w', encodeFrameHeader h w = Ok w' ∧ appends (header_bytes h) w w'.
Proof.
  intros Hw (Hv & Ht & Hf & Hl & Hc). unfold encodeFrameHeader. destruct (validateFrameHeader h) as [[]|] eqn:E; [|done].
  cbn [result_bind]. pose proof (writeU8_spec NET_PROTOCOL_VERSION w Hw) as A0.
  pose proof (writeU8_spec (fh_type h) _ (proj1 A0)) as A1. pose proof (writeU8_spec (fh_flags h) _ (proj1 A1)) as A2.
  pose proof (writeU8_spec (fh_lane h) _ (proj1 A2)) as A3. pose proof (writeU32_spec (fh_length h) _ (proj1 A3)) as A4.
  set (w1 := writeU32 _ _) in *. destruct (writeU64 (fh_correlation h) w1) as [w'|e] eqn:E5.
  2: { unfold writeU64 in E5. rewrite (is_safe_nonneg _ Hc) in E5. cbn [andb] in E5. by rewrite (proj2 (Z.leb_le _ _)) in E5 by lia. }
  exists w'. split; [done|]. apply writeU64_spec in E5 as [A5 _]; [|apply A4]. unfold is_byte in *.
  rewrite Z.mod_small in A1, A2, A3 by done.
  pose proof (appends_trans _ _ _ _ _ A0 (appends_trans _ _ _ _ _ A1 (appends_trans _ _ _ _ _ A2
    (appends_trans _ _ _ _ _ A3 (appends_trans _ _ _ _ _ A4 A5))))) as A. exact A.
Qed.

Lemma byte_shift b c d e :
  is_byte b → is_byte c → is_byte d → is_byte e →
  u32 (Z.lor (Z.lor (Z.lor (i32 (Z.shiftl b 24)) (Z.shiftl c 16)) (Z.shiftl d 8)) e) = ((b * 256 + c) * 256 + d) * 256 + e.
Proof.
  intros Hb Hc Hd He. unfold is_byte in *.
  assert (∀ x y, u32 (Z.lor x y) = Z.lor (u32 x) (u32 y)) as Hlor by (intros x y; by rewrite !u32_land, Z.land_lor_distr_l).
  assert (∀ x y n, 0 ≤ n → 0 ≤ y < 2 ^ n → Z.lor (Z.shiftl x n) y = x * 2 ^ n + y) as Hadd.
  { intros x y n Hn Hy. rewrite <-Z.shiftl_mul_pow2 by done. symmetry. rewrite <-Z.add_lor_land.
    assert (Z.land (Z.shiftl x n) y = 0) as ->; [|lia]. apply Z.bits_inj'. intros i Hi. rewrite Z.land_spec, Z.bits_0.
    destruct (Z.ltb_spec i n); [by rewrite Z.shiftl_spec_low|].
    assert (Z.testbit y i = false) as ->; [|apply andb_false_r].
    destruct (Z.eq_dec y 0) as [->|]; [apply Z.bits_0|]. apply Z.bits_above_log2; [lia|].
    apply Z.log2_lt_pow2; [lia|]. eapply Z.lt_le_trans; [apply Hy|]. apply Z.pow_le_mono_r; lia. }
  rewrite !Hlor, u32_i32.
  rewrite (u32_id (Z.shiftl b 24)), (u32_id (Z.shiftl c 16)), (u32_id (Z.shiftl d 8)), (u32_id e)
    by (unfold is_u32, W32; rewrite ?Z.shiftl_mul_pow2 by lia; lia).
  rewrite <-!Z.lor_assoc. rewrite (Hadd d e 8) by lia. rewrite (Hadd c (d * 2 ^ 8 + e) 16) by lia.
  rewrite (Hadd b _ 24) by lia. lia.
Qed.

Lemma u32_at_field bytes pre v suf :
  bytes = pre ++ be_encode 4 v ++ suf → u32_at bytes (length pre) = v mod 2 ^ 32.
Proof.
  intros ->. unfold u32_at, byte_at. 
  rewrite (lookup_app_r _ _ (length pre)), (lookup_app_r _ _ (length pre + 1)), (lookup_app_r _ _ (length pre + 2)),
    (lookup_app_r _ _ (length pre + 3)) by lia. rewrite Nat.sub_diag.
  replace (length pre + 1 - length pre)%nat with 1%nat by lia. replace (length pre + 2 - length pre)%nat with 2%nat by lia.
  replace (length pre + 3 - length pre)%nat with 3%nat by lia. cbn [be_encode app lookup list_lookup default from_option].
  assert (∀ x, is_byte (x mod 256)) as Hm by (intros x; apply Z.mod_pos_bound; lia). rewrite byte_shift by apply Hm.
  pose proof (be_decode_encode 4 v) as H. unfold be_decode in H. cbn [be_encode foldl] in H. rewrite Z.mul_0_l, Z.add_0_l in H. exact H.
Qed.

(** Decoding looks at sixteen bytes. *)
Lemma decodeFrameHeader_local bytes max offset :
  (FRAME_HEADER_SIZE ≤ length bytes - offset)%nat →
  decodeFrameHeader bytes max offset = decodeFrameHeader (take FRAME_HEADER_SIZE (drop offset bytes)) max 0.
Proof.
  intros Hl. unfold FRAME_HEADER_SIZE in *.
  assert (∀ i, (i < 16)%nat → byte_at bytes (offset + i) = byte_at (take 16 (drop offset bytes)) i) as Hb.
  { intros i Hi. unfold byte_at. by rewrite lookup_take_lt, lookup_drop by done. }
  assert (∀ i, (i + 3 < 16)%nat → u32_at bytes (offset + i) = u32_at (take 16 (drop offset bytes)) i) as Hu.
  { intros i Hi. unfold u32_at. rewrite <-!Nat.add_assoc. rewrite !Hb by lia. done. }
  unfold decodeFrameHeader, FRAME_HEADER_SIZE. rewrite length_take, length_drop.
  assert (byte_at bytes offset = byte_at (take 16 (drop offset bytes)) 0) as -> by (rewrite <-Hb by lia; f_equal; lia).
  rewrite !Hb, !Hu by lia. cbn [Nat.add].
  destruct (Nat.ltb_spec (length bytes - offset) 16), (Nat.ltb_spec (16 `min` (length bytes - offset) - 0) 16); lia || done.
Qed.

Lemma decode_header_bytes h max suf :
  header_ok h → fh_length h ≤ (if max =? 0 then MIN_MAX_FRAME_SIZE else max) →
  decodeFrameHeader (header_bytes h ++ suf) max 0 = Ok h.
Proof.
  intros (Hv & Ht & Hf & Hl & Hc) Hmax. unfold validateFrameHeader in Hv.
  destruct (knownFrameType (fh_type h)) eqn:E1; [|done]. destruct (Z.land (fh_flags h) RESERVED_FLAGS_MASK =? 0) eqn:E2; [|done].
  cbn [guard_throw result_bind] in Hv. destruct (negb ((fh_length h <? 0) || (MAX_U32 <? fh_length h))) eqn:E3; [|done].
  cbn [guard_throw result_bind] in Hv. rewrite negb_true_iff, orb_false_iff, !Z.ltb_ge in E3. unfold MAX_U32 in E3.
  assert (u32_at (header_bytes h ++ suf) 4 = fh_length h) as Hlen.
  { rewrite (u32_at_field _ [_; _; _; _] (fh_length h) (be_encode 8 (fh_correlation h) ++ suf)) by done. apply Z.mod_small. lia. }
  unfold MAX_SAFE_INTEGER in Hc. pose proof (be_encode_app 4 4 (fh_correlation h)) as Hsplit. change (4 + 4)%nat with 8%nat in Hsplit.
  assert (u32_at (header_bytes h ++ suf) 8 * 0x100000000 + u32_at (header_bytes h ++ suf) 12 = fh_correlation h) as Hcor.
  { unfold header_bytes. rewrite Hsplit. rewrite <-!app_assoc. rewrite (app_assoc [_; _; _; _]).
    rewrite (u32_at_field _ ([_; _; _; _] ++ be_encode 4 (fh_length h)) (fh_correlation h / 256 ^ Z.of_nat 4)
      (be_encode 4 (fh_correlation h) ++ suf)) by done.
    rewrite (app_assoc ([_; _; _; _] ++ _)).
    rewrite (u32_at_field _ (([_; _; _; _] ++ be_encode 4 (fh_length h)) ++ be_encode 4 (fh_correlation h / 256 ^ Z.of_nat 4))
      (fh_correlation h) suf) by done.
    change (256 ^ Z.of_nat 4) with (2 ^ 32). change 0x100000000 with (2 ^ 32).
    rewrite (Z.mod_small (_ / _)) by (split; [apply Z.div_pos; lia|apply Z.div_lt_upper_bound; lia]).
    pose proof (Z.div_mod (fh_correlation h) (2 ^ 32) ltac:(lia)). lia. }
  unfold decodeFrameHeader. cbn [Nat.add]. rewrite Hlen, Hcor. rewrite is_safe_nonneg by (unfold MAX_SAFE_INTEGER; lia).
  rewrite length_app, length_header_bytes. rewrite (proj2 (Nat.ltb_ge _ _)) by lia.
  change (byte_at (header_bytes h ++ suf) 0) with NET_PROTOCOL_VERSION. change (byte_at (header_bytes h ++ suf) 1) with (fh_type h).
  change (byte_at (header_bytes h ++ suf) 2) with (fh_flags h). change (byte_at (header_bytes h ++ suf) 3) with (fh_lane h).
  rewrite Z.eqb_refl, E1, E2. cbn [negb guard_throw result_bind]. rewrite (proj2 (Z.ltb_ge _ _)) by done. cbn [negb guard_throw result_bind].
  destruct (validateCorrelation _ _ _); [|done]. cbn [result_bind]. by destruct h.
Qed.

(** ** What the parser computes: the frames of a byte stream *)

Definition frame : Type := FrameHeader * list Z.

Definition body_size (h : FrameHeader) : nat := Z.to_nat (fh_length h).

(** The first frame of a stream, when all of it is there. *)
Definition deframe1 (max : Z) (bytes : list Z) : option (result (frame * list Z)) :=
  if Nat.ltb (length bytes) FRAME_HEADER_SIZE then None
  else
    match decodeFrameHeader (take FRAME_HEADER_SIZE bytes) max 0 with
    | Throw e => Some (Throw e)
    | Ok h =>
        let body := drop FRAME_HEADER_SIZE bytes in
        if Nat.ltb (length body) (body_size h) then None
        else Some (Ok ((h, take (body_size h) body), drop (body_size h) body))
    end.

(** The frames of a stream and the bytes left over, or none at a protocol violation. *)
Fixpoint deframe_loop (fuel : nat) (max : Z) (bytes : list Z) : list frame * option (list Z) :=
  match fuel with
  | O => ([], Some bytes)
  | S fuel =>
      match deframe1 max bytes with
      | None => ([], Some bytes)
      | Some (Throw _) => ([], None)
      | Some (Ok (f, rest)) => let '(fs, r) := deframe_loop fuel max rest in (f :: fs, r)
      end
  end.

Definition deframe (max : Z) (bytes : list Z) : list frame * option (list Z) := deframe_loop (S (length bytes)) max bytes.

Lemma deframe1_shrinks max bytes f rest : deframe1 max bytes = Some (Ok (f, rest)) → (length rest < length bytes)%nat.
Proof.
  unfold deframe1. destruct (Nat.ltb_spec (length bytes) FRAME_HEADER_SIZE); [done|].
  destruct (decodeFrameHeader _ _ _) as [h|]; [|done]. destruct (Nat.ltb_spec (length (drop FRAME_HEADER_SIZE bytes)) (body_size h)); [done|].
  intros [= <- <-]. rewrite !length_drop. unfold FRAME_HEADER_SIZE in *. lia.
Qed.

Lemma deframe_loop_fuel fuel fuel' max bytes :
  (length bytes < fuel)%nat → (length bytes < fuel')%nat → deframe_loop fuel max bytes = deframe_loop fuel' max bytes.
Proof.
  revert fuel' bytes. induction fuel as [|fuel IH]; intros [|fuel'] bytes H1 H2; try lia. cbn [deframe_loop].
  destruct (deframe1 max bytes) as [[[f rest]|e]|] eqn:E; [|done..]. apply deframe1_shrinks in E.
  rewrite (IH fuel' rest) by lia. done.
Qed.

Lemma deframe_unfold max bytes :
  deframe max bytes =
    match deframe1 max bytes with
    | None => ([], Some bytes)
    | Some (Throw _) => ([], None)
    | Some (Ok (f, rest)) => let '(fs, r) := deframe max rest in (f :: fs, r)
    end.
Proof.
  unfold deframe at 1. cbn [deframe_loop]. destruct (deframe1 max bytes) as [[[f rest]|e]|] eqn:E; [|done..].
  apply deframe1_shrinks in E. unfold deframe. by rewrite (deframe_loop_fuel (length bytes) (S (length rest))) by lia.
Qed.

Lemma deframe1_app max bytes more r :
  deframe1 max bytes = Some r →
  deframe1 max (bytes ++ more) = Some (let! fr := r in Ok (fr.1, fr.2 ++ more)).
Proof.
  unfold deframe1. destruct (Nat.ltb_spec (length bytes) FRAME_HEADER_SIZE); [done|].
  rewrite length_app, (proj2 (Nat.ltb_ge _ _)) by lia. rewrite take_app_le, drop_app_le by done.
  destruct (decodeFrameHeader _ _ _) as [h|e]; [|by intros [= <-]].
  destruct (Nat.ltb_spec (length (drop FRAME_HEADER_SIZE bytes)) (body_size h)); [done|]. intros [= <-].
  rewrite length_app, (proj2 (Nat.ltb_ge _ _)) by lia. by rewrite take_app_le, drop_app_le by done.
Qed.

(** A stream's frames stay its first frames as more of it arrives. *)
Lemma deframe_app max bytes more :
  deframe max (bytes ++ more) =
    match deframe max bytes with
    | (fs, Some rest) => let '(fs', r) := deframe max (rest ++ more) in (fs ++ fs', r)
    | (fs, None) => (fs, None)
    end.
Proof.
  induction bytes as [bytes IH] using (well_founded_induction (Wf_nat.well_founded_ltof _ length)).
  rewrite (deframe_unfold max bytes). destruct (deframe1 max bytes) as [[[f rest]|e]|] eqn:E.
  - rewrite deframe_unfold, (deframe1_app _ _ _ _ E). cbn [result_bind fst snd]. apply deframe1_shrinks in E.
    rewrite (IH rest) by done. destruct (deframe max rest) as [fs [r|]]; [|done]. by destruct (deframe max (r ++ more)).
  - by rewrite deframe_unfold, (deframe1_app _ _ _ _ E).
  - by destruct (deframe max (bytes ++ more)).
Qed.

(** The part of a frame a parser holds between two chunks. *)
Inductive pending (p : Parser) : list Z → Prop :=
  | pending_header :
      length (ps_headerBytes p) = FRAME_HEADER_SIZE → (ps_headerFill p < FRAME_HEADER_SIZE)%nat →
      ps_header p = None → ps_bodyBytes p = None → pending p (take (ps_headerFill p) (ps_headerBytes p))
  | pending_body hb h bytes :
      length (ps_headerBytes p) = FRAME_HEADER_SIZE → ps_headerFill p = 0%nat →
      length hb = FRAME_HEADER_SIZE → decodeFrameHeader hb (ps_maxFrameSize p) 0 = Ok h → ps_header p = Some h →
      ps_bodyBytes p = Some bytes → length bytes = body_size h → (ps_bodyFill p < body_size h)%nat →
      pending p (hb ++ take (ps_bodyFill p) bytes).

Lemma bytes_set_filled l src n :
  (n + length src ≤ length l)%nat →
  length (bytes_set l src n) = length l ∧ take (n + length src) (bytes_set l src n) = take n l ++ src.
Proof.
  intros H. unfold bytes_set. split; [rewrite !length_app, length_take, length_drop; lia|].
  rewrite app_assoc, take_app_le by (rewrite length_app, length_take; lia). apply take_ge. rewrite length_app, length_take. lia.
Qed.

Lemma pending_deframe p rest : pending p rest → deframe1 (ps_maxFrameSize p) rest = None.
Proof.
  intros [Hl Hf _ _|hb h bytes Hl Hz Hb Hd Hh Hbb Hs Hf]; unfold deframe1.
  - by rewrite length_take, (proj2 (Nat.ltb_lt _ _)) by lia.
  - rewrite length_app, (proj2 (Nat.ltb_ge _ _)) by lia. rewrite take_app_le, take_ge, Hd by lia.
    rewrite drop_app_le, drop_ge by lia. cbn [app]. by rewrite length_take, (proj2 (Nat.ltb_lt _ _)) by lia.
Qed.

Lemma fill_count w (l : list Z) offset :
  (if Nat.ltb w (length l - offset) then w else (length l - offset)%nat) = (w `min` (length l - offset))%nat.
Proof. destruct (Nat.ltb_spec w (length l - offset)); lia. Qed.

(** Everything of a parser but the frame being read and the log. *)
Definition same_stream (p p' : Parser) : Prop :=
  ps_maxFrameSize p' = ps_maxFrameSize p ∧ ps_broken p' = ps_broken p ∧ ps_closed p' = ps_closed p.

Lemma same_stream_trans p q r : same_stream p q → same_stream q r → same_stream p r.
Proof. unfold same_stream. naive_solver congruence. Qed.

Definition held_body (p : Parser) : list Z :=
  match ps_bodyBytes p with None => [] | Some bytes => take (ps_bodyFill p) bytes end.

(** A parser with a header read, before the turn's body half. *)
Definition in_body (p : Parser) (hb : list Z) (h : FrameHeader) : Prop :=
  length (ps_headerBytes p) = FRAME_HEADER_SIZE ∧ ps_headerFill p = 0%nat
  ∧ length hb = FRAME_HEADER_SIZE ∧ decodeFrameHeader hb (ps_maxFrameSize p) 0 = Ok h ∧ ps_header p = Some h
  ∧ match ps_bodyBytes p with
    | None => True
    | Some bytes => length bytes = body_size h ∧ (ps_bodyFill p < body_size h)%nat
    end.

Lemma parseBody_spec p chunk offset hb h :
  in_body p hb h → (offset ≤ length chunk)%nat →
  let r := parseBody p chunk offset h in
  let body := held_body p ++ drop offset chunk in
  same_stream p r.2 ∧
  if Nat.ltb (length body) (body_size h) then
    r.1 = None ∧ ps_frames r.2 = ps_frames p ∧ pending r.2 (hb ++ body)
  else
    r.1 = Some (offset + (body_size h - length (held_body p)))%nat
    ∧ ps_frames r.2 = ps_frames p ++ [(h, take (body_size h) body)] ∧ pending r.2 [].
Proof.
  intros (Hl & Hz & Hb & Hd & Hh & Hbody) Ho. cbn zeta.
  assert (∀ b, pending (emit p h b) []) as Hemit.
  { intros b. change [] with (take 0 (ps_headerBytes p)). rewrite <-Hz. apply (pending_header (emit p h b)); cbn; try done.
    rewrite Hz. unfold FRAME_HEADER_SIZE. lia. }
  unfold parseBody. fold (body_size h). destruct (Z.eqb_spec (fh_length h) 0) as [E0|E0].
  { assert (body_size h = 0)%nat as Hs by (unfold body_size; lia). rewrite Hs. cbn [Nat.ltb Nat.leb fst snd take Nat.sub].
    rewrite Nat.add_0_r. split; [done|]. done. }
  rewrite length_app, length_drop. unfold held_body. destruct (ps_bodyBytes p) as [bytes|] eqn:Eb; cbn [is_some negb andb].
  - destruct Hbody as [Hs Hf]. rewrite fill_count, length_take. set (n := ((body_size h - ps_bodyFill p) `min` (length chunk - offset))%nat).
    assert (length (take n (drop offset chunk)) = n) as Hn by (rewrite length_take, length_drop; lia).
    destruct (bytes_set_filled bytes (take n (drop offset chunk)) (ps_bodyFill p)) as [H1 H2]; [lia|]. rewrite Hn in H2.
    destruct (Nat.ltb_spec (ps_bodyFill p + n) (body_size h)) as [Hlt|Hge].
    + rewrite (proj2 (Nat.ltb_lt _ _)) by lia. cbn [fst snd]. split; [done|]. split_and!; [done..|].
      rewrite (take_ge (drop offset chunk) n) in H1, H2 |- * by (rewrite length_drop; lia). rewrite <-H2.
      apply (pending_body (set_body _ _ p) hb h); cbn; try done. by rewrite H1.
    + rewrite (proj2 (Nat.ltb_ge _ _)) by lia. cbn [fst snd]. split; [done|]. split_and!; [f_equal; lia| |done].
      cbn [emit ps_frames]. do 3 f_equal. rewrite <-(take_ge (bytes_set _ _ _) (ps_bodyFill p + n)) by lia. rewrite H2.
      rewrite take_app_ge by (rewrite length_take; lia). f_equal. f_equal. rewrite length_take. lia.
  - cbn [app length]. destruct (Nat.leb_spec (body_size h) (length chunk - offset)) as [Hle|Hgt].
    { rewrite (proj2 (Nat.ltb_ge _ _)) by lia. cbn [fst snd]. split; [done|]. split_and!; [f_equal; lia|done|done]. }
    rewrite fill_count. set (n := ((body_size h - 0) `min` (length chunk - offset))%nat).
    assert (length (take n (drop offset chunk)) = n) as Hn by (rewrite length_take, length_drop; lia).
    destruct (bytes_set_filled (replicate (body_size h) 0) (take n (drop offset chunk)) 0) as [H1 H2]; [rewrite length_replicate; lia|].
    rewrite length_replicate in H1. rewrite Hn in H2. rewrite !(proj2 (Nat.ltb_lt _ _)) by lia. cbn [fst snd].
    split; [done|]. split_and!; [done..|]. rewrite (take_ge (drop offset chunk) n) in H1, H2 |- * by (rewrite length_drop; lia).
    cbn [take app] in H2. rewrite <-H2 at 2.
    apply (pending_body (set_body _ _ p) hb h); cbn; try done. lia.
Qed.

(** What a turn of the loop leaves, given the first frame of what was held and what is read. *)
Definition turned (p : Parser) (chunk : list Z) (offset : nat) (rest : list Z) (r : (js_error + option nat) * Parser) : Prop :=
  same_stream p r.2 ∧
  match deframe1 (ps_maxFrameSize p) (rest ++ drop offset chunk) with
  | None => r.1 = inr None ∧ ps_frames r.2 = ps_frames p ∧ pending r.2 (rest ++ drop offset chunk)
  | Some (Throw e) => r.1 = inl e ∧ ps_frames r.2 = ps_frames p
  | Some (Ok (f, rest')) =>
      ∃ offset', r.1 = inr (Some offset') ∧ (offset < offset' ≤ length chunk)%nat ∧ rest' = drop offset' chunk
        ∧ ps_frames r.2 = ps_frames p ++ [f] ∧ pending r.2 []
  end.

Lemma held_body_short p hb h : in_body p hb h → (length (held_body p) ≤ body_size h)%nat.
Proof.
  intros (_ & _ & _ & _ & _ & H). unfold held_body. destruct (ps_bodyBytes p); [|cbn; lia]. rewrite length_take. lia.
Qed.

Lemma turned_body p p1 chunk offset off1 rest hb h :
  same_stream p p1 → ps_frames p1 = ps_frames p → in_body p1 hb h → (offset ≤ off1 ≤ length chunk)%nat →
  (offset < off1 ∨ length (held_body p1) < body_size h)%nat →
  rest ++ drop offset chunk = hb ++ held_body p1 ++ drop off1 chunk →
  turned p chunk offset rest (let '(next, p') := parseBody p1 chunk off1 h in (inr next, p')).
Proof.
  intros Hs Hf Hb Ho Hp Hr. pose proof (held_body_short _ _ _ Hb) as Hle. destruct (parseBody_spec p1 chunk off1 hb h Hb ltac:(lia)) as [Hs' H].
  destruct (parseBody p1 chunk off1 h) as [next p']. cbn [fst snd] in *.
  destruct Hb as (_ & _ & Hb & Hd & _). split; [by eapply same_stream_trans|]. cbn [fst snd]. rewrite Hr. unfold deframe1.
  rewrite length_app, (proj2 (Nat.ltb_ge _ _)) by lia. rewrite take_app_le, take_ge, drop_app_le, drop_ge by lia. cbn [app].
  destruct Hs as [<- _]. rewrite Hd. destruct (Nat.ltb_spec (length (held_body p1 ++ drop off1 chunk)) (body_size h)) as [Hlt|Hge].
  { destruct H as (-> & -> & ?). done. }
  destruct H as (-> & -> & Hpend). eexists. split; [done|]. rewrite Hf. rewrite length_app, length_drop in Hge.
  split_and!; [lia|lia| |done|done].
  rewrite drop_app_ge by done. by rewrite drop_drop.
Qed.

Lemma parse_turn_spec p chunk offset rest :
  pending p rest → (offset < length chunk)%nat → turned p chunk offset rest (parse_turn p chunk offset).
Proof.
  intros [Hl Hf Hn Hb|hb h bytes Hl Hz Hb Hd Hh Hbb Hs Hf] Ho; unfold parse_turn.
  2: { rewrite Hh. eapply turned_body with (off1 := offset); [done|done| |lia| |].
       - repeat split; try done. rewrite Hbb. done.
       - unfold held_body. rewrite Hbb, length_take. lia.
       - unfold held_body. rewrite Hbb. by rewrite <-app_assoc. }
  rewrite Hn. unfold parseHeader. destruct (Nat.eqb (ps_headerFill p) 0 && _) eqn:Ec.
  { rewrite andb_true_iff, Nat.eqb_eq, Nat.leb_le in Ec. destruct Ec as [E0 H16].
    rewrite E0. cbn [take]. rewrite decodeFrameHeader_local by done. destruct (decodeFrameHeader _ _ _) as [h|e] eqn:Ed.
    - cbn [set_header ps_header]. eapply turned_body with (hb := take FRAME_HEADER_SIZE (drop offset chunk)); [done|done| | | |].
      + repeat split; try done; [rewrite length_take, length_drop; lia|]. cbn [set_header ps_bodyBytes]. by rewrite Hb.
      + unfold FRAME_HEADER_SIZE in *. lia.
      + left. unfold FRAME_HEADER_SIZE. lia.
      + unfold held_body. cbn [set_header ps_bodyBytes]. rewrite Hb. cbn [app]. by rewrite <-drop_drop, take_drop.
    - split; [done|]. rewrite take_0, app_nil_l. unfold deframe1. rewrite length_drop, (proj2 (Nat.ltb_ge _ _)) by done. by rewrite Ed. }
  clear Ec. rewrite fill_count. set (n := ((FRAME_HEADER_SIZE - ps_headerFill p) `min` (length chunk - offset))%nat).
  assert (length (take n (drop offset chunk)) = n) as Hn' by (rewrite length_take, length_drop; lia).
  destruct (bytes_set_filled (ps_headerBytes p) (take n (drop offset chunk)) (ps_headerFill p)) as [H1 H2]; [lia|]. rewrite Hn' in H2.
  set (bytes := bytes_set _ _ _) in *. destruct (Nat.ltb_spec (ps_headerFill p + n) FRAME_HEADER_SIZE) as [Hlt|Hge].
  { cbn [set_header ps_header]. rewrite Hn. split; [done|]. cbn [fst snd]. rewrite (take_ge (drop offset chunk)) in H2 by (rewrite length_drop; lia).
    rewrite <-H2. unfold deframe1. rewrite length_take, (proj2 (Nat.ltb_lt _ _)) by lia. split_and!; [done..|].
    apply (pending_header (set_header bytes (ps_headerFill p + n) None p)); cbn; lia || done. }
  rewrite take_ge in H2 by lia.
  assert (take (ps_headerFill p) (ps_headerBytes p) ++ drop offset chunk = bytes ++ drop (offset + n) chunk) as Hall.
  { rewrite H2, <-app_assoc. f_equal. by rewrite <-drop_drop, take_drop. }
  cbn [set_header ps_maxFrameSize ps_header]. destruct (decodeFrameHeader bytes _ _) as [h|e] eqn:Ed.
  - cbn [ps_header]. eapply turned_body with (hb := bytes); [done|done| | | |].
    + repeat split; try done; [cbn [set_header ps_headerBytes]; lia|lia|]. cbn [set_header ps_bodyBytes]. by rewrite Hb.
    + lia.
    + left. lia.
    + unfold held_body. cbn [set_header ps_bodyBytes]. rewrite Hb. cbn [app]. done.
  - split; [done|]. cbn [fst snd]. rewrite Hall. unfold deframe1. rewrite length_app, (proj2 (Nat.ltb_ge _ _)) by lia.
    by rewrite take_app_le, take_ge, Ed by lia.
Qed.

Lemma parse_spec fuel p chunk offset rest :
  pending p rest → (offset ≤ length chunk < offset + fuel)%nat →
  let r := parse fuel p chunk offset in
  same_stream p r.2 ∧
  match deframe (ps_maxFrameSize p) (rest ++ drop offset chunk) with
  | (fs, Some rest') => r.1 = None ∧ ps_frames r.2 = ps_frames p ++ fs ∧ pending r.2 rest'
  | (fs, None) => is_some r.1 = true ∧ ps_frames r.2 = ps_frames p ++ fs
  end.
Proof.
  revert p offset rest. induction fuel as [|fuel IH]; intros p offset rest Hp Ho; [lia|]. cbn zeta. cbn [parse].
  destruct (Nat.ltb_spec offset (length chunk)) as [Hlt|Hge].
  2: { rewrite drop_ge, app_nil_r, deframe_unfold, (pending_deframe _ _ Hp) by lia. rewrite app_nil_r. by repeat split. }
  pose proof (parse_turn_spec _ _ _ _ Hp Hlt) as [Hs Ht]. rewrite deframe_unfold.
  destruct (parse_turn p chunk offset) as [next p']. cbn [fst snd] in *.
  destruct (deframe1 _ _) as [[[f rest']|e]|]; rewrite ?app_nil_r.
  - destruct Ht as (offset' & -> & Ho' & -> & Hf & Hp'). destruct (IH p' offset' [] Hp' ltac:(lia)) as [Hs' H'].
    cbn [app] in H'. rewrite (proj1 Hs), Hf in H'. split; [by eapply same_stream_trans|].
    destruct (deframe _ (drop offset' chunk)) as [fs [r|]]; rewrite <-app_assoc in H'; exact H'.
  - destruct Ht as [-> Hf]. done.
  - destruct Ht as (-> & Hf & Hp'). done.
Qed.

(** A parser that has read a stream. *)
Definition has_read (max : Z) (p : Parser) (bytes : list Z) : Prop :=
  ps_maxFrameSize p = max ∧ ps_closed p = false ∧
  match deframe max bytes with
  | (fs, Some rest) => ps_frames p = fs ∧ ps_broken p = false ∧ pending p rest
  | (fs, None) => ps_frames p = fs ∧ ps_broken p = true
  end.

Lemma onData_has_read max p bytes chunk : has_read max p bytes → has_read max (onData p chunk) (bytes ++ chunk).
Proof.
  intros (Hm & Hc & H). unfold has_read, onData. rewrite Hc, deframe_app. destruct (deframe max bytes) as [fs [rest|]].
  2: { destruct H as [Hf Hb]. rewrite Hb. done. }
  destruct H as (Hf & Hb & Hp). rewrite Hb. cbn [orb].
  destruct (parse_spec (S (length chunk)) p chunk 0 rest Hp ltac:(lia)) as [(Hm' & Hb' & Hc') H]. rewrite drop_0, Hm in H.
  destruct (parse _ p chunk 0) as [r p']. cbn [fst snd] in *. rewrite Hf in H.
  destruct (deframe max (rest ++ chunk)) as [fs' [rest'|]].
  - destruct H as (-> & Hf' & Hp'). rewrite Hm', Hb', Hc'. done.
  - destruct H as [Hr Hf']. destruct r; [|done]. cbn. rewrite Hm', Hc'. done.
Qed.

Lemma foldl_has_read max chunks p bytes :
  has_read max p bytes → has_read max (foldl onData p chunks) (bytes ++ concat chunks).
Proof.
  revert p bytes. induction chunks as [|c chunks IH]; intros p bytes H; cbn [foldl concat]; [by rewrite app_nil_r|].
  rewrite app_assoc. apply IH. by apply onData_has_read.
Qed.

Lemma new_Parser_has_read max : has_read max (new_Parser max) [].
Proof. repeat split. apply (pending_header (new_Parser max)); cbn; unfold FRAME_HEADER_SIZE; lia || done. Qed.

(** C19: the resumable parser is insensitive to how the socket cuts the stream. For every byte
    stream, well formed or not, and every cut of it into chunks, the frames handed to the owner
    are those of the reference deframer on the whole stream, in order, and parsing has stopped
    exactly when the stream has a protocol violation. *)
Theorem parser_chunking (max : Z) (chunks : list (list Z)) :
  let p := foldl onData (new_Parser max) chunks in
  let '(fs, rest) := deframe max (concat chunks) in
  ps_frames p = fs ∧ ps_broken p = negb (is_some rest).
Proof.
  cbn zeta. pose proof (foldl_has_read max chunks _ _ (new_Parser_has_read max)) as (_ & _ & H). cbn [app] in H.
  destruct (deframe max (concat chunks)) as [fs [rest|]]; cbn; naive_solver.
Qed.

(** ** The stream of well-formed frames *)

Definition wire (f : frame) : list Z := header_bytes f.1 ++ f.2.

(** A frame the receiver's bound lets through. *)
Definition frame_ok (max : Z) (f : frame) : Prop :=
  header_ok f.1 ∧ fh_length f.1 = Z.of_nat (length f.2) ∧ fh_length f.1 ≤ (if max =? 0 then MIN_MAX_FRAME_SIZE else max).

Lemma deframe1_wire max f more : frame_ok max f → deframe1 max (wire f ++ more) = Some (Ok (f, more)).
Proof.
  intros (Hh & Hl & Hm). destruct f as [h body]. unfold wire, deframe1. cbn [fst snd] in *.
  rewrite <-app_assoc, length_app, length_header_bytes, (proj2 (Nat.ltb_ge _ _)) by lia.
  rewrite take_app_length', drop_app_length' by done. rewrite <-(app_nil_r (header_bytes h)), decode_header_bytes by done.
  assert (body_size h = length body) as -> by (unfold body_size; lia).
  rewrite length_app, (proj2 (Nat.ltb_ge _ _)) by lia. by rewrite take_app_length, drop_app_length.
Qed.

Lemma deframe_wire max fs : Forall (frame_ok max) fs → deframe max (concat (wire <$> fs)) = (fs, Some []).
Proof.
  induction 1 as [|f fs Hf _ IH]; [done|]. cbn [fmap list_fmap concat]. rewrite deframe_unfold, deframe1_wire by done. by rewrite IH.
Qed.

(** A prefix of a well-formed stream has a prefix of its frames and no violation. *)
Lemma deframe_prefix max fs bytes :
  Forall (frame_ok max) fs → bytes `prefix_of` concat (wire <$> fs) →
  ∃ rest, (deframe max bytes).2 = Some rest ∧ (deframe max bytes).1 `prefix_of` fs.
Proof.
  intros Hf [more Hm]. apply deframe_wire in Hf. rewrite Hm, deframe_app in Hf.
  destruct (deframe max bytes) as [fs' [rest|]]; [|done]. exists rest. split; [done|].
  destruct (deframe max (rest ++ more)) as [fs'' r]. injection Hf as <- _. by apply prefix_app_r.
Qed.
