(* ===== verification/NetConn.v ===== *)
(** * The framed connection ([src/net/conn.ts])

    The write side of [FramedConn]: accepted frames queue, a flush at the microtask boundary
    (or at once, for a full batch) drains them in batches of one socket write each, a large
    body goes out as a write of its own, backpressure parks the flush until [drain], and a
    write deadline destroys a connection without progress.  With the parser of [NetFrame]
    at the other end it is a FIFO channel of frames.  The socket is Node's: whether its n-th
    [write] reports room is a parameter, and its callbacks and events are steps that may come
    in any order. *)
From S2P Require Import Prelude JsNumber JsString ByteIO NetBytes NetQueue NetFrame.

Definition COPY_THRESHOLD : nat := 4096.
Definition BATCH_FRAMES : nat := 128.
Definition BATCH_BYTES : Z := 64 * 1024.

Record OutboundFrame := MkOutbound {
  of_type : Z;
  of_flags : Z;
  of_lane : Z;
  of_correlation : Z;
  of_body : option (list Z);
  of_wrote : option Z }.

(** The header fields flattened beside the body and the confirmation token. *)
Record QueuedFrame := MkQueued { qf_header : FrameHeader; qf_body : option (list Z); qf_wrote : option Z }.

(** A write callback that has not run: the bytes it accounts for and its tokens. *)
Record WriteCallback := MkCallback { wc_accounted : Z; wc_wrote : list Z }.

(** The send queue and the batch writer. *)
Record SendQueue := MkSend {
  sq_queue : HeadQueue QueuedFrame;
  sq_batch : NetWriter;
  sq_queuedBytes : Z;
  sq_framesSent : nat }.

(** The socket's write half, with the fields that follow it: the writes issued, the callbacks
    outstanding and the number run, and the clock. *)
Record Socket := MkSocket {
  sk_writes : list (list Z);
  sk_callbacks : list WriteCallback;
  sk_completed : nat;
  sk_failed : bool;
  sk_inFlightBytes : Z;
  sk_blocked : bool;
  sk_now : Z;
  sk_lastWriteProgress : Z;
  sk_writeTimer : option Z }.

(** The lifecycle flags, what the socket was told and what the owner was told. *)
Record Life := MkLife {
  lf_flushScheduled : bool;
  lf_ending : bool;
  lf_closed : bool;
  lf_closeError : option js_error;
  lf_closeReported : bool;
  lf_ended : bool;
  lf_destroyed : bool;
  lf_wrote : list Z;
  lf_onClose : list (option js_error) }.

Record Conn := MkConn { cn_send : SendQueue; cn_socket : Socket; cn_life : Life }.

Definition ErrWriteTimeout : js_error := PlainError "tcp write timed out".
Definition ErrConnClosed : js_error := PlainError "tcp connection is closed".

Section conn.
Context (batchFrames : nat) (writeTimeoutMs : Z) (flushed : nat → bool).

Definition new_Conn (now : Z) : Conn :=
  MkConn (MkSend new_HeadQueue (new_NetWriter (Z.to_nat BATCH_BYTES)) 0 0)
    (MkSocket [] [] 0 false 0 false now 0 None)
    (MkLife false false false None false false false [] []).

Definition outstandingBytes (c : Conn) : Z := sq_queuedBytes (cn_send c) + sk_inFlightBytes (cn_socket c).

(** ** Setters *)

Definition on_send (f : SendQueue → SendQueue) (c : Conn) : Conn := MkConn (f (cn_send c)) (cn_socket c) (cn_life c).
Definition on_socket (f : Socket → Socket) (c : Conn) : Conn := MkConn (cn_send c) (f (cn_socket c)) (cn_life c).
Definition on_life (f : Life → Life) (c : Conn) : Conn := MkConn (cn_send c) (cn_socket c) (f (cn_life c)).

Definition set_timer (t : option Z) (s : Socket) : Socket :=
  MkSocket (sk_writes s) (sk_callbacks s) (sk_completed s) (sk_failed s) (sk_inFlightBytes s) (sk_blocked s) (sk_now s)
    (sk_lastWriteProgress s) t.

Definition set_scheduled (b : bool) (l : Life) : Life :=
  MkLife b (lf_ending l) (lf_closed l) (lf_closeError l) (lf_closeReported l) (lf_ended l) (lf_destroyed l) (lf_wrote l) (lf_onClose l).

(** ** Writing out *)

Definition armWriteTimer (s : Socket) : Socket :=
  if (writeTimeoutMs <=? 0) || is_some (sk_writeTimer s) then s else set_timer (Some writeTimeoutMs) s.

Definition clearWriteTimer (s : Socket) : Socket := set_timer None s.

Definition writeOut (bytes : list Z) (accounted : Z) (wrote : list Z) (s : Socket) : Socket :=
  let s := MkSocket (sk_writes s) (sk_callbacks s) (sk_completed s) (sk_failed s) (sk_inFlightBytes s + accounted) (sk_blocked s)
             (sk_now s) (sk_now s) (sk_writeTimer s) in
  let s := armWriteTimer s in
  MkSocket (sk_writes s ++ [bytes]) (sk_callbacks s ++ [MkCallback accounted wrote]) (sk_completed s) (sk_failed s)
    (sk_inFlightBytes s) (sk_blocked s || negb (flushed (length (sk_writes s)))) (sk_now s) (sk_lastWriteProgress s) (sk_writeTimer s).

(** The locals of [flushBatch]. *)
Record Batching := MkBatching {
  bt_queue : HeadQueue QueuedFrame;
  bt_batch : NetWriter;
  bt_frames : nat;
  bt_batched : Z;
  bt_large : option (list Z * option Z);
  bt_wrote : list Z }.

Definition isLarge (q : QueuedFrame) : bool :=
  match qf_body q with Some body => Nat.ltb COPY_THRESHOLD (length body) | None => false end.

Definition tokens (q : QueuedFrame) : list Z := match qf_wrote q with Some t => [t] | None => [] end.

Fixpoint batch_loop (fuel : nat) (b : Batching) : result Batching :=
  match fuel with
  | O => Ok b
  | S fuel =>
      if Nat.ltb (bt_frames b) batchFrames && (Z.of_nat (nw_length (bt_batch b)) <? BATCH_BYTES) then
        match hq_peek (bt_queue b) with
        | None => Ok b
        | Some next =>
            if isLarge next && Nat.ltb 0 (nw_length (bt_batch b)) then Ok b
            else
              let queue := (hq_shift (bt_queue b)).2 in
              let! batch := encodeFrameHeader (qf_header next) (bt_batch b) in
              let batched := bt_batched b + Z.of_nat FRAME_HEADER_SIZE + fh_length (qf_header next) in
              if isLarge next then
                Ok (MkBatching queue batch (S (bt_frames b)) batched (Some (default [] (qf_body next), qf_wrote next)) (bt_wrote b))
              else
                let batch := match qf_body next with Some body => writeBytes body batch | None => batch end in
                batch_loop fuel (MkBatching queue batch (S (bt_frames b)) batched None (bt_wrote b ++ tokens next))
        end
      else Ok b
  end.

Definition flushBatch (c : Conn) : result Conn :=
  let q := cn_send c in
  let! b := batch_loop (S (hq_length (sq_queue q))) (MkBatching (sq_queue q) (nw_reset (sq_batch q)) 0 0 None []) in
  let send := MkSend (bt_queue b) (bt_batch b) (sq_queuedBytes q - bt_batched b) (sq_framesSent q + bt_frames b) in
  let bytes := nw_out (bt_batch b) in
  let socket :=
    match bt_large b with
    | None => writeOut bytes (bt_batched b) (bt_wrote b) (cn_socket c)
    | Some (body, wrote) =>
        let n := Z.of_nat (length body) in
        writeOut body n (match wrote with Some t => [t] | None => [] end)
          (writeOut bytes (bt_batched b - n) (bt_wrote b) (cn_socket c))
    end in
  Ok (MkConn send socket (cn_life c)).

Definition maybeFinishEnd (c : Conn) : Conn :=
  let l := cn_life c in
  if negb (lf_ending l) || lf_closed l then c
  else if Nat.eqb (hq_length (sq_queue (cn_send c))) 0 && (sk_inFlightBytes (cn_socket c) =? 0) then
    on_life (λ l, MkLife (lf_flushScheduled l) (lf_ending l) (lf_closed l) (lf_closeError l) (lf_closeReported l) true
                    (lf_destroyed l) (lf_wrote l) (lf_onClose l)) c
  else c.

Definition scheduleFlush (c : Conn) : Conn :=
  if lf_flushScheduled (cn_life c) || sk_blocked (cn_socket c) || lf_closed (cn_life c) then c else on_life (set_scheduled true) c.

(** [while (guard) this.flushBatch()]: a batch takes a frame whenever there is one. *)
Fixpoint batches_while (guard : Conn → bool) (fuel : nat) (c : Conn) : result Conn :=
  match fuel with
  | O => Ok c
  | S fuel => if guard c then let! c := flushBatch c in batches_while guard fuel c else Ok c
  end.

Definition flush_guard (c : Conn) : bool :=
  negb (sk_blocked (cn_socket c)) && negb (lf_closed (cn_life c)) && Nat.ltb 0 (hq_length (sq_queue (cn_send c))).

Definition flush (c : Conn) : result Conn :=
  let! c := batches_while flush_guard (S (hq_length (sq_queue (cn_send c)))) c in Ok (maybeFinishEnd c).

(** The microtask [scheduleFlush] queued. *)
Definition flush_task (c : Conn) : result Conn := flush (on_life (set_scheduled false) c).

(** A full batch is queued and the socket has room: [send] writes it at once. *)
Definition send_guard (c : Conn) : bool := negb (sk_blocked (cn_socket c)) && (BATCH_BYTES <=? sq_queuedBytes (cn_send c)).

Definition entry_of (f : OutboundFrame) : QueuedFrame :=
  MkQueued (MkHeader (of_type f) (of_flags f) (of_lane f) (match of_body f with None => 0 | Some b => Z.of_nat (length b) end) (of_correlation f))
    (of_body f) (of_wrote f).

(** [send]: the error it returns, or the connection with the frame accepted. *)
Definition send (f : OutboundFrame) (c : Conn) : result (option js_error * Conn) :=
  if lf_closed (cn_life c) || lf_ending (cn_life c) then Ok (Some ErrConnClosed, c)
  else
    let entry := entry_of f in
    let! _ := validateFrameHeader (qf_header entry) in
    let q := cn_send c in
    let c := on_send (λ q, MkSend (hq_push entry (sq_queue q)) (sq_batch q)
                             (sq_queuedBytes q + Z.of_nat FRAME_HEADER_SIZE + fh_length (qf_header entry)) (sq_framesSent q)) c in
    let! c := batches_while send_guard (S (hq_length (sq_queue (cn_send c)))) c in
    Ok (None, scheduleFlush c).

(** ** Closing *)

Definition reportClose (c : Conn) : Conn :=
  on_life (λ l, if lf_closeReported l then l
                else MkLife (lf_flushScheduled l) (lf_ending l) (lf_closed l) (lf_closeError l) true (lf_ended l) (lf_destroyed l) (lf_wrote l)
                       (lf_onClose l ++ [lf_closeError l])) c.

Definition endConn (c : Conn) : Conn :=
  if lf_closed (cn_life c) || lf_ending (cn_life c) then c
  else
    let c := on_life (λ l, MkLife (lf_flushScheduled l) true (lf_closed l) (lf_closeError l) (lf_closeReported l) (lf_ended l)
                             (lf_destroyed l) (lf_wrote l) (lf_onClose l)) c in
    maybeFinishEnd (scheduleFlush c).

Definition or_else {A} (x y : option A) : option A := match x with Some _ => x | None => y end.

Definition destroy (error : option js_error) (c : Conn) : Conn :=
  if lf_closed (cn_life c) then c
  else
    let c := MkConn (MkSend (hq_clear (sq_queue (cn_send c))) (sq_batch (cn_send c)) 0 (sq_framesSent (cn_send c)))
               (clearWriteTimer (cn_socket c))
               (let l := cn_life c in MkLife (lf_flushScheduled l) (lf_ending l) true (or_else (lf_closeError l) error) (lf_closeReported l)
                                        (lf_ended l) true (lf_wrote l) (lf_onClose l)) in
    reportClose c.

(** ** The socket's events *)

(** A write callback's accounting and confirmations. *)
Definition confirm (failed : bool) (cb : WriteCallback) (rest : list WriteCallback) (c : Conn) : Conn :=
  let s := cn_socket c in
  let l := cn_life c in
  MkConn (cn_send c)
    (MkSocket (sk_writes s) rest (S (sk_completed s)) (sk_failed s || failed) (sk_inFlightBytes s - wc_accounted cb) (sk_blocked s)
       (sk_now s) (sk_lastWriteProgress s) (sk_writeTimer s))
    (MkLife (lf_flushScheduled l) (lf_ending l) (lf_closed l) (lf_closeError l) (lf_closeReported l) (lf_ended l) (lf_destroyed l)
       (lf_wrote l ++ (if failed then [] else wc_wrote cb)) (lf_onClose l)).

Definition stamp_progress (s : Socket) : Socket :=
  MkSocket (sk_writes s) (sk_callbacks s) (sk_completed s) (sk_failed s) (sk_inFlightBytes s) (sk_blocked s) (sk_now s) (sk_now s) (sk_writeTimer s).

(** The callback of the oldest outstanding write. *)
Definition write_callback (failed : bool) (c : Conn) : Conn :=
  match sk_callbacks (cn_socket c) with
  | [] => c
  | cb :: rest =>
      let c := confirm failed cb rest c in
      if lf_closed (cn_life c) then c
      else
        let c := on_socket stamp_progress c in
        if sk_inFlightBytes (cn_socket c) =? 0 then maybeFinishEnd (on_socket clearWriteTimer c) else c
  end.

Definition onDrain (c : Conn) : Conn :=
  scheduleFlush (on_socket (λ s, MkSocket (sk_writes s) (sk_callbacks s) (sk_completed s) (sk_failed s) (sk_inFlightBytes s) false
                                   (sk_now s) (sk_lastWriteProgress s) (sk_writeTimer s)) c).

Definition onError (error : js_error) (c : Conn) : Conn :=
  on_life (λ l, MkLife (lf_flushScheduled l) (lf_ending l) (lf_closed l) (or_else (lf_closeError l) (Some error)) (lf_closeReported l) (lf_ended l)
                  (lf_destroyed l) (lf_wrote l) (lf_onClose l)) c.

Definition onSocketClose (c : Conn) : Conn :=
  reportClose (MkConn (cn_send c) (clearWriteTimer (cn_socket c))
    (let l := cn_life c in MkLife (lf_flushScheduled l) (lf_ending l) true (lf_closeError l) (lf_closeReported l) (lf_ended l) (lf_destroyed l)
                             (lf_wrote l) (lf_onClose l))).

Definition onWriteDeadline (c : Conn) : Conn :=
  let c := on_socket (set_timer None) c in
  let s := cn_socket c in
  let elapsed := sk_now s - sk_lastWriteProgress s in
  if writeTimeoutMs <=? elapsed then destroy (Some ErrWriteTimeout) c
  else on_socket (set_timer (Some (writeTimeoutMs - elapsed))) c.

(** ** Runs *)

Inductive event :=
  | Send (f : OutboundFrame)
  | Flush
  | End
  | Destroy (e : option js_error)
  | Callback (failed : bool)
  | Drain
  | SocketError (e : js_error)
  | SocketClose
  | Deadline
  | Tick (now : Z).

(** A step with the frames accepted so far; a microtask or a deadline runs when one is due. *)
Definition conn_step (e : event) (st : Conn * list QueuedFrame) : result (Conn * list QueuedFrame) :=
  let '(c, accepted) := st in
  match e with
  | Send f =>
      let! r := send f c in
      Ok (r.2, if is_some r.1 then accepted else accepted ++ [entry_of f])
  | Flush => if lf_flushScheduled (cn_life c) then let! c := flush_task c in Ok (c, accepted) else Ok st
  | End => Ok (endConn c, accepted)
  | Destroy e => Ok (destroy e c, accepted)
  | Callback failed => Ok (write_callback failed c, accepted)
  | Drain => Ok (onDrain c, accepted)
  | SocketError e => Ok (onError e c, accepted)
  | SocketClose => Ok (onSocketClose c, accepted)
  | Deadline => if is_some (sk_writeTimer (cn_socket c)) then Ok (onWriteDeadline c, accepted) else Ok st
  | Tick now => Ok (on_socket (λ s, MkSocket (sk_writes s) (sk_callbacks s) (sk_completed s) (sk_failed s) (sk_inFlightBytes s) (sk_blocked s)
                                      now (sk_lastWriteProgress s) (sk_writeTimer s)) c, accepted)
  end.

Fixpoint conn_run (es : list event) (st : Conn * list QueuedFrame) : result (Conn * list QueuedFrame) :=
  match es with
  | [] => Ok st
  | e :: es => let! st := conn_step e st in conn_run es st
  end.
End conn.

(** ** What the writes carry *)

Definition frame_of (q : QueuedFrame) : frame := (qf_header q, default [] (qf_body q)).

Definition wires (qs : list QueuedFrame) : list Z := concat (wire <$> (frame_of <$> qs)).

Definition q_ok (q : QueuedFrame) : Prop :=
  header_ok (qf_header q) ∧ fh_length (qf_header q) = Z.of_nat (length (default [] (qf_body q))).

Lemma wires_app l k : wires (l ++ k) = wires l ++ wires k.
Proof. unfold wires. by rewrite !fmap_app, concat_app. Qed.

Lemma wires_cons q l : wires (q :: l) = wires [q] ++ wires l.
Proof. exact (wires_app [q] l). Qed.

Lemma wires_one q : wires [q] = header_bytes (qf_header q) ++ default [] (qf_body q).
Proof. unfold wires. cbn. by rewrite app_nil_r. Qed.

Lemma length_wires_one q : q_ok q → Z.of_nat (length (wires [q])) = Z.of_nat FRAME_HEADER_SIZE + fh_length (qf_header q).
Proof. intros [_ ->]. rewrite wires_one, length_app, length_header_bytes. lia. Qed.

(** The frames a sequence of writes carries and the tokens of each write: whole batches, or a
    header and the large body behind it. *)
Inductive laid : list QueuedFrame → list (list Z) → list (list Z) → Prop :=
  | laid_nil : laid [] [] []
  | laid_batch fs b ws ts : laid fs ws ts → laid (fs ++ b) (ws ++ [wires b]) (ts ++ [b ≫= tokens])
  | laid_large fs b q ws ts :
      laid fs ws ts → isLarge q = true →
      laid (fs ++ b ++ [q]) (ws ++ [wires b ++ header_bytes (qf_header q); default [] (qf_body q)]) (ts ++ [b ≫= tokens; tokens q]).

Lemma laid_lengths fs ws ts : laid fs ws ts → length ts = length ws.
Proof. induction 1; [done|rewrite !length_app; cbn; lia..]. Qed.

Lemma laid_wires fs ws ts : laid fs ws ts → concat ws = wires fs.
Proof.
  induction 1 as [|fs b ws ts _ IH|fs b q ws ts _ IH]; [done|..].
  - rewrite concat_app, wires_app, IH. cbn. by rewrite app_nil_r.
  - rewrite concat_app, !wires_app, IH, wires_one. cbn. by rewrite app_nil_r, <-app_assoc.
Qed.

Lemma laid_tokens fs ws ts : laid fs ws ts → concat ts = fs ≫= tokens.
Proof.
  induction 1 as [|fs b ws ts _ IH|fs b q ws ts _ IH]; [done|..]; rewrite concat_app, !bind_app, IH; cbn; by rewrite !app_nil_r.
Qed.

Lemma wires_snoc_length fs q : length (wires (fs ++ [q])) = (length (wires fs) + FRAME_HEADER_SIZE + length (default [] (qf_body q)))%nat.
Proof. rewrite wires_app, wires_one, !length_app, length_header_bytes. lia. Qed.

(** The frames [fs'] are those whole inside the first [k] writes: the next frame, whatever is
    sent after [fs], is not. *)
Definition carried (k : nat) (fs : list QueuedFrame) (ws ts : list (list Z)) : Prop :=
  ∃ fs', fs' `prefix_of` fs ∧ concat (take k ts) = fs' ≫= tokens ∧ wires fs' `prefix_of` concat (take k ws)
    ∧ ∀ more q, fs' ++ [q] `prefix_of` fs ++ more → (length (concat (take k ws)) < length (wires (fs' ++ [q])))%nat.

Lemma laid_whole fs ws ts k : laid fs ws ts → (length ws ≤ k)%nat → carried k fs ws ts.
Proof.
  intros H Hk. exists fs. rewrite !take_ge by (rewrite ?(laid_lengths _ _ _ H); done).
  rewrite (laid_wires _ _ _ H), (laid_tokens _ _ _ H). split_and!; try done.
  intros more q _. rewrite wires_snoc_length. unfold FRAME_HEADER_SIZE. lia.
Qed.

Lemma carried_more k fs more ws wmore ts tmore :
  carried k fs ws ts → (k ≤ length ws)%nat → length ts = length ws → carried k (fs ++ more) (ws ++ wmore) (ts ++ tmore).
Proof.
  intros (fs' & ? & ? & ? & Hmax) Hk Hl. exists fs'. rewrite !take_app_le by lia. split_and!; [by apply prefix_app_r|done..|].
  intros more' q. rewrite <-app_assoc. apply Hmax.
Qed.

(** The first writes carry the first frames whole, and their tokens. *)
Lemma laid_carried fs ws ts k : laid fs ws ts → carried k fs ws ts.
Proof.
  induction 1 as [|fs b ws ts H IH|fs b q ws ts H IH Hq]; [by apply laid_whole; [constructor|cbn; lia]|..]; pose proof (laid_lengths _ _ _ H) as Hl.
  - destruct (Nat.le_gt_cases k (length ws)) as [Hk|Hk]; [by apply carried_more|].
    apply laid_whole; [by constructor|]. rewrite length_app. cbn. lia.
  - destruct (Nat.le_gt_cases k (length ws)) as [Hk|Hk]; [by apply carried_more|].
    destruct (decide (k = S (length ws))) as [->|]; [|apply laid_whole; [by constructor|]; rewrite length_app; cbn; lia].
    exists (fs ++ b). rewrite !take_app_ge by lia. rewrite Hl, Nat.sub_succ_l, Nat.sub_diag by done. cbn [take].
    rewrite !concat_app, (laid_wires _ _ _ H), (laid_tokens _ _ _ H), bind_app, wires_app. cbn [concat mbind list_bind]. rewrite !app_nil_r.
    split; [rewrite app_assoc; by apply prefix_app_r|]. split; [done|]. split; [rewrite app_assoc; by apply prefix_app_r|].
    intros more q' Hpre. rewrite <-!app_assoc, !app_assoc in Hpre. rewrite <-(app_assoc (fs ++ b)) in Hpre.
    apply prefix_app_inv, prefix_cons_inv_1 in Hpre as <-. rewrite wires_snoc_length, !wires_app, !length_app, length_header_bytes.
    unfold isLarge in Hq. destruct (qf_body q'); [|done]. apply Nat.ltb_lt in Hq. unfold COPY_THRESHOLD in Hq. cbn. lia.
Qed.

(** ** One batch *)

Section batches.
Context (batchFrames : nat) (writeTimeoutMs : Z) (flushed : nat → bool).

(** What a batch has taken from the queue and written since [b]. *)
Definition batched (b : Batching) (taken rest : list QueuedFrame) (b' : Batching) : Prop :=
  hq_repr (bt_queue b') rest ∧ nw_ok (bt_batch b')
  ∧ bt_batched b' = bt_batched b + Z.of_nat (length (wires taken))
  ∧ match bt_large b' with
    | None => nw_out (bt_batch b') = nw_out (bt_batch b) ++ wires taken ∧ bt_wrote b' = bt_wrote b ++ (taken ≫= tokens)
    | Some (body, wrote) =>
        ∃ t q, isLarge q = true ∧ taken = t ++ [q] ∧ body = default [] (qf_body q) ∧ wrote = qf_wrote q
          ∧ nw_out (bt_batch b') = nw_out (bt_batch b) ++ wires t ++ header_bytes (qf_header q)
          ∧ bt_wrote b' = bt_wrote b ++ (t ≫= tokens)
    end.

Lemma batched_cons b b1 b' q taken rest :
  q_ok q → nw_out (bt_batch b1) = nw_out (bt_batch b) ++ wires [q] → bt_wrote b1 = bt_wrote b ++ tokens q →
  bt_batched b1 = bt_batched b + Z.of_nat FRAME_HEADER_SIZE + fh_length (qf_header q) →
  batched b1 taken rest b' → batched b (q :: taken) rest b'.
Proof.
  intros Hq Ho Hw Hb (Hr & Hn & Hb' & H). split_and!; [done|done| |].
  - rewrite (wires_cons q taken), length_app, Nat2Z.inj_add, length_wires_one by done. lia.
  - destruct (bt_large b') as [[body wrote]|].
    + destruct H as (t & q' & Hlq & -> & Hbody & Hwr & Ho' & Hw'). exists (q :: t), q'. rewrite Ho', Hw', Ho, Hw, (wires_cons q t), bind_cons.
      by rewrite <-!app_assoc.
    + destruct H as [Ho' Hw']. rewrite Ho', Hw', Ho, Hw, (wires_cons q taken), bind_cons. by rewrite <-!app_assoc.
Qed.

Lemma nw_length_out w : nw_ok w → nw_length w = length (nw_out w).
Proof. intros [H _]. unfold nw_out. rewrite length_take. lia. Qed.

Lemma batch_loop_spec fuel b l :
  hq_repr (bt_queue b) l → nw_ok (bt_batch b) → Forall q_ok l → bt_large b = None →
  ∃ b' taken rest, batch_loop batchFrames fuel b = Ok b' ∧ l = taken ++ rest ∧ batched b taken rest b'
    ∧ ((0 < fuel)%nat → (bt_frames b < batchFrames)%nat → nw_length (bt_batch b) = 0%nat → l ≠ [] → taken ≠ []).
Proof.
  revert b l. induction fuel as [|fuel IH]; intros b l Hr Hn Hl Hlarge; cbn [batch_loop].
  all: assert (batched b [] l b) as Hnone by (split_and!; [done|done|cbn; lia|]; rewrite Hlarge; cbn; by rewrite !app_nil_r).
  { exists b, [], l. split_and!; [done..|]. lia. }
  destruct (_ && _) eqn:Eg.
  2: { exists b, [], l. split_and!; [done..|]. intros _ Hf H0 _. rewrite H0, (proj2 (Nat.ltb_lt _ _)) in Eg by done. done. }
  rewrite (hq_peek_repr _ _ Hr). destruct l as [|q l]; [by exists b, [], []|].
  cbn [head]. apply Forall_cons in Hl as [Hq Hl]. destruct (isLarge q && _) eqn:El.
  { exists b, [], (q :: l). split_and!; [done..|]. intros _ _ H0 _. by rewrite H0, andb_false_r in El. }
  clear El.
  destruct (encodeFrameHeader_spec (qf_header q) (bt_batch b) Hn (proj1 Hq)) as (w & -> & Hw & Hout). cbn [result_bind].
  pose proof (proj2 (hq_shift_repr _ _ Hr)) as Hs. cbn [tail] in Hs. destruct (isLarge q) eqn:Elq.
  - eexists _, [q], l. split; [done|]. split; [done|]. split; [split_and!; [done|done| |]|].
    + cbn [bt_batched]. rewrite length_wires_one by done. lia.
    + cbn [bt_large]. exists [], q. cbn [bt_batch bt_wrote mbind list_bind]. rewrite Hout, app_nil_r. done.
    + done.
  - set (w' := match qf_body q with Some body => writeBytes body w | None => w end).
    assert (appends (default [] (qf_body q)) w w') as [Hw' Hout'].
    { unfold w'. destruct (qf_body q); [by apply writeBytes_spec|]. split; [done|]. by rewrite app_nil_r. }
    destruct (IH (MkBatching _ w' (S (bt_frames b)) (bt_batched b + Z.of_nat FRAME_HEADER_SIZE + fh_length (qf_header q)) None
      (bt_wrote b ++ tokens q)) l Hs Hw' Hl eq_refl) as (b' & taken & rest & -> & -> & Hb' & _).
    exists b', (q :: taken), rest. split; [done|]. split; [done|]. split; [|done]. eapply batched_cons; [done|..|done]; try done.
    cbn [bt_batch]. by rewrite Hout', Hout, wires_one, app_assoc.
Qed.

(** ** The writes issued *)

Definition total (cbs : list WriteCallback) : Z := foldr Z.add 0 (wc_accounted <$> cbs).

Definition issued (ws : list (list Z)) (cbs : list WriteCallback) (s s' : Socket) : Prop :=
  sk_writes s' = sk_writes s ++ ws ∧ sk_callbacks s' = sk_callbacks s ++ cbs ∧ sk_completed s' = sk_completed s
  ∧ sk_failed s' = sk_failed s ∧ sk_inFlightBytes s' = sk_inFlightBytes s + total cbs.

Lemma total_app cbs cbs' : total (cbs ++ cbs') = total cbs + total cbs'.
Proof. unfold total. rewrite fmap_app, foldr_app. induction (wc_accounted <$> cbs); cbn; lia. Qed.

Lemma writeOut_issued bytes accounted wrote s :
  issued [bytes] [MkCallback accounted wrote] s (writeOut writeTimeoutMs flushed bytes accounted wrote s).
Proof. unfold issued, writeOut, armWriteTimer, total. destruct (_ || _); cbn; split_and!; done || lia. Qed.

Lemma issued_trans ws cbs ws' cbs' s s1 s2 :
  issued ws cbs s s1 → issued ws' cbs' s1 s2 → issued (ws ++ ws') (cbs ++ cbs') s s2.
Proof.
  intros (A1 & A2 & A3 & A4 & A5) (B1 & B2 & B3 & B4 & B5). unfold issued. rewrite B1, B2, B3, B4, B5, A1, A2, A3, A4, A5, total_app, !app_assoc.
  split_and!; done || lia.
Qed.

(** A socket has been given the frames [sent]; [log] is what was confirmed. *)
Definition carries (sent : list QueuedFrame) (log : list Z) (s : Socket) : Prop :=
  ∃ ts, laid sent (sk_writes s) ts
    ∧ (sk_completed s + length (sk_callbacks s) = length (sk_writes s))%nat
    ∧ wc_wrote <$> sk_callbacks s = drop (sk_completed s) ts
    ∧ wc_accounted <$> sk_callbacks s = (λ w, Z.of_nat (length w)) <$> drop (sk_completed s) (sk_writes s)
    ∧ sk_inFlightBytes s = total (sk_callbacks s)
    ∧ log `sublist_of` concat (take (sk_completed s) ts)
    ∧ (sk_failed s = false → log = concat (take (sk_completed s) ts)).

Lemma carries_issued sent more log ws tss cbs s s' :
  carries sent log s → issued ws cbs s s' →
  (∀ ws0 ts0, laid sent ws0 ts0 → laid (sent ++ more) (ws0 ++ ws) (ts0 ++ tss)) →
  wc_wrote <$> cbs = tss → wc_accounted <$> cbs = (λ w, Z.of_nat (length w)) <$> ws →
  carries (sent ++ more) log s'.
Proof.
  intros (ts & Hl & Hn & Hw & Ha & Hf & Hs & He) (Hw' & Hc' & Hd' & Hfl' & Hf') Hlaid Ht Hacc.
  pose proof (laid_lengths _ _ _ Hl) as Hlen. exists (ts ++ tss). rewrite Hw', Hc', Hd', Hfl', Hf'.
  apply (f_equal length) in Hacc as Hll. rewrite !length_fmap in Hll. split_and!.
  - by apply Hlaid.
  - rewrite !length_app. lia.
  - by rewrite fmap_app, drop_app_le, Hw, Ht by lia.
  - by rewrite fmap_app, drop_app_le, fmap_app, Ha, Hacc by lia.
  - rewrite total_app. lia.
  - by rewrite take_app_le by lia.
  - by rewrite take_app_le by lia.
Qed.

Lemma flushBatch_spec c sent l log :
  carries sent log (cn_socket c) → hq_repr (sq_queue (cn_send c)) l → nw_ok (sq_batch (cn_send c)) → Forall q_ok l →
  ∃ c' taken rest, flushBatch batchFrames writeTimeoutMs flushed c = Ok c' ∧ l = taken ++ rest
    ∧ carries (sent ++ taken) log (cn_socket c') ∧ hq_repr (sq_queue (cn_send c')) rest ∧ nw_ok (sq_batch (cn_send c'))
    ∧ cn_life c' = cn_life c ∧ sq_queuedBytes (cn_send c') = sq_queuedBytes (cn_send c) - Z.of_nat (length (wires taken))
    ∧ ((0 < batchFrames)%nat → l ≠ [] → taken ≠ []).
Proof.
  intros Hc Hr Hn Hl. unfold flushBatch.
  assert (nw_ok (nw_reset (sq_batch (cn_send c)))) as Hn' by (destruct Hn; split; cbn; lia).
  destruct (batch_loop_spec (S (hq_length (sq_queue (cn_send c)))) (MkBatching (sq_queue (cn_send c)) (nw_reset (sq_batch (cn_send c))) 0 0 None [])
    l Hr Hn' Hl eq_refl) as (b & taken & rest & -> & Hl' & (Hr' & Hn'' & Hb & H) & Hp).
  cbn [result_bind]. eexists _, taken, rest. split; [done|]. split; [done|].
  cbn [cn_send cn_socket cn_life sq_queue sq_batch sq_queuedBytes]. cbn [bt_batched bt_batch bt_wrote] in H, Hb.
  change (nw_out (nw_reset _)) with (@nil Z) in H. cbn [app] in H.
  split_and!; [|done|done|done|lia|intros ? ?; apply Hp; cbn; lia || done].
  destruct (bt_large b) as [[body wrote]|].
  - destruct H as (t & q & Hlq & -> & -> & -> & Ho & Hw). rewrite Ho, Hw, Hb.
    eapply carries_issued; [done| | | |].
    + eapply issued_trans; apply writeOut_issued.
    + intros ws0 ts0 H0. exact (laid_large _ t q _ _ H0 Hlq).
    + done.
    + cbn [app fmap list_fmap wc_accounted]. rewrite wires_app, wires_one, !length_app. f_equal. lia.
  - destruct H as [Ho Hw]. rewrite Ho, Hw, Hb. eapply carries_issued; [done|apply writeOut_issued| |done|done].
    intros ws0 ts0 H0. exact (laid_batch _ taken _ _ H0).
Qed.

(** The queue and the socket of a connection that has sent [sent] and holds [l]. *)
Definition sending (sent l : list QueuedFrame) (c : Conn) : Prop :=
  carries sent (lf_wrote (cn_life c)) (cn_socket c) ∧ hq_repr (sq_queue (cn_send c)) l ∧ nw_ok (sq_batch (cn_send c))
  ∧ sq_queuedBytes (cn_send c) = Z.of_nat (length (wires l)).

Lemma batches_while_spec guard fuel c sent l :
  (∀ c sent, guard c = true → ~ sending sent [] c) → (0 < batchFrames)%nat →
  sending sent l c → Forall q_ok l → (length l < fuel)%nat →
  ∃ c' taken rest, batches_while batchFrames writeTimeoutMs flushed guard fuel c = Ok c' ∧ l = taken ++ rest
    ∧ sending (sent ++ taken) rest c' ∧ cn_life c' = cn_life c ∧ guard c' = false ∧ (l = [] → c' = c).
Proof.
  intros Hg Hb. revert c sent l. induction fuel as [|fuel IH]; intros c sent l Hc Hl Hf; [lia|]. cbn [batches_while].
  destruct (guard c) eqn:E.
  2: { exists c, [], l. by rewrite app_nil_r. }
  assert (l ≠ []) as Hne by (intros ->; by apply (Hg c sent)). destruct Hc as (Hc & Hr & Hn & Hq).
  destruct (flushBatch_spec c sent l _ Hc Hr Hn Hl) as (c1 & taken & rest & -> & -> & Hc1 & Hr1 & Hn1 & Hl1 & Hq1 & Hp). cbn [result_bind].
  apply Forall_app in Hl as [_ Hl]. specialize (Hp Hb Hne). rewrite length_app in Hf.
  destruct (IH c1 (sent ++ taken) rest) as (c2 & taken' & rest' & -> & -> & Hc2 & Hl2 & Hg2 & _); [|done| |].
  - split_and!; [by rewrite Hl1|done..|]. rewrite Hq1, Hq, wires_app, length_app. lia.
  - destruct taken; [done|]. cbn in Hf. lia.
  - exists c2, (taken ++ taken'), rest'. rewrite <-!app_assoc in *. split_and!; [done..|congruence|done|]. intros E'. by destruct taken.
Qed.

Lemma flush_guard_queued c sent : flush_guard c = true → ~ sending sent [] c.
Proof. intros Hg (_ & Hr & _). apply hq_length_repr in Hr. unfold flush_guard in Hg. rewrite Hr in Hg. cbn in Hg. by rewrite andb_false_r in Hg. Qed.

Lemma send_guard_queued c sent : send_guard c = true → ~ sending sent [] c.
Proof. intros Hg (_ & _ & _ & Hq). unfold send_guard in Hg. rewrite Hq in Hg. cbn in Hg. by rewrite andb_false_r in Hg. Qed.

(** ** The connection's invariant *)

Record conn_core (c : Conn) (accepted : list QueuedFrame) : Prop := {
  cc_frames : Forall q_ok accepted;
  cc_sent : ∃ sent l dropped, accepted = sent ++ l ++ dropped ∧ sending sent l c
    ∧ (lf_destroyed (cn_life c) = false → dropped = []) ∧ (lf_ended (cn_life c) = true → l = [] ∧ dropped = []);
  cc_destroyed : lf_destroyed (cn_life c) = true → lf_closed (cn_life c) = true;
  cc_ended : lf_ended (cn_life c) = true → lf_ending (cn_life c) = true ∧ sk_inFlightBytes (cn_socket c) = 0;
  cc_closed : lf_closed (cn_life c) = lf_closeReported (cn_life c);
  cc_reported : length (lf_onClose (cn_life c)) = if lf_closeReported (cn_life c) then 1%nat else 0%nat }.

(** Queued frames have something to flush them. *)
Definition progress (c : Conn) : Prop :=
  hq_length (sq_queue (cn_send c)) ≠ 0%nat →
  lf_flushScheduled (cn_life c) = true ∨ sk_blocked (cn_socket c) = true ∨ lf_closed (cn_life c) = true.

Definition conn_inv (c : Conn) (accepted : list QueuedFrame) : Prop := conn_core c accepted ∧ progress c.

Lemma new_Conn_inv now : conn_inv (new_Conn now) [].
Proof.
  split; [|intros Hq; by cbn in Hq]. split; try done. exists [], [], []. split; [done|]. split; [|done].
  split_and!; [|done|apply new_NetWriter_ok|done]. exists []. split_and!; try done. constructor.
Qed.

Lemma scheduleFlush_inv c a : conn_core c a → conn_inv (scheduleFlush c) a.
Proof.
  intros H. unfold scheduleFlush. destruct (_ || _) eqn:E.
  - split; [done|]. intros _. rewrite !orb_true_iff in E. tauto.
  - split; [|by left]. destruct H. by split.
Qed.

Lemma maybeFinishEnd_inv c a : conn_inv c a → conn_inv (maybeFinishEnd c) a.
Proof.
  intros [[Hf (sent & l & dropped & Ha & Hs & Hd & He) Hdc Hec Hc Hr] Hp]. unfold maybeFinishEnd.
  destruct (_ || _) eqn:E1; [by split; [split; eauto 10|]|]. destruct (_ && _) eqn:E2; [|by split; [split; eauto 10|]].
  rewrite orb_false_iff, negb_false_iff in E1. rewrite andb_true_iff, Nat.eqb_eq, Z.eqb_eq in E2. destruct E1 as [E1 E1'], E2 as [E2 E2'].
  split; [|done]. split; try done. exists sent, l, dropped. split_and!; [done..|]. intros _. pose proof Hs as (_ & Hq & _).
  rewrite (hq_length_repr _ _ Hq) in E2. split; [by apply length_zero_iff_nil|]. apply Hd.
  destruct (lf_destroyed (cn_life c)); [|done]. by rewrite Hdc in E1'.
Qed.

Lemma flush_task_inv c a :
  (0 < batchFrames)%nat → conn_inv c a → ∃ c', flush_task batchFrames writeTimeoutMs flushed c = Ok c' ∧ conn_inv c' a.
Proof.
  intros Hb [[Hf (sent & l & dropped & -> & Hs & Hd & He) Hdc Hec Hc Hr] _]. unfold flush_task, flush.
  destruct (batches_while_spec flush_guard (S (hq_length (sq_queue (cn_send (on_life (set_scheduled false) c))))) (on_life (set_scheduled false) c) sent l)
    as (c' & taken & rest & -> & -> & Hs' & Hl & Hg & Hsame).
  - apply flush_guard_queued.
  - done.
  - done.
  - by apply Forall_app in Hf as [_ [? _]%Forall_app].
  - destruct Hs as (_ & Hq & _). cbn [on_life cn_send]. rewrite (hq_length_repr _ _ Hq). lia.
  - cbn [result_bind]. eexists. split; [done|]. apply maybeFinishEnd_inv. split.
    + split; rewrite ?Hl; cbn [on_life cn_life set_scheduled lf_destroyed lf_ended lf_closed lf_closeReported lf_onClose lf_ending]; try done.
      * exists (sent ++ taken), rest, dropped. rewrite ?Hl. split; [by rewrite <-!app_assoc|]. split; [done|]. split; [done|].
        intros E. destruct (He E) as [Hnil ->]. split; [|done]. by destruct taken.
      * intros E. destruct (Hec E) as [? H0]. split; [done|]. destruct (He E) as [Hnil _]. by rewrite (Hsame Hnil).
    + intros Hq. unfold flush_guard in Hg. rewrite (proj2 (Nat.ltb_lt _ _)), andb_true_r in Hg by lia.
      apply andb_false_iff in Hg as [Hg|Hg]; apply negb_false_iff in Hg; auto.
Qed.

Lemma send_inv f c a :
  (0 < batchFrames)%nat → conn_inv c a → header_ok (qf_header (entry_of f)) →
  ∃ r c', send batchFrames writeTimeoutMs flushed f c = Ok (r, c') ∧ conn_inv c' (if is_some r then a else a ++ [entry_of f])
    ∧ (r = None → sk_blocked (cn_socket c') = true ∨ sq_queuedBytes (cn_send c') < BATCH_BYTES).
Proof.
  intros Hb [Hcore Hp] Hh. unfold send. destruct (_ || _) eqn:E; [by exists (Some ErrConnClosed), c|].
  apply orb_false_iff in E as [Ec Ee]. destruct Hcore as [Hf (sent & l & dropped & -> & Hs & Hd & He) Hdc Hec Hc Hr].
  assert (q_ok (entry_of f)) as Hq by (split; [done|]; cbn; by destruct (of_body f)).
  destruct (lf_destroyed (cn_life c)) eqn:Edes; [by rewrite Hdc in Ec|]. rewrite (Hd eq_refl) in *.
  destruct (lf_ended (cn_life c)) eqn:Een; [by rewrite (proj1 (Hec eq_refl)) in Ee|].
  pose proof Hh as (Hv & _). destruct (validateFrameHeader (qf_header (entry_of f))) as [[]|]; [|done]. cbn [result_bind].
  set (c1 := on_send _ c). destruct Hs as (Hs1 & Hs2 & Hs3 & Hs4).
  destruct (batches_while_spec send_guard (S (hq_length (sq_queue (cn_send c1)))) c1 sent (l ++ [entry_of f]))
    as (c' & taken & rest & -> & Hl & Hs' & Hl' & Hg & _).
  - apply send_guard_queued.
  - done.
  - split_and!; [done|by apply hq_push_repr|done|]. cbn [c1 on_send cn_send sq_queuedBytes].
    rewrite wires_app, length_app, Nat2Z.inj_add, length_wires_one by done. lia.
  - rewrite app_nil_r in Hf. apply Forall_app in Hf as [_ ?]. by apply Forall_app_2; [|apply Forall_singleton].
  - unfold c1. cbn [on_send cn_send sq_queue]. rewrite (hq_length_repr _ _ (hq_push_repr _ _ _ Hs2)). lia.
  - cbn [result_bind]. exists None, (scheduleFlush c'). split; [done|]. cbn [is_some]. split.
    + apply scheduleFlush_inv. split; rewrite ?Hl'; cbn [c1 on_send cn_life]; rewrite ?Edes, ?Een; try done.
      * apply Forall_app_2; [done|by apply Forall_singleton].
      * exists (sent ++ taken), rest, []. rewrite ?Hl', ?Een.
        split; [|done]. rewrite !app_nil_r, <-!app_assoc. by rewrite Hl.
    + intros _. unfold send_guard in Hg. apply andb_false_iff in Hg as [Hg|Hg].
      * left. apply negb_false_iff in Hg. unfold scheduleFlush. by destruct (_ || _).
      * right. apply Z.leb_gt in Hg. unfold scheduleFlush. by destruct (_ || _).
Qed.

Lemma endConn_inv c a : conn_inv c a → conn_inv (endConn c) a.
Proof.
  intros H. unfold endConn. destruct (_ || _) eqn:E; [done|]. apply maybeFinishEnd_inv, scheduleFlush_inv.
  destruct H as [[] _]. split; try done. naive_solver.
Qed.

Lemma destroy_inv e c a : conn_inv c a → conn_inv (destroy e c) a.
Proof.
  intros [[Hf (sent & l & dropped & -> & Hs & Hd & He) Hdc Hec Hc Hr] Hp]. unfold destroy.
  destruct (lf_closed (cn_life c)) eqn:E; [by split; [split; eauto 10|]|].
  unfold reportClose, on_life. cbn [cn_life lf_closeReported cn_send cn_socket]. rewrite <-Hc in Hr |- *. apply length_zero_iff_nil in Hr as ->.
  split; [|by right; right]. split; try done.
  - exists sent, [], (l ++ dropped). split; [done|]. destruct Hs as (Hs1 & Hs2 & Hs3 & Hs4). split; [by split_and!|].
    split; [done|]. intros E1. destruct (He E1) as [-> ->]. done.
Qed.

Lemma onSocketClose_inv c a : conn_inv c a → conn_inv (onSocketClose c) a.
Proof.
  intros [[Hf (sent & l & dropped & -> & Hs & Hd & He) Hdc Hec Hc Hr] Hp]. unfold onSocketClose, reportClose, on_life.
  cbn [cn_life lf_closeReported cn_send cn_socket]. rewrite Hc in *.
  destruct (lf_closeReported (cn_life c)) eqn:E.
  - split; [|by right; right]. split; cbn [cn_life lf_closeReported lf_closed]; try done; by exists sent, l, dropped.
  - split; [|by right; right]. split; try done; [by exists sent, l, dropped|]. apply length_zero_iff_nil in Hr. cbn. by rewrite Hr.
Qed.

Lemma total_nonneg sent log s : carries sent log s → Forall (λ z, 0 ≤ z) (wc_accounted <$> sk_callbacks s).
Proof. intros (ts & _ & _ & _ & -> & _). apply Forall_fmap, Forall_forall. intros w _. cbn. lia. Qed.

(** The oldest callback confirms its write's tokens. *)
Lemma carries_callback sent failed cb rest c :
  carries sent (lf_wrote (cn_life c)) (cn_socket c) → sk_callbacks (cn_socket c) = cb :: rest →
  carries sent (lf_wrote (cn_life (confirm failed cb rest c))) (cn_socket (confirm failed cb rest c)).
Proof.
  intros (ts & Hl & Hn & Hw & Ha & Hf & Hs & He) E. rewrite E in *. exists ts. cbn [fmap list_fmap length] in *. unfold total in *.
  cbn [confirm cn_socket cn_life lf_wrote sk_writes sk_callbacks sk_completed sk_failed sk_inFlightBytes fmap list_fmap foldr] in *.
  set (n := sk_completed (cn_socket c)) in *.
  assert (ts !! n = Some (wc_wrote cb)) as Ht by (rewrite <-(Nat.add_0_r n), <-lookup_drop, <-Hw; done).
  rewrite (take_S_r _ _ _ Ht), concat_app. cbn [concat]. rewrite app_nil_r. split_and!.
  - done.
  - lia.
  - rewrite <-Nat.add_1_r, <-drop_drop, <-Hw. done.
  - rewrite <-Nat.add_1_r, <-drop_drop. destruct (drop n (sk_writes (cn_socket c))); [done|]. cbn in Ha |- *. by injection Ha.
  - cbn in Hf. lia.
  - apply sublist_app; [done|]. destruct failed; [apply sublist_nil_l|done].
  - intros [Hf1 ->]%orb_false_iff. by rewrite (He Hf1).
Qed.

Lemma conn_confirm_inv failed cb rest c a : conn_inv c a → sk_callbacks (cn_socket c) = cb :: rest → conn_inv (confirm failed cb rest c) a.
Proof.
  intros [[Hf (sent & l & dropped & -> & (Hs1 & Hs2 & Hs3 & Hs4) & Hd & He) Hdc Hec Hc Hr] Hp] E.
  split; [|exact Hp]. split; [done| |done| |done|done].
  - exists sent, l, dropped. split; [done|]. split; [|done]. split_and!; [by apply carries_callback|done..].
  - cbn [confirm cn_life cn_socket lf_ended lf_ending sk_inFlightBytes]. intros Een. destruct (Hec Een) as [? H0]. split; [done|].
    pose proof (total_nonneg _ _ _ Hs1) as Hnn. pose proof Hs1 as (_ & _ & _ & _ & _ & Ht & _).
    rewrite E in Hnn, Ht. unfold total in Ht. cbn [fmap list_fmap foldr] in Hnn, Ht. apply Forall_cons in Hnn as [H1 H2].
    assert (0 ≤ foldr Z.add 0 (wc_accounted <$> rest)) by (clear -H2; induction H2; cbn; lia). lia.
Qed.

Lemma write_callback_inv failed c a : conn_inv c a → conn_inv (write_callback failed c) a.
Proof.
  intros H. unfold write_callback. destruct (sk_callbacks (cn_socket c)) as [|cb rest] eqn:E; [done|].
  pose proof (conn_confirm_inv failed _ _ _ _ H E) as H'. set (c' := confirm _ _ _ c) in *. clearbody c'.
  destruct (lf_closed _); [done|]. assert (conn_inv (on_socket stamp_progress c') a) as H2 by (destruct H' as [[] ?]; by split).
  destruct (_ =? 0); [|done]. apply maybeFinishEnd_inv. destruct H2 as [[] ?]. by split.
Qed.

Lemma onWriteDeadline_inv c a : conn_inv c a → conn_inv (onWriteDeadline writeTimeoutMs c) a.
Proof.
  intros H. unfold onWriteDeadline. assert (∀ t, conn_inv (on_socket (set_timer t) c) a) as Ht.
  { intros t. destruct H as [[] ?]. by split. }
  destruct (_ <=? _); [by apply destroy_inv|]. exact (Ht _).
Qed.

(** What a run may send: headers whose fields fit their bytes and pass validation. *)
Definition event_ok (e : event) : Prop := match e with Send f => header_ok (qf_header (entry_of f)) | _ => True end.

Lemma conn_step_inv e c a :
  (0 < batchFrames)%nat → event_ok e → conn_inv c a →
  ∃ c' a', conn_step batchFrames writeTimeoutMs flushed e (c, a) = Ok (c', a') ∧ conn_inv c' a'.
Proof.
  intros Hb He H. destruct e as [f| | |e|failed| |e| | |now]; cbn [conn_step].
  - destruct (send_inv f c a Hb H He) as (r & c' & -> & H' & _). cbn [result_bind fst snd]. by eexists _, _.
  - destruct (lf_flushScheduled (cn_life c)); [|by eexists _, _]. destruct (flush_task_inv c a Hb H) as (c' & -> & H'). by eexists _, _.
  - eexists _, _. split; [done|]. by apply endConn_inv.
  - eexists _, _. split; [done|]. by apply destroy_inv.
  - eexists _, _. split; [done|]. by apply write_callback_inv.
  - eexists _, _. split; [done|]. apply scheduleFlush_inv. destruct H as [[] _]. by split.
  - eexists _, _. split; [done|]. destruct H as [[] ?]. by split.
  - eexists _, _. split; [done|]. by apply onSocketClose_inv.
  - destruct (is_some _); [|by eexists _, _]. eexists _, _. split; [done|]. by apply onWriteDeadline_inv.
  - eexists _, _. split; [done|]. destruct H as [[] ?]. by split.
Qed.

Lemma conn_run_inv es c a :
  (0 < batchFrames)%nat → Forall event_ok es → conn_inv c a →
  ∃ c' a', conn_run batchFrames writeTimeoutMs flushed es (c, a) = Ok (c', a') ∧ conn_inv c' a'.
Proof.
  intros Hb Hes. revert c a. induction Hes as [|e es He _ IH]; intros c a H; [by eexists _, _|]. cbn [conn_run].
  destruct (conn_step_inv e c a Hb He H) as (c1 & a1 & -> & H1). cbn [result_bind]. by apply IH.
Qed.
End batches.

Lemma conn_run_accepted (P : QueuedFrame → Prop) n t fl es c a c' a' :
  conn_run n t fl es (c, a) = Ok (c', a') → Forall P a →
  Forall (λ e, match e with Send f => P (entry_of f) | _ => True end) es → Forall P a'.
Proof.
  intros Hr Ha Hes. revert c a Hr Ha. induction Hes as [|e es He _ IH]; intros c a Hr Ha; cbn [conn_run] in Hr; [by injection Hr as <- <-|].
  destruct (conn_step n t fl e (c, a)) as [[c1 a1]|] eqn:E; [|done]. apply (IH _ _ Hr).
  destruct e; cbn [conn_step] in E; try by injection E as <- <-.
  - destruct (send _ _ _ _ _) as [[r c2]|]; [|done]. injection E as <- <-. cbn [fst]. destruct (is_some r); [done|].
    apply Forall_app_2; [done|by apply Forall_singleton].
  - destruct (lf_flushScheduled _); [|by injection E as <- <-]. destruct (flush_task _ _ _ _); [|done]. by injection E as <- <-.
  - by destruct (is_some _); injection E as <- <-.
Qed.

(** The frame bound of the receiver, for what a run sends. *)
Definition event_fits (max : Z) (e : event) : Prop :=
  match e with Send f => fh_length (qf_header (entry_of f)) ≤ (if max =? 0 then MIN_MAX_FRAME_SIZE else max) | _ => True end.

(** C18: a framed connection is a FIFO channel. Whatever the order of sends, flushes, write
    callbacks, backpressure, errors and closing, no step throws, and however the bytes written
    so far reach the other end, whole or cut anywhere, its parser sees no violation and hands
    over the accepted frames in order without a gap or a duplicate; once the queue is flushed
    and the bytes have arrived it has handed over all of them. *)
Theorem conn_channel_fifo (batchFrames : nat) (writeTimeoutMs : Z) (flushed : nat → bool) (now max : Z) (es : list event) :
  (0 < batchFrames)%nat → Forall event_ok es → Forall (event_fits max) es →
  ∃ c accepted, conn_run batchFrames writeTimeoutMs flushed es (new_Conn now, []) = Ok (c, accepted) ∧
    ∀ chunks, concat chunks `prefix_of` concat (sk_writes (cn_socket c)) →
      let p := foldl onData (new_Parser max) chunks in
      ps_broken p = false ∧ ps_frames p `prefix_of` (frame_of <$> accepted) ∧
      (hq_length (sq_queue (cn_send c)) = 0%nat → lf_destroyed (cn_life c) = false →
       concat chunks = concat (sk_writes (cn_socket c)) → ps_frames p = frame_of <$> accepted).
Proof.
  intros Hb Hok Hfit. destruct (conn_run_inv batchFrames writeTimeoutMs flushed es _ _ Hb Hok (new_Conn_inv now))
    as (c & accepted & Hrun & [[Hf (sent & l & dropped & -> & (Hs & Hq & _) & Hd & _) _ _ _ _] _]).
  exists c, (sent ++ l ++ dropped). split; [done|]. intros chunks Hc.
  assert (Forall (frame_ok max) (frame_of <$> sent)) as Hall.
  { apply Forall_fmap. assert (Forall (λ q, fh_length (qf_header q) ≤ (if max =? 0 then MIN_MAX_FRAME_SIZE else max)) (sent ++ l ++ dropped)) as Hm
      by (eapply conn_run_accepted; [exact Hrun|done|exact Hfit]).
    apply Forall_app in Hf as [Hf _], Hm as [Hm _]. apply Forall_forall. intros q Hin. rewrite Forall_forall in Hf, Hm.
    destruct (Hf q Hin). split; [done|]. split; [done|]. by apply Hm. }
  destruct Hs as (ts & Hl & _). rewrite (laid_wires _ _ _ Hl) in Hc |- *. cbn zeta.
  pose proof (foldl_has_read max chunks _ _ (new_Parser_has_read max)) as (_ & _ & H). cbn [app] in H.
  destruct (deframe_prefix max _ _ Hall Hc) as (rest & Hr & Hp).
  destruct (deframe max (concat chunks)) as [fs r] eqn:Ed. cbn [fst snd] in Hr, Hp. subst r. destruct H as (-> & Hbr & _).
  split; [done|]. split; [rewrite fmap_app; by apply prefix_app_r|].
  intros Hq0 Hdes Heq. rewrite (hq_length_repr _ _ Hq) in Hq0. apply length_zero_iff_nil in Hq0 as ->. rewrite (Hd Hdes), !app_nil_r.
  rewrite Heq in Ed. unfold wires in Ed. rewrite (deframe_wire max _ Hall) in Ed. by injection Ed.
Qed.

(** Of two prefixes of a list, one that cannot be longer is inside the other. *)
Lemma maximal_prefix {A} (l k k' : list A) :
  k `prefix_of` l → k' `prefix_of` l → (∀ x, ~ k ++ [x] `prefix_of` k') → k' `prefix_of` k.
Proof.
  intros Hk Hk' Hmax. destruct (prefix_weak_total _ _ _ Hk Hk') as [[[|x m] ->]|]; [by rewrite app_nil_r| |done].
  destruct (Hmax x). exists m. by rewrite <-app_assoc.
Qed.

(** C20: what a connection promises about its writes. Until it is destroyed [outstandingBytes] is
    exactly the bytes of accepted frames the kernel has not taken; the tokens confirmed are, in
    order and once each, among those of the frames lying whole inside completed writes, and all
    of them while no write failed;
    queued frames always have a flush scheduled, a drain awaited or a closed connection; the
    write side is ended only after every accepted frame is written and taken; and the owner
    hears of the close exactly once, when the connection is closed. *)
Theorem conn_accounts (batchFrames : nat) (writeTimeoutMs : Z) (flushed : nat → bool) (now : Z) (es : list event) :
  (0 < batchFrames)%nat → Forall event_ok es →
  ∃ c accepted, conn_run batchFrames writeTimeoutMs flushed es (new_Conn now, []) = Ok (c, accepted) ∧
    let s := cn_socket c in
    let l := cn_life c in
    let done := take (sk_completed s) (sk_writes s) in
    (lf_destroyed l = false → outstandingBytes c = Z.of_nat (length (wires accepted)) - Z.of_nat (length (concat done)))
    ∧ (∃ fs, fs `prefix_of` accepted ∧ wires fs `prefix_of` concat done
         ∧ (∀ fs', fs' `prefix_of` accepted → wires fs' `prefix_of` concat done → fs' `prefix_of` fs)
         ∧ lf_wrote l `sublist_of` (fs ≫= tokens) ∧ (sk_failed s = false → lf_wrote l = fs ≫= tokens))
    ∧ (hq_length (sq_queue (cn_send c)) ≠ 0%nat → lf_flushScheduled l = true ∨ sk_blocked s = true ∨ lf_closed l = true)
    ∧ (lf_ended l = true → concat (sk_writes s) = wires accepted ∧ outstandingBytes c = 0)
    ∧ length (lf_onClose l) = if lf_closed l then 1%nat else 0%nat.
Proof.
  intros Hb Hok. destruct (conn_run_inv batchFrames writeTimeoutMs flushed es _ _ Hb Hok (new_Conn_inv now))
    as (c & accepted & Hrun & [[Hf (sent & l & dropped & -> & (Hs & Hq & _ & Hqb) & Hd & He) Hdes Hend Hcl Hrep] Hp]).
  exists c, (sent ++ l ++ dropped). split; [done|]. cbn zeta. destruct Hs as (ts & Hl & Hn & Hw & Ha & Hfl & Hsub & Heq).
  pose proof (laid_wires _ _ _ Hl) as Hwires. unfold outstandingBytes. rewrite Hqb, Hfl. split_and!.
  - intros E. rewrite (Hd E), app_nil_r, wires_app, <-Hwires, length_app. unfold total. rewrite Ha.
    rewrite <-(take_drop (sk_completed (cn_socket c)) (sk_writes (cn_socket c))) at 2. rewrite concat_app, length_app.
    assert (∀ ws : list (list Z), foldr Z.add 0 ((λ w, Z.of_nat (length w)) <$> ws) = Z.of_nat (length (concat ws))) as ->; [|lia].
    intros ws. induction ws as [|w ws IH]; cbn; [done|]. rewrite IH, length_app. lia.
  - destruct (laid_carried _ _ _ (sk_completed (cn_socket c)) Hl) as (fs & Hpre & Ht & Hw' & Hmax). rewrite Ht in Hsub, Heq.
    exists fs. split_and!; [by apply prefix_app_r|done| |done..]. intros fs' Hpre' Hfit.
    eapply maximal_prefix; [by apply prefix_app_r|exact Hpre'|]. intros q Hext.
    assert (wires (fs ++ [q]) `prefix_of` wires fs') as [w Hw2] by (destruct Hext as [k ->]; rewrite (wires_app (fs ++ [q]) k); by eexists).
    assert (length (wires (fs ++ [q])) ≤ length (wires fs'))%nat by (rewrite Hw2, length_app; lia).
    apply prefix_length in Hfit. specialize (Hmax _ q (transitivity Hext Hpre')). lia.
  - exact Hp.
  - intros E. destruct (He E) as [-> ->], (Hend E) as [_ H0]. rewrite Hwires, !app_nil_r. split; [done|]. cbn. lia.
  - by rewrite Hcl.
Qed.

(** A run with a confirmed frame, backpressure at the second write, a drain and a clean end. *)
Definition demo_frame (n : Z) (body : list Z) : OutboundFrame := MkOutbound FRAME_DATA FLAG_EXPECTS_REPLY 1 n (Some body) (Some n).

Definition demo_run : list event :=
  [Send (demo_frame 1 [7; 8]); Flush; Send (demo_frame 3 (replicate 5000 9)); Flush; Callback false; Send (demo_frame 5 [1]);
   Drain; Flush; Callback false; Callback false; End; Callback false].

Lemma demo_run_ok : Forall event_ok demo_run ∧ Forall (event_fits 0) demo_run.
Proof. split; repeat constructor; vm_compute; done. Qed.

Lemma conn_channel_fifo_witness :
  ∃ c accepted, conn_run BATCH_FRAMES 1000 (λ n, negb (Nat.eqb n 1)) demo_run (new_Conn 0, []) = Ok (c, accepted) ∧
    ∀ chunks, concat chunks `prefix_of` concat (sk_writes (cn_socket c)) →
      let p := foldl onData (new_Parser 0) chunks in
      ps_broken p = false ∧ ps_frames p `prefix_of` (frame_of <$> accepted) ∧
      (hq_length (sq_queue (cn_send c)) = 0%nat → lf_destroyed (cn_life c) = false →
       concat chunks = concat (sk_writes (cn_socket c)) → ps_frames p = frame_of <$> accepted).
Proof. apply (conn_channel_fifo BATCH_FRAMES 1000 _ 0 0 demo_run); [unfold BATCH_FRAMES; lia|apply demo_run_ok|apply demo_run_ok]. Defined.

Lemma conn_accounts_witness :
  ∃ c accepted, conn_run BATCH_FRAMES 1000 (λ n, negb (Nat.eqb n 1)) demo_run (new_Conn 0, []) = Ok (c, accepted) ∧
    let s := cn_socket c in
    let l := cn_life c in
    let done := take (sk_completed s) (sk_writes s) in
    (lf_destroyed l = false → outstandingBytes c = Z.of_nat (length (wires accepted)) - Z.of_nat (length (concat done)))
    ∧ (∃ fs, fs `prefix_of` accepted ∧ wires fs `prefix_of` concat done
         ∧ (∀ fs', fs' `prefix_of` accepted → wires fs' `prefix_of` concat done → fs' `prefix_of` fs)
         ∧ lf_wrote l `sublist_of` (fs ≫= tokens) ∧ (sk_failed s = false → lf_wrote l = fs ≫= tokens))
    ∧ (hq_length (sq_queue (cn_send c)) ≠ 0%nat → lf_flushScheduled l = true ∨ sk_blocked s = true ∨ lf_closed l = true)
    ∧ (lf_ended l = true → concat (sk_writes s) = wires accepted ∧ outstandingBytes c = 0)
    ∧ length (lf_onClose l) = if lf_closed l then 1%nat else 0%nat.
Proof. apply (conn_accounts BATCH_FRAMES 1000 _ 0 demo_run); [unfold BATCH_FRAMES; lia|apply demo_run_ok]. Defined.
