(* ===== verification/NetCredit.v ===== *)
(** * Credit-based flow control ([src/net/credit.ts], the credit handlers of [src/net/session.ts])

    The send window of one connection end and the ledger of grants it owes its peer.  A
    windowed frame costs its wire size; it is written when nothing waits and the window
    affords it (or is full), and waits in order otherwise.  The two ends of one direction are
    composed into a closed loop, whose invariant is that credit is conserved. *)
From S2P Require Import Prelude NetQueue NetFrame NetConn.

(** ** [CreditWindow] *)

Record WindowEntry := MkEntry { we_frame : OutboundFrame; we_cost : Z }.

Record CreditWindow := MkWindow {
  cw_capacity : Z;
  cw_grantBatch : Z;
  cw_queue : HeadQueue WindowEntry;
  cw_available : Z;
  cw_queuedBytes : Z;
  cw_owed : Z }.

Definition new_CreditWindow (capacity : Z) : CreditWindow :=
  MkWindow capacity (Z.max 1 (capacity / 4)) new_HeadQueue capacity 0 0.

Definition cw_affordable (w : CreditWindow) (cost : Z) : bool := (cost <=? cw_available w) || (cw_capacity w <=? cw_available w).

Definition frame_cost (f : OutboundFrame) : Z :=
  Z.of_nat FRAME_HEADER_SIZE + match of_body f with None => 0 | Some b => Z.of_nat (length b) end.

Definition set_available (z : Z) (w : CreditWindow) : CreditWindow :=
  MkWindow (cw_capacity w) (cw_grantBatch w) (cw_queue w) z (cw_queuedBytes w) (cw_owed w).

Definition set_owed (z : Z) (w : CreditWindow) : CreditWindow :=
  MkWindow (cw_capacity w) (cw_grantBatch w) (cw_queue w) (cw_available w) (cw_queuedBytes w) z.

(** [send]: the frames handed to the write callback, and the window. *)
Definition cw_send (f : OutboundFrame) (w : CreditWindow) : list OutboundFrame * CreditWindow :=
  let cost := frame_cost f in
  if Nat.eqb (hq_length (cw_queue w)) 0 && cw_affordable w cost then ([f], set_available (cw_available w - cost) w)
  else ([], MkWindow (cw_capacity w) (cw_grantBatch w) (hq_push (MkEntry f cost) (cw_queue w)) (cw_available w)
              (cw_queuedBytes w + cost) (cw_owed w)).

(** The loop of [grant]: every turn shifts an entry. *)
Fixpoint grant_loop (fuel : nat) (w : CreditWindow) : list OutboundFrame * CreditWindow :=
  match fuel with
  | O => ([], w)
  | S fuel =>
      match hq_peek (cw_queue w) with
      | None => ([], w)
      | Some head =>
          if negb (cw_affordable w (we_cost head)) then ([], w)
          else
            let w := MkWindow (cw_capacity w) (cw_grantBatch w) (hq_shift (cw_queue w)).2 (cw_available w - we_cost head)
                       (cw_queuedBytes w - we_cost head) (cw_owed w) in
            let '(out, w) := grant_loop fuel w in (we_frame head :: out, w)
      end
  end.

Definition cw_grant (count : Z) (w : CreditWindow) : list OutboundFrame * CreditWindow :=
  grant_loop (S (hq_length (cw_queue w))) (set_available (Z.min (cw_available w + count) (cw_capacity w)) w).

Definition cw_accrue (cost : Z) (w : CreditWindow) : Z * CreditWindow :=
  let owed := cw_owed w + cost in
  if owed <? cw_grantBatch w then (0, set_owed owed w) else (owed, set_owed 0 w).

Definition cw_takeOwed (w : CreditWindow) : Z * CreditWindow := (cw_owed w, set_owed 0 w).

Definition cw_clear (w : CreditWindow) : CreditWindow :=
  MkWindow (cw_capacity w) (cw_grantBatch w) (hq_clear (cw_queue w)) (cw_available w) 0 (cw_owed w).

(** ** The session's ledger: the window and the grant deadline *)

Record Ledger := MkLedger { lg_window : CreditWindow; lg_timer : bool }.

(** [accrueCredit]: the grant to send, if one falls due. *)
Definition accrueCredit (cost : Z) (g : Ledger) : option Z * Ledger :=
  let '(due, w) := cw_accrue cost (lg_window g) in
  if due =? 0 then (None, MkLedger w true) else (Some due, MkLedger w false).

(** [flushOwedGrant], when the deadline fires. *)
Definition flushOwedGrant (g : Ledger) : Z * Ledger :=
  let '(due, w) := cw_takeOwed (lg_window g) in (due, MkLedger w false).

(** ** One direction of a connection, closed *)

(** The sender's window, the receiver's ledger, what is on the way both ways and what has
    arrived; [lp_sent] is what the sender accepted. *)
Record Loop := MkLoop {
  lp_window : CreditWindow;
  lp_ledger : Ledger;
  lp_wire : list OutboundFrame;
  lp_grants : list Z;
  lp_arrived : list OutboundFrame;
  lp_sent : list OutboundFrame }.

Definition new_Loop (capacity : Z) : Loop :=
  MkLoop (new_CreditWindow capacity) (MkLedger (new_CreditWindow capacity) false) [] [] [] [].

Inductive loop_event := LSend (f : OutboundFrame) | LArrive | LDeadline | LGrant.

Definition loop_step (e : loop_event) (p : Loop) : Loop :=
  match e with
  | LSend f =>
      let '(out, w) := cw_send f (lp_window p) in
      MkLoop w (lp_ledger p) (lp_wire p ++ out) (lp_grants p) (lp_arrived p) (lp_sent p ++ [f])
  | LArrive =>
      match lp_wire p with
      | [] => p
      | f :: wire =>
          let '(due, g) := accrueCredit (frame_cost f) (lp_ledger p) in
          MkLoop (lp_window p) g wire (lp_grants p ++ match due with Some d => [d] | None => [] end) (lp_arrived p ++ [f]) (lp_sent p)
      end
  | LDeadline =>
      if lg_timer (lp_ledger p) then
        let '(due, g) := flushOwedGrant (lp_ledger p) in
        MkLoop (lp_window p) g (lp_wire p) (lp_grants p ++ [due]) (lp_arrived p) (lp_sent p)
      else p
  | LGrant =>
      match lp_grants p with
      | [] => p
      | d :: grants =>
          let '(out, w) := cw_grant d (lp_window p) in
          MkLoop w (lp_ledger p) (lp_wire p ++ out) grants (lp_arrived p) (lp_sent p)
      end
  end.

Definition loop_run (es : list loop_event) (p : Loop) : Loop := foldl (λ p e, loop_step e p) p es.

(** ** Credit is conserved *)

Definition cost_sum (fs : list OutboundFrame) : Z := foldr Z.add 0 (frame_cost <$> fs).
Definition zsum (l : list Z) : Z := foldr Z.add 0 l.

Lemma zsum_app l k : zsum (l ++ k) = zsum l + zsum k.
Proof. unfold zsum. rewrite foldr_app. induction l; cbn; lia. Qed.

Lemma cost_sum_app fs gs : cost_sum (fs ++ gs) = cost_sum fs + cost_sum gs.
Proof. unfold cost_sum. rewrite fmap_app. apply zsum_app. Qed.

Lemma cost_sum_cons f fs : cost_sum (f :: fs) = frame_cost f + cost_sum fs.
Proof. done. Qed.

Lemma zsum_cons d l : zsum (d :: l) = d + zsum l.
Proof. done. Qed.

Lemma cost_sum_nil : cost_sum [] = 0.
Proof. done. Qed.

Lemma zsum_nil : zsum [] = 0.
Proof. done. Qed.

Ltac sums := rewrite ?cost_sum_app, ?cost_sum_cons, ?cost_sum_nil, ?zsum_app, ?zsum_cons, ?zsum_nil in *.

Ltac project :=
  cbn [lp_window lp_ledger lp_wire lp_grants lp_arrived lp_sent lg_window lg_timer cw_available cw_capacity cw_grantBatch cw_queue
       cw_queuedBytes cw_owed set_available set_owed fst snd] in *.

Lemma frame_cost_pos f : 16 ≤ frame_cost f.
Proof. unfold frame_cost, FRAME_HEADER_SIZE. destruct (of_body f); lia. Qed.

Lemma cost_sum_nonneg fs : 0 ≤ cost_sum fs.
Proof. unfold cost_sum. induction fs as [|f fs IH]; cbn in *; [lia|]. pose proof (frame_cost_pos f). lia. Qed.

(** The queue's entries carry the cost of their frames. *)
Definition entry (f : OutboundFrame) : WindowEntry := MkEntry f (frame_cost f).

(** A window whose queue holds [fs]; its head waits because it is not affordable. *)
Definition window_ok (w : CreditWindow) (fs : list OutboundFrame) : Prop :=
  hq_repr (cw_queue w) (entry <$> fs) ∧ cw_queuedBytes w = cost_sum fs
  ∧ match fs with [] => True | f :: _ => cw_affordable w (frame_cost f) = false end.

(** Only one frame can overdraw the window: the one that found it full. *)
Definition overdraw (w : CreditWindow) (sent : list OutboundFrame) : Prop :=
  0 ≤ cw_available w ∨ ∃ f, f ∈ sent ∧ cw_capacity w - cw_available w ≤ frame_cost f.

Record loop_inv (p : Loop) : Prop := {
  li_capacity : cw_capacity (lp_window p) = cw_capacity (lg_window (lp_ledger p));
  li_conserved : cw_available (lp_window p) + cost_sum (lp_wire p) + cw_owed (lg_window (lp_ledger p)) + zsum (lp_grants p)
                 = cw_capacity (lp_window p);
  li_queue : ∃ fs, window_ok (lp_window p) fs ∧ lp_sent p = lp_arrived p ++ lp_wire p ++ fs;
  li_grants : Forall (λ d, 0 < d) (lp_grants p);
  li_owed : 0 ≤ cw_owed (lg_window (lp_ledger p)) ∧ (lg_timer (lp_ledger p) = true ↔ 0 < cw_owed (lg_window (lp_ledger p)));
  li_batch : 0 < cw_grantBatch (lg_window (lp_ledger p)) ∧ cw_owed (lg_window (lp_ledger p)) < cw_grantBatch (lg_window (lp_ledger p));
  li_overdraw : overdraw (lp_window p) (lp_sent p) }.

Lemma zsum_pos l : Forall (λ d, 0 < d) l → 0 ≤ zsum l.
Proof. unfold zsum. induction 1; cbn in *; lia. Qed.

Lemma affordable_spend w f sent :
  cw_affordable w (frame_cost f) = true → cw_available w ≤ cw_capacity w → f ∈ sent →
  overdraw (set_available (cw_available w - frame_cost f) w) sent.
Proof.
  unfold cw_affordable, overdraw. rewrite orb_true_iff, !Z.leb_le. cbn. intros [H|H] Hc Hf; [left; lia|]. right. exists f. split; [done|lia].
Qed.

Lemma hq_repr_nil {A} (q : HeadQueue A) l : hq_repr q l → Nat.eqb (hq_length q) 0 = true ↔ l = [].
Proof. intros H. rewrite (hq_length_repr _ _ H), Nat.eqb_eq. by rewrite length_zero_iff_nil. Qed.

(** What [grant]'s loop leaves of a queue [fs]. *)
Lemma grant_loop_spec fuel w fs sent :
  hq_repr (cw_queue w) (entry <$> fs) → cw_queuedBytes w = cost_sum fs → (length fs < fuel)%nat →
  cw_available w ≤ cw_capacity w → overdraw w sent → (∀ f, f ∈ fs → f ∈ sent) →
  let '(out, w') := grant_loop fuel w in
  ∃ rest, fs = out ++ rest ∧ window_ok w' rest ∧ cw_available w' = cw_available w - cost_sum out
    ∧ cw_capacity w' = cw_capacity w ∧ cw_owed w' = cw_owed w ∧ overdraw w' sent
    ∧ match fs with [] => True | f :: _ => cw_affordable w (frame_cost f) = true → out ≠ [] end.
Proof.
  revert w fs. induction fuel as [|fuel IH]; intros w fs Hq Hb Hf Hc Ho Hin; [lia|]. cbn [grant_loop].
  rewrite (hq_peek_repr _ _ Hq). destruct fs as [|f fs]; cbn [fmap list_fmap head].
  { exists []. split_and!; try done. cbn. lia. }
  cbn [we_cost entry]. destruct (cw_affordable w (frame_cost f)) eqn:Ea; cbn [negb].
  2: { exists (f :: fs). split_and!; try done. cbn. lia. }
  pose proof (affordable_spend w f sent Ea Hc ltac:(apply Hin; set_solver)) as Ho'.
  set (w1 := MkWindow _ _ _ _ _ _). assert (cost_sum (f :: fs) = frame_cost f + cost_sum fs) as Hcs by done.
  pose proof (proj2 (hq_shift_repr _ _ Hq)) as Hs. cbn [fmap list_fmap tail] in Hs.
  specialize (IH w1 fs Hs ltac:(cbn; lia) ltac:(cbn in Hf; lia)). pose proof (frame_cost_pos f).
  specialize (IH ltac:(cbn; lia) Ho' ltac:(intros g Hg; apply Hin; by apply list_elem_of_further)).
  destruct (grant_loop fuel w1) as [out w']. destruct IH as (rest & -> & Hok & Hav & Hcap & How & Hov & _).
  exists rest. split_and!; try done. unfold w1 in Hav. cbn [cw_available we_cost entry] in Hav. change (cost_sum (_ :: out)) with (frame_cost f + cost_sum out). lia.
Qed.

Lemma overdraw_more w sent sent' : overdraw w sent → (∀ f, f ∈ sent → f ∈ sent') → overdraw w sent'.
Proof. intros [H|(f & Hf & H)] Hs; [by left|]. right. exists f. split; [by apply Hs|done]. Qed.

Lemma new_Loop_inv capacity : 0 < capacity → loop_inv (new_Loop capacity).
Proof.
  intros H. split; cbn; try done; try lia.
  - by exists [].
  - left. cbn. lia.
Qed.

Lemma available_bound p : loop_inv p → cw_available (lp_window p) ≤ cw_capacity (lp_window p).
Proof.
  intros [_ Hc _ Hg [Ho _] _ _]. pose proof (cost_sum_nonneg (lp_wire p)). pose proof (zsum_pos _ Hg). lia.
Qed.

Lemma loop_send_inv f p : loop_inv p → loop_inv (loop_step (LSend f) p).
Proof.
  intros H. pose proof (available_bound p H) as Hav. destruct H as [Hcap Hcons (fs & (Hq & Hb & Hh) & Hs) Hg Ho Hbat Hov].
  cbn [loop_step]. unfold cw_send. destruct (_ && _) eqn:E; split; project; try done.
  - sums. lia.
  - apply andb_true_iff in E as [E1 _]. apply (hq_repr_nil _ _ Hq) in E1. destruct fs; [|done]. exists []. split; [done|].
    by rewrite Hs, !app_nil_r, <-app_assoc.
  - apply andb_true_iff in E as [_ E2]. apply affordable_spend; [done|done|]. set_solver.
  - by rewrite app_nil_r.
  - exists (fs ++ [f]). split; [|by rewrite Hs, app_nil_r, <-!app_assoc]. split_and!.
    + project. rewrite fmap_app. by apply hq_push_repr.
    + project. sums. lia.
    + destruct fs as [|g fs]; [|done]. cbn [app]. rewrite (proj2 (hq_repr_nil _ _ Hq) eq_refl) in E. cbn [andb] in E. done.
  - destruct Hov as [?|(g & Hg' & ?)]; [by left|]. right. exists g. split; [set_solver|done].
Qed.

Lemma loop_arrive_inv p : loop_inv p → loop_inv (loop_step LArrive p).
Proof.
  intros H. cbn [loop_step]. destruct (lp_wire p) as [|f wire] eqn:E; [done|].
  destruct H as [Hcap Hcons (fs & Hok & Hs) Hg [Ho Ht] [Hbat Hlt] Hov]. rewrite E in *. pose proof (frame_cost_pos f) as Hf. sums.
  unfold accrueCredit, cw_accrue.
  destruct (Z.ltb_spec (cw_owed (lg_window (lp_ledger p)) + frame_cost f) (cw_grantBatch (lg_window (lp_ledger p)))) as [Hlt'|Hge];
    cbv beta iota.
  - change (0 =? 0) with true. cbv beta iota. split; project; try done; try lia.
    + rewrite app_nil_r. lia.
    + exists fs. by rewrite Hs, <-app_assoc.
    + by rewrite app_nil_r.
  - rewrite (proj2 (Z.eqb_neq _ _)) by lia. cbv beta iota. split; project; try done; try lia.
    + sums. lia.
    + exists fs. by rewrite Hs, <-app_assoc.
    + apply Forall_app_2; [done|]. apply Forall_singleton. lia.
Qed.

Lemma loop_deadline_inv p : loop_inv p → loop_inv (loop_step LDeadline p).
Proof.
  intros H. cbn [loop_step]. destruct (lg_timer (lp_ledger p)) eqn:E; [|done].
  destruct H as [Hcap Hcons Hq Hg [Ho Ht] [Hbat Hlt] Hov]. pose proof (proj1 Ht E) as Hpos.
  unfold flushOwedGrant, cw_takeOwed. split; project; try done; try lia.
  - sums. lia.
  - apply Forall_app_2; [done|]. by apply Forall_singleton.
Qed.

Lemma loop_grant_inv p : loop_inv p → loop_inv (loop_step LGrant p).
Proof.
  intros H. pose proof (available_bound p H) as Hav. cbn [loop_step]. destruct (lp_grants p) as [|d grants] eqn:E; [done|].
  destruct H as [Hcap Hcons (fs & (Hq & Hb & Hh) & Hs) Hg [Ho Ht] Hbat Hov]. rewrite E in *.
  apply Forall_cons in Hg as [Hd Hg]. unfold cw_grant. sums. pose proof (cost_sum_nonneg (lp_wire p)). pose proof (zsum_pos _ Hg).
  rewrite Z.min_l by lia.
  pose proof (grant_loop_spec (S (hq_length (cw_queue (lp_window p)))) (set_available (cw_available (lp_window p) + d) (lp_window p)) fs (lp_sent p)
    Hq Hb ltac:(rewrite (hq_length_repr _ _ Hq), length_fmap; lia) ltac:(project; lia)) as Hl.
  destruct (grant_loop _ _) as [out w']. destruct Hl as (rest & -> & Hok & Hav' & Hcap' & How & Hov' & _).
  - destruct Hov as [?|(g & Hg' & ?)]; [left; project; lia|]. right. exists g. project. split; [done|lia].
  - intros f Hf. rewrite Hs. set_solver.
  - split; project; try done; try congruence.
    + sums. lia.
    + exists rest. split; [done|]. by rewrite Hs, <-!app_assoc.
Qed.

Lemma loop_run_inv es p : loop_inv p → loop_inv (loop_run es p).
Proof.
  revert p. induction es as [|e es IH]; intros p H; [done|]. cbn. apply IH.
  destruct e; [by apply loop_send_inv|by apply loop_arrive_inv|by apply loop_deadline_inv|by apply loop_grant_inv].
Qed.

(** ** No deadlock *)

(** Everything on the way arrives, the grant deadline fires, every grant arrives. *)
Definition settle (p : Loop) : Loop :=
  let p := loop_run (replicate (length (lp_wire p)) LArrive) p in
  let p := loop_step LDeadline p in
  loop_run (replicate (length (lp_grants p)) LGrant) p.

Fixpoint settles (n : nat) (p : Loop) : Loop := match n with O => p | S n => settles n (settle p) end.

Lemma arrive_all n p :
  length (lp_wire p) = n →
  let p' := loop_run (replicate n LArrive) p in
  lp_wire p' = [] ∧ lp_arrived p' = lp_arrived p ++ lp_wire p ∧ lp_window p' = lp_window p ∧ lp_sent p' = lp_sent p.
Proof.
  revert p. induction n as [|n IH]; intros p Hn; cbn zeta.
  { destruct (lp_wire p) eqn:E; [|done]. cbn. by rewrite E, app_nil_r. }
  unfold loop_run. cbn [replicate foldl]. fold (loop_run (replicate n LArrive) (loop_step LArrive p)).
  destruct (lp_wire p) as [|f wire] eqn:E; [done|]. cbn [length] in Hn.
  assert (lp_wire (loop_step LArrive p) = wire ∧ lp_arrived (loop_step LArrive p) = lp_arrived p ++ [f]
    ∧ lp_window (loop_step LArrive p) = lp_window p ∧ lp_sent (loop_step LArrive p) = lp_sent p) as (Hw & Ha & Hwin & Hs).
  { cbn [loop_step]. rewrite E. by destruct (accrueCredit _ _). }
  destruct (IH (loop_step LArrive p)) as (H1 & H2 & H3 & H4); [rewrite Hw; lia|].
  rewrite H2, H3, H4, Hw, Ha, Hwin, Hs, <-app_assoc. done.
Qed.

Lemma grant_all n p :
  length (lp_grants p) = n →
  let p' := loop_run (replicate n LGrant) p in
  lp_grants p' = [] ∧ lp_arrived p' = lp_arrived p ∧ lp_ledger p' = lp_ledger p ∧ lp_sent p' = lp_sent p.
Proof.
  revert p. induction n as [|n IH]; intros p Hn; cbn zeta.
  { destruct (lp_grants p) eqn:E; [|done]. by cbn. }
  unfold loop_run. cbn [replicate foldl]. fold (loop_run (replicate n LGrant) (loop_step LGrant p)).
  destruct (lp_grants p) as [|d grants] eqn:E; [done|]. cbn [length] in Hn.
  assert (lp_grants (loop_step LGrant p) = grants ∧ lp_arrived (loop_step LGrant p) = lp_arrived p
    ∧ lp_ledger (loop_step LGrant p) = lp_ledger p ∧ lp_sent (loop_step LGrant p) = lp_sent p) as (Hw & Ha & Hwin & Hs).
  { cbn [loop_step]. rewrite E. by destruct (cw_grant _ _). }
  destruct (IH (loop_step LGrant p)) as (H1 & H2 & H3 & H4); [rewrite Hw; lia|].
  rewrite H2, H3, H4, Ha, Hwin, Hs. done.
Qed.

(** A settled loop has everything that was on the way, and has released a frame if any waited. *)
Lemma settle_spec p :
  loop_inv p →
  loop_inv (settle p) ∧ lp_sent (settle p) = lp_sent p ∧ lp_arrived (settle p) = lp_arrived p ++ lp_wire p
  ∧ (lp_wire (settle p) = [] → lp_arrived (settle p) = lp_sent p).
Proof.
  intros H. unfold settle. pose proof (loop_run_inv (replicate (length (lp_wire p)) LArrive) p H) as H1.
  destruct (arrive_all _ p eq_refl) as (Hw & Ha & _ & Hs). set (p1 := loop_run _ p) in *. clearbody p1.
  pose proof (loop_deadline_inv p1 H1) as H2.
  assert (lp_arrived (loop_step LDeadline p1) = lp_arrived p1 ∧ lp_sent (loop_step LDeadline p1) = lp_sent p1
    ∧ cw_owed (lg_window (lp_ledger (loop_step LDeadline p1))) = 0) as (Ha2 & Hs2 & Ho2).
  { cbn [loop_step]. destruct (lg_timer (lp_ledger p1)) eqn:Et; [done|]. split_and!; [done..|]. destruct H1 as [_ _ _ _ [Ho Ht] _ _].
    destruct (Z.eq_dec (cw_owed (lg_window (lp_ledger p1))) 0); [done|]. rewrite (proj2 Ht) in Et by lia. done. }
  set (p2 := loop_step LDeadline p1) in *. clearbody p2.
  pose proof (loop_run_inv (replicate (length (lp_grants p2)) LGrant) p2 H2) as H3.
  destruct (grant_all _ p2 eq_refl) as (Hg & Ha3 & Hl3 & Hs3). set (p3 := loop_run _ p2) in *. clearbody p3.
  split; [done|]. split; [congruence|]. split; [congruence|]. intros Hw3.
  destruct H3 as [Hcap Hcons (fs & (_ & _ & Hh) & Hsent) _ _ _ _]. rewrite Hw3, Hg, Hl3, Ho2 in Hcons. sums.
  destruct fs as [|f fs]; [rewrite Hw3, !app_nil_r in Hsent; congruence|].
  unfold cw_affordable in Hh. apply orb_false_iff in Hh as [_ Hh]. apply Z.leb_gt in Hh. lia.
Qed.

Lemma settles_all n p :
  loop_inv p → (lp_wire p = [] → lp_arrived p = lp_sent p) → (length (lp_sent p) ≤ length (lp_arrived p) + n)%nat →
  lp_arrived (settles n p) = lp_sent p.
Proof.
  revert p. induction n as [|n IH]; intros p H Hp Hn.
  - cbn [settles]. apply Hp. destruct H as [_ _ (fs & _ & Hs) _ _ _ _]. rewrite Hs, !length_app in Hn.
    apply length_zero_iff_nil. lia.
  - cbn [settles]. destruct (settle_spec p H) as (H1 & H2 & H3 & H4). rewrite <-H2. apply IH; [done|by rewrite H2|].
    rewrite H2, H3, length_app. destruct (lp_wire p) eqn:E; [rewrite Hp by done; cbn; lia|cbn; lia].
Qed.

(** C21: credit is conserved and nothing is reordered. In every run of one direction of a
    connection the window's available bytes, the bytes on the way, the bytes the receiver owes
    and the grants on the way sum to the window, so the clamp of [grant] never binds; what was
    sent is what arrived, what is on the way and what waits, in order; the bytes not yet repaid
    exceed the window only by what one oversized frame needs; and the deadline is armed exactly
    while something is owed. *)
Theorem credit_conserved (capacity : Z) (es : list loop_event) :
  0 < capacity →
  let p := loop_run es (new_Loop capacity) in
  let w := lp_window p in
  let owed := cw_owed (lg_window (lp_ledger p)) in
  cw_available w + cost_sum (lp_wire p) + owed + zsum (lp_grants p) = cw_capacity w
  ∧ (∃ waiting, lp_sent p = lp_arrived p ++ lp_wire p ++ waiting ∧ cw_queuedBytes w = cost_sum waiting)
  ∧ (cw_capacity w - cw_available w ≤ cw_capacity w
     ∨ ∃ f, f ∈ lp_sent p ∧ cw_capacity w - cw_available w ≤ frame_cost f)
  ∧ (lg_timer (lp_ledger p) = true ↔ 0 < owed) ∧ owed < cw_grantBatch (lg_window (lp_ledger p)).
Proof.
  intros Hc. cbn zeta. destruct (loop_run_inv es _ (new_Loop_inv capacity Hc)) as [_ Hcons (fs & (_ & Hb & _) & Hs) _ [_ Ht] [_ Hlt] Hov].
  split_and!; try done; [by exists fs|]. destruct Hov as [?|?]; [left; lia|by right].
Qed.

Lemma credit_conserved_witness :
  0 < 64 ∧
  let p := loop_run [LSend (demo_frame 1 (replicate 40 0)); LSend (demo_frame 3 [1]); LArrive; LGrant] (new_Loop 64) in
  let w := lp_window p in
  let owed := cw_owed (lg_window (lp_ledger p)) in
  cw_available w + cost_sum (lp_wire p) + owed + zsum (lp_grants p) = cw_capacity w
  ∧ (∃ waiting, lp_sent p = lp_arrived p ++ lp_wire p ++ waiting ∧ cw_queuedBytes w = cost_sum waiting)
  ∧ (cw_capacity w - cw_available w ≤ cw_capacity w
     ∨ ∃ f, f ∈ lp_sent p ∧ cw_capacity w - cw_available w ≤ frame_cost f)
  ∧ (lg_timer (lp_ledger p) = true ↔ 0 < owed) ∧ owed < cw_grantBatch (lg_window (lp_ledger p)).
Proof. split; [lia|]. apply (credit_conserved 64). lia. Defined.

(** C22: flow control never deadlocks. From every reachable state, however small the window and
    however large the frames, letting what is on the way arrive, the grant deadline fire and the
    grants arrive, once per frame sent and once more, brings every frame sent to the peer in
    the order it was sent. *)
Theorem credit_drains (capacity : Z) (es : list loop_event) :
  0 < capacity →
  let p := loop_run es (new_Loop capacity) in
  lp_arrived (settles (S (length (lp_sent p))) p) = lp_sent p.
Proof.
  intros Hc. cbn zeta. pose proof (loop_run_inv es _ (new_Loop_inv capacity Hc)) as H. set (p := loop_run es _) in *. clearbody p.
  cbn [settles]. destruct (settle_spec p H) as (H1 & H2 & H3 & H4). rewrite <-H2. apply settles_all; [done|by rewrite H2|lia].
Qed.

Lemma credit_drains_witness :
  0 < 20 ∧
  let p := loop_run [LSend (demo_frame 1 (replicate 40 0)); LSend (demo_frame 3 [1]); LSend (demo_frame 5 [2])] (new_Loop 20) in
  lp_arrived (settles (S (length (lp_sent p))) p) = lp_sent p.
Proof. split; [lia|]. apply (credit_drains 20). lia. Defined.
