(* ===== verification/NetEnvelope.v ===== *)
(** * Frame body codecs ([src/net/envelope.ts])

    The bodies of DATA, REPLY, ERROR and HELLO frames.  Paths and type ids are refs: an
    encoder asks an interner for an id and writes the literal inline when it gets none, a
    decoder resolves ids through a resolver.  The two are interfaces of the source; here they
    are type classes, with the agreement between an interner and a resolver as the law the
    round trips are proved from.  [NetTable] has the instance. *)
From S2P Require Import Prelude JsNumber JsString ByteIO NetBytes.

(** ** The interfaces *)

(** An interner changes its state (and announces) as it assigns ids; zero means inline. *)
Class RefInterner (S : Type) := {
  ri_pathId : jsstring → S → Z * S;
  ri_typeId : jsstring → S → Z * S }.

Class RefResolver (R : Type) := {
  rr_path : R → Z → result jsstring;
  rr_type : R → Z → result jsstring }.

(** A resolver that knows the ids an interner has handed out: they stand for the literals they
    were handed out for, and what is known of a later state of the interner is known of an
    earlier one. *)
Class RefAgreement (S R : Type) `{!RefInterner S, !RefResolver R} := {
  ra_ok : S → Prop;
  ra_agrees : S → R → Prop;
  ra_path l s : ra_ok s → let '(id, s') := ri_pathId l s in
    ra_ok s' ∧ 0 ≤ id ≤ MAX_SAFE_INTEGER ∧ ∀ r, ra_agrees s' r → ra_agrees s r ∧ (id ≠ 0 → rr_path r id = Ok l);
  ra_type l s : ra_ok s → let '(id, s') := ri_typeId l s in
    ra_ok s' ∧ 0 ≤ id ≤ MAX_SAFE_INTEGER ∧ ∀ r, ra_agrees s' r → ra_agrees s r ∧ (id ≠ 0 → rr_type r id = Ok l) }.

(** ** Envelopes *)

Definition KIND_TELL : Z := 0.
Definition KIND_ASK : Z := 1.
Definition KIND_WATCH : Z := 2.
Definition KIND_UNWATCH : Z := 3.
Definition SERIALIZER_BINARY : Z := 0.
Definition SERIALIZER_CUSTOM : Z := 255.
Definition ERROR_PROTOCOL : Z := 1.
Definition ERROR_BAD_REQUEST : Z := 2.
Definition ERROR_UNAVAILABLE : Z := 3.
Definition ERROR_INTERNAL : Z := 4.
Definition ERROR_APPLICATION : Z := 5.

Record DataEnvelope := MkData {
  de_kind : Z;
  de_to : jsstring;
  de_uid : jsstring;
  de_sender : jsstring;
  de_senderUid : jsstring;
  de_timeout : Z;
  de_serializerId : Z;
  de_typeRef : jsstring;
  de_payload : list Z }.

Record ReplyEnvelope := MkReply { re_serializerId : Z; re_typeRef : jsstring; re_payload : list Z }.

Record ErrorBody := MkErrorBody { eb_code : Z; eb_sentinel : Z; eb_name : jsstring; eb_message : jsstring }.

Record Hello := MkHello {
  hl_revision : Z;
  hl_systemName : jsstring;
  hl_host : jsstring;
  hl_port : Z;
  hl_lane : Z;
  hl_compression : Z;
  hl_maxFrameSize : Z;
  hl_maxMessageSize : Z;
  hl_initialCredits : Z;
  hl_maxLargeTransfers : Z }.

Definition knownSerializer (id : Z) : bool := (id =? SERIALIZER_BINARY) || (id =? SERIALIZER_CUSTOM).

Definition validateWatchShape (e : DataEnvelope) : bool :=
  if negb (de_kind e =? KIND_WATCH) && negb (de_kind e =? KIND_UNWATCH) then true
  else bool_decide (de_typeRef e = []) && Nat.eqb (length (de_payload e)) 0.

(** ** Writing, with the interner's state *)

Definition Interning (S A : Type) : Type := S → result A * S.

#[global] Instance Interning_ret S : MRet (Interning S) := λ A a s, (Ok a, s).

#[global] Instance Interning_bind S : MBind (Interning S) := λ A B k m s,
  match m s with (Ok a, s) => k a s | (Throw e, s) => (Throw e, s) end.

Definition lift {S A} (m : result A) : Interning S A := λ s, (m, s).

Section codec.
Context {T R : Type} `{!RefInterner T, !RefResolver R}.

(** The id of a ref: zero on a connection without tables. *)
Definition pathIdOf (literal : jsstring) : Interning (option T) Z := λ refs,
  match refs with
  | None => (Ok 0, None)
  | Some s => let '(id, s) := ri_pathId literal s in (Ok id, Some s)
  end.

Definition typeIdOf (literal : jsstring) : Interning (option T) Z := λ refs,
  match refs with
  | None => (Ok 0, None)
  | Some s => let '(id, s) := ri_typeId literal s in (Ok id, Some s)
  end.

Definition writeRef (literal : jsstring) (id : Z) (w : NetWriter) : result NetWriter :=
  if negb (id =? 0) then writeUvarint id w else let! w := writeUvarint 0 w in writeString literal w.

Definition encodeDataEnvelope (e : DataEnvelope) (w : NetWriter) : Interning (option T) NetWriter :=
  _ ← lift (guard_throw (negb ((de_kind e <? KIND_TELL) || (KIND_UNWATCH <? de_kind e))) (TypeError "unknown envelope kind"));
  _ ← lift (guard_throw (knownSerializer (de_serializerId e)) (TypeError "unknown serializer id"));
  _ ← lift (guard_throw (validateWatchShape e) (TypeError "a watch or unwatch carries no type ref and no payload"));
  to ← pathIdOf (de_to e);
  w ← lift (writeRef (de_to e) to (writeU8 (de_kind e) w));
  w ← lift (writeString (de_uid e) w);
  sender ← pathIdOf (de_sender e);
  w ← lift (writeRef (de_sender e) sender w);
  w ← lift (writeString (de_senderUid e) w);
  w ← lift (writeUvarint (de_timeout e) w);
  type ← typeIdOf (de_typeRef e);
  w ← lift (writeRef (de_typeRef e) type (writeU8 (de_serializerId e) w));
  mret (writeBytes (de_payload e) w).

Definition encodeReplyEnvelope (e : ReplyEnvelope) (w : NetWriter) : Interning (option T) NetWriter :=
  _ ← lift (guard_throw (knownSerializer (re_serializerId e)) (TypeError "unknown serializer id"));
  type ← typeIdOf (re_typeRef e);
  w ← lift (writeRef (re_typeRef e) type (writeU8 (re_serializerId e) w));
  mret (writeBytes (re_payload e) w).

(** ** Reading *)

Definition fail_with {A} (e : js_error) : Reader A := λ _, Throw e.

Definition from_result {A} (m : result A) : Reader A := λ r, let! a := m in Ok (a, r).

Definition resolveRef (refs : option R) : Reader R :=
  match refs with None => fail_with (ProtocolError "table ref without a negotiated table") | Some r => mret r end.

Definition readPathRef (refs : option R) : Reader jsstring :=
  id ← readUvarint; if id =? 0 then readString else r ← resolveRef refs; from_result (rr_path r id).

Definition readTypeRef (refs : option R) : Reader jsstring :=
  id ← readUvarint; if id =? 0 then readString else r ← resolveRef refs; from_result (rr_type r id).

Definition readRest : Reader (list Z) := n ← net_remaining; readBytes n.

Definition decodeDataEnvelope (refs : option R) : Reader DataEnvelope :=
  kind ← readU8;
  _ ← net_guard (negb (KIND_UNWATCH <? kind)) "unknown envelope kind";
  to ← readPathRef refs;
  uid ← readString;
  sender ← readPathRef refs;
  senderUid ← readString;
  timeout ← readUvarint;
  serializerId ← readU8;
  _ ← net_guard (knownSerializer serializerId) "unknown serializer id";
  typeRef ← readTypeRef refs;
  payload ← readRest;
  let e := MkData kind to uid sender senderUid timeout serializerId typeRef payload in
  _ ← net_guard (validateWatchShape e) "a watch or unwatch carries no type ref and no payload";
  mret e.

Definition decodeReplyEnvelope (refs : option R) : Reader ReplyEnvelope :=
  serializerId ← readU8;
  _ ← net_guard (knownSerializer serializerId) "unknown serializer id";
  typeRef ← readTypeRef refs;
  payload ← readRest;
  mret (MkReply serializerId typeRef payload).
End codec.

(** ** Errors and the handshake, which carry no refs *)

Definition encodeErrorBody (b : ErrorBody) (w : NetWriter) : result NetWriter :=
  let! _ := guard_throw (negb ((eb_code b <? ERROR_PROTOCOL) || (ERROR_APPLICATION <? eb_code b))) (TypeError "unknown error code") in
  let! w := writeUvarint (eb_sentinel b) (writeU8 (eb_code b) w) in
  let! w := writeString (eb_name b) w in
  writeString (eb_message b) w.

Definition decodeErrorBody : Reader ErrorBody :=
  code ← readU8;
  _ ← net_guard (negb ((code <? ERROR_PROTOCOL) || (ERROR_APPLICATION <? code))) "unknown error code";
  sentinel ← readUvarint;
  name ← readString;
  message ← readString;
  mret (MkErrorBody code sentinel name message).

Definition encodeHello (h : Hello) (w : NetWriter) : result NetWriter :=
  let! w := writeUvarint (hl_revision h) w in
  let! w := writeString (hl_systemName h) w in
  let! w := writeString (hl_host h) w in
  let! w := writeUvarint (hl_port h) w in
  let w := writeU8 (hl_compression h) (writeU8 (hl_lane h) w) in
  let! w := writeUvarint (hl_maxFrameSize h) w in
  let! w := writeUvarint (hl_maxMessageSize h) w in
  let! w := writeUvarint (hl_initialCredits h) w in
  writeUvarint (hl_maxLargeTransfers h) w.

Definition decodeHello : Reader Hello :=
  revision ← readUvarint;
  systemName ← readString;
  host ← readString;
  port ← readUvarint;
  lane ← readU8;
  compression ← readU8;
  maxFrameSize ← readUvarint;
  maxMessageSize ← readUvarint;
  initialCredits ← readUvarint;
  maxLargeTransfers ← readUvarint;
  mret (MkHello revision systemName host port lane compression maxFrameSize maxMessageSize initialCredits maxLargeTransfers).

(** ** Round trips *)

(** A reader that takes the rest of its input. *)
Definition finishes {A} (rd : Reader A) (bs : list Z) (a : A) : Prop :=
  ∀ pre, rd (MkReader (pre ++ bs) (length pre)) = Ok (a, MkReader (pre ++ bs) (length pre + length bs)).

Lemma reads_finishes {A} (rd : Reader A) bs a : reads rd bs a → finishes rd bs a.
Proof. intros H pre. pose proof (H pre []) as H'. by rewrite app_nil_r in H'. Qed.

Lemma finishes_bind {A B} (rd : Reader A) (k : A → Reader B) bs1 bs2 a b :
  reads rd bs1 a → finishes (k a) bs2 b → finishes (rd ≫= k) (bs1 ++ bs2) b.
Proof.
  intros H1 H2 pre. unfold mbind, Reader_bind. rewrite (H1 pre bs2). pose proof (H2 (pre ++ bs1)) as H.
  rewrite length_app, <-app_assoc in H. rewrite H, length_app. do 3 f_equal. lia.
Qed.

Lemma finishes_then {A B} (rd : Reader A) (k : A → Reader B) bs a b :
  reads rd [] a → finishes (k a) bs b → finishes (rd ≫= k) bs b.
Proof. apply (finishes_bind rd k [] bs). Qed.

Lemma finishes_last {A B} (rd : Reader A) (k : A → Reader B) bs a b :
  finishes rd bs a → reads (k a) [] b → finishes (rd ≫= k) bs b.
Proof.
  intros H1 H2 pre. unfold mbind, Reader_bind. rewrite H1. pose proof (H2 (pre ++ bs) []) as H.
  rewrite app_nil_r, length_app in H. rewrite H. cbn [length]. by rewrite Nat.add_0_r.
Qed.

Lemma finishes_rest bs : finishes readRest bs bs.
Proof.
  intros pre. unfold readRest, net_remaining, mbind, Reader_bind. cbn [remaining]. pose proof (reads_bytes bs pre []) as H. rewrite app_nil_r in H.
  rewrite <-H. do 2 f_equal. unfold remaining. cbn. rewrite length_app. lia.
Qed.

Lemma finishes_end : finishes net_remaining [] 0.
Proof. intros pre. unfold net_remaining, remaining. cbn. rewrite length_app, !Nat.add_0_r, Nat.sub_diag. done. Qed.

Lemma reads_from_result {A} (m : result A) a : m = Ok a → reads (from_result m) [] a.
Proof. intros -> pre suf. unfold from_result. cbn. by rewrite Nat.add_0_r. Qed.

Lemma ibind_ok {S A B} (m : Interning S A) (k : A → Interning S B) s b s' :
  (m ≫= k) s = (Ok b, s') → ∃ a s1, m s = (Ok a, s1) ∧ k a s1 = (Ok b, s').
Proof. unfold mbind, Interning_bind. destruct (m s) as [[a|e] s1]; [|done]. by exists a, s1. Qed.

Lemma lift_ok {S A} (m : result A) (s s1 : S) a : lift m s = (Ok a, s1) → m = Ok a ∧ s1 = s.
Proof. unfold lift. by intros [= -> ->]. Qed.

(** Takes an encoder's success apart, one step. *)
Ltac istep H x :=
  let s := fresh "s" in let E := fresh "E" in
  apply ibind_ok in H as (x & s & E & H); try (apply lift_ok in E as [E ->]).

Definition ref_bytes (literal : jsstring) (id : Z) : list Z :=
  if id =? 0 then uvarint 0 ++ string_bytes literal else uvarint id.

Lemma writeRef_spec literal id w w' :
  nw_ok w → Forall is_unit literal → writeRef literal id w = Ok w' →
  appends (ref_bytes literal id) w w' ∧ (id = 0 → utf8Length literal ≤ MAX_SAFE_INTEGER).
Proof.
  intros Hw Hl. unfold writeRef, ref_bytes. destruct (Z.eqb_spec id 0) as [->|Hid]; cbn [negb]; intros H.
  - apply result_bind_ok in H as (w1 & E1 & H). apply writeUvarint_spec in E1 as [A1 _]; [|done].
    apply writeString_spec in H as [A2 Hm]; [|apply A1|done]. split; [by apply (appends_trans _ _ _ _ _ A1)|done].
  - apply writeUvarint_spec in H as [A _]; [|done]. by split.
Qed.

Section roundtrip.
Context {T R : Type} `{RefAgreement T R}.

(** Agreement of an optional interner and an optional resolver. *)
Definition refs_agree (s : option T) (r : option R) : Prop :=
  match s, r with None, _ => True | Some s, Some r => ra_agrees s r | Some _, None => False end.

Definition refs_ok (s : option T) : Prop := match s with None => True | Some s => ra_ok s end.

(** An id stands for its literal at the other end. *)
Definition stands (rr : R → Z → result jsstring) (r : option R) (id : Z) (literal : jsstring) : Prop :=
  id ≠ 0 → ∃ r', r = Some r' ∧ rr r' id = Ok literal.

Lemma pathIdOf_spec l s id s' :
  refs_ok s → pathIdOf l s = (Ok id, s') → refs_ok s' ∧ 0 ≤ id ≤ MAX_SAFE_INTEGER ∧ ∀ r, refs_agree s' r → refs_agree s r ∧ stands rr_path r id l.
Proof.
  intros Hs. unfold pathIdOf. destruct s as [s|]; [|intros [= <- <-]; unfold MAX_SAFE_INTEGER; split; [done|]; split; [lia|]; intros r _; split; [done|by intros []]].
  pose proof (ra_path l s Hs) as Hl. destruct (ri_pathId l s) as [i s1]. intros [= <- <-]. split; [apply Hl|]. split; [apply Hl|].
  intros [r|] Hr; [|done]. destruct (proj2 (proj2 Hl) r Hr) as [? Hi]. split; [done|]. intros Hne. exists r. split; [done|by apply Hi].
Qed.

Lemma typeIdOf_spec l s id s' :
  refs_ok s → typeIdOf l s = (Ok id, s') → refs_ok s' ∧ 0 ≤ id ≤ MAX_SAFE_INTEGER ∧ ∀ r, refs_agree s' r → refs_agree s r ∧ stands rr_type r id l.
Proof.
  intros Hs. unfold typeIdOf. destruct s as [s|]; [|intros [= <- <-]; unfold MAX_SAFE_INTEGER; split; [done|]; split; [lia|]; intros r _; split; [done|by intros []]].
  pose proof (ra_type l s Hs) as Hl. destruct (ri_typeId l s) as [i s1]. intros [= <- <-]. split; [apply Hl|]. split; [apply Hl|].
  intros [r|] Hr; [|done]. destruct (proj2 (proj2 Hl) r Hr) as [? Hi]. split; [done|]. intros Hne. exists r. split; [done|by apply Hi].
Qed.

Lemma reads_ref (rr : R → Z → result jsstring) r id l :
  0 ≤ id ≤ MAX_SAFE_INTEGER → stands rr r id l → plain l → (id = 0 → utf8Length l ≤ MAX_SAFE_INTEGER) →
  reads (id ← readUvarint; if id =? 0 then readString else r ← resolveRef r; from_result (rr r id)) (ref_bytes l id) l.
Proof.
  intros Hid Hs Hp Hm. unfold ref_bytes. destruct (Z.eqb_spec id 0) as [->|Hne].
  - eapply reads_bind; [by apply reads_readUvarint|]. cbv beta. cbn [Z.eqb]. by apply reads_readString; [|apply Hm].
  - apply (reads_map _ _ _ id); [by apply reads_readUvarint|]. cbv beta. rewrite (proj2 (Z.eqb_neq _ _)) by done.
    destruct (Hs Hne) as (r' & -> & Hr). intros pre suf. cbn. unfold mbind, Reader_bind, from_result. cbn. by rewrite Hr, Nat.add_0_r.
Qed.

Definition data_plain (e : DataEnvelope) : Prop :=
  plain (de_to e) ∧ plain (de_uid e) ∧ plain (de_sender e) ∧ plain (de_senderUid e) ∧ plain (de_typeRef e).

Definition data_valid (e : DataEnvelope) : Prop :=
  KIND_TELL ≤ de_kind e ≤ KIND_UNWATCH ∧ knownSerializer (de_serializerId e) = true ∧ validateWatchShape e = true.

(** The bytes of an envelope whose refs have the ids given. *)
Definition data_bytes (e : DataEnvelope) (to sender ty : Z) : list Z :=
  [de_kind e] ++ ref_bytes (de_to e) to ++ string_bytes (de_uid e) ++ ref_bytes (de_sender e) sender ++ string_bytes (de_senderUid e)
  ++ uvarint (de_timeout e) ++ [de_serializerId e] ++ ref_bytes (de_typeRef e) ty ++ de_payload e.

Lemma serializer_byte id : knownSerializer id = true → id mod 256 = id.
Proof. unfold knownSerializer, SERIALIZER_BINARY, SERIALIZER_CUSTOM. rewrite orb_true_iff, !Z.eqb_eq. by intros [->| ->]. Qed.

Lemma encode_data_inv e w s w' s' :
  nw_ok w → data_plain e → encodeDataEnvelope e w s = (Ok w', s') →
  data_valid e ∧ 0 ≤ de_timeout e ≤ MAX_SAFE_INTEGER ∧ utf8Length (de_uid e) ≤ MAX_SAFE_INTEGER ∧ utf8Length (de_senderUid e) ≤ MAX_SAFE_INTEGER
  ∧ ∃ to sender ty s1 s2, pathIdOf (de_to e) s = (Ok to, s1) ∧ pathIdOf (de_sender e) s1 = (Ok sender, s2)
    ∧ typeIdOf (de_typeRef e) s2 = (Ok ty, s') ∧ appends (data_bytes e to sender ty) w w'
    ∧ (to = 0 → utf8Length (de_to e) ≤ MAX_SAFE_INTEGER) ∧ (sender = 0 → utf8Length (de_sender e) ≤ MAX_SAFE_INTEGER)
    ∧ (ty = 0 → utf8Length (de_typeRef e) ≤ MAX_SAFE_INTEGER).
Proof.
  intros Hw (P1 & P2 & P3 & P4 & P5) He. unfold encodeDataEnvelope in He.
  istep He u1. istep He u2. istep He u3. istep He to. istep He w1. istep He w2. istep He sender. istep He w3. istep He w4. istep He w5.
  istep He ty. istep He w6. injection He as <- <-. apply guard_throw_ok in E, E0, E1.
  rewrite negb_true_iff, orb_false_iff, !Z.ltb_ge in E.
  pose proof (writeU8_spec (de_kind e) w Hw) as A0. rewrite Z.mod_small in A0 by (unfold KIND_TELL, KIND_UNWATCH in E; lia).
  apply writeRef_spec in E3 as [A1 M1]; [|apply A0|apply P1]. apply writeString_spec in E4 as [A2 M2]; [|apply A1|apply P2].
  apply writeRef_spec in E6 as [A3 M3]; [|apply A2|apply P3]. apply writeString_spec in E7 as [A4 M4]; [|apply A3|apply P4].
  apply writeUvarint_spec in E8 as [A5 M5]; [|apply A4]. pose proof (writeU8_spec (de_serializerId e) w5 (proj1 A5)) as A6.
  rewrite serializer_byte in A6 by done. apply writeRef_spec in E10 as [A7 M7]; [|apply A6|apply P5].
  pose proof (writeBytes_spec (de_payload e) w6 (proj1 A7)) as A8. do 4 (split; [done|]).
  exists to, sender, ty, s0, s1. split_and!; try done. unfold data_bytes. repeat (eapply appends_trans; [eassumption|]). done.
Qed.

Lemma decode_data_bytes e to sender ty r :
  data_valid e → data_plain e → 0 ≤ de_timeout e ≤ MAX_SAFE_INTEGER →
  utf8Length (de_uid e) ≤ MAX_SAFE_INTEGER → utf8Length (de_senderUid e) ≤ MAX_SAFE_INTEGER →
  reads (readPathRef r) (ref_bytes (de_to e) to) (de_to e) → reads (readPathRef r) (ref_bytes (de_sender e) sender) (de_sender e) →
  reads (readTypeRef r) (ref_bytes (de_typeRef e) ty) (de_typeRef e) →
  finishes (decodeDataEnvelope r) (data_bytes e to sender ty) e.
Proof.
  intros (Hk & Hs & Hv) (P1 & P2 & P3 & P4 & P5) Ht H2 H4 R1 R2 R3. unfold decodeDataEnvelope, data_bytes, KIND_TELL, KIND_UNWATCH in *.
  eapply finishes_bind; [apply reads_readU8|]. eapply finishes_then.
  { apply reads_net_guard. apply negb_true_iff, Z.ltb_ge. lia. }
  eapply finishes_bind; [exact R1|]. eapply finishes_bind; [by apply reads_readString|]. eapply finishes_bind; [exact R2|].
  eapply finishes_bind; [by apply reads_readString|]. eapply finishes_bind; [by apply reads_readUvarint|].
  eapply finishes_bind; [apply reads_readU8|]. eapply finishes_then; [by apply reads_net_guard|]. eapply finishes_bind; [exact R3|].
  eapply finishes_last; [apply finishes_rest|]. cbv beta zeta. destruct e. eapply reads_then; [by apply reads_net_guard|apply reads_ret].
Qed.

Lemma data_roundtrip e w s w' s' :
  nw_ok w → refs_ok s → data_plain e → encodeDataEnvelope e w s = (Ok w', s') →
  ∃ bs, appends bs w w' ∧ ∀ r, refs_agree s' r → refs_agree s r ∧ finishes (decodeDataEnvelope r) bs e.
Proof.
  intros Hw Hok Hp He. destruct (encode_data_inv _ _ _ _ _ Hw Hp He) as
    (Hv & Ht & H2 & H4 & to & sender & ty & s1 & s2 & E1 & E2 & E3 & A & M1 & M2 & M3).
  exists (data_bytes e to sender ty). split; [done|]. intros r Hr. pose proof Hp as (P1 & P2 & P3 & P4 & P5).
  apply pathIdOf_spec in E1 as (K1 & B1 & F1); [|done]. apply pathIdOf_spec in E2 as (K2 & B2 & F2); [|done].
  apply typeIdOf_spec in E3 as (K3 & B3 & F3); [|done].
  destruct (F3 r Hr) as [Hr2 S3]. destruct (F2 r Hr2) as [Hr1 S2]. destruct (F1 r Hr1) as [Hr0 S1]. split; [done|].
  by apply decode_data_bytes; try done; apply reads_ref.
Qed.

Lemma reply_roundtrip e w s w' s' :
  nw_ok w → refs_ok s → plain (re_typeRef e) → encodeReplyEnvelope e w s = (Ok w', s') →
  ∃ bs, appends bs w w' ∧ ∀ r, refs_agree s' r → refs_agree s r ∧ finishes (decodeReplyEnvelope r) bs e.
Proof.
  intros Hw Hok Hp He. unfold encodeReplyEnvelope in He. istep He u1. istep He ty. istep He w1. injection He as <- <-.
  apply guard_throw_ok in E. pose proof (writeU8_spec (re_serializerId e) w Hw) as A0. rewrite serializer_byte in A0 by done.
  apply writeRef_spec in E1 as [A1 M1]; [|apply A0|apply Hp]. pose proof (writeBytes_spec (re_payload e) w1 (proj1 A1)) as A2.
  exists ([re_serializerId e] ++ ref_bytes (re_typeRef e) ty ++ re_payload e). split; [by repeat (eapply appends_trans; [eassumption|])|].
  intros r Hr. apply typeIdOf_spec in E0 as (K & B & F); [|done]. destruct (F r Hr) as [Hr0 S1]. split; [done|]. unfold decodeReplyEnvelope.
  eapply finishes_bind; [apply reads_readU8|]. eapply finishes_then; [by apply reads_net_guard|].
  eapply finishes_bind; [by apply reads_ref|]. eapply finishes_last; [apply finishes_rest|]. destruct e. apply reads_ret.
Qed.
End roundtrip.

Lemma error_body_roundtrip b w w' :
  nw_ok w → plain (eb_name b) → plain (eb_message b) → encodeErrorBody b w = Ok w' →
  ∃ bs, appends bs w w' ∧ reads decodeErrorBody bs b.
Proof.
  intros Hw P1 P2 He. unfold encodeErrorBody in He. apply result_bind_ok in He as (u & E & He). apply result_bind_ok in He as (w1 & E1 & He).
  apply result_bind_ok in He as (w2 & E2 & He). apply guard_throw_ok in E. pose proof E as E'. rewrite negb_true_iff, orb_false_iff, !Z.ltb_ge in E'.
  pose proof (writeU8_spec (eb_code b) w Hw) as A0. unfold ERROR_PROTOCOL, ERROR_APPLICATION in E'. rewrite Z.mod_small in A0 by lia.
  apply writeUvarint_spec in E1 as [A1 M1]; [|apply A0]. apply writeString_spec in E2 as [A2 M2]; [|apply A1|apply P1].
  apply writeString_spec in He as [A3 M3]; [|apply A2|apply P2].
  exists ([eb_code b] ++ uvarint (eb_sentinel b) ++ string_bytes (eb_name b) ++ string_bytes (eb_message b)).
  split; [by repeat (eapply appends_trans; [eassumption|])|]. unfold decodeErrorBody.
  eapply reads_bind; [apply reads_readU8|]. eapply reads_then; [by apply reads_net_guard|].
  eapply reads_bind; [by apply reads_readUvarint|]. eapply reads_bind; [by apply reads_readString|].
  eapply reads_map; [by apply reads_readString|]. destruct b. apply reads_ret.
Qed.

(** A handshake whose one-byte fields are bytes. *)
Definition hello_ok (h : Hello) : Prop := plain (hl_systemName h) ∧ plain (hl_host h) ∧ is_byte (hl_lane h) ∧ is_byte (hl_compression h).

Lemma hello_roundtrip h w w' :
  nw_ok w → hello_ok h → encodeHello h w = Ok w' → ∃ bs, appends bs w w' ∧ reads decodeHello bs h.
Proof.
  intros Hw (P1 & P2 & B1 & B2) He. unfold encodeHello in He. apply result_bind_ok in He as (w1 & E1 & He).
  apply result_bind_ok in He as (w2 & E2 & He). apply result_bind_ok in He as (w3 & E3 & He). apply result_bind_ok in He as (w4 & E4 & He).
  apply result_bind_ok in He as (w5 & E5 & He). apply result_bind_ok in He as (w6 & E6 & He). apply result_bind_ok in He as (w7 & E7 & He).
  apply writeUvarint_spec in E1 as [A1 M1]; [|done]. apply writeString_spec in E2 as [A2 M2]; [|apply A1|apply P1].
  apply writeString_spec in E3 as [A3 M3]; [|apply A2|apply P2]. apply writeUvarint_spec in E4 as [A4 M4]; [|apply A3].
  pose proof (writeU8_spec (hl_lane h) w4 (proj1 A4)) as C1. pose proof (writeU8_spec (hl_compression h) _ (proj1 C1)) as C2.
  unfold is_byte in *. rewrite Z.mod_small in C1, C2 by done. apply writeUvarint_spec in E5 as [A5 M5]; [|apply C2].
  apply writeUvarint_spec in E6 as [A6 M6]; [|apply A5]. apply writeUvarint_spec in E7 as [A7 M7]; [|apply A6].
  apply writeUvarint_spec in He as [A8 M8]; [|apply A7].
  exists (uvarint (hl_revision h) ++ string_bytes (hl_systemName h) ++ string_bytes (hl_host h) ++ uvarint (hl_port h) ++ [hl_lane h] ++ [hl_compression h]
    ++ uvarint (hl_maxFrameSize h) ++ uvarint (hl_maxMessageSize h) ++ uvarint (hl_initialCredits h) ++ uvarint (hl_maxLargeTransfers h)).
  split; [by repeat (eapply appends_trans; [eassumption|])|]. unfold decodeHello.
  eapply reads_bind; [by apply reads_readUvarint|]. eapply reads_bind; [by apply reads_readString|]. eapply reads_bind; [by apply reads_readString|].
  eapply reads_bind; [by apply reads_readUvarint|]. eapply reads_bind; [apply reads_readU8|]. eapply reads_bind; [apply reads_readU8|].
  do 3 (eapply reads_bind; [by apply reads_readUvarint|]). eapply reads_map; [by apply reads_readUvarint|]. destruct h. apply reads_ret.
Qed.
