(* ===== verification/NetTable.v ===== *)
(** * String tables ([src/net/table.ts])

    Each direction of a connection interns paths and type ids: the sender assigns dense ids
    and announces each once, before it is used; the receiver installs announcements under
    strict rules and resolves refs.  The two implement the interner and the resolver of
    [NetEnvelope], and installing the sender's announcements in order is what makes them agree. *)
From S2P Require Import Prelude JsNumber JsString ByteIO NetBytes NetEnvelope.

Definition TABLE_PATH : Z := 0.
Definition TABLE_TYPE : Z := 1.
Definition TABLE_CAPACITY : Z := 8192.

Record TableAnnouncement := MkAnnouncement { ta_kind : Z; ta_id : Z; ta_literal : jsstring }.

Definition encodeTableBody (a : TableAnnouncement) (w : NetWriter) : result NetWriter :=
  let! w := writeUvarint (ta_id a) (writeU8 (ta_kind a) w) in
  writeString (ta_literal a) w.

Definition decodeTableBody : Reader TableAnnouncement :=
  kind ← readU8;
  _ ← from_result (guard_throw ((kind =? TABLE_PATH) || (kind =? TABLE_TYPE)) (ProtocolError "unknown table kind"));
  id ← readUvarint;
  literal ← readString;
  rest ← net_remaining;
  _ ← from_result (guard_throw (rest =? 0) (ProtocolError "trailing bytes after a table registration"));
  mret (MkAnnouncement kind id literal).

(** ** The sending side *)

Abbreviation idmap := (list (jsstring * Z)).

(** [ot_announced] is the log of the announce callback. *)
Record OutboundTables := MkOutTables { ot_paths : idmap; ot_types : idmap; ot_announced : list TableAnnouncement }.

Definition new_OutboundTables : OutboundTables := MkOutTables [] [] [].

(** [intern]: the id, the table and the announcement made, if any. *)
Definition intern (kind : Z) (table : idmap) (literal : jsstring) : Z * idmap * list TableAnnouncement :=
  if bool_decide (literal = []) then (0, table, [])
  else
    match jm_get literal table with
    | Some known => (known, table, [])
    | None =>
        if TABLE_CAPACITY <=? Z.of_nat (length table) then (0, table, [])
        else
          let id := Z.of_nat (length table) + 1 in
          (id, jm_set literal id table, [MkAnnouncement kind id literal])
    end.

Definition ot_pathId (literal : jsstring) (t : OutboundTables) : Z * OutboundTables :=
  let '(id, table, out) := intern TABLE_PATH (ot_paths t) literal in
  (id, MkOutTables table (ot_types t) (ot_announced t ++ out)).

Definition ot_typeId (literal : jsstring) (t : OutboundTables) : Z * OutboundTables :=
  let '(id, table, out) := intern TABLE_TYPE (ot_types t) literal in
  (id, MkOutTables (ot_paths t) table (ot_announced t ++ out)).

#[global] Instance OutboundTables_interner : RefInterner OutboundTables := {| ri_pathId := ot_pathId; ri_typeId := ot_typeId |}.

(** ** The receiving side *)

(** The arrays are indexed by id, absent ids are holes; [it_byPath] has the handle cached for
    the entry last installed for a path. *)
Record InboundTables (H : Type) := MkInTables {
  it_paths : list (option jsstring);
  it_types : list (option jsstring);
  it_byPath : list (jsstring * option H) }.
Arguments MkInTables {H} _ _ _.
Arguments it_paths {H} _.
Arguments it_types {H} _.
Arguments it_byPath {H} _.

Definition new_InboundTables {H} : InboundTables H := MkInTables [] [] [].

(** [table[id] = entry]: the array grows with holes. *)
Definition array_set {A} (l : list (option A)) (i : nat) (x : A) : list (option A) :=
  <[i := Some x]> (l ++ replicate (S i - length l) None).

Section inbound.
Context {H : Type}.

Definition install (a : TableAnnouncement) (t : InboundTables H) : result (InboundTables H) :=
  let! _ := guard_throw (negb (ta_id a =? 0)) (ProtocolError "table id zero is reserved for inline refs") in
  let! _ := guard_throw (negb (bool_decide (ta_literal a = []))) (ProtocolError "table entry registers an empty literal") in
  let! _ := guard_throw (negb (TABLE_CAPACITY <? ta_id a)) (ProtocolError "table entry is over capacity") in
  let id := Z.to_nat (ta_id a) in
  let table := if ta_kind a =? TABLE_PATH then it_paths t else it_types t in
  match mjoin (table !! id) with
  | Some existing =>
      if bool_decide (existing = ta_literal a) then Ok t
      else Throw (ProtocolError "table entry re-registered with a new literal")
  | None =>
      let table := array_set table id (ta_literal a) in
      if ta_kind a =? TABLE_PATH then Ok (MkInTables table (it_types t) (jm_set (ta_literal a) None (it_byPath t)))
      else Ok (MkInTables (it_paths t) table (it_byPath t))
  end.

Definition it_path (t : InboundTables H) (id : Z) : result jsstring :=
  match mjoin (it_paths t !! Z.to_nat id) with Some l => Ok l | None => Throw (ProtocolError "unknown path table ref") end.

Definition it_type (t : InboundTables H) (id : Z) : result jsstring :=
  match mjoin (it_types t !! Z.to_nat id) with Some l => Ok l | None => Throw (ProtocolError "unknown type table ref") end.

Definition cacheHandle (path : jsstring) (handle : H) (t : InboundTables H) : bool * InboundTables H :=
  match jm_get path (it_byPath t) with
  | None => (false, t)
  | Some _ => (true, MkInTables (it_paths t) (it_types t) (jm_set path (Some handle) (it_byPath t)))
  end.

Definition handleOf (path : jsstring) (t : InboundTables H) : option H := mjoin (jm_get path (it_byPath t)).

#[global] Instance InboundTables_resolver : RefResolver (InboundTables H) := {| rr_path := it_path; rr_type := it_type |}.

(** [onTableFrame]'s work on a connection with tables: the body decoded and installed. *)
Definition installBody (body : list Z) (t : InboundTables H) : result (InboundTables H) :=
  let! r := decodeTableBody (MkReader body 0) in install r.1 t.
End inbound.

(** ** The sender's tables *)

(** Distinct literals, none empty, numbered from one, within the capacity. *)
Definition table_ok (m : idmap) : Prop :=
  jm_wf m ∧ m.*2 = ((λ n, Z.of_nat (S n)) <$> (seq 0 (length m))) ∧ ([] ∉ m.*1) ∧ Z.of_nat (length m) ≤ TABLE_CAPACITY.

Lemma table_ok_nil : table_ok [].
Proof. split_and!; [apply jm_wf_nil|done|set_solver|unfold TABLE_CAPACITY; cbn; lia]. Qed.

Lemma jm_set_fresh (l : jsstring) (id : Z) m : jm_get l m = None → jm_set l id m = m ++ [(l, id)].
Proof. intros ?%jm_get_None. by apply jm_set_new. Qed.

(** The literal numbered [id]. *)
Lemma table_get m l id : table_ok m → jm_get l m = Some id → 0 < id ≤ TABLE_CAPACITY ∧ m.*1 !! (Z.to_nat id - 1)%nat = Some l.
Proof.
  intros (_ & Hn & _ & Hc) Hg. apply jm_get_elem, list_elem_of_lookup in Hg as [i Hi].
  pose proof (list_lookup_fmap snd m i) as H2. pose proof (list_lookup_fmap fst m i) as H1. rewrite Hi in H1, H2. cbn in H1, H2.
  pose proof (lookup_lt_Some _ _ _ Hi) as Hlt. rewrite Hn, list_lookup_fmap, lookup_seq_lt in H2 by done. injection H2 as <-.
  split; [lia|]. rewrite <-H1. f_equal. lia.
Qed.

Lemma table_ok_set m l :
  table_ok m → l ≠ [] → jm_get l m = None → Z.of_nat (length m) < TABLE_CAPACITY →
  table_ok (jm_set l (Z.of_nat (length m) + 1) m).
Proof.
  intros (Hw & Hn & He & Hc) Hl Hg Hlt. split; [by apply jm_wf_set|]. rewrite jm_set_fresh by done.
  rewrite !fmap_app, length_app, seq_app, fmap_app, Hn. split_and!.
  - f_equal. cbn. f_equal. lia.
  - cbn. rewrite elem_of_app, list_elem_of_singleton. naive_solver.
  - cbn. lia.
Qed.

(** What interning a literal does to its table. *)
Lemma intern_spec kind m l :
  table_ok m →
  let '(id, m', out) := intern kind m l in
  table_ok m' ∧ 0 ≤ id ≤ TABLE_CAPACITY
  ∧ (id = 0 → m' = m ∧ out = [] ∧ (l = [] ∨ Z.of_nat (length m) = TABLE_CAPACITY))
  ∧ (id ≠ 0 → jm_get l m' = Some id ∧ ((m' = m ∧ out = []) ∨ (m' = m ++ [(l, id)] ∧ out = [MkAnnouncement kind id l] ∧ l ≠ []
       ∧ jm_get l m = None ∧ id = Z.of_nat (length m) + 1))).
Proof.
  intros Hm. unfold intern. assert (0 < TABLE_CAPACITY) as Hpos by (unfold TABLE_CAPACITY; lia). destruct (bool_decide_reflect (l = [])) as [->|Hl].
  { split; [done|]. split; [lia|]. split; [|done]. intros _. split_and!; [done..|by left]. }
  destruct (jm_get l m) as [known|] eqn:E.
  { destruct (table_get _ _ _ Hm E) as [Hk _]. split; [done|]. split; [lia|]. split; [lia|]. intros _. split; [done|by left]. }
  pose proof Hm as (_ & _ & _ & Hc). destruct (Z.leb_spec TABLE_CAPACITY (Z.of_nat (length m))) as [Hfull|Hroom].
  { split; [done|]. split; [lia|]. split; [|done]. intros _. split_and!; [done..|]. right. lia. }
  split; [by apply table_ok_set|]. split; [lia|]. split; [lia|]. intros _. rewrite jm_get_set, decide_True by done. split; [done|]. right.
  by rewrite jm_set_fresh.
Qed.

(** ** The receiver's tables *)

Lemma array_set_lookup {A} (l : list (option A)) i j x :
  mjoin (array_set l i x !! j) = if decide (i = j) then Some x else mjoin (l !! j).
Proof.
  unfold array_set. destruct (decide (i = j)) as [<-|Hne].
  - rewrite list_lookup_insert_eq; [done|]. rewrite length_app, length_replicate. lia.
  - rewrite list_lookup_insert_ne by done. destruct (Nat.lt_ge_cases j (length l)); [by rewrite lookup_app_l|].
    rewrite lookup_app_r by done. rewrite (lookup_ge_None_2 l j) by done. by destruct (_ !! _) as [o|] eqn:E; [apply lookup_replicate in E as [-> _]|].
Qed.

(** An array that holds a table's literals at their ids. *)
Definition mirrors (m : idmap) (a : list (option jsstring)) : Prop :=
  ∀ i, mjoin (a !! i) = match i with O => None | S j => m.*1 !! j end.

Lemma mirrors_get m a l id : table_ok m → mirrors m a → jm_get l m = Some id → mjoin (a !! Z.to_nat id) = Some l.
Proof.
  intros Hm Ha Hg. destruct (table_get _ _ _ Hm Hg) as [Hid Hl]. rewrite (Ha (Z.to_nat id)).
  destruct (Z.to_nat id) as [|j] eqn:E; [lia|]. by rewrite Nat.sub_succ, Nat.sub_0_r in Hl.
Qed.

Lemma mirrors_set m a l id :
  mirrors m a → id = Z.of_nat (length m) + 1 → mirrors (m ++ [(l, id)]) (array_set a (Z.to_nat id) l).
Proof.
  intros Ha -> i. rewrite array_set_lookup, fmap_app. replace (Z.to_nat (Z.of_nat (length m) + 1)) with (S (length m)) by lia.
  destruct (decide (S (length m) = i)) as [<-|Hne].
  - rewrite lookup_app_r by (by rewrite length_fmap). by rewrite length_fmap, Nat.sub_diag.
  - rewrite Ha. destruct i as [|j]; [done|]. destruct (Nat.lt_ge_cases j (length m)).
    + by rewrite lookup_app_l by (by rewrite length_fmap).
    + rewrite !lookup_ge_None_2; rewrite ?length_app, ?length_fmap; cbn; done || lia.
Qed.

Section agreement.
Context {H : Type}.

Definition tables_ok (t : OutboundTables) : Prop := table_ok (ot_paths t) ∧ table_ok (ot_types t).

Definition in_step (t : OutboundTables) (r : InboundTables H) : Prop :=
  mirrors (ot_paths t) (it_paths r) ∧ mirrors (ot_types t) (it_types r).

(** The receiver resolves every id handed out. *)
Definition tables_agree_on (t : OutboundTables) (r : InboundTables H) : Prop :=
  (∀ l id, jm_get l (ot_paths t) = Some id → it_path r id = Ok l) ∧ (∀ l id, jm_get l (ot_types t) = Some id → it_type r id = Ok l).

Lemma in_step_agree t r : tables_ok t → in_step t r → tables_agree_on t r.
Proof.
  intros [Hp Ht] [Mp Mt]. split; intros l id Hg; unfold it_path, it_type.
  - by rewrite (mirrors_get _ _ _ _ Hp Mp Hg).
  - by rewrite (mirrors_get _ _ _ _ Ht Mt Hg).
Qed.

Lemma grown_get (m m' : idmap) l id (k : jsstring) (v : Z) :
  m' = m ++ [(l, id)] ∨ m' = m → jm_get k m = Some v → jm_get k m' = Some v.
Proof.
  intros [-> | ->]; [|done]. induction m as [|[k' v'] m IH]; cbn; [done|]. destruct (decide (k = k')); [done|]. exact IH.
Qed.

#[global] Program Instance tables_agreement : RefAgreement OutboundTables (InboundTables H) :=
  {| ra_ok := tables_ok; ra_agrees := tables_agree_on |}.
Next Obligation.
  intros l t [Hp Ht]. unfold ri_pathId. cbn. unfold ot_pathId. pose proof (intern_spec TABLE_PATH _ l Hp) as Hs.
  destruct (intern TABLE_PATH (ot_paths t) l) as [[id m'] out]. destruct Hs as (Hm & Hid & H0 & H1). split; [done|].
  unfold TABLE_CAPACITY, MAX_SAFE_INTEGER in *. split; [lia|]. intros r [Ap At]. cbn [ot_paths ot_types] in Ap, At.
  assert (m' = ot_paths t ++ [(l, id)] ∨ m' = ot_paths t) as Hgrow by (destruct (Z.eq_dec id 0); naive_solver).
  split; [split; [|done]; intros k v Hg; by eapply Ap, grown_get|]. intros Hne. by apply Ap, H1.
Qed.
Next Obligation.
  intros l t [Hp Ht]. unfold ri_typeId. cbn. unfold ot_typeId. pose proof (intern_spec TABLE_TYPE _ l Ht) as Hs.
  destruct (intern TABLE_TYPE (ot_types t) l) as [[id m'] out]. destruct Hs as (Hm & Hid & H0 & H1). split; [done|].
  unfold TABLE_CAPACITY, MAX_SAFE_INTEGER in *. split; [lia|]. intros r [Ap At]. cbn [ot_paths ot_types] in Ap, At.
  assert (m' = ot_types t ++ [(l, id)] ∨ m' = ot_types t) as Hgrow by (destruct (Z.eq_dec id 0); naive_solver).
  split; [split; [done|]; intros k v Hg; by eapply At, grown_get|]. intros Hne. by apply At, H1.
Qed.

(** ** Announcements keep the two ends in step *)

(** The body of the TABLE frame an announcement is sent as. *)
Definition table_body (a : TableAnnouncement) : result (list Z) :=
  let! w := encodeTableBody a (new_NetWriter 64) in Ok (nw_out w).

(** The receiver handles the TABLE frames of announcements, in order. *)
Fixpoint install_all (anns : list TableAnnouncement) (r : InboundTables H) : result (InboundTables H) :=
  match anns with
  | [] => Ok r
  | a :: anns => let! body := table_body a in let! r := installBody body r in install_all anns r
  end.

Definition literal_ok (l : jsstring) : Prop := plain l ∧ utf8Length l ≤ MAX_SAFE_INTEGER.

Lemma table_body_roundtrip a (r : InboundTables H) :
  (ta_kind a = TABLE_PATH ∨ ta_kind a = TABLE_TYPE) → 0 ≤ ta_id a ≤ TABLE_CAPACITY → literal_ok (ta_literal a) →
  ∃ body, table_body a = Ok body ∧ installBody body r = install a r.
Proof.
  intros Hk Hid [Hp Hm]. pose proof (utf8Length_spec _ (proj1 Hp)) as Hlen. unfold TABLE_CAPACITY, TABLE_PATH, TABLE_TYPE in *.
  destruct (new_NetWriter_ok 64) as [Hw Ho]. unfold table_body, encodeTableBody.
  pose proof (writeU8_spec (ta_kind a) _ Hw) as A0. rewrite Z.mod_small in A0 by lia.
  destruct (writeUvarint_ok (ta_id a) (writeU8 (ta_kind a) (new_NetWriter 64))) as [w1 E1]; [unfold MAX_SAFE_INTEGER; lia|]. rewrite E1. cbn [result_bind].
  apply writeUvarint_spec in E1 as [A1 _]; [|apply A0].
  assert (∃ w2, writeString (ta_literal a) w1 = Ok w2) as [w2 E2].
  { unfold writeString. destruct (writeUvarint_ok (utf8Length (ta_literal a)) w1) as [w2 ->]; [lia|]. cbn [result_bind]. destruct (_ =? _); by eexists. }
  rewrite E2. cbn [result_bind]. apply writeString_spec in E2 as [A2 _]; [|apply A1|apply Hp].
  exists (nw_out w2). split; [done|]. pose proof (appends_trans _ _ _ _ _ A0 (appends_trans _ _ _ _ _ A1 A2)) as [_ Hout].
  rewrite Ho in Hout. cbn [app] in Hout. rewrite Hout. unfold installBody.
  assert (finishes decodeTableBody ([ta_kind a] ++ uvarint (ta_id a) ++ string_bytes (ta_literal a)) a) as Hd.
  { unfold decodeTableBody. eapply finishes_bind; [apply reads_readU8|].
    eapply finishes_then; [apply reads_from_result; by destruct Hk as [-> | ->]|].
    eapply finishes_bind; [apply reads_readUvarint; unfold MAX_SAFE_INTEGER; lia|]. rewrite <-(app_nil_r (string_bytes _)).
    eapply finishes_bind; [by apply reads_readString|]. eapply finishes_last; [apply finishes_end|]. cbv beta.
    eapply reads_then; [by apply reads_from_result|]. destruct a. apply reads_ret. }
  pose proof (Hd []) as Hd'. cbn [app length Nat.add] in Hd'. cbn [app]. by rewrite Hd'.
Qed.

(** The announcement of a new id installs. *)
Lemma install_next a (t : OutboundTables) (r : InboundTables H) (m : idmap) :
  in_step t r → m = (if ta_kind a =? TABLE_PATH then ot_paths t else ot_types t) → ta_id a = Z.of_nat (length m) + 1 →
  ta_literal a ≠ [] → ta_id a ≤ TABLE_CAPACITY →
  ∃ r', install a r = Ok r' ∧
    in_step (if ta_kind a =? TABLE_PATH then MkOutTables (m ++ [(ta_literal a, ta_id a)]) (ot_types t) (ot_announced t)
             else MkOutTables (ot_paths t) (m ++ [(ta_literal a, ta_id a)]) (ot_announced t)) r'.
Proof.
  intros [Mp Mt] Hm Hid Hl Hc. unfold install. rewrite (proj2 (Z.eqb_neq _ _)) by lia. rewrite bool_decide_false by done.
  rewrite (proj2 (Z.ltb_ge _ _)) by lia. cbn [negb guard_throw result_bind].
  assert (∀ a', mirrors m a' → mjoin (a' !! Z.to_nat (ta_id a)) = None) as Hnone.
  { intros a' Ha. rewrite (Ha _). destruct (Z.to_nat (ta_id a)) eqn:E; [done|]. apply lookup_ge_None_2. rewrite length_fmap. lia. }
  destruct (ta_kind a =? TABLE_PATH); subst m.
  - rewrite (Hnone _ Mp). eexists. split; [done|]. split; [by apply mirrors_set|done].
  - rewrite (Hnone _ Mt). eexists. split; [done|]. split; [done|by apply mirrors_set].
Qed.

Lemma install_all_app anns anns' r r' :
  install_all anns r = Ok r' → install_all (anns ++ anns') r = install_all anns' r'.
Proof.
  revert r. induction anns as [|a anns IH]; intros r; cbn [install_all app]; [by intros [= ->]|].
  destruct (table_body a) as [b|]; [|done]. cbn [result_bind]. destruct (installBody b r) as [r1|]; [|done]. cbn [result_bind]. apply IH.
Qed.

(** A later state of a sender: what it announced in between brings a receiver in step with it. *)
Definition announces (t t' : OutboundTables) : Prop :=
  tables_ok t' ∧ ∃ new, ot_announced t' = ot_announced t ++ new ∧
    ∀ r, in_step t r → ∃ r', install_all new r = Ok r' ∧ in_step t' r'.

Lemma announces_refl t : tables_ok t → announces t t.
Proof. intros Ht. split; [done|]. exists []. rewrite app_nil_r. split; [done|]. intros r Hr. by exists r. Qed.

Lemma announces_trans t1 t2 t3 : announces t1 t2 → announces t2 t3 → announces t1 t3.
Proof.
  intros [_ (n1 & E1 & H1)] [Ht (n2 & E2 & H2)]. split; [done|]. exists (n1 ++ n2). rewrite E2, E1, app_assoc. split; [done|].
  intros r Hr. destruct (H1 r Hr) as (r1 & I1 & Hr1). destruct (H2 r1 Hr1) as (r2 & I2 & Hr2). exists r2. split; [|done].
  by rewrite (install_all_app _ _ _ _ I1).
Qed.

Lemma pathId_announces l t : tables_ok t → literal_ok l → announces t (ri_pathId l t).2.
Proof.
  intros [Hp Ht] Hl. cbn. unfold ot_pathId. pose proof (intern_spec TABLE_PATH _ l Hp) as Hs.
  destruct (intern TABLE_PATH (ot_paths t) l) as [[id m'] out]. destruct Hs as (Hm & Hid & H0 & H1). cbn [snd]. split; [done|].
  exists out. split; [done|]. intros r Hr. destruct (Z.eq_dec id 0) as [->|Hne].
  { destruct (H0 eq_refl) as (-> & -> & _). by exists r. }
  destruct (H1 Hne) as [_ [[-> ->]|(-> & -> & Hl0 & _ & Hid')]]; [by exists r|].
  destruct (table_body_roundtrip (MkAnnouncement TABLE_PATH id l) r ltac:(by left) Hid Hl) as (body & Hb & Hi).
  destruct (install_next (MkAnnouncement TABLE_PATH id l) t r (ot_paths t) Hr eq_refl Hid' Hl0 ltac:(cbn; lia)) as (r' & Hr' & Hs').
  exists r'. cbn [install_all]. by rewrite Hb; cbn [result_bind]; rewrite Hi, Hr'.
Qed.

Lemma typeId_announces l t : tables_ok t → literal_ok l → announces t (ri_typeId l t).2.
Proof.
  intros [Hp Ht] Hl. cbn. unfold ot_typeId. pose proof (intern_spec TABLE_TYPE _ l Ht) as Hs.
  destruct (intern TABLE_TYPE (ot_types t) l) as [[id m'] out]. destruct Hs as (Hm & Hid & H0 & H1). cbn [snd]. split; [done|].
  exists out. split; [done|]. intros r Hr. destruct (Z.eq_dec id 0) as [->|Hne].
  { destruct (H0 eq_refl) as (-> & -> & _). by exists r. }
  destruct (H1 Hne) as [_ [[-> ->]|(-> & -> & Hl0 & _ & Hid')]]; [by exists r|].
  destruct (table_body_roundtrip (MkAnnouncement TABLE_TYPE id l) r ltac:(by right) Hid Hl) as (body & Hb & Hi).
  destruct (install_next (MkAnnouncement TABLE_TYPE id l) t r (ot_types t) Hr eq_refl Hid' Hl0 ltac:(cbn; lia)) as (r' & Hr' & Hs').
  exists r'. cbn [install_all]. by rewrite Hb; cbn [result_bind]; rewrite Hi, Hr'.
Qed.
End agreement.
