(* ===== verification/NetChunk.v ===== *)
(** * Chunking of large frames ([src/net/chunk.ts])

    A DATA or REPLY whose logical frame (header and body) exceeds the chunk size travels as
    CHUNK frames of one group; the receiver reassembles groups keyed by correlation, each in
    a buffer of the declared total, and hands over the inner frame with the last chunk. *)
From S2P Require Import Prelude JsNumber JsString ByteIO NetBytes NetFrame NetConn NetEnvelope.

Definition CHUNK_PREFIX_MAX : nat := 16.

(** ** Splitting *)

(** The loop of [splitLogicalFrame]: every turn takes a byte at least. *)
Fixpoint split_loop (fuel : nat) (f : OutboundFrame) (chunkSize : nat) (groupCorrelation : Z) (logical : list Z)
    (offset : nat) (index : Z) : result (list OutboundFrame) :=
  match fuel with
  | O => Ok []
  | S fuel =>
      if Nat.ltb offset (length logical) then
        let! prefix := writeUvarint index (nw_reset (new_NetWriter CHUNK_PREFIX_MAX)) in
        let! prefix := if index =? 0 then writeUvarint (Z.of_nat (length logical)) prefix else Ok prefix in
        let room := (chunkSize - nw_length prefix)%nat in
        let count := (room `min` (length logical - offset))%nat in
        let body := nw_out prefix ++ take count (drop offset logical) in
        let offset := (offset + count)%nat in
        let flags := if index =? 0 then Z.lor FLAG_FIRST_CHUNK (Z.land (of_flags f) FLAG_EXPECTS_REPLY) else 0 in
        let last := Nat.eqb offset (length logical) in
        let flags := if last then Z.lor flags FLAG_LAST_CHUNK else flags in
        let chunk := MkOutbound FRAME_CHUNK flags (of_lane f) groupCorrelation (Some body) (if last then of_wrote f else None) in
        let! chunks := split_loop fuel f chunkSize groupCorrelation logical offset (index + 1) in
        Ok (chunk :: chunks)
      else Ok []
  end.

Definition splitLogicalFrame (f : OutboundFrame) (chunkSize : nat) (groupCorrelation : Z) : result (list OutboundFrame) :=
  let! _ := guard_throw (negb (Nat.leb chunkSize CHUNK_PREFIX_MAX)) (TypeError "chunk size cannot hold the chunk prefix") in
  let! _ := guard_throw (negb (groupCorrelation =? 0)) (TypeError "a chunk group correlation must be nonzero") in
  let body := default [] (of_body f) in
  let! writer := encodeFrameHeader (MkHeader (of_type f) (of_flags f) (of_lane f) (Z.of_nat (length body)) (of_correlation f))
                   (new_NetWriter (FRAME_HEADER_SIZE + length body)) in
  let logical := nw_out (writeBytes body writer) in
  split_loop (length logical) f chunkSize groupCorrelation logical 0 0.

Definition abortChunkFrame (lane correlation index : Z) : result OutboundFrame :=
  let! writer := writeUvarint index (new_NetWriter CHUNK_PREFIX_MAX) in
  Ok (MkOutbound FRAME_CHUNK FLAG_LAST_CHUNK lane correlation (Some (nw_out writer)) None).

(** ** Reassembling *)

Inductive ReassemblyOutcome :=
  | Pending
  | Aborted
  | Complete (header : FrameHeader) (body : list Z)
  | Reject (reason : string)
  | Violation (reason : string).

Record ChunkGroup := MkGroup { cg_buffer : list Z; cg_written : nat; cg_nextIndex : Z }.

Record ChunkReassembler := MkReassembler {
  cr_groups : list (Z * ChunkGroup);
  cr_maxMessageSize : Z;
  cr_maxGroups : Z }.

Definition new_ChunkReassembler (maxMessageSize maxGroups : Z) : ChunkReassembler :=
  MkReassembler [] maxMessageSize (if maxGroups <? 1 then 1 else maxGroups).

Definition set_groups (gs : list (Z * ChunkGroup)) (c : ChunkReassembler) : ChunkReassembler :=
  MkReassembler gs (cr_maxMessageSize c) (cr_maxGroups c).

Definition cr_clear (c : ChunkReassembler) : ChunkReassembler := set_groups [] c.

Definition has_flag (h : FrameHeader) (flag : Z) : bool := negb (Z.land (fh_flags h) flag =? 0).

(** The last chunk of a group: its buffer, decoded. *)
Definition complete (g : ChunkGroup) : ReassemblyOutcome :=
  if Nat.ltb (cg_written g) (length (cg_buffer g)) then Aborted
  else
    match decodeFrameHeader (cg_buffer g) (Z.of_nat (length (cg_buffer g))) 0 with
    | Throw _ => Violation "malformed inner header"
    | Ok inner =>
        if negb (fh_length inner =? Z.of_nat (length (cg_buffer g)) - Z.of_nat FRAME_HEADER_SIZE) then Violation "logical frame length mismatch"
        else Complete inner (drop FRAME_HEADER_SIZE (cg_buffer g))
    end.

(** The chunk's data goes into its group. *)
Definition fill (h : FrameHeader) (data : list Z) (g : ChunkGroup) (c : ChunkReassembler) : ReassemblyOutcome * ChunkReassembler :=
  let without := set_groups (jm_delete (fh_correlation h) (cr_groups c)) c in
  if Nat.ltb (length (cg_buffer g)) (cg_written g + length data) then (Violation "chunk data exceeds the declared total", without)
  else
    let g := MkGroup (bytes_set (cg_buffer g) data (cg_written g)) (cg_written g + length data) (cg_nextIndex g) in
    if negb (has_flag h FLAG_LAST_CHUNK) then (Pending, set_groups (jm_set (fh_correlation h) g (cr_groups c)) c)
    else (complete g, without).

(** The group a first chunk opens, or why not. *)
Definition open_group (index : Z) (h : FrameHeader) (total : Z) (c : ChunkReassembler) : ReassemblyOutcome + ChunkGroup :=
  if total <=? Z.of_nat FRAME_HEADER_SIZE then inl (Violation "declared logical size is too small")
  else if cr_maxMessageSize c <? total then inl (Reject "logical message exceeds the limit")
  else if cr_maxGroups c <=? Z.of_nat (length (cr_groups c)) then inl (Reject "too many concurrent large transfers")
  else if negb (index =? 0) then inl (Violation "first chunk index must be zero")
  else inr (MkGroup (replicate (Z.to_nat total) 0) 0 1).

Definition push (h : FrameHeader) (body : list Z) (c : ChunkReassembler) : ReassemblyOutcome * ChunkReassembler :=
  match readUvarint (MkReader body 0) with
  | Throw _ => (Violation "chunk index is malformed", c)
  | Ok (index, reader) =>
      if has_flag h FLAG_FIRST_CHUNK then
        match jm_get (fh_correlation h) (cr_groups c) with
        | Some _ => (Violation "duplicate first chunk for a live group", c)
        | None =>
            match readUvarint reader with
            | Throw _ => (Violation "chunk total size is malformed", c)
            | Ok (total, reader) =>
                match open_group index h total c with
                | inl outcome => (outcome, c)
                | inr g => fill h (drop (rd_offset reader) body) g (set_groups (jm_set (fh_correlation h) g (cr_groups c)) c)
                end
            end
        end
      else
        match jm_get (fh_correlation h) (cr_groups c) with
        | None => (Pending, c)
        | Some g =>
            if negb (index =? cg_nextIndex g) then
              (Violation "chunk index out of order", set_groups (jm_delete (fh_correlation h) (cr_groups c)) c)
            else fill h (drop (rd_offset reader) body) (MkGroup (cg_buffer g) (cg_written g) (cg_nextIndex g + 1)) c
        end
  end.

Fixpoint pushes (ins : list (FrameHeader * list Z)) (c : ChunkReassembler) : list ReassemblyOutcome * ChunkReassembler :=
  match ins with
  | [] => ([], c)
  | (h, body) :: ins => let '(o, c) := push h body c in let '(os, c) := pushes ins c in (o :: os, c)
  end.

(** ** What a split looks like *)

Definition chunk_prefix (total i : Z) : list Z := uvarint i ++ (if i =? 0 then uvarint total else []).

Definition chunk_flags (f : OutboundFrame) (i : Z) (last : bool) : Z :=
  let flags := if i =? 0 then Z.lor FLAG_FIRST_CHUNK (Z.land (of_flags f) FLAG_EXPECTS_REPLY) else 0 in
  if last then Z.lor flags FLAG_LAST_CHUNK else flags.

Definition is_nil {A} (l : list A) : bool := match l with [] => true | _ => false end.

Definition chunk_frame (f : OutboundFrame) (gc total i : Z) (d rest : list Z) : OutboundFrame :=
  MkOutbound FRAME_CHUNK (chunk_flags f i (is_nil rest)) (of_lane f) gc (Some (chunk_prefix total i ++ d))
    (if is_nil rest then of_wrote f else None).

(** The chunks from index [i] on of the bytes left: each takes a byte at least, fits the chunk
    size, and only the last is short of it. *)
Inductive chunked (f : OutboundFrame) (size : nat) (gc total : Z) : Z → list Z → list OutboundFrame → Prop :=
  | chunked_nil i : chunked f size gc total i [] []
  | chunked_cons i d rest cs :
      d ≠ [] → (length (chunk_prefix total i ++ d) ≤ size)%nat →
      (rest = [] ∨ length (chunk_prefix total i ++ d) = size) →
      chunked f size gc total (i + 1) rest cs →
      chunked f size gc total i (d ++ rest) (chunk_frame f gc total i d rest :: cs).

Lemma chunk_prefix_short total i : (length (chunk_prefix total i) ≤ CHUNK_PREFIX_MAX)%nat.
Proof.
  unfold chunk_prefix, CHUNK_PREFIX_MAX. rewrite length_app. pose proof (uvarint_bytes_length 8 i). pose proof (uvarint_bytes_length 8 total).
  destruct (i =? 0); cbn [length]; lia.
Qed.

Lemma write_prefix total i :
  0 ≤ i ≤ MAX_SAFE_INTEGER → 0 ≤ total ≤ MAX_SAFE_INTEGER →
  ∃ w, (let! p := writeUvarint i (nw_reset (new_NetWriter CHUNK_PREFIX_MAX)) in if i =? 0 then writeUvarint total p else Ok p) = Ok w
    ∧ nw_out w = chunk_prefix total i ∧ nw_length w = length (chunk_prefix total i).
Proof.
  intros Hi Ht. assert (nw_ok (nw_reset (new_NetWriter CHUNK_PREFIX_MAX))) as Hw by (split; cbn; lia).
  destruct (writeUvarint_ok i (nw_reset (new_NetWriter CHUNK_PREFIX_MAX)) Hi) as [w1 E1]. rewrite E1. cbn [result_bind].
  apply writeUvarint_spec in E1 as [[W1 A1] _]; [|done]. change (nw_out (nw_reset _)) with (@nil Z) in A1. cbn [app] in A1.
  unfold chunk_prefix. destruct (i =? 0).
  - destruct (writeUvarint_ok total w1 Ht) as [w2 E2]. rewrite E2. apply writeUvarint_spec in E2 as [[W2 A2] _]; [|done].
    exists w2. rewrite (nw_length_out _ W2), A2, A1. done.
  - exists w1. rewrite (nw_length_out _ W1), A1, app_nil_r. done.
Qed.

Lemma split_loop_spec fuel f size gc logical offset i :
  (CHUNK_PREFIX_MAX < size)%nat → (offset ≤ length logical ≤ offset + fuel)%nat → Z.of_nat (length logical) ≤ MAX_SAFE_INTEGER →
  0 ≤ i ≤ Z.of_nat offset →
  ∃ cs, split_loop fuel f size gc logical offset i = Ok cs ∧ chunked f size gc (Z.of_nat (length logical)) i (drop offset logical) cs.
Proof.
  intros Hs. revert offset i. induction fuel as [|fuel IH]; intros offset i Ho Hm Hi; cbn [split_loop].
  { exists []. split; [done|]. rewrite drop_ge by lia. constructor. }
  destruct (Nat.ltb_spec offset (length logical)) as [Hlt|Hge].
  2: { exists []. split; [done|]. rewrite drop_ge by lia. constructor. }
  destruct (write_prefix (Z.of_nat (length logical)) i) as (w & Hw & Hout & Hlen); [lia|lia|].
  apply result_bind_ok in Hw as (w0 & E0 & Hw). rewrite E0. cbn [result_bind]. rewrite Hw. cbn [result_bind]. rewrite Hout, Hlen.
  pose proof (chunk_prefix_short (Z.of_nat (length logical)) i) as Hp. set (p := chunk_prefix _ i) in *.
  set (n := ((size - length p) `min` (length logical - offset))%nat). assert (0 < n)%nat as Hn by lia.
  destruct (IH (offset + n)%nat (i + 1)) as (cs & -> & Hcs); [lia|done|lia|]. cbn [result_bind].
  eexists. split; [done|].
  assert (take n (drop offset logical) ++ drop (offset + n) logical = drop offset logical) as Hcat by (by rewrite <-drop_drop, take_drop).
  assert (is_nil (drop (offset + n) logical) = Nat.eqb (offset + n) (length logical)) as Hlast.
  { destruct (Nat.eqb_spec (offset + n) (length logical)) as [->|Hne]; [by rewrite drop_all|].
    destruct (drop (offset + n) logical) eqn:E; [|done]. apply (f_equal length) in E. rewrite length_drop in E. cbn in E. lia. }
  assert (length (take n (drop offset logical)) = n) as Htake by (rewrite length_take, length_drop; lia).
  pose proof (chunked_cons f size gc (Z.of_nat (length logical)) i (take n (drop offset logical)) (drop (offset + n) logical) cs) as Hc.
  unfold chunk_frame, chunk_flags in Hc. rewrite Hlast, Hcat in Hc. apply Hc; clear Hc.
  - intros E. rewrite E in Htake. cbn in Htake. lia.
  - rewrite length_app, Htake. fold p. lia.
  - rewrite length_app, Htake. fold p. destruct (decide (offset + n = length logical)%nat) as [E|E]; [left; rewrite E; apply drop_all|right; lia].
  - done.
Qed.

(** ** Reassembling a split *)

Definition in_of (f : OutboundFrame) : FrameHeader * list Z := frame_of (entry_of f).

Lemma chunk_has_flags f gc total i d rest :
  let h := (in_of (chunk_frame f gc total i d rest)).1 in
  has_flag h FLAG_FIRST_CHUNK = (i =? 0) ∧ has_flag h FLAG_LAST_CHUNK = is_nil rest ∧ fh_correlation h = gc.
Proof.
  cbn. unfold has_flag. cbn [fh_flags]. assert (Z.land (of_flags f) 1 = 0 ∨ Z.land (of_flags f) 1 = 1) as Hb.
  { change (Z.land (of_flags f) 1) with (Z.land (of_flags f) (Z.ones 1)). rewrite Z.land_ones by lia. pose proof (Z.mod_pos_bound (of_flags f) 2 ltac:(lia)). change (2 ^ 1) with 2. lia. }
  unfold chunk_flags, FLAG_EXPECTS_REPLY, FLAG_FIRST_CHUNK, FLAG_LAST_CHUNK.
  destruct (i =? 0), (is_nil rest); destruct Hb as [Hb|Hb]; rewrite ?Hb; done.
Qed.

Lemma chunk_body f gc total i d rest h body :
  in_of (chunk_frame f gc total i d rest) = (h, body) → body = uvarint i ++ (if i =? 0 then uvarint total else []) ++ d.
Proof. intros E. apply (f_equal snd) in E. cbn [snd] in E. rewrite <-E, app_assoc. done. Qed.

Lemma read_index i rest bs :
  0 ≤ i ≤ MAX_SAFE_INTEGER → bs = uvarint i ++ rest →
  readUvarint (MkReader bs 0) = Ok (i, MkReader bs (length (uvarint i))).
Proof. intros Hi ->. pose proof (reads_readUvarint i Hi [] rest) as H. cbn [app length Nat.add] in H. exact H. Qed.

Lemma read_total i total rest bs :
  0 ≤ total ≤ MAX_SAFE_INTEGER → bs = uvarint i ++ uvarint total ++ rest →
  readUvarint (MkReader bs (length (uvarint i))) = Ok (total, MkReader bs (length (uvarint i ++ uvarint total))).
Proof. intros Ht ->. rewrite length_app. exact (reads_readUvarint total Ht (uvarint i) rest). Qed.

(** A group that holds the bytes [got] of a logical frame and waits for chunk [k]. *)
Definition holding (g : ChunkGroup) (total : nat) (got : list Z) (k : Z) : Prop :=
  length (cg_buffer g) = total ∧ cg_written g = length got ∧ take (length got) (cg_buffer g) = got ∧ cg_nextIndex g = k.

Lemma fill_spec h d rest g total got k c :
  holding g total got k → total = length (got ++ d ++ rest) → has_flag h FLAG_LAST_CHUNK = is_nil rest →
  match rest with
  | [] => ∃ g', fill h d g c = (complete g', set_groups (jm_delete (fh_correlation h) (cr_groups c)) c)
            ∧ cg_buffer g' = got ++ d ∧ cg_written g' = length (cg_buffer g')
  | _ => ∃ g', fill h d g c = (Pending, set_groups (jm_set (fh_correlation h) g' (cr_groups c)) c) ∧ holding g' total (got ++ d) k
  end.
Proof.
  intros (Hl & Hw & Ht & Hk) Htot Hlast. unfold fill. rewrite Hlast, Hl, Hw, Htot, !length_app, (proj2 (Nat.ltb_ge _ _)) by lia.
  rewrite !length_app in Htot. destruct (bytes_set_filled (cg_buffer g) d (length got)) as [B1 B2]; [lia|]. rewrite Ht in B2.
  destruct rest as [|x rest]; cbn [is_nil negb].
  - eexists. split; [done|]. cbn [cg_buffer cg_written]. rewrite B1. split; [|cbn in *; lia].
    rewrite <-(take_ge (bytes_set (cg_buffer g) d (length got)) (length got + length d)), B2 by (cbn in *; lia). done.
  - eexists. split; [done|]. split_and!; cbn [cg_buffer cg_written cg_nextIndex]; rewrite ?length_app; [lia|done|done|done].
Qed.

Lemma complete_spec g h body :
  header_ok h → fh_length h = Z.of_nat (length body) → cg_buffer g = header_bytes h ++ body → cg_written g = length (cg_buffer g) →
  complete g = Complete h body.
Proof.
  intros Hh Hl Hb Hw. unfold complete. rewrite Hw, Nat.ltb_irrefl, Hb. rewrite decode_header_bytes; [|done|].
  - rewrite length_app, length_header_bytes. rewrite (proj2 (Z.eqb_eq _ _)) by (rewrite Hl; lia). cbn [negb]. by rewrite drop_app_length' by done.
  - rewrite (proj2 (Z.eqb_neq _ _)); rewrite length_app, length_header_bytes; unfold FRAME_HEADER_SIZE; lia.
Qed.

(** Another group's chunk leaves this one alone. *)
Lemma fill_other h d g c gc : fh_correlation h ≠ gc → jm_get gc (cr_groups (fill h d g c).2) = jm_get gc (cr_groups c).
Proof.
  intros Hne. unfold fill. destruct (Nat.ltb _ _); [|destruct (negb _)]; cbn; rewrite ?jm_get_delete, ?jm_get_set; by rewrite decide_False by done.
Qed.

Lemma push_other h body c gc : fh_correlation h ≠ gc → jm_get gc (cr_groups (push h body c).2) = jm_get gc (cr_groups c).
Proof.
  intros Hne. unfold push. destruct (readUvarint _) as [[index reader]|]; [|done]. destruct (has_flag h FLAG_FIRST_CHUNK).
  - destruct (jm_get (fh_correlation h) _); [done|]. destruct (readUvarint reader) as [[total reader']|]; [|done].
    destruct (open_group _ _ _ _); [done|]. rewrite fill_other by done. cbn. by rewrite jm_get_set, decide_False.
  - destruct (jm_get (fh_correlation h) _) as [g|]; [|done]. destruct (negb _); [|by apply fill_other].
    cbn. by rewrite jm_get_delete, decide_False.
Qed.

(** The chunk [k] of a live group goes to its group. *)
Lemma push_next f gc total d rest k c g got :
  0 < k ≤ MAX_SAFE_INTEGER → jm_get gc (cr_groups c) = Some g → holding g total got k →
  let '(h, body) := in_of (chunk_frame f gc (Z.of_nat total) k d rest) in
  push h body c = fill h d (MkGroup (cg_buffer g) (cg_written g) (k + 1)) c.
Proof.
  intros Hk Hg (_ & _ & _ & Hn). destruct (in_of _) as [h body] eqn:E.
  pose proof (chunk_has_flags f gc (Z.of_nat total) k d rest) as (Hf & _ & Hc). rewrite E in Hf, Hc. cbn [fst] in Hf, Hc.
  assert (body = uvarint k ++ d) as Hb.
  { rewrite (chunk_body _ _ _ _ _ _ _ _ E), (proj2 (Z.eqb_neq _ _)) by lia. done. }
  unfold push. rewrite (read_index k d body) by (done || lia). rewrite Hf, (proj2 (Z.eqb_neq _ _)), Hc, Hg, Hn, Z.eqb_refl by lia. cbn [negb rd_offset].
  rewrite Hb, drop_app_length. done.
Qed.

(** The first chunk opens the group. *)
Lemma push_first f gc total d rest c :
  jm_get gc (cr_groups c) = None → Z.of_nat (length (cr_groups c)) < cr_maxGroups c →
  Z.of_nat FRAME_HEADER_SIZE < Z.of_nat total ≤ cr_maxMessageSize c → Z.of_nat total ≤ MAX_SAFE_INTEGER →
  let '(h, body) := in_of (chunk_frame f gc (Z.of_nat total) 0 d rest) in
  let g := MkGroup (replicate total 0) 0 1 in
  push h body c = fill h d g (set_groups (jm_set gc g (cr_groups c)) c).
Proof.
  intros Hg Hn Hm Ht. destruct (in_of _) as [h body] eqn:E.
  pose proof (chunk_has_flags f gc (Z.of_nat total) 0 d rest) as (Hf & _ & Hc). rewrite E in Hf, Hc. cbn [fst] in Hf, Hc.
  assert (body = uvarint 0 ++ uvarint (Z.of_nat total) ++ d) as Hb.
  { exact (chunk_body _ _ _ _ _ _ _ _ E). }
  unfold push. rewrite (read_index 0 (uvarint (Z.of_nat total) ++ d) body) by (done || (unfold MAX_SAFE_INTEGER; lia)).
  rewrite Hf, Hc, Hg. cbn [Z.eqb]. rewrite (read_total 0 (Z.of_nat total) d body) by (done || lia).
  unfold open_group. rewrite (proj2 (Z.leb_gt _ _)), (proj2 (Z.ltb_ge _ _)), (proj2 (Z.leb_gt _ _)) by lia. cbn [negb Z.eqb rd_offset].
  rewrite Hb, app_assoc, drop_app_length, Nat2Z.id. done.
Qed.

(** The outcomes of one group's chunks among all. *)
Definition own (gc : Z) (ins : list (FrameHeader * list Z)) (outs : list ReassemblyOutcome) : list ReassemblyOutcome :=
  (filter (λ p, fh_correlation p.1.1 = gc) (zip ins outs)).*2.

Lemma pushes_cons h body ins c :
  (pushes ((h, body) :: ins) c).1 = (push h body c).1 :: (pushes ins (push h body c).2).1
  ∧ (pushes ((h, body) :: ins) c).2 = (pushes ins (push h body c).2).2.
Proof. cbn [pushes]. destruct (push h body c) as [o c1]. cbn [fst snd]. by destruct (pushes ins c1). Qed.

Lemma own_cons gc h body ins o outs :
  own gc ((h, body) :: ins) (o :: outs) = if decide (fh_correlation h = gc) then o :: own gc ins outs else own gc ins outs.
Proof. unfold own. cbn [zip_with]. rewrite filter_cons. cbn [fst]. by destruct (decide _). Qed.

Lemma pushes_none ins gc c :
  filter (λ p, fh_correlation p.1 = gc) ins = [] →
  own gc ins (pushes ins c).1 = [] ∧ jm_get gc (cr_groups (pushes ins c).2) = jm_get gc (cr_groups c).
Proof.
  revert c. induction ins as [|[h body] ins IH]; intros c Hf; [done|]. rewrite filter_cons in Hf. cbn [fst] in Hf.
  destruct (decide (fh_correlation h = gc)) as [|Hne]; [done|]. destruct (pushes_cons h body ins c) as [-> ->].
  rewrite own_cons, decide_False by done. destruct (IH (push h body c).2 Hf) as [-> ->]. split; [done|by apply push_other].
Qed.

(** The rest of a group, interleaved with anything else. *)
Lemma pushes_rest ins c f size gc total k rest cs got g h body :
  header_ok h → fh_length h = Z.of_nat (length body) → got ++ rest = header_bytes h ++ body → total = length (got ++ rest) →
  chunked f size gc (Z.of_nat total) k rest cs → rest ≠ [] → 0 < k → k + Z.of_nat (length rest) ≤ MAX_SAFE_INTEGER →
  jm_get gc (cr_groups c) = Some g → holding g total got k →
  filter (λ p, fh_correlation p.1 = gc) ins = in_of <$> cs →
  own gc ins (pushes ins c).1 = replicate (length cs - 1) Pending ++ [Complete h body]
  ∧ jm_get gc (cr_groups (pushes ins c).2) = None.
Proof.
  intros Hh Hl. revert c k rest cs got g. induction ins as [|[ph pb] ins IH]; intros c k rest cs got g Heq Htot Hch Hne Hk Hm Hg Hhold Hf.
  { destruct Hch; [done|]. done. }
  destruct (pushes_cons ph pb ins c) as [-> ->]. rewrite own_cons. rewrite filter_cons in Hf. cbn [fst] in Hf.
  destruct (decide (fh_correlation ph = gc)) as [Hgc|Hgc].
  2: { apply (IH (push ph pb c).2 k rest cs got g); try done. by rewrite push_other. }
  destruct Hch as [|k d rest cs Hd _ _ Hch]; [done|]. cbn [fmap list_fmap] in Hf. pose proof (f_equal head Hf) as Hp. pose proof (f_equal tail Hf) as Hf'. cbn [head tail] in Hp, Hf'. apply (inj Some) in Hp. clear Hf. rename Hf' into Hf.
  pose proof (push_next f gc total d rest k c g got ltac:(rewrite length_app in Hm; lia) Hg Hhold) as Hpush. rewrite <-Hp in Hpush. rewrite Hpush. clear Hpush.
  pose proof (chunk_has_flags f gc (Z.of_nat total) k d rest) as (_ & Hlast & _). rewrite <-Hp in Hlast. cbn [fst] in Hlast.
  destruct Hhold as (B1 & B2 & B3 & B4).
  pose proof (fill_spec ph d rest (MkGroup (cg_buffer g) (cg_written g) (k + 1)) total got (k + 1) c ltac:(by split_and!) Htot Hlast) as Hfill.
  destruct rest as [|x rest].
  - destruct Hfill as (g' & -> & Hb & Hw). cbn [fst snd]. rewrite app_nil_r in Heq. rewrite Heq in Hb.
    inversion Hch as [|? ? ? ? ? ? ? ? Hx]; [|by destruct d0]. subst cs. cbn [length fmap list_fmap] in *. rewrite Hgc.
    destruct (pushes_none ins gc (set_groups (jm_delete gc (cr_groups c)) c) Hf) as [-> ->]. cbn.
    rewrite jm_get_delete, decide_True by done. split; [|done]. by rewrite (complete_spec g' h body Hh Hl Hb Hw).
  - destruct Hfill as (g' & -> & Hhold'). cbn [fst snd]. rewrite Hgc.
    destruct (IH (set_groups (jm_set gc g' (cr_groups c)) c) (k + 1) (x :: rest) cs (got ++ d) g') as [-> ->]; try done.
    + by rewrite <-app_assoc.
    + by rewrite <-app_assoc.
    + lia.
    + rewrite length_app in Hm. destruct d; [done|]. cbn in *. lia.
    + cbn. by rewrite jm_get_set, decide_True.
    + split; [|done]. assert (length cs ≠ 0)%nat by (intros E0; apply length_zero_iff_nil in E0; rewrite E0 in Hch; inversion Hch).
      cbn [length]. rewrite Nat.sub_succ, Nat.sub_0_r. by destruct (length cs) as [|n]; [|rewrite Nat.sub_succ, Nat.sub_0_r].
Qed.

Lemma chunked_nonempty f size gc total i rest cs : chunked f size gc total i rest cs → rest ≠ [] → length cs = S (length cs - 1).
Proof. intros [|]; [done|]. cbn. lia. Qed.

(** The token rides on the last chunk; every other chunk is full. *)
Lemma chunked_shape f size gc total i rest cs :
  chunked f size gc total i rest cs → rest ≠ [] →
  of_wrote <$> cs = replicate (length cs - 1) None ++ [of_wrote f]
  ∧ Forall (λ c, (length (default [] (of_body c)) ≤ size)%nat) cs
  ∧ Forall (λ c, length (default [] (of_body c)) = size) (take (length cs - 1) cs).
Proof.
  induction 1 as [|i d rest cs Hd Hle Hfull Hch IH]; [done|]. intros _. destruct rest as [|x rest].
  { inversion Hch as [|? d' ? ? Hx ? ? ? E]; [|by destruct d']. subst cs. cbn. by split_and!; [|apply Forall_singleton|]. }
  destruct (IH ltac:(done)) as (H1 & H2 & H3). pose proof (chunked_nonempty _ _ _ _ _ _ _ Hch ltac:(done)) as Hlen.
  cbn [length fmap list_fmap]. rewrite Nat.sub_succ, Nat.sub_0_r, Hlen, H1. split_and!.
  - done.
  - by apply Forall_cons.
  - cbn [take]. apply Forall_cons. split; [|done]. by destruct Hfull.
Qed.

(** The logical frame a split starts from. *)
Lemma split_spec f size gc :
  header_ok (qf_header (entry_of f)) → (CHUNK_PREFIX_MAX < size)%nat → gc ≠ 0 →
  let logical := header_bytes (qf_header (entry_of f)) ++ default [] (of_body f) in
  ∃ cs, splitLogicalFrame f size gc = Ok cs ∧ chunked f size gc (Z.of_nat (length logical)) 0 logical cs
    ∧ Z.of_nat (length logical) < MAX_SAFE_INTEGER.
Proof.
  intros Hh Hs Hgc. cbn zeta. unfold splitLogicalFrame. rewrite (proj2 (Nat.leb_gt _ _)), (proj2 (Z.eqb_neq _ _)) by done. cbn [negb guard_throw result_bind].
  set (body := default [] (of_body f)).
  assert (MkHeader (of_type f) (of_flags f) (of_lane f) (Z.of_nat (length body)) (of_correlation f) = qf_header (entry_of f)) as ->
    by (unfold body, entry_of; by destruct (of_body f)).
  destruct (encodeFrameHeader_spec _ _ (proj1 (new_NetWriter_ok (FRAME_HEADER_SIZE + length body))) Hh) as (w & -> & Hw & Ho). cbn [result_bind].
  destruct (writeBytes_spec body w Hw) as [_ Ho2]. rewrite Ho2, Ho, (proj2 (new_NetWriter_ok _)), app_nil_l.
  set (logical := header_bytes _ ++ body). assert (Z.of_nat (length logical) < MAX_SAFE_INTEGER) as Hm.
  { unfold logical. rewrite length_app, length_header_bytes. destruct Hh as (Hv & _). unfold validateFrameHeader in Hv.
    destruct (knownFrameType _); [|done]. destruct (_ =? 0); [|done]. cbn [guard_throw result_bind] in Hv.
    destruct (negb ((fh_length (qf_header (entry_of f)) <? 0) || (MAX_U32 <? fh_length (qf_header (entry_of f))))) eqn:E; [|done].
    rewrite negb_true_iff, orb_false_iff, !Z.ltb_ge in E. unfold MAX_U32 in E. unfold MAX_SAFE_INTEGER, FRAME_HEADER_SIZE.
    assert (fh_length (qf_header (entry_of f)) = Z.of_nat (length body)) as Hl by (unfold body, entry_of; by destruct (of_body f)). lia. }
  destruct (split_loop_spec (length logical) f size gc logical 0 0) as (cs & -> & Hcs); [done|lia|lia|lia|]. rewrite drop_0 in Hcs. by exists cs.
Qed.

Lemma chunked_start f size gc total i l chunks :
  chunked f size gc total i l chunks → l ≠ [] →
  ∃ d rest cs, l = d ++ rest ∧ chunks = chunk_frame f gc total i d rest :: cs ∧ chunked f size gc total (i + 1) rest cs.
Proof. intros [|i' d rest cs]; [done|]. intros _. by exists d, rest, cs. Qed.

(** A whole group, its first chunk first. *)
Lemma pushes_group f size gc total d rest cs h body c ins :
  header_ok h → fh_length h = Z.of_nat (length body) → body ≠ [] → d ++ rest = header_bytes h ++ body → total = length (d ++ rest) →
  chunked f size gc (Z.of_nat total) 1 rest cs → Z.of_nat total < MAX_SAFE_INTEGER →
  jm_get gc (cr_groups c) = None → Z.of_nat (length (cr_groups c)) < cr_maxGroups c → Z.of_nat total ≤ cr_maxMessageSize c →
  filter (λ p, fh_correlation p.1 = gc) ins = in_of <$> cs →
  let c1 := chunk_frame f gc (Z.of_nat total) 0 d rest in
  own gc (in_of c1 :: ins) (pushes (in_of c1 :: ins) c).1 = replicate (length cs) Pending ++ [Complete h body]
  ∧ jm_get gc (cr_groups (pushes (in_of c1 :: ins) c).2) = None.
Proof.
  intros Hh Hl Hb Heq Htot Hch Hmax Hg Hn Hm Hf. cbn zeta. set (c1 := chunk_frame _ _ _ 0 d rest).
  assert (FRAME_HEADER_SIZE < total)%nat as H16.
  { rewrite Htot, Heq, length_app, length_header_bytes. destruct body; [done|]. cbn [length]. lia. }
  pose proof (push_first f gc total d rest c Hg Hn ltac:(lia) ltac:(lia)) as Hpush. fold c1 in Hpush.
  pose proof (chunk_has_flags f gc (Z.of_nat total) 0 d rest) as (_ & Hlast & Hc). fold c1 in Hlast, Hc.
  destruct (in_of c1) as [ph pb]. cbn [fst] in Hlast, Hc. destruct (pushes_cons ph pb ins c) as [-> ->].
  rewrite own_cons, decide_True by done. rewrite Hpush. clear Hpush. set (c2 := set_groups _ c).
  assert (holding (MkGroup (replicate total 0) 0 1) total [] 1) as Hh0 by (split_and!; [apply length_replicate|done..]).
  pose proof (fill_spec ph d rest _ total [] 1 c2 Hh0 Htot Hlast) as Hfill. destruct rest as [|x rest].
  - destruct Hfill as (g' & -> & Hbuf & Hw). cbn [fst snd]. rewrite app_nil_l in Hbuf. rewrite app_nil_r in Heq. rewrite Heq in Hbuf.
    inversion Hch as [|? d' ? ? Hx ? ? ? E]; [|by destruct d']. subst cs. rewrite Hc.
    destruct (pushes_none ins gc (set_groups (jm_delete gc (cr_groups c2)) c2) Hf) as [-> ->]. cbn.
    rewrite jm_get_delete, decide_True by done. split; [|done]. by rewrite (complete_spec g' h body Hh Hl Hbuf Hw).
  - destruct Hfill as (g' & -> & Hhold). cbn [fst snd]. rewrite Hc, app_nil_l in *. rewrite length_app in Htot.
    destruct (pushes_rest ins (set_groups (jm_set gc g' (cr_groups c2)) c2) f size gc total 1 (x :: rest) cs d g' h body) as [-> ->]; try done.
    + by rewrite length_app.
    + cbn [length] in *. lia.
    + cbn. by rewrite jm_get_set, decide_True.
    + pose proof (chunked_nonempty _ _ _ _ _ _ _ Hch ltac:(done)). destruct (length cs) as [|m]; [done|]. by rewrite Nat.sub_succ, Nat.sub_0_r.
Qed.

(** C23: chunking is transparent. Splitting a frame gives chunks of at most the chunk size, all
    but the last exactly that, with the confirmation token on the last; and pushing them in
    order through a reassembler that has room, with any chunks of other groups in between,
    reports progress on every chunk but the last, hands over the frame's own header and body
    with the last one, and leaves no group behind. *)
Theorem chunks_reassemble (f : OutboundFrame) (size : nat) (gc : Z) (c : ChunkReassembler) :
  header_ok (qf_header (entry_of f)) → default [] (of_body f) ≠ [] → (CHUNK_PREFIX_MAX < size)%nat → gc ≠ 0 →
  jm_get gc (cr_groups c) = None → Z.of_nat (length (cr_groups c)) < cr_maxGroups c →
  Z.of_nat (FRAME_HEADER_SIZE + length (default [] (of_body f))) ≤ cr_maxMessageSize c →
  ∃ c1 cs, splitLogicalFrame f size gc = Ok (c1 :: cs)
    ∧ Forall (λ ch, (length (default [] (of_body ch)) ≤ size)%nat) (c1 :: cs)
    ∧ Forall (λ ch, length (default [] (of_body ch)) = size) (take (length cs) (c1 :: cs))
    ∧ of_wrote <$> (c1 :: cs) = replicate (length cs) None ++ [of_wrote f]
    ∧ ∀ ins, filter (λ p, fh_correlation p.1 = gc) ins = in_of <$> cs →
        let '(outs, c') := pushes (in_of c1 :: ins) c in
        own gc (in_of c1 :: ins) outs = replicate (length cs) Pending ++ [Complete (qf_header (entry_of f)) (default [] (of_body f))]
        ∧ jm_get gc (cr_groups c') = None.
Proof.
  intros Hh Hb Hs Hgc Hg Hn Hm. destruct (split_spec f size gc Hh Hs Hgc) as (chunks & -> & Hch & Hmax).
  set (h := qf_header (entry_of f)) in *. set (body := default [] (of_body f)) in *.
  assert (fh_length h = Z.of_nat (length body)) as Hl by (unfold h, body, entry_of; by destruct (of_body f)).
  assert (header_bytes h ++ body ≠ []) as Hne by (by destruct body).
  destruct (chunked_shape _ _ _ _ _ _ _ Hch Hne) as (S1 & S2 & S3).
  set (total := length (header_bytes h ++ body)) in *. assert (total = FRAME_HEADER_SIZE + length body)%nat as Htot
    by (unfold total; by rewrite length_app, length_header_bytes).
  destruct (chunked_start _ _ _ _ _ _ _ Hch Hne) as (d & rest & cs & Hlog & -> & Hch1). cbn [length] in S1, S3.
  rewrite Nat.sub_succ, Nat.sub_0_r in S1, S3. eexists _, cs. split; [done|]. split_and!; [done..|]. intros ins Hins.
  pose proof (pushes_group f size gc total d rest cs h body c ins Hh Hl Hb ltac:(done) ltac:(by rewrite <-Hlog)) as H.
  rewrite (surjective_pairing (pushes _ c)). apply H; try done; lia.
Qed.

Lemma chunks_reassemble_witness :
  let f := demo_frame 1 (replicate 40 7) in
  let c := new_ChunkReassembler 1000 2 in
  ∃ c1 cs, splitLogicalFrame f 20 9 = Ok (c1 :: cs)
    ∧ Forall (λ ch, (length (default [] (of_body ch)) ≤ 20)%nat) (c1 :: cs)
    ∧ Forall (λ ch, length (default [] (of_body ch)) = 20%nat) (take (length cs) (c1 :: cs))
    ∧ of_wrote <$> (c1 :: cs) = replicate (length cs) None ++ [of_wrote f]
    ∧ ∀ ins, filter (λ p, fh_correlation p.1 = 9) ins = in_of <$> cs →
        let '(outs, c') := pushes (in_of c1 :: ins) c in
        own 9 (in_of c1 :: ins) outs = replicate (length cs) Pending ++ [Complete (qf_header (entry_of f)) (default [] (of_body f))]
        ∧ jm_get 9 (cr_groups c') = None.
Proof.
  apply (chunks_reassemble (demo_frame 1 (replicate 40 7)) 20 9 (new_ChunkReassembler 1000 2)); try done. unfold CHUNK_PREFIX_MAX. lia.
Defined.
