(* ===== verification/NetSession.v ===== *)
(** * Sessions ([src/net/session.ts])

    One connection's session: the handshake and its negotiation, correlation ids, admission,
    asks and their settlement, chunked and windowed sends, the dispatch of inbound frames,
    liveness and idle reclaim, and teardown.  The framed connection is an interface
    ([FrameSink]); what reaches the owner is a log.  Owner callbacks do not call back into
    the session before they return, an owner's answer is a later step. *)
From S2P Require Import Prelude JsNumber JsString ByteIO NetBytes NetQueue NetFrame NetConn NetCredit NetEnvelope NetTable NetChunk.

(** ** The connection, as the session uses it *)

(** [send] answers a refusal or accepts; [destroy] answers the close it reports, if it is the
    call that closes. *)
Class FrameSink (C : Type) := {
  fs_send : OutboundFrame → C → result (option js_error * C);
  fs_end : C → C;
  fs_destroy : option js_error → C → option (option js_error) * C;
  fs_setMaxFrameSize : Z → C → C;
  fs_outstandingBytes : C → Z }.

(** ** Constants and errors *)

Definition FRAME_HELLO_ACK : Z := 0x02.
Definition FRAME_ERROR : Z := 0x05.
Definition FRAME_CREDIT : Z := 0x07.
Definition FRAME_TABLE : Z := 0x08.
Definition FRAME_PING : Z := 0x09.
Definition LIVENESS_MISS_LIMIT : Z := 2.
Definition CLOSE_DRAIN_GRACE_MS : Z := 5000.
Definition REVISION_CHUNKING : Z := 2.
Definition REVISION_TABLES : Z := 3.
Definition REVISION_CREDITS : Z := 4.
Definition GRANT_FLUSH_MS : Z := 50.
Definition ErrHandshakeTimeout : js_error := PlainError "tcp handshake timed out".
Definition ErrLivenessTimeout : js_error := PlainError "tcp peer stopped answering liveness probes".
Definition ErrIdleReclaim : js_error := PlainError "tcp connection reclaimed after sitting idle".
Definition ErrBackpressure : js_error := PlainError "tcp outbound admission budget is full".
Definition ErrAskTimeout : js_error := PlainError "tcp ask timed out".
Definition ErrMessageTooLarge : js_error := PlainError "tcp message exceeds the negotiated size limits".

(** ** Negotiation *)

Definition negotiateHello (local remote : Hello) : Hello :=
  let frameSize := Z.max (Z.min (hl_maxFrameSize local) (hl_maxFrameSize remote)) MIN_MAX_FRAME_SIZE in
  MkHello (Z.min (hl_revision local) (hl_revision remote)) (hl_systemName local) (hl_host local) (hl_port local)
    (hl_lane remote) (if hl_compression local =? hl_compression remote then hl_compression remote else 0)
    frameSize
    (Z.max (Z.min (hl_maxMessageSize local) (hl_maxMessageSize remote)) frameSize)
    (Z.min (hl_initialCredits local) (hl_initialCredits remote))
    (Z.max (Z.min (hl_maxLargeTransfers local) (hl_maxLargeTransfers remote)) 1).

(** ** State *)

Inductive SessionState := Handshaking | Open | Closing | Closed.

#[global] Instance SessionState_eq_dec : EqDecision SessionState.
Proof. solve_decision. Defined.

Inductive settlement := Resolved (reply : ReplyEnvelope) | Rejected (error : js_error).

(** What the handshake settles. *)
Record Negotiated := MkNegotiated {
  ng_remote : option Hello;
  ng_effective : option Hello;
  ng_lane : Z;
  ng_chunkSize : Z;
  ng_revision : Z;
  ng_admissionCap : Z }.

(** The stream state of both directions. *)
Record Streams (H : Type) := MkStreams {
  st_reassembler : ChunkReassembler;
  st_ledger : option Ledger;
  st_outTables : option OutboundTables;
  st_inTables : option (InboundTables H) }.
Arguments MkStreams {H} _ _ _ _.
Arguments st_reassembler {H} _.
Arguments st_ledger {H} _.
Arguments st_outTables {H} _.
Arguments st_inTables {H} _.

(** Asks: the next correlation is two above the last; [ak_settled] logs what each ask's promise
    was settled with, asks being numbered in the order they were made. *)
Record Asks := MkAsks {
  ak_correlation : Z;
  ak_pending : list (Z * nat);
  ak_count : nat;
  ak_settled : list (nat * settlement) }.

(** Which deadlines are armed, and the liveness counters. *)
Record Liveness := MkLiveness {
  lv_lastInbound : Z;
  lv_probeOutstanding : bool;
  lv_livenessMisses : Z;
  lv_handshakeTimer : bool;
  lv_livenessTimer : bool;
  lv_reclaimTimer : bool;
  lv_forceCloseTimer : bool }.

(** The lifecycle, and what the owner was told: how opening settled, the envelopes delivered,
    the closes. *)
Record Course := MkCourse {
  cs_state : SessionState;
  cs_closeError : option js_error;
  cs_opened : bool;
  cs_openings : list (option js_error);
  cs_delivered : list (DataEnvelope * Z);
  cs_closes : list (option js_error) }.

Record Session (C H : Type) := MkSession {
  ss_conn : C;
  ss_negotiated : Negotiated;
  ss_streams : Streams H;
  ss_asks : Asks;
  ss_liveness : Liveness;
  ss_course : Course }.
Arguments MkSession {C H} _ _ _ _ _ _.
Arguments ss_conn {C H} _.
Arguments ss_negotiated {C H} _.
Arguments ss_streams {C H} _.
Arguments ss_asks {C H} _.
Arguments ss_liveness {C H} _.
Arguments ss_course {C H} _.

Section session.
Context {C H : Type} `{!FrameSink C}.
Context (dialer : bool) (self : Hello) (readIdleMs connIdleMs : Z).
Context (onDataThrows : DataEnvelope → Z → option js_error).

Abbreviation S := (Session C H).
Abbreviation M := (Interning (Session C H)).

(** ** State access *)

Definition on_conn (f : C → C) (s : S) : S :=
  MkSession (f (ss_conn s)) (ss_negotiated s) (ss_streams s) (ss_asks s) (ss_liveness s) (ss_course s).
Definition on_negotiated (f : Negotiated → Negotiated) (s : S) : S :=
  MkSession (ss_conn s) (f (ss_negotiated s)) (ss_streams s) (ss_asks s) (ss_liveness s) (ss_course s).
Definition on_streams (f : Streams H → Streams H) (s : S) : S :=
  MkSession (ss_conn s) (ss_negotiated s) (f (ss_streams s)) (ss_asks s) (ss_liveness s) (ss_course s).
Definition on_asks (f : Asks → Asks) (s : S) : S :=
  MkSession (ss_conn s) (ss_negotiated s) (ss_streams s) (f (ss_asks s)) (ss_liveness s) (ss_course s).
Definition on_liveness (f : Liveness → Liveness) (s : S) : S :=
  MkSession (ss_conn s) (ss_negotiated s) (ss_streams s) (ss_asks s) (f (ss_liveness s)) (ss_course s).
Definition on_course (f : Course → Course) (s : S) : S :=
  MkSession (ss_conn s) (ss_negotiated s) (ss_streams s) (ss_asks s) (ss_liveness s) (f (ss_course s)).

Definition gets {A} (f : S → A) : M A := λ s, (Ok (f s), s).
Definition modify (f : S → S) : M unit := λ s, (Ok tt, f s).

(** [try]: what was thrown, or the value; the state is kept either way. *)
Definition catching {A} (m : M A) : M (js_error + A) := λ s,
  match m s with (Ok a, s) => (Ok (inr a), s) | (Throw e, s) => (Ok (inl e), s) end.

Definition set_state (st : SessionState) (c : Course) : Course :=
  MkCourse st (cs_closeError c) (cs_opened c) (cs_openings c) (cs_delivered c) (cs_closes c).
Definition set_closeError (e : option js_error) (c : Course) : Course :=
  MkCourse (cs_state c) e (cs_opened c) (cs_openings c) (cs_delivered c) (cs_closes c).
Definition set_effective (e : option Hello) (n : Negotiated) : Negotiated :=
  MkNegotiated (ng_remote n) e (ng_lane n) (ng_chunkSize n) (ng_revision n) (ng_admissionCap n).
Definition set_reassembler (r : ChunkReassembler) (st : Streams H) : Streams H :=
  MkStreams r (st_ledger st) (st_outTables st) (st_inTables st).
Definition set_ledger (g : option Ledger) (st : Streams H) : Streams H :=
  MkStreams (st_reassembler st) g (st_outTables st) (st_inTables st).
Definition set_outTables (t : option OutboundTables) (st : Streams H) : Streams H :=
  MkStreams (st_reassembler st) (st_ledger st) t (st_inTables st).
Definition set_inTables (t : option (InboundTables H)) (st : Streams H) : Streams H :=
  MkStreams (st_reassembler st) (st_ledger st) (st_outTables st) t.

Definition isOpen (s : S) : bool := bool_decide (cs_state (ss_course s) = Open).

(** ** Sending *)

Definition conn_send (f : OutboundFrame) : M (option js_error) := λ s,
  match fs_send f (ss_conn s) with
  | Ok (r, c) => (Ok r, on_conn (λ _, c) s)
  | Throw e => (Throw e, s)
  end.

(** [Session.send]: one frame of the owner's. *)
Definition sendFrame (f : OutboundFrame) : M (option js_error) :=
  isopen ← gets isOpen;
  if negb isopen then mret (Some ErrConnClosed) else conn_send f.

Definition sendControl (type correlation : Z) (body : option (list Z)) : M (option js_error) :=
  lane ← gets (λ s, ng_lane (ss_negotiated s));
  conn_send (MkOutbound type 0 lane correlation body None).

Definition sendTable (a : TableAnnouncement) : M unit :=
  w ← NetEnvelope.lift (encodeTableBody a (new_NetWriter 64));
  _ ← sendControl FRAME_TABLE 0 (Some (nw_out w));
  mret tt.

Fixpoint each_m {A} (f : A → M unit) (l : list A) : M unit :=
  match l with [] => mret tt | x :: l => _ ← f x; each_m f l end.

(** An envelope encoded with the connection's tables; the ids it assigns are announced while it
    is encoded. *)
Definition encoding (encode : NetWriter → Interning (option OutboundTables) NetWriter) : M (list Z) := λ s,
  let before := st_outTables (ss_streams s) in
  let announced t := match t with Some t => ot_announced t | None => [] end in
  let '(r, after) := encode (new_NetWriter 256) before in
  let new := drop (length (announced before)) (announced after) in
  (_ ← each_m sendTable new;
   w ← NetEnvelope.lift r;
   mret (nw_out w)) (on_streams (set_outTables after) s).

Definition encodeData (e : DataEnvelope) : M (list Z) := encoding (encodeDataEnvelope e).
Definition encodeReply (e : ReplyEnvelope) : M (list Z) := encoding (encodeReplyEnvelope e).

Definition encodeError (b : ErrorBody) : result (list Z) :=
  let! w := encodeErrorBody b (new_NetWriter 256) in Ok (nw_out w).

Definition nextCorrelation : M Z := λ s,
  let c := ak_correlation (ss_asks s) + 2 in
  (Ok c, on_asks (λ a, MkAsks c (ak_pending a) (ak_count a) (ak_settled a)) s).

Definition heldBytes (s : S) : Z :=
  fs_outstandingBytes (ss_conn s) + match st_ledger (ss_streams s) with Some g => cw_queuedBytes (lg_window g) | None => 0 end.

Definition admits (held bodyLength cap : Z) : bool :=
  (cap <=? 0) || (held =? 0) || (held + bodyLength + Z.of_nat FRAME_HEADER_SIZE <=? cap).

(** The frames a window releases, written to the connection. *)
Fixpoint write_all (out : list OutboundFrame) : M (option js_error) :=
  match out with
  | [] => mret None
  | [f] => conn_send f
  | f :: out => _ ← conn_send f; write_all out
  end.

Definition sendWindowed (f : OutboundFrame) : M (option js_error) := λ s,
  match st_ledger (ss_streams s) with
  | None => conn_send f s
  | Some g =>
      let '(out, w) := cw_send f (lg_window g) in
      write_all out (on_streams (set_ledger (Some (MkLedger w (lg_timer g)))) s)
  end.

Definition sendLogical (effective : Hello) (type flags correlation : Z) (body : list Z) (wrote : option Z) : M (option js_error) :=
  let logical := Z.of_nat (FRAME_HEADER_SIZE + length body) in
  if hl_maxMessageSize effective <? logical then mret (Some ErrMessageTooLarge)
  else
    lane ← gets (λ s, ng_lane (ss_negotiated s));
    chunkSize ← gets (λ s, ng_chunkSize (ss_negotiated s));
    let frame := MkOutbound type flags lane correlation (Some body) wrote in
    if (hl_revision effective <? REVISION_CHUNKING) || (logical <=? chunkSize) then
      if hl_maxFrameSize effective <? Z.of_nat (length body) then mret (Some ErrMessageTooLarge)
      else if type =? FRAME_DATA then sendWindowed frame else conn_send frame
    else
      group ← (if negb (correlation =? 0) then mret correlation else nextCorrelation);
      chunks ← NetEnvelope.lift (splitLogicalFrame frame (Z.to_nat chunkSize) group);
      _ ← each_m (λ c, _ ← sendWindowed c; mret tt) chunks;
      mret None.

Definition tell (e : DataEnvelope) (wrote : option Z) : M (option js_error) :=
  effective ← gets (λ s, ng_effective (ss_negotiated s));
  match effective with
  | None => mret (Some ErrConnClosed)
  | Some effective =>
      held ← gets heldBytes;
      body ← encodeData e;
      cap ← gets (λ s, ng_admissionCap (ss_negotiated s));
      if negb (admits held (Z.of_nat (length body)) cap) then mret (Some ErrBackpressure)
      else sendLogical effective FRAME_DATA 0 0 body wrote
  end.

(** ** Asks *)

(** A promise keeps its first settlement. *)
Definition add_settled (l : list (nat * settlement)) (p : nat * settlement) : list (nat * settlement) :=
  if jm_has p.1 l then l else l ++ [p].

Definition settle_ask (id : nat) (r : settlement) : M unit :=
  modify (on_asks (λ a, MkAsks (ak_correlation a) (ak_pending a) (ak_count a) (add_settled (ak_settled a) (id, r)))).

Definition takePending (correlation : Z) : M (option nat) := λ s,
  match jm_get correlation (ak_pending (ss_asks s)) with
  | None => (Ok None, s)
  | Some id => (Ok (Some id),
      on_asks (λ a, MkAsks (ak_correlation a) (jm_delete correlation (ak_pending a)) (ak_count a) (ak_settled a)) s)
  end.

Definition rejectPending (correlation : Z) (error : js_error) : M unit :=
  entry ← takePending correlation;
  match entry with Some id => settle_ask id (Rejected error) | None => mret tt end.

Definition failAllPending (error : js_error) : M unit :=
  modify (on_asks (λ a, MkAsks (ak_correlation a) [] (ak_count a)
                          (foldl add_settled (ak_settled a) ((λ p, (p.2, Rejected error)) <$> ak_pending a)))).

(** A new ask's number. *)
Definition new_ask : M nat := λ s,
  (Ok (ak_count (ss_asks s)),
   on_asks (λ a, MkAsks (ak_correlation a) (ak_pending a) (Datatypes.S (ak_count a)) (ak_settled a)) s).

Definition add_pending (correlation : Z) (id : nat) : M unit :=
  modify (on_asks (λ a, MkAsks (ak_correlation a) (jm_set correlation id (ak_pending a)) (ak_count a) (ak_settled a))).

Definition stamped (e : DataEnvelope) (timeoutMs : Z) : DataEnvelope :=
  if (de_timeout e =? 0) && (0 <? timeoutMs) then
    MkData (de_kind e) (de_to e) (de_uid e) (de_sender e) (de_senderUid e) timeoutMs (de_serializerId e) (de_typeRef e) (de_payload e)
  else e.

(** [ask]: the number of the ask whose promise it answers.  What the promise's executor throws
    rejects the promise. *)
Definition ask (e : DataEnvelope) (timeoutMs : Z) : M nat :=
  effective ← gets (λ s, ng_effective (ss_negotiated s));
  match effective with
  | None => id ← new_ask; _ ← settle_ask id (Rejected ErrConnClosed); mret id
  | Some effective =>
      held ← gets heldBytes;
      body ← encodeData (stamped e timeoutMs);
      cap ← gets (λ s, ng_admissionCap (ss_negotiated s));
      id ← new_ask;
      if negb (admits held (Z.of_nat (length body)) cap) then _ ← settle_ask id (Rejected ErrBackpressure); mret id
      else
        correlation ← nextCorrelation;
        _ ← add_pending correlation id;
        refused ← catching (sendLogical effective FRAME_DATA FLAG_EXPECTS_REPLY correlation body None);
        _ ← match refused with
            | inl thrown => settle_ask id (Rejected thrown)
            | inr (Some error) => rejectPending correlation error
            | inr None => mret tt
            end;
        mret id
  end.

(** The deadline of an ask. *)
Definition onAskTimeout (correlation : Z) : M unit := rejectPending correlation ErrAskTimeout.

Definition reply (correlation : Z) (e : ReplyEnvelope) : M (option js_error) :=
  effective ← gets (λ s, ng_effective (ss_negotiated s));
  match effective with
  | None => mret (Some ErrConnClosed)
  | Some effective =>
      held ← gets heldBytes;
      body ← encodeReply e;
      cap ← gets (λ s, ng_admissionCap (ss_negotiated s));
      if negb (admits held (Z.of_nat (length body)) cap) then mret (Some ErrBackpressure)
      else sendLogical effective FRAME_REPLY 0 correlation body None
  end.

Definition replyError (correlation : Z) (b : ErrorBody) : M (option js_error) :=
  isopen ← gets isOpen;
  if negb isopen then mret (Some ErrConnClosed)
  else body ← NetEnvelope.lift (encodeError b); sendControl FRAME_ERROR correlation (Some body).

(** ** Teardown *)

Definition onConnClose (error : option js_error) : M unit :=
  _ ← modify (on_course (set_state Closed));
  _ ← modify (on_negotiated (set_effective None));
  _ ← modify (on_liveness (λ l, MkLiveness (lv_lastInbound l) (lv_probeOutstanding l) (lv_livenessMisses l) false false false false));
  _ ← modify (on_streams (λ st, MkStreams (cr_clear (st_reassembler st))
                                  ((λ g, MkLedger (cw_clear (lg_window g)) false) <$> st_ledger st) (st_outTables st) (st_inTables st)));
  reported ← gets (λ s, or_else (cs_closeError (ss_course s)) error);
  _ ← failAllPending (default ErrConnClosed reported);
  modify (on_course (λ c,
    if cs_opened c then MkCourse (cs_state c) (cs_closeError c) true (cs_openings c) (cs_delivered c) (cs_closes c ++ [reported])
    else MkCourse (cs_state c) (cs_closeError c) false (cs_openings c ++ [Some (default ErrConnClosed reported)]) (cs_delivered c) (cs_closes c))).

(** [this._conn.destroy(error)]: the connection reports the close at once. *)
Definition destroyConn (error : option js_error) : M unit := λ s,
  let '(report, c) := fs_destroy error (ss_conn s) in
  let s := on_conn (λ _, c) s in
  match report with Some e => onConnClose e s | None => (Ok tt, s) end.

Definition teardown (notice : option (Z * jsstring)) (error : option js_error) : M unit :=
  st ← gets (λ s, cs_state (ss_course s));
  if bool_decide (st = Closing ∨ st = Closed) then mret tt
  else
    _ ← modify (on_course (set_state Closing));
    _ ← modify (on_negotiated (set_effective None));
    _ ← modify (on_course (λ c, set_closeError (or_else (cs_closeError c) error) c));
    closeError ← gets (λ s, cs_closeError (ss_course s));
    _ ← failAllPending (default ErrConnClosed closeError);
    _ ← modify (on_streams (λ st, MkStreams (cr_clear (st_reassembler st))
                                    ((λ g, MkLedger (cw_clear (lg_window g)) false) <$> st_ledger st) (st_outTables st) (st_inTables st)));
    _ ← match notice with
        | None => mret tt
        | Some (code, message) =>
            body ← NetEnvelope.lift (encodeError (MkErrorBody code 0 [] message));
            _ ← sendControl FRAME_ERROR 0 (Some body);
            mret tt
        end;
    _ ← modify (on_conn fs_end);
    modify (on_liveness (λ l, MkLiveness (lv_lastInbound l) (lv_probeOutstanding l) (lv_livenessMisses l) (lv_handshakeTimer l)
                                (lv_livenessTimer l) (lv_reclaimTimer l) true)).

Definition close : M unit := teardown None None.
Definition closeWith (code : Z) (message : jsstring) : M unit := teardown (Some (code, message)) None.
Definition destroySession : M unit := e ← gets (λ s, cs_closeError (ss_course s)); destroyConn e.
Definition failProtocol (message : string) : M unit := teardown (Some (ERROR_PROTOCOL, js message)) (Some (ProtocolError message)).

(** The deadline [teardown] arms. *)
Definition onForceClose : M unit := e ← gets (λ s, cs_closeError (ss_course s)); destroyConn e.

(** ** Opening *)

Definition sendHello (type : Z) (hello : Hello) : M unit :=
  w ← NetEnvelope.lift (encodeHello hello (new_NetWriter 256));
  _ ← conn_send (MkOutbound type 0 (hl_lane hello) 0 (Some (nw_out w)) None);
  mret tt.

Definition onHandshakeTimeout : M unit :=
  _ ← modify (on_course (λ c, set_closeError (or_else (cs_closeError c) (Some ErrHandshakeTimeout)) c));
  destroyConn (Some ErrHandshakeTimeout).

Definition closeFromPeerError (body : list Z) : M unit :=
  r ← NetEnvelope.lift (decodeErrorBody (MkReader body 0));
  let peer := r.1 in
  let e := PeerError (eb_code peer) (eb_sentinel peer) (eb_name peer) (eb_message peer) in
  _ ← modify (on_course (set_closeError (Some e)));
  destroyConn (Some e).

(** What the negotiated parameters make of a session. *)
Definition opened (now : Z) (remote effective : Hello) (s : S) : S :=
  let n := ss_negotiated s in
  let s := on_negotiated (λ n, MkNegotiated (Some remote) (Some effective) (hl_lane effective)
             (Z.min (ng_chunkSize n) (hl_maxFrameSize effective)) (hl_revision effective)
             (if 0 <? hl_initialCredits effective then hl_initialCredits effective else hl_initialCredits self)) s in
  let s := on_streams (λ st, MkStreams (new_ChunkReassembler (hl_maxMessageSize effective) (hl_maxLargeTransfers effective))
             (if (REVISION_CREDITS <=? hl_revision effective) && (0 <? hl_initialCredits effective)
              then Some (MkLedger (new_CreditWindow (hl_initialCredits effective)) false) else st_ledger st)
             (if REVISION_TABLES <=? hl_revision effective then Some new_OutboundTables else st_outTables st)
             (if REVISION_TABLES <=? hl_revision effective then Some new_InboundTables else st_inTables st)) s in
  let s := on_conn (fs_setMaxFrameSize (hl_maxFrameSize effective)) s in
  let s := on_course (λ c, MkCourse Open (cs_closeError c) true (cs_openings c ++ [None]) (cs_delivered c) (cs_closes c)) s in
  on_liveness (λ l, MkLiveness now (lv_probeOutstanding l) (lv_livenessMisses l) false (0 <? readIdleMs) (0 <? connIdleMs) (lv_forceCloseTimer l)) s.

Definition onHandshakeFrame (now : Z) (h : FrameHeader) (body : list Z) : M unit :=
  if (fh_type h =? FRAME_ERROR) && (fh_correlation h =? 0) then closeFromPeerError body
  else
    let expected := if dialer then FRAME_HELLO_ACK else FRAME_HELLO in
    if negb (fh_type h =? expected) then failProtocol (if dialer then "expected HELLO_ACK" else "expected HELLO")
    else
      match decodeHello (MkReader body 0) with
      | Throw _ => failProtocol "invalid HELLO payload"
      | Ok (remote, _) =>
          if hl_revision remote <? 1 then failProtocol "capability revision below baseline"
          else
            let effective := negotiateHello self remote in
            _ ← modify (on_negotiated (λ n, MkNegotiated (Some remote) (ng_effective n) (ng_lane n) (ng_chunkSize n) (ng_revision n) (ng_admissionCap n)));
            _ ← (if dialer then mret tt else sendHello FRAME_HELLO_ACK effective);
            modify (opened now remote effective)
      end.

(** ** Inbound frames *)

(** The message of an error, as an ERROR body carries it. *)
Definition error_message (e : js_error) : string :=
  match e with RangeError m | TypeError m | ProtocolError m | ValueDecodeError m | PlainError m => m | _ => EmptyString end.

Definition error_text (e : js_error) : jsstring := match e with PeerError _ _ _ m => m | _ => js (error_message e) end.

Definition is_protocol_error (e : js_error) : bool := match e with ProtocolError _ => true | _ => false end.

Definition expectsReply (h : FrameHeader) : bool := has_flag h FLAG_EXPECTS_REPLY.

Definition answerError (h : FrameHeader) (code : Z) (e : js_error) : M unit :=
  if expectsReply h then _ ← replyError (fh_correlation h) (MkErrorBody code 0 [] (error_text e)); mret tt else mret tt.

Definition deliver (e : DataEnvelope) (correlation : Z) : M unit :=
  modify (on_course (λ c, MkCourse (cs_state c) (cs_closeError c) (cs_opened c) (cs_openings c) (cs_delivered c ++ [(e, correlation)]) (cs_closes c))).

Definition onDataFrame (h : FrameHeader) (body : list Z) : M unit :=
  tables ← gets (λ s, st_inTables (ss_streams s));
  match decodeDataEnvelope tables (MkReader body 0) with
  | Throw e => if is_protocol_error e then failProtocol (error_message e) else answerError h ERROR_BAD_REQUEST e
  | Ok (e, _) =>
      _ ← deliver e (fh_correlation h);
      match onDataThrows e (fh_correlation h) with
      | None => mret tt
      | Some thrown => answerError h ERROR_INTERNAL thrown
      end
  end.

Definition onReplyFrame (h : FrameHeader) (body : list Z) : M unit :=
  entry ← takePending (fh_correlation h);
  match entry with
  | None => mret tt
  | Some id =>
      tables ← gets (λ s, st_inTables (ss_streams s));
      match decodeReplyEnvelope tables (MkReader body 0) with
      | Ok (e, _) => settle_ask id (Resolved e)
      | Throw e => _ ← settle_ask id (Rejected e); if is_protocol_error e then failProtocol (error_message e) else mret tt
      end
  end.

Definition failLaneMismatch : M unit := failProtocol "frame lane does not match the connection lane".

Definition onLogicalFrame (h : FrameHeader) (body : list Z) : M unit :=
  lane ← gets (λ s, ng_lane (ss_negotiated s));
  if negb (fh_lane h =? lane) then failLaneMismatch
  else if fh_type h =? FRAME_DATA then onDataFrame h body
  else if fh_type h =? FRAME_REPLY then onReplyFrame h body
  else failProtocol "unexpected chunked frame type".

Definition onChunkFrame (h : FrameHeader) (body : list Z) : M unit :=
  revision ← gets (λ s, ng_revision (ss_negotiated s));
  if revision <? REVISION_CHUNKING then failProtocol "CHUNK requires capability revision 2"
  else
    outcome ← (λ s, let '(o, r) := push h body (st_reassembler (ss_streams s)) in (Ok o, on_streams (set_reassembler r) s));
    match outcome with
    | Violation reason => failProtocol reason
    | Reject reason =>
        _ ← replyError (fh_correlation h) (MkErrorBody ERROR_BAD_REQUEST 0 [] (js reason));
        rejectPending (fh_correlation h) ErrMessageTooLarge
    | Complete inner data => onLogicalFrame inner data
    | Pending | Aborted => mret tt
    end.

Definition onRequestError (h : FrameHeader) (body : list Z) : M unit :=
  entry ← takePending (fh_correlation h);
  match entry with
  | None => mret tt
  | Some id =>
      match decodeErrorBody (MkReader body 0) with
      | Throw e => settle_ask id (Rejected e)
      | Ok (peer, _) => settle_ask id (Rejected (PeerError (eb_code peer) (eb_sentinel peer) (eb_name peer) (eb_message peer)))
      end
  end.

Definition sendCredit (due : Z) : M unit :=
  w ← NetEnvelope.lift (writeUvarint due (new_NetWriter 256));
  _ ← sendControl FRAME_CREDIT 0 (Some (nw_out w));
  mret tt.

Definition accrue (cost : Z) : M unit := λ s,
  match st_ledger (ss_streams s) with
  | None => (Ok tt, s)
  | Some g =>
      let '(due, g) := accrueCredit cost g in
      (match due with None => mret tt | Some due => sendCredit due end) (on_streams (set_ledger (Some g)) s)
  end.

(** The grant deadline; it is armed only while a window is open. *)
Definition onGrantDeadline : M unit := λ s,
  match st_ledger (ss_streams s) with
  | None => (Ok tt, s)
  | Some g => let '(due, g) := flushOwedGrant g in sendCredit due (on_streams (set_ledger (Some g)) s)
  end.

Definition onCreditFrame (body : list Z) : M unit :=
  revision ← gets (λ s, ng_revision (ss_negotiated s));
  if revision <? REVISION_CREDITS then failProtocol "CREDIT requires capability revision 4"
  else
    match readUvarint (MkReader body 0) with
    | Throw _ => failProtocol "malformed CREDIT grant"
    | Ok (count, _) => λ s,
        match st_ledger (ss_streams s) with
        | None => (Ok tt, s)
        | Some g =>
            let '(out, w) := cw_grant count (lg_window g) in
            (_ ← write_all out; mret tt) (on_streams (set_ledger (Some (MkLedger w (lg_timer g)))) s)
        end
    end.

Definition onTableFrame (body : list Z) : M unit :=
  tables ← gets (λ s, st_inTables (ss_streams s));
  match tables with
  | None => failProtocol "TABLE requires capability revision 3"
  | Some t =>
      match installBody body t with
      | Throw e => failProtocol (error_message e)
      | Ok t => modify (on_streams (set_inTables (Some t)))
      end
  end.

Definition stamp_inbound (now : Z) (l : Liveness) : Liveness :=
  MkLiveness now false 0 (lv_handshakeTimer l) (lv_livenessTimer l) (lv_reclaimTimer l) (lv_forceCloseTimer l).

Definition frame_bytes (h : FrameHeader) : Z := Z.of_nat FRAME_HEADER_SIZE + fh_length h.

Definition onOpenFrame (now : Z) (h : FrameHeader) (body : list Z) : M unit :=
  _ ← modify (on_liveness (stamp_inbound now));
  lane ← gets (λ s, ng_lane (ss_negotiated s));
  if negb (fh_lane h =? lane) then failLaneMismatch
  else if fh_type h =? FRAME_PING then _ ← sendControl FRAME_PONG (fh_correlation h) None; mret tt
  else if fh_type h =? FRAME_PONG then mret tt
  else if (fh_type h =? FRAME_HELLO) || (fh_type h =? FRAME_HELLO_ACK) then failProtocol "unexpected handshake frame on an open connection"
  else if fh_type h =? FRAME_DATA then _ ← accrue (frame_bytes h); onDataFrame h body
  else if fh_type h =? FRAME_REPLY then onReplyFrame h body
  else if fh_type h =? FRAME_CHUNK then _ ← accrue (frame_bytes h); onChunkFrame h body
  else if fh_type h =? FRAME_CREDIT then onCreditFrame body
  else if fh_type h =? FRAME_TABLE then onTableFrame body
  else if fh_type h =? FRAME_ERROR then
    if negb (fh_correlation h =? 0) then onRequestError h body else closeFromPeerError body
  else mret tt.

Definition onFrame (now : Z) (h : FrameHeader) (body : list Z) : M unit :=
  st ← gets (λ s, cs_state (ss_course s));
  match st with
  | Handshaking => onHandshakeFrame now h body
  | Open => onOpenFrame now h body
  | _ => mret tt
  end.

(** ** Liveness and idle reclaim *)

Definition set_liveness_timer (b : bool) (l : Liveness) : Liveness :=
  MkLiveness (lv_lastInbound l) (lv_probeOutstanding l) (lv_livenessMisses l) (lv_handshakeTimer l) b (lv_reclaimTimer l) (lv_forceCloseTimer l).

Definition set_probe (b : bool) (l : Liveness) : Liveness :=
  MkLiveness (lv_lastInbound l) b (lv_livenessMisses l) (lv_handshakeTimer l) (lv_livenessTimer l) (lv_reclaimTimer l) (lv_forceCloseTimer l).

Definition armLiveness : M unit := λ s,
  if (readIdleMs <=? 0) || negb (isOpen s) then (Ok tt, s) else (Ok tt, on_liveness (set_liveness_timer true) s).

Definition onLivenessDeadline (now : Z) : M unit :=
  isopen ← gets isOpen;
  if negb isopen then mret tt
  else
    l ← gets ss_liveness;
    if now - lv_lastInbound l <? readIdleMs then modify (on_liveness (set_liveness_timer true))
    else
      let misses := if lv_probeOutstanding l then lv_livenessMisses l + 1 else lv_livenessMisses l in
      _ ← modify (on_liveness (λ l, MkLiveness (lv_lastInbound l) (lv_probeOutstanding l) misses (lv_handshakeTimer l) (lv_livenessTimer l)
                                      (lv_reclaimTimer l) (lv_forceCloseTimer l)));
      if lv_probeOutstanding l && (LIVENESS_MISS_LIMIT <=? misses) then
        _ ← modify (on_course (set_closeError (Some ErrLivenessTimeout)));
        destroyConn (Some ErrLivenessTimeout)
      else
        _ ← (if lv_probeOutstanding l then mret tt
             else
               c ← nextCorrelation;
               refused ← sendControl FRAME_PING c None;
               modify (on_liveness (set_probe (negb (is_some refused)))));
        armLiveness.

Definition onReclaimDeadline (now : Z) : M unit :=
  isopen ← gets isOpen;
  if negb isopen then mret tt
  else
    l ← gets ss_liveness;
    if connIdleMs <=? now - lv_lastInbound l then
      _ ← modify (on_course (set_closeError (Some ErrIdleReclaim)));
      destroyConn (Some ErrIdleReclaim)
    else modify (on_liveness (λ l, MkLiveness (lv_lastInbound l) (lv_probeOutstanding l) (lv_livenessMisses l) (lv_handshakeTimer l) (lv_livenessTimer l)
                                     (0 <? connIdleMs) (lv_forceCloseTimer l))).

(** [cachePathHandle] and [pathHandle]. *)
Definition cachePathHandle (path : jsstring) (handle : H) : M bool := λ s,
  match st_inTables (ss_streams s) with
  | None => (Ok false, s)
  | Some t => let '(ok, t) := cacheHandle path handle t in (Ok ok, on_streams (set_inTables (Some t)) s)
  end.

Definition pathHandle (path : jsstring) (s : S) : option H :=
  match st_inTables (ss_streams s) with None => None | Some t => handleOf path t end.

(** ** A session's life *)

(** The constructor and [start]: a dialer speaks first. *)
Definition new_Session (conn : C) (chunkSize now : Z) (handshakeTimeoutMs : Z) : S :=
  MkSession conn (MkNegotiated None None (hl_lane self) chunkSize 0 0)
    (MkStreams (new_ChunkReassembler MIN_MAX_FRAME_SIZE 1) None None None)
    (MkAsks (if dialer then -1 else 0) [] 0 [])
    (MkLiveness now false 0 (0 <? handshakeTimeoutMs) false false false)
    (MkCourse Handshaking None false [] [] []).

Definition start : M unit := if dialer then sendHello FRAME_HELLO self else mret tt.

Inductive session_event :=
  | EStart
  | ESend (f : OutboundFrame)
  | ENextCorrelation
  | ETell (e : DataEnvelope) (wrote : option Z)
  | EAsk (e : DataEnvelope) (timeoutMs : Z)
  | EReply (correlation : Z) (e : ReplyEnvelope)
  | EReplyError (correlation : Z) (b : ErrorBody)
  | EFrame (now : Z) (h : FrameHeader) (body : list Z)
  | EViolation (message : string)
  | EConnClose (error : option js_error)
  | EAskTimeout (correlation : Z)
  | EGrantDeadline
  | EHandshakeTimeout
  | ELiveness (now : Z)
  | EReclaim (now : Z)
  | EForceClose
  | EClose
  | ECloseWith (code : Z) (message : jsstring)
  | EDestroy
  | ECacheHandle (path : jsstring) (handle : H).

Definition done {A} (m : M A) : M unit := _ ← m; mret tt.

(** What happens at one event; a deadline happens only while it is armed. *)
Definition session_handler (e : session_event) (s : S) : M unit :=
  let l := ss_liveness s in
  match e with
  | EStart => start
  | ESend f => done (sendFrame f)
  | ENextCorrelation => done nextCorrelation
  | ETell e wrote => done (tell e wrote)
  | EAsk e timeoutMs => done (ask e timeoutMs)
  | EReply c e => done (reply c e)
  | EReplyError c b => done (replyError c b)
  | EFrame now h body => onFrame now h body
  | EViolation message => failProtocol message
  | EConnClose error => onConnClose error
  | EAskTimeout c => onAskTimeout c
  | EGrantDeadline => match st_ledger (ss_streams s) with Some g => if lg_timer g then onGrantDeadline else mret tt | None => mret tt end
  | EHandshakeTimeout => if lv_handshakeTimer l then onHandshakeTimeout else mret tt
  | ELiveness now => if lv_livenessTimer l then onLivenessDeadline now else mret tt
  | EReclaim now => if lv_reclaimTimer l then onReclaimDeadline now else mret tt
  | EForceClose => if lv_forceCloseTimer l then onForceClose else mret tt
  | EClose => close
  | ECloseWith code message => closeWith code message
  | EDestroy => destroySession
  | ECacheHandle path handle => done (cachePathHandle path handle)
  end.

(** An exception ends the event's work and leaves the state as it is. *)
Definition session_step (s : S) (e : session_event) : S := (session_handler e s s).2.

Definition session_run (es : list session_event) (s : S) : S := foldl session_step s es.
End session.
