(* ===== verification/NetSessionAsks.v ===== *)
(** * Asks over a session ([src/net/session.ts])

    The session's invariant: every ask made is pending or settled, correlation ids keep to
    this side's parity, sends are possible exactly while the session is open, and a session
    that closes leaves nothing pending.  It holds whatever the connection, the peer and the
    owner do. *)
From S2P Require Import Prelude JsNumber JsString ByteIO NetBytes NetQueue NetFrame NetConn NetCredit NetEnvelope NetTable NetChunk NetSession.

Section asks.
Context {C H : Type} `{!FrameSink C}.
Context (dialer : bool) (self : Hello) (readIdleMs connIdleMs : Z).
Context (onDataThrows : DataEnvelope → Z → option js_error).

Abbreviation S := (Session C H).
Abbreviation M := (Interning (Session C H)).

(** ** Computations that leave a state property alone *)

Definition keeps (I : S → Prop) {A} (m : M A) : Prop := ∀ s, I s → I (m s).2.

Lemma keeps_bind I {A B} (m : M A) (k : A → M B) : keeps I m → (∀ a, keeps I (k a)) → keeps I (m ≫= k).
Proof.
  intros Hm Hk s Hs. unfold mbind, Interning_bind. pose proof (Hm s Hs) as H1. destruct (m s) as [[a|e] s1]; [|done]. by apply Hk.
Qed.

Lemma keeps_ret I {A} (a : A) : keeps I (mret a).
Proof. by intros s. Qed.

Lemma keeps_gets I {A} (f : S → A) : keeps I (gets f).
Proof. by intros s. Qed.

Lemma keeps_lift I {A} (r : result A) : keeps I (NetEnvelope.lift r).
Proof. by intros s. Qed.

(** ** Sends touch the connection, the streams and the correlation counter only *)

Definition quiet (s s' : S) : Prop :=
  ss_course s' = ss_course s ∧ ss_negotiated s' = ss_negotiated s
  ∧ ak_pending (ss_asks s') = ak_pending (ss_asks s) ∧ ak_count (ss_asks s') = ak_count (ss_asks s)
  ∧ ak_settled (ss_asks s') = ak_settled (ss_asks s)
  ∧ ∃ n : nat, ak_correlation (ss_asks s') = ak_correlation (ss_asks s) + 2 * Z.of_nat n.

Lemma quiet_refl s : quiet s s.
Proof. split_and!; try done. exists 0%nat. lia. Qed.

Lemma quiet_trans s1 s2 s3 : quiet s1 s2 → quiet s2 s3 → quiet s1 s3.
Proof.
  intros (A1 & A2 & A3 & A4 & A5 & n & A6) (B1 & B2 & B3 & B4 & B5 & m & B6). split_and!; try congruence. exists (n + m)%nat. lia.
Qed.

Definition quietly {A} (m : M A) : Prop := ∀ s, quiet s (m s).2.

Lemma quietly_bind {A B} (m : M A) (k : A → M B) : quietly m → (∀ a, quietly (k a)) → quietly (m ≫= k).
Proof.
  intros Hm Hk s. unfold mbind, Interning_bind. pose proof (Hm s) as H1. destruct (m s) as [[a|e] s1]; [|done].
  eapply quiet_trans; [done|apply Hk].
Qed.

Lemma quietly_ret {A} (a : A) : quietly (mret a).
Proof. intros s. apply quiet_refl. Qed.

Lemma quietly_gets {A} (f : S → A) : quietly (gets f).
Proof. intros s. apply quiet_refl. Qed.

Lemma quietly_lift {A} (r : result A) : quietly (NetEnvelope.lift r).
Proof. intros s. apply quiet_refl. Qed.

Lemma quietly_catching {A} (m : M A) : quietly m → quietly (catching m).
Proof. intros Hm s. unfold catching. pose proof (Hm s). by destruct (m s) as [[a|e] s']. Qed.

Create HintDb quiet.
#[local] Hint Resolve quietly_ret quietly_gets quietly_lift quietly_catching : quiet.

Ltac quietly := repeat (first [apply quietly_bind; [|intros ?] | progress eauto with quiet | case_match]).

Lemma quietly_conn_send f : quietly (conn_send f).
Proof.
  intros s. unfold conn_send. destruct (fs_send f (ss_conn s)) as [[r c]|]; [|apply quiet_refl].
  split_and!; try done. exists 0%nat. cbn. lia.
Qed.
#[local] Hint Resolve quietly_conn_send : quiet.

Lemma quietly_sendControl t c b : quietly (sendControl t c b).
Proof. unfold sendControl. quietly. Qed.
#[local] Hint Resolve quietly_sendControl : quiet.

Lemma quietly_each {A} (f : A → M unit) l : (∀ x, quietly (f x)) → quietly (each_m f l).
Proof. intros Hf. induction l as [|x l IH]; cbn [each_m]; quietly. Qed.
#[local] Hint Resolve quietly_each : quiet.

Lemma quietly_sendTable a : quietly (sendTable a).
Proof. unfold sendTable. quietly. Qed.
#[local] Hint Resolve quietly_sendTable : quiet.

(** A change of the streams, then a quiet computation. *)
Lemma quiet_streams (f : Streams H → Streams H) s : quiet s (on_streams f s).
Proof. split_and!; try done. exists 0%nat. cbn. lia. Qed.

Lemma quietly_encoding encode : quietly (encoding encode).
Proof.
  intros s. unfold encoding. destruct (encode _ _) as [r after]. eapply quiet_trans; [apply quiet_streams|].
  apply quietly_bind; [by apply quietly_each, quietly_sendTable|intros ?]. quietly.
Qed.
#[local] Hint Resolve quietly_encoding : quiet.

Lemma quietly_next : quietly nextCorrelation.
Proof. intros s. split_and!; try done. exists 1%nat. cbn. lia. Qed.
#[local] Hint Resolve quietly_next : quiet.

Lemma quietly_write_all out : quietly (write_all out).
Proof. induction out as [|f [|g out] IH]; cbn [write_all]; quietly. Qed.
#[local] Hint Resolve quietly_write_all : quiet.

Lemma quietly_sendWindowed f : quietly (sendWindowed f).
Proof.
  intros s. unfold sendWindowed. destruct (st_ledger (ss_streams s)) as [g|]; [|apply quietly_conn_send].
  destruct (cw_send f (lg_window g)) as [out w]. eapply quiet_trans; [apply quiet_streams|]. apply quietly_write_all.
Qed.
#[local] Hint Resolve quietly_sendWindowed : quiet.

Lemma quietly_sendLogical eff t fl c b w : quietly (sendLogical eff t fl c b w).
Proof. unfold sendLogical. quietly. apply quietly_each. intros x. quietly. Qed.
#[local] Hint Resolve quietly_sendLogical : quiet.

Lemma quietly_replyError c b : quietly (replyError c b).
Proof. unfold replyError. quietly. Qed.
#[local] Hint Resolve quietly_replyError : quiet.

Lemma quietly_sendCredit due : quietly (sendCredit due).
Proof. unfold sendCredit. quietly. Qed.
#[local] Hint Resolve quietly_sendCredit : quiet.

Lemma quietly_accrue cost : quietly (accrue cost).
Proof.
  intros s. unfold accrue. destruct (st_ledger (ss_streams s)) as [g|]; [|apply quiet_refl].
  destruct (accrueCredit cost g) as [due g']. eapply quiet_trans; [apply quiet_streams|]. destruct due; [apply quietly_sendCredit|apply quiet_refl].
Qed.
#[local] Hint Resolve quietly_accrue : quiet.

(** ** The invariant *)

Definition base : Z := if dialer then -1 else 0.

(** Every ask but [x] is settled or pending. *)
Record inv_but (x : option nat) (s : S) : Prop := {
  si_settled : NoDup (ak_settled (ss_asks s)).*1;
  si_all : ∀ id, (id < ak_count (ss_asks s))%nat →
    x = Some id ∨ id ∈ (ak_settled (ss_asks s)).*1 ∨ id ∈ (ak_pending (ss_asks s)).*2;
  si_range : ∀ id, x = Some id ∨ id ∈ (ak_settled (ss_asks s)).*1 ∨ id ∈ (ak_pending (ss_asks s)).*2 → (id < ak_count (ss_asks s))%nat;
  si_pending : jm_wf (ak_pending (ss_asks s));
  si_ids : NoDup (ak_pending (ss_asks s)).*2;
  si_parity : ∃ n : nat, ak_correlation (ss_asks s) = base + 2 * Z.of_nat n
    ∧ ∀ c, c ∈ (ak_pending (ss_asks s)).*1 → ∃ m : nat, (1 ≤ m ≤ n)%nat ∧ c = base + 2 * Z.of_nat m;
  si_effective : is_some (ng_effective (ss_negotiated s)) = bool_decide (cs_state (ss_course s) = Open);
  si_closed : cs_state (ss_course s) = Closing ∨ cs_state (ss_course s) = Closed → ak_pending (ss_asks s) = [] }.

Abbreviation session_inv := (inv_but None).

(** The invariant speaks of the asks, the state and whether sends are possible. *)
Lemma inv_same x s s' :
  inv_but x s → ss_asks s' = ss_asks s → is_some (ng_effective (ss_negotiated s')) = is_some (ng_effective (ss_negotiated s)) →
  cs_state (ss_course s') = cs_state (ss_course s) → inv_but x s'.
Proof. intros [] Ha He Hs. split; rewrite ?Ha, ?He, ?Hs; done. Qed.

Lemma inv_quiet x s s' : quiet s s' → inv_but x s → inv_but x s'.
Proof.
  intros (Hc & Hn & Hp & Hk & Hs & n & Hcor) [I1 I2 I3 I4 I0 (m & I5 & I5') I6 I7]. split; rewrite ?Hc, ?Hn, ?Hp, ?Hk, ?Hs; try done.
  exists (m + n)%nat. split; [lia|]. intros c Hin. destruct (I5' c Hin) as (k & ? & ?). exists k. split; [lia|done].
Qed.

Lemma keeps_quietly {A} (m : M A) : quietly m → keeps session_inv m.
Proof. intros Hm s Hs. by eapply inv_quiet. Qed.

Lemma keeps_on_conn f : keeps session_inv (modify (on_conn f)).
Proof. intros s Hs. by eapply inv_same. Qed.

Lemma keeps_on_streams f : keeps session_inv (modify (on_streams f)).
Proof. intros s Hs. by eapply inv_same. Qed.

Lemma keeps_on_liveness f : keeps session_inv (modify (on_liveness f)).
Proof. intros s Hs. by eapply inv_same. Qed.

Lemma keeps_on_course f : (∀ c, cs_state (f c) = cs_state c) → keeps session_inv (modify (on_course f)).
Proof. intros Hf s Hs. eapply inv_same; try done. apply Hf. Qed.

Create HintDb kept.
#[local] Hint Resolve keeps_ret keeps_gets keeps_lift keeps_on_conn keeps_on_streams keeps_on_liveness keeps_quietly : kept.

Ltac kept := repeat (first [progress eauto with kept quiet | apply keeps_bind; [|intros ?] | case_match]).

(** ** Settling *)

Lemma add_settled_ids l p : (add_settled l p).*1 = if jm_has p.1 l then l.*1 else l.*1 ++ [p.1].
Proof. unfold add_settled. destruct (jm_has p.1 l); [done|]. by rewrite fmap_app. Qed.

Lemma jm_has_elem (l : list (nat * settlement)) id : jm_has id l = true ↔ id ∈ l.*1.
Proof.
  unfold jm_has. destruct (jm_get id l) eqn:E.
  - split; [|done]. intros _. apply jm_get_elem in E. apply list_elem_of_fmap. by exists (id, s).
  - apply jm_get_None in E. split; [done|]. intros ?. done.
Qed.

Lemma add_settled_spec l p :
  NoDup l.*1 → NoDup (add_settled l p).*1 ∧ ∀ id, id ∈ (add_settled l p).*1 ↔ id = p.1 ∨ id ∈ l.*1.
Proof.
  intros Hn. rewrite add_settled_ids. destruct (jm_has p.1 l) eqn:E.
  - apply jm_has_elem in E. split; [done|]. naive_solver.
  - assert (p.1 ∉ l.*1) as Hp by (intros Hin; apply jm_has_elem in Hin; congruence). split; [|set_solver].
    apply NoDup_app. split; [done|]. split; [|apply NoDup_singleton]. set_solver.
Qed.

Lemma settle_ask_inv id r s : inv_but (Some id) s → session_inv (settle_ask id r s).2.
Proof.
  intros [I1 I2 I3 I4 I0 I5 I6 I7]. destruct (add_settled_spec (ak_settled (ss_asks s)) (id, r) I1) as [Hn Hin]. cbn [fst] in Hin.
  split; cbn; try done; intros i; rewrite Hin.
  - intros Hi. destruct (I2 i Hi) as [[= <-]|[?|?]]; auto.
  - intros [?|[[-> |?]|?]]; [done|apply I3; auto..].
Qed.

Lemma settle_again_inv id r s : (id < ak_count (ss_asks s))%nat → session_inv s → session_inv (settle_ask id r s).2.
Proof.
  intros Hid [I1 I2 I3 I4 I0 I5 I6 I7]. apply settle_ask_inv. split; try done.
  - intros i Hi. destruct (I2 i Hi) as [?|?]; [done|auto].
  - intros i [[= <-]|?]; [done|]. apply I3. auto.
Qed.

Lemma takePending_inv c s :
  session_inv s →
  match takePending c s with
  | (Ok (Some id), s') => inv_but (Some id) s'
  | (_, s') => session_inv s'
  end.
Proof.
  intros [I1 I2 I3 I4 I0 (n & I5 & I5') I6 I7]. unfold takePending. destruct (jm_get c (ak_pending (ss_asks s))) as [id|] eqn:E; [|split; eauto].
  pose proof (jm_get_elem _ _ _ E) as Hin.
  assert (∀ i, i ∈ (jm_delete c (ak_pending (ss_asks s))).*2 → i ∈ (ak_pending (ss_asks s)).*2) as Hsub.
  { intros i Hi. rewrite jm_delete_filter in Hi. apply list_elem_of_fmap in Hi as ((c', i') & -> & Hi). apply list_elem_of_filter in Hi as [_ Hi].
    apply list_elem_of_fmap. by eexists. }
  split; cbn; try done.
  - intros i Hi. destruct (I2 i Hi) as [?|[?|Hp]]; [done|auto|]. apply list_elem_of_fmap in Hp as ((c', i') & -> & Hp). cbn.
    destruct (decide (c' = c)) as [-> |Hne].
    + left. f_equal. apply (elem_jm_get _ _ _ I4) in Hp. congruence.
    + right. right. apply list_elem_of_fmap. exists (c', i'). split; [done|]. rewrite jm_delete_filter. by apply list_elem_of_filter.
  - intros i [[= <-]|[?|?]]; apply I3; auto. right. right. apply list_elem_of_fmap. by exists (c, id).
  - by apply jm_wf_delete.
  - rewrite jm_delete_filter. eapply sublist_NoDup; [done|apply fmap_sublist, sublist_filter].
  - exists n. split; [done|]. intros c' Hc'. apply I5'. rewrite jm_delete_filter in Hc'. apply list_elem_of_fmap in Hc' as ((c'', i') & -> & Hi).
    apply list_elem_of_filter in Hi as [_ Hi]. apply list_elem_of_fmap. by eexists.
  - intros Hst. by rewrite (I7 Hst) in E.
Qed.

(** A pending ask is taken and settled. *)
Lemma keeps_take {A} c (m : option nat → M A) :
  keeps session_inv (m None) → (∀ id s, inv_but (Some id) s → session_inv (m (Some id) s).2) → keeps session_inv (takePending c ≫= m).
Proof.
  intros H0 H1 s Hs. pose proof (takePending_inv c s Hs) as Ht. unfold mbind, Interning_bind.
  destruct (takePending c s) as [[[id|]|e] s1]; [by apply H1|by apply H0|done].
Qed.

Lemma keeps_rejectPending c e : keeps session_inv (rejectPending c e).
Proof. unfold rejectPending. apply keeps_take; [apply keeps_ret|]. intros id s Hs. by apply settle_ask_inv. Qed.
#[local] Hint Resolve keeps_rejectPending : kept.

(** ** Asking *)

(** A new ask, before it is pending or settled. *)
Lemma new_ask_inv s : session_inv s → inv_but (Some (ak_count (ss_asks s))) (new_ask s).2.
Proof.
  intros [I1 I2 I3 I4 I0 I5 I6 I7]. split; cbn; try done.
  - intros i Hi. destruct (decide (i = ak_count (ss_asks s))) as [-> |]; [auto|]. right. destruct (I2 i) as [?|?]; [lia|done|done].
  - intros i [[= <-]|Hi]; [lia|]. assert (i < ak_count (ss_asks s))%nat by (apply I3; auto). lia.
Qed.

(** A fresh correlation and a fresh ask become pending together. *)
Lemma add_pending_inv id s :
  inv_but (Some id) s → id ∉ (ak_pending (ss_asks s)).*2 → cs_state (ss_course s) = Open →
  session_inv (add_pending (ak_correlation (ss_asks s) + 2) id (nextCorrelation s).2).2.
Proof.
  intros [I1 I2 I3 I4 I0 (n & I5 & I5') I6 I7] Hid Hst.
  assert (ak_correlation (ss_asks s) + 2 ∉ (ak_pending (ss_asks s)).*1) as Hfresh.
  { intros Hin. destruct (I5' _ Hin) as (m & ? & ?). lia. }
  split; cbn; try done; rewrite ?(jm_set_new _ _ _ Hfresh), ?fmap_app; cbn.
  - intros i Hi. destruct (I2 i Hi) as [[= <-]|[?|?]]; set_solver.
  - intros i [?|[?|Hi]]; [done|apply I3; auto|]. apply elem_of_app in Hi as [?|?%list_elem_of_singleton]; apply I3; subst; auto.
  - unfold jm_wf. rewrite fmap_app. apply NoDup_app. split; [done|]. split; [set_solver|apply NoDup_singleton].
  - apply NoDup_app. split; [done|]. split; [set_solver|apply NoDup_singleton].
  - exists (Datatypes.S n). split; [lia|]. intros c [Hc|Hc%list_elem_of_singleton]%elem_of_app.
    + destruct (I5' c Hc) as (m & ? & ?). exists m. split; [lia|done].
    + exists (Datatypes.S n). split; [lia|]. cbn in Hc. lia.
  - rewrite Hst. by intros [?|?].
Qed.

(** What [ask] does once its ask has a number and a pending entry. *)
Lemma ask_sent_inv id c (refused : js_error + option js_error) s :
  session_inv s → (id < ak_count (ss_asks s))%nat →
  session_inv ((match refused with
                | inl thrown => settle_ask id (Rejected thrown)
                | inr (Some error) => rejectPending c error
                | inr None => mret tt
                end) s).2.
Proof.
  intros Hs Hid. destruct refused as [e|[e|]]; [by apply settle_again_inv|by apply keeps_rejectPending|done].
Qed.

Lemma bind_then (I : S → Prop) {A B} (m : M A) (k : A → M B) s :
  I (m s).2 → (∀ a, (m s).1 = Ok a → I (k a (m s).2).2) → I ((m ≫= k) s).2.
Proof. unfold mbind, Interning_bind. destruct (m s) as [[a|e] s1]; cbn; [|done]. intros _ Hk. by apply Hk. Qed.

(** [ask] from the point where its ask is pending. *)
Lemma ask_pending_inv id c (m : M (option js_error)) s :
  quietly m → session_inv s → (id < ak_count (ss_asks s))%nat →
  session_inv ((refused ← catching m;
                _ ← match refused with
                    | inl thrown => settle_ask id (Rejected thrown)
                    | inr (Some error) => rejectPending c error
                    | inr None => mret tt
                    end;
                mret id) s).2.
Proof.
  intros Hm Hs Hid. pose proof (quietly_catching m Hm s) as Hq.
  assert (session_inv (catching m s).2) as H1 by (by eapply inv_quiet).
  apply bind_then; [done|]. intros refused _. destruct Hq as (_ & _ & _ & Hc & _).
  assert (session_inv ((match refused with
                | inl thrown => settle_ask id (Rejected thrown)
                | inr (Some error) => rejectPending c error
                | inr None => mret tt
                end) (catching m s).2).2) by (apply ask_sent_inv; [done|lia]).
  by apply bind_then.
Qed.

Lemma keeps_ask e timeoutMs : keeps session_inv (ask e timeoutMs).
Proof.
  intros s Hs. unfold ask. apply bind_then; [done|]. intros eff [= <-]. cbn [gets snd].
  destruct (ng_effective (ss_negotiated s)) as [eff|] eqn:Heff.
  2: { apply (settle_ask_inv _ _ (new_ask s).2), new_ask_inv, Hs. }
  apply bind_then; [done|]. intros held _. cbn [gets snd]. pose proof (quietly_encoding (encodeDataEnvelope (stamped e timeoutMs)) s) as Hq.
  assert (session_inv (encoding (encodeDataEnvelope (stamped e timeoutMs)) s).2) as H1 by (by eapply inv_quiet).
  apply bind_then; [done|]. intros body _. unfold encodeData. set (s1 := (encoding _ s).2) in *.
  assert (cs_state (ss_course s1) = Open) as Hst.
  { destruct Hq as (-> & _). pose proof (si_effective _ _ Hs) as E. rewrite Heff in E. symmetry in E. by apply bool_decide_eq_true in E. }
  assert (ak_count (ss_asks s1) ∉ (ak_pending (ss_asks s1)).*2) as Hnew.
  { intros Hin. assert (ak_count (ss_asks s1) < ak_count (ss_asks s1))%nat; [|lia]. apply (si_range _ _ H1). auto. }
  pose proof (new_ask_inv _ H1) as H2. pose proof (add_pending_inv _ _ H2 Hnew Hst) as H3.
  unfold mbind at 1, Interning_bind at 1, gets at 1. unfold mbind at 1, Interning_bind at 1, new_ask at 1. cbv beta iota.
  destruct (negb _); [by apply (settle_ask_inv _ _ (new_ask s1).2)|].
  unfold mbind at 1, Interning_bind at 1, nextCorrelation at 1. unfold mbind at 1, Interning_bind at 1, add_pending at 1, modify at 1. cbv beta iota zeta.
  apply ask_pending_inv; [apply quietly_sendLogical|exact H3|cbn; lia].
Qed.
#[local] Hint Resolve keeps_ask : kept.

(** ** Teardown *)

Lemma foldl_settled_spec ps l :
  NoDup l.*1 → NoDup (foldl add_settled l ps).*1 ∧ ∀ id, id ∈ (foldl add_settled l ps).*1 ↔ id ∈ ps.*1 ∨ id ∈ l.*1.
Proof.
  revert l. induction ps as [|p ps IH]; intros l Hn; cbn [foldl]; [split; [done|set_solver]|].
  destruct (add_settled_spec l p Hn) as [Hn' Hin]. destruct (IH _ Hn') as [H1 H2]. split; [done|]. intros id. rewrite H2, Hin. set_solver.
Qed.

(** A session out of [Open] whose pending asks were all failed. *)
Lemma fail_all_inv error s s' :
  session_inv s → ss_asks s' = ss_asks (failAllPending error s).2 →
  ng_effective (ss_negotiated s') = None → cs_state (ss_course s') ≠ Open → session_inv s'.
Proof.
  intros [I1 I2 I3 I4 I0 (n & I5 & I5') I6 I7] Ha He Hst.
  destruct (foldl_settled_spec ((λ p, (p.2, Rejected error)) <$> ak_pending (ss_asks s)) _ I1) as [Hn Hin].
  rewrite <-list_fmap_compose in Hin. change (fst ∘ _) with (snd : Z * nat → nat) in Hin.
  split; rewrite ?Ha, ?He; cbn; try done.
  - intros id Hid. rewrite Hin. destruct (I2 id Hid) as [?|[?|?]]; auto.
  - intros id. rewrite Hin. intros [?|[[?|?]|?%elem_of_nil]]; [done|apply I3; auto..|done].
  - apply jm_wf_nil.
  - apply NoDup_nil_2.
  - exists n. split; [done|]. by intros c ?%elem_of_nil.
  - by rewrite bool_decide_eq_false_2.
Qed.

Lemma keeps_onConnClose error : keeps session_inv (onConnClose error).
Proof.
  intros s Hs. apply (fail_all_inv (default ErrConnClosed (or_else (cs_closeError (ss_course s)) error)) s); [done..|].
  unfold onConnClose, mbind, Interning_bind, modify, gets, failAllPending. cbn. by destruct (cs_opened (ss_course s)).
Qed.
#[local] Hint Resolve keeps_onConnClose : kept.

Lemma keeps_destroyConn error : keeps session_inv (destroyConn error).
Proof.
  intros s Hs. unfold destroyConn. destruct (fs_destroy error (ss_conn s)) as [[e|] c]; [apply keeps_onConnClose|]; by eapply inv_same.
Qed.
#[local] Hint Resolve keeps_destroyConn : kept.

Lemma bind_modify {B} f (k : unit → M B) s : (modify f ≫= k) s = k tt (f s).
Proof. done. Qed.

Lemma bind_gets {A B} (f : S → A) (k : A → M B) s : (gets f ≫= k) s = k (f s) s.
Proof. done. Qed.

(** A session torn down: what is left is to send the notice and end the connection. *)
Lemma keeps_teardown notice error : keeps session_inv (teardown notice error).
Proof.
  intros s Hs. unfold teardown. rewrite bind_gets. destruct (bool_decide _); [done|].
  rewrite !bind_modify, bind_gets. unfold failAllPending. rewrite bind_modify.
  match goal with |- session_inv (?m ?s1).2 => assert (keeps session_inv m) as Hk; [|apply Hk] end.
  - kept.
  - by eapply fail_all_inv.
Qed.
#[local] Hint Resolve keeps_teardown : kept.

Lemma keeps_failProtocol m : keeps session_inv (failProtocol m).
Proof. apply keeps_teardown. Qed.
#[local] Hint Resolve keeps_failProtocol : kept.

Lemma keeps_closeFromPeerError body : keeps session_inv (closeFromPeerError body).
Proof. unfold closeFromPeerError. kept. by apply keeps_on_course. Qed.
#[local] Hint Resolve keeps_closeFromPeerError : kept.

(** ** Frames *)

Lemma opened_inv now remote effective s : session_inv s → session_inv (opened self readIdleMs connIdleMs now remote effective s).
Proof. intros [I1 I2 I3 I4 I0 I5 I6 I7]. split; try done. cbn. by intros [?|?]. Qed.

Lemma quietly_sendHello t h : quietly (sendHello t h).
Proof. unfold sendHello. quietly. Qed.
#[local] Hint Resolve quietly_sendHello : quiet.

Lemma keeps_onHandshakeFrame now h body : keeps session_inv (onHandshakeFrame dialer self readIdleMs connIdleMs now h body).
Proof.
  unfold onHandshakeFrame. kept; intros s Hs; first [by apply opened_inv|by eapply inv_same].
Qed.
#[local] Hint Resolve keeps_onHandshakeFrame : kept.

Lemma quietly_answerError h code e : quietly (answerError h code e).
Proof. unfold answerError. quietly. Qed.
#[local] Hint Resolve quietly_answerError : quiet.

Lemma keeps_onDataFrame h body : keeps session_inv (onDataFrame onDataThrows h body).
Proof. unfold onDataFrame, deliver. kept. by apply keeps_on_course. Qed.
#[local] Hint Resolve keeps_onDataFrame : kept.

Lemma keeps_onReplyFrame h body : keeps session_inv (onReplyFrame h body).
Proof.
  unfold onReplyFrame. apply keeps_take; [apply keeps_ret|]. intros id s Hs. rewrite bind_gets.
  destruct (decodeReplyEnvelope _ _) as [[e r]|e]; [by apply settle_ask_inv|].
  pose proof (settle_ask_inv id (Rejected e) s Hs) as H1. apply bind_then; [done|]. intros _ _. destruct (is_protocol_error e); [|done].
  by apply keeps_failProtocol.
Qed.
#[local] Hint Resolve keeps_onReplyFrame : kept.

Lemma keeps_onRequestError h body : keeps session_inv (onRequestError h body).
Proof.
  unfold onRequestError. apply keeps_take; [apply keeps_ret|]. intros id s Hs.
  destruct (decodeErrorBody _) as [[peer r]|e]; by apply settle_ask_inv.
Qed.
#[local] Hint Resolve keeps_onRequestError : kept.

Lemma keeps_onLogicalFrame h body : keeps session_inv (onLogicalFrame onDataThrows h body).
Proof. unfold onLogicalFrame, failLaneMismatch. kept. Qed.
#[local] Hint Resolve keeps_onLogicalFrame : kept.

Lemma keeps_onChunkFrame h body : keeps session_inv (onChunkFrame onDataThrows h body).
Proof.
  unfold onChunkFrame. apply keeps_bind; [apply keeps_gets|intros revision]. destruct (revision <? REVISION_CHUNKING); [apply keeps_failProtocol|].
  apply keeps_bind; [|intros outcome; kept]. intros s Hs. destruct (push h body _) as [o r]. by eapply inv_same.
Qed.
#[local] Hint Resolve keeps_onChunkFrame : kept.

Lemma keeps_onCreditFrame body : keeps session_inv (onCreditFrame body).
Proof.
  unfold onCreditFrame. kept. intros s Hs. destruct (st_ledger (ss_streams s)) as [g|]; [|done].
  destruct (cw_grant _ _) as [out w]. eapply (keeps_quietly (_ ← write_all out; mret tt)); [quietly|]. by eapply inv_same.
Qed.
#[local] Hint Resolve keeps_onCreditFrame : kept.

Lemma keeps_onTableFrame body : keeps session_inv (onTableFrame body).
Proof. unfold onTableFrame. kept. Qed.
#[local] Hint Resolve keeps_onTableFrame : kept.

Lemma keeps_onFrame now h body : keeps session_inv (onFrame dialer self readIdleMs connIdleMs onDataThrows now h body).
Proof. unfold onFrame, onOpenFrame, failLaneMismatch. kept. Qed.
#[local] Hint Resolve keeps_onFrame : kept.

(** ** Deadlines *)

Lemma keeps_onGrantDeadline : keeps session_inv onGrantDeadline.
Proof.
  intros s Hs. unfold onGrantDeadline. destruct (st_ledger (ss_streams s)) as [g|]; [|done]. destruct (flushOwedGrant g) as [due g'].
  eapply (keeps_quietly (sendCredit due)); [apply quietly_sendCredit|]. by eapply inv_same.
Qed.
#[local] Hint Resolve keeps_onGrantDeadline : kept.

Lemma keeps_armLiveness : keeps session_inv (armLiveness readIdleMs).
Proof. intros s Hs. unfold armLiveness. destruct (_ || _); [done|]. by eapply inv_same. Qed.
#[local] Hint Resolve keeps_armLiveness : kept.

Lemma keeps_set_closeError e : keeps session_inv (modify (on_course (set_closeError e))).
Proof. by apply keeps_on_course. Qed.
#[local] Hint Resolve keeps_set_closeError : kept.

Lemma keeps_onLivenessDeadline now : keeps session_inv (onLivenessDeadline readIdleMs now).
Proof. unfold onLivenessDeadline. kept. Qed.

Lemma keeps_onReclaimDeadline now : keeps session_inv (onReclaimDeadline connIdleMs now).
Proof. unfold onReclaimDeadline. kept. Qed.

Lemma keeps_onHandshakeTimeout : keeps session_inv onHandshakeTimeout.
Proof. unfold onHandshakeTimeout. kept. by apply keeps_on_course. Qed.

Lemma keeps_cachePathHandle path handle : keeps session_inv (cachePathHandle path handle).
Proof.
  intros s Hs. unfold cachePathHandle. destruct (st_inTables (ss_streams s)) as [t|]; [|done]. destruct (cacheHandle path handle t). by eapply inv_same.
Qed.
#[local] Hint Resolve keeps_onLivenessDeadline keeps_onReclaimDeadline keeps_onHandshakeTimeout keeps_cachePathHandle : kept.

(** ** Every event *)

Lemma session_step_inv s e :
  session_inv s → session_inv (session_step dialer self readIdleMs connIdleMs onDataThrows s e).
Proof.
  intros Hs. unfold session_step. assert (keeps session_inv (session_handler dialer self readIdleMs connIdleMs onDataThrows e s)) as Hk; [|by apply Hk].
  destruct e; cbn [session_handler]; unfold done, start, sendFrame, tell, reply, onAskTimeout, onForceClose, close, closeWith, destroySession, encodeData, encodeReply; kept.
Qed.

Lemma session_run_inv es s :
  session_inv s → session_inv (session_run dialer self readIdleMs connIdleMs onDataThrows es s).
Proof. revert s. induction es as [|e es IH]; intros s Hs; [done|]. by apply IH, session_step_inv. Qed.

Lemma new_Session_inv conn chunkSize now timeout : session_inv (new_Session dialer self conn chunkSize now timeout).
Proof.
  split; cbn; try done; [apply NoDup_nil_2|lia| |apply jm_wf_nil|apply NoDup_nil_2|].
  - by intros id [?|[?%elem_of_nil|?%elem_of_nil]].
  - exists 0%nat. split; [unfold base; by destruct dialer|]. by intros c ?%elem_of_nil.
Qed.
End asks.
