(* ===== verification/NetHandshake.v ===== *)
(** * Opening, probing and accounting for a session ([src/net/session.ts])

    The framed connection as the session's sink, the handshake of a dialer and an acceptor
    over the bytes of their HELLO frames, what the liveness deadline sends, and what every
    run of a session keeps true of its asks. *)
From S2P Require Import Prelude JsNumber JsString ByteIO NetBytes NetQueue NetFrame NetConn NetCredit NetEnvelope NetTable NetChunk NetSession NetSessionAsks.

(** ** The framed connection, with the inbound bound [setMaxFrameSize] rebinds *)

Section sink.
Context (batchFrames : nat) (writeTimeoutMs : Z) (flushed : nat → bool).

#[global] Instance conn_sink : FrameSink (Conn * Z) := {
  fs_send f c := let! r := send batchFrames writeTimeoutMs flushed f c.1 in Ok (r.1, (r.2, c.2));
  fs_end c := (endConn c.1, c.2);
  fs_destroy error c :=
    let c' := destroy error c.1 in
    (if lf_closed (cn_life c.1) || lf_closeReported (cn_life c.1) then None else Some (lf_closeError (cn_life c')), (c', c.2));
  fs_setMaxFrameSize n c := (c.1, n);
  fs_outstandingBytes c := outstandingBytes c.1 }.
End sink.

(** ** Negotiation *)

(** What both ends must hold alike to understand each other's frames. *)
Definition terms (h : Hello) : Z * Z * Z * Z * Z * Z * Z :=
  (hl_revision h, hl_lane h, hl_compression h, hl_maxFrameSize h, hl_maxMessageSize h, hl_initialCredits h, hl_maxLargeTransfers h).

(** The dialer negotiates with the acceptor's answer and reaches the same terms. *)
Lemma negotiate_back d a : terms (negotiateHello d (negotiateHello a d)) = terms (negotiateHello a d).
Proof.
  unfold terms, negotiateHello. cbn. destruct (Z.eqb_spec (hl_compression a) (hl_compression d)) as [_|_].
  - rewrite Z.eqb_refl. repeat (apply (f_equal2 pair)); lia.
  - destruct (hl_compression d =? 0); repeat (apply (f_equal2 pair)); lia.
Qed.

Lemma negotiate_hello_ok a d : hello_ok a → hello_ok d → hello_ok (negotiateHello a d).
Proof.
  intros (P1 & P2 & _ & _) (_ & _ & B1 & B2). unfold hello_ok, negotiateHello. cbn. split_and!; try done. destruct (_ =? _); [done|]. unfold is_byte. lia.
Qed.

(** The bytes of a HELLO, read back. *)
Lemma hello_read h w : hello_ok h → encodeHello h (new_NetWriter 256) = Ok w → ∃ r, decodeHello (MkReader (nw_out w) 0) = Ok (h, r).
Proof.
  intros Hh E. destruct (new_NetWriter_ok 256) as [Hw Ho]. destruct (hello_roundtrip h _ w Hw Hh E) as (bs & [_ Hout] & Hr).
  rewrite Ho in Hout. specialize (Hr [] []). cbn [app length] in Hr. rewrite app_nil_r in Hr. rewrite Hout. by eexists.
Qed.

Section handshake.
Context {C H : Type} `{!FrameSink C}.
Context (readIdleMs connIdleMs : Z) (onDataThrows : DataEnvelope → Z → option js_error).

Abbreviation step dialer self := (session_step (C:=C) (H:=H) dialer self readIdleMs connIdleMs onDataThrows).

(** A frame of the handshake, as the parser hands it over. *)
Definition hello_header (type lane : Z) (body : list Z) : FrameHeader := MkHeader type 0 lane (Z.of_nat (length body)) 0.

(** The acceptor answers a HELLO and opens. *)
Lemma acceptor_opens a d s now wd wa r c :
  cs_state (ss_course s) = Handshaking → hello_ok d → 1 ≤ hl_revision d → encodeHello d (new_NetWriter 256) = Ok wd →
  encodeHello (negotiateHello a d) (new_NetWriter 256) = Ok wa →
  fs_send (MkOutbound FRAME_HELLO_ACK 0 (hl_lane d) 0 (Some (nw_out wa)) None) (ss_conn s) = Ok (r, c) →
  step false a s (EFrame now (hello_header FRAME_HELLO (hl_lane d) (nw_out wd)) (nw_out wd))
  = opened a readIdleMs connIdleMs now d (negotiateHello a d)
      (on_conn (λ _, c) (on_negotiated (λ n, MkNegotiated (Some d) (ng_effective n) (ng_lane n) (ng_chunkSize n) (ng_revision n) (ng_admissionCap n)) s)).
Proof.
  intros Hst Hd Hrev Ed Ea Hsend. unfold session_step. cbn [session_handler]. unfold onFrame. rewrite bind_gets, Hst.
  unfold onHandshakeFrame. cbn -[opened decodeHello sendHello negotiateHello]. destruct (hello_read d wd Hd Ed) as [rd ->].
  rewrite (proj2 (Z.ltb_ge _ _)) by lia. rewrite bind_modify. unfold sendHello, NetEnvelope.lift, mbind, Interning_bind. rewrite Ea. cbn -[opened negotiateHello].
  unfold conn_send. change (fs_send _ _) with (fs_send (MkOutbound FRAME_HELLO_ACK 0 (hl_lane d) 0 (Some (nw_out wa)) None) (ss_conn s)). by rewrite Hsend.
Qed.

(** The dialer reads the answer and opens. *)
Lemma dialer_opens d e s now we :
  cs_state (ss_course s) = Handshaking → hello_ok e → 1 ≤ hl_revision e → encodeHello e (new_NetWriter 256) = Ok we →
  step true d s (EFrame now (hello_header FRAME_HELLO_ACK (hl_lane e) (nw_out we)) (nw_out we))
  = opened d readIdleMs connIdleMs now e (negotiateHello d e)
      (on_negotiated (λ n, MkNegotiated (Some e) (ng_effective n) (ng_lane n) (ng_chunkSize n) (ng_revision n) (ng_admissionCap n)) s).
Proof.
  intros Hst He Hrev E. unfold session_step. cbn [session_handler]. unfold onFrame. rewrite bind_gets, Hst.
  unfold onHandshakeFrame. cbn -[opened decodeHello negotiateHello]. destruct (hello_read e we He E) as [rd ->].
  by rewrite (proj2 (Z.ltb_ge _ _)) by lia.
Qed.

(** C25: a handshake ends in agreement.  A dialer's HELLO, as it is encoded, opens an acceptor;
    the acceptor's HELLO_ACK, as it is encoded, opens the dialer.  Both ends then hold the same
    revision, lane, compression, frame and message limits, credits and transfer limit: the lane
    is the dialer's, the compression is a codec both proposed or none, the revision and the
    credits are the lesser of the two sides', and so are the limits unless a floor raises them:
    16384 bytes for a frame, the frame limit for a message, one for transfers.  Both have a credit window or neither, with
    the same size, and both have string tables or neither. *)
Theorem handshake_agrees a d sa sd ta td wd wa r c :
  cs_state (ss_course sa) = Handshaking → cs_state (ss_course sd) = Handshaking →
  st_ledger (ss_streams sa) = None → st_ledger (ss_streams sd) = None →
  st_outTables (ss_streams sa) = None → st_outTables (ss_streams sd) = None →
  st_inTables (ss_streams sa) = None → st_inTables (ss_streams sd) = None →
  hello_ok a → hello_ok d → 1 ≤ hl_revision a → 1 ≤ hl_revision d →
  encodeHello d (new_NetWriter 256) = Ok wd → encodeHello (negotiateHello a d) (new_NetWriter 256) = Ok wa →
  fs_send (MkOutbound FRAME_HELLO_ACK 0 (hl_lane d) 0 (Some (nw_out wa)) None) (ss_conn sa) = Ok (r, c) →
  let sa' := step false a sa (EFrame ta (hello_header FRAME_HELLO (hl_lane d) (nw_out wd)) (nw_out wd)) in
  let sd' := step true d sd (EFrame td (hello_header FRAME_HELLO_ACK (hl_lane d) (nw_out wa)) (nw_out wa)) in
  ∃ ea ed, ng_effective (ss_negotiated sa') = Some ea ∧ ng_effective (ss_negotiated sd') = Some ed
    ∧ isOpen sa' = true ∧ isOpen sd' = true ∧ terms ea = terms ed
    ∧ ng_lane (ss_negotiated sa') = hl_lane d ∧ ng_lane (ss_negotiated sd') = hl_lane d
    ∧ (hl_compression ea ≠ 0 → hl_compression ea = hl_compression a ∧ hl_compression ea = hl_compression d)
    ∧ hl_revision ea = Z.min (hl_revision a) (hl_revision d)
    ∧ hl_initialCredits ea = Z.min (hl_initialCredits a) (hl_initialCredits d)
    ∧ hl_maxFrameSize ea = Z.max 16384 (Z.min (hl_maxFrameSize a) (hl_maxFrameSize d))
    ∧ hl_maxMessageSize ea = Z.max (hl_maxFrameSize ea) (Z.min (hl_maxMessageSize a) (hl_maxMessageSize d))
    ∧ hl_maxLargeTransfers ea = Z.max 1 (Z.min (hl_maxLargeTransfers a) (hl_maxLargeTransfers d))
    ∧ st_ledger (ss_streams sa') = st_ledger (ss_streams sd')
    ∧ st_outTables (ss_streams sa') = st_outTables (ss_streams sd')
    ∧ st_inTables (ss_streams sa') = st_inTables (ss_streams sd').
Proof.
  intros Ha Hd La Ld Oa Od Ia Id Ka Kd Ra Rd Ed Ea Hsend sa' sd'.
  assert (1 ≤ hl_revision (negotiateHello a d)) as Re by (cbn; lia).
  unfold sa', sd'. rewrite (acceptor_opens a d sa ta wd wa r c) by done.
  pose proof (dialer_opens d (negotiateHello a d) sd td wa Hd (negotiate_hello_ok a d Ka Kd) Re Ea) as Hdial.
  change (hl_lane (negotiateHello a d)) with (hl_lane d) in Hdial. rewrite Hdial.
  pose proof (negotiate_back d a) as Ht. exists (negotiateHello a d), (negotiateHello d (negotiateHello a d)).
  unfold terms in Ht. rewrite !pair_equal_spec in Ht. destruct Ht as [[[[[[T1 T2] T3] T4] T5] T6] T7]. unfold terms.
  cbn -[negotiateHello]. rewrite T1, T2, T3, T4, T5, T6, T7, La, Ld, Oa, Od, Ia, Id.
  split_and!; try done; cbn; unfold MIN_MAX_FRAME_SIZE; try lia. destruct (Z.eqb_spec (hl_compression a) (hl_compression d)); by intros ?.
Qed.

(** An open session whose liveness timer is armed, with a connection, a probe state and a count of misses. *)
Definition probing (c : C) (outstanding : bool) (misses last : Z) (s : Session C H) : Prop :=
  isOpen s = true ∧ ss_conn s = c ∧ lv_livenessTimer (ss_liveness s) = true ∧ lv_probeOutstanding (ss_liveness s) = outstanding
  ∧ lv_livenessMisses (ss_liveness s) = misses ∧ lv_lastInbound (ss_liveness s) = last.

Definition set_misses (n : Z) (l : Liveness) : Liveness :=
  MkLiveness (lv_lastInbound l) (lv_probeOutstanding l) n (lv_handshakeTimer l) (lv_livenessTimer l) (lv_reclaimTimer l) (lv_forceCloseTimer l).

(** An idle deadline on an open session, past its guards. *)
Lemma idle_deadline dialer self s now c outstanding misses last :
  readIdleMs ≤ now - last → probing c outstanding misses last s →
  let n := if outstanding then misses + 1 else misses in
  step dialer self s (ELiveness now)
  = ((if outstanding && (LIVENESS_MISS_LIMIT <=? n) then
        _ ← modify (on_course (set_closeError (Some ErrLivenessTimeout))); destroyConn (Some ErrLivenessTimeout)
      else
        _ ← (if outstanding then mret tt
             else
               correlation ← nextCorrelation;
               refused ← sendControl FRAME_PING correlation None;
               modify (on_liveness (set_probe (negb (is_some refused)))));
        armLiveness readIdleMs) (on_liveness (set_misses n) s)).2.
Proof.
  intros Hn (Ho & _ & Ht & Hp & Hm & Hl). cbv zeta. unfold session_step. cbn [session_handler]. rewrite Ht. unfold onLivenessDeadline.
  rewrite bind_gets, Ho. cbn [negb]. rewrite bind_gets, Hl, (proj2 (Z.ltb_ge _ _)) by lia. by rewrite Hp, Hm, bind_modify.
Qed.

Lemma idle_probes dialer self s now c c' last :
  0 < readIdleMs → readIdleMs ≤ now - last → probing c false 0 last s →
  fs_send (MkOutbound FRAME_PING 0 (ng_lane (ss_negotiated s)) (ak_correlation (ss_asks s) + 2) None None) c = Ok (None, c') →
  probing c' true 0 last (step dialer self s (ELiveness now)).
Proof.
  intros Hr Hn Hs Hsend. rewrite (idle_deadline _ _ _ _ _ _ _ _ Hn Hs). destruct Hs as (Ho & Hc & Ht & Hp & Hm & Hl). cbn [andb]. unfold nextCorrelation, sendControl, conn_send, mbind, Interning_bind, gets, modify. cbn -[fs_send armLiveness].
  rewrite Hc. change (fs_send _ _) with (fs_send (MkOutbound FRAME_PING 0 (ng_lane (ss_negotiated s)) (ak_correlation (ss_asks s) + 2) None None) c).
  rewrite Hsend. cbn -[armLiveness]. unfold armLiveness. rewrite (proj2 (Z.leb_gt _ _)) by lia. unfold isOpen in *. cbn. rewrite Ho. by cbn.
Qed.

Lemma idle_misses dialer self s now c last :
  0 < readIdleMs → readIdleMs ≤ now - last → probing c true 0 last s → probing c true 1 last (step dialer self s (ELiveness now)).
Proof.
  intros Hr Hn Hs. rewrite (idle_deadline _ _ _ _ _ _ _ _ Hn Hs). destruct Hs as (Ho & Hc & Ht & Hp & Hm & Hl). cbn [andb]. change (LIVENESS_MISS_LIMIT <=? 0 + 1) with false. cbv beta iota. unfold mbind, Interning_bind, mret, Interning_ret.
  unfold armLiveness. rewrite (proj2 (Z.leb_gt _ _)) by lia. unfold isOpen in *. cbn. rewrite Ho. by cbn.
Qed.

Lemma idle_kills dialer self s now c last :
  readIdleMs ≤ now - last → probing c true 1 last s →
  let s' := step dialer self s (ELiveness now) in
  ss_conn s' = (fs_destroy (Some ErrLivenessTimeout) c).2 ∧ cs_closeError (ss_course s') = Some ErrLivenessTimeout.
Proof.
  intros Hn Hs. cbv zeta. rewrite (idle_deadline _ _ _ _ _ _ _ _ Hn Hs). destruct Hs as (Ho & Hc & Ht & Hp & Hm & Hl). cbn [andb]. change (LIVENESS_MISS_LIMIT <=? 1 + 1) with true. cbv beta iota. rewrite bind_modify.
  unfold destroyConn. cbn -[fs_destroy onConnClose]. rewrite Hc. destruct (fs_destroy _ c) as [[e|] c']; [|done].
  unfold onConnClose, mbind, Interning_bind, modify, gets, failAllPending. cbn. by case_match.
Qed.

(** C26: the liveness deadline sends one probe.  On an open session with no probe outstanding,
    three idle deadlines in a row send a single PING and then destroy the connection with the
    liveness error: the second deadline counts a miss against the same probe and sends nothing,
    so no second probe is ever sent before the close. *)
Theorem liveness_single_probe dialer self (s : Session C H) t1 t2 t3 c :
  isOpen s = true → 0 < readIdleMs →
  lv_livenessTimer (ss_liveness s) = true → lv_probeOutstanding (ss_liveness s) = false → lv_livenessMisses (ss_liveness s) = 0 →
  readIdleMs ≤ t1 - lv_lastInbound (ss_liveness s) → t1 ≤ t2 → t2 ≤ t3 →
  fs_send (MkOutbound FRAME_PING 0 (ng_lane (ss_negotiated s)) (ak_correlation (ss_asks s) + 2) None None) (ss_conn s) = Ok (None, c) →
  let s' := session_run dialer self readIdleMs connIdleMs onDataThrows [ELiveness t1; ELiveness t2; ELiveness t3] s in
  ss_conn s' = (fs_destroy (Some ErrLivenessTimeout) c).2 ∧ cs_closeError (ss_course s') = Some ErrLivenessTimeout.
Proof.
  intros Ho Hr Ht Hp Hm H1 H2 H3 Hs s'.
  pose proof (idle_probes dialer self s t1 _ c _ Hr H1 ltac:(by split_and!) Hs) as P1.
  eapply (idle_misses dialer self _ t2) in P1; [|lia..]. eapply (idle_kills dialer self _ t3) in P1; [|lia]. exact P1.
Qed.

(** C24: no ask is lost.  Whatever the connection, the peer, the owner and the timers do, every
    ask ever made over a session is settled or pending; a session that is closing or closed has
    settled all of them; pending asks have distinct positive correlation ids of this side's
    parity, so they never collide with the peer's; and sends are possible exactly while the
    session is open. *)
Theorem asks_accounted dialer self conn chunkSize now timeout es :
  let s := session_run dialer self readIdleMs connIdleMs onDataThrows es (new_Session (C:=C) (H:=H) dialer self conn chunkSize now timeout) in
  let a := ss_asks s in
  (∀ id, (id < ak_count a)%nat → id ∈ (ak_settled a).*1 ∨ id ∈ (ak_pending a).*2)
  ∧ (bool_decide (cs_state (ss_course s) = Closing ∨ cs_state (ss_course s) = Closed) = true →
     ak_pending a = [] ∧ ∀ id, (id < ak_count a)%nat → id ∈ (ak_settled a).*1)
  ∧ NoDup (ak_pending a).*1 ∧ NoDup (ak_pending a).*2
  ∧ (∀ correlation, correlation ∈ (ak_pending a).*1 → 0 < correlation ∧ Z.odd correlation = dialer)
  ∧ is_some (ng_effective (ss_negotiated s)) = isOpen s.
Proof.
  intros s a. assert (inv_but dialer None s) as [I1 I2 I3 I4 I0 (n & I5 & I5') I6 I7].
  { apply session_run_inv, new_Session_inv. }
  split_and!; try done.
  - intros id Hid. destruct (I2 id Hid) as [?|?]; [done|auto].
  - intros Hst%bool_decide_eq_true. pose proof (I7 Hst) as Hnil. split; [done|]. intros id Hid. destruct (I2 id Hid) as [?|[?|Hin]]; [done|done|].
    rewrite Hnil in Hin. by apply elem_of_nil in Hin.
  - intros c Hc. destruct (I5' c Hc) as (m & Hm & ->). unfold base. destruct dialer; [|rewrite Z.add_0_l].
    + split; [lia|]. by rewrite Z.odd_add, Z.odd_mul.
    + split; [lia|]. by rewrite Z.odd_mul.
Qed.
End handshake.

(** ** Concrete sessions over framed connections *)

Definition no_throw (_ : DataEnvelope) (_ : Z) : option js_error := None.

Definition hello_a : Hello := MkHello 4 (js "a") (js "h") 9000 0 1 32768 65536 4096 2.
Definition hello_d : Hello := MkHello 3 (js "d") (js "h") 9001 2 0 16384 20000 8192 0.

#[local] Instance demo_sink : FrameSink (Conn * Z) := conn_sink 16 0 (λ _, true).

Definition demo_session (dialer : bool) (self : Hello) : Session (Conn * Z) unit := new_Session dialer self (new_Conn 0, 0) 16384 0 1000.

Definition demo_open : Session (Conn * Z) unit := opened hello_d 100 0 0 hello_a hello_d (demo_session true hello_d).

Definition written (r : result NetWriter) : NetWriter := match r with Ok w => w | Throw _ => new_NetWriter 256 end.

Definition sent (f : OutboundFrame) (c : Conn * Z) : Conn * Z := match fs_send f c with Ok r => r.2 | Throw _ => c end.

(** A new connection, whatever its batch buffer. *)
Definition fresh_conn (w : NetWriter) : Conn :=
  MkConn (MkSend new_HeadQueue w 0 0) (MkSocket [] [] 0 false 0 false 0 0 None) (MkLife false false false None false false false [] []).

Definition demo_ping : OutboundFrame := MkOutbound FRAME_PING 0 2 1 None None.

Lemma demo_ping_sent w max : fs_send demo_ping (fresh_conn w, max) = Ok (None, sent demo_ping (fresh_conn w, max)).
Proof. reflexivity. Qed.

Lemma liveness_single_probe_witness :
  let c := sent demo_ping (fresh_conn (new_NetWriter (Z.to_nat BATCH_BYTES)), 16384) in
  let s' := session_run true hello_d 100 0 no_throw [ELiveness 100; ELiveness 200; ELiveness 300] demo_open in
  ss_conn s' = (fs_destroy (Some ErrLivenessTimeout) c).2 ∧ cs_closeError (ss_course s') = Some ErrLivenessTimeout.
Proof.
  refine (liveness_single_probe 100 0 no_throw true hello_d demo_open 100 200 300 _ eq_refl _ eq_refl eq_refl eq_refl _ _ _ (demo_ping_sent _ _)).
  all: vm_compute; congruence.
Defined.

Definition wire_d : NetWriter := written (encodeHello hello_d (new_NetWriter 256)).
Definition wire_a : NetWriter := written (encodeHello (negotiateHello hello_a hello_d) (new_NetWriter 256)).
Definition demo_ack : OutboundFrame := MkOutbound FRAME_HELLO_ACK 0 2 0 (Some (nw_out wire_a)) None.

Lemma demo_ack_sent w max : fs_send demo_ack (fresh_conn w, max) = Ok (None, sent demo_ack (fresh_conn w, max)).
Proof. reflexivity. Qed.

Lemma hello_demo_ok : hello_ok hello_a ∧ hello_ok hello_d.
Proof. unfold hello_ok, plain, is_byte, is_unit. cbn. split_and!; try done; repeat constructor; done. Qed.

Lemma handshake_agrees_witness :
  let sa' := session_step false hello_a 100 0 no_throw (demo_session false hello_a) (EFrame 5 (hello_header FRAME_HELLO 2 (nw_out wire_d)) (nw_out wire_d)) in
  let sd' := session_step true hello_d 100 0 no_throw (demo_session true hello_d) (EFrame 9 (hello_header FRAME_HELLO_ACK 2 (nw_out wire_a)) (nw_out wire_a)) in
  ∃ ea ed, ng_effective (ss_negotiated sa') = Some ea ∧ ng_effective (ss_negotiated sd') = Some ed ∧ terms ea = terms ed.
Proof.
  destruct (handshake_agrees 100 0 no_throw hello_a hello_d (demo_session false hello_a) (demo_session true hello_d) 5 9 wire_d wire_a
    None _ eq_refl eq_refl eq_refl eq_refl eq_refl eq_refl eq_refl eq_refl (proj1 hello_demo_ok) (proj2 hello_demo_ok)
    ltac:(vm_compute; congruence) ltac:(vm_compute; congruence) eq_refl eq_refl (demo_ack_sent _ _)) as (ea & ed & H1 & H2 & _ & _ & H3 & _).
  exists ea, ed. exact (conj H1 (conj H2 H3)).
Defined.
